(* ===== verification/_CoqProject ===== *)
-Q . S2P
Prelude.v
Raftpb.v
RaftLog.v
Raft.v
RaftInv.v
RaftElection.v
RaftNode.v
RaftCluster.v
RaftProps.v
RaftFindings.v
Wire.v
RaftpbCodec.v
Walpb.v
Snappb.v
Etcdserverpb.v
Crc.v
Wal.v
WalNames.v
WalRecords.v
WalRead.v
WalProps.v
WalLog.v
WalFaults.v
RaftStorage.v
Paths.v
Utf8.v
Snap.v
SnapProps.v
TtlHeap.v
EtcdError.v
Stats.v
StoreEvent.v
WatcherHub.v
HubProps.v
HubNotify.v
StoreNode.v
Store.v
StoreTree.v
StoreRemove.v
StoreWalk.v
StoreCreate.v
StoreProps.v
StoreUpdate.v
StoreDelete.v
StoreExpire.v
StoreGet.v
StoreApi.v
StoreTheorems.v
StoreReplica.v
StoreFindings.v
StoreSave.v
StoreSaved.v
StoreRecover.v
Wait.v
Url.v
Server.v
Http.v
Client.v
Routes.v
ServerProps.v
ServerFindings.v
ServerRestart.v
ClientProps.v
ServerAnswer.v
Sha1.v
Cluster.v
ClusterProps.v
Discovery.v
Proxy.v
ProxyProps.v
NetUrl.v
Transport.v
Flags.v
Main.v
FlagsProps.v
MainProps.v
Itest.v
