(* ===== verification/Prelude.v ===== *)
(** * etcd: a verification development

    etcd is a key-value store that a cluster of servers replicates.  A client request comes in
    by HTTP (src/etcdserver/etcdhttp) to the server (src/etcdserver), which proposes it to its
    raft node (src/raft); what raft decides to keep is written to the write-ahead log (src/wal)
    and to snapshots (src/snap) in the format of the generated protobuf code; once an entry is
    committed, its request is applied to the store (src/store), which tells the watchers of the
    changed keys, and the response is handed to the client that waits (src/wait).  Clients
    (src/client) can ask the proxy (src/proxy) instead, and the members of a new cluster find
    each other by the discovery (src/discovery).  src/main.go reads the flags (src/pkg) and puts
    these parts together.  This development models them and proves what each of them promises to
    the next.

    ** The files

    Raft, its messages and its storage:
    - Prelude: Go panics as the monad [outcome], field updates, machine integers, and
      lemmas on lists and maps that the components share.
    - Raftpb, RaftLog, Raft, RaftNode: the messages of src/raft/raftpb, and log.go, raft.go
      and node.go of src/raft.  One record per struct, one definition per method.  The loop
      of node.go is a step function on its local variables; the order in which Go ranges
      over a map is a parameter, the class [MapRange].
    - RaftInv, RaftElection, RaftCluster, RaftProps, RaftFindings: the invariant of a node,
      the specification of elections that [Step] refines, and a cluster of nodes over a
      network that loses, repeats and reorders messages.  At most one leader is elected in
      a term; logs that match stay matching; committed entries are delivered once and in
      order; the rule of commitment, the answers to vote requests and the append messages
      are given exactly.  Two runs show where the code goes wrong.
    - Wire, RaftpbCodec, Walpb, Snappb, Etcdserverpb: the code that gogoprotobuf generates,
      as one template with a table of fields per message.  Marshal and Unmarshal are
      inverse, Size is the length that is written; malformed input can make Unmarshal panic
      or run forever.
    - Crc: the running checksum of src/pkg/crc.  It tells any two data apart that differ in
      up to four neighbouring bytes.
    - Wal, WalNames, WalRecords, WalRead, WalProps, WalLog, WalFaults: src/wal, on a
      directory that is a map from names to bytes.  Whatever is saved, cut and reopened,
      reading gives the replay of what was saved; damaged records are reported.
    - RaftStorage: a node and its log together.  A crash of the process ([crashed]) leaves the
      files without what the encoder has buffered, and nothing closes the log.  In any life
      of a node without snapshots, with such crashes and restarts, the node that is started
      from the files has the term, vote, commit index and entries of the one that saved its
      last Ready.
    - Snap, SnapProps: src/snap.  Load gives the newest snapshot whose file was not damaged,
      when the damage is a change of up to four neighbouring bytes of the data.

    The store:
    - Paths, TtlHeap, EtcdError, Stats, StoreEvent, WatcherHub, StoreNode, Store: src/store
      and src/error.  Nodes, watchers, lists and events are shared in memory, so that they
      are maps from pointers; an operation holds the lock of the store and is one function
      of its state.  The order of the children of a directory is the class [ChildRange].
    - HubProps, HubNotify: the invariant of the watcher hub, and which watchers get an event.
    - StoreTree, StoreRemove, StoreWalk, StoreCreate, StoreProps, StoreUpdate, StoreDelete,
      StoreExpire, StoreGet: the tree as a map of the keys ([view], [keys]), and each
      operation as a change of this map.
    - StoreApi, StoreTheorems, StoreFindings: the store refines an abstract map of the keys
      with an index; reading back, listings, which are nested and sorted at every level,
      comparisons, expiry, watchers and history; and three surprises.
    - StoreReplica: two stores with the same keys stay the same, whatever the order of maps.
    - Utf8: the strings that encoding/json keeps: [coerce] puts U+FFFD in the place of each
      byte that is not part of a rune, and is the identity on valid UTF-8.
    - StoreSave, StoreSaved, StoreRecover: Save and Recovery on a tree of the JSON fields,
      whose strings are coerced.  A restart from a snapshot gives the keys again, unchanged
      when they are UTF-8; from a new store, with such restarts, nothing panics or runs
      forever.

    The server and its clients:
    - Wait: src/wait, with the goroutines that share the list as a step relation.
    - Url, NetUrl: what the program uses of the packages net/url, net, strconv and strings.
    - Server, Http, Routes, Client: src/etcdserver/server.go, src/etcdserver/etcdhttp and
      src/client.  Do, configure and the handlers are split where they wait; the calls that
      the server makes on its node and its storage are a list.
    - ServerProps, ServerFindings, ServerAnswer, ClientProps: servers that apply the same
      entries agree; a request that is proposed gets its own response; the server reads from a
      request what the client meant.
    - ServerRestart: a server that is restarted from the files of its log has the keys it had.
    - Sha1, Cluster, ClusterProps: the members of a cluster, and the store as a map of them,
      up to the bytes of their strings that are not UTF-8.
    - Discovery: src/discovery against the class [EtcdClient], of which the client is an
      instance.  Members that see enough others agree on who is in the cluster.
    - Proxy, ProxyProps: src/proxy and src/pkg/cors.go, with the timers of the director.

    The program:
    - Transport: src/pkg/transport.  When there is a listener, which one, and which error.
    - Flags, FlagsProps: src/pkg/flags, src/pkg/types, src/pkg/flag.go, and the Set methods of
      the cluster and of CORS, on a model of package flag.
    - Main, MainProps: src/main.go.  startEtcd as a function on a file system; a server that it
      starts again on the files of one that crashed has its log and its keys.  The two starts
      range over the members in different orders, so that the indexes of the keys of the
      members may differ.
    - Itest: src/itest.

    ** Bounds and fuel

    A loop that is not structural runs on fuel, and a theorem says that the fuel is enough:
    a varint has at most ten bytes, and an Unmarshal loop consumes a byte in each turn or
    returns, so that the length of the data is enough (Wire); a path in a tree has fewer
    names than the tree has nodes, so that [levels] is enough for Remove, Repr, Clone and
    recoverAndclean; a turn of DeleteExpiredKeys takes a node from the heap; a turn of
    newCertPool takes a block from the file; trimming and splitting text take a character.
    [run] distinguishes a panic ([Crash]) from a loop that does not end ([Loop]).  int is 64
    bits.  Integers are kept at their width where the code can overflow; the theorems on the
    store ask for room for the indexes that are to come.

    ** Not modelled

    The scheduling of goroutines, except where they are a step relation (Wait) or a handler is
    split where it waits; sockets, the network and certificates, which are parameters.  JSON
    text: the state of a store is a tree of its fields, with the strings as Utf8 gives them;
    the text of a member and of a response are parameters with the two directions, and what
    is assumed of a member is that its strings come back coerced.  Of a crash, that the
    operating system loses data that was written but not synced: a crash is one of the
    process, and [crashed] keeps what was written to a file.  time.ParseDuration, which computes with
    floating-point numbers.  Texts for the operator: the log, usage, String of a node or of
    CORSInfo.  Errors of the operating system and running out of memory.  The type Peers of
    src/discovery, which the sources do not define, is a parameter.  A store operation reads the
    clock once.  Fields of a stored HardState that the program does not know are dropped where
    raft.go embeds it, as the model does not keep them either. *)

From stdpp Require Export prelude numbers strings gmap list.

#[export] Set Warnings "-clear-no-such-hyp".

Declare Scope etcd_scope.
Delimit Scope etcd_scope with etcd.

Global Open Scope Z_scope.

(** ** Go panics

    A Go function either returns or panics.  [outcome] is the result of
    code that may panic; the string is the value handed to [panic], or a
    short name of the runtime error. *)
Inductive outcome (A : Type) : Type :=
| Ok (a : A)
| Panic (why : string).
Arguments Ok {_} _.
Arguments Panic {_} _.

#[export] Instance outcome_ret : MRet outcome := fun _ a => Ok a.
#[export] Instance outcome_bind : MBind outcome := fun _ _ k c =>
  match c with Ok a => k a | Panic why => Panic why end.

Definition nilDeref : string := "invalid memory address or nil pointer dereference".
Definition outOfRange : string := "index out of range".

(** A pointer that may be nil, dereferenced. *)
Definition deref {A} (o : option A) : outcome A :=
  match o with Some a => Ok a | None => Panic nilDeref end.

Lemma Ok_inj {A} (a b : A) : Ok a = Ok b → a = b.
Proof. congruence. Qed.

Lemma bind_Ok {A B} (c : outcome A) (k : A → outcome B) b :
  (c ≫= k) = Ok b ↔ ∃ a, c = Ok a ∧ k a = Ok b.
Proof.
  destruct c as [a|why]; simpl.
  - split; [intros ?; by exists a | by intros (a' & [= ->] & ?)].
  - split; [done | by intros (a' & ? & ?)].
Qed.

Lemma deref_Ok {A} (o : option A) a : deref o = Ok a ↔ o = Some a.
Proof. destruct o; simpl; split; congruence. Qed.

(** Running a fallible body for each element of a slice, left to right. *)
Fixpoint foldM {A B} (f : A → B → outcome A) (l : list B) (a : A) : outcome A :=
  match l with
  | [] => Ok a
  | b :: l => a' ← f a b; foldM f l a'
  end.

(** An invariant of the body is an invariant of the loop. *)
Lemma foldM_ind {A B} (R : A → A → Prop) (f : A → B → outcome A) (l : list B) :
  Reflexive R → Transitive R →
  (∀ a b a', b ∈ l → f a b = Ok a' → R a a') →
  ∀ a a', foldM f l a = Ok a' → R a a'.
Proof.
  intros Hrefl Htrans. induction l as [|b l IH]; simpl; intros Hf a a' H.
  - by simplify_eq.
  - apply bind_Ok in H as (a1 & H1 & H2).
    trans a1; [eapply Hf; [left|done] | eapply IH; [|done]].
    intros ????; eapply Hf; by right.
Qed.

(** ** Lengths as integers *)
Definition len {A} (l : list A) : Z := Z.of_nat (length l).

Lemma len_nonneg {A} (l : list A) : 0 ≤ len l.
Proof. unfold len; lia. Qed.
Lemma len_app {A} (l k : list A) : len (l ++ k) = len l + len k.
Proof. unfold len; rewrite length_app; lia. Qed.
Lemma len_pos {A} (l : list A) : l ≠ [] → 0 < len l.
Proof. destruct l; unfold len; simpl; [done|lia]. Qed.

(** ** Record update: [r <| field := v |>] *)
Class Setter {R T} (proj : R → T) := set : (T → T) → R → R.
Arguments set {R T} proj {_} f r.
Notation "x <| proj := v |>" := (set proj (λ _, v) x)
  (at level 1, left associativity) : etcd_scope.
Notation "x <| proj ::= f |>" := (set proj f x)
  (at level 1, left associativity) : etcd_scope.
Global Open Scope etcd_scope.

(** ** Tactics shared by the components *)

(** Split a successful run into the successful runs of its parts. *)
Ltac inv_ok :=
  repeat match goal with
  | H : (_ ≫= _) = Ok _ |- _ =>
      let x := fresh "x" in let H1 := fresh H in
      apply bind_Ok in H as (x & H1 & H)
  | H : mret _ = Ok _ |- _ => apply Ok_inj in H
  | H : Ok _ = Ok _ |- _ => apply Ok_inj in H
  | H : Panic _ = Ok _ |- _ => discriminate H
  | H : Ok _ = Panic _ |- _ => discriminate H
  | H : deref _ = Ok _ |- _ => apply deref_Ok in H
  | H : (_, _) = (_, _) |- _ =>
      let H1 := fresh H in apply pair_equal_spec in H as [H1 H]
  end.

(** Turn boolean integer tests in the context into arithmetic. *)
Ltac to_prop :=
  repeat match goal with
  | H : (_ =? _) = true |- _ => apply Z.eqb_eq in H
  | H : (_ =? _) = false |- _ => apply Z.eqb_neq in H
  | H : (_ <? _) = true |- _ => apply Z.ltb_lt in H
  | H : (_ <? _) = false |- _ => apply Z.ltb_ge in H
  | H : (_ <=? _) = true |- _ => apply Z.leb_le in H
  | H : (_ <=? _) = false |- _ => apply Z.leb_gt in H
  | H : (_ >? _) = true |- _ => rewrite Z.gtb_ltb in H; apply Z.ltb_lt in H
  | H : (_ >? _) = false |- _ => rewrite Z.gtb_ltb in H; apply Z.ltb_ge in H
  | H : (_ >=? _) = true |- _ => rewrite Z.geb_leb in H; apply Z.leb_le in H
  | H : (_ >=? _) = false |- _ => rewrite Z.geb_leb in H; apply Z.leb_gt in H
  | H : _ && _ = true |- _ => apply andb_true_iff in H as [? ?]
  | H : _ && _ = false |- _ => apply andb_false_iff in H
  | H : _ || _ = true |- _ => apply orb_true_iff in H
  | H : _ || _ = false |- _ => apply orb_false_iff in H as [? ?]
  | H : negb _ = true |- _ => apply negb_true_iff in H
  | H : negb _ = false |- _ => apply negb_false_iff in H
  end.

(** Case analysis on every [if] and [match] of the goal. *)
Ltac cases := repeat (case_match; simpl in * ); to_prop.

Create HintDb etcd discriminated.

(** ** Machine integers *)

(** Two's complement reading of [z] at width [w]: the value of Go's
    conversion to int64, int32. *)
Definition wrapS (w : Z) (z : Z) : Z :=
  let m := z mod 2 ^ w in if m <? 2 ^ (w - 1) then m else m - 2 ^ w.
(** Conversion to an unsigned type of width [w]. *)
Definition wrapU (w : Z) (z : Z) : Z := z mod 2 ^ w.

Abbreviation int64 := (wrapS 64).
Abbreviation int32 := (wrapS 32).
Abbreviation uint64 := (wrapU 64).
Abbreviation uint32 := (wrapU 32).
Abbreviation uint8 := (wrapU 8).

Definition inS (w z : Z) : Prop := - 2 ^ (w - 1) ≤ z < 2 ^ (w - 1).
Definition inU (w z : Z) : Prop := 0 ≤ z < 2 ^ w.

Definition bytes (l : list Z) : Prop := Forall (inU 8) l.

Lemma wrapS_id w z : 0 < w → inS w z → wrapS w z = z.
Proof.
  intros Hw [Hlo Hhi]. unfold wrapS.
  assert (2 ^ w = 2 * 2 ^ (w - 1)) as Hp.
  { rewrite <-Z.pow_succ_r by lia. f_equal. lia. }
  destruct (decide (0 ≤ z)).
  - rewrite Z.mod_small by lia.
    destruct (z <? 2 ^ (w - 1)) eqn:E; to_prop; lia.
  - replace (z mod 2 ^ w) with (z + 2 ^ w).
    2: { rewrite <-(Z.mod_add z 1) by lia. rewrite Z.mul_1_l, Z.mod_small; lia. }
    destruct (_ <? _) eqn:E; to_prop; lia.
Qed.

Lemma wrapU_id w z : inU w z → wrapU w z = z.
Proof. apply Z.mod_small. Qed.
