(* ===== verification/Raftpb.v ===== *)
(** * Raftpb: the messages of package raftpb (src/raft/raftpb/raft.pb.go)

    The structs generated from raft.proto, one [Record] each, with their
    zero values and field updates.  An int64 or int32 field is a [Z], a byte
    a [Z] in [0, 256), a byte slice a list of bytes; [nil] and the empty
    slice are identified, which the generated code does as well for every
    field of these messages.  [X_XXX] is the field XXX_unrecognized. *)

From S2P Require Import Prelude.

(** ** EntryType and ConfChangeType (int32 enumerations) *)
Definition EntryNormal : Z := 0.
Definition EntryConfChange : Z := 1.
Definition ConfChangeAddNode : Z := 0.
Definition ConfChangeRemoveNode : Z := 1.

(** ** The structs *)
Record Info := mkInfo {
  Info_ID : Z;
  Info_XXX : list Z;
}.

Definition zeroInfo : Info := mkInfo 0 [].

Record Entry := mkEntry {
  Entry_Type : Z;
  Entry_Term : Z;
  Entry_Index : Z;
  Entry_Data : list Z;
  Entry_XXX : list Z;
}.

Definition zeroEntry : Entry := mkEntry 0 0 0 [] [].

Record Snapshot := mkSnapshot {
  Snapshot_Data : list Z;
  Snapshot_Nodes : list Z;
  Snapshot_Index : Z;
  Snapshot_Term : Z;
  Snapshot_XXX : list Z;
}.

Definition zeroSnapshot : Snapshot := mkSnapshot [] [] 0 0 [].

Record Message := mkMessage {
  Message_Type : Z;
  Message_To : Z;
  Message_From : Z;
  Message_Term : Z;
  Message_LogTerm : Z;
  Message_Index : Z;
  Message_Entries : list Entry;
  Message_Commit : Z;
  Message_Snapshot : Snapshot;
  Message_Denied : bool;
  Message_XXX : list Z;
}.

Definition zeroMessage : Message := mkMessage 0 0 0 0 0 0 [] 0 zeroSnapshot false [].

Record HardState := mkHardState {
  HardState_Term : Z;
  HardState_Vote : Z;
  HardState_Commit : Z;
  HardState_XXX : list Z;
}.

Definition zeroHardState : HardState := mkHardState 0 0 0 [].

Record ConfChange := mkConfChange {
  ConfChange_ID : Z;
  ConfChange_Type : Z;
  ConfChange_NodeID : Z;
  ConfChange_Context : list Z;
  ConfChange_XXX : list Z;
}.

Definition zeroConfChange : ConfChange := mkConfChange 0 0 0 [] [].

(** ** Field updates *)
#[export] Instance set_Info_ID : Setter Info_ID := λ f x,
  mkInfo (f (Info_ID x)) (Info_XXX x).
#[export] Instance set_Info_XXX : Setter Info_XXX := λ f x,
  mkInfo (Info_ID x) (f (Info_XXX x)).
#[export] Instance set_Entry_Type : Setter Entry_Type := λ f x,
  mkEntry (f (Entry_Type x)) (Entry_Term x) (Entry_Index x) (Entry_Data x) (Entry_XXX x).
#[export] Instance set_Entry_Term : Setter Entry_Term := λ f x,
  mkEntry (Entry_Type x) (f (Entry_Term x)) (Entry_Index x) (Entry_Data x) (Entry_XXX x).
#[export] Instance set_Entry_Index : Setter Entry_Index := λ f x,
  mkEntry (Entry_Type x) (Entry_Term x) (f (Entry_Index x)) (Entry_Data x) (Entry_XXX x).
#[export] Instance set_Entry_Data : Setter Entry_Data := λ f x,
  mkEntry (Entry_Type x) (Entry_Term x) (Entry_Index x) (f (Entry_Data x)) (Entry_XXX x).
#[export] Instance set_Entry_XXX : Setter Entry_XXX := λ f x,
  mkEntry (Entry_Type x) (Entry_Term x) (Entry_Index x) (Entry_Data x) (f (Entry_XXX x)).
#[export] Instance set_Snapshot_Data : Setter Snapshot_Data := λ f x,
  mkSnapshot (f (Snapshot_Data x)) (Snapshot_Nodes x) (Snapshot_Index x) (Snapshot_Term x) (Snapshot_XXX x).
#[export] Instance set_Snapshot_Nodes : Setter Snapshot_Nodes := λ f x,
  mkSnapshot (Snapshot_Data x) (f (Snapshot_Nodes x)) (Snapshot_Index x) (Snapshot_Term x) (Snapshot_XXX x).
#[export] Instance set_Snapshot_Index : Setter Snapshot_Index := λ f x,
  mkSnapshot (Snapshot_Data x) (Snapshot_Nodes x) (f (Snapshot_Index x)) (Snapshot_Term x) (Snapshot_XXX x).
#[export] Instance set_Snapshot_Term : Setter Snapshot_Term := λ f x,
  mkSnapshot (Snapshot_Data x) (Snapshot_Nodes x) (Snapshot_Index x) (f (Snapshot_Term x)) (Snapshot_XXX x).
#[export] Instance set_Snapshot_XXX : Setter Snapshot_XXX := λ f x,
  mkSnapshot (Snapshot_Data x) (Snapshot_Nodes x) (Snapshot_Index x) (Snapshot_Term x) (f (Snapshot_XXX x)).
#[export] Instance set_Message_Type : Setter Message_Type := λ f x,
  mkMessage (f (Message_Type x)) (Message_To x) (Message_From x) (Message_Term x) (Message_LogTerm x) (Message_Index x) (Message_Entries x) (Message_Commit x) (Message_Snapshot x) (Message_Denied x) (Message_XXX x).
#[export] Instance set_Message_To : Setter Message_To := λ f x,
  mkMessage (Message_Type x) (f (Message_To x)) (Message_From x) (Message_Term x) (Message_LogTerm x) (Message_Index x) (Message_Entries x) (Message_Commit x) (Message_Snapshot x) (Message_Denied x) (Message_XXX x).
#[export] Instance set_Message_From : Setter Message_From := λ f x,
  mkMessage (Message_Type x) (Message_To x) (f (Message_From x)) (Message_Term x) (Message_LogTerm x) (Message_Index x) (Message_Entries x) (Message_Commit x) (Message_Snapshot x) (Message_Denied x) (Message_XXX x).
#[export] Instance set_Message_Term : Setter Message_Term := λ f x,
  mkMessage (Message_Type x) (Message_To x) (Message_From x) (f (Message_Term x)) (Message_LogTerm x) (Message_Index x) (Message_Entries x) (Message_Commit x) (Message_Snapshot x) (Message_Denied x) (Message_XXX x).
#[export] Instance set_Message_LogTerm : Setter Message_LogTerm := λ f x,
  mkMessage (Message_Type x) (Message_To x) (Message_From x) (Message_Term x) (f (Message_LogTerm x)) (Message_Index x) (Message_Entries x) (Message_Commit x) (Message_Snapshot x) (Message_Denied x) (Message_XXX x).
#[export] Instance set_Message_Index : Setter Message_Index := λ f x,
  mkMessage (Message_Type x) (Message_To x) (Message_From x) (Message_Term x) (Message_LogTerm x) (f (Message_Index x)) (Message_Entries x) (Message_Commit x) (Message_Snapshot x) (Message_Denied x) (Message_XXX x).
#[export] Instance set_Message_Entries : Setter Message_Entries := λ f x,
  mkMessage (Message_Type x) (Message_To x) (Message_From x) (Message_Term x) (Message_LogTerm x) (Message_Index x) (f (Message_Entries x)) (Message_Commit x) (Message_Snapshot x) (Message_Denied x) (Message_XXX x).
#[export] Instance set_Message_Commit : Setter Message_Commit := λ f x,
  mkMessage (Message_Type x) (Message_To x) (Message_From x) (Message_Term x) (Message_LogTerm x) (Message_Index x) (Message_Entries x) (f (Message_Commit x)) (Message_Snapshot x) (Message_Denied x) (Message_XXX x).
#[export] Instance set_Message_Snapshot : Setter Message_Snapshot := λ f x,
  mkMessage (Message_Type x) (Message_To x) (Message_From x) (Message_Term x) (Message_LogTerm x) (Message_Index x) (Message_Entries x) (Message_Commit x) (f (Message_Snapshot x)) (Message_Denied x) (Message_XXX x).
#[export] Instance set_Message_Denied : Setter Message_Denied := λ f x,
  mkMessage (Message_Type x) (Message_To x) (Message_From x) (Message_Term x) (Message_LogTerm x) (Message_Index x) (Message_Entries x) (Message_Commit x) (Message_Snapshot x) (f (Message_Denied x)) (Message_XXX x).
#[export] Instance set_Message_XXX : Setter Message_XXX := λ f x,
  mkMessage (Message_Type x) (Message_To x) (Message_From x) (Message_Term x) (Message_LogTerm x) (Message_Index x) (Message_Entries x) (Message_Commit x) (Message_Snapshot x) (Message_Denied x) (f (Message_XXX x)).
#[export] Instance set_HardState_Term : Setter HardState_Term := λ f x,
  mkHardState (f (HardState_Term x)) (HardState_Vote x) (HardState_Commit x) (HardState_XXX x).
#[export] Instance set_HardState_Vote : Setter HardState_Vote := λ f x,
  mkHardState (HardState_Term x) (f (HardState_Vote x)) (HardState_Commit x) (HardState_XXX x).
#[export] Instance set_HardState_Commit : Setter HardState_Commit := λ f x,
  mkHardState (HardState_Term x) (HardState_Vote x) (f (HardState_Commit x)) (HardState_XXX x).
#[export] Instance set_HardState_XXX : Setter HardState_XXX := λ f x,
  mkHardState (HardState_Term x) (HardState_Vote x) (HardState_Commit x) (f (HardState_XXX x)).
#[export] Instance set_ConfChange_ID : Setter ConfChange_ID := λ f x,
  mkConfChange (f (ConfChange_ID x)) (ConfChange_Type x) (ConfChange_NodeID x) (ConfChange_Context x) (ConfChange_XXX x).
#[export] Instance set_ConfChange_Type : Setter ConfChange_Type := λ f x,
  mkConfChange (ConfChange_ID x) (f (ConfChange_Type x)) (ConfChange_NodeID x) (ConfChange_Context x) (ConfChange_XXX x).
#[export] Instance set_ConfChange_NodeID : Setter ConfChange_NodeID := λ f x,
  mkConfChange (ConfChange_ID x) (ConfChange_Type x) (f (ConfChange_NodeID x)) (ConfChange_Context x) (ConfChange_XXX x).
#[export] Instance set_ConfChange_Context : Setter ConfChange_Context := λ f x,
  mkConfChange (ConfChange_ID x) (ConfChange_Type x) (ConfChange_NodeID x) (f (ConfChange_Context x)) (ConfChange_XXX x).
#[export] Instance set_ConfChange_XXX : Setter ConfChange_XXX := λ f x,
  mkConfChange (ConfChange_ID x) (ConfChange_Type x) (ConfChange_NodeID x) (ConfChange_Context x) (f (ConfChange_XXX x)).

#[export] Instance Entry_eq_dec : EqDecision Entry.
Proof. solve_decision. Defined.
#[export] Instance Snapshot_eq_dec : EqDecision Snapshot.
Proof. solve_decision. Defined.
#[export] Instance Message_eq_dec : EqDecision Message.
Proof. solve_decision. Defined.
#[export] Instance HardState_eq_dec : EqDecision HardState.
Proof. solve_decision. Defined.
