(* ===== verification/RaftLog.v ===== *)
(** * RaftLog: the replicated log of one node (src/raft/log.go)

    [raftLog] keeps the entries [offset .. lastIndex] in a slice whose first
    element is only there to match previous terms: the dummy entry of a new
    log, or the last entry covered by the snapshot after a compaction.
    Every method of log.go is a definition below; a method that may panic
    returns an [outcome].  [nil] slices are empty lists, nil pointers [None].

    Log indices are read as integers without the int64 wrap-around: an index
    is bounded by the offset plus the number of entries held in memory. *)

From S2P Require Import Prelude Raftpb.

(** ** The state *)
Record raftLog := mkLog {
  ents : list Entry;
  unstable : Z;
  committed : Z;
  applied : Z;
  offset : Z;
  snapshot : Snapshot;
  compactThreshold : Z;
}.

#[export] Instance set_ents : Setter ents := λ f x,
  mkLog (f (ents x)) (unstable x) (committed x) (applied x) (offset x) (snapshot x) (compactThreshold x).
#[export] Instance set_unstable : Setter unstable := λ f x,
  mkLog (ents x) (f (unstable x)) (committed x) (applied x) (offset x) (snapshot x) (compactThreshold x).
#[export] Instance set_committed : Setter committed := λ f x,
  mkLog (ents x) (unstable x) (f (committed x)) (applied x) (offset x) (snapshot x) (compactThreshold x).
#[export] Instance set_applied : Setter applied := λ f x,
  mkLog (ents x) (unstable x) (committed x) (f (applied x)) (offset x) (snapshot x) (compactThreshold x).
#[export] Instance set_offset : Setter offset := λ f x,
  mkLog (ents x) (unstable x) (committed x) (applied x) (f (offset x)) (snapshot x) (compactThreshold x).
#[export] Instance set_snapshot : Setter snapshot := λ f x,
  mkLog (ents x) (unstable x) (committed x) (applied x) (offset x) (f (snapshot x)) (compactThreshold x).
#[export] Instance set_compactThreshold : Setter compactThreshold := λ f x,
  mkLog (ents x) (unstable x) (committed x) (applied x) (offset x) (snapshot x) (f (compactThreshold x)).

(** ** Operations *)

(** Go's [min] and [max] of the package. *)
Definition min (a b : Z) : Z := if a >? b then b else a.
Definition max (a b : Z) : Z := if a >? b then a else b.

Definition defaultCompactThreshold : Z := 10000.

Definition newLog : raftLog :=
  mkLog [zeroEntry] 0 0 0 0 zeroSnapshot defaultCompactThreshold.

Definition isEmpty (l : raftLog) : bool :=
  (offset l =? 0) && (len (ents l) =? 1).

Definition load (es : list Entry) (l : raftLog) : raftLog :=
  l <| ents := es |> <| unstable := offset l + len es |>.

Definition lastIndex (l : raftLog) : Z := len (ents l) - 1 + offset l.

Definition isOutOfBounds (l : raftLog) (i : Z) : bool :=
  (i <? offset l) || (i >? lastIndex l).

Definition isOutOfAppliedBounds (l : raftLog) (i : Z) : bool :=
  (i <? offset l) || (i >? applied l).

(** [None] is the nil pointer. *)
Definition at_ (l : raftLog) (i : Z) : option Entry :=
  if isOutOfBounds l i then None else ents l !! Z.to_nat (i - offset l).

Definition slice (l : raftLog) (lo hi : Z) : list Entry :=
  if lo >=? hi then []
  else if isOutOfBounds l lo || isOutOfBounds l (hi - 1) then []
  else take (Z.to_nat (hi - lo)) (drop (Z.to_nat (lo - offset l)) (ents l)).

Definition term (l : raftLog) (i : Z) : Z :=
  match at_ l i with Some e => Entry_Term e | None => -1 end.

Definition entries (l : raftLog) (i : Z) : outcome (list Entry) :=
  if i =? offset l then Panic "cannot return the first entry in log"
  else Ok (slice l i (lastIndex l + 1)).

Definition append (after : Z) (es : list Entry) (l : raftLog) : raftLog :=
  l <| ents := slice l (offset l) (after + 1) ++ es |>
    <| unstable := min (unstable l) (after + 1) |>.

Fixpoint findConflict (l : raftLog) (from : Z) (es : list Entry) : Z :=
  match es with
  | [] => -1
  | ne :: es =>
      match at_ l from with
      | None => from
      | Some oe =>
          if Entry_Term oe =? Entry_Term ne then findConflict l (from + 1) es
          else from
      end
  end.

Definition matchTerm (l : raftLog) (i t : Z) : bool :=
  match at_ l i with Some e => Entry_Term e =? t | None => false end.

(** The last statement of [maybeAppend]: follow the leader's commit index as
    far as the log reaches. *)
Definition advanceCommit (commit : Z) (l : raftLog) : raftLog :=
  if committed l <? commit
  then l <| committed := min commit (lastIndex l) |> else l.

Definition maybeAppend (index logTerm commit : Z) (es : list Entry)
    (l : raftLog) : outcome (raftLog * bool) :=
  if matchTerm l index logTerm then
    let from := index + 1 in
    let ci := findConflict l from es in
    l' ← (if ci =? -1 then Ok l
          else if ci <=? committed l then Panic "conflict with committed entry"
          else Ok (append (ci - 1) (drop (Z.to_nat (ci - from)) es) l));
    Ok (advanceCommit commit l', true)
  else Ok (l, false).

Definition unstableEnts (l : raftLog) : list Entry :=
  slice l (unstable l) (lastIndex l + 1).

Definition resetUnstable (l : raftLog) : raftLog :=
  l <| unstable := lastIndex l + 1 |>.

Definition nextEnts (l : raftLog) : list Entry :=
  if committed l >? applied l then slice l (applied l + 1) (committed l + 1)
  else [].

Definition resetNextEnts (l : raftLog) : raftLog :=
  if committed l >? applied l then l <| applied := committed l |> else l.

(** The code dereferences [l.at(l.lastIndex())] without a nil test. *)
Definition isUpToDate (l : raftLog) (i t : Z) : outcome bool :=
  e ← deref (at_ l (lastIndex l));
  Ok ((t >? Entry_Term e) ||
      ((t =? Entry_Term e) && (i >=? lastIndex l))).

Definition maybeCommit (maxIndex t : Z) (l : raftLog) : raftLog * bool :=
  if (maxIndex >? committed l) && (term l maxIndex =? t)
  then (l <| committed := maxIndex |>, true) else (l, false).

Definition compact (i : Z) (l : raftLog) : outcome raftLog :=
  if isOutOfAppliedBounds l i then Panic "compact out of bounds"
  else Ok (l <| ents := slice l i (lastIndex l + 1) |>
             <| unstable := max (i + 1) (unstable l) |>
             <| offset := i |>).

Definition snap (d : list Z) (index t : Z) (nodes : list Z) (l : raftLog)
  : raftLog :=
  l <| snapshot := mkSnapshot d nodes index t [] |>.

Definition shouldCompact (l : raftLog) : bool :=
  (applied l - offset l) >? compactThreshold l.

Definition restore (s : Snapshot) (l : raftLog) : raftLog :=
  mkLog [zeroEntry <| Entry_Term := Snapshot_Term s |>] (Snapshot_Index s + 1)
    (Snapshot_Index s) (Snapshot_Index s) (Snapshot_Index s) s
    (compactThreshold l).

(** ** The invariant of a log *)
Record log_ok (l : raftLog) : Prop := {
  ok_ents : ents l ≠ [];
  ok_offset : 0 ≤ offset l;
  ok_applied : offset l ≤ applied l;
  ok_committed : applied l ≤ committed l;
  ok_last : committed l ≤ lastIndex l;
  ok_unstable : offset l ≤ unstable l ≤ lastIndex l + 1;
}.

(** Proves [log_ok] of an update from the bounds of the old log. *)
Ltac log_solve :=
  split; simpl; unfold lastIndex, min, max in *; simpl;
  repeat (case_match; to_prop); auto; lia.

(** ** Reading the log *)

Lemma min_le a b : min a b = Z.min a b.
Proof. unfold min; cases; lia. Qed.
Lemma max_ge a b : max a b = Z.max a b.
Proof. unfold max; cases; lia. Qed.

Lemma oob_false l i : isOutOfBounds l i = false ↔ offset l ≤ i ≤ lastIndex l.
Proof.
  unfold isOutOfBounds. rewrite orb_false_iff, Z.ltb_ge, Z.gtb_ltb, Z.ltb_ge. lia.
Qed.

Lemma at_Some l i e :
  at_ l i = Some e ↔
  offset l ≤ i ≤ lastIndex l ∧ ents l !! Z.to_nat (i - offset l) = Some e.
Proof.
  unfold at_. destruct (isOutOfBounds l i) eqn:E.
  - split; [done|]. intros [H _]. by apply oob_false in H; rewrite H in E.
  - apply oob_false in E. tauto.
Qed.

Lemma at_is_Some l i : is_Some (at_ l i) ↔ offset l ≤ i ≤ lastIndex l.
Proof.
  split.
  - intros [e H]. by apply at_Some in H as [? _].
  - intros H. destruct (lookup_lt_is_Some_2 (ents l) (Z.to_nat (i - offset l))) as [e He].
    { unfold lastIndex, len in H; lia. }
    exists e. by apply at_Some.
Qed.

Lemma at_None l i : at_ l i = None ↔ i < offset l ∨ lastIndex l < i.
Proof.
  rewrite eq_None_not_Some, at_is_Some. lia.
Qed.

Lemma at_last l : ents l ≠ [] → is_Some (at_ l (lastIndex l)).
Proof.
  intros H%len_pos. apply at_is_Some. unfold lastIndex. lia.
Qed.

(** [at_] of a log whose entries and offset are given. *)
Lemma at_ents l l' i : ents l = ents l' → offset l = offset l' → at_ l i = at_ l' i.
Proof.
  unfold at_, isOutOfBounds, lastIndex. by intros -> ->.
Qed.

Lemma length_slice l lo hi :
  offset l ≤ lo → lo ≤ hi → hi ≤ lastIndex l + 1 →
  length (slice l lo hi) = Z.to_nat (hi - lo).
Proof.
  intros ???. unfold slice. destruct (lo >=? hi) eqn:E; to_prop; [simpl; lia|].
  rewrite (proj2 (oob_false l lo)), (proj2 (oob_false l (hi - 1))) by lia. simpl.
  rewrite length_take, length_drop. unfold lastIndex, len in *. lia.
Qed.

Lemma lookup_slice l lo hi k :
  offset l ≤ lo → hi ≤ lastIndex l + 1 → Z.of_nat k < hi - lo →
  slice l lo hi !! k = at_ l (lo + Z.of_nat k).
Proof.
  intros ???. unfold slice. destruct (lo >=? hi) eqn:E; to_prop; [lia|].
  rewrite (proj2 (oob_false l lo)), (proj2 (oob_false l (hi - 1))) by lia. simpl.
  rewrite lookup_take_lt, lookup_drop by lia.
  unfold at_. rewrite (proj2 (oob_false l _)) by lia.
  f_equal. lia.
Qed.

Lemma slice_all l : ents l ≠ [] → slice l (offset l) (lastIndex l + 1) = ents l.
Proof.
  intros H%len_pos. unfold slice.
  destruct (_ >=? _) eqn:E; to_prop; [unfold lastIndex in *; lia|].
  rewrite (proj2 (oob_false l _)), (proj2 (oob_false l _)) by (unfold lastIndex; lia).
  simpl. rewrite Z.sub_diag, drop_0. apply take_ge. unfold lastIndex, len. lia.
Qed.

(** ** Appending *)

Lemma lastIndex_append after es l :
  offset l ≤ after ≤ lastIndex l → lastIndex (append after es l) = after + len es.
Proof.
  intros H. unfold lastIndex at 1. simpl. rewrite len_app.
  unfold len at 1. rewrite length_slice by lia. lia.
Qed.

Lemma at_append after es l i :
  offset l ≤ after ≤ lastIndex l →
  at_ (append after es l) i =
    if i <=? after then at_ l i else es !! Z.to_nat (i - after - 1).
Proof.
  intros H. destruct (decide (offset l ≤ i ≤ after + len es)) as [Hi|Hi].
  - unfold at_ at 1. rewrite (proj2 (oob_false _ i)).
    2: { rewrite lastIndex_append by done. simpl. lia. }
    simpl. destruct (i <=? after) eqn:E; to_prop.
    + rewrite lookup_app_l by (rewrite length_slice by lia; lia).
      rewrite lookup_slice by lia. f_equal. lia.
    + rewrite lookup_app_r; rewrite length_slice by lia; [|lia]. f_equal. lia.
  - replace (at_ (append after es l) i) with (@None Entry).
    2: { symmetry. apply at_None. rewrite lastIndex_append by done. simpl. lia. }
    destruct (i <=? after) eqn:E; to_prop; symmetry.
    + apply at_None. pose proof (len_nonneg es). lia.
    + apply lookup_ge_None. unfold len in Hi. lia.
Qed.

(** ** Finding the first conflicting entry *)

(** [es], placed at [from], agrees in term with the log at its [k]-th entry. *)
Definition agrees (l : raftLog) (from : Z) (es : list Entry) (k : nat) : Prop :=
  ∃ oe ne, at_ l (from + Z.of_nat k) = Some oe ∧ es !! k = Some ne ∧
           Entry_Term oe = Entry_Term ne.

Lemma agrees_shift l from e es k :
  agrees l from (e :: es) (S k) ↔ agrees l (from + 1) es k.
Proof.
  unfold agrees. simpl. by replace (from + Z.of_nat (S k)) with (from + 1 + Z.of_nat k) by lia.
Qed.

Lemma findConflict_spec l from es :
  (findConflict l from es = -1 ∧ ∀ k, (k < length es)%nat → agrees l from es k) ∨
  (∃ k, (k < length es)%nat ∧ findConflict l from es = from + Z.of_nat k ∧
        (∀ j, (j < k)%nat → agrees l from es j) ∧ ¬ agrees l from es k).
Proof.
  revert from. induction es as [|ne es IH]; intros from; simpl.
  { left. split; [done|]. intros k; lia. }
  destruct (at_ l from) as [oe|] eqn:Hat.
  2: { right. exists 0%nat. split_and!; [lia|lia|intros; lia|].
       intros (oe & ? & Ho & _). rewrite Z.add_0_r in Ho. congruence. }
  destruct (Entry_Term oe =? Entry_Term ne) eqn:E; to_prop.
  - assert (agrees l from (ne :: es) 0) as H0.
    { exists oe, ne. by rewrite Z.add_0_r. }
    destruct (IH (from + 1)) as [[-> Hk]|(k & Hk & -> & Hlt & Hn)].
    + left. split; [done|]. intros [|k] ?; [done|].
      apply agrees_shift, Hk. lia.
    + right. exists (S k). split_and!; [lia|lia| |].
      * intros [|j] ?; [done|]. apply agrees_shift, Hlt. lia.
      * by rewrite agrees_shift.
  - right. exists 0%nat. split_and!; [lia|lia|intros; lia|].
    intros (oe' & ne' & Ho & Hn & ?). rewrite Z.add_0_r in Ho. simpl in Hn.
    congruence.
Qed.

(** ** maybeAppend *)

Lemma at_advanceCommit c l i : at_ (advanceCommit c l) i = at_ l i.
Proof. unfold advanceCommit. case_match; [by apply at_ents|done]. Qed.
Lemma lastIndex_advanceCommit c l : lastIndex (advanceCommit c l) = lastIndex l.
Proof. unfold advanceCommit. by case_match. Qed.
Lemma committed_advanceCommit c l :
  committed (advanceCommit c l) =
  if committed l <? c then Z.min c (lastIndex l) else committed l.
Proof. unfold advanceCommit. case_match; [simpl; apply min_le|done]. Qed.

Lemma advanceCommit_ok c l : log_ok l → log_ok (advanceCommit c l).
Proof.
  intros [????? [??]]. unfold advanceCommit. case_match; to_prop; [|by split].
  log_solve.
Qed.

(** [k] is the first position of [es] where it conflicts with the log. *)
Definition first_conflict l from es (k : nat) : Prop :=
  (k < length es)%nat ∧ (∀ j, (j < k)%nat → agrees l from es j) ∧
  ¬ agrees l from es k.

Lemma first_conflict_bound l from es k :
  offset l ≤ from - 1 ≤ lastIndex l → first_conflict l from es k →
  offset l ≤ from + Z.of_nat k - 1 ≤ lastIndex l.
Proof.
  intros H (? & Hlt & _). destruct k as [|k]; [lia|].
  destruct (Hlt k) as (oe & _ & Ho & _); [lia|].
  apply at_Some in Ho as [? _]. lia.
Qed.

Lemma matchTerm_true l i t :
  matchTerm l i t = true ↔ ∃ e, at_ l i = Some e ∧ Entry_Term e = t.
Proof.
  unfold matchTerm. destruct (at_ l i); split.
  - intros ?%Z.eqb_eq; eauto.
  - intros (? & [= <-] & ?); by apply Z.eqb_eq.
  - done.
  - by intros (? & ? & ?).
Qed.

Lemma matchTerm_bound l i t : matchTerm l i t = true → offset l ≤ i ≤ lastIndex l.
Proof. rewrite matchTerm_true. intros (e & He & _). by apply at_Some in He as [? _]. Qed.

(** The four ways a call of [maybeAppend] ends. *)
Lemma maybeAppend_cases index t c es l :
  log_ok l →
  (matchTerm l index t = false ∧ maybeAppend index t c es l = Ok (l, false)) ∨
  matchTerm l index t = true ∧
  (((∀ k, (k < length es)%nat → agrees l (index + 1) es k) ∧
    maybeAppend index t c es l = Ok (advanceCommit c l, true)) ∨
   ∃ k, first_conflict l (index + 1) es k ∧
     ((index + 1 + Z.of_nat k ≤ committed l ∧
       maybeAppend index t c es l = Panic "conflict with committed entry") ∨
      (committed l < index + 1 + Z.of_nat k ∧
       maybeAppend index t c es l =
         Ok (advanceCommit c (append (index + Z.of_nat k) (drop k es) l), true)))).
Proof.
  intros Hok. unfold maybeAppend. destruct (matchTerm l index t) eqn:Hm; [|by left].
  apply matchTerm_bound in Hm as Hb. pose proof (ok_offset _ Hok).
  right. split; [done|].
  destruct (findConflict_spec l (index + 1) es) as [[-> ?]|(k & ? & -> & ? & ?)].
  - left. done.
  - right. exists k. split; [by split_and!|].
    destruct (_ =? -1) eqn:E1; to_prop; [lia|].
    destruct (_ <=? _) eqn:E2; to_prop; [left; split; [lia|done]|right].
    split; [lia|].
    replace (index + 1 + Z.of_nat k - 1) with (index + Z.of_nat k) by lia.
    by replace (Z.to_nat (index + 1 + Z.of_nat k - (index + 1))) with k by lia.
Qed.

Lemma append_ok after es l :
  log_ok l → offset l ≤ after → committed l ≤ after ≤ lastIndex l →
  log_ok (append after es l).
Proof.
  intros [????? [??]] ? [??]. pose proof (len_nonneg es).
  split; try rewrite lastIndex_append by lia; simpl; rewrite ?min_le; try lia.
  intros [Hs _]%app_eq_nil. apply (f_equal length) in Hs.
  rewrite length_slice in Hs by lia. simpl in Hs. lia.
Qed.

Lemma maybeAppend_log_ok index t c es l l' b :
  log_ok l → maybeAppend index t c es l = Ok (l', b) → log_ok l'.
Proof.
  intros Hok H.
  destruct (maybeAppend_cases index t c es l Hok)
    as [[_ E]|[Hm [[_ E]|(k & Hk & [[_ E]|[? E]])]]];
    rewrite E in H; simplify_eq; auto using advanceCommit_ok.
  apply advanceCommit_ok, append_ok; [done|..];
    apply matchTerm_bound in Hm; apply first_conflict_bound in Hk; lia.
Qed.

Lemma maybeAppend_snapshot index t c es l l' b :
  maybeAppend index t c es l = Ok (l', b) → snapshot l' = snapshot l.
Proof.
  unfold maybeAppend, advanceCommit. intros H.
  repeat (case_match; inv_ok); subst; done.
Qed.

(** What the entries of the log are after an accepted append: position by
    position, the old log below the first conflict, the message from there. *)
Lemma maybeAppend_at index t c es l l' :
  log_ok l → maybeAppend index t c es l = Ok (l', true) →
  offset l ≤ index ≤ lastIndex l ∧ offset l' = offset l ∧
  (∀ i, i ≤ index → at_ l' i = at_ l i) ∧
  (∀ k ne, es !! k = Some ne →
     at_ l' (index + 1 + Z.of_nat k) = Some ne ∨
     at_ l' (index + 1 + Z.of_nat k) = at_ l (index + 1 + Z.of_nat k) ∧
     agrees l (index + 1) es k).
Proof.
  intros Hok H.
  destruct (maybeAppend_cases index t c es l Hok)
    as [[_ E]|[Hm [[Ha E]|(k & Hk & [[_ E]|[? E]])]]];
    rewrite E in H; simplify_eq; apply matchTerm_bound in Hm.
  - split_and!; [lia|lia|unfold advanceCommit; by case_match
                |intros; apply at_advanceCommit|].
    intros k ne Hk. right. rewrite at_advanceCommit. split; [done|].
    apply Ha. by apply lookup_lt_Some in Hk.
  - assert (offset l ≤ index + Z.of_nat k ≤ lastIndex l) as Hb.
    { apply first_conflict_bound in Hk; lia. }
    split_and!; [lia|lia|unfold advanceCommit; by case_match| |].
    + intros i Hi. rewrite at_advanceCommit, at_append by done.
      by rewrite (proj2 (Z.leb_le i _)) by lia.
    + intros j ne Hj. rewrite at_advanceCommit, at_append by done.
      destruct (_ <=? _) eqn:E1; to_prop; [right; split; [done|]|left].
      * apply Hk. lia.
      * rewrite lookup_drop, <-Hj. f_equal. lia.
Qed.

(** The entries of the log after an accepted append, as a list: the old ones
    when the message holds nothing new, and otherwise the old ones up to the
    first conflict followed by the rest of the message, with nothing of the
    old log after it. *)
Definition merged (index : Z) (es : list Entry) (l l' : raftLog) : Prop :=
  offset l' = offset l ∧
  (((∀ k, (k < length es)%nat → agrees l (index + 1) es k) ∧
    ents l' = ents l ∧ unstable l' = unstable l) ∨
   ∃ k, first_conflict l (index + 1) es k ∧
     ents l' = take (Z.to_nat (index + 1 - offset l) + k) (ents l) ++ drop k es ∧
     lastIndex l' = index + len es ∧
     unstable l' = Z.min (unstable l) (index + 1 + Z.of_nat k)).

Lemma ents_advanceCommit c l : ents (advanceCommit c l) = ents l.
Proof. unfold advanceCommit. by case_match. Qed.
Lemma offset_advanceCommit c l : offset (advanceCommit c l) = offset l.
Proof. unfold advanceCommit. by case_match. Qed.
Lemma unstable_advanceCommit c l : unstable (advanceCommit c l) = unstable l.
Proof. unfold advanceCommit. by case_match. Qed.

Lemma slice_offset l hi :
  offset l < hi ≤ lastIndex l + 1 →
  slice l (offset l) hi = take (Z.to_nat (hi - offset l)) (ents l).
Proof.
  intros H. unfold slice, isOutOfBounds.
  destruct (_ >=? _) eqn:E; to_prop; [lia|].
  destruct (_ || _) eqn:E'; to_prop; [lia|]. by rewrite Z.sub_diag.
Qed.

Lemma maybeAppend_merged index t c es l l' :
  log_ok l → maybeAppend index t c es l = Ok (l', true) → merged index es l l'.
Proof.
  intros Hok H.
  destruct (maybeAppend_cases index t c es l Hok)
    as [[_ E]|[Hm [[Ha E]|(k & Hk & [[_ E]|[? E]])]]];
    rewrite E in H; simplify_eq; apply matchTerm_bound in Hm;
    unfold merged; rewrite lastIndex_advanceCommit, ents_advanceCommit,
      offset_advanceCommit, unstable_advanceCommit.
  - by eauto.
  - split; [done|]. right. exists k. split; [done|].
    assert (offset l ≤ index + Z.of_nat k ≤ lastIndex l) as Hb.
    { apply first_conflict_bound in Hk; lia. }
    destruct Hk as [Hk _]. rewrite lastIndex_append by lia. simpl.
    rewrite slice_offset by lia. split_and!.
    + do 2 f_equal. lia.
    + unfold len. rewrite length_drop. lia.
    + rewrite min_le. lia.
Qed.

(** An accepted append never shortens the log below what it carries. *)
Lemma maybeAppend_lastIndex index t c es l l' :
  log_ok l → maybeAppend index t c es l = Ok (l', true) →
  index + len es ≤ lastIndex l'.
Proof.
  intros Hok H. pose proof (maybeAppend_at _ _ _ _ _ _ Hok H) as (Hb & Ho & Hlo & Hhi).
  destruct es as [|e es] using rev_ind.
  - unfold len; simpl. rewrite Z.add_0_r.
    apply (at_is_Some l' index). rewrite Hlo by lia. by apply at_is_Some.
  - destruct (Hhi (length es) e) as [Hat|[Hat Hag]].
    { by rewrite lookup_app_r, Nat.sub_diag by lia. }
    + apply at_Some in Hat as [? _]. rewrite len_app. unfold len; simpl. lia.
    + destruct Hag as (oe & _ & Hoe & _). rewrite Hoe in Hat.
      apply at_Some in Hat as [? _]. rewrite len_app. unfold len; simpl. lia.
Qed.

Lemma at_committed_stable index t c es l l' i :
  log_ok l → maybeAppend index t c es l = Ok (l', true) → i ≤ committed l →
  at_ l' i = at_ l i.
Proof.
  intros Hok H Hi.
  destruct (maybeAppend_cases index t c es l Hok)
    as [[_ E]|[Hm [[Ha E]|(k & Hk & [[_ E]|[? E]])]]];
    rewrite E in H; simplify_eq; rewrite at_advanceCommit; [done|].
  apply matchTerm_bound in Hm. apply first_conflict_bound in Hk; [|lia].
  rewrite at_append by lia. by rewrite (proj2 (Z.leb_le i _)) by lia.
Qed.

Lemma term_es index t c es l l' k ne :
  log_ok l → maybeAppend index t c es l = Ok (l', true) → es !! k = Some ne →
  term l' (index + 1 + Z.of_nat k) = Entry_Term ne.
Proof.
  intros Hok H Hk. unfold term.
  destruct (maybeAppend_at _ _ _ _ _ _ Hok H) as (_ & _ & _ & Hhi).
  destruct (Hhi k ne Hk) as [->|[-> (oe & ne' & -> & ? & ?)]]; [done|congruence].
Qed.

Lemma committed_maybeAppend index t c es l l' :
  log_ok l → maybeAppend index t c es l = Ok (l', true) →
  committed l' = Z.max (committed l) (Z.min c (lastIndex l')).
Proof.
  intros Hok H.
  assert (committed l ≤ lastIndex l').
  { apply (at_is_Some l' (committed l)).
    rewrite (at_committed_stable _ _ _ _ _ _ _ Hok H) by lia.
    apply at_is_Some. destruct Hok; lia. }
  destruct (maybeAppend_cases index t c es l Hok)
    as [[_ E]|[Hm [[Ha E]|(k & Hk & [[_ E]|[? E]])]]];
    rewrite E in H; simplify_eq;
    rewrite committed_advanceCommit, lastIndex_advanceCommit in *; simpl in *;
    destruct (_ <? c) eqn:Ec; to_prop; lia.
Qed.

(** ** Properties of the log *)

(** C14: [maybeAppend] accepting a message keeps the log well formed and never
    changes an entry at or below the commit index.  The log it leaves is the
    old one when every entry of the message is there with its term, and
    otherwise the old one up to the first entry that is missing or has another
    term, followed by the message from there on: its last index is then the
    last one of the message and no stale entry is left behind, and the entries
    from the conflict on count as unstable again.  Every entry of the message
    is found at its index with its term, and the commit index is exactly the
    smaller of the message's and the last index, and never moves back. *)
Theorem maybeAppend_correct index t c es l l' :
  log_ok l → maybeAppend index t c es l = Ok (l', true) →
  log_ok l' ∧ merged index es l l' ∧
  (∀ i, i ≤ committed l → at_ l' i = at_ l i) ∧
  (∀ k ne, es !! k = Some ne →
     term l' (index + 1 + Z.of_nat k) = Entry_Term ne) ∧
  index + len es ≤ lastIndex l' ∧
  committed l' = Z.max (committed l) (Z.min c (lastIndex l')).
Proof.
  intros Hok H. split_and!.
  - by eapply maybeAppend_log_ok.
  - by eapply maybeAppend_merged.
  - intros; by eapply at_committed_stable.
  - intros; by eapply term_es.
  - by eapply maybeAppend_lastIndex.
  - by eapply committed_maybeAppend.
Qed.

(** The outcome of [maybeAppend] is decided by three tests: it is refused
    without any change exactly when the entry before the message is missing
    or has another term, it panics exactly when the first conflicting entry is
    already committed, and it succeeds otherwise. *)
Theorem maybeAppend_outcome index t c es l :
  log_ok l →
  (maybeAppend index t c es l = Ok (l, false) ↔ matchTerm l index t = false) ∧
  (maybeAppend index t c es l = Panic "conflict with committed entry" ↔
     matchTerm l index t = true ∧
     ∃ k, first_conflict l (index + 1) es k ∧
          index + 1 + Z.of_nat k ≤ committed l) ∧
  ((∃ l', maybeAppend index t c es l = Ok (l', true)) ↔
     matchTerm l index t = true ∧
     ∀ k, first_conflict l (index + 1) es k →
          committed l < index + 1 + Z.of_nat k).
Proof.
  intros Hok.
  assert (∀ k k', first_conflict l (index + 1) es k →
                  first_conflict l (index + 1) es k' → k = k') as Huniq.
  { intros k k' (? & H1 & H2) (? & H3 & H4).
    destruct (decide (k < k')%nat); [by destruct H2; apply H3|].
    destruct (decide (k' < k)%nat); [by destruct H4; apply H1|lia]. }
  destruct (maybeAppend_cases index t c es l Hok)
    as [[Hm ->]|[Hm [[Ha ->]|(k & Hk & [[Hc ->]|[Hc ->]])]]]; rewrite Hm.
  - split_and!; split; try done; naive_solver.
  - split_and!; split; try done; [intros (_ & k & (? & _ & []) & _); auto| |eauto].
    intros _. split; [done|]. intros k (? & _ & []); auto.
  - split_and!; split; try done; [eauto|naive_solver|].
    intros [_ H]. specialize (H k Hk). lia.
  - split_and!; split; try done; [|..].
    + intros (_ & k' & Hk' & ?). rewrite (Huniq k k') in Hc by done. lia.
    + intros _. split; [done|]. intros k' Hk'. by rewrite (Huniq k' k).
    + eauto.
Qed.


(** Two logs match when equal terms at one index force equal entries at and
    below that index (the Log Matching property of Raft). *)
Definition log_matching (l1 l2 : raftLog) : Prop :=
  ∀ i e1 e2, at_ l1 i = Some e1 → at_ l2 i = Some e2 →
    Entry_Term e1 = Entry_Term e2 →
    ∀ j x1 x2, j ≤ i → at_ l1 j = Some x1 → at_ l2 j = Some x2 → x1 = x2.

(** C9: replication preserves Log Matching.  When a follower accepts the
    message a leader builds from its log (previous index and term, and all the
    entries after it), the two logs agree on every index that both hold up to
    the leader's last one, and still satisfy Log Matching. *)
Theorem replication_log_matching ld fl fl' index c es :
  log_ok ld → log_ok fl → log_matching ld fl →
  offset ld ≤ index ≤ lastIndex ld →
  entries ld (index + 1) = Ok es →
  maybeAppend index (term ld index) c es fl = Ok (fl', true) →
  (∀ j x y, at_ ld j = Some x → at_ fl' j = Some y → x = y) ∧
  log_matching ld fl' ∧ lastIndex ld ≤ lastIndex fl'.
Proof.
  intros Hld Hfl Hlm Hidx Hes H.
  assert (es = slice ld (index + 1) (lastIndex ld + 1)) as ->.
  { unfold entries in Hes. destruct (_ =? _); by simplify_eq. }
  pose proof (maybeAppend_at _ _ _ _ _ _ Hfl H) as (Hb & Ho & Hlo & Hhi).
  pose proof (maybeAppend_lastIndex _ _ _ _ _ _ Hfl H) as Hlast.
  assert (∀ j x y, at_ ld j = Some x → at_ fl' j = Some y → x = y) as Hag.
  { intros j x y Hx Hy. apply at_Some in Hx as Hj. destruct Hj as [Hj _].
    destruct (decide (j ≤ index)).
    - rewrite Hlo in Hy by lia.
      destruct (proj2 (at_is_Some ld index)) as [e1 He1]; [lia|].
      destruct (maybeAppend_cases index (term ld index) c
        (slice ld (index + 1) (lastIndex ld + 1)) fl Hfl) as [[? E]|[Hm _]];
        [rewrite E in H; by simplify_eq|].
      apply matchTerm_true in Hm as (e2 & He2 & Ht).
      unfold term in Ht. rewrite He1 in Ht. by eapply (Hlm index e1 e2).
    - set (k := Z.to_nat (j - (index + 1))).
      assert (slice ld (index + 1) (lastIndex ld + 1) !! k = Some x) as Hk.
      { rewrite lookup_slice, <-Hx by lia. f_equal. lia. }
      specialize (Hhi k x Hk).
      replace (index + 1 + Z.of_nat k) with j in Hhi by lia.
      destruct Hhi as [?|[Hsame (oe & ne & Hoe & Hne & Ht)]]; [congruence|].
      replace (index + 1 + Z.of_nat k) with j in Hoe by lia.
      rewrite Hk in Hne. simplify_eq. rewrite Hsame in Hy. simplify_eq.
      by eapply (Hlm j ne oe). }
  split_and!; [done| |].
  - intros i e1 e2 _ _ _ j x1 x2 _. apply Hag.
  - unfold len in Hlast. rewrite length_slice in Hlast by lia. lia.
Qed.

(** ** Compaction, snapshots and delivery *)

Lemma offset_last l : log_ok l → offset l ≤ lastIndex l.
Proof. intros []. lia. Qed.

Lemma compact_Ok i l l' :
  log_ok l → compact i l = Ok l' →
  offset l ≤ i ≤ applied l ∧
  log_ok l' ∧ lastIndex l' = lastIndex l ∧ offset l' = i ∧
  committed l' = committed l ∧ applied l' = applied l ∧
  ∀ j, at_ l' j = if j <? i then None else at_ l j.
Proof.
  intros [????? [??]]. unfold compact, isOutOfAppliedBounds.
  destruct (_ || _) eqn:E; [done|]. to_prop. intros [= <-].
  assert (lastIndex (l <| ents := slice l i (lastIndex l + 1) |>
    <| unstable := max (i + 1) (unstable l) |> <| offset := i |>) = lastIndex l) as Hlast.
  { unfold lastIndex at 1; simpl. unfold len. rewrite length_slice by lia. lia. }
  split_and!; try done.
  - split; rewrite ?Hlast; simpl; rewrite ?max_ge; try lia.
    intros Hs%(f_equal length). rewrite length_slice in Hs by lia. simpl in Hs. lia.
  - intros j. unfold at_ at 1, isOutOfBounds. rewrite Hlast. simpl.
    destruct (j <? i) eqn:Ej; to_prop; simpl; [done|].
    destruct (j >? lastIndex l) eqn:El; to_prop; simpl.
    + symmetry. apply at_None. lia.
    + rewrite lookup_slice by lia. f_equal. lia.
Qed.

(** [compact i] keeps the log well formed, keeps every entry at or above
    [i] under its index, drops the ones below, and changes neither the commit
    nor the applied index; it panics exactly when [i] is not between the first
    index and the applied index. *)
Theorem compact_correct i l :
  log_ok l →
  (compact i l = Panic "compact out of bounds" ↔
     i < offset l ∨ applied l < i) ∧
  ∀ l', compact i l = Ok l' →
    log_ok l' ∧ lastIndex l' = lastIndex l ∧ offset l' = i ∧
    committed l' = committed l ∧ applied l' = applied l ∧
    ∀ j, at_ l' j = if j <? i then None else at_ l j.
Proof.
  intros Hok. split; [|intros l' Hl'; by apply compact_Ok].
  unfold compact, isOutOfAppliedBounds.
  destruct (_ || _) eqn:E; to_prop; split; intros; try done; [|lia].
  destruct E; to_prop; auto.
Qed.

Lemma newLog_ok : log_ok newLog.
Proof. by split. Qed.

Lemma restore_ok s l : 0 ≤ Snapshot_Index s → log_ok (restore s l).
Proof. intros. split; unfold lastIndex, len; simpl; try done; lia. Qed.

Lemma term_bound l i t : term l i = t → 0 ≤ t → offset l ≤ i ≤ lastIndex l.
Proof.
  unfold term. intros H Ht. apply at_is_Some.
  destruct (at_ l i); [eauto|]. lia.
Qed.

Lemma maybeCommit_at i t l j : at_ (maybeCommit i t l).1 j = at_ l j.
Proof. unfold maybeCommit. case_match; [by apply at_ents|done]. Qed.

Lemma maybeCommit_ok i t l : log_ok l → 0 ≤ t → log_ok (maybeCommit i t l).1.
Proof.
  intros [????? [??]] Ht. unfold maybeCommit.
  destruct (_ && _) eqn:E; [|by split]. apply andb_true_iff in E as [E1 E2].
  to_prop. apply term_bound in E2; [|done].
  log_solve.
Qed.

Lemma resetUnstable_ok l : log_ok l → log_ok (resetUnstable l).
Proof. intros [????? [??]]. log_solve. Qed.

Lemma resetNextEnts_ok l : log_ok l → log_ok (resetNextEnts l).
Proof.
  intros [????? [??]]. unfold resetNextEnts. case_match; to_prop; [|by split].
  log_solve.
Qed.

Lemma length_nextEnts l :
  log_ok l → Z.of_nat (length (nextEnts l)) = committed l - applied l.
Proof.
  intros []. unfold nextEnts. case_match; to_prop; [|simpl; lia].
  rewrite length_slice by lia. lia.
Qed.

Lemma lookup_nextEnts l k e :
  log_ok l → nextEnts l !! k = Some e → at_ l (applied l + 1 + Z.of_nat k) = Some e.
Proof.
  intros Hok H. apply lookup_lt_Some in H as Hlt.
  pose proof (length_nextEnts l Hok). destruct Hok. revert H. unfold nextEnts.
  case_match; to_prop; [|done].
  by rewrite lookup_slice by lia.
Qed.

(** ** Runs of one log

    The operations raft.go and node.go perform on a log between two snapshots
    received from a leader, with the entries each hands to the application. *)
Inductive log_step : raftLog → list Entry → raftLog → Prop :=
| ls_append l index t c es l' b :
    maybeAppend index t c es l = Ok (l', b) → log_step l [] l'
| ls_propose l es : log_step l [] (append (lastIndex l) es l)
| ls_commit l i t : 0 ≤ t → log_step l [] (maybeCommit i t l).1
| ls_compact l i l' : compact i l = Ok l' → log_step l [] l'
| ls_stable l : log_step l [] (resetUnstable l)
| ls_deliver l : log_step l (nextEnts l) (resetNextEnts l).

Inductive log_run : raftLog → list Entry → raftLog → Prop :=
| lr_refl l : log_run l [] l
| lr_step l1 ds1 l2 ds2 l3 :
    log_run l1 ds1 l2 → log_step l2 ds2 l3 → log_run l1 (ds1 ++ ds2) l3.

(** What one operation keeps of the applied prefix. *)
Lemma log_step_keeps l ds l' :
  log_ok l → log_step l ds l' →
  log_ok l' ∧ applied l' = applied l + len ds ∧ offset l ≤ offset l' ∧
  (∀ i, offset l' ≤ i ≤ applied l → at_ l' i = at_ l i) ∧
  (∀ k e, ds !! k = Some e → at_ l' (applied l + 1 + Z.of_nat k) = Some e).
Proof.
  intros Hok Hs. destruct Hs as [l index t c es l' b H|l es|l i t Ht|l i l' H|l|l].
  - destruct b.
    + pose proof (maybeAppend_log_ok _ _ _ _ _ _ _ Hok H).
      pose proof (maybeAppend_at _ _ _ _ _ _ Hok H) as (_ & ? & _).
      split_and!; [done| |lia| |done].
      * destruct (maybeAppend_cases index t c es l Hok)
          as [[_ E]|[Hm [[Ha E]|(k & Hk & [[_ E]|[? E]])]]]; rewrite E in H;
          simplify_eq; unfold advanceCommit; case_match; unfold len; simpl; lia.
      * intros i Hi. eapply at_committed_stable; [done..|]. destruct Hok; lia.
    + destruct (maybeAppend_cases index t c es l Hok)
        as [[_ E]|[Hm [[Ha E]|(k & Hk & [[_ E]|[? E]])]]]; rewrite E in H; simplify_eq.
      unfold len; simpl. split_and!; [done|lia..|done|done].
  - pose proof (offset_last _ Hok).
    split_and!; unfold len; simpl; [|lia|lia| |done].
    + destruct Hok. apply append_ok; [by split|lia..].
    + intros i Hi. rewrite at_append by lia.
      by rewrite (proj2 (Z.leb_le i _)) by (destruct Hok; lia).
  - unfold len; simpl. split_and!; [by apply maybeCommit_ok|..|done];
      [unfold maybeCommit; case_match; simpl; lia..|].
    intros; apply maybeCommit_at.
  - destruct (compact_Ok i l l' Hok H) as (? & ? & ? & Ho & ? & ? & Hat).
    unfold len; simpl. split_and!; [done|lia|lia| |done].
    intros j Hj. rewrite Hat. by rewrite (proj2 (Z.ltb_ge j i)) by lia.
  - unfold len; simpl. split_and!; [by apply resetUnstable_ok|lia|lia| |done].
    intros; by apply at_ents.
  - pose proof (length_nextEnts l Hok). unfold len.
    assert (∀ i, at_ (resetNextEnts l) i = at_ l i) as Hat.
    { intros i. unfold resetNextEnts. case_match; by apply at_ents. }
    split_and!; [by apply resetNextEnts_ok|..].
    + unfold resetNextEnts. destruct Hok. case_match; to_prop; simpl; lia.
    + unfold resetNextEnts. case_match; simpl; lia.
    + intros; apply Hat.
    + intros k e Hk. rewrite Hat. by apply lookup_nextEnts.
Qed.

(** C16: over any run of log operations the application receives every
    committed entry exactly once, in index order and without a gap: the
    entries handed out are the ones at the indices following the initial
    applied index, the applied index counts them, and what was handed out is
    never rewritten in the log. *)
Theorem delivery_in_order l0 ds l :
  log_ok l0 → log_run l0 ds l →
  log_ok l ∧ applied l = applied l0 + len ds ∧
  ∀ k e, ds !! k = Some e → offset l ≤ applied l0 + 1 + Z.of_nat k →
    at_ l (applied l0 + 1 + Z.of_nat k) = Some e.
Proof.
  intros Hok H. induction H as [l|l1 ds1 l2 ds2 l3 _ IH Hs].
  { unfold len; simpl. split_and!; [done|lia|done]. }
  destruct (IH Hok) as (Hok2 & Happ & Hat).
  destruct (log_step_keeps _ _ _ Hok2 Hs) as (Hok3 & Happ3 & Hoff & Hkeep & Hnew).
  split_and!; [done|rewrite len_app; lia|].
  intros k e Hk Hge. destruct (decide (k < length ds1)%nat).
  - rewrite lookup_app_l in Hk by lia.
    rewrite Hkeep; [apply Hat; [done|lia]|]. unfold len in Happ. lia.
  - rewrite lookup_app_r in Hk by lia. apply Hnew in Hk. rewrite <-Hk. f_equal.
    unfold len in Happ. lia.
Qed.

(** ** Witnesses *)

Definition ent (t i : Z) : Entry := mkEntry EntryNormal t i [] [].

(** Three entries, the first committed; a leader's log that conflicts with it
    at index 2. *)
Definition wlog : raftLog :=
  mkLog [zeroEntry; ent 1 1; ent 1 2; ent 1 3] 4 1 0 0 zeroSnapshot 10000.
Definition wlead : raftLog :=
  mkLog [zeroEntry; ent 1 1; ent 2 2] 3 1 1 0 zeroSnapshot 10000.

Lemma wlog_ok : log_ok wlog.
Proof. by split. Qed.
Lemma wlead_ok : log_ok wlead.
Proof. by split. Qed.

Definition wlog' : raftLog :=
  mkLog [zeroEntry; ent 1 1; ent 2 2] 2 2 0 0 zeroSnapshot 10000.

Lemma maybeAppend_correct_witness :
  maybeAppend 1 1 2 [ent 2 2] wlog = Ok (wlog', true) ∧
  log_ok wlog' ∧ merged 1 [ent 2 2] wlog wlog'.
Proof.
  split; [reflexivity|].
  destruct (maybeAppend_correct 1 1 2 [ent 2 2] wlog wlog' wlog_ok) as (H & H' & _);
    [reflexivity|exact (conj H H')].
Defined.

Lemma maybeAppend_outcome_witness :
  maybeAppend 1 2 2 [ent 2 2] wlog = Ok (wlog, false).
Proof.
  apply (maybeAppend_outcome 1 2 2 [ent 2 2] wlog wlog_ok). reflexivity.
Defined.


Lemma wlog_matching : log_matching wlead wlog.
Proof.
  assert (∀ l i e, at_ l i = Some e → offset l ≤ i ≤ lastIndex l) as Hb.
  { intros l i e H. by apply at_Some in H as [? _]. }
  intros i e1 e2 H1 H2 Ht j x1 x2 Hj Hx1 Hx2.
  pose proof (Hb _ _ _ H1) as Hi. pose proof (Hb _ _ _ Hx1) as Hj'.
  unfold lastIndex, len in Hi, Hj'. simpl in Hi, Hj'.
  assert (i = 0 ∨ i = 1 ∨ i = 2) as [->|[->| ->]] by lia;
    assert (j = 0 ∨ j = 1 ∨ j = 2) as [->|[->| ->]] by lia; try lia;
    cbv in H1, H2, Hx1, Hx2; simplify_eq; done.
Qed.

Lemma replication_log_matching_witness : log_matching wlead wlog'.
Proof.
  apply (replication_log_matching wlead wlog wlog' 1 2 [ent 2 2]
           wlead_ok wlog_ok wlog_matching); [cbv; split; discriminate|reflexivity..].
Defined.

Lemma compact_correct_witness : compact 2 wlog = Panic "compact out of bounds".
Proof. apply (compact_correct 2 wlog wlog_ok). right. reflexivity. Defined.

Lemma delivery_in_order_witness :
  ∃ l, log_run wlog [ent 1 1; ent 2 2] l ∧ applied l = 2.
Proof.
  assert (log_run wlog ([] ++ nextEnts wlog) (resetNextEnts wlog)) as H1.
  { eapply lr_step; [constructor|apply ls_deliver]. }
  assert (log_run wlog (([] ++ nextEnts wlog) ++ [])
    (wlog' <| applied := 1 |>)) as H2.
  { eapply lr_step; [exact H1|]. eapply (ls_append _ 1 1 2 [ent 2 2] _ true).
    reflexivity. }
  pose proof (lr_step _ _ _ _ _ H2 (ls_deliver _)) as H3.
  eexists. split; [exact H3|].
  destruct (delivery_in_order _ _ _ wlog_ok H3) as (_ & Ha & _). exact Ha.
Defined.
