(* ===== verification/Raft.v ===== *)
(** * Raft: the consensus state machine of one node (src/raft/raft.go)

    [raft] is the struct of the same name, its embedded HardState split into
    the fields [Term], [Vote] and [Commit].  Every method is a definition on
    it, returning the new state; a method that may panic (an explicit panic, a
    nil dereference, an index out of range) returns an [outcome].  The function
    values in the fields step and tick are named by [stepFunc] and [tickFunc].

    Go iterates over a map in an unspecified order.  The order is a parameter,
    the class [MapRange]: the theorems hold for every order.

    A term is an int64, and [becomeCandidate] wraps around; log indices are
    exact (see RaftLog). *)

From stdpp Require Import sorting.
From S2P Require Import Prelude Raftpb.
From S2P Require Import RaftLog.

(** ** Constants *)
Definition None_ : Z := 0.

Definition msgHup : Z := 0.
Definition msgBeat : Z := 1.
Definition msgProp : Z := 2.
Definition msgApp : Z := 3.
Definition msgAppResp : Z := 4.
Definition msgVote : Z := 5.
Definition msgVoteResp : Z := 6.
Definition msgSnap : Z := 7.
Definition msgDenied : Z := 8.

(** ** The state *)
Inductive StateType := StateFollower | StateCandidate | StateLeader.
Inductive tickFunc := TickElection | TickHeartbeat.
Inductive stepFunc := StepFollower | StepCandidate | StepLeader.

#[export] Instance StateType_eq_dec : EqDecision StateType.
Proof. solve_decision. Defined.

Record progress := mkProgress { match_ : Z; next : Z }.

Record raft := mkRaft {
  Term : Z;
  Vote : Z;
  Commit : Z;
  id : Z;
  rlog : raftLog;
  prs : gmap Z progress;
  state : StateType;
  votes : gmap Z bool;
  msgs : list Message;
  lead : Z;
  pendingConf : bool;
  removed : gmap Z bool;
  elapsed : Z;
  heartbeatTimeout : Z;
  electionTimeout : Z;
  tick_ : tickFunc;
  step_ : stepFunc;
}.

#[export] Instance set_Term : Setter Term := λ f x,
  mkRaft (f (Term x)) (Vote x) (Commit x) (id x) (rlog x) (prs x) (state x) (votes x) (msgs x) (lead x) (pendingConf x) (removed x) (elapsed x) (heartbeatTimeout x) (electionTimeout x) (tick_ x) (step_ x).
#[export] Instance set_Vote : Setter Vote := λ f x,
  mkRaft (Term x) (f (Vote x)) (Commit x) (id x) (rlog x) (prs x) (state x) (votes x) (msgs x) (lead x) (pendingConf x) (removed x) (elapsed x) (heartbeatTimeout x) (electionTimeout x) (tick_ x) (step_ x).
#[export] Instance set_Commit : Setter Commit := λ f x,
  mkRaft (Term x) (Vote x) (f (Commit x)) (id x) (rlog x) (prs x) (state x) (votes x) (msgs x) (lead x) (pendingConf x) (removed x) (elapsed x) (heartbeatTimeout x) (electionTimeout x) (tick_ x) (step_ x).
#[export] Instance set_id : Setter id := λ f x,
  mkRaft (Term x) (Vote x) (Commit x) (f (id x)) (rlog x) (prs x) (state x) (votes x) (msgs x) (lead x) (pendingConf x) (removed x) (elapsed x) (heartbeatTimeout x) (electionTimeout x) (tick_ x) (step_ x).
#[export] Instance set_rlog : Setter rlog := λ f x,
  mkRaft (Term x) (Vote x) (Commit x) (id x) (f (rlog x)) (prs x) (state x) (votes x) (msgs x) (lead x) (pendingConf x) (removed x) (elapsed x) (heartbeatTimeout x) (electionTimeout x) (tick_ x) (step_ x).
#[export] Instance set_prs : Setter prs := λ f x,
  mkRaft (Term x) (Vote x) (Commit x) (id x) (rlog x) (f (prs x)) (state x) (votes x) (msgs x) (lead x) (pendingConf x) (removed x) (elapsed x) (heartbeatTimeout x) (electionTimeout x) (tick_ x) (step_ x).
#[export] Instance set_state : Setter state := λ f x,
  mkRaft (Term x) (Vote x) (Commit x) (id x) (rlog x) (prs x) (f (state x)) (votes x) (msgs x) (lead x) (pendingConf x) (removed x) (elapsed x) (heartbeatTimeout x) (electionTimeout x) (tick_ x) (step_ x).
#[export] Instance set_votes : Setter votes := λ f x,
  mkRaft (Term x) (Vote x) (Commit x) (id x) (rlog x) (prs x) (state x) (f (votes x)) (msgs x) (lead x) (pendingConf x) (removed x) (elapsed x) (heartbeatTimeout x) (electionTimeout x) (tick_ x) (step_ x).
#[export] Instance set_msgs : Setter msgs := λ f x,
  mkRaft (Term x) (Vote x) (Commit x) (id x) (rlog x) (prs x) (state x) (votes x) (f (msgs x)) (lead x) (pendingConf x) (removed x) (elapsed x) (heartbeatTimeout x) (electionTimeout x) (tick_ x) (step_ x).
#[export] Instance set_lead : Setter lead := λ f x,
  mkRaft (Term x) (Vote x) (Commit x) (id x) (rlog x) (prs x) (state x) (votes x) (msgs x) (f (lead x)) (pendingConf x) (removed x) (elapsed x) (heartbeatTimeout x) (electionTimeout x) (tick_ x) (step_ x).
#[export] Instance set_pendingConf : Setter pendingConf := λ f x,
  mkRaft (Term x) (Vote x) (Commit x) (id x) (rlog x) (prs x) (state x) (votes x) (msgs x) (lead x) (f (pendingConf x)) (removed x) (elapsed x) (heartbeatTimeout x) (electionTimeout x) (tick_ x) (step_ x).
#[export] Instance set_removed : Setter removed := λ f x,
  mkRaft (Term x) (Vote x) (Commit x) (id x) (rlog x) (prs x) (state x) (votes x) (msgs x) (lead x) (pendingConf x) (f (removed x)) (elapsed x) (heartbeatTimeout x) (electionTimeout x) (tick_ x) (step_ x).
#[export] Instance set_elapsed : Setter elapsed := λ f x,
  mkRaft (Term x) (Vote x) (Commit x) (id x) (rlog x) (prs x) (state x) (votes x) (msgs x) (lead x) (pendingConf x) (removed x) (f (elapsed x)) (heartbeatTimeout x) (electionTimeout x) (tick_ x) (step_ x).
#[export] Instance set_heartbeatTimeout : Setter heartbeatTimeout := λ f x,
  mkRaft (Term x) (Vote x) (Commit x) (id x) (rlog x) (prs x) (state x) (votes x) (msgs x) (lead x) (pendingConf x) (removed x) (elapsed x) (f (heartbeatTimeout x)) (electionTimeout x) (tick_ x) (step_ x).
#[export] Instance set_electionTimeout : Setter electionTimeout := λ f x,
  mkRaft (Term x) (Vote x) (Commit x) (id x) (rlog x) (prs x) (state x) (votes x) (msgs x) (lead x) (pendingConf x) (removed x) (elapsed x) (heartbeatTimeout x) (f (electionTimeout x)) (tick_ x) (step_ x).
#[export] Instance set_tick_ : Setter tick_ := λ f x,
  mkRaft (Term x) (Vote x) (Commit x) (id x) (rlog x) (prs x) (state x) (votes x) (msgs x) (lead x) (pendingConf x) (removed x) (elapsed x) (heartbeatTimeout x) (electionTimeout x) (f (tick_ x)) (step_ x).
#[export] Instance set_step_ : Setter step_ := λ f x,
  mkRaft (Term x) (Vote x) (Commit x) (id x) (rlog x) (prs x) (state x) (votes x) (msgs x) (lead x) (pendingConf x) (removed x) (elapsed x) (heartbeatTimeout x) (electionTimeout x) (tick_ x) (f (step_ x)).

(** The order in which [for i := range r.prs] visits the keys. *)
Class MapRange := {
  range : gmap Z progress → list Z;
  range_perm : ∀ m, range m ≡ₚ (map_to_list m).*1;
}.

(** ** progress *)
Definition update (n : Z) (pr : progress) : progress := mkProgress n (n + 1).

Definition decr (pr : progress) : progress :=
  let n := next pr - 1 in mkProgress (match_ pr) (if n <? 1 then 1 else n).

(** ** Queries *)
Definition hasLeader (r : raft) : bool := negb (lead r =? None_).

Definition shouldStop (r : raft) : bool := default false (removed r !! id r).

Definition q (r : raft) : Z := Z.of_nat (size (prs r)) / 2 + 1.

Definition promotable (r : raft) : bool := bool_decide (is_Some (prs r !! id r)).

Definition needSnapshot (i : Z) (r : raft) : outcome bool :=
  if i <? offset (rlog r) then
    if Snapshot_Term (snapshot (rlog r)) =? 0
    then Panic "need non-empty snapshot" else Ok true
  else Ok false.

(** ** Sending *)
Definition send (m : Message) (r : raft) : raft :=
  r <| msgs := msgs r ++
         [m <| Message_From := id r |> <| Message_Term := Term r |>] |>.

Definition ReadMessages (r : raft) : list Message * raft :=
  (msgs r, r <| msgs := [] |>).

Definition sendAppend (to : Z) (r : raft) : outcome raft :=
  pr ← deref (prs r !! to);
  let m := zeroMessage <| Message_To := to |>
                       <| Message_Index := next pr - 1 |> in
  ns ← needSnapshot (Message_Index m) r;
  if ns : bool then
    Ok (send (m <| Message_Type := msgSnap |>
                <| Message_Snapshot := snapshot (rlog r) |>) r)
  else
    es ← entries (rlog r) (next pr);
    Ok (send (m <| Message_Type := msgApp |>
                <| Message_LogTerm := term (rlog r) (next pr - 1) |>
                <| Message_Entries := es |>
                <| Message_Commit := committed (rlog r) |>) r).

Definition sendHeartbeat (to : Z) (r : raft) : raft :=
  send (zeroMessage <| Message_To := to |> <| Message_Type := msgApp |>) r.

(** ** Votes *)

Definition granted (vs : gmap Z bool) : Z :=
  Z.of_nat (size (filter (λ kv, kv.2 = true) vs)).

Definition poll (i : Z) (v : bool) (r : raft) : raft * Z :=
  let r' := if decide (is_Some (votes r !! i)) then r
            else r <| votes := <[i := v]> (votes r) |> in
  (r', granted (votes r')).

(** ** Membership *)
Definition setProgress (i m n : Z) (r : raft) : raft :=
  r <| prs := <[i := mkProgress m n]> (prs r) |>.

Definition delProgress (i : Z) (r : raft) : raft :=
  r <| prs := delete i (prs r) |>.

Definition addNode (i : Z) (r : raft) : raft :=
  (setProgress i 0 (lastIndex (rlog r) + 1) r) <| pendingConf := false |>.

Definition removeNode (i : Z) (r : raft) : raft :=
  (delProgress i r) <| pendingConf := false |>
                    <| removed := <[i := true]> (removed r) |>.

(** ** Role changes *)
Definition reset (t : Z) (r : raft) : raft :=
  r <| Term := t |> <| lead := None_ |> <| Vote := None_ |> <| elapsed := 0 |>
    <| votes := ∅ |>
    <| prs := map_imap (λ i _, Some (mkProgress
                (if i =? id r then lastIndex (rlog r) else 0)
                (lastIndex (rlog r) + 1))) (prs r) |>
    <| pendingConf := false |>.

Definition becomeFollower (t l : Z) (r : raft) : raft :=
  (reset t (r <| step_ := StepFollower |>))
    <| tick_ := TickElection |> <| lead := l |> <| state := StateFollower |>.

Definition becomeCandidate (r : raft) : outcome raft :=
  if decide (state r = StateLeader)
  then Panic "invalid transition [leader -> candidate]"
  else Ok ((reset (int64 (Term r + 1)) (r <| step_ := StepCandidate |>))
             <| tick_ := TickElection |> <| Vote := id r |>
             <| state := StateCandidate |>).

(** The assignments at the start of [becomeLeader]. *)
Definition enterLeader (r : raft) : raft :=
  (reset (Term r) (r <| step_ := StepLeader |>))
    <| tick_ := TickHeartbeat |> <| lead := id r |> <| state := StateLeader |>.

Section with_range.
Context `{MapRange}.

(** [sort.Sort(sort.Reverse(mis))] on integers. *)
Definition sortDesc (l : list Z) : list Z := merge_sort Z.ge l.

(** The match indices in descending order. *)
Definition sortedMatches (r : raft) : list Z :=
  sortDesc (omap (λ i, match_ <$> prs r !! i) (range (prs r))).

Definition maybeCommit (r : raft) : outcome (raft * bool) :=
  match sortedMatches r !! Z.to_nat (q r - 1) with
  | None => Panic outOfRange
  | Some mci =>
      let '(l, b) := RaftLog.maybeCommit mci (Term r) (rlog r) in
      Ok (r <| rlog := l |>, b)
  end.

Definition bcastAppend (r : raft) : outcome raft :=
  foldM (λ r i, if i =? id r then Ok r else sendAppend i r) (range (prs r)) r.

Definition bcastHeartbeat (r : raft) : outcome raft :=
  foldM (λ r i, if i =? id r then Ok r else Ok (sendHeartbeat i r))
    (range (prs r)) r.

Definition appendEntry (e : Entry) (r : raft) : outcome raft :=
  let e := e <| Entry_Term := Term r |>
             <| Entry_Index := lastIndex (rlog r) + 1 |> in
  let r := r <| rlog := append (lastIndex (rlog r)) [e] (rlog r) |> in
  pr ← deref (prs r !! id r);
  let r := r <| prs := <[id r := update (lastIndex (rlog r)) pr]> (prs r) |> in
  '(r, _) ← maybeCommit r;
  Ok r.

Definition becomeLeader (r : raft) : outcome raft :=
  if decide (state r = StateFollower)
  then Panic "invalid transition [follower -> leader]"
  else
    let r := enterLeader r in
    es ← entries (rlog r) (committed (rlog r) + 1);
    r ← foldM (λ r e,
          if negb (Entry_Type e =? EntryConfChange) then Ok r
          else if pendingConf r
          then Panic "unexpected double uncommitted config entry"
          else Ok (r <| pendingConf := true |>)) es r;
    appendEntry zeroEntry r.

Definition campaign (r : raft) : outcome raft :=
  r ← becomeCandidate r;
  let '(r, gr) := poll (id r) true r in
  r ← (if q r =? gr then becomeLeader r else Ok r);
  foldM (λ r i, if i =? id r then Ok r else
           let lasti := lastIndex (rlog r) in
           Ok (send (zeroMessage <| Message_To := i |>
                       <| Message_Type := msgVote |>
                       <| Message_Index := lasti |>
                       <| Message_LogTerm := term (rlog r) lasti |>) r))
    (range (prs r)) r.

(** ** Handlers *)
Definition handleAppendEntries (m : Message) (r : raft) : outcome raft :=
  '(l, ok) ← maybeAppend (Message_Index m) (Message_LogTerm m)
               (Message_Commit m) (Message_Entries m) (rlog r);
  let r := r <| rlog := l |> in
  let resp := zeroMessage <| Message_To := Message_From m |>
                          <| Message_Type := msgAppResp |> in
  Ok (if ok : bool
      then send (resp <| Message_Index := lastIndex (rlog r) |>) r
      else send (resp <| Message_Denied := true |>) r).

Definition restore (s : Snapshot) (r : raft) : raft * bool :=
  if Snapshot_Index s <=? committed (rlog r) then (r, false)
  else
    let r := r <| rlog := RaftLog.restore s (rlog r) |> <| prs := ∅ |> in
    (foldl (λ r n,
       if n =? id r
       then setProgress n (lastIndex (rlog r)) (lastIndex (rlog r) + 1) r
       else setProgress n 0 (lastIndex (rlog r) + 1) r)
       r (Snapshot_Nodes s), true).

Definition handleSnapshot (m : Message) (r : raft) : raft :=
  let '(r, ok) := restore (Message_Snapshot m) r in
  let resp := zeroMessage <| Message_To := Message_From m |>
                          <| Message_Type := msgAppResp |> in
  if ok : bool then send (resp <| Message_Index := lastIndex (rlog r) |>) r
  else send (resp <| Message_Index := committed (rlog r) |>) r.

Definition voteResp (m : Message) (denied : bool) : Message :=
  zeroMessage <| Message_To := Message_From m |>
    <| Message_Type := msgVoteResp |> <| Message_Denied := denied |>.

Definition stepLeader (m : Message) (r : raft) : outcome raft :=
  let t := Message_Type m in
  if t =? msgBeat then bcastHeartbeat r
  else if t =? msgProp then
    match Message_Entries m with
    | [e] =>
        if Entry_Type e =? EntryConfChange then
          if pendingConf r then Ok r
          else r ← appendEntry e (r <| pendingConf := true |>); bcastAppend r
        else r ← appendEntry e r; bcastAppend r
    | _ => Panic "unexpected length(entries) of a msgProp"
    end
  else if t =? msgAppResp then
    pr ← deref (prs r !! Message_From m);
    if Message_Denied m then
      sendAppend (Message_From m)
        (r <| prs := <[Message_From m := decr pr]> (prs r) |>)
    else
      '(r, b) ← maybeCommit
        (r <| prs := <[Message_From m := update (Message_Index m) pr]> (prs r) |>);
      if b : bool then bcastAppend r else Ok r
  else if t =? msgVote then Ok (send (voteResp m true) r)
  else Ok r.

Definition stepCandidate (m : Message) (r : raft) : outcome raft :=
  let t := Message_Type m in
  if t =? msgProp then Panic "no leader"
  else if t =? msgApp then
    handleAppendEntries m (becomeFollower (Term r) (Message_From m) r)
  else if t =? msgSnap then
    Ok (handleSnapshot m (becomeFollower (Message_Term m) (Message_From m) r))
  else if t =? msgVote then Ok (send (voteResp m true) r)
  else if t =? msgVoteResp then
    let '(r, gr) := poll (Message_From m) (negb (Message_Denied m)) r in
    if q r =? gr then r ← becomeLeader r; bcastAppend r
    else if q r =? Z.of_nat (size (votes r)) - gr
    then Ok (becomeFollower (Term r) None_ r)
    else Ok r
  else Ok r.

Definition stepFollower (m : Message) (r : raft) : outcome raft :=
  let t := Message_Type m in
  if t =? msgProp then
    if lead r =? None_ then Panic "no leader"
    else Ok (send (m <| Message_To := lead r |>) r)
  else if t =? msgApp then
    handleAppendEntries m (r <| elapsed := 0 |> <| lead := Message_From m |>)
  else if t =? msgSnap then Ok (handleSnapshot m (r <| elapsed := 0 |>))
  else if t =? msgVote then
    grant ← (if (Vote r =? None_) || (Vote r =? Message_From m)
             then isUpToDate (rlog r) (Message_Index m) (Message_LogTerm m)
             else Ok false);
    Ok (if grant : bool
        then send (voteResp m false)
               (r <| elapsed := 0 |> <| Vote := Message_From m |>)
        else send (voteResp m true) r)
  else Ok r.

(** [r.step(r, m)]. *)
Definition callStep (m : Message) (r : raft) : outcome raft :=
  match step_ r with
  | StepFollower => stepFollower m r
  | StepCandidate => stepCandidate m r
  | StepLeader => stepLeader m r
  end.

(** The deferred assignment of [Step]. *)
Definition saveCommit (r : raft) : raft := r <| Commit := committed (rlog r) |>.

Definition Step (m : Message) (r : raft) : outcome raft :=
  if default false (removed r !! Message_From m) then
    Ok (saveCommit
      (if Message_From m =? id r then r
       else send (zeroMessage <| Message_To := Message_From m |>
                              <| Message_Type := msgDenied |>) r))
  else if Message_Type m =? msgDenied then
    Ok (saveCommit (r <| removed := <[id r := true]> (removed r) |>))
  else
    r ← (if Message_Type m =? msgHup then campaign r else Ok r);
    if Message_Term m =? 0 then r ← callStep m r; Ok (saveCommit r)
    else if Message_Term m >? Term r then
      let l := if Message_Type m =? msgVote then None_ else Message_From m in
      r ← callStep m (becomeFollower (Message_Term m) l r); Ok (saveCommit r)
    else if Message_Term m <? Term r then Ok (saveCommit r)
    else r ← callStep m r; Ok (saveCommit r).

(** ** Time *)
Definition tickElection (r : raft) : outcome raft :=
  if negb (promotable r) then Ok (r <| elapsed := 0 |>)
  else
    let r := r <| elapsed := elapsed r + 1 |> in
    if elapsed r >? electionTimeout r then
      Step (zeroMessage <| Message_From := id r |> <| Message_Type := msgHup |>)
        (r <| elapsed := 0 |>)
    else Ok r.

Definition tickHeartbeat (r : raft) : outcome raft :=
  let r := r <| elapsed := elapsed r + 1 |> in
  if elapsed r >? heartbeatTimeout r then
    Step (zeroMessage <| Message_From := id r |> <| Message_Type := msgBeat |>)
      (r <| elapsed := 0 |>)
  else Ok r.

(** [r.tick()]. *)
Definition tick (r : raft) : outcome raft :=
  match tick_ r with
  | TickElection => tickElection r
  | TickHeartbeat => tickHeartbeat r
  end.

(** ** Compaction *)
Definition nodes (r : raft) : list Z := range (prs r).

Definition compact (d : list Z) (r : raft) : outcome raft :=
  let a := applied (rlog r) in
  l ← RaftLog.compact a (RaftLog.snap d a (term (rlog r) a) (nodes r) (rlog r));
  Ok (r <| rlog := l |>).

End with_range.

(** ** Starting and restarting *)
Definition loadEnts (es : list Entry) (r : raft) : raft :=
  r <| rlog := load es (rlog r) |>.

Definition loadState (st : HardState) (r : raft) : raft :=
  r <| rlog := (rlog r) <| committed := HardState_Commit st |> |>
    <| Term := HardState_Term st |> <| Vote := HardState_Vote st |>
    <| Commit := HardState_Commit st |>.

Definition newRaft (i : Z) (peers : list Z) (election heartbeat : Z)
  : outcome raft :=
  if i =? None_ then Panic "cannot use none id"
  else
    Ok (becomeFollower 0 None_
      (mkRaft 0 0 0 i newLog
         (foldl (λ m p, <[p := mkProgress 0 0]> m) ∅ peers)
         StateFollower ∅ [] None_ false ∅ 0 heartbeat election
         TickElection StepFollower)).

(** One iteration order: the order of [map_to_list]. *)
Definition keyOrder : MapRange :=
  {| range m := (map_to_list m).*1; range_perm m := Permutation_refl _ |}.
