(* ===== verification/RaftInv.v ===== *)
(** * RaftInv: the invariant of one node, and what a handler may change

    [node_ok P r] is the invariant of a node [r] of a cluster whose members
    are the ids of [P]: its log is well formed, its step and tick functions
    are the ones of its role, it counts exactly the members of [P], and the
    terms and snapshots it holds are sound.  [quiet P r r'] says that going from
    [r] to [r'] keeps the invariant, does not touch the term, the vote, the role
    and the recorded votes, and only sends messages that are not votes; most of
    raft.go is quiet, which is what makes elections tractable. *)

From S2P Require Import Prelude Raftpb.
From S2P Require Import RaftLog.
From S2P Require Import Raft.

(** ** Messages and the invariant *)

Definition is_grant (m : Message) : Prop :=
  Message_Type m = msgVoteResp ∧ Message_Denied m = false.

(** A snapshot is the zero one or records the membership [P]. *)
Definition snap_ok (P : gset Z) (s : Snapshot) : Prop :=
  Snapshot_Index s ≤ 0 ∨ list_to_set (Snapshot_Nodes s) = P.

Record good_msg (P : gset Z) (m : Message) : Prop := {
  gm_type : Message_Type m ≠ msgDenied;
  gm_snap : snap_ok P (Message_Snapshot m);
  gm_term : 0 ≤ Message_Term m;
  gm_pos : Message_Type m = msgVote ∨ Message_Type m = msgSnap ∨
           Message_Type m = msgVoteResp → 1 ≤ Message_Term m;
  gm_from : Message_Type m = msgVote → Message_From m ≠ None_;
}.

(** The function values agree with the role. *)
Definition role_ok (r : raft) : Prop :=
  match state r with
  | StateFollower => step_ r = StepFollower ∧ tick_ r = TickElection
  | StateCandidate => step_ r = StepCandidate ∧ tick_ r = TickElection
  | StateLeader => step_ r = StepLeader ∧ tick_ r = TickHeartbeat
  end.

Record node_ok (P : gset Z) (r : raft) : Prop := {
  no_log : log_ok (rlog r);
  no_role : role_ok r;
  no_id : id r ∈ P ∧ id r ≠ None_;
  no_prs : dom (prs r) = P;
  no_removed : removed r = ∅;
  no_term : 0 ≤ Term r;
  no_pos : state r ≠ StateFollower → 1 ≤ Term r;
  no_snap : snap_ok P (snapshot (rlog r));
}.

(** ** Quiet transitions *)

(** A message sent by [r] in its current term that is not a granted vote. *)
Record plain_msg (P : gset Z) (r : raft) (m : Message) : Prop := {
  pm_good : good_msg P m;
  pm_from : Message_From m = id r;
  pm_term : Message_Term m = Term r;
  pm_grant : ¬ is_grant m;
}.

Record quiet_eq (P : gset Z) (r r' : raft) : Prop := {
  qt_ok : node_ok P r';
  qt_id : id r' = id r;
  qt_term : Term r' = Term r;
  qt_vote : Vote r' = Vote r;
  qt_state : state r' = state r;
  qt_votes : votes r' = votes r;
  qt_msgs : ∃ new, msgs r' = msgs r ++ new ∧ Forall (plain_msg P r) new;
}.

Definition quiet (P : gset Z) (r r' : raft) : Prop :=
  node_ok P r → quiet_eq P r r'.

#[export] Instance quiet_refl P : Reflexive (quiet P).
Proof. intros r Hok. split; try done. exists []. by rewrite app_nil_r. Qed.

#[export] Instance quiet_trans P : Transitive (quiet P).
Proof.
  intros r1 r2 r3 H12 H23 Hok.
  destruct (H12 Hok) as [Hok2 Hi2 Ht2 ???(n1 & Hm1 & Hf1)].
  destruct (H23 Hok2) as [Hok3 ?????(n2 & Hm2 & Hf2)].
  split; try congruence. exists (n1 ++ n2).
  rewrite Hm2, Hm1, (assoc_L (++)). split; [done|].
  apply Forall_app. split; [done|].
  eapply Forall_impl; [exact Hf2|]. intros m [????]. split; congruence.
Qed.

(** Changing fields that the invariant does not mention. *)
Lemma quiet_fields P r r' :
  rlog r' = rlog r → id r' = id r → prs r' = prs r → removed r' = removed r →
  Term r' = Term r → Vote r' = Vote r → state r' = state r →
  step_ r' = step_ r → tick_ r' = tick_ r → votes r' = votes r →
  msgs r' = msgs r → quiet P r r'.
Proof.
  intros Hl Hi Hp Hr Ht Hv Hs Hst Htk Hvs Hm [].
  split; try done.
  - split; unfold role_ok in *; rewrite ?Hl, ?Hi, ?Hp, ?Hr, ?Ht, ?Hs, ?Hst, ?Htk; auto.
  - exists []. by rewrite app_nil_r.
Qed.

(** Changing the log, to a well formed one with a sound snapshot. *)
Lemma quiet_log P r l :
  (node_ok P r → log_ok l ∧ snap_ok P (snapshot l)) → quiet P r (r <| rlog := l |>).
Proof.
  intros Hl Hok. destruct (Hl Hok) as [??]. destruct Hok.
  split; try done. exists []. by rewrite app_nil_r.
Qed.

Lemma quiet_prs P r ps : dom ps = dom (prs r) → quiet P r (r <| prs := ps |>).
Proof.
  intros Hd []. split; try done; [split; simpl; try done; congruence|].
  exists []. by rewrite app_nil_r.
Qed.

Lemma quiet_send P r m :
  Message_Type m ≠ msgDenied →
  (node_ok P r → snap_ok P (Message_Snapshot m)) →
  (node_ok P r → Message_Type m = msgVote ∨ Message_Type m = msgSnap ∨
     Message_Type m = msgVoteResp → 1 ≤ Term r) →
  ¬ is_grant m → quiet P r (send m r).
Proof.
  intros Ht Hs Hp Hg Hok. pose proof Hok as [].
  split; try done. eexists. split; [done|]. apply Forall_singleton.
  split; try done. split; simpl; auto. by destruct no_id0.
Qed.

(** ** The handlers that are quiet *)

Section quiet_handlers.
Context `{MapRange} (P : gset Z).
Implicit Types r : raft.

Lemma sendAppend_quiet to r r' :
  (node_ok P r → 1 ≤ Term r) → sendAppend to r = Ok r' → quiet P r r'.
Proof.
  unfold sendAppend. intros Ht Hs. inv_ok. case_match; inv_ok; subst r';
    (apply quiet_send; simpl; [done| |by auto|by intros [??]]).
  - intros []; done.
  - left. done.
Qed.

Lemma bcastAppend_quiet r r' :
  (node_ok P r → 1 ≤ Term r) → bcastAppend r = Ok r' → quiet P r r'.
Proof.
  intros Ht Hs Hok. specialize (Ht Hok).
  assert (∀ l r1 r2, 1 ≤ Term r1 → node_ok P r1 →
    foldM (λ r i, if i =? id r then Ok r else sendAppend i r) l r1 = Ok r2 →
    quiet_eq P r1 r2) as Hind; [|by eapply Hind].
  induction l as [|i l IH]; simpl; intros r1 r2 Ht1 Hok1 Hf; inv_ok.
  { subst. by apply quiet_refl. }
  assert (quiet P r1 x) as Hq.
  { case_match; inv_ok; subst; [done|]. by eapply sendAppend_quiet. }
  pose proof (Hq Hok1) as [? _ Ht2 _ _ _ _].
  eapply (quiet_trans P _ x); [done| |done]. intros _. apply IH; [lia|done|done].
Qed.

Lemma bcastHeartbeat_quiet r r' : bcastHeartbeat r = Ok r' → quiet P r r'.
Proof.
  unfold bcastHeartbeat. apply foldM_ind; [apply _..|].
  intros r1 i r2 _ Hf. case_match; inv_ok; subst; [done|].
  apply quiet_send; simpl; [done|by left| |by intros [??]].
  intros _ [?|[?|?]]; done.
Qed.

Lemma maybeCommit_quiet r r' b : maybeCommit r = Ok (r', b) → quiet P r r'.
Proof.
  unfold maybeCommit. intros Hc. case_match; [|done].
  destruct (RaftLog.maybeCommit _ _ _) as [l' b'] eqn:El. inv_ok. subst.
  apply quiet_log. intros [].
  replace l' with (RaftLog.maybeCommit z (Term r) (rlog r)).1 by (by rewrite El).
  split; [by apply maybeCommit_ok|].
  unfold RaftLog.maybeCommit. by case_match.
Qed.

Lemma appendEntry_quiet e r r' : appendEntry e r = Ok r' → quiet P r r'.
Proof.
  unfold appendEntry. intros Hf. inv_ok.
  destruct x0 as [r2 b]. inv_ok. subst r2.
  etrans; [|eapply maybeCommit_quiet; exact Hf1].
  etrans; [apply quiet_log|apply quiet_prs].
  - intros [[]]. split; [|done]. apply append_ok; [by split|..]; lia.
  - simpl in *. apply dom_insert_lookup_L. by eexists.
Qed.

Lemma handleAppendEntries_quiet m r r' :
  handleAppendEntries m r = Ok r' → quiet P r r'.
Proof.
  unfold handleAppendEntries. intros Hf. inv_ok. destruct x as [l ok]. inv_ok.
  assert (quiet P r (r <| rlog := l |>)) as Hq.
  { apply quiet_log. intros []. split; [by eapply maybeAppend_log_ok|].
    by rewrite (maybeAppend_snapshot _ _ _ _ _ _ _ Hf0). }
  subst r'. etrans; [exact Hq|].
  case_match; apply quiet_send; simpl; try done; try (by left);
    try (by intros _ [?|[?|?]]); by intros [??].
Qed.

Lemma restore_fields s r r' b :
  restore s r = (r', b) →
  id r' = id r ∧ removed r' = removed r ∧ Term r' = Term r ∧ Vote r' = Vote r ∧
  state r' = state r ∧ step_ r' = step_ r ∧ tick_ r' = tick_ r ∧
  votes r' = votes r ∧ msgs r' = msgs r ∧
  if b then committed (rlog r) < Snapshot_Index s ∧
            rlog r' = RaftLog.restore s (rlog r) ∧
            dom (prs r') = list_to_set (Snapshot_Nodes s)
  else r' = r.
Proof.
  unfold restore. case_match; to_prop; intros ?; simplify_eq; [by split_and!|].
  match goal with |- context [foldl ?g _ _] => set (f := g) end.
  assert (∀ l r1, let r2 := foldl f r1 l in
    id r2 = id r1 ∧ removed r2 = removed r1 ∧ Term r2 = Term r1 ∧ Vote r2 = Vote r1 ∧
    state r2 = state r1 ∧ step_ r2 = step_ r1 ∧ tick_ r2 = tick_ r1 ∧
    votes r2 = votes r1 ∧ msgs r2 = msgs r1 ∧ rlog r2 = rlog r1 ∧
    dom (prs r2) = dom (prs r1) ∪ list_to_set l) as Hfold.
  { induction l as [|n l IH]; intros r1; simpl; [split_and!; try done; set_solver|].
    destruct (IH (f r1 n)) as (-> & -> & -> & -> & -> & -> & -> & -> & -> & -> & ->).
    unfold f. case_match; simpl; rewrite dom_insert_L; split_and!; try done; set_solver. }
  destruct (Hfold (Snapshot_Nodes s) (r <| rlog := RaftLog.restore s (rlog r) |>
    <| prs := ∅ |>)) as (-> & -> & -> & -> & -> & -> & -> & -> & -> & -> & ->).
  simpl. rewrite dom_empty_L. split_and!; try done. set_solver.
Qed.

Lemma restore_quiet s r r' b :
  snap_ok P s → restore s r = (r', b) → quiet P r r'.
Proof.
  intros Hs Hr. destruct (restore_fields _ _ _ _ Hr)
    as (Hi & Hre & Ht & Hv & Hst & Hsp & Htk & Hvs & Hm & Hb).
  destruct b; [|by subst]. destruct Hb as (Hc & Hl & Hd).
  intros [[] ???????]. split; try done; [|exists []; by rewrite app_nil_r].
  split; unfold role_ok in *; rewrite ?Hl, ?Hi, ?Hre, ?Ht, ?Hst, ?Hsp, ?Htk; auto.
  - apply restore_ok. lia.
  - rewrite Hd. destruct Hs; [lia|done].
Qed.

Lemma handleSnapshot_quiet m r :
  good_msg P m → quiet P r (handleSnapshot m r).
Proof.
  intros Hm. unfold handleSnapshot. destruct (restore _ _) as [r1 ok] eqn:E.
  etrans; [eapply restore_quiet; [apply Hm|exact E]|].
  case_match; apply quiet_send; simpl; try done; try (by left);
    try (by intros _ [?|[?|?]]); by intros [??].
Qed.

End quiet_handlers.
