(* ===== verification/RaftElection.v ===== *)
(** * RaftElection: what one message does to a node's vote (src/raft/raft.go)

    The abstract specification of a node in an election is the relation
    [etrans P m]: on the message [m] a node may do something quiet, move to a
    later term as a follower, campaign, record a vote it has received (its own,
    or one granted by [m]), win with a quorum, step down, or grant its vote to
    the sender of [m].  [Step_refines] shows that every run of [Step] is a
    sequence of such transitions: the handlers implement the specification. *)

From S2P Require Import Prelude Raftpb.
From S2P Require Import RaftLog.
From S2P Require Import Raft RaftInv.

Definition maxInt64 : Z := 2 ^ 63 - 1.

Section election.
Context `{MapRange} (P : gset Z).
Implicit Types r : raft.

(** ** The specification *)
Inductive etrans (m : Message) : raft → raft → Prop :=
| et_quiet r r' : quiet_eq P r r' → etrans m r r'
| et_term r t l : Term r < t → etrans m r (becomeFollower t l r)
| et_down r l :
    state r = StateCandidate → etrans m r (becomeFollower (Term r) l r)
| et_campaign r r' :
    Term r < maxInt64 → becomeCandidate r = Ok r' → etrans m r r'
| et_poll r v b :
    state r = StateCandidate →
    (b = true → v = id r ∨
       is_grant m ∧ Message_From m = v ∧ Message_Term m = Term r) →
    etrans m r (poll v b r).1
| et_win r :
    state r = StateCandidate → q r ≤ granted (votes r) →
    etrans m r (enterLeader r)
| et_grant r :
    state r = StateFollower → 1 ≤ Term r → Message_Type m = msgVote →
    Vote r = None_ ∨ Vote r = Message_From m →
    etrans m r (send (voteResp m false)
                  (r <| elapsed := 0 |> <| Vote := Message_From m |>)).

(** ** The specification keeps the invariant *)
Lemma reset_dom t r : dom (prs (reset t r)) = dom (prs r).
Proof.
  simpl. apply set_eq. intros i. rewrite !elem_of_dom, map_lookup_imap.
  destruct (prs r !! i); simpl; split; intros []; eauto; done.
Qed.

Lemma becomeFollower_ok t l r : node_ok P r → 0 ≤ t → node_ok P (becomeFollower t l r).
Proof.
  intros [] Ht. split; try done.
  unfold becomeFollower. simpl. rewrite <-no_prs. apply (reset_dom 0 r).
Qed.

Lemma int64_succ z : 0 ≤ z < maxInt64 → int64 (z + 1) = z + 1.
Proof. intros. apply wrapS_id; unfold inS, maxInt64 in *; lia. Qed.

Lemma becomeCandidate_ok r r' :
  node_ok P r → Term r < maxInt64 → becomeCandidate r = Ok r' →
  node_ok P r' ∧ Term r' = Term r + 1 ∧ state r' = StateCandidate ∧
  votes r' = ∅ ∧ Vote r' = id r ∧ id r' = id r ∧ msgs r' = msgs r.
Proof.
  unfold becomeCandidate. intros [] Ht Hc. case_match; [done|]. inv_ok. subst r'.
  split; [|split_and!; try done; apply int64_succ; lia].
  split; try done; simpl; rewrite ?int64_succ by lia; try lia.
  rewrite <-no_prs. apply (reset_dom 0 r).
Qed.

Lemma enterLeader_ok r :
  node_ok P r → state r = StateCandidate → node_ok P (enterLeader r).
Proof.
  intros [] Hs. split; try done; simpl.
  - rewrite <-no_prs. apply (reset_dom 0 r).
  - intros _. apply no_pos. congruence.
Qed.

Lemma poll_fields v b r :
  let r' := (poll v b r).1 in
  rlog r' = rlog r ∧ id r' = id r ∧ prs r' = prs r ∧ removed r' = removed r ∧
  Term r' = Term r ∧ Vote r' = Vote r ∧ state r' = state r ∧ step_ r' = step_ r ∧
  tick_ r' = tick_ r ∧ msgs r' = msgs r.
Proof. unfold poll. simpl. case_decide; by split_and!. Qed.

Lemma etrans_ok m r r' : node_ok P r → etrans m r r' → node_ok P r'.
Proof.
  intros Hok He. destruct He as
    [r r' Hq|r t l Ht|r l Hs|r r' Ht Hc|r v b Hs Hb|r Hs Hq|r Hs Ht Hm Hv].
  - apply Hq.
  - apply becomeFollower_ok; [done|]. destruct Hok; lia.
  - apply becomeFollower_ok; [done|]. by destruct Hok.
  - by eapply becomeCandidate_ok.
  - destruct (poll_fields v b r) as (El & Ei & Ep & Er & Et & _ & Es & Est & Etk & _).
    destruct Hok. split; unfold role_ok in *;
      rewrite ?El, ?Ei, ?Ep, ?Er, ?Et, ?Es, ?Est, ?Etk; auto.
  - by apply enterLeader_ok.
  - destruct Hok. by split.
Qed.

Lemma etrans_star_ok m r r' : node_ok P r → rtc (etrans m) r r' → node_ok P r'.
Proof. intros Hok Hr. induction Hr; eauto using etrans_ok. Qed.

(** A quiet run is a run of the specification. *)
Lemma quiet_star m r r' : node_ok P r → quiet P r r' → rtc (etrans m) r r'.
Proof. intros Hok Hq. apply rtc_once, et_quiet. by apply Hq. Qed.

(** ** The handlers implement the specification *)

Lemma becomeLeader_star m r r' :
  node_ok P r → state r = StateCandidate → q r ≤ granted (votes r) →
  becomeLeader r = Ok r' → rtc (etrans m) r r' ∧ state r' = StateLeader.
Proof.
  intros Hok Hs Hq Hb. unfold becomeLeader in Hb. case_decide; [done|]. inv_ok.
  pose proof (enterLeader_ok r Hok Hs) as Hok1.
  assert (quiet P (enterLeader r) r') as Hquiet.
  { etrans; [|eapply appendEntry_quiet, Hb]. revert Hb1.
    apply foldM_ind; [apply _..|]. intros r1 e r2 _ Hf.
    repeat case_match; inv_ok; subst; [done..|by apply quiet_fields]. }
  split; [|by destruct (Hquiet Hok1)].
  eapply rtc_l; [by apply et_win|]. by apply quiet_star.
Qed.

Lemma poll_star m v b r :
  state r = StateCandidate →
  (b = true → v = id r ∨
     is_grant m ∧ Message_From m = v ∧ Message_Term m = Term r) →
  rtc (etrans m) r (poll v b r).1.
Proof. intros. by apply rtc_once, et_poll. Qed.

Lemma campaign_star m r r' :
  node_ok P r → Term r < maxInt64 → campaign r = Ok r' → rtc (etrans m) r r'.
Proof.
  intros Hok Ht Hc. unfold campaign in Hc. inv_ok.
  destruct (becomeCandidate_ok _ _ Hok Ht Hc0) as (Hok1 & Ht1 & Hs1 & _).
  destruct (poll (id x) true x) as [r2 gr] eqn:Ep. inv_ok.
  assert (r2 = (poll (id x) true x).1) as E2 by (by rewrite Ep).
  assert (gr = granted (votes r2)) as Egr by (unfold poll in Ep; by simplify_eq).
  pose proof (poll_fields (id x) true x) as (_ & _ & _ & _ & _ & _ & Hs2 & _).
  rewrite <-E2 in Hs2.
  assert (rtc (etrans m) r r2) as H02.
  { eapply rtc_l; [by apply et_campaign|]. subst r2. by apply poll_star; auto. }
  assert (rtc (etrans m) r2 x0 ∧ state x0 ≠ StateFollower) as [H23 Hs3].
  { case_match; to_prop; inv_ok; [|subst; split; [done|congruence]].
    edestruct (becomeLeader_star m r2 x0) as [? ->];
      [exact (etrans_star_ok _ _ _ Hok H02)|congruence|lia|done|]. by split. }
  assert (node_ok P x0) as Hok3.
  { exact (etrans_star_ok _ _ _ (etrans_star_ok _ _ _ Hok H02) H23). }
  etrans; [exact H02|]. etrans; [exact H23|]. apply quiet_star; [done|].
  intros _. clear -Hc Hok3 Hs3. revert Hok3 Hs3 Hc.
  generalize (range (prs x0)). intros l. revert x0.
  induction l as [|i l IH]; simpl; intros x0 Hok Hs Hc; inv_ok.
  { subst. by apply quiet_refl. }
  assert (quiet P x0 x) as Hq.
  { case_match; inv_ok; subst; [done|].
    apply quiet_send; simpl; [done|by left| |by intros [??]].
    intros [] _. auto. }
  pose proof (Hq Hok) as [? _ _ _ Hs' _ _].
  eapply (quiet_trans P _ x); [done| |done]. intros _. apply IH; congruence.
Qed.

Lemma stepLeader_star m r r' :
  node_ok P r → good_msg P m → state r = StateLeader →
  stepLeader m r = Ok r' → rtc (etrans m) r r'.
Proof.
  intros Hok Hm Hs Hl. apply quiet_star; [done|].
  assert (1 ≤ Term r) as Ht by (apply (no_pos _ _ Hok); congruence).
  assert (∀ e r1 r2 r3, quiet P r r1 → appendEntry e r1 = Ok r2 →
    bcastAppend r2 = Ok r3 → quiet P r r3) as Happ.
  { intros e r1 r2 r3 H1 H2 H3. etrans; [exact H1|]. 
    apply (appendEntry_quiet P) in H2. etrans; [exact H2|].
    apply (bcastAppend_quiet P); [|done]. intros _.
    destruct (H1 Hok) as [Hok1 _ ? _ _ _ _]. destruct (H2 Hok1). lia. }
  unfold stepLeader in Hl.
  destruct (_ =? msgBeat); [by eapply bcastHeartbeat_quiet|].
  destruct (_ =? msgProp).
  { destruct (Message_Entries m) as [|e [|??]]; [done| |done].
    destruct (_ =? EntryConfChange); [|inv_ok; by eapply Happ].
    destruct (pendingConf r); inv_ok; [by subst|].
    eapply Happ; [|done|done]. by apply quiet_fields. }
  destruct (_ =? msgAppResp).
  { inv_ok.
    assert (∀ pr, quiet P r (r <| prs := <[Message_From m := pr]> (prs r) |>)) as Hp.
    { intros pr. apply quiet_prs, dom_insert_lookup_L. eauto. }
    destruct (Message_Denied m).
    - etrans; [apply Hp|]. eapply sendAppend_quiet; [|done]. done.
    - inv_ok. destruct x0 as [r1 b].
      apply (maybeCommit_quiet P) in Hl1.
      etrans; [apply Hp|]. etrans; [exact Hl1|].
      destruct b; inv_ok; [|by subst].
      eapply bcastAppend_quiet; [|done]. intros [].
      destruct (Hp (update (Message_Index m) x) Hok) as [Hok1 _ ? _ _ _ _].
      destruct (Hl1 Hok1). lia. }
  destruct (_ =? msgVote); inv_ok; subst; [|done].
  apply quiet_send; simpl; [done|by left|done|by intros [??]].
Qed.

Lemma stepCandidate_star m r r' :
  node_ok P r → good_msg P m → state r = StateCandidate →
  Message_Term m = 0 ∨ Message_Term m = Term r →
  stepCandidate m r = Ok r' → rtc (etrans m) r r'.
Proof.
  intros Hok Hm Hs Ht Hc. unfold stepCandidate in Hc.
  destruct (_ =? msgProp); [done|].
  assert (∀ l, node_ok P (becomeFollower (Term r) l r)) as Hdown.
  { intros l. apply becomeFollower_ok; [done|]. by destruct Hok. }
  destruct (_ =? msgApp).
  { eapply rtc_l; [by apply (et_down _ _ (Message_From m))|].
    apply quiet_star; [done|]. by eapply handleAppendEntries_quiet. }
  destruct (_ =? msgSnap) eqn:E; to_prop.
  { assert (Message_Term m = Term r) as Et.
    { pose proof (gm_pos _ _ Hm). intuition lia. }
    rewrite Et in Hc. inv_ok. subst r'. eapply rtc_l; [by apply (et_down _ _ (Message_From m))|].
    apply quiet_star; [done|]. by apply handleSnapshot_quiet. }
  destruct (_ =? msgVote).
  { inv_ok. subst. apply quiet_star; [done|]. apply quiet_send; simpl;
      [done|by left| |by intros [??]]. intros [] _. apply no_pos. congruence. }
  destruct (_ =? msgVoteResp) eqn:E'; to_prop; inv_ok; [|by subst].
  destruct (poll _ _ r) as [r1 gr] eqn:Ep.
  assert (r1 = (poll (Message_From m) (negb (Message_Denied m)) r).1) as E1
    by (by rewrite Ep).
  assert (gr = granted (votes r1)) as Egr by (unfold poll in Ep; by simplify_eq).
  pose proof (poll_fields (Message_From m) (negb (Message_Denied m)) r)
    as (_ & _ & _ & _ & Ht1 & _ & Hs1 & _). rewrite <-E1 in Hs1, Ht1.
  assert (rtc (etrans m) r r1) as H01.
  { subst r1. apply poll_star; [done|]. intros Hd%negb_true_iff. right.
    split_and!; [done|done|]. pose proof (gm_pos _ _ Hm). intuition lia. }
  pose proof (etrans_star_ok _ _ _ Hok H01) as Hok1.
  etrans; [exact H01|]. destruct (q r1 =? gr) eqn:Eq; to_prop.
  - inv_ok. edestruct (becomeLeader_star m r1 x) as [H12 Hs2];
      [done|congruence|lia|done|].
    pose proof (etrans_star_ok _ _ _ Hok1 H12) as Hok2.
    etrans; [exact H12|]. apply quiet_star; [done|].
    eapply bcastAppend_quiet; [|done]. intros []. apply no_pos. congruence.
  - destruct (_ =? _); inv_ok; subst r'; [|done].
    apply rtc_once. apply et_down. congruence.
Qed.

Lemma stepFollower_star m r r' :
  node_ok P r → good_msg P m → state r = StateFollower →
  Message_Term m = 0 ∨ Message_Term m = Term r →
  stepFollower m r = Ok r' → rtc (etrans m) r r'.
Proof.
  intros Hok Hm Hs Ht Hf. unfold stepFollower in Hf.
  destruct (_ =? msgProp) eqn:Ep; to_prop.
  { destruct (_ =? None_); [done|]. inv_ok. subst. apply quiet_star; [done|].
    assert (Message_Type m ≠ msgVoteResp) by (rewrite Ep; done).
    apply quiet_send; simpl; [by rewrite Ep|intros _; apply Hm| |by intros [??]].
    rewrite Ep. by intros _ [?|[?|?]]. }
  destruct (_ =? msgApp).
  { apply quiet_star; [done|]. etrans; [|by eapply handleAppendEntries_quiet].
    by apply quiet_fields. }
  destruct (_ =? msgSnap).
  { inv_ok. subst. apply quiet_star; [done|].
    etrans; [|by apply handleSnapshot_quiet]. by apply quiet_fields. }
  destruct (_ =? msgVote) eqn:Ev; to_prop; inv_ok; [|by subst].
  assert (1 ≤ Term r) as Hpos.
  { pose proof (gm_pos _ _ Hm). intuition lia. }
  destruct x; subst r'.
  - apply rtc_once, et_grant; try done.
    destruct (_ || _) eqn:E; [|done]. to_prop. destruct E; to_prop; auto.
  - apply quiet_star; [done|]. apply quiet_send; simpl; [done|by left|done|by intros [??]].
Qed.

Lemma callStep_star m r r' :
  node_ok P r → good_msg P m → Message_Term m = 0 ∨ Message_Term m = Term r →
  callStep m r = Ok r' → rtc (etrans m) r r'.
Proof.
  intros Hok Hm Ht Hc. pose proof (no_role _ _ Hok) as Hr.
  unfold role_ok in Hr. unfold callStep in Hc.
  destruct (state r) eqn:Hs; destruct Hr as [Hr _]; rewrite Hr in Hc.
  - by eapply stepFollower_star.
  - by eapply stepCandidate_star.
  - by eapply stepLeader_star.
Qed.

Lemma saveCommit_quiet r : quiet P r (saveCommit r).
Proof. by apply quiet_fields. Qed.

Lemma Step_star m r r' :
  node_ok P r → good_msg P m → Term r < maxInt64 → Step m r = Ok r' →
  rtc (etrans m) r r'.
Proof.
  intros Hok Hm Ht HS. unfold Step in HS.
  rewrite (no_removed _ _ Hok), lookup_empty in HS. simpl in HS.
  rewrite (proj2 (Z.eqb_neq _ _) (gm_type _ _ Hm)) in HS. inv_ok.
  assert (rtc (etrans m) r x) as H01.
  { destruct (_ =? msgHup); inv_ok; subst; [by apply campaign_star|done]. }
  pose proof (etrans_star_ok _ _ _ Hok H01) as Hok1.
  etrans; [exact H01|].
  assert (∀ r1 r2, rtc (etrans m) x r1 → Message_Term m = 0 ∨ Message_Term m = Term r1 →
    callStep m r1 = Ok r2 → rtc (etrans m) x (saveCommit r2)) as Hcall.
  { intros r1 r2 H1 Htm Hc. pose proof (etrans_star_ok _ _ _ Hok1 H1) as Hok2.
    apply callStep_star in Hc; [|done..].
    pose proof (etrans_star_ok _ _ _ Hok2 Hc) as Hok3.
    etrans; [exact H1|]. etrans; [exact Hc|].
    apply quiet_star; [done|apply saveCommit_quiet]. }
  destruct (Message_Term m =? 0) eqn:E0; to_prop; inv_ok.
  { subst. eapply Hcall; [done|by left|done]. }
  destruct (_ >? _) eqn:E1; to_prop; inv_ok.
  { subst. eapply Hcall; [by apply rtc_once, et_term|by right|done]. }
  destruct (_ <? _) eqn:E2; to_prop; inv_ok; subst.
  - apply quiet_star; [done|apply saveCommit_quiet].
  - eapply Hcall; [done|right; lia|done].
Qed.

Lemma tick_star r r' :
  node_ok P r → Term r < maxInt64 → tick r = Ok r' →
  ∃ m, good_msg P m ∧ ¬ is_grant m ∧ rtc (etrans m) r r'.
Proof.
  intros Hok Ht Hk.
  assert (∀ ty, ty = msgHup ∨ ty = msgBeat → good_msg P (zeroMessage
    <| Message_From := id r |> <| Message_Type := ty |>)) as Hgood.
  { intros ty [->| ->]; split; simpl; try done; try (by left); by intros [?|[?|?]]. }
  assert (∀ ty e r1, ty = msgHup ∨ ty = msgBeat →
    Step (zeroMessage <| Message_From := id r |> <| Message_Type := ty |>)
      (r <| elapsed := e |> <| elapsed := 0 |>) = Ok r1 →
    ∃ m, good_msg P m ∧ ¬ is_grant m ∧ rtc (etrans m) r r1) as Hstep.
  { intros ty e r1 Hty HS.
    eexists. split_and!; [by apply Hgood| |etrans; [|eapply Step_star, HS]].
    - intros [? _]. simpl in *. by destruct Hty; subst.
    - apply quiet_star; [done|]. by apply quiet_fields.
    - destruct Hok; by split.
    - by apply Hgood.
    - done. }
  assert (∀ e, ∃ m, good_msg P m ∧ ¬ is_grant m ∧
    rtc (etrans m) r (r <| elapsed := e |>)) as Hq.
  { intros e. exists (zeroMessage <| Message_From := id r |> <| Message_Type := msgHup |>).
    split_and!; [by apply Hgood; left|by intros [??]|].
    apply quiet_star; [done|]. by apply quiet_fields. }
  unfold tick, tickElection, tickHeartbeat in Hk.
  repeat case_match; inv_ok; subst; eauto.
Qed.

Lemma compact_quiet d r r' : compact d r = Ok r' → quiet P r r'.
Proof.
  unfold compact. intros Hc. inv_ok. subst. apply quiet_log. intros [].
  assert (log_ok (snap d (applied (rlog r)) (term (rlog r) (applied (rlog r)))
    (nodes r) (rlog r))) as Hok.
  { destruct no_log. by split. }
  split; [by eapply compact_Ok|].
  unfold RaftLog.compact in Hc0. case_match; [done|]. inv_ok. subst x. right. simpl.
  unfold nodes. rewrite <-no_prs, (range_perm (prs r)). symmetry.
  apply leibniz_equiv, dom_alt.
Qed.
End election.
