(* ===== verification/RaftNode.v ===== *)
(** * RaftNode: the goroutine around a node's state machine (src/raft/node.go)

    [run] is a loop over a select statement.  [node] holds its local variables,
    [loopTop] the statements before the select, [enabled] which channel
    operations can proceed, and [selectCase] the body of each case, so that
    [iterate] is one turn of the loop.  The methods of the Node interface send
    on the channels of the loop: they are the [event]s of the last section. *)

From S2P Require Import Prelude Raftpb.
From S2P Require Import RaftLog.
From S2P Require Import Raft RaftInv RaftElection.

(** ** Ready *)
Record SoftState := mkSoftState { Lead : Z; RaftState : StateType; ShouldStop : bool }.

Definition softState (r : raft) : SoftState :=
  mkSoftState (lead r) (state r) (shouldStop r).

Definition SoftState_equal (a b : SoftState) : bool :=
  (Lead a =? Lead b) && bool_decide (RaftState a = RaftState b) &&
  eqb (ShouldStop a) (ShouldStop b).

(** The embedded pb.HardState of a raft struct. *)
Definition hardState (r : raft) : HardState :=
  mkHardState (Term r) (Vote r) (Commit r) [].

Definition isHardStateEqual (a b : HardState) : bool :=
  (HardState_Term a =? HardState_Term b) && (HardState_Vote a =? HardState_Vote b) &&
  (HardState_Commit a =? HardState_Commit b).

Definition emptyState : HardState := zeroHardState.
Definition IsEmptyHardState (st : HardState) : bool := isHardStateEqual st emptyState.
Definition IsEmptySnap (sp : Snapshot) : bool := Snapshot_Index sp =? 0.

Record Ready := mkReady {
  rd_SoftState : option SoftState;
  rd_HardState : HardState;
  rd_Entries : list Entry;
  rd_Snapshot : Snapshot;
  rd_CommittedEntries : list Entry;
  rd_Messages : list Message;
}.

Definition containsUpdates (rd : Ready) : bool :=
  match rd_SoftState rd with Some _ => true | None => false end ||
  negb (IsEmptyHardState (rd_HardState rd)) || negb (IsEmptySnap (rd_Snapshot rd)) ||
  (0 <? len (rd_Entries rd)) || (0 <? len (rd_CommittedEntries rd)) ||
  (0 <? len (rd_Messages rd)).

Definition newReady (r : raft) (prevSoftSt : SoftState) (prevHardSt : HardState)
    (prevSnapi : Z) : Ready :=
  mkReady
    (if negb (SoftState_equal (softState r) prevSoftSt)
     then Some (softState r) else None)
    (if negb (isHardStateEqual (hardState r) prevHardSt)
     then hardState r else zeroHardState)
    (unstableEnts (rlog r))
    (if negb (prevSnapi =? Snapshot_Index (snapshot (rlog r)))
     then snapshot (rlog r) else zeroSnapshot)
    (nextEnts (rlog r))
    (msgs r).

(** ** The loop *)
Record node := mkNode {
  n_raft : raft;
  n_propc : bool;   (** the local variable propc is not nil *)
  n_lead : Z;
  n_prevSoftSt : SoftState;
  n_prevHardSt : HardState;
  n_prevSnapi : Z;
}.

#[export] Instance set_n_raft : Setter n_raft := λ f x,
  mkNode (f (n_raft x)) (n_propc x) (n_lead x) (n_prevSoftSt x) (n_prevHardSt x)
    (n_prevSnapi x).

(** The variables before the first iteration of [run(r)]. *)
Definition startRun (r : raft) : node :=
  mkNode r false None_ (softState r) (hardState r) (Snapshot_Index (snapshot (rlog r))).

Definition ready (n : node) : Ready :=
  newReady (n_raft n) (n_prevSoftSt n) (n_prevHardSt n) (n_prevSnapi n).

(** The statements between [for] and [select]. *)
Definition loopTop (n : node) : node :=
  match rd_SoftState (ready n) with
  | Some s =>
      if negb (n_lead n =? Lead s)
      then mkNode (n_raft n) (hasLeader (n_raft n)) (Lead s) (n_prevSoftSt n)
             (n_prevHardSt n) (n_prevSnapi n)
      else n
  | None => n
  end.

Inductive event :=
| EvProp (m : Message)
| EvRecv (m : Message)
| EvCompact (d : list Z)
| EvConf (cc : ConfChange)
| EvTick
| EvReady.

(** A nil channel blocks for ever; the other channels are ready when their
    sender is. *)
Definition enabled (n : node) (ev : event) : bool :=
  match ev with
  | EvProp _ => n_propc n
  | EvReady => containsUpdates (ready n)
  | _ => true
  end.

(** The body of [case readyc <- rd]. *)
Definition acceptReady (n : node) : node :=
  let rd := ready n in
  let r := n_raft n in
  mkNode (r <| rlog := resetUnstable (resetNextEnts (rlog r)) |> <| msgs := [] |>)
    (n_propc n) (n_lead n)
    (match rd_SoftState rd with Some s => s | None => n_prevSoftSt n end)
    (if negb (IsEmptyHardState (rd_HardState rd))
     then rd_HardState rd else n_prevHardSt n)
    (if negb (IsEmptySnap (rd_Snapshot rd))
     then Snapshot_Index (rd_Snapshot rd) else n_prevSnapi n).

Section loop.
Context `{MapRange}.

Definition selectCase (ev : event) (n : node) : outcome node :=
  let r := n_raft n in
  match ev with
  | EvProp m => r' ← Step (m <| Message_From := id r |>) r; Ok (n <| n_raft := r' |>)
  | EvRecv m => r' ← Step m r; Ok (n <| n_raft := r' |>)
  | EvCompact d => r' ← compact d r; Ok (n <| n_raft := r' |>)
  | EvConf cc =>
      if ConfChange_Type cc =? ConfChangeAddNode
      then Ok (n <| n_raft := addNode (ConfChange_NodeID cc) r |>)
      else if ConfChange_Type cc =? ConfChangeRemoveNode
      then Ok (n <| n_raft := removeNode (ConfChange_NodeID cc) r |>)
      else Panic "unexpected conf type"
  | EvTick => r' ← tick r; Ok (n <| n_raft := r' |>)
  | EvReady => Ok (acceptReady n)
  end.

(** One turn of the loop: [None] when the event's channel blocks. *)
Definition iterate (ev : event) (n : node) : option (outcome node) :=
  let n := loopTop n in
  if enabled n ev then Some (selectCase ev n) else None.
End loop.

(** ** The Node interface *)

(** [n.step]: the channel a message goes to. *)
Definition stepEvent (m : Message) : event :=
  if Message_Type m =? msgProp then EvProp m else EvRecv m.

Definition Campaign : event :=
  stepEvent (zeroMessage <| Message_Type := msgHup |>).

Definition Propose (data : list Z) : event :=
  stepEvent (zeroMessage <| Message_Type := msgProp |>
    <| Message_Entries := [zeroEntry <| Entry_Data := data |>] |>).

(** [n.Step]: messages from the network; local messages are dropped. *)
Definition NodeStep (m : Message) : option event :=
  if (Message_Type m =? msgHup) || (Message_Type m =? msgBeat) then None
  else Some (stepEvent m).

(** [data] is the marshalled configuration change. *)
Definition ProposeConfChange (data : list Z) : option event :=
  NodeStep (zeroMessage <| Message_Type := msgProp |>
    <| Message_Entries := [zeroEntry <| Entry_Type := EntryConfChange |>
                                     <| Entry_Data := data |>] |>).

Definition StartNode (i : Z) (peers : list Z) (election heartbeat : Z)
  : outcome node :=
  r ← newRaft i peers election heartbeat; Ok (startRun r).

Definition RestartNode (i : Z) (peers : list Z) (election heartbeat : Z)
    (snap : option Snapshot) (st : HardState) (es : list Entry) : outcome node :=
  r ← newRaft i peers election heartbeat;
  let r := match snap with Some s => (restore s r).1 | None => r end in
  Ok (startRun (loadEnts es (loadState st r))).
