(* ===== verification/RaftCluster.v ===== *)
(** * RaftCluster: a cluster of nodes and the safety of its elections

    A cluster runs the loop of node.go on every member, over a network that may
    drop, duplicate, delay and reorder messages: a message once handed over in a
    Ready stays in [net] and can be delivered any number of times.  The theorem
    [election_safety] says that no two members are ever leaders of the same
    term.  It holds for a fixed membership and members that do not restart.

    The proof is over the specification of RaftElection: [winv] is the invariant
    of the members' states [W], all the messages [M] ever queued and the leaders
    [E] seen so far. *)

From S2P Require Import Prelude Raftpb.
From S2P Require Import RaftLog.
From S2P Require Import Raft RaftInv RaftElection RaftNode.

(** ** Quorums *)
Definition quorum (P Q : gset Z) : Prop :=
  Q ⊆ P ∧ Z.of_nat (size P) / 2 + 1 ≤ Z.of_nat (size Q).

Lemma quorum_intersect P Q1 Q2 :
  quorum P Q1 → quorum P Q2 → ∃ v, v ∈ Q1 ∧ v ∈ Q2.
Proof.
  intros [Hs1 Hq1] [Hs2 Hq2].
  destruct (decide (Q1 ∩ Q2 = ∅)) as [He|Hne].
  - assert (size (Q1 ∪ Q2) = size Q1 + size Q2)%nat as Hu.
    { apply size_union. set_solver. }
    assert (size (Q1 ∪ Q2) ≤ size P)%nat.
    { apply subseteq_size. set_solver. }
    exfalso. pose proof (Z.div_mod (Z.of_nat (size P)) 2).
    pose proof (Z.mod_pos_bound (Z.of_nat (size P)) 2). lia.
  - apply set_choose_L in Hne as [v Hv]. exists v. set_solver.
Qed.

Section cluster.
Context `{MapRange} (P : gset Z).
Implicit Types (W : gmap Z raft) (M new : list Message) (E : list (Z * Z)).

(** [v] supports the candidacy of [i] in term [t]. *)
Definition supports M (v i t : Z) : Prop :=
  v = i ∨ ∃ m, m ∈ M ∧ is_grant m ∧ Message_From m = v ∧
               Message_To m = i ∧ Message_Term m = t.

Definition elected_by M (i t : Z) : Prop :=
  (∀ m, m ∈ M → is_grant m → Message_From m = i → Message_Term m ≠ t) ∧
  ∃ Q, quorum P Q ∧ ∀ v, v ∈ Q → supports M v i t.

Record winv W M E : Prop := {
  wi_dom : dom W = P;
  wi_node : ∀ i r, W !! i = Some r → node_ok P r ∧ id r = i;
  wi_msg : ∀ m, m ∈ M → good_msg P m ∧
    ∃ r, W !! Message_From m = Some r ∧ Message_Term m ≤ Term r;
  wi_grant : ∀ m r, m ∈ M → is_grant m → W !! Message_From m = Some r →
    Message_Term m = Term r →
    state r = StateFollower ∧ Vote r = Message_To m ∧ Message_To m ≠ None_;
  wi_uniq : ∀ m m', m ∈ M → m' ∈ M → is_grant m → is_grant m' →
    Message_From m = Message_From m' → Message_Term m = Message_Term m' →
    Message_To m = Message_To m';
  wi_vote : ∀ i r v, W !! i = Some r → state r = StateCandidate →
    votes r !! v = Some true → supports M v i (Term r);
  wi_lead : ∀ i r, W !! i = Some r → state r = StateLeader →
    elected_by M i (Term r);
  wi_elected : ∀ t i, (t, i) ∈ E → ∃ r, W !! i = Some r ∧ t ≤ Term r ∧
    elected_by M i t ∧ (Term r = t → state r = StateLeader);
}.

(** ** Election safety of the invariant *)
Lemma elected_unique W M E t i j :
  winv W M E → elected_by M i t → elected_by M j t → i = j.
Proof.
  intros HW [Hni (Q1 & HQ1 & Hs1)] [Hnj (Q2 & HQ2 & Hs2)].
  destruct (quorum_intersect _ _ _ HQ1 HQ2) as (v & Hv1 & Hv2).
  destruct (Hs1 v Hv1) as [->|(m1 & ? & ? & Hf1 & Ht1 & Hm1)].
  - destruct (Hs2 i Hv2) as [->|(m2 & ? & ? & Hf2 & Ht2 & Hm2)]; [done|].
    by destruct (Hni m2).
  - destruct (Hs2 v Hv2) as [->|(m2 & ? & ? & Hf2 & Ht2 & Hm2)].
    + by destruct (Hnj m1).
    + rewrite <-Ht1, <-Ht2. apply (wi_uniq _ _ _ HW); congruence.
Qed.

(** ** Preservation *)
Lemma supports_app M new v i t : supports M v i t → supports (M ++ new) v i t.
Proof.
  intros [->|(m & ? & Hm)]; [by left|right]. exists m. split; [|done]. set_solver.
Qed.

Lemma elected_by_app M new i t :
  elected_by M i t →
  (∀ m, m ∈ new → is_grant m → Message_From m = i → Message_Term m ≠ t) →
  elected_by (M ++ new) i t.
Proof.
  intros [Hn (Q & HQ & Hs)] Hnew. split.
  - intros m [?|?]%elem_of_app; auto.
  - exists Q. split; [done|]. intros v Hv. by apply supports_app, Hs.
Qed.

(** A member moves without granting a vote. *)
Lemma winv_nogrant W M E i r r' new :
  winv W M E → W !! i = Some r → node_ok P r' → id r' = i → Term r ≤ Term r' →
  Forall (λ m, good_msg P m ∧ Message_From m = i ∧ Message_Term m = Term r' ∧
               ¬ is_grant m) new →
  (Term r' = Term r → state r = StateFollower →
     state r' = StateFollower ∧ Vote r' = Vote r) →
  (Term r' = Term r → state r = StateLeader → state r' = StateLeader) →
  (state r' = StateCandidate → ∀ v, votes r' !! v = Some true →
     supports M v i (Term r')) →
  (state r' = StateLeader → elected_by M i (Term r')) →
  winv (<[i := r']> W) (M ++ new) E.
Proof.
  intros HW Hi Hok Hid Hle Hnew Hfol Hstay Hcand Hlead.
  rewrite Forall_forall in Hnew.
  assert (∀ m, m ∈ M ++ new → is_grant m → m ∈ M) as Hold.
  { intros m [?|Hm]%elem_of_app Hg; [done|]. by apply Hnew in Hm as (_ & _ & _ & []). }
  assert (∀ j t, elected_by M j t → elected_by (M ++ new) j t) as Hmono.
  { intros j t He. apply elected_by_app; [done|]. intros m Hm Hg.
    by apply Hnew in Hm as (_ & _ & _ & []). }
  split.
  - rewrite dom_insert_lookup_L; [apply HW|]. by eexists.
  - intros j rj [[<- <-]|[? ?]]%lookup_insert_Some; [by split|by apply HW].
  - intros m [Hm|Hm]%elem_of_app.
    + destruct (wi_msg _ _ _ HW m Hm) as [? (rm & Hrm & ?)]. split; [done|].
      destruct (decide (Message_From m = i)) as [Ef|].
      * rewrite Ef in *. exists r'. rewrite lookup_insert_eq. simplify_eq. split; [done|lia].
      * exists rm. by rewrite lookup_insert_ne.
    + apply Hnew in Hm as (? & -> & ? & _). split; [done|]. exists r'.
      rewrite lookup_insert_eq. split; [done|lia].
  - intros m rm Hm Hg Hrm Ht. pose proof (Hold m Hm Hg) as Hm'.
    apply lookup_insert_Some in Hrm as [[Hf <-]|[? Hrm]]; [|by eapply (wi_grant _ _ _ HW)].
    destruct (wi_msg _ _ _ HW m Hm') as [_ (rm & Hrm & ?)].
    rewrite <-Hf in Hrm. simplify_eq.
    destruct (wi_grant _ _ _ HW m r) as (Hs & Hv & ?); [done|done|congruence|lia|].
    destruct Hfol as [? Hv']; [lia|done|]. split_and!; congruence.
  - intros m m' Hm Hm' Hg Hg'. apply (wi_uniq _ _ _ HW); auto.
  - intros j rj v [[<- <-]|[? ?]]%lookup_insert_Some Hs Hv; apply supports_app;
      [by apply Hcand|by eapply (wi_vote _ _ _ HW)].
  - intros j rj [[<- <-]|[? ?]]%lookup_insert_Some Hs; apply Hmono;
      [by apply Hlead|by eapply (wi_lead _ _ _ HW)].
  - intros t j Hj. destruct (wi_elected _ _ _ HW t j Hj) as (rj & Hrj & ? & ? & Hst).
    destruct (decide (i = j)) as [<-|].
    + exists r'. rewrite lookup_insert_eq. simplify_eq. split_and!; [done|lia|auto|].
      intros Ht. assert (Term r' = Term r) by lia. apply Hstay; [done|]. apply Hst. lia.
    + exists rj. rewrite lookup_insert_ne by done. auto.
Qed.

(** A follower grants its vote. *)
Lemma winv_grant W M E i r r' g :
  winv W M E → W !! i = Some r → node_ok P r' → id r' = i →
  Term r' = Term r → state r = StateFollower → state r' = StateFollower →
  good_msg P g → is_grant g → Message_From g = i → Message_Term g = Term r →
  Vote r' = Message_To g → Message_To g ≠ None_ →
  Vote r = None_ ∨ Vote r = Message_To g →
  winv (<[i := r']> W) (M ++ [g]) E.
Proof.
  intros HW Hi Hok Hid Ht Hs Hs' Hgood Hg Hgf Hgt Hv' Hne Hv.
  assert (∀ m, m ∈ M → is_grant m → Message_From m = i → Message_Term m = Term r →
    Message_To m = Message_To g) as Hsame.
  { intros m Hm Hgm Hf Htm.
    destruct (wi_grant _ _ _ HW m r) as (_ & ? & ?); [done|done|congruence|done|].
    destruct Hv; congruence. }
  assert (∀ j t, elected_by M j t → (j = i → t ≠ Term r) →
    elected_by (M ++ [g]) j t) as Hmono.
  { intros j t He Hjt. apply elected_by_app; [done|].
    intros m ->%list_elem_of_singleton _ Hf. rewrite Hgt. intros <-. by apply Hjt; congruence. }
  split.
  - rewrite dom_insert_lookup_L; [apply HW|]. by eexists.
  - intros j rj [[<- <-]|[? ?]]%lookup_insert_Some; [by split|by apply HW].
  - intros m [Hm| ->%list_elem_of_singleton]%elem_of_app.
    + destruct (wi_msg _ _ _ HW m Hm) as [? (rm & Hrm & ?)]. split; [done|].
      destruct (decide (Message_From m = i)) as [Ef|].
      * rewrite Ef in *. exists r'. rewrite lookup_insert_eq. simplify_eq. split; [done|lia].
      * exists rm. by rewrite lookup_insert_ne.
    + split; [done|]. exists r'. rewrite Hgf, lookup_insert_eq. split; [done|lia].
  - intros m rm [Hm| ->%list_elem_of_singleton]%elem_of_app Hgm Hrm Htm.
    + apply lookup_insert_Some in Hrm as [[Hf <-]|[? Hrm]]; [|by eapply (wi_grant _ _ _ HW)].
      rewrite (Hsame m) by congruence. done.
    + rewrite Hgf, lookup_insert_eq in Hrm. simplify_eq. done.
  - intros m m' [Hm| ->%list_elem_of_singleton]%elem_of_app
      [Hm'| ->%list_elem_of_singleton]%elem_of_app Hgm Hgm' Hf Htm.
    + by apply (wi_uniq _ _ _ HW).
    + apply Hsame; congruence.
    + symmetry. apply Hsame; congruence.
    + done.
  - intros j rj v [[<- <-]|[? ?]]%lookup_insert_Some Hsj Hvj; [congruence|].
    apply supports_app. by eapply (wi_vote _ _ _ HW).
  - intros j rj [[<- <-]|[? ?]]%lookup_insert_Some Hsj; [congruence|].
    apply Hmono; [by eapply (wi_lead _ _ _ HW)|congruence].
  - intros t j Hj. destruct (wi_elected _ _ _ HW t j Hj) as (rj & Hrj & ? & ? & Hst).
    assert (j = i → t ≠ Term r) as Hjt.
    { intros -> ->. simplify_eq. rewrite Hst in Hs; done. }
    destruct (decide (i = j)) as [<-|].
    + exists r'. rewrite lookup_insert_eq. simplify_eq. split_and!; [done|lia|auto|].
      intros <-. by destruct Hjt.
    + exists rj. rewrite lookup_insert_ne by done. auto.
Qed.

(** The voters a candidate has counted form a quorum. *)
Lemma granted_quorum W M E i r :
  winv W M E → W !! i = Some r → state r = StateCandidate →
  q r ≤ granted (votes r) → elected_by M i (Term r).
Proof.
  intros HW Hi Hs Hq. destruct (wi_node _ _ _ HW i r Hi) as [Hok Hid]. split.
  { intros m Hm Hg Hf Ht.
    destruct (wi_grant _ _ _ HW m r) as (? & _); [done|done|congruence|done|congruence]. }
  set (V := filter (λ kv, kv.2 = true) (votes r)).
  assert (∀ v, v ∈ dom V → supports M v i (Term r)) as Hsup.
  { intros v [b Hb]%elem_of_dom. apply map_lookup_filter_Some in Hb as [Hb Ht].
    simpl in Ht. subst b. by eapply (wi_vote _ _ _ HW). }
  exists (dom V). split; [split|done].
  - intros v Hv. destruct (Hsup v Hv) as [->|(m & Hm & _ & <- & _)].
    + destruct (no_id _ _ Hok) as [? _]. congruence.
    + destruct (wi_msg _ _ _ HW m Hm) as [_ (rm & Hrm & _)].
      rewrite <-(wi_dom _ _ _ HW). apply elem_of_dom. eauto.
  - rewrite size_dom. unfold q in Hq. rewrite <-size_dom, (no_prs _ _ Hok) in Hq.
    exact Hq.
Qed.

Lemma etrans_winv W M E i r r' m :
  winv W M E → W !! i = Some r → good_msg P m →
  (is_grant m → m ∈ M ∧ Message_To m = i) → etrans P m r r' →
  ∃ new, msgs r' = msgs r ++ new ∧ winv (<[i := r']> W) (M ++ new) E.
Proof.
  intros HW Hi Hgood Hgr He. destruct (wi_node _ _ _ HW i r Hi) as [Hok Hid].
  pose proof (etrans_ok P m r r' Hok He) as Hok'.
  assert (∀ t l, Term r ≤ t → (t = Term r → state r = StateCandidate) →
    node_ok P (becomeFollower t l r) →
    ∃ new, msgs (becomeFollower t l r) = msgs r ++ new ∧
           winv (<[i := becomeFollower t l r]> W) (M ++ new) E) as Hbf.
  { intros t l Ht Hst Hokf. exists []. rewrite app_nil_r. split; [done|].
    eapply winv_nogrant; [done|done|done|done|done|by constructor|..]; simpl; try done;
      intros E1 E2; rewrite Hst in E2; done. }
  destruct He as
    [r r' Hq|r t l Ht|r l Hs|r r' Ht Hc|r v b Hs Hb|r Hs Hq|r Hs Ht Hm Hv].
  - destruct Hq as [_ Hi' Ht' Hv' Hs' Hvs' (new & Hm' & Hnew)].
    exists new. split; [done|].
    eapply winv_nogrant; [done|done|done|congruence|lia|..].
    + eapply Forall_impl; [exact Hnew|]. intros x []. split_and!; congruence.
    + intros _ ?. split; congruence.
    + congruence.
    + intros ? u Hu. rewrite Ht'. apply (wi_vote _ _ _ HW i r); congruence.
    + intros ?. rewrite Ht'. apply (wi_lead _ _ _ HW i r); congruence.
  - apply Hbf; [lia|lia|done].
  - by apply Hbf.
  - destruct (becomeCandidate_ok P r r' Hok Ht Hc) as (_ & Ht' & Hs' & Hvs' & _ & ? & Hms).
    exists []. rewrite Hms, app_nil_r. split; [done|].
    eapply winv_nogrant; [done|done|done|congruence|lia|by constructor|..];
      try lia; try congruence.
    intros _ u. by rewrite Hvs', lookup_empty.
  - destruct (poll_fields v b r) as (_ & Hi' & _ & _ & Ht' & Hv' & Hs' & _ & _ & Hms).
    exists []. rewrite Hms, app_nil_r. split; [done|].
    eapply winv_nogrant; [done|done|done|congruence|lia|by constructor|..];
      try congruence.
    intros _ u Hu. rewrite Ht'. unfold poll in Hu. simpl in Hu. case_decide as Hd.
    { by eapply (wi_vote _ _ _ HW). }
    simpl in Hu. apply lookup_insert_Some in Hu as [[<- ->]|[? ?]].
    2: by eapply (wi_vote _ _ _ HW).
    destruct Hb as [->|(Hg & Hf & Htm)]; [done|by left; congruence|right].
    destruct (Hgr Hg). eauto 10.
  - exists []. rewrite app_nil_r. split; [done|].
    eapply winv_nogrant; [done|done|done|done|done|by constructor|..]; simpl; try congruence.
    intros _. by eapply granted_quorum.
  - eexists. split; [done|].
    eapply winv_grant; try done; simpl.
    + split; simpl; try done; [by left|lia].
    + by eapply (gm_from _ _ Hgood).
Qed.

Lemma star_winv W M E i r r' m :
  winv W M E → W !! i = Some r → good_msg P m →
  (is_grant m → m ∈ M ∧ Message_To m = i) → rtc (etrans P m) r r' →
  ∃ new, msgs r' = msgs r ++ new ∧ winv (<[i := r']> W) (M ++ new) E.
Proof.
  intros HW Hi Hgood Hgr Hr. revert W M HW Hi Hgr.
  induction Hr as [r|r r1 r2 He Hr IH]; intros W M HW Hi Hgr.
  { exists []. rewrite !app_nil_r, insert_id by done. by split. }
  destruct (etrans_winv W M E i r r1 m) as (n1 & Hm1 & HW1); try done.
  destruct (IH (<[i := r1]> W) (M ++ n1)) as (n2 & Hm2 & HW2); try done.
  { by rewrite lookup_insert_eq. }
  { intros Hg. destruct (Hgr Hg). split; [set_solver|done]. }
  exists (n1 ++ n2). rewrite insert_insert_eq in HW2.
  rewrite Hm2, Hm1, !(assoc_L (++)). done.
Qed.

(** ** Clusters *)
Record cluster := mkCluster {
  members : gmap Z node;
  net : list Message;          (** every message handed to the network *)
  elected : list (Z * Z);      (** (term, id) of every leader seen so far *)
}.

(** The events that can happen at member [i]: a message addressed to it, a
    call of its Node interface, a tick, a compaction, the application taking
    the next Ready. *)
Inductive allowed (c : cluster) (i : Z) : event → Prop :=
| al_net m ev :
    m ∈ net c → Message_To m = i → NodeStep m = Some ev → allowed c i ev
| al_campaign : allowed c i Campaign
| al_propose d : allowed c i (Propose d)
| al_conf d ev : ProposeConfChange d = Some ev → allowed c i ev
| al_tick : allowed c i EvTick
| al_compact d : allowed c i (EvCompact d)
| al_ready : allowed c i EvReady.

Definition sent (ev : event) (n : node) : list Message :=
  match ev with EvReady => rd_Messages (ready n) | _ => [] end.

Definition note (i : Z) (r : raft) (E : list (Z * Z)) : list (Z * Z) :=
  if decide (state r = StateLeader) then (Term r, i) :: E else E.

Inductive cstep : cluster → cluster → Prop :=
| cs_event c i n ev n' :
    members c !! i = Some n → allowed c i ev → Term (n_raft n) < maxInt64 →
    iterate ev n = Some (Ok n') →
    cstep c (mkCluster (<[i := n']> (members c)) (net c ++ sent ev n)
               (note i (n_raft n') (elected c))).

(** A cluster of fresh nodes with the ids of [P]. *)
Definition initial (c : cluster) : Prop :=
  dom (members c) = P ∧ net c = [] ∧ elected c = [] ∧
  ∀ i n, members c !! i = Some n → ∃ peers el hb,
    list_to_set peers = P ∧ StartNode i peers el hb = Ok n.

Definition cinv (c : cluster) : Prop :=
  ∃ M, (∀ m, m ∈ net c → m ∈ M) ∧
       (∀ i n m, members c !! i = Some n → m ∈ msgs (n_raft n) → m ∈ M) ∧
       winv (n_raft <$> members c) M (elected c).

Lemma winv_note W M E i r :
  winv W M E → W !! i = Some r → winv W M (note i r E).
Proof.
  intros HW Hi. unfold note. case_decide as Hs; [|done]. destruct HW. split; try done.
  intros t j [[= -> ->]|?]%elem_of_cons; [|auto]. exists r. split_and!; auto. lia.
Qed.

Lemma loopTop_raft n : n_raft (loopTop n) = n_raft n.
Proof. unfold loopTop. by repeat case_match. Qed.

Lemma loopTop_ready n : ready (loopTop n) = ready n.
Proof. unfold loopTop. by repeat case_match. Qed.

Lemma acceptReady_ok n : node_ok P (n_raft n) → node_ok P (n_raft (acceptReady n)).
Proof.
  intros []. split; simpl; try done; [by apply resetUnstable_ok, resetNextEnts_ok|].
  unfold resetNextEnts. by case_match.
Qed.

(** The message a proposal or a local call feeds to Step is harmless. *)
Lemma good_prop m i :
  good_msg P m → Message_Type m = msgProp →
  good_msg P (m <| Message_From := i |>) ∧ ¬ is_grant (m <| Message_From := i |>).
Proof.
  intros [] Ht. split; [split; simpl; try done|].
  - by rewrite Ht.
  - intros [? _]. simpl in *. by rewrite Ht in *.
Qed.

Lemma step_event_star M i m n n' :
  good_msg P m → (is_grant m → m ∈ M ∧ Message_To m = i) →
  node_ok P (n_raft n) → Term (n_raft n) < maxInt64 →
  selectCase (stepEvent m) n = Ok n' →
  ∃ m', good_msg P m' ∧ (is_grant m' → m' ∈ M ∧ Message_To m' = i) ∧
        rtc (etrans P m') (n_raft n) (n_raft n').
Proof.
  intros Hm Hgr Hok Ht Hs. unfold stepEvent in Hs.
  destruct (_ =? msgProp) eqn:E; to_prop; simpl in Hs; inv_ok; subst n'.
  - destruct (good_prop m (id (n_raft n)) Hm E) as [? ?].
    eexists. split_and!; [done|done|]. by apply Step_star.
  - exists m. split_and!; [done|done|]. by apply Step_star.
Qed.

(** Every turn of the loop but a Ready follows the election specification. *)
Lemma iterate_star c M i n n' ev :
  winv (n_raft <$> members c) M (elected c) → (∀ m, m ∈ net c → m ∈ M) →
  members c !! i = Some n → allowed c i ev → Term (n_raft n) < maxInt64 →
  selectCase ev (loopTop n) = Ok n' → ev ≠ EvReady →
  ∃ m, good_msg P m ∧ (is_grant m → m ∈ M ∧ Message_To m = i) ∧
       rtc (etrans P m) (n_raft n) (n_raft n').
Proof.
  intros HW Hnet Hn Hal Ht Hs Hev.
  assert (node_ok P (n_raft n)) as Hok.
  { eapply (wi_node _ _ _ HW i). by rewrite lookup_fmap, Hn. }
  assert (∀ m, good_msg P m → (is_grant m → m ∈ M ∧ Message_To m = i) →
    ev = stepEvent m → ∃ m', good_msg P m' ∧
      (is_grant m' → m' ∈ M ∧ Message_To m' = i) ∧
      rtc (etrans P m') (n_raft n) (n_raft n')) as Hstep.
  { intros m Hm Hg ->. rewrite <-(loopTop_raft n).
    eapply step_event_star; rewrite ?loopTop_raft; done. }
  assert (∀ t es, (t = msgHup ∨ t = msgProp) → good_msg P (zeroMessage
    <| Message_Type := t |> <| Message_Entries := es |>)) as Hlocal.
  { intros t es [->| ->]; split; simpl; try done; try (by left); by intros [?|[?|?]]. }
  assert (good_msg P zeroMessage ∧ ¬ is_grant zeroMessage) as [Hz Hzg].
  { split; [|by intros [??]]. split; simpl; try done; [by left|by intros [?|[?|?]]]. }
  destruct Hal as [m ev Hm Hto Hns| |d|d ev Hc| |d|]; [..|done].
  - unfold NodeStep in Hns. case_match; [done|]. simplify_eq.
    apply (Hstep m); [by apply (wi_msg _ _ _ HW), Hnet|by auto|done].
  - eapply Hstep; [| |done]; [by apply (Hlocal msgHup []); left|by intros [??]].
  - eapply Hstep; [| |done]; [by apply Hlocal; right|by intros [??]].
  - unfold ProposeConfChange, NodeStep in Hc. simpl in Hc. simplify_eq.
    eapply Hstep; [| |done]; [by apply Hlocal; right|by intros [??]].
  - simpl in Hs. inv_ok. subst n'. rewrite loopTop_raft in Hs0. simpl.
    destruct (tick_star P _ _ Hok Ht Hs0) as (m & ? & ? & ?).
    exists m. done.
  - simpl in Hs. inv_ok. subst n'. rewrite loopTop_raft in Hs0. simpl.
    exists zeroMessage. split_and!; [done|done|].
    apply quiet_star; [done|]. by eapply compact_quiet.
Qed.

Lemma cstep_cinv c c' : cinv c → cstep c c' → cinv c'.
Proof.
  intros (M & Hnet & Hmsgs & HW) Hs. destruct Hs as [c i n ev n' Hn Hal Ht Hit].
  unfold iterate in Hit. case_match; [|done]. injection Hit as Hit.
  assert ((n_raft <$> members c) !! i = Some (n_raft n)) as Hi.
  { by rewrite lookup_fmap, Hn. }
  destruct (wi_node _ _ _ HW i _ Hi) as [Hok Hid].
  assert (∃ new, winv (<[i := n_raft n']> (n_raft <$> members c)) (M ++ new) (elected c) ∧
    (∀ m, m ∈ msgs (n_raft n') → m ∈ M ++ new) ∧
    (∀ m, m ∈ sent ev n → m ∈ M)) as (new & HW' & Hms & Hsent).
  { assert (ev = EvReady ∨ ev ≠ EvReady) as [->|Hne] by (destruct ev; auto).
    - simpl in Hit. injection Hit as <-. exists []. split_and!.
      + pose proof (acceptReady_ok (loopTop n)) as Hok'. rewrite loopTop_raft in Hok'.
        eapply winv_nogrant; [done|done|by apply Hok'|..]; simpl;
          rewrite ?loopTop_raft; auto; [lia|..].
        * intros ? v ?. by eapply (wi_vote _ _ _ HW).
        * intros ?. by eapply (wi_lead _ _ _ HW).
      + simpl. by intros m ?%not_elem_of_nil.
      + simpl. intros m Hm. by eapply Hmsgs.
    - destruct (iterate_star c M i n n' ev) as (m & Hm & Hg & Hr); try done.
      destruct (star_winv _ M (elected c) i _ _ m HW Hi Hm Hg Hr) as (new & Hnew & HW').
      exists new. split_and!; [done| |by destruct ev; try done; intros ? ?%not_elem_of_nil].
      rewrite Hnew. intros x [?|?]%elem_of_app; apply elem_of_app; [left|by right].
      by eapply Hmsgs. }
  exists (M ++ new). split_and!; simpl.
  - intros m [?|?]%elem_of_app; apply elem_of_app; left; auto.
  - intros j nj m [[<- <-]|[? ?]]%lookup_insert_Some Hm; [by apply Hms|].
    apply elem_of_app. left. by eapply Hmsgs.
  - rewrite fmap_insert. apply winv_note; [done|]. by rewrite lookup_insert_eq.
Qed.

Lemma newRaft_ok i peers el hb r :
  list_to_set peers = P → i ∈ P → newRaft i peers el hb = Ok r →
  node_ok P r ∧ id r = i ∧ state r = StateFollower ∧ msgs r = [].
Proof.
  unfold newRaft. intros HP Hi Hr. destruct (_ =? None_) eqn:E; [done|]. to_prop. inv_ok.
  subst r. split_and!; try done.
  apply becomeFollower_ok; [|done]. split; try done; simpl; [|by left].
  assert (∀ (m : gmap Z progress) l,
    dom (foldl (λ m p, <[p := mkProgress 0 0]> m) m l) = dom m ∪ list_to_set l) as Hd.
  { intros m l. revert m. induction l as [|p l IH]; intros m; simpl; [set_solver|].
    rewrite IH, dom_insert_L. set_solver. }
  rewrite Hd, dom_empty_L, HP. set_solver.
Qed.

Lemma initial_cinv c : initial c → cinv c.
Proof.
  intros (Hd & Hn & He & Hst).
  assert (∀ i n, members c !! i = Some n → node_ok P (n_raft n) ∧ id (n_raft n) = i ∧
    state (n_raft n) = StateFollower ∧ msgs (n_raft n) = []) as Hnode.
  { intros i n Hi. destruct (Hst i n Hi) as (peers & el & hb & HP & Hs).
    unfold StartNode in Hs. inv_ok. subst n. simpl.
    eapply newRaft_ok; [done| |done]. rewrite <-Hd. apply elem_of_dom. eauto. }
  assert (∀ i r, (n_raft <$> members c) !! i = Some r →
    node_ok P r ∧ id r = i ∧ state r = StateFollower) as Hr.
  { intros i r. rewrite lookup_fmap. intros (n & Hi & ->)%fmap_Some.
    destruct (Hnode i n Hi) as (? & ? & ? & ?). done. }
  exists []. split_and!.
  - by rewrite Hn.
  - intros i n m Hi. destruct (Hnode i n Hi) as (_ & _ & _ & ->). done.
  - rewrite He. split; try (by intros ? ?%not_elem_of_nil);
      try (by intros ? ? ?%not_elem_of_nil).
    + by rewrite dom_fmap_L.
    + intros i r Hi. destruct (Hr i r Hi) as (? & ? & ?). done.
    + intros i r v Hi Hs. destruct (Hr i r Hi) as (_ & _ & ?). congruence.
    + intros i r Hi Hs. destruct (Hr i r Hi) as (_ & _ & ?). congruence.
Qed.

(** One event at member [i], as a function. *)
Definition cmove (i : Z) (ev : event) (c : cluster) : option cluster :=
  n ← members c !! i;
  match iterate ev n with
  | Some (Ok n') =>
      if Term (n_raft n) <? maxInt64
      then Some (mkCluster (<[i := n']> (members c)) (net c ++ sent ev n)
                   (note i (n_raft n') (elected c)))
      else None
  | _ => None
  end.

Lemma cmove_cstep i ev c c' : allowed c i ev → cmove i ev c = Some c' → cstep c c'.
Proof.
  intros Hal Hc. unfold cmove in Hc. apply bind_Some in Hc as (n & Hn & Hc).
  destruct (iterate ev n) as [[n'|]|] eqn:Ei; try done.
  destruct (_ <? _) eqn:Et; [|done]. to_prop. simplify_eq.
  by eapply cs_event.
Qed.

Lemma reachable_cinv c0 c : initial c0 → rtc cstep c0 c → cinv c.
Proof.
  intros H0 Hr. apply initial_cinv in H0. induction Hr; eauto using cstep_cinv.
Qed.
End cluster.

(** C1: election safety.  In a cluster of [P] members that all start fresh, run
    the loop of node.go and exchange messages over a network that may lose,
    duplicate and reorder them, at most one member is ever elected in a term,
    and two members that are leaders of the same term at the same time are the
    same member. *)
Theorem election_safety `{MapRange} P c0 c :
  initial P c0 → rtc cstep c0 c →
  (∀ t i j, (t, i) ∈ elected c → (t, j) ∈ elected c → i = j) ∧
  (∀ i j n n', members c !! i = Some n → members c !! j = Some n' →
     state (n_raft n) = StateLeader → state (n_raft n') = StateLeader →
     Term (n_raft n) = Term (n_raft n') → i = j).
Proof.
  intros H0 Hr. destruct (reachable_cinv P c0 c H0 Hr) as (M & _ & _ & HW). split.
  - intros t i j Hi Hj. eapply (elected_unique P _ _ _ t); [done|..].
    + by destruct (wi_elected _ _ _ _ HW t i Hi) as (_ & _ & _ & ? & _).
    + by destruct (wi_elected _ _ _ _ HW t j Hj) as (_ & _ & _ & ? & _).
  - intros i j n n' Hi Hj Hs Hs' Ht. eapply (elected_unique P _ _ _ (Term (n_raft n))); [done|..].
    + eapply (wi_lead _ _ _ _ HW); [by rewrite lookup_fmap, Hi|done].
    + rewrite Ht. eapply (wi_lead _ _ _ _ HW); [by rewrite lookup_fmap, Hj|done].
Qed.

(** ** Witness: three members elect member 1 *)
Definition start3 (i : Z) : node :=
  match StartNode i [1; 2; 3] 10 1 with
  | Ok n => n
  | Panic _ => startRun (mkRaft 0 0 0 0 newLog ∅ StateFollower ∅ [] 0 false ∅ 0 0 0
                           TickElection StepFollower)
  end.
Definition three : cluster :=
  mkCluster (list_to_map ((λ i, (i, start3 i)) <$> [1; 2; 3])) [] [].

Lemma three_initial : initial {[1; 2; 3]} three.
Proof.
  split_and!; [vm_compute; reflexivity|done|done|].
  intros i n Hi. exists [1; 2; 3], 10, 1. split; [vm_compute; reflexivity|].
  unfold three in Hi; simpl in Hi.
  repeat (apply lookup_insert_Some in Hi as [[<- <-]|[_ Hi]]; [by vm_compute|]).
  by rewrite lookup_empty in Hi.
Qed.

Definition move (i : Z) (ev : event) (c : cluster) : cluster :=
  default c (@cmove keyOrder i ev c).
Definition msgAt (k : nat) (c : cluster) : Message := default zeroMessage (net c !! k).

Definition three1 : cluster := move 1 EvReady (move 1 Campaign three).
Definition three2 : cluster :=
  move 2 EvReady (move 2 (stepEvent (msgAt 1 three1)) three1).
Definition three3 : cluster := move 1 (stepEvent (msgAt 2 three2)) three2.

Lemma three_run : rtc (@cstep keyOrder) three three3.
Proof.
  apply (rtc_l _ _ (move 1 Campaign three)).
  { apply (@cmove_cstep keyOrder 1 Campaign); [constructor|by vm_compute]. }
  apply (rtc_l _ _ three1).
  { apply (@cmove_cstep keyOrder 1 EvReady); [constructor|by vm_compute]. }
  apply (rtc_l _ _ (move 2 (stepEvent (msgAt 1 three1)) three1)).
  { apply (@cmove_cstep keyOrder 2 (stepEvent (msgAt 1 three1))); [|by vm_compute].
    apply (al_net _ _ (msgAt 1 three1)); [|by vm_compute..].
    apply list_elem_of_lookup. exists 1%nat. by vm_compute. }
  apply (rtc_l _ _ three2).
  { apply (@cmove_cstep keyOrder 2 EvReady); [constructor|by vm_compute]. }
  apply rtc_once.
  { apply (@cmove_cstep keyOrder 1 (stepEvent (msgAt 2 three2))); [|by vm_compute].
    apply (al_net _ _ (msgAt 2 three2)); [|by vm_compute..].
    apply list_elem_of_lookup. exists 2%nat. by vm_compute. }
Qed.

Lemma election_safety_witness :
  elected three3 = [(1, 1)] ∧ ∀ j, (1, j) ∈ elected three3 → 1 = j.
Proof.
  split; [vm_compute; reflexivity|]. intros j Hj.
  apply (proj1 (@election_safety keyOrder {[1; 2; 3]} three three3
                  three_initial three_run) 1 1 j); [|exact Hj].
  assert (elected three3 = [(1, 1)]) as -> by (vm_compute; reflexivity). left.
Defined.
