(* ===== verification/RaftProps.v ===== *)
(** * RaftProps: properties of one node's state machine (src/raft/raft.go)

    What a handler guarantees to the node that runs it: the invariant and the
    election specification, the rule by which a leader commits, the answer to a
    vote request, and the shape of the append messages a leader sends. *)

From stdpp Require Import sorting.
From S2P Require Import Prelude Raftpb.
From S2P Require Import RaftLog.
From S2P Require Import Raft RaftInv RaftElection RaftNode RaftCluster.

(** ** The commit rule *)

#[export] Instance Zge_total : Total Z.ge.
Proof. intros x y. lia. Qed.
#[export] Instance Zge_trans : Transitive Z.ge.
Proof. intros x y z. lia. Qed.

(** In a descending list the [k]-th element is at least [n] exactly when at
    least [k + 1] elements are. *)
Lemma sorted_desc_count (l : list Z) (k : nat) (x n : Z) :
  StronglySorted Z.ge l → l !! k = Some x →
  n ≤ x ↔ (k < length (filter (λ y, (n ≤ y)%Z) l))%nat.
Proof.
  intros Hs. revert k. induction Hs as [|y l Hs IH Hall]; intros k Hk; [done|].
  rewrite Forall_forall in Hall.
  destruct k as [|k]; simpl in Hk.
  - simplify_eq. rewrite filter_cons. case_decide; simpl; [lia|].
    split; [lia|]. intros Hlen.
    destruct (filter (λ z, n ≤ z) l) as [|z zs] eqn:Ef; simpl in Hlen; [lia|].
    assert (z ∈ filter (λ z, n ≤ z) l) as Hz by (rewrite Ef; left).
    apply list_elem_of_filter in Hz as [? Hz%Hall]. lia.
  - rewrite (IH k Hk), filter_cons. case_decide; simpl; [lia|].
    split; [|lia]. intros Hlen.
    destruct (filter (λ z, n ≤ z) l) as [|z zs] eqn:Ef; simpl in Hlen; [lia|].
    assert (z ∈ filter (λ z, n ≤ z) l) as Hz by (rewrite Ef; left).
    apply list_elem_of_filter in Hz as [? Hz%Hall]. lia.
Qed.

Lemma length_filter_fmap {A} (f : A → Z) (n : Z) (l : list A) :
  length (filter (λ y, n ≤ y) (f <$> l)) = length (filter (λ x, n ≤ f x) l).
Proof.
  induction l as [|x l IH]; [done|]. rewrite fmap_cons, !filter_cons.
  case_decide; simpl; by rewrite ?IH.
Qed.

(** The members known to hold the log up to [n]. *)
Definition holders (r : raft) (n : Z) : gset Z :=
  dom (filter (λ kv : Z * progress, n ≤ match_ kv.2) (prs r)).

Section commit.
Context `{MapRange}.

Lemma sortedMatches_perm r :
  sortedMatches r ≡ₚ (match_ ∘ snd) <$> map_to_list (prs r).
Proof.
  unfold sortedMatches, sortDesc. rewrite merge_sort_Permutation, (range_perm (prs r)).
  assert (∀ l, (∀ kv, kv ∈ l → prs r !! kv.1 = Some kv.2) →
    omap (λ i, match_ <$> prs r !! i) l.*1 = (match_ ∘ snd) <$> l) as Hl.
  { induction l as [|[i p] l IH]; intros Hin; [done|].
    pose proof (Hin (i, p)) as Hi. simpl in Hi. simpl.
    rewrite Hi by left. simpl. f_equal. apply IH.
    intros kv Hkv. apply Hin. by right. }
  rewrite Hl; [done|]. intros [i p] Hin. by apply elem_of_map_to_list in Hin.
Qed.

Lemma sortedMatches_sorted r : StronglySorted Z.ge (sortedMatches r).
Proof. apply Sorted_StronglySorted; [apply _|]. apply Sorted_merge_sort, _. Qed.

Lemma holders_count r n :
  size (holders r n) = length (filter (λ y, n ≤ y) (sortedMatches r)).
Proof.
  unfold holders. rewrite size_dom, (sortedMatches_perm r).
  rewrite length_filter_fmap. rewrite map_filter_alt, <-length_map_to_list.
  rewrite map_to_list_to_map; [done|].
  eapply sublist_NoDup; [apply (NoDup_fst_map_to_list (prs r))|].
  apply fmap_sublist, sublist_filter.
Qed.

Lemma mci_exists r : prs r ≠ ∅ → is_Some (sortedMatches r !! Z.to_nat (q r - 1)).
Proof.
  intros Hne. apply lookup_lt_is_Some.
  rewrite sortedMatches_perm, length_fmap, length_map_to_list. unfold q.
  assert (size (prs r) ≠ 0%nat) by (by apply map_size_non_empty_iff in Hne).
  assert (Z.of_nat (size (prs r)) / 2 < Z.of_nat (size (prs r))) by
    (apply Z.div_lt; lia).
  assert (0 ≤ Z.of_nat (size (prs r)) / 2) by (apply Z.div_pos; lia).
  lia.
Qed.

(** The element of rank [q] is the largest index a quorum holds. *)
Lemma mci_quorum r mci n :
  sortedMatches r !! Z.to_nat (q r - 1) = Some mci →
  n ≤ mci ↔ quorum (dom (prs r)) (holders r n).
Proof.
  intros Hm. rewrite (sorted_desc_count _ _ _ _ (sortedMatches_sorted r) Hm).
  rewrite <-holders_count. unfold quorum, q. rewrite size_dom.
  assert (holders r n ⊆ dom (prs r)) by (apply dom_filter_subseteq).
  pose proof (Z.div_mod (Z.of_nat (size (prs r))) 2).
  pose proof (Z.mod_pos_bound (Z.of_nat (size (prs r))) 2).
  split; [intros; split; [done|lia]|intros [_ ?]; lia].
Qed.
End commit.

Section node_properties.
Context `{MapRange}.

(** C26. The commit rule of a leader: [maybeCommit] never fails on a node with
    members; it changes nothing but the commit index, and never moves it back.
    It reports progress exactly when it moved, and then the new index is the
    largest one held by a quorum of the members, and its entry is of the current
    term; it stays when that largest index is not ahead, or its entry is of
    another term. *)
Theorem maybeCommit_rule r :
  prs r ≠ ∅ →
  ∃ c b, maybeCommit r = Ok (r <| rlog := (rlog r) <| committed := c |> |>, b) ∧
    committed (rlog r) ≤ c ∧
    (b = true →
       committed (rlog r) < c ∧ term (rlog r) c = Term r ∧
       ∀ n, quorum (dom (prs r)) (holders r n) ↔ n ≤ c) ∧
    (b = false →
       c = committed (rlog r) ∧
       ∀ n, (∀ k, quorum (dom (prs r)) (holders r k) ↔ k ≤ n) →
         n ≤ c ∨ term (rlog r) n ≠ Term r).
Proof.
  intros [mci Hm]%mci_exists. unfold maybeCommit, RaftLog.maybeCommit. rewrite Hm.
  assert (∀ n, quorum (dom (prs r)) (holders r n) ↔ n ≤ mci) as Hq.
  { intros n. by rewrite (mci_quorum r mci n Hm). }
  destruct (_ && _) eqn:E; to_prop; simpl.
  - exists mci, true. split_and!; [done|lia|done|done].
  - exists (committed (rlog r)), false.
    split_and!; [by destruct r as [????[]]|lia|done|intros _; split; [done|]].
    intros n Hn. assert (n = mci) as ->.
    { apply Z.le_antisymm; [apply Hq, Hn; lia|apply Hn, Hq; lia]. }
    destruct (decide (mci ≤ committed (rlog r))); [by left|right].
    intros Ht. destruct E; to_prop; lia.
Qed.

(** C11. [Step] implements the election specification: whatever good message a
    node in order is given, when [Step] returns, the new state is reached by
    transitions of [etrans] -- quiet ones, a later term, a campaign, a vote
    counted, an election won with a quorum, a step down, one vote granted --
    and the node is in order again. *)
Theorem Step_refines P m r r' :
  node_ok P r → good_msg P m → Term r < maxInt64 → Step m r = Ok r' →
  rtc (etrans P m) r r' ∧ node_ok P r'.
Proof.
  intros Hok Hm Ht HS. assert (rtc (etrans P m) r r') as Hr by by eapply Step_star.
  split; [done|]. by eapply etrans_star_ok.
Qed.

Lemma etrans_vote P m r r' :
  node_ok P r → etrans P m r r' →
  Term r ≤ Term r' ∧
  (state r = StateFollower → Vote r ≠ None_ → Term r' = Term r →
   state r' = StateFollower ∧ Vote r' = Vote r).
Proof.
  intros Hok He. destruct He as [r r' []|r|r|r r' ? Hc|r v b|r|r];
    try (simpl; split; [lia|]; intros; first [lia|congruence]).
  - split; [lia|]. intros. by rewrite qt_state, qt_vote.
  - destruct (becomeCandidate_ok P r r') as (_ & -> & _); [done..|].
    split; [lia|]. intros; lia.
  - destruct (poll_fields v b r) as (_ & _ & _ & _ & -> & _). split; [lia|]. intros; congruence.
  - simpl. split; [lia|]. intros. split; [done|]. intuition congruence.
Qed.

(** Terms never go back, and a vote is for the whole term: a follower that has
    cast its vote still stands by it, as a follower, after any message that
    leaves it in the same term. *)
Theorem Step_vote_stable P m r r' :
  node_ok P r → good_msg P m → Term r < maxInt64 → Step m r = Ok r' →
  Term r ≤ Term r' ∧
  (state r = StateFollower → Vote r ≠ None_ → Term r' = Term r →
   state r' = StateFollower ∧ Vote r' = Vote r).
Proof.
  intros Hok Hm Ht HS. assert (rtc (etrans P m) r r') as Hr by by eapply Step_star.
  clear Ht HS. induction Hr as [r|r r1 r2 He Hr IH]; [split; [lia|done]|].
  destruct (etrans_vote P m r r1 Hok He) as [Ht1 Hv1].
  destruct IH as [Ht2 Hv2]; [by eapply etrans_ok|].
  split; [lia|]. intros Hs Hv HT.
  destruct Hv1 as [Hs1 Hv1]; [done..|lia|]. rewrite <-Hv1.
  apply Hv2; [done|congruence|lia].
Qed.

(** The candidate's log, whose last entry has index [i] and term [t], is at least
    as up to date as [l]. *)
Definition candidate_up_to_date (l : raftLog) (i t : Z) : Prop :=
  ∃ e, at_ l (lastIndex l) = Some e ∧
    (Entry_Term e < t ∨ Entry_Term e = t ∧ lastIndex l ≤ i).

Lemma isUpToDate_spec l i t :
  log_ok l → ∃ b, isUpToDate l i t = Ok b ∧ (b = true ↔ candidate_up_to_date l i t).
Proof.
  intros Hok. destruct (at_last l) as [e He]; [apply Hok|].
  unfold isUpToDate, candidate_up_to_date. rewrite He. simpl. eexists. split; [done|].
  rewrite orb_true_iff, andb_true_iff, Z.gtb_lt, Z.eqb_eq, Z.geb_le.
  naive_solver lia.
Qed.

(** The exact answer to a vote request.  A node that is asked for its vote in its
    own term or a later one always answers: it moves to that term, keeps its log,
    and sends one reply to the candidate.  The vote is granted exactly when the
    candidate's log is at least as up to date and the term is new to the node, or
    the node is a follower that has not voted for another; a vote granted is
    recorded, a vote denied leaves none for a new term and the old one otherwise. *)
Theorem vote_request_answer P m r :
  node_ok P r → good_msg P m → Message_Type m = msgVote → Term r ≤ Message_Term m →
  ∃ r' denied, Step m r = Ok r' ∧
    Term r' = Message_Term m ∧ rlog r' = rlog r ∧
    msgs r' = msgs r ++ [(voteResp m denied) <| Message_From := id r |>
                                             <| Message_Term := Message_Term m |>] ∧
    (denied = false ↔
       candidate_up_to_date (rlog r) (Message_Index m) (Message_LogTerm m) ∧
       (Term r < Message_Term m ∨
        state r = StateFollower ∧ (Vote r = None_ ∨ Vote r = Message_From m))) ∧
    Vote r' = (if denied then if Term r <? Message_Term m then None_ else Vote r
               else Message_From m).
Proof.
  intros Hok Hm Hty Ht.
  destruct (isUpToDate_spec (rlog r) (Message_Index m) (Message_LogTerm m)) as
    (b & Hb & Hup); [apply Hok|].
  assert (1 ≤ Message_Term m) by (apply (gm_pos _ _ Hm); auto).
  unfold Step. rewrite (no_removed _ _ Hok), lookup_empty, Hty. simpl.
  rewrite (proj2 (Z.eqb_neq _ 0)) by lia.
  destruct (Z.ltb_spec (Term r) (Message_Term m)) as [Hlt|Hge].
  - rewrite (proj2 (Z.gtb_lt _ _) Hlt). unfold callStep, stepFollower. simpl.
    rewrite Hty. simpl. rewrite Hb. simpl.
    destruct b; eexists _, _; (split; [reflexivity|]); simpl; naive_solver.
  - assert (Message_Term m = Term r) as Heq by lia. rewrite Heq.
    rewrite (proj2 (Z.ltb_ge _ _)) by lia.
    rewrite Z.gtb_ltb, (proj2 (Z.ltb_ge _ _)) by lia.
    pose proof (no_role _ _ Hok) as Hr. unfold role_ok in Hr. unfold callStep.
    destruct (state r) eqn:Hs; destruct Hr as [-> _];
      unfold stepFollower, stepCandidate, stepLeader; rewrite Hty; simpl;
      [|eexists _, true; (split; [reflexivity|]); simpl; split_and!; try done;
        split; [done|]; intros [_ [?|[??]]]; [lia|done] ..].
    destruct (_ || _) eqn:Ev; to_prop; [rewrite Hb|]; simpl; [destruct b|];
      eexists _, _; (split; [reflexivity|]); simpl; split_and!; try done; naive_solver lia.
Qed.

(** What a leader sends to bring a member up to date, in every case.  When the
    member's next index follows an index the log still covers, it is one append
    message: the entries of the log from that index to the last one, preceded by
    the index and the term of the entry before them, with the commit index.
    When the log was compacted past it, it is the snapshot instead, and the
    code panics if there is none.  An unknown member is a nil dereference. *)
Theorem sendAppend_message to r :
  log_ok (rlog r) →
  match prs r !! to with
  | None => sendAppend to r = Panic nilDeref
  | Some pr =>
      let prev := next pr - 1 in
      (offset (rlog r) ≤ prev ≤ lastIndex (rlog r) →
       ∃ m, sendAppend to r = Ok (r <| msgs := msgs r ++ [m] |>) ∧
         Message_Type m = msgApp ∧ Message_To m = to ∧ Message_From m = id r ∧
         Message_Term m = Term r ∧ Message_Index m = prev ∧
         Message_Commit m = committed (rlog r) ∧
         (∃ e, at_ (rlog r) prev = Some e ∧ Message_LogTerm m = Entry_Term e) ∧
         ∀ k, Message_Entries m !! k = at_ (rlog r) (next pr + Z.of_nat k)) ∧
      (prev < offset (rlog r) → Snapshot_Term (snapshot (rlog r)) ≠ 0 →
       ∃ m, sendAppend to r = Ok (r <| msgs := msgs r ++ [m] |>) ∧
         Message_Type m = msgSnap ∧ Message_To m = to ∧ Message_From m = id r ∧
         Message_Term m = Term r ∧ Message_Snapshot m = snapshot (rlog r)) ∧
      (prev < offset (rlog r) → Snapshot_Term (snapshot (rlog r)) = 0 →
       sendAppend to r = Panic "need non-empty snapshot")
  end.
Proof.
  intros Hok. unfold sendAppend. destruct (prs r !! to) as [pr|]; [|done]. simpl.
  unfold needSnapshot. split_and!.
  - intros [Hlo Hhi]. rewrite (proj2 (Z.ltb_ge _ _) Hlo). simpl. unfold entries.
    rewrite (proj2 (Z.eqb_neq _ _)) by lia. simpl.
    eexists. split; [reflexivity|]. simpl. split_and!; try done.
    + unfold term. destruct (proj2 (at_is_Some (rlog r) (next pr - 1))) as [e He]; [lia|].
      rewrite He. by exists e.
    + intros k. destruct (decide (Z.of_nat k < lastIndex (rlog r) + 1 - next pr)).
      { apply lookup_slice; lia. }
      rewrite (proj2 (at_None _ _)) by lia. apply lookup_ge_None.
      rewrite length_slice; lia.
  - intros Hlo Ht. rewrite (proj2 (Z.ltb_lt _ _) Hlo), (proj2 (Z.eqb_neq _ _) Ht).
    simpl. eexists. by split.
  - intros Hlo Ht. by rewrite (proj2 (Z.ltb_lt _ _) Hlo), (proj2 (Z.eqb_eq _ _) Ht).
Qed.
End node_properties.

(** ** Witnesses: member 1 of three, before and after its election *)
Definition fresh1 : raft := n_raft (start3 1).
Definition leader1 : raft :=
  default fresh1 (n_raft <$> members three3 !! 1).

Definition askVote : Message :=
  zeroMessage <| Message_Type := msgVote |> <| Message_From := 2 |>
    <| Message_To := 1 |> <| Message_Term := 1 |>.

Lemma fresh1_ok : node_ok {[1; 2; 3]} fresh1.
Proof.
  apply (newRaft_ok {[1; 2; 3]} 1 [1; 2; 3] 10 1 fresh1);
    [set_solver|set_solver|by vm_compute].
Qed.

Lemma askVote_good : good_msg {[1; 2; 3]} askVote.
Proof. split; simpl; try done; by left. Qed.

Definition fresh1' : raft :=
  match @Step keyOrder askVote fresh1 with Ok r => r | Panic _ => fresh1 end.

Lemma maybeCommit_rule_witness :
  ∃ c b, @maybeCommit keyOrder leader1 =
    Ok (leader1 <| rlog := (rlog leader1) <| committed := c |> |>, b) ∧ 0 ≤ c.
Proof.
  destruct (@maybeCommit_rule keyOrder leader1) as (c & b & Hc & Hle & _).
  { intros Hp. apply (f_equal (lookup 1)) in Hp. by vm_compute in Hp. }
  exists c, b. split; [exact Hc|]. exact Hle.
Defined.

Lemma Step_refines_witness : rtc (@etrans {[1; 2; 3]} askVote) fresh1 fresh1'.
Proof.
  apply (@Step_refines keyOrder {[1; 2; 3]} askVote fresh1 fresh1');
    [exact fresh1_ok|exact askVote_good|by vm_compute|by vm_compute].
Defined.

Lemma Step_vote_stable_witness : Term fresh1 ≤ Term fresh1'.
Proof.
  apply (@Step_vote_stable keyOrder {[1; 2; 3]} askVote fresh1 fresh1');
    [exact fresh1_ok|exact askVote_good|by vm_compute|by vm_compute].
Defined.

Lemma vote_request_answer_witness :
  ∃ r' denied, @Step keyOrder askVote fresh1 = Ok r' ∧ Term r' = 1 ∧
    (denied = false → Vote r' = 2).
Proof.
  destruct (@vote_request_answer keyOrder {[1; 2; 3]} askVote fresh1)
    as (r' & d & HS & Ht & _ & _ & _ & Hv);
    [exact fresh1_ok|exact askVote_good|done|by vm_compute|].
  exists r', d. split_and!; [exact HS|exact Ht|by intros ->].
Defined.

Lemma sendAppend_message_witness : sendAppend 4 leader1 = Panic nilDeref.
Proof.
  apply (sendAppend_message 4 leader1). split; by vm_compute.
Defined.
