(* ===== verification/RaftFindings.v ===== *)
(** * RaftFindings: two runs of a cluster that go wrong (src/raft)

    Runs of the cluster of RaftCluster, given as scripts of moves and checked by
    evaluation: a heartbeat's acknowledgement that makes a leader commit an
    entry no other member holds, and a proposal that stops a node because its
    loop missed that the leader was lost. *)

From S2P Require Import Prelude Raftpb.
From S2P Require Import RaftLog.
From S2P Require Import Raft RaftInv RaftElection RaftNode RaftCluster.

(** ** Scripts *)
Inductive action :=
| Hup (i : Z)
| Tick (i : Z)
| Rdy (i : Z)
| Deliver (k : nat).  (** the [k]-th message of the network, at its addressee *)

Definition perform (a : action) (c : cluster) : option cluster :=
  match a with
  | Hup i => @cmove keyOrder i Campaign c
  | Tick i => @cmove keyOrder i EvTick c
  | Rdy i => @cmove keyOrder i EvReady c
  | Deliver k =>
      m ← net c !! k;
      ev ← NodeStep m;
      @cmove keyOrder (Message_To m) ev c
  end.

Fixpoint play (s : list action) (c : cluster) : option cluster :=
  match s with
  | [] => Some c
  | a :: s => c' ← perform a c; play s c'
  end.

Lemma perform_cstep a c c' : perform a c = Some c' → @cstep keyOrder c c'.
Proof.
  destruct a as [i|i|i|k]; simpl; intros Hp;
    try (eapply cmove_cstep; [|exact Hp]; constructor).
  apply bind_Some in Hp as (m & Hm & Hp). apply bind_Some in Hp as (ev & Hev & Hp).
  eapply cmove_cstep; [|exact Hp].
  by apply (al_net c _ m); [eapply list_elem_of_lookup_2|..].
Qed.

Lemma play_run s c c' : play s c = Some c' → rtc (@cstep keyOrder) c c'.
Proof.
  revert c. induction s as [|a s IH]; intros c; simpl; [by intros [= ->]|].
  intros (c1 & H1 & Hs)%bind_Some. eapply rtc_l; [by eapply perform_cstep|by apply IH].
Qed.

(** ** A heartbeat acknowledged by a log that differs

    Member 1 is elected in term 1 and appends an entry nobody receives; member 2
    is elected in term 2 by member 3 and appends its own at the same index.  Its
    heartbeat carries no entries and index 0, so member 1 accepts it and replies
    with its last index, 1; member 2 takes this for an acknowledgement of its own
    entry and commits it.  Member 1 is then elected in term 3 by member 3, to
    which it replicates its log and commits. *)
Definition heartbeatScript : list action :=
  [Hup 1; Rdy 1; Deliver 1; Rdy 2; Deliver 2;
   Hup 2; Rdy 2; Deliver 3; Rdy 3; Deliver 5;
   Tick 2; Tick 2; Rdy 2; Deliver 9; Rdy 1; Deliver 12;
   Hup 1; Rdy 1; Deliver 13; Rdy 3; Deliver 15;
   Rdy 1; Deliver 16; Rdy 3; Deliver 18; Rdy 1; Deliver 19; Rdy 3; Deliver 20].

(** C35. Committed entries can differ: there is a run of three members, without a
    restart, after which two members have committed different entries at the
    same index. *)
Theorem heartbeat_ack_breaks_commit :
  ∃ c0 c i n1 n2 e1 e2,
    @initial {[1; 2; 3]} c0 ∧ rtc (@cstep keyOrder) c0 c ∧
    members c !! 1 = Some n1 ∧ members c !! 2 = Some n2 ∧
    i ≤ committed (rlog (n_raft n1)) ∧ i ≤ committed (rlog (n_raft n2)) ∧
    at_ (rlog (n_raft n1)) i = Some e1 ∧ at_ (rlog (n_raft n2)) i = Some e2 ∧
    Entry_Term e1 ≠ Entry_Term e2.
Proof.
  destruct (play heartbeatScript three) as [c|] eqn:Hc; [|by vm_compute in Hc].
  exists three, c, 1. pose proof (play_run _ _ _ Hc) as Hrun.
  vm_compute in Hc. injection Hc as <-.
  do 4 eexists. split_and!; [exact three_initial|exact Hrun|done..|].
  by vm_compute.
Qed.

(** ** A proposal after a leader came and went

    Member 3 hears of leader 1, and the loop opens the proposal channel; before a
    Ready is taken, a vote request of the next term makes it forget the leader.
    The soft state is then the one of the last Ready, the loop does not look at
    the leader again, and the channel stays open. *)
Definition proposalScript : list action :=
  [Hup 1; Rdy 1; Deliver 1; Rdy 2; Deliver 2; Rdy 1; Deliver 3; Hup 2; Rdy 2; Deliver 5].

(** C40. A proposal can stop a node: there is a run after which a member without a
    leader accepts proposals, and every proposal makes it panic. *)
Theorem proposal_without_leader_panics :
  ∃ c0 c n,
    @initial {[1; 2; 3]} c0 ∧ rtc (@cstep keyOrder) c0 c ∧ members c !! 3 = Some n ∧
    hasLeader (n_raft n) = false ∧
    ∀ d, @iterate keyOrder (Propose d) n = Some (Panic "no leader").
Proof.
  destruct (play proposalScript three) as [c|] eqn:Hc; [|by vm_compute in Hc].
  exists three, c. pose proof (play_run _ _ _ Hc) as Hrun.
  vm_compute in Hc. injection Hc as <-.
  eexists. split_and!; [exact three_initial|exact Hrun|done..].
Qed.
