(* ===== verification/Wire.v ===== *)
(** * Wire: the building blocks of the generated protobuf code

    The .pb.go files of raft/raftpb, wal/walpb, snap/snappb and
    etcdserver/etcdserverpb are generated from one template.  This file models
    the template -- the varint loops, the size and encoding functions, the field
    cases of an Unmarshal loop and its default case -- together with the Skip
    function of third_party/.../proto/skip_gogo.go the default case calls; the
    files for the four packages instantiate it.

    A byte slice is a list of integers.  Decoding runs over an index into the
    slice, as the code does, with int of 64 bits: an index may overflow, a slice
    expression may panic, and the loop may not end.  [run] is the result of such
    code; [Loop] is reported when the fuel is used up. *)

From S2P Require Import Prelude.

(** ** Results *)
Inductive error := ErrUnexpectedEOF | ErrWrongType.

Inductive run (A : Type) : Type :=
| Ret (a : A)
| Crash (why : string)
| Loop.
Arguments Ret {_} _.
Arguments Crash {_} _.
Arguments Loop {_}.

#[export] Instance run_ret : MRet run := fun _ a => Ret a.
#[export] Instance run_bind : MBind run := fun _ _ k c =>
  match c with Ret a => k a | Crash why => Crash why | Loop => Loop end.

Lemma bind_Ret {A B} (c : run A) (f : A → run B) b :
  (x ← c; f x) = Ret b → ∃ a, c = Ret a ∧ f a = Ret b.
Proof. destruct c; [|done..]. eauto. Qed.

(** Split a run [H] that returns into its first step and the rest. *)
Ltac inv_ret H :=
  let x := fresh "x" in let E := fresh "E" in apply bind_Ret in H as (x & E & H).

(** A panic in code that is written with [outcome], inside code with [run]. *)
Definition lift {A} (c : outcome A) : run A :=
  match c with Ok a => Ret a | Panic why => Crash why end.

(** [data[lo:hi]]. *)
Definition subslice (data : list Z) (lo hi : Z) : run (list Z) :=
  if (0 <=? lo) && (lo <=? hi) && (hi <=? len data)
  then Ret (take (Z.to_nat (hi - lo)) (drop (Z.to_nat lo) data))
  else Crash outOfRange.

(** ** Reading a varint

    The loop [acc |= (T(b) & 0x7F) << shift], where [wrap] is the conversion to
    the type [T]: the new accumulator, the index after the bytes read, and
    whether the varint ended before the data did. *)
Fixpoint varintLoop (wrap : Z → Z) (rest : list Z) (shift index acc : Z)
  : Z * Z * bool :=
  match rest with
  | [] => (acc, index, false)
  | b :: rest =>
      let acc := Z.lor acc (wrap (Z.shiftl (Z.land b 0x7F) shift)) in
      if b <? 0x80 then (acc, index + 1, true)
      else varintLoop wrap rest (shift + 7) (index + 1) acc
  end.

Definition readVarint (wrap : Z → Z) (data : list Z) (index acc : Z)
  : run (Z * Z * bool) :=
  if index <? 0 then Crash outOfRange
  else Ret (varintLoop wrap (drop (Z.to_nat index) data) 0 index acc).
Arguments readVarint : simpl never.

(** ** Skipping an unknown field *)

(** The loop of case 0 of Skip: to the end of a varint. *)
Fixpoint skipVarint (rest : list Z) (index : Z) : Z * bool :=
  match rest with
  | [] => (index, false)
  | b :: rest => if b <? 0x80 then (index + 1, true) else skipVarint rest (index + 1)
  end.

(** The loop of case 3 of Skip, [skip] being the recursive call. *)
Fixpoint skipGroup (skip : list Z → run (error + Z)) (fuel : nat) (data : list Z)
    (index : Z) : run (error + Z) :=
  match fuel with
  | O => Loop
  | S fuel =>
      let start := index in
      '(wire, index, ok) ← readVarint uint64 data index 0;
      if negb ok then Ret (inl ErrUnexpectedEOF)
      else if Z.land wire 7 =? 4 then Ret (inr index)
      else
        rest ← subslice data start (len data);
        res ← skip rest;
        match res with
        | inl err => Ret (inl err)
        | inr next => skipGroup skip fuel data (int64 (start + next))
        end
  end.

Fixpoint Skip (fuel : nat) (data : list Z) : run (error + Z) :=
  match fuel with
  | O => Loop
  | S fuel =>
      if len data <=? 0 then Crash "unreachable"
      else
        '(wire, index, ok) ← readVarint uint64 data 0 0;
        if negb ok then Ret (inl ErrUnexpectedEOF)
        else
          let wireType := Z.land wire 7 in
          if wireType =? 0 then
            let '(index, ok) := skipVarint (drop (Z.to_nat index) data) index in
            Ret (if ok : bool then inr index else inl ErrUnexpectedEOF)
          else if wireType =? 1 then Ret (inr (int64 (index + 8)))
          else if wireType =? 2 then
            '(length, index, ok) ← readVarint int64 data index 0;
            Ret (if ok : bool then inr (int64 (index + length))
                 else inl ErrUnexpectedEOF)
          else if wireType =? 3 then skipGroup (Skip fuel) (S fuel) data index
          else if wireType =? 4 then Ret (inr index)
          else if wireType =? 5 then Ret (inr (int64 (index + 4)))
          else Ret (inl ErrWrongType)
  end.

(** ** The size of a varint *)
Fixpoint sovLoop (fuel : nat) (x n : Z) : Z :=
  let n := n + 1 in
  let x := Z.shiftr x 7 in
  match fuel with
  | O => n
  | S fuel => if x =? 0 then n else sovLoop fuel x n
  end.
(** A uint64 is used up after at most ten rounds. *)
Definition sov (x : Z) : Z := sovLoop 9 x 0.

(** ** Unmarshalling a message

    One case of the switch: the message, the index and the error it returns. *)
Definition fieldCase (M : Type) : Type :=
  list Z → Z → Z → M → run (M * Z * option error).

Section fields.
Context {M : Type}.

(** A varint accumulated in a field of the message. *)
Definition varintField (wrap : Z → Z) (proj : M → Z) `{!Setter proj} : fieldCase M :=
  λ data wireType index m,
    if negb (wireType =? 0) then Ret (m, index, Some ErrWrongType)
    else
      '(v, index, ok) ← readVarint wrap data index (proj m);
      Ret (m <| proj := v |>, index,
           if ok : bool then None else Some ErrUnexpectedEOF).

(** A varint accumulated in a local variable and then used. *)
Definition localVarint (wrap : Z → Z) (use : Z → M → M) : fieldCase M :=
  λ data wireType index m,
    if negb (wireType =? 0) then Ret (m, index, Some ErrWrongType)
    else
      '(v, index, ok) ← readVarint wrap data index 0;
      Ret (if ok : bool then (use v m, index, None)
           else (m, index, Some ErrUnexpectedEOF)).

(** A length-delimited field: [use] is given the bytes.  The length is read as an
    int for bytes and messages, and as a uint64 converted to int for strings: the
    sum with the index wraps around to the same int. *)
Definition bytesField (wrap : Z → Z) (use : list Z → M → run (M * option error))
  : fieldCase M :=
  λ data wireType index m,
    if negb (wireType =? 2) then Ret (m, index, Some ErrWrongType)
    else
      '(byteLen, index, ok) ← readVarint wrap data index 0;
      if negb ok then Ret (m, index, Some ErrUnexpectedEOF)
      else
        let postIndex := int64 (index + byteLen) in
        if postIndex >? len data then Ret (m, index, Some ErrUnexpectedEOF)
        else
          bs ← subslice data index postIndex;
          '(m, err) ← use bs m;
          Ret (m, postIndex, err).

(** The default case: the field is kept in XXX_unrecognized. *)
Definition unknownField (fuel : nat) (keep : list Z → M → M) (wire : Z)
  : fieldCase M :=
  λ data _ index m,
    let index := index - sov wire in
    rest ← subslice data index (len data);
    res ← Skip fuel rest;
    match res with
    | inl err => Ret (m, index, Some err)
    | inr skippy =>
        if int64 (index + skippy) >? len data
        then Ret (m, index, Some ErrUnexpectedEOF)
        else
          bs ← subslice data index (int64 (index + skippy));
          Ret (keep bs m, int64 (index + skippy), None)
    end.

(** The loop of Unmarshal over a table of cases. *)
Fixpoint unmarshalLoop (fields : Z → option (fieldCase M)) (keep : list Z → M → M)
    (skipFuel fuel : nat) (data : list Z) (index : Z) (m : M)
  : run (M * option error) :=
  match fuel with
  | O => Loop
  | S fuel =>
      if index <? len data then
        '(wire, index, ok) ← readVarint uint64 data index 0;
        if negb ok then Ret (m, Some ErrUnexpectedEOF)
        else
          let fieldNum := int32 (Z.shiftr wire 3) in
          let wireType := Z.land wire 7 in
          '(m, index, err) ←
            match fields fieldNum with
            | Some f => f data wireType index m
            | None => unknownField skipFuel keep wire data wireType index m
            end;
          match err with
          | Some e => Ret (m, Some e)
          | None => unmarshalLoop fields keep skipFuel fuel data index m
          end
      else Ret (m, None)
  end.
End fields.

(** ** Marshalling a message

    MarshalTo writes at an index [i] of the buffer [data]. *)
Definition wstate : Type := list Z * Z.

(** [data[i] = v; i++]. *)
Definition put (v : Z) (s : wstate) : outcome wstate :=
  let '(data, i) := s in
  if (0 <=? i) && (i <? len data)
  then Ok (<[Z.to_nat i := uint8 v]> data, i + 1) else Panic outOfRange.

(** [i += copy(data[i:], bs)]. *)
Definition putBytes (bs : list Z) (s : wstate) : outcome wstate :=
  let '(data, i) := s in
  if (0 <=? i) && (i <=? len data)
  then
    let n := Z.min (len data - i) (len bs) in
    Ok (take (Z.to_nat i) data ++ take (Z.to_nat n) bs
          ++ drop (Z.to_nat (i + n)) data, i + n)
  else Panic outOfRange.

(** The encodeVarint functions; ten rounds write a uint64. *)
Fixpoint encodeVarintLoop (fuel : nat) (v : Z) (s : wstate) : outcome wstate :=
  match fuel with
  | O => Panic "fuel"
  | S fuel =>
      if v >=? 0x80 then
        s ← put (Z.lor (Z.land v 0x7F) 0x80) s;
        encodeVarintLoop fuel (Z.shiftr v 7) s
      else put v s
  end.
Definition encodeVarint (v : Z) (s : wstate) : outcome wstate :=
  encodeVarintLoop 10 v s.

Definition writer : Type := wstate → outcome wstate.

(** One statement after the other. *)
Definition andThen (w1 w2 : writer) : writer := λ s, s ← w1 s; w2 s.
Notation "w1 ▷ w2" := (andThen w1 w2) (at level 55, right associativity) : etcd_scope.

(** The cases of the template: the tag of a field and its value. *)
Definition putVarint (tag v : Z) : writer := put tag ▷ encodeVarint (uint64 v).
Definition putLen (tag : Z) (bs : list Z) : writer :=
  put tag ▷ encodeVarint (uint64 (len bs)) ▷ putBytes bs.
Definition putBool (tag : Z) (b : bool) : writer := put tag ▷ put (if b then 1 else 0).

(** [n, err := msg.MarshalTo(data[i:]); i += n]. *)
Definition within (w : writer) : writer := λ s,
  let '(data, i) := s in
  if (0 <=? i) && (i <=? len data) then
    '(sub, n) ← w (drop (Z.to_nat i) data, 0);
    Ok (take (Z.to_nat i) data ++ sub, i + n)
  else Panic outOfRange.

Definition putMsg (tag size : Z) (w : writer) : writer :=
  put tag ▷ encodeVarint (uint64 size) ▷ within w.

(** A loop of writes over a slice. *)
Definition putEach {A} (w : A → writer) (l : list A) : writer := λ s,
  foldM (λ s a, w a s) l s.

(** A byte slice that may be nil: [append(o, bs...)], and the case of a field that
    is written unless it is nil. *)
Definition appendBytes (o : option (list Z)) (bs : list Z) : option (list Z) :=
  match o, bs with
  | None, [] => None
  | _, _ => Some (default [] o ++ bs)
  end.
Definition putOptLen (tag : Z) (o : option (list Z)) : writer :=
  match o with Some bs => putLen tag bs | None => Ok end.
Definition sizeOptLen (o : option (list Z)) : Z :=
  match o with Some bs => 1 + len bs + sov (uint64 (len bs)) | None => 0 end.

(** [Marshal]: a buffer of the computed size, of which MarshalTo's count is
    kept. *)
Definition marshal (size : Z) (marshalTo : writer) : outcome (list Z) :=
  '(data, n) ← marshalTo (replicate (Z.to_nat size) 0, 0);
  if (0 <=? n) && (n <=? len data) then Ok (take (Z.to_nat n) data)
  else Panic outOfRange.

(** ** Integer conversions and bitwise or *)
Lemma testbit_wrapU w z i :
  0 ≤ w → 0 ≤ i → Z.testbit (wrapU w z) i = (i <? w) && Z.testbit z i.
Proof.
  intros. unfold wrapU. destruct (Z.ltb_spec i w); simpl.
  - by rewrite Z.mod_pow2_bits_low.
  - by rewrite Z.mod_pow2_bits_high.
Qed.

Lemma testbit_wrapS w z i :
  0 < w → 0 ≤ i → Z.testbit (wrapS w z) i = Z.testbit z (Z.min i (w - 1)).
Proof.
  intros Hw Hi. unfold wrapS.
  assert (2 ^ w = 2 * 2 ^ (w - 1)) as Hp.
  { rewrite <-Z.pow_succ_r by lia. f_equal. lia. }
  assert (0 < 2 ^ (w - 1)) by (apply Z.pow_pos_nonneg; lia).
  assert (0 ≤ z mod 2 ^ w < 2 ^ w) as Hm by (apply Z.mod_pos_bound; lia).
  assert (∀ j, 0 ≤ j < w → Z.testbit (z mod 2 ^ w) j = Z.testbit z j) as Hlow.
  { intros. apply Z.mod_pow2_bits_low. lia. }
  assert (Z.testbit z (w - 1) = negb (z mod 2 ^ w <? 2 ^ (w - 1))) as Htop.
  { rewrite <-Hlow by lia. rewrite Z.testbit_odd, Z.shiftr_div_pow2 by lia.
    destruct (Z.ltb_spec (z mod 2 ^ w) (2 ^ (w - 1))); simpl.
    - rewrite Z.div_small by lia. done.
    - replace (z mod 2 ^ w / 2 ^ (w - 1)) with 1; [done|].
      apply (Z.div_unique _ _ 1 (z mod 2 ^ w - 2 ^ (w - 1))); lia. }
  destruct (Z.ltb_spec i w) as [Hiw|Hiw].
  - rewrite Z.min_l by lia. rewrite <-Hlow by lia.
    destruct (_ <? _); [done|].
    rewrite !Z.testbit_odd, !Z.shiftr_div_pow2 by lia.
    replace (2 ^ w) with (2 * 2 ^ (w - 1 - i) * 2 ^ i) at 2.
    + rewrite <-Z.add_opp_r, <-Z.mul_opp_l, Z.div_add by lia.
      rewrite Z.odd_add, Z.odd_opp, Z.odd_mul. simpl. by rewrite xorb_false_r.
    + rewrite <-Z.mul_assoc, <-Z.pow_add_r by lia. rewrite Hp. do 2 f_equal. lia.
  - rewrite Z.min_r, Htop by lia.
    assert (2 ^ w ≤ 2 ^ i) by (apply Z.pow_le_mono_r; lia).
    destruct (Z.ltb_spec (z mod 2 ^ w) (2 ^ (w - 1))); simpl;
      rewrite Z.testbit_odd, Z.shiftr_div_pow2 by lia.
    + by rewrite Z.div_small by lia.
    + replace ((z mod 2 ^ w - 2 ^ w) / 2 ^ i) with (-1); [done|].
      apply (Z.div_unique _ _ (-1) (z mod 2 ^ w - 2 ^ w + 2 ^ i)); lia.
Qed.

(** A conversion to an integer type commutes with bitwise or. *)
Class IntConv (wrap : Z → Z) := {
  wrap_lor a b : wrap (Z.lor a b) = Z.lor (wrap a) (wrap b);
  wrap_0 : wrap 0 = 0;
}.

Lemma wrapS_conv w : 0 < w → IntConv (wrapS w).
Proof.
  intros Hw. split.
  - intros a b. apply Z.bits_inj'. intros i Hi.
    by rewrite Z.lor_spec, !testbit_wrapS, Z.lor_spec.
  - apply wrapS_id; [done|]. split; [|apply Z.pow_pos_nonneg; lia].
    apply Z.opp_nonpos_nonneg, Z.pow_nonneg. lia.
Qed.

Lemma wrapU_conv w : 0 ≤ w → IntConv (wrapU w).
Proof.
  intros Hw. split.
  - intros a b. apply Z.bits_inj'. intros i Hi.
    rewrite Z.lor_spec, !testbit_wrapU, Z.lor_spec by lia. by destruct (i <? w).
  - apply Z.mod_0_l. apply Z.pow_nonzero; lia.
Qed.

#[export] Instance int64_conv : IntConv int64.
Proof. by apply wrapS_conv. Qed.
#[export] Instance int32_conv : IntConv int32.
Proof. by apply wrapS_conv. Qed.
#[export] Instance uint64_conv : IntConv uint64.
Proof. by apply wrapU_conv. Qed.
#[export] Instance uint32_conv : IntConv uint32.
Proof. by apply wrapU_conv. Qed.

Lemma lor_disjoint a b s : 0 ≤ s → 0 ≤ a < 2 ^ s → Z.lor a (Z.shiftl b s) = a + b * 2 ^ s.
Proof.
  intros Hs Ha. rewrite <-Z.shiftl_mul_pow2 by lia. symmetry.
  rewrite <-Z.lxor_lor, <-Z.add_nocarry_lxor; [done|..]; apply Z.bits_inj'; intros i Hi;
    rewrite Z.land_spec, Z.bits_0, Z.shiftl_spec by lia;
    (destruct (Z.ltb_spec i s);
      [rewrite (Z.testbit_neg_r b) by lia; apply andb_false_r|]);
    rewrite <-(Z.mod_small a (2 ^ s)), Z.mod_pow2_bits_high by lia; done.
Qed.

(** ** The reference encoding *)

(** The base-128 digits of [v], least significant first, all but the last with
    128 added; at most [n] of them. *)
Fixpoint digits (n : nat) (v : Z) : list Z :=
  match n with
  | O => []
  | S n => if v <? 128 then [v] else v mod 128 + 128 :: digits n (v / 128)
  end.
Definition varint (v : Z) : list Z := digits 10 (uint64 v).

Definition encVarint (tag v : Z) : list Z := tag :: varint v.
Definition encBytes (tag : Z) (bs : list Z) : list Z := tag :: varint (len bs) ++ bs.
Definition encOptBytes (tag : Z) (o : option (list Z)) : list Z :=
  match o with Some bs => encBytes tag bs | None => [] end.
Definition encBool (tag : Z) (b : bool) : list Z := [tag; if b then 1 else 0].

Arguments encVarint : simpl never.
Arguments encBytes : simpl never.
Arguments encBool : simpl never.

Lemma land_127 v : Z.land v 127 = v mod 128.
Proof. change 127 with (Z.ones 7). by rewrite Z.land_ones. Qed.

Lemma shiftr_7 v : Z.shiftr v 7 = v / 128.
Proof. by rewrite Z.shiftr_div_pow2. Qed.

Lemma lor_128 d : 0 ≤ d < 128 → Z.lor d 128 = d + 128.
Proof. intros Hd. apply (lor_disjoint d 1 7); lia. Qed.

(** [n + 1] digits are enough for [v]. *)
Lemma digits_step n v :
  0 ≤ v < 128 ^ Z.of_nat (S n) → 0 ≤ v / 128 < 128 ^ Z.of_nat n.
Proof.
  intros Hv. rewrite Nat2Z.inj_succ, Z.pow_succ_r in Hv by lia.
  split; [apply Z.div_pos; lia|apply Z.div_lt_upper_bound; lia].
Qed.

Lemma digits_bytes n v : 0 ≤ v → bytes (digits n v).
Proof.
  revert v. induction n as [|n IH]; intros v Hv; simpl; [by constructor|].
  destruct (Z.ltb_spec v 128); constructor.
  - unfold inU. lia.
  - constructor.
  - pose proof (Z.mod_pos_bound v 128). unfold inU. lia.
  - apply IH, Z.div_pos; lia.
Qed.

Lemma uint64_bound v : 0 ≤ uint64 v < 2 ^ 64.
Proof. apply Z.mod_pos_bound. lia. Qed.

Lemma uint64_digits v : 0 ≤ uint64 v < 128 ^ Z.of_nat 10.
Proof. pose proof (uint64_bound v). lia. Qed.

Lemma varint_bytes v : bytes (varint v).
Proof. apply digits_bytes, uint64_bound. Qed.

Lemma len_cons {A} (x : A) l : len (x :: l) = 1 + len l.
Proof. unfold len. simpl. lia. Qed.

(** *** Reading back a varint *)
Lemma varintLoop_last wrap `{!IntConv wrap} v rest s i a :
  0 ≤ v < 128 → 0 ≤ s → 0 ≤ a < 2 ^ s →
  varintLoop wrap (v :: rest) s i (wrap a) = (wrap (a + v * 2 ^ s), i + 1, true).
Proof.
  intros Hv Hs Ha. simpl. rewrite (proj2 (Z.ltb_lt v 128)) by lia.
  by rewrite land_127, (Z.mod_small v), <-wrap_lor, lor_disjoint by lia.
Qed.

Lemma varintLoop_digits wrap `{!IntConv wrap} n v rest s i a :
  0 ≤ v < 128 ^ Z.of_nat (S n) → 0 ≤ s → 0 ≤ a < 2 ^ s →
  varintLoop wrap (digits (S n) v ++ rest) s i (wrap a) =
  (wrap (a + v * 2 ^ s), i + len (digits (S n) v), true).
Proof.
  revert v s i a. induction n as [|n IH]; intros v s i a Hv Hs Ha.
  { simpl digits. rewrite (proj2 (Z.ltb_lt v 128)) by lia. by apply varintLoop_last. }
  change (digits (S (S n)) v) with
    (if v <? 128 then [v] else v mod 128 + 128 :: digits (S n) (v / 128)).
  destruct (Z.ltb_spec v 128) as [Hlt|Hge].
  { apply varintLoop_last; [done|lia|done|done]. }
  pose proof (Z.mod_pos_bound v 128 ltac:(lia)) as Hd.
  assert (0 < 2 ^ s) by (apply Z.pow_pos_nonneg; lia).
  rewrite <-app_comm_cons. cbn [varintLoop].
  rewrite (proj2 (Z.ltb_ge _ 128)) by lia.
  rewrite land_127, <-Z.add_mod_idemp_r, Z.mod_same, Z.add_0_r, Z.mod_mod by lia.
  rewrite <-wrap_lor, lor_disjoint, IH by first [lia|by apply digits_step|
    rewrite Z.pow_add_r by lia; nia].
  rewrite len_cons, Z.pow_add_r by lia. do 2 f_equal; [f_equal|lia].
  rewrite (Z.div_mod v 128) at 3 by lia. lia.
Qed.

Lemma readVarint_varint wrap `{!IntConv wrap} pre v rest :
  readVarint wrap (pre ++ varint v ++ rest) (len pre) 0 =
  Ret (wrap (uint64 v), len pre + len (varint v), true).
Proof.
  unfold readVarint. pose proof (len_nonneg pre).
  rewrite (proj2 (Z.ltb_ge _ 0)) by lia. f_equal.
  unfold len at 1. rewrite Nat2Z.id, drop_app_length.
  pose proof (varintLoop_digits wrap 9 (uint64 v) rest 0 (len pre) 0
    (uint64_digits v) ltac:(lia) ltac:(lia)) as Hd.
  by rewrite wrap_0, Z.pow_0_r, Z.mul_1_r in Hd.
Qed.

(** *** Writing

    [writes w bs]: started at any position of a buffer with room for [bs], the
    writer [w] puts [bs] there and moves the position past it. *)
Definition writes (w : writer) (bs : list Z) : Prop :=
  ∀ pre junk, (length bs ≤ length junk)%nat →
    w (pre ++ junk, len pre) = Ok (pre ++ bs ++ drop (length bs) junk, len pre + len bs).

Lemma writes_seq w1 w2 b1 b2 :
  writes w1 b1 → writes w2 b2 → writes (w1 ▷ w2) (b1 ++ b2).
Proof.
  intros H1 H2 pre junk Hl. rewrite length_app in Hl. unfold andThen.
  rewrite H1 by lia. simpl. rewrite app_assoc, <-len_app, H2 by (rewrite length_drop; lia).
  by rewrite drop_drop, !len_app, !app_assoc, length_app, Z.add_assoc.
Qed.

Lemma writes_nil : writes Ok [].
Proof. intros pre junk _. by rewrite drop_0, Z.add_0_r. Qed.

Lemma writes_put v : inU 8 v → writes (put v) [v].
Proof.
  intros Hv pre junk Hl. unfold put. pose proof (len_nonneg pre). simpl in Hl.
  rewrite len_app. rewrite (proj2 (Z.leb_le 0 _)) by lia.
  rewrite (proj2 (Z.ltb_lt _ _)) by (unfold len in *; lia). simpl.
  rewrite wrapU_id by done. unfold len at 1. rewrite Nat2Z.id.
  rewrite insert_app_r_alt, Nat.sub_diag by lia.
  destruct junk; simpl in *; [lia|]. by rewrite drop_0.
Qed.

Lemma writes_bytes bs : writes (putBytes bs) bs.
Proof.
  intros pre junk Hl. unfold putBytes. pose proof (len_nonneg pre). rewrite len_app.
  rewrite (proj2 (Z.leb_le 0 _)), (proj2 (Z.leb_le _ _)) by (unfold len in *; lia). simpl.
  assert (Z.min (len pre + len junk - len pre) (len bs) = len bs) as ->
    by (unfold len; lia).
  unfold len. rewrite <-Nat2Z.inj_add, !Nat2Z.id, take_app_length, drop_app_add.
  rewrite firstn_all. done.
Qed.

Lemma writes_encodeVarint v : writes (encodeVarint (uint64 v)) (varint v).
Proof.
  unfold encodeVarint, varint. pose proof (uint64_digits v) as Hv.
  generalize dependent (uint64 v). clear v. change 10%nat with (S 9).
  generalize 9%nat. induction n as [|n IH]; intros v Hv.
  - change (128 ^ Z.of_nat 1) with 128 in Hv. simpl.
    rewrite Z.geb_leb, (proj2 (Z.leb_gt _ _)), (proj2 (Z.ltb_lt _ _)) by lia.
    apply writes_put. unfold inU. lia.
  - change (digits (S (S n)) v) with
      (if v <? 128 then [v] else v mod 128 + 128 :: digits (S n) (v / 128)).
    remember (S n) as k. simpl. subst k. rewrite Z.geb_leb.
    destruct (Z.ltb_spec v 128), (Z.leb_spec 128 v); try lia.
    + apply writes_put. unfold inU. lia.
    + pose proof (Z.mod_pos_bound v 128 ltac:(lia)) as Hd.
      rewrite land_127, lor_128, shiftr_7 by lia.
      apply (writes_seq (put (v mod 128 + 128)) (encodeVarintLoop (S n) (v / 128))
               [v mod 128 + 128]).
      * apply writes_put. unfold inU. lia.
      * by apply IH, digits_step.
Qed.

Lemma writes_varint tag v : inU 8 tag → writes (putVarint tag v) (encVarint tag v).
Proof. intros. apply (writes_seq _ _ [tag]); [by apply writes_put|apply writes_encodeVarint]. Qed.

Lemma writes_len tag bs : inU 8 tag → writes (putLen tag bs) (encBytes tag bs).
Proof.
  intros. apply (writes_seq _ _ [tag]); [by apply writes_put|].
  apply writes_seq; [apply writes_encodeVarint|apply writes_bytes].
Qed.

Lemma writes_optLen tag o : inU 8 tag → writes (putOptLen tag o) (encOptBytes tag o).
Proof. intros. destruct o; [by apply writes_len|apply writes_nil]. Qed.

Lemma writes_bool tag b : inU 8 tag → writes (putBool tag b) (encBool tag b).
Proof.
  intros. apply (writes_seq _ _ [tag]); [by apply writes_put|].
  apply writes_put. by destruct b.
Qed.

Lemma writes_within w bs : writes w bs → writes (within w) bs.
Proof.
  intros Hw pre junk Hl. unfold within. pose proof (len_nonneg pre).
  rewrite len_app, !(proj2 (Z.leb_le _ _)) by (unfold len in *; lia). simpl.
  unfold len. rewrite Nat2Z.id, drop_app_length, take_app_length.
  pose proof (Hw [] junk Hl) as H1. simpl in H1. change (len []) with 0 in H1.
  by rewrite H1.
Qed.

Lemma writes_msg tag size w bs :
  inU 8 tag → writes w bs → size = len bs → writes (putMsg tag size w) (encBytes tag bs).
Proof.
  intros Ht Hw ->. apply (writes_seq _ _ [tag]); [by apply writes_put|].
  apply writes_seq; [apply writes_encodeVarint|by apply writes_within].
Qed.

Lemma writes_each {A} (w : A → writer) enc (l : list A) :
  (∀ a, a ∈ l → writes (w a) (enc a)) → writes (putEach w l) (concat (enc <$> l)).
Proof.
  induction l as [|a l IH]; intros Hl; simpl; [apply writes_nil|].
  apply (writes_seq (w a) (putEach w l)); [apply Hl; left|].
  apply IH. intros; apply Hl. by right.
Qed.

Lemma len_concat {A B} (f : A → list B) l :
  len (concat (f <$> l)) = foldr (λ a n, len (f a) + n) 0 l.
Proof. induction l as [|a l IH]; simpl; [done|]. by rewrite len_app, <-IH. Qed.

Lemma marshal_writes size w bs : writes w bs → size = len bs → marshal size w = Ok bs.
Proof.
  intros Hw ->. unfold marshal.
  pose proof (Hw [] (replicate (Z.to_nat (len bs)) 0)) as H1. simpl in H1.
  change (len []) with 0 in H1. rewrite H1.
  2: { rewrite length_replicate. unfold len. lia. }
  rewrite drop_ge, app_nil_r by (rewrite length_replicate; unfold len; lia). simpl.
  pose proof (len_nonneg bs).
  rewrite (proj2 (Z.leb_le 0 _)), (proj2 (Z.leb_le _ (len bs))) by lia. simpl.
  rewrite take_ge by (unfold len; lia). done.
Qed.

(** *** Sizes *)
Lemma sovLoop_digits n v k :
  0 ≤ v < 128 ^ Z.of_nat (S n) → sovLoop n v k = k + len (digits (S n) v).
Proof.
  revert v k. induction n as [|n IH]; intros v k Hv.
  - change (128 ^ Z.of_nat 1) with 128 in Hv. simpl.
    by rewrite (proj2 (Z.ltb_lt _ _)) by lia.
  - change (digits (S (S n)) v) with
      (if v <? 128 then [v] else v mod 128 + 128 :: digits (S n) (v / 128)).
    cbn [sovLoop]. rewrite shiftr_7. apply digits_step in Hv as Hv'.
    destruct (Z.ltb_spec v 128).
    + rewrite Z.div_small by lia. done.
    + rewrite (proj2 (Z.eqb_neq _ 0)).
      * rewrite IH, len_cons by done. lia.
      * assert (1 ≤ v / 128) by (apply Z.div_le_lower_bound; lia). lia.
Qed.

Lemma sov_varint v : sov (uint64 v) = len (varint v).
Proof. unfold sov. by rewrite sovLoop_digits by apply uint64_digits. Qed.

Lemma len_encVarint tag v : len (encVarint tag v) = 1 + sov (uint64 v).
Proof. unfold encVarint. by rewrite len_cons, sov_varint. Qed.

Lemma len_encBytes tag bs : len (encBytes tag bs) = 1 + len bs + sov (uint64 (len bs)).
Proof. unfold encBytes. rewrite len_cons, len_app, sov_varint. lia. Qed.

Lemma len_encOptBytes tag o : len (encOptBytes tag o) = sizeOptLen o.
Proof. destruct o; [apply len_encBytes|done]. Qed.

(** *** Skipping looks no further than the field *)
Lemma varintLoop_app wrap rest suf s i a v j :
  varintLoop wrap rest s i a = (v, j, true) →
  varintLoop wrap (rest ++ suf) s i a = (v, j, true).
Proof.
  revert s i a. induction rest as [|b rest IH]; intros s i a; simpl; [done|].
  destruct (b <? 128); [done|apply IH].
Qed.

Lemma readVarint_app wrap data suf i a v j :
  readVarint wrap data i a = Ret (v, j, true) →
  readVarint wrap (data ++ suf) i a = Ret (v, j, true).
Proof.
  unfold readVarint. destruct (i <? 0); [done|]. intros [= Hr]. f_equal.
  destruct (decide (Z.to_nat i ≤ length data)%nat).
  - rewrite drop_app_le by done. by apply varintLoop_app.
  - by rewrite drop_ge in Hr by lia.
Qed.

Lemma skipVarint_app rest suf i j :
  skipVarint rest i = (j, true) → skipVarint (rest ++ suf) i = (j, true).
Proof.
  revert i. induction rest as [|b rest IH]; intros i; simpl; [done|].
  destruct (b <? 128); [done|apply IH].
Qed.

Lemma subslice_to_end data lo :
  0 ≤ lo ≤ len data → subslice data lo (len data) = Ret (drop (Z.to_nat lo) data).
Proof.
  intros Hlo. unfold subslice.
  rewrite !(proj2 (Z.leb_le _ _)) by lia. simpl.
  rewrite take_ge; [done|]. rewrite length_drop. unfold len in *. lia.
Qed.

Lemma subslice_inv data lo hi bs :
  subslice data lo hi = Ret bs → 0 ≤ lo ≤ hi ∧ hi ≤ len data.
Proof. unfold subslice. destruct (_ && _) eqn:E; [|done]. to_prop. lia. Qed.

Lemma skipGroup_app skip fuel data suf i n :
  (∀ d n, skip d = Ret (inr n) → skip (d ++ suf) = Ret (inr n)) →
  skipGroup skip fuel data i = Ret (inr n) →
  skipGroup skip fuel (data ++ suf) i = Ret (inr n).
Proof.
  intros Hs. revert i. induction fuel as [|fuel IH]; intros i; simpl; [done|].
  destruct (readVarint uint64 data i 0) as [[[w j] []]| |] eqn:Er; simpl; try done.
  rewrite (readVarint_app _ _ suf _ _ _ _ Er). simpl.
  destruct (_ =? 4); [done|].
  destruct (subslice data i (len data)) as [rest| |] eqn:Eb; simpl; try done.
  apply subslice_inv in Eb as Hi. rewrite subslice_to_end in Eb by lia.
  rewrite subslice_to_end by (rewrite len_app; pose proof (len_nonneg suf); lia).
  rewrite drop_app_le by (unfold len in *; lia). injection Eb as ->. simpl.
  destruct (skip rest) as [[|k]| |] eqn:Ek; simpl; try done.
  rewrite (Hs _ _ Ek). simpl. apply IH.
Qed.

Lemma Skip_app fuel data suf n :
  Skip fuel data = Ret (inr n) → Skip fuel (data ++ suf) = Ret (inr n).
Proof.
  revert data n. induction fuel as [|fuel IH]; intros data n; [done|]. cbn [Skip].
  pose proof (len_nonneg suf). rewrite len_app.
  destruct (Z.leb_spec (len data) 0); [done|].
  rewrite (proj2 (Z.leb_gt _ _)) by lia.
  destruct (readVarint uint64 data 0 0) as [[[w j] []]| |] eqn:Er; cbn -[Z.land]; try done.
  rewrite (readVarint_app _ _ suf _ _ _ _ Er). cbn -[Z.land skipGroup].
  destruct (_ =? 0).
  { destruct (skipVarint (drop (Z.to_nat j) data) j) as [k []] eqn:Ek; [|done].
    intros [= <-]. destruct (decide (Z.to_nat j ≤ length data)%nat).
    - rewrite drop_app_le by done. by rewrite (skipVarint_app _ _ _ _ Ek).
    - by rewrite drop_ge in Ek by lia. }
  destruct (_ =? 1); [done|]. destruct (_ =? 2).
  { destruct (readVarint int64 data j 0) as [[[v k] []]| |] eqn:Ek; simpl; try done.
    by rewrite (readVarint_app _ _ suf _ _ _ _ Ek). }
  destruct (_ =? 3); [by apply (skipGroup_app (Skip fuel) (S fuel))|]. by repeat case_match.
Qed.

(** More fuel does not change what Skip returns. *)
Lemma skipGroup_mono skip skip' fuel fuel' data i r :
  (∀ d r, skip d = Ret r → skip' d = Ret r) → (fuel ≤ fuel')%nat →
  skipGroup skip fuel data i = Ret r → skipGroup skip' fuel' data i = Ret r.
Proof.
  intros Hs. revert fuel' i. induction fuel as [|fuel IH]; intros fuel' i Hle; [done|].
  destruct fuel' as [|fuel']; [lia|]. cbn [skipGroup].
  destruct (readVarint uint64 data i 0) as [[[w j] []]| |]; cbn -[Z.land]; try done.
  destruct (_ =? 4); [done|].
  destruct (subslice data i (len data)) as [rest| |]; cbn; try done.
  destruct (skip rest) as [[|k]| |] eqn:Ek; cbn; try done;
    rewrite (Hs _ _ Ek); cbn; [done|]. apply IH. lia.
Qed.

Lemma Skip_mono fuel fuel' data r :
  (fuel ≤ fuel')%nat → Skip fuel data = Ret r → Skip fuel' data = Ret r.
Proof.
  revert fuel' data r. induction fuel as [|fuel IH]; intros fuel' data r Hle; [done|].
  destruct fuel' as [|fuel']; [lia|]. cbn [Skip].
  destruct (len data <=? 0); [done|].
  destruct (readVarint uint64 data 0 0) as [[[w j] []]| |]; cbn -[Z.land skipGroup]; try done.
  repeat case_match; try done.
  apply skipGroup_mono; [|lia]. intros d r'. apply IH. lia.
Qed.

(** *** Reading

    [decodes f wireType body m m']: placed anywhere in the data, the field case
    [f] consumes exactly [body] and turns [m] into [m'].  [reads bs m m'] says the
    same of the loop for a sequence [bs] of whole fields. *)
Definition fits (data : list Z) : Prop := len data < 2 ^ 63.

Definition decodes {M} (f : fieldCase M) (wireType : Z) (body : list Z) (m m' : M) : Prop :=
  ∀ pre suf, fits (pre ++ body ++ suf) →
    f (pre ++ body ++ suf) wireType (len pre) m = Ret (m', len pre + len body, None).

Lemma int64_fits data i : fits data → 0 ≤ i ≤ len data → int64 i = i.
Proof. unfold fits. intros. apply wrapS_id; unfold inS; lia. Qed.

Lemma subslice_mid pre bs suf :
  subslice (pre ++ bs ++ suf) (len pre) (len pre + len bs) = Ret bs.
Proof.
  unfold subslice. pose proof (len_nonneg pre). pose proof (len_nonneg bs).
  pose proof (len_nonneg suf). rewrite !len_app.
  rewrite !(proj2 (Z.leb_le _ _)) by lia. simpl. f_equal.
  replace (len pre + len bs - len pre) with (len bs) by lia. unfold len.
  by rewrite !Nat2Z.id, drop_app_length, take_app_length.
Qed.

Section decode_fields.
Context {M : Type}.
Implicit Types m : M.

Lemma decodes_varint wrap `{!IntConv wrap} (proj : M → Z) `{!Setter proj} v m :
  proj m = 0 →
  decodes (varintField wrap proj) 0 (varint v) m (m <| proj := wrap (uint64 v) |>).
Proof.
  intros Hp pre suf _. unfold varintField. simpl. by rewrite Hp, readVarint_varint.
Qed.

Lemma decodes_local wrap `{!IntConv wrap} use v m :
  decodes (localVarint wrap use) 0 (varint v) m (use (wrap (uint64 v)) m).
Proof. intros pre suf _. unfold localVarint. simpl. by rewrite readVarint_varint. Qed.

Lemma decodes_bytes wrap `{!IntConv wrap} use bs m m' :
  (∀ z, 0 ≤ z < 2 ^ 63 → wrap z = z) → use bs m = Ret (m', None) →
  decodes (bytesField wrap use) 2 (varint (len bs) ++ bs) m m'.
Proof.
  intros Hwrap Hu pre suf Hf. unfold bytesField. simpl.
  rewrite <-(app_assoc (varint _)), (readVarint_varint wrap). simpl.
  assert (fits (pre ++ varint (len bs) ++ bs ++ suf)) as Hf' by by rewrite <-app_assoc in Hf.
  assert (0 ≤ len bs ≤ len (pre ++ varint (len bs) ++ bs ++ suf)) as Hb.
  { rewrite !len_app. pose proof (len_nonneg bs). pose proof (len_nonneg pre).
    pose proof (len_nonneg suf). pose proof (len_nonneg (varint (len bs))). lia. }
  assert (wrap (uint64 (len bs)) = len bs) as ->.
  { rewrite wrapU_id by (unfold inU, fits in *; lia). apply Hwrap. unfold fits in *. lia. }
  rewrite (app_assoc pre), <-len_app.
  rewrite (int64_fits ((pre ++ varint (len bs)) ++ bs ++ suf)).
  - rewrite Z.gtb_ltb, (proj2 (Z.ltb_ge _ _)).
    + rewrite subslice_mid. simpl. rewrite Hu. simpl. do 3 f_equal.
      rewrite !len_app. lia.
    + rewrite !len_app. pose proof (len_nonneg suf). lia.
  - by rewrite <-app_assoc.
  - rewrite !len_app in *. pose proof (len_nonneg pre). pose proof (len_nonneg suf).
    pose proof (len_nonneg (varint (len bs))). lia.
Qed.
End decode_fields.

Section loop_reads.
Context {M : Type} (fields : Z → option (fieldCase M)) (keep : list Z → M → M).
Context (skipFuel : nat).
Implicit Types m : M.
Abbreviation loop := (unmarshalLoop fields keep skipFuel).

(** More fuel does not change a result. *)
Lemma loop_mono fuel fuel' data i m res :
  loop fuel data i m = Ret res → (fuel ≤ fuel')%nat → loop fuel' data i m = Ret res.
Proof.
  revert fuel' i m. induction fuel as [|fuel IH]; intros fuel' i m; [done|].
  destruct fuel' as [|fuel']; [lia|]. cbn [unmarshalLoop].
  destruct (i <? len data); [|done]. intros Hl Hle.
  destruct (readVarint uint64 data i 0) as [[[w j] []]| |]; cbn in *; try done.
  destruct (match fields _ with Some _ => _ | None => _ end) as [[[m1 k] []]| |];
    cbn in *; try done.
  apply IH; [done|lia].
Qed.

Definition reads (bs : list Z) (m m' : M) : Prop :=
  ∀ pre suf fuel res, fits (pre ++ bs ++ suf) →
    loop fuel (pre ++ bs ++ suf) (len pre + len bs) m' = Ret res →
    loop (fuel + length bs) (pre ++ bs ++ suf) (len pre) m = Ret res.

Lemma reads_nil m : reads [] m m.
Proof. intros pre suf fuel res _. by rewrite Z.add_0_r, Nat.add_0_r. Qed.

Lemma reads_app b1 b2 m m1 m2 :
  reads b1 m m1 → reads b2 m1 m2 → reads (b1 ++ b2) m m2.
Proof.
  intros H1 H2 pre suf fuel res Hf Hl. rewrite length_app, <-app_assoc in *.
  rewrite (Nat.add_comm (length b1)), Nat.add_assoc.
  apply H1; [done|]. revert Hl. rewrite len_app, Z.add_assoc, <-len_app.
  rewrite (app_assoc pre) in *. by apply H2.
Qed.

(** One turn of the loop at a tag. *)
Lemma loop_tag wire pre rest m fuel :
  0 ≤ wire < 2 ^ 64 →
  loop (S fuel) (pre ++ varint wire ++ rest) (len pre) m =
  '(m, index, err) ←
    match fields (int32 (Z.shiftr wire 3)) with
    | Some f => f (pre ++ varint wire ++ rest) (Z.land wire 7) (len pre + len (varint wire)) m
    | None => unknownField skipFuel keep wire (pre ++ varint wire ++ rest)
                (Z.land wire 7) (len pre + len (varint wire)) m
    end;
  match err with
  | Some e => Ret (m, Some e)
  | None => loop fuel (pre ++ varint wire ++ rest) index m
  end.
Proof.
  intros Hw. cbn [unmarshalLoop]. rewrite (readVarint_varint uint64), !(wrapU_id 64 wire) by done.
  assert (0 < len (varint wire)) by (apply len_pos; unfold varint; simpl; by case_match).
  rewrite (proj2 (Z.ltb_lt _ _)); [done|].
  rewrite !len_app. pose proof (len_nonneg rest). lia.
Qed.

Lemma reads_field wire f body m m' :
  0 ≤ wire < 2 ^ 64 → fields (int32 (Z.shiftr wire 3)) = Some f →
  decodes f (Z.land wire 7) body m m' → reads (varint wire ++ body) m m'.
Proof.
  intros Hw Hf Hd pre suf fuel res Hfit Hl.
  eapply (loop_mono (S fuel)).
  - rewrite <-app_assoc in *. rewrite loop_tag by done. rewrite Hf.
    rewrite len_app, Z.add_assoc, <-len_app in Hl.
    rewrite (app_assoc pre), <-len_app in *. rewrite Hd by done. cbn.
    by rewrite <-len_app.
  - rewrite length_app.
    assert (0 < len (varint wire)) by (apply len_pos; unfold varint; simpl; by case_match).
    unfold len in *. lia.
Qed.

(** A field the message does not know, which Skip takes whole. *)
Definition unknown (c : list Z) : Prop :=
  ∃ wire body, c = varint wire ++ body ∧ 0 ≤ wire < 2 ^ 64 ∧
    fields (int32 (Z.shiftr wire 3)) = None ∧
    Skip (S (length c)) c = Ret (inr (len c)).

Lemma reads_unknown c m : unknown c → (length c < skipFuel)%nat → reads c m (keep c m).
Proof.
  intros (wire & body & Hc & Hw & Hf & Hs0) Hlt pre suf fuel res Hfit Hl.
  apply (Skip_mono _ skipFuel) in Hs0 as Hs; [|lia].
  assert (0 < len (varint wire)) by (apply len_pos; unfold varint; simpl; by case_match).
  eapply (loop_mono (S fuel)).
  2: { rewrite Hc, length_app. unfold len in *. lia. }
  pose proof (len_nonneg pre). pose proof (len_nonneg c). pose proof (len_nonneg suf).
  replace (pre ++ c ++ suf) with (pre ++ varint wire ++ body ++ suf) by
    by rewrite Hc, <-app_assoc.
  rewrite loop_tag, Hf by done. unfold unknownField.
  replace (pre ++ varint wire ++ body ++ suf) with (pre ++ c ++ suf) by
    by rewrite Hc, <-app_assoc.
  rewrite <-(wrapU_id 64 wire), sov_varint, wrapU_id by done.
  replace (len pre + len (varint wire) - len (varint wire)) with (len pre) by lia.
  rewrite subslice_to_end by (rewrite !len_app; lia). cbn [mbind run_bind].
  replace (drop (Z.to_nat (len pre)) (pre ++ c ++ suf)) with (c ++ suf).
  2: { unfold len. by rewrite Nat2Z.id, drop_app_length. }
  rewrite (Skip_app _ _ _ _ Hs). cbn [mbind run_bind].
  rewrite (int64_fits (pre ++ c ++ suf)) by (done || rewrite !len_app; lia).
  rewrite Z.gtb_ltb, (proj2 (Z.ltb_ge _ _)) by (rewrite !len_app; lia).
  by rewrite subslice_mid.
Qed.

Lemma loop_done data m fuel : loop (S fuel) data (len data) m = Ret (m, None).
Proof. cbn [unmarshalLoop]. by rewrite Z.ltb_irrefl. Qed.

(** A message read whole, with more fuel than bytes. *)
Lemma reads_all bs m m' fuel :
  reads bs m m' → fits bs → (length bs < fuel)%nat → loop fuel bs 0 m = Ret (m', None).
Proof.
  intros Hr Hf Hlt.
  assert (loop (1 + length bs) ([] ++ bs ++ []) (len (@nil Z)) m = Ret (m', None)) as Hx.
  { apply Hr; rewrite app_nil_r; [done|]. apply loop_done. }
  simpl app in Hx. rewrite app_nil_r in Hx. by eapply loop_mono; [exact Hx|lia].
Qed.
End loop_reads.

(** A tag of one byte is its own varint. *)
Lemma varint_small t : 0 ≤ t < 128 → varint t = [t].
Proof.
  intros Ht. unfold varint. rewrite wrapU_id by (unfold inU; lia).
  simpl. by rewrite (proj2 (Z.ltb_lt _ _)) by lia.
Qed.

(** The laws of an assignment to a field. *)
Class FieldLaws {R T} (proj : R → T) `{!Setter proj} := {
  set_get r : r <| proj := proj r |> = r;
  get_set r v : proj (r <| proj := v |>) = v;
  set_set r v w : r <| proj := v |> <| proj := w |> = r <| proj := w |>;
}.

(** Widening to uint64 and back. *)
Lemma mod_uint64 w z : 0 ≤ w ≤ 64 → uint64 z mod 2 ^ w = z mod 2 ^ w.
Proof.
  intros Hw. unfold wrapU. replace 64 with ((64 - w) + w) by lia.
  rewrite Z.pow_add_r, Z.mul_comm by lia.
  rewrite Z.rem_mul_r by (try apply Z.pow_nonzero; try apply Z.pow_pos_nonneg; lia).
  rewrite Z.mul_comm, Z.mod_add, Z.mod_mod by (apply Z.pow_nonzero; lia). done.
Qed.

Lemma int64_uint64 z : inS 64 z → int64 (uint64 z) = z.
Proof. intros. unfold wrapS. rewrite mod_uint64 by lia. by apply (wrapS_id 64). Qed.
Lemma int32_uint64 z : inS 32 z → int32 (uint64 z) = z.
Proof. intros. unfold wrapS. rewrite mod_uint64 by lia. by apply (wrapS_id 32). Qed.
Lemma uint32_uint64 z : inU 32 z → uint32 (uint64 z) = z.
Proof. intros. unfold wrapU at 1. rewrite mod_uint64 by lia. by apply (wrapU_id 32). Qed.
Lemma uint64_uint64 z : inU 64 z → uint64 (uint64 z) = z.
Proof. intros. by rewrite !wrapU_id by by rewrite ?wrapU_id. Qed.

Lemma bool_varint (b : bool) : negb (int64 (uint64 (if b then 1 else 0)) =? 0) = b.
Proof. by destruct b. Qed.

Section read_fields.
Context {M : Type} (fields : Z → option (fieldCase M)) (keep : list Z → M → M).
Context (skipFuel : nat).
Implicit Types m : M.
Abbreviation reads' := (reads fields keep skipFuel).

Lemma reads_encVarint tag wrap `{!IntConv wrap} (proj : M → Z) `{!Setter proj} v m m' :
  TCEq ((0 <=? tag) && (tag <? 128)) true →
  fields (int32 (Z.shiftr tag 3)) = Some (varintField wrap proj) →
  Z.land tag 7 = 0 → proj m = 0 → m' = m <| proj := wrap (uint64 v) |> →
  reads' (encVarint tag v) m m'.
Proof.
  intros Ht%TCEq_eq Hf Hw Hp ->. to_prop.
  change (encVarint tag v) with ([tag] ++ varint v).
  rewrite <-(varint_small tag) by lia.
  eapply reads_field; [lia|exact Hf|]. rewrite Hw. by apply decodes_varint.
Qed.

Lemma reads_encLocal tag wrap `{!IntConv wrap} use v m m' :
  TCEq ((0 <=? tag) && (tag <? 128)) true →
  fields (int32 (Z.shiftr tag 3)) = Some (localVarint wrap use) →
  Z.land tag 7 = 0 → m' = use (wrap (uint64 v)) m →
  reads' (encVarint tag v) m m'.
Proof.
  intros Ht%TCEq_eq Hf Hw ->. to_prop.
  change (encVarint tag v) with ([tag] ++ varint v).
  rewrite <-(varint_small tag) by lia.
  eapply reads_field; [lia|exact Hf|]. rewrite Hw. by apply decodes_local.
Qed.

Lemma reads_encBytes tag wrap use bs m m' :
  TCEq ((0 <=? tag) && (tag <? 128)) true →
  fields (int32 (Z.shiftr tag 3)) = Some (bytesField wrap use) →
  wrap = int64 ∨ wrap = uint64 →
  Z.land tag 7 = 2 → use bs m = Ret (m', None) →
  reads' (encBytes tag bs) m m'.
Proof.
  intros Ht%TCEq_eq Hf Hwrap Hw Hu. to_prop.
  change (encBytes tag bs) with ([tag] ++ varint (len bs) ++ bs).
  rewrite <-(varint_small tag) by lia.
  eapply reads_field; [lia|exact Hf|]. rewrite Hw.
  destruct Hwrap as [-> | ->]; apply decodes_bytes; try done; try apply _;
    intros z Hz; [apply wrapS_id|apply wrapU_id]; unfold inS, inU; lia.
Qed.

Lemma encBool_varint tag b : encBool tag b = encVarint tag (if b then 1 else 0).
Proof. unfold encVarint. by destruct b. Qed.

(** A list of values, each of which extends the message. *)
Lemma reads_list {A} (enc : A → list Z) (add : M → A → M) (l : list A) m :
  (∀ m a, a ∈ l → reads' (enc a) m (add m a)) →
  reads' (concat (enc <$> l)) m (foldl add m l).
Proof.
  revert m. induction l as [|a l IH]; intros m Hl; simpl; [apply reads_nil|].
  eapply reads_app; [apply Hl; left|]. apply IH. intros; apply Hl. by right.
Qed.

(** The unrecognized part of a message: whole unknown fields. *)
Definition unrecognized_ok (xxx : list Z) : Prop :=
  ∃ cs, xxx = concat cs ∧ Forall (unknown fields) cs.

Lemma reads_unrecognized xxx (proj : M → list Z) `{FieldLaws M (list Z) proj} m m' :
  (∀ bs m, keep bs m = m <| proj := proj m ++ bs |>) →
  unrecognized_ok xxx → (length xxx < skipFuel)%nat →
  m' = m <| proj := proj m ++ xxx |> → reads' xxx m m'.
Proof.
  intros Hk (cs & -> & Hcs) Hlt ->.
  revert m Hlt. induction Hcs as [|c cs Hc Hcs IH]; intros m; simpl.
  - rewrite app_nil_r, set_get. intros; apply reads_nil.
  - rewrite length_app. intros Hlt.
    eapply reads_app; [apply reads_unknown; [done|lia]|]. rewrite Hk.
    replace (m <| proj := proj m ++ c ++ concat cs |>) with
      (m <| proj := proj m ++ c |>
         <| proj := proj (m <| proj := proj m ++ c |>) ++ concat cs |>); [apply IH; lia|].
    by rewrite set_set, get_set, app_assoc.
Qed.
End read_fields.

(** ** Automation for the messages *)
#[export] Hint Resolve writes_seq writes_varint writes_len writes_optLen writes_bool writes_bytes
  writes_each writes_msg : etcd.
#[export] Hint Extern 1 (inU 8 _) => (unfold inU; lia) : etcd.

(** The size of a message is the length of its encoding. *)
Ltac size_solve :=
  rewrite ?len_app, ?len_encVarint, ?len_encBytes, ?len_encOptBytes, ?len_concat; try lia.

(** Reads the fields of an encoding, one after the other. *)
Ltac read_field :=
  first
    [ notypeclasses refine (reads_encVarint _ _ _ _ _ _ _ _ _ _ _ _ _ _);
        [|constructor|reflexivity|reflexivity|reflexivity|reflexivity]; apply _
    | notypeclasses refine (reads_encLocal _ _ _ _ _ _ _ _ _ _ _ _ _);
        [|constructor|reflexivity|reflexivity|reflexivity]; apply _
    | eapply reads_encBytes;
        [constructor|reflexivity|by auto|reflexivity|reflexivity] ].
(** Keeps the message read so far in the form of a constructor application. *)
Ltac norm_message :=
  lazymatch goal with
  | |- reads _ _ _ _ ?m _ =>
      let m1 := eval hnf in m in
      let m2 := eval cbn in m1 in
      change m with m2
  end.
Ltac read_fields := repeat (eapply reads_app; [read_field|norm_message]).

(** The unrecognized part ends an encoding; what is left is that the message read
    is the one written. *)
Ltac read_last proj :=
  eapply (reads_unrecognized _ _ _ _ proj); [reflexivity|eassumption|eassumption|];
  rewrite ?bool_varint, ?int64_uint64, ?int32_uint64, ?uint32_uint64, ?uint64_uint64 by assumption.

(** ** Round trips *)

(** The parts of a message are no longer than the whole. *)
Lemma length_concat_in {A B} (f : A → list B) (l : list A) a :
  a ∈ l → (length (f a) ≤ length (concat (f <$> l)))%nat.
Proof.
  induction 1 as [a l|a b l Hin IH]; rewrite fmap_cons; cbn [concat];
    rewrite length_app; lia.
Qed.

Lemma length_encBytes tag bs : (length bs < length (encBytes tag bs))%nat.
Proof. unfold encBytes. simpl. rewrite length_app. lia. Qed.

Lemma fits_le bs bs' : (length bs ≤ length bs')%nat → fits bs' → fits bs.
Proof. unfold fits, len. lia. Qed.

Lemma unrecognized_nil {M} (fields : Z → option (fieldCase M)) : unrecognized_ok fields [].
Proof. exists []. by split. Qed.

(** Marshal succeeds with exactly Size bytes, and Unmarshal reads them back into
    a zero message, with any fuel above their number. *)
Definition roundtrips {M} (marshal : M → outcome (list Z)) (size : M → Z)
    (unmarshal : nat → list Z → M → run (M * option error)) (zero m : M) : Prop :=
  ∃ data, marshal m = Ok data ∧ len data = size m ∧
    ∀ fuel, (length data < fuel)%nat → unmarshal fuel data zero = Ret (m, None).

Lemma roundtrips_intro {M} (marshalTo : M → writer) size fields keep encode zero (m : M) :
  writes (marshalTo m) (encode m) → size m = len (encode m) → fits (encode m) →
  (∀ fuel, (length (encode m) < fuel)%nat → reads (fields fuel) keep fuel (encode m) zero m) →
  roundtrips (λ m, marshal (size m) (marshalTo m)) size
    (λ fuel data m, unmarshalLoop (fields fuel) keep fuel fuel data 0 m) zero m.
Proof.
  intros Hw Hs Hf Hr. exists (encode m). split_and!; [by apply marshal_writes|done|].
  intros fuel Hlt. apply reads_all; auto.
Qed.
