(* ===== verification/RaftpbCodec.v ===== *)
(** * RaftpbCodec: the wire format of raft messages (src/raft/raftpb/raft.pb.go)

    Unmarshal, Size, MarshalTo and Marshal of the six messages of the package, by
    the template of Wire.  [X_encode] is the reference encoding of a message [X]:
    MarshalTo writes it, Size is its length, and Unmarshal reads it back. *)

From S2P Require Import Prelude Raftpb Wire.

(** ** Info *)
Definition Info_fields (n : Z) : option (fieldCase Info) :=
  match n with
  | 1 => Some (varintField int64 Info_ID)
  | _ => None
  end.

Definition Info_keep (bs : list Z) (m : Info) : Info := m <| Info_XXX := Info_XXX m ++ bs |>.

Definition Info_Unmarshal (fuel : nat) (data : list Z) (m : Info) :=
  unmarshalLoop Info_fields Info_keep fuel fuel data 0 m.

Definition Info_Size (m : Info) : Z := (1 + sov (uint64 (Info_ID m))) + len (Info_XXX m).

Definition Info_MarshalTo (m : Info) : writer :=
  putVarint 0x8 (Info_ID m) ▷ putBytes (Info_XXX m).

Definition Info_Marshal (m : Info) : outcome (list Z) :=
  marshal (Info_Size m) (Info_MarshalTo m).

(** ** Entry *)
Definition Entry_fields (n : Z) : option (fieldCase Entry) :=
  match n with
  | 1 => Some (varintField int32 Entry_Type)
  | 2 => Some (varintField int64 Entry_Term)
  | 3 => Some (varintField int64 Entry_Index)
  | 4 => Some (bytesField int64 (λ bs m, Ret (m <| Entry_Data ::= (.++ bs) |>, None)))
  | _ => None
  end.

Definition Entry_keep (bs : list Z) (m : Entry) : Entry := m <| Entry_XXX := Entry_XXX m ++ bs |>.

Definition Entry_Unmarshal (fuel : nat) (data : list Z) (m : Entry) :=
  unmarshalLoop Entry_fields Entry_keep fuel fuel data 0 m.

Definition Entry_Size (m : Entry) : Z :=
  (1 + sov (uint64 (Entry_Type m))) + (1 + sov (uint64 (Entry_Term m)))
  + (1 + sov (uint64 (Entry_Index m)))
  + (1 + len (Entry_Data m) + sov (uint64 (len (Entry_Data m))))
  + len (Entry_XXX m).

Definition Entry_MarshalTo (m : Entry) : writer :=
  putVarint 0x8 (Entry_Type m) ▷ putVarint 0x10 (Entry_Term m)
  ▷ putVarint 0x18 (Entry_Index m) ▷ putLen 0x22 (Entry_Data m)
  ▷ putBytes (Entry_XXX m).

Definition Entry_Marshal (m : Entry) : outcome (list Z) :=
  marshal (Entry_Size m) (Entry_MarshalTo m).

(** ** Snapshot *)
Definition Snapshot_fields (n : Z) : option (fieldCase Snapshot) :=
  match n with
  | 1 => Some (bytesField int64 (λ bs m, Ret (m <| Snapshot_Data ::= (.++ bs) |>, None)))
  | 2 => Some (localVarint int64 (λ v m, m <| Snapshot_Nodes ::= (.++ [v]) |>))
  | 3 => Some (varintField int64 Snapshot_Index)
  | 4 => Some (varintField int64 Snapshot_Term)
  | _ => None
  end.

Definition Snapshot_keep (bs : list Z) (m : Snapshot) : Snapshot :=
  m <| Snapshot_XXX := Snapshot_XXX m ++ bs |>.

Definition Snapshot_Unmarshal (fuel : nat) (data : list Z) (m : Snapshot) :=
  unmarshalLoop Snapshot_fields Snapshot_keep fuel fuel data 0 m.

Definition Snapshot_Size (m : Snapshot) : Z :=
  (1 + len (Snapshot_Data m) + sov (uint64 (len (Snapshot_Data m))))
  + foldr (λ e n, (1 + sov (uint64 e)) + n) 0 (Snapshot_Nodes m)
  + (1 + sov (uint64 (Snapshot_Index m))) + (1 + sov (uint64 (Snapshot_Term m)))
  + len (Snapshot_XXX m).

(** The varint of a node id is written inline, over a signed integer. *)
Fixpoint putNodeLoop (fuel : nat) (num : Z) : writer :=
  match fuel with
  | O => λ _, Panic "fuel"
  | S fuel =>
      if num >=? 0x80
      then put (Z.lor (Z.land (uint64 num) 0x7F) 0x80) ▷ putNodeLoop fuel (Z.shiftr num 7)
      else put num
  end.
Definition putNode (num : Z) : writer := put 0x10 ▷ putNodeLoop 10 num.

Definition Snapshot_MarshalTo (m : Snapshot) : writer :=
  putLen 0xa (Snapshot_Data m) ▷ putEach putNode (Snapshot_Nodes m)
  ▷ putVarint 0x18 (Snapshot_Index m) ▷ putVarint 0x20 (Snapshot_Term m)
  ▷ putBytes (Snapshot_XXX m).

Definition Snapshot_Marshal (m : Snapshot) : outcome (list Z) :=
  marshal (Snapshot_Size m) (Snapshot_MarshalTo m).

(** ** Message *)

(** The error of an entry's Unmarshal is dropped; the entry keeps what was read. *)
Definition Message_entryField (fuel : nat) : fieldCase Message :=
  bytesField int64 (λ bs m,
    '(e, _) ← Entry_Unmarshal fuel bs zeroEntry;
    Ret (m <| Message_Entries ::= (.++ [e]) |>, None)).

Definition Message_snapshotField (fuel : nat) : fieldCase Message :=
  bytesField int64 (λ bs m,
    '(s, err) ← Snapshot_Unmarshal fuel bs (Message_Snapshot m);
    Ret (m <| Message_Snapshot := s |>, err)).

Definition Message_fields (fuel : nat) (n : Z) : option (fieldCase Message) :=
  match n with
  | 1 => Some (varintField int64 Message_Type)
  | 2 => Some (varintField int64 Message_To)
  | 3 => Some (varintField int64 Message_From)
  | 4 => Some (varintField int64 Message_Term)
  | 5 => Some (varintField int64 Message_LogTerm)
  | 6 => Some (varintField int64 Message_Index)
  | 7 => Some (Message_entryField fuel)
  | 8 => Some (varintField int64 Message_Commit)
  | 9 => Some (Message_snapshotField fuel)
  | 10 => Some (localVarint int64 (λ v m, m <| Message_Denied := negb (v =? 0) |>))
  | _ => None
  end.

Definition Message_keep (bs : list Z) (m : Message) : Message :=
  m <| Message_XXX := Message_XXX m ++ bs |>.

Definition Message_Unmarshal (fuel : nat) (data : list Z) (m : Message) :=
  unmarshalLoop (Message_fields fuel) Message_keep fuel fuel data 0 m.

Definition Message_Size (m : Message) : Z :=
  (1 + sov (uint64 (Message_Type m))) + (1 + sov (uint64 (Message_To m)))
  + (1 + sov (uint64 (Message_From m))) + (1 + sov (uint64 (Message_Term m)))
  + (1 + sov (uint64 (Message_LogTerm m))) + (1 + sov (uint64 (Message_Index m)))
  + foldr (λ e n, (1 + Entry_Size e + sov (uint64 (Entry_Size e))) + n) 0
      (Message_Entries m)
  + (1 + sov (uint64 (Message_Commit m)))
  + (1 + Snapshot_Size (Message_Snapshot m)
     + sov (uint64 (Snapshot_Size (Message_Snapshot m))))
  + 2 + len (Message_XXX m).

Definition Message_MarshalTo (m : Message) : writer :=
  putVarint 0x8 (Message_Type m) ▷ putVarint 0x10 (Message_To m)
  ▷ putVarint 0x18 (Message_From m) ▷ putVarint 0x20 (Message_Term m)
  ▷ putVarint 0x28 (Message_LogTerm m) ▷ putVarint 0x30 (Message_Index m)
  ▷ putEach (λ e, putMsg 0x3a (Entry_Size e) (Entry_MarshalTo e)) (Message_Entries m)
  ▷ putVarint 0x40 (Message_Commit m)
  ▷ putMsg 0x4a (Snapshot_Size (Message_Snapshot m)) (Snapshot_MarshalTo (Message_Snapshot m))
  ▷ putBool 0x50 (Message_Denied m) ▷ putBytes (Message_XXX m).

Definition Message_Marshal (m : Message) : outcome (list Z) :=
  marshal (Message_Size m) (Message_MarshalTo m).

(** ** HardState *)
Definition HardState_fields (n : Z) : option (fieldCase HardState) :=
  match n with
  | 1 => Some (varintField int64 HardState_Term)
  | 2 => Some (varintField int64 HardState_Vote)
  | 3 => Some (varintField int64 HardState_Commit)
  | _ => None
  end.

Definition HardState_keep (bs : list Z) (m : HardState) : HardState :=
  m <| HardState_XXX := HardState_XXX m ++ bs |>.

Definition HardState_Unmarshal (fuel : nat) (data : list Z) (m : HardState) :=
  unmarshalLoop HardState_fields HardState_keep fuel fuel data 0 m.

Definition HardState_Size (m : HardState) : Z :=
  (1 + sov (uint64 (HardState_Term m))) + (1 + sov (uint64 (HardState_Vote m)))
  + (1 + sov (uint64 (HardState_Commit m))) + len (HardState_XXX m).

Definition HardState_MarshalTo (m : HardState) : writer :=
  putVarint 0x8 (HardState_Term m) ▷ putVarint 0x10 (HardState_Vote m)
  ▷ putVarint 0x18 (HardState_Commit m) ▷ putBytes (HardState_XXX m).

Definition HardState_Marshal (m : HardState) : outcome (list Z) :=
  marshal (HardState_Size m) (HardState_MarshalTo m).

(** ** ConfChange *)
Definition ConfChange_fields (n : Z) : option (fieldCase ConfChange) :=
  match n with
  | 1 => Some (varintField int64 ConfChange_ID)
  | 2 => Some (varintField int32 ConfChange_Type)
  | 3 => Some (varintField int64 ConfChange_NodeID)
  | 4 => Some (bytesField int64 (λ bs m, Ret (m <| ConfChange_Context ::= (.++ bs) |>, None)))
  | _ => None
  end.

Definition ConfChange_keep (bs : list Z) (m : ConfChange) : ConfChange :=
  m <| ConfChange_XXX := ConfChange_XXX m ++ bs |>.

Definition ConfChange_Unmarshal (fuel : nat) (data : list Z) (m : ConfChange) :=
  unmarshalLoop ConfChange_fields ConfChange_keep fuel fuel data 0 m.

Definition ConfChange_Size (m : ConfChange) : Z :=
  (1 + sov (uint64 (ConfChange_ID m))) + (1 + sov (uint64 (ConfChange_Type m)))
  + (1 + sov (uint64 (ConfChange_NodeID m)))
  + (1 + len (ConfChange_Context m) + sov (uint64 (len (ConfChange_Context m))))
  + len (ConfChange_XXX m).

Definition ConfChange_MarshalTo (m : ConfChange) : writer :=
  putVarint 0x8 (ConfChange_ID m) ▷ putVarint 0x10 (ConfChange_Type m)
  ▷ putVarint 0x18 (ConfChange_NodeID m) ▷ putLen 0x22 (ConfChange_Context m)
  ▷ putBytes (ConfChange_XXX m).

Definition ConfChange_Marshal (m : ConfChange) : outcome (list Z) :=
  marshal (ConfChange_Size m) (ConfChange_MarshalTo m).

(** ** Reference encodings *)
Definition Info_encode (m : Info) : list Z := encVarint 0x8 (Info_ID m) ++ Info_XXX m.

Definition Entry_encode (m : Entry) : list Z :=
  encVarint 0x8 (Entry_Type m) ++ encVarint 0x10 (Entry_Term m)
  ++ encVarint 0x18 (Entry_Index m) ++ encBytes 0x22 (Entry_Data m) ++ Entry_XXX m.

Definition Snapshot_encode (m : Snapshot) : list Z :=
  encBytes 0xa (Snapshot_Data m) ++ concat (encVarint 0x10 <$> Snapshot_Nodes m)
  ++ encVarint 0x18 (Snapshot_Index m) ++ encVarint 0x20 (Snapshot_Term m)
  ++ Snapshot_XXX m.

Definition Message_encode (m : Message) : list Z :=
  encVarint 0x8 (Message_Type m) ++ encVarint 0x10 (Message_To m)
  ++ encVarint 0x18 (Message_From m) ++ encVarint 0x20 (Message_Term m)
  ++ encVarint 0x28 (Message_LogTerm m) ++ encVarint 0x30 (Message_Index m)
  ++ concat ((λ e, encBytes 0x3a (Entry_encode e)) <$> Message_Entries m)
  ++ encVarint 0x40 (Message_Commit m) ++ encBytes 0x4a (Snapshot_encode (Message_Snapshot m))
  ++ encBool 0x50 (Message_Denied m) ++ Message_XXX m.

Definition HardState_encode (m : HardState) : list Z :=
  encVarint 0x8 (HardState_Term m) ++ encVarint 0x10 (HardState_Vote m)
  ++ encVarint 0x18 (HardState_Commit m) ++ HardState_XXX m.

Definition ConfChange_encode (m : ConfChange) : list Z :=
  encVarint 0x8 (ConfChange_ID m) ++ encVarint 0x10 (ConfChange_Type m)
  ++ encVarint 0x18 (ConfChange_NodeID m) ++ encBytes 0x22 (ConfChange_Context m)
  ++ ConfChange_XXX m.

(** ** Well-formed messages: the fields are in the range of their type, and the
    unrecognized bytes are whole fields the message does not know.  The node ids
    of a snapshot are not negative (see [Snapshot_negative_node]). *)
Record Info_ok (m : Info) : Prop := {
  iok_ID : inS 64 (Info_ID m);
  iok_XXX : unrecognized_ok Info_fields (Info_XXX m);
}.

Record Entry_ok (m : Entry) : Prop := {
  eok_Type : inS 32 (Entry_Type m);
  eok_Term : inS 64 (Entry_Term m);
  eok_Index : inS 64 (Entry_Index m);
  eok_XXX : unrecognized_ok Entry_fields (Entry_XXX m);
}.

Definition nodes_ok (l : list Z) : Prop := Forall (λ v, 0 ≤ v < 2 ^ 63) l.

Record Snapshot_ok (m : Snapshot) : Prop := {
  sok_Nodes : nodes_ok (Snapshot_Nodes m);
  sok_Index : inS 64 (Snapshot_Index m);
  sok_Term : inS 64 (Snapshot_Term m);
  sok_XXX : unrecognized_ok Snapshot_fields (Snapshot_XXX m);
}.

Record Message_ok (m : Message) : Prop := {
  mok_Type : inS 64 (Message_Type m);
  mok_To : inS 64 (Message_To m);
  mok_From : inS 64 (Message_From m);
  mok_Term : inS 64 (Message_Term m);
  mok_LogTerm : inS 64 (Message_LogTerm m);
  mok_Index : inS 64 (Message_Index m);
  mok_Entries : Forall Entry_ok (Message_Entries m);
  mok_Commit : inS 64 (Message_Commit m);
  mok_Snapshot : Snapshot_ok (Message_Snapshot m);
  mok_XXX : unrecognized_ok (Message_fields 0) (Message_XXX m);
}.

Record HardState_ok (m : HardState) : Prop := {
  hok_Term : inS 64 (HardState_Term m);
  hok_Vote : inS 64 (HardState_Vote m);
  hok_Commit : inS 64 (HardState_Commit m);
  hok_XXX : unrecognized_ok HardState_fields (HardState_XXX m);
}.

Record ConfChange_ok (m : ConfChange) : Prop := {
  cok_ID : inS 64 (ConfChange_ID m);
  cok_Type : inS 32 (ConfChange_Type m);
  cok_NodeID : inS 64 (ConfChange_NodeID m);
  cok_XXX : unrecognized_ok ConfChange_fields (ConfChange_XXX m);
}.

#[local] Instance Info_XXX_laws : FieldLaws Info_XXX.
Proof. split; by intros []. Qed.
#[local] Instance Entry_XXX_laws : FieldLaws Entry_XXX.
Proof. split; by intros []. Qed.
#[local] Instance Snapshot_XXX_laws : FieldLaws Snapshot_XXX.
Proof. split; by intros []. Qed.
#[local] Instance Message_XXX_laws : FieldLaws Message_XXX.
Proof. split; by intros []. Qed.
#[local] Instance HardState_XXX_laws : FieldLaws HardState_XXX.
Proof. split; by intros []. Qed.
#[local] Instance ConfChange_XXX_laws : FieldLaws ConfChange_XXX.
Proof. split; by intros []. Qed.

(** ** Writing and sizes *)
Lemma Info_size m : Info_Size m = len (Info_encode m).
Proof. unfold Info_Size, Info_encode. size_solve. Qed.
Lemma Entry_size m : Entry_Size m = len (Entry_encode m).
Proof. unfold Entry_Size, Entry_encode. size_solve. Qed.
Lemma HardState_size m : HardState_Size m = len (HardState_encode m).
Proof. unfold HardState_Size, HardState_encode. size_solve. Qed.
Lemma ConfChange_size m : ConfChange_Size m = len (ConfChange_encode m).
Proof. unfold ConfChange_Size, ConfChange_encode. size_solve. Qed.

Lemma Snapshot_size m : Snapshot_Size m = len (Snapshot_encode m).
Proof.
  unfold Snapshot_Size, Snapshot_encode. size_solve.
  assert (∀ l, foldr (λ e n, 1 + sov (uint64 e) + n) 0 l =
    foldr (λ a n, len (encVarint 16 a) + n) 0 l) as ->; [|lia].
  induction l as [|e l IH]; simpl; [done|]. by rewrite IH, len_encVarint.
Qed.

Lemma Message_size m : Message_Size m = len (Message_encode m).
Proof.
  unfold Message_Size, Message_encode. rewrite encBool_varint. size_solve.
  assert (∀ l, foldr (λ e n, 1 + Entry_Size e + sov (uint64 (Entry_Size e)) + n) 0 l =
    foldr (λ a n, len (encBytes 58 (Entry_encode a)) + n) 0 l) as ->.
  { induction l as [|e l IH]; simpl; [done|]. by rewrite IH, len_encBytes, Entry_size. }
  rewrite !Snapshot_size.
  assert (sov (uint64 (if Message_Denied m then 1 else 0)) = 1) by by case_match.
  lia.
Qed.

Lemma Info_writes m : writes (Info_MarshalTo m) (Info_encode m).
Proof. unfold Info_MarshalTo, Info_encode. eauto 20 with etcd. Qed.
Lemma Entry_writes m : writes (Entry_MarshalTo m) (Entry_encode m).
Proof. unfold Entry_MarshalTo, Entry_encode. eauto 20 with etcd. Qed.
Lemma HardState_writes m : writes (HardState_MarshalTo m) (HardState_encode m).
Proof. unfold HardState_MarshalTo, HardState_encode. eauto 20 with etcd. Qed.
Lemma ConfChange_writes m : writes (ConfChange_MarshalTo m) (ConfChange_encode m).
Proof. unfold ConfChange_MarshalTo, ConfChange_encode. eauto 20 with etcd. Qed.

(** Over a non-negative id the inline loop is the varint loop. *)
Lemma putNodeLoop_varint n v s :
  0 ≤ v < 2 ^ 63 → putNodeLoop n v s = encodeVarintLoop n v s.
Proof.
  revert v s. induction n as [|n IH]; intros v s Hv; simpl; [done|].
  destruct (v >=? 128); [|done]. rewrite wrapU_id by (unfold inU; lia).
  unfold andThen. destruct (put _ s); simpl; [|done]. apply IH.
  rewrite Z.shiftr_div_pow2 by lia. split; [apply Z.div_pos; lia|].
  apply Z.div_lt_upper_bound; lia.
Qed.

Lemma putNode_writes v : 0 ≤ v < 2 ^ 63 → writes (putNode v) (encVarint 16 v).
Proof.
  intros Hv pre junk Hl. rewrite <-(writes_varint 16 v) by (done || unfold inU; lia).
  unfold putNode, putVarint, andThen. destruct (put 16 _); cbn [mbind outcome_bind]; [|done].
  rewrite putNodeLoop_varint by done. by rewrite wrapU_id by (unfold inU; lia).
Qed.

Lemma Snapshot_writes m :
  nodes_ok (Snapshot_Nodes m) → writes (Snapshot_MarshalTo m) (Snapshot_encode m).
Proof.
  intros Hn. unfold Snapshot_MarshalTo, Snapshot_encode.
  repeat apply writes_seq; eauto with etcd.
  apply writes_each. intros v Hv.
  by apply putNode_writes, (proj1 (Forall_forall _ _) Hn).
Qed.

Lemma Message_writes m :
  nodes_ok (Snapshot_Nodes (Message_Snapshot m)) →
  writes (Message_MarshalTo m) (Message_encode m).
Proof.
  intros Hn. unfold Message_MarshalTo, Message_encode.
  eauto 30 using Entry_writes, Entry_size, Snapshot_writes, Snapshot_size with etcd.
Qed.

(** ** Reading back *)
Lemma Info_reads fuel m :
  Info_ok m → (length (Info_XXX m) < fuel)%nat →
  reads Info_fields Info_keep fuel (Info_encode m) zeroInfo m.
Proof.
  intros [] Hlt. unfold Info_encode. read_fields. read_last Info_XXX. by destruct m.
Qed.

Lemma Entry_reads fuel m :
  Entry_ok m → (length (Entry_XXX m) < fuel)%nat →
  reads Entry_fields Entry_keep fuel (Entry_encode m) zeroEntry m.
Proof.
  intros [] Hlt. unfold Entry_encode. read_fields. read_last Entry_XXX. by destruct m.
Qed.

Lemma HardState_reads fuel m :
  HardState_ok m → (length (HardState_XXX m) < fuel)%nat →
  reads HardState_fields HardState_keep fuel (HardState_encode m) zeroHardState m.
Proof.
  intros [] Hlt. unfold HardState_encode. read_fields. read_last HardState_XXX.
  by destruct m.
Qed.

Lemma ConfChange_reads fuel m :
  ConfChange_ok m → (length (ConfChange_XXX m) < fuel)%nat →
  reads ConfChange_fields ConfChange_keep fuel (ConfChange_encode m) zeroConfChange m.
Proof.
  intros [] Hlt. unfold ConfChange_encode. read_fields. read_last ConfChange_XXX.
  by destruct m.
Qed.

Lemma foldl_nodes m l :
  foldl (λ m v, m <| Snapshot_Nodes ::= (.++ [v]) |>) m l = m <| Snapshot_Nodes ::= (.++ l) |>.
Proof.
  revert m. induction l as [|v l IH]; intros []; simpl.
  - unfold set, set_Snapshot_Nodes. simpl. by rewrite app_nil_r.
  - rewrite IH. unfold set, set_Snapshot_Nodes. simpl. by rewrite <-app_assoc.
Qed.

Lemma foldl_entries m l :
  foldl (λ m e, m <| Message_Entries ::= (.++ [e]) |>) m l = m <| Message_Entries ::= (.++ l) |>.
Proof.
  revert m. induction l as [|v l IH]; intros []; simpl.
  - unfold set, set_Message_Entries. simpl. by rewrite app_nil_r.
  - rewrite IH. unfold set, set_Message_Entries. simpl. by rewrite <-app_assoc.
Qed.

Lemma Snapshot_reads fuel m :
  Snapshot_ok m → (length (Snapshot_XXX m) < fuel)%nat →
  reads Snapshot_fields Snapshot_keep fuel (Snapshot_encode m) zeroSnapshot m.
Proof.
  intros [Hn ???] Hlt. unfold Snapshot_encode. read_fields.
  eapply reads_app.
  { apply (reads_list _ _ _ _ (λ m v, m <| Snapshot_Nodes ::= (.++ [v]) |>)).
    intros m' v Hv. notypeclasses refine (reads_encLocal _ _ _ _ _ _ _ _ _ _ _ _ _);
      [|constructor|reflexivity|reflexivity|]; [apply _|].
    unfold nodes_ok in Hn. rewrite Forall_forall in Hn. specialize (Hn v Hv).
    by rewrite int64_uint64 by (unfold inS; lia). }
  rewrite foldl_nodes. norm_message. read_fields. read_last Snapshot_XXX. by destruct m.
Qed.

Lemma Entry_Unmarshal_encode fuel m :
  Entry_ok m → fits (Entry_encode m) → (length (Entry_encode m) < fuel)%nat →
  Entry_Unmarshal fuel (Entry_encode m) zeroEntry = Ret (m, None).
Proof.
  intros Hok Hf Hlt. apply reads_all; [apply Entry_reads; [done|]|done|done].
  unfold Entry_encode in Hlt. rewrite !length_app in Hlt. lia.
Qed.

Lemma HardState_Unmarshal_encode fuel m :
  HardState_ok m → fits (HardState_encode m) → (length (HardState_encode m) < fuel)%nat →
  HardState_Unmarshal fuel (HardState_encode m) zeroHardState = Ret (m, None).
Proof.
  intros Hok Hf Hlt. apply reads_all; [apply HardState_reads; [done|]|done|done].
  unfold HardState_encode in Hlt. rewrite !length_app in Hlt. lia.
Qed.

Lemma Info_Unmarshal_encode fuel m :
  Info_ok m → fits (Info_encode m) → (length (Info_encode m) < fuel)%nat →
  Info_Unmarshal fuel (Info_encode m) zeroInfo = Ret (m, None).
Proof.
  intros Hok Hf Hlt. apply reads_all; [apply Info_reads; [done|]|done|done].
  unfold Info_encode in Hlt. rewrite !length_app in Hlt. lia.
Qed.

Lemma Snapshot_Unmarshal_encode fuel m :
  Snapshot_ok m → fits (Snapshot_encode m) → (length (Snapshot_encode m) < fuel)%nat →
  Snapshot_Unmarshal fuel (Snapshot_encode m) zeroSnapshot = Ret (m, None).
Proof.
  intros Hok Hf Hlt. apply reads_all; [apply Snapshot_reads; [done|]|done|done].
  unfold Snapshot_encode in Hlt. rewrite !length_app in Hlt. lia.
Qed.

Lemma Message_unrecognized f g xxx :
  unrecognized_ok (Message_fields f) xxx → unrecognized_ok (Message_fields g) xxx.
Proof.
  intros (cs & -> & Hcs). exists cs. split; [done|]. eapply Forall_impl; [exact Hcs|].
  intros c (w & body & Hc & Hw & Hf & Hs). exists w, body. split_and!; try done; try lia.
  unfold Message_fields in *. by repeat case_match.
Qed.

Lemma Message_reads fuel m :
  Message_ok m → fits (Message_encode m) → (length (Message_encode m) < fuel)%nat →
  reads (Message_fields fuel) Message_keep fuel (Message_encode m) zeroMessage m.
Proof.
  intros [?????? He ? Hs Hx] Hf Hlt.
  apply (Message_unrecognized _ fuel) in Hx.
  assert (∀ e, e ∈ Message_Entries m →
    Entry_Unmarshal fuel (Entry_encode e) zeroEntry = Ret (e, None)) as Hes.
  { intros e Hin. rewrite Forall_forall in He.
    assert (length (Entry_encode e) ≤ length (Message_encode m))%nat as Hle.
    { pose proof (length_encBytes 58 (Entry_encode e)).
      pose proof (length_concat_in (λ e, encBytes 58 (Entry_encode e)) _ _ Hin).
      unfold Message_encode. rewrite !length_app. simpl in *. lia. }
    apply Entry_Unmarshal_encode; [by apply He|by eapply fits_le|lia]. }
  assert (Snapshot_Unmarshal fuel (Snapshot_encode (Message_Snapshot m)) zeroSnapshot =
    Ret (Message_Snapshot m, None)) as Hsn.
  { assert (length (Snapshot_encode (Message_Snapshot m)) ≤ length (Message_encode m))%nat.
    { pose proof (length_encBytes 74 (Snapshot_encode (Message_Snapshot m))).
      unfold Message_encode. rewrite !length_app. lia. }
    apply Snapshot_Unmarshal_encode; [done|by eapply fits_le|lia]. }
  assert (length (Message_XXX m) < fuel)%nat as Hxl.
  { unfold Message_encode in Hlt. rewrite !length_app in Hlt. lia. }
  clear Hf Hlt. unfold Message_encode. rewrite encBool_varint. read_fields.
  eapply reads_app.
  { apply (reads_list _ _ _ _ (λ m e, m <| Message_Entries ::= (.++ [e]) |>)).
    intros m' e Hin. eapply reads_encBytes; [constructor|done|by auto|done|]. simpl.
    by rewrite (Hes e Hin). }
  rewrite foldl_entries. norm_message. read_fields.
  eapply reads_app.
  { eapply reads_encBytes; [constructor|done|by auto|done|]. simpl. rewrite Hsn. reflexivity. }
  norm_message. read_fields. read_last Message_XXX. by destruct m as [????????? []].
Qed.

(** ** Round trips *)

(** C32. A message that a peer marshals and sends is the one the other side decodes:
    Marshal never fails on a message whose fields are in range, produces exactly
    Size bytes, and Unmarshal of these bytes gives the message back, entries,
    snapshot and unrecognized bytes included. *)
Theorem Message_roundtrip m :
  Message_ok m → Message_Size m < 2 ^ 63 →
  roundtrips Message_Marshal Message_Size Message_Unmarshal zeroMessage m.
Proof.
  intros Hok Hf. rewrite Message_size in Hf.
  apply (roundtrips_intro Message_MarshalTo Message_Size Message_fields Message_keep
           Message_encode); [apply Message_writes, Hok|apply Message_size|done|].
  intros. by apply Message_reads.
Qed.

(** What a node stores comes back: an entry, a hard state, a snapshot, a
    configuration change and a node info are marshalled without failure into
    exactly Size bytes, which Unmarshal turns back into the same value. *)
Theorem stored_roundtrip :
  (∀ m, Entry_ok m → Entry_Size m < 2 ^ 63 →
     roundtrips Entry_Marshal Entry_Size Entry_Unmarshal zeroEntry m) ∧
  (∀ m, HardState_ok m → HardState_Size m < 2 ^ 63 →
     roundtrips HardState_Marshal HardState_Size HardState_Unmarshal zeroHardState m) ∧
  (∀ m, Snapshot_ok m → Snapshot_Size m < 2 ^ 63 →
     roundtrips Snapshot_Marshal Snapshot_Size Snapshot_Unmarshal zeroSnapshot m) ∧
  (∀ m, ConfChange_ok m → ConfChange_Size m < 2 ^ 63 →
     roundtrips ConfChange_Marshal ConfChange_Size ConfChange_Unmarshal zeroConfChange m) ∧
  (∀ m, Info_ok m → Info_Size m < 2 ^ 63 →
     roundtrips Info_Marshal Info_Size Info_Unmarshal zeroInfo m).
Proof.
  split_and!; intros m Hok Hf;
    rewrite ?Entry_size, ?HardState_size, ?Snapshot_size, ?ConfChange_size, ?Info_size in Hf.
  - apply (roundtrips_intro Entry_MarshalTo Entry_Size (λ _, Entry_fields) Entry_keep
      Entry_encode); auto using Entry_writes, Entry_size.
    intros fuel Hl. apply Entry_reads; [done|]. unfold Entry_encode in Hl.
    rewrite !length_app in Hl. lia.
  - apply (roundtrips_intro HardState_MarshalTo HardState_Size (λ _, HardState_fields)
      HardState_keep HardState_encode); auto using HardState_writes, HardState_size.
    intros fuel Hl. apply HardState_reads; [done|]. unfold HardState_encode in Hl.
    rewrite !length_app in Hl. lia.
  - apply (roundtrips_intro Snapshot_MarshalTo Snapshot_Size (λ _, Snapshot_fields)
      Snapshot_keep Snapshot_encode);
      [apply Snapshot_writes, Hok|apply Snapshot_size|done|].
    intros fuel Hl. apply Snapshot_reads; [done|]. unfold Snapshot_encode in Hl.
    rewrite !length_app in Hl. lia.
  - apply (roundtrips_intro ConfChange_MarshalTo ConfChange_Size (λ _, ConfChange_fields)
      ConfChange_keep ConfChange_encode); auto using ConfChange_writes, ConfChange_size.
    intros fuel Hl. apply ConfChange_reads; [done|]. unfold ConfChange_encode in Hl.
    rewrite !length_app in Hl. lia.
  - apply (roundtrips_intro Info_MarshalTo Info_Size (λ _, Info_fields) Info_keep
      Info_encode); auto using Info_writes, Info_size.
    intros fuel Hl. apply Info_reads; [done|]. unfold Info_encode in Hl.
    rewrite !length_app in Hl. lia.
Qed.

(** ** Messages that go wrong *)

(** A length that is negative as an int is not rejected.  In a known field it
    makes the slice expression panic; in an unknown field it can take Skip back to
    the start of the field, and Unmarshal then never returns. *)
Theorem Unmarshal_negative_length :
  (∀ fuel, Entry_Unmarshal (S fuel) (encVarint 0x22 (-1)) zeroEntry = Crash outOfRange) ∧
  (∀ fuel, Entry_Unmarshal fuel (encVarint 0x7a (-11)) zeroEntry = Loop).
Proof.
  split; [done|]. intros fuel. unfold Entry_Unmarshal.
  destruct fuel as [|fuel]; [done|].
  enough (∀ n, unmarshalLoop Entry_fields Entry_keep (S fuel) n (encVarint 0x7a (-11)) 0
                 zeroEntry = Loop) as Hn by apply Hn.
  intros n. induction n as [|n IH]; [done|]. etrans; [|exact IH]. reflexivity.
Qed.

(** A negative node id is not encoded as Size assumes: the bytes written for the
    id run into the next field, and the snapshot read back is another one. *)
Theorem Snapshot_negative_node :
  ∃ m data m' err, Forall (inS 64) (Snapshot_Nodes m) ∧
    Snapshot_Marshal m = Ok data ∧ len data < Snapshot_Size m ∧
    (∀ fuel, (length data < fuel)%nat →
       Snapshot_Unmarshal fuel data zeroSnapshot = Ret (m', err)) ∧ m' ≠ m.
Proof.
  exists (mkSnapshot [] [-1] 1 1 []), [10; 0; 16; 255; 24; 1; 32; 1],
    (mkSnapshot [] [3199] 0 0 []), (Some ErrUnexpectedEOF).
  split_and!; [by repeat constructor|by vm_compute|by vm_compute| |done].
  intros [|fuel] Hlt; [simpl in Hlt; lia|].
  apply (loop_mono _ _ _ 9); [reflexivity|exact Hlt].
Qed.

(** An error in an embedded entry is lost: Unmarshal of a message reports success
    although Unmarshal of the entry it holds fails. *)
Theorem Message_entry_error_dropped :
  ∃ bs e m, (∀ fuel, (length bs < fuel)%nat →
      Entry_Unmarshal fuel bs zeroEntry = Ret (e, Some ErrUnexpectedEOF)) ∧
    ∀ fuel, (length (encBytes 0x3a bs) < fuel)%nat →
      Message_Unmarshal fuel (encBytes 0x3a bs) zeroMessage = Ret (m, None).
Proof.
  exists [0x10; 0x80]. eexists _, _. split.
  - intros fuel Hlt. destruct fuel as [|fuel]; [simpl in Hlt; lia|]. reflexivity.
  - intros fuel Hlt. do 4 (destruct fuel as [|fuel]; [simpl in Hlt; lia|]). reflexivity.
Qed.

(** ** Witnesses *)
Definition wentry : Entry := mkEntry EntryConfChange 3 7 [1; 2; 3] [].
Definition wmessage : Message :=
  mkMessage 3 2 1 3 2 6 [wentry; zeroEntry] 5 (mkSnapshot [9] [1; 300] 4 2 []) true [0x78; 0x5].

Lemma wentry_ok : Entry_ok wentry.
Proof. split; [done..|apply unrecognized_nil]. Qed.

Lemma wmessage_ok : Message_ok wmessage.
Proof.
  split; try done.
  - repeat constructor; try done; apply unrecognized_nil.
  - split; try done; [by repeat constructor|apply unrecognized_nil].
  - exists [[0x78; 0x5]]. split; [done|]. constructor; [|constructor].
    exists 0x78, [0x5]. by split_and!.
Qed.

Lemma Message_roundtrip_witness :
  roundtrips Message_Marshal Message_Size Message_Unmarshal zeroMessage wmessage.
Proof. apply Message_roundtrip; [exact wmessage_ok|by vm_compute]. Defined.

Lemma stored_roundtrip_witness :
  roundtrips Entry_Marshal Entry_Size Entry_Unmarshal zeroEntry wentry.
Proof. apply (proj1 stored_roundtrip wentry); [exact wentry_ok|by vm_compute]. Defined.
