(* ===== verification/Walpb.v ===== *)
(** * Walpb: the records of the write-ahead log (src/wal/walpb)

    The message Record of record.pb.go with its codec, and record.go: the CRC of a
    record is a running checksum, checked by [Validate]. *)

From S2P Require Import Prelude Wire.

Record Record_ := mkRecord {
  Record_Type : Z;
  Record_Crc : Z;
  Record_Data : option (list Z);  (** nil or a slice *)
  Record_XXX : list Z;
}.
Definition zeroRecord : Record_ := mkRecord 0 0 None [].

#[export] Instance set_Record_Type : Setter Record_Type := λ f x,
  mkRecord (f (Record_Type x)) (Record_Crc x) (Record_Data x) (Record_XXX x).
#[export] Instance set_Record_Crc : Setter Record_Crc := λ f x,
  mkRecord (Record_Type x) (f (Record_Crc x)) (Record_Data x) (Record_XXX x).
#[export] Instance set_Record_Data : Setter Record_Data := λ f x,
  mkRecord (Record_Type x) (Record_Crc x) (f (Record_Data x)) (Record_XXX x).
#[export] Instance set_Record_XXX : Setter Record_XXX := λ f x,
  mkRecord (Record_Type x) (Record_Crc x) (Record_Data x) (f (Record_XXX x)).

#[export] Instance Record_eq_dec : EqDecision Record_.
Proof. solve_decision. Defined.

(** ** The codec *)
Definition Record_fields (n : Z) : option (fieldCase Record_) :=
  match n with
  | 1 => Some (varintField int64 Record_Type)
  | 2 => Some (varintField uint32 Record_Crc)
  | 3 => Some (bytesField int64 (λ bs m,
           Ret (m <| Record_Data := appendBytes (Record_Data m) bs |>, None)))
  | _ => None
  end.

Definition Record_keep (bs : list Z) (m : Record_) : Record_ :=
  m <| Record_XXX := Record_XXX m ++ bs |>.

Definition Record_Unmarshal (fuel : nat) (data : list Z) (m : Record_) :=
  unmarshalLoop Record_fields Record_keep fuel fuel data 0 m.

Definition Record_Size (m : Record_) : Z :=
  (1 + sov (uint64 (Record_Type m))) + (1 + sov (uint64 (Record_Crc m)))
  + sizeOptLen (Record_Data m) + len (Record_XXX m).

Definition Record_MarshalTo (m : Record_) : writer :=
  putVarint 0x8 (Record_Type m) ▷ putVarint 0x10 (Record_Crc m)
  ▷ putOptLen 0x1a (Record_Data m) ▷ putBytes (Record_XXX m).

Definition Record_Marshal (m : Record_) : outcome (list Z) :=
  marshal (Record_Size m) (Record_MarshalTo m).

(** ** Validation *)
Inductive recordError := ErrCRCMismatch.

(** [rec.Validate(crc)]: the record and the error. *)
Definition Validate (crc : Z) (rec : Record_) : Record_ * option recordError :=
  if Record_Crc rec =? crc then (rec, None)
  else (zeroRecord, Some ErrCRCMismatch).

(** ** Correctness of the codec *)
Definition Record_encode (m : Record_) : list Z :=
  encVarint 0x8 (Record_Type m) ++ encVarint 0x10 (Record_Crc m)
  ++ encOptBytes 0x1a (Record_Data m) ++ Record_XXX m.

Record Record_ok (m : Record_) : Prop := {
  rok_Type : inS 64 (Record_Type m);
  rok_Crc : inU 32 (Record_Crc m);
  rok_XXX : unrecognized_ok Record_fields (Record_XXX m);
}.

(** An empty slice is read back as nil. *)
Definition normData (o : option (list Z)) : option (list Z) :=
  match o with Some [] => None | _ => o end.

#[local] Instance Record_XXX_laws : FieldLaws Record_XXX.
Proof. split; by intros []. Qed.

Lemma Record_size m : Record_Size m = len (Record_encode m).
Proof. unfold Record_Size, Record_encode. size_solve. Qed.

Lemma Record_writes m : writes (Record_MarshalTo m) (Record_encode m).
Proof. unfold Record_MarshalTo, Record_encode. eauto 20 with etcd. Qed.

Lemma Record_reads fuel m :
  Record_ok m → (length (Record_XXX m) < fuel)%nat →
  reads Record_fields Record_keep fuel (Record_encode m) zeroRecord
    (m <| Record_Data ::= normData |>).
Proof.
  intros [] Hlt. unfold Record_encode. read_fields.
  destruct m as [t c [d|] x]; cbn [encOptBytes Record_Data].
  - read_fields. read_last Record_XXX. by destruct d.
  - eapply reads_app; [apply reads_nil|]. by read_last Record_XXX.
Qed.

Lemma Record_Unmarshal_encode fuel m :
  Record_ok m → fits (Record_encode m) → (length (Record_encode m) < fuel)%nat →
  Record_Unmarshal fuel (Record_encode m) zeroRecord =
  Ret (m <| Record_Data ::= normData |>, None).
Proof.
  intros Hok Hf Hlt. apply reads_all; [apply Record_reads; [done|]|done|done].
  unfold Record_encode in Hlt. rewrite !length_app in Hlt. lia.
Qed.

Lemma Record_Marshal_encode m : Record_Marshal m = Ok (Record_encode m).
Proof. apply marshal_writes; [apply Record_writes|apply Record_size]. Qed.
