(* ===== verification/Snappb.v ===== *)
(** * Snappb: the file format of a snapshot (src/snap/snappb/snap.pb.go) *)

From S2P Require Import Prelude Wire.

Module snappb.

Record Snapshot := mkSnapshot {
  Crc : Z;
  Data : option (list Z);  (** nil or a slice *)
  XXX : list Z;
}.
Definition zeroSnapshot : Snapshot := mkSnapshot 0 None [].

#[export] Instance set_Crc : Setter Crc := λ f x,
  mkSnapshot (f (Crc x)) (Data x) (XXX x).
#[export] Instance set_Data : Setter Data := λ f x,
  mkSnapshot (Crc x) (f (Data x)) (XXX x).
#[export] Instance set_XXX : Setter XXX := λ f x,
  mkSnapshot (Crc x) (Data x) (f (XXX x)).

(** ** The codec *)
Definition fields (n : Z) : option (fieldCase Snapshot) :=
  match n with
  | 1 => Some (varintField uint32 Crc)
  | 2 => Some (bytesField int64 (λ bs m, Ret (m <| Data := appendBytes (Data m) bs |>, None)))
  | _ => None
  end.

Definition keep (bs : list Z) (m : Snapshot) : Snapshot := m <| XXX := XXX m ++ bs |>.

Definition Unmarshal (fuel : nat) (data : list Z) (m : Snapshot) :=
  unmarshalLoop fields keep fuel fuel data 0 m.

Definition Size (m : Snapshot) : Z :=
  (1 + sov (uint64 (Crc m))) + sizeOptLen (Data m) + len (XXX m).

Definition MarshalTo (m : Snapshot) : writer :=
  putVarint 0x8 (Crc m) ▷ putOptLen 0x12 (Data m) ▷ putBytes (XXX m).

Definition Marshal (m : Snapshot) : outcome (list Z) := marshal (Size m) (MarshalTo m).

(** ** Correctness of the codec *)
Definition encode (m : Snapshot) : list Z :=
  encVarint 0x8 (Crc m) ++ encOptBytes 0x12 (Data m) ++ XXX m.

Record ok (m : Snapshot) : Prop := {
  ok_Crc : inU 32 (Crc m);
  ok_Data : Data m ≠ Some [];
  ok_XXX : unrecognized_ok fields (XXX m);
}.

#[local] Instance XXX_laws : FieldLaws XXX.
Proof. split; by intros []. Qed.

Lemma size_encode m : Size m = len (encode m).
Proof. unfold Size, encode. size_solve. Qed.

Lemma writes_encode m : writes (MarshalTo m) (encode m).
Proof. unfold MarshalTo, encode. eauto 20 with etcd. Qed.

Lemma Marshal_encode m : Marshal m = Ok (encode m).
Proof. apply marshal_writes; [apply writes_encode|apply size_encode]. Qed.

Lemma reads_encode fuel m :
  ok m → (length (XXX m) < fuel)%nat → reads fields keep fuel (encode m) zeroSnapshot m.
Proof.
  intros [] Hlt. unfold encode. read_fields.
  destruct m as [c [d|] x]; cbn [encOptBytes Data] in *.
  - read_fields. read_last XXX. by destruct d.
  - eapply reads_app; [apply reads_nil|]. by read_last XXX.
Qed.

Lemma Unmarshal_encode fuel m :
  ok m → fits (encode m) → (length (encode m) < fuel)%nat →
  Unmarshal fuel (encode m) zeroSnapshot = Ret (m, None).
Proof.
  intros Hok Hf Hlt. apply reads_all; [apply reads_encode; [done|]|done|done].
  unfold encode in Hlt. rewrite !length_app in Hlt. lia.
Qed.
End snappb.
