(* ===== verification/Etcdserverpb.v ===== *)
(** * Etcdserverpb: the requests of the server
    (src/etcdserver/etcdserverpb/etcdserver.pb.go)

    The message Request, which a server proposes to the cluster and applies once
    committed.  A string is a list of bytes. *)

From S2P Require Import Prelude Wire.

Record Request := mkRequest {
  Request_ID : Z;
  Request_Method : list Z;
  Request_Path : list Z;
  Request_Val : list Z;
  Request_Dir : bool;
  Request_PrevValue : list Z;
  Request_PrevIndex : Z;
  Request_PrevExist : option bool;  (** a *bool *)
  Request_Expiration : Z;
  Request_Wait : bool;
  Request_Since : Z;
  Request_Recursive : bool;
  Request_Sorted : bool;
  Request_Quorum : bool;
  Request_Time : Z;
  Request_Stream : bool;
  Request_XXX : list Z;
}.
Definition zeroRequest : Request :=
  mkRequest 0 [] [] [] false [] 0 None 0 false 0 false false false 0 false [].

#[export] Instance set_Request_ID : Setter Request_ID := λ f x,
  mkRequest (f (Request_ID x)) (Request_Method x) (Request_Path x) (Request_Val x)
    (Request_Dir x) (Request_PrevValue x) (Request_PrevIndex x) (Request_PrevExist x)
    (Request_Expiration x) (Request_Wait x) (Request_Since x) (Request_Recursive x)
    (Request_Sorted x) (Request_Quorum x) (Request_Time x) (Request_Stream x)
    (Request_XXX x).
#[export] Instance set_Request_Method : Setter Request_Method := λ f x,
  mkRequest (Request_ID x) (f (Request_Method x)) (Request_Path x) (Request_Val x)
    (Request_Dir x) (Request_PrevValue x) (Request_PrevIndex x) (Request_PrevExist x)
    (Request_Expiration x) (Request_Wait x) (Request_Since x) (Request_Recursive x)
    (Request_Sorted x) (Request_Quorum x) (Request_Time x) (Request_Stream x)
    (Request_XXX x).
#[export] Instance set_Request_Path : Setter Request_Path := λ f x,
  mkRequest (Request_ID x) (Request_Method x) (f (Request_Path x)) (Request_Val x)
    (Request_Dir x) (Request_PrevValue x) (Request_PrevIndex x) (Request_PrevExist x)
    (Request_Expiration x) (Request_Wait x) (Request_Since x) (Request_Recursive x)
    (Request_Sorted x) (Request_Quorum x) (Request_Time x) (Request_Stream x)
    (Request_XXX x).
#[export] Instance set_Request_Val : Setter Request_Val := λ f x,
  mkRequest (Request_ID x) (Request_Method x) (Request_Path x) (f (Request_Val x))
    (Request_Dir x) (Request_PrevValue x) (Request_PrevIndex x) (Request_PrevExist x)
    (Request_Expiration x) (Request_Wait x) (Request_Since x) (Request_Recursive x)
    (Request_Sorted x) (Request_Quorum x) (Request_Time x) (Request_Stream x)
    (Request_XXX x).
#[export] Instance set_Request_Dir : Setter Request_Dir := λ f x,
  mkRequest (Request_ID x) (Request_Method x) (Request_Path x) (Request_Val x) (f
    (Request_Dir x)) (Request_PrevValue x) (Request_PrevIndex x) (Request_PrevExist x)
    (Request_Expiration x) (Request_Wait x) (Request_Since x) (Request_Recursive x)
    (Request_Sorted x) (Request_Quorum x) (Request_Time x) (Request_Stream x)
    (Request_XXX x).
#[export] Instance set_Request_PrevValue : Setter Request_PrevValue := λ f x,
  mkRequest (Request_ID x) (Request_Method x) (Request_Path x) (Request_Val x)
    (Request_Dir x) (f (Request_PrevValue x)) (Request_PrevIndex x) (Request_PrevExist
    x) (Request_Expiration x) (Request_Wait x) (Request_Since x) (Request_Recursive x)
    (Request_Sorted x) (Request_Quorum x) (Request_Time x) (Request_Stream x)
    (Request_XXX x).
#[export] Instance set_Request_PrevIndex : Setter Request_PrevIndex := λ f x,
  mkRequest (Request_ID x) (Request_Method x) (Request_Path x) (Request_Val x)
    (Request_Dir x) (Request_PrevValue x) (f (Request_PrevIndex x)) (Request_PrevExist
    x) (Request_Expiration x) (Request_Wait x) (Request_Since x) (Request_Recursive x)
    (Request_Sorted x) (Request_Quorum x) (Request_Time x) (Request_Stream x)
    (Request_XXX x).
#[export] Instance set_Request_PrevExist : Setter Request_PrevExist := λ f x,
  mkRequest (Request_ID x) (Request_Method x) (Request_Path x) (Request_Val x)
    (Request_Dir x) (Request_PrevValue x) (Request_PrevIndex x) (f (Request_PrevExist
    x)) (Request_Expiration x) (Request_Wait x) (Request_Since x) (Request_Recursive x)
    (Request_Sorted x) (Request_Quorum x) (Request_Time x) (Request_Stream x)
    (Request_XXX x).
#[export] Instance set_Request_Expiration : Setter Request_Expiration := λ f x,
  mkRequest (Request_ID x) (Request_Method x) (Request_Path x) (Request_Val x)
    (Request_Dir x) (Request_PrevValue x) (Request_PrevIndex x) (Request_PrevExist x) (f
    (Request_Expiration x)) (Request_Wait x) (Request_Since x) (Request_Recursive x)
    (Request_Sorted x) (Request_Quorum x) (Request_Time x) (Request_Stream x)
    (Request_XXX x).
#[export] Instance set_Request_Wait : Setter Request_Wait := λ f x,
  mkRequest (Request_ID x) (Request_Method x) (Request_Path x) (Request_Val x)
    (Request_Dir x) (Request_PrevValue x) (Request_PrevIndex x) (Request_PrevExist x)
    (Request_Expiration x) (f (Request_Wait x)) (Request_Since x) (Request_Recursive x)
    (Request_Sorted x) (Request_Quorum x) (Request_Time x) (Request_Stream x)
    (Request_XXX x).
#[export] Instance set_Request_Since : Setter Request_Since := λ f x,
  mkRequest (Request_ID x) (Request_Method x) (Request_Path x) (Request_Val x)
    (Request_Dir x) (Request_PrevValue x) (Request_PrevIndex x) (Request_PrevExist x)
    (Request_Expiration x) (Request_Wait x) (f (Request_Since x)) (Request_Recursive x)
    (Request_Sorted x) (Request_Quorum x) (Request_Time x) (Request_Stream x)
    (Request_XXX x).
#[export] Instance set_Request_Recursive : Setter Request_Recursive := λ f x,
  mkRequest (Request_ID x) (Request_Method x) (Request_Path x) (Request_Val x)
    (Request_Dir x) (Request_PrevValue x) (Request_PrevIndex x) (Request_PrevExist x)
    (Request_Expiration x) (Request_Wait x) (Request_Since x) (f (Request_Recursive x))
    (Request_Sorted x) (Request_Quorum x) (Request_Time x) (Request_Stream x)
    (Request_XXX x).
#[export] Instance set_Request_Sorted : Setter Request_Sorted := λ f x,
  mkRequest (Request_ID x) (Request_Method x) (Request_Path x) (Request_Val x)
    (Request_Dir x) (Request_PrevValue x) (Request_PrevIndex x) (Request_PrevExist x)
    (Request_Expiration x) (Request_Wait x) (Request_Since x) (Request_Recursive x) (f
    (Request_Sorted x)) (Request_Quorum x) (Request_Time x) (Request_Stream x)
    (Request_XXX x).
#[export] Instance set_Request_Quorum : Setter Request_Quorum := λ f x,
  mkRequest (Request_ID x) (Request_Method x) (Request_Path x) (Request_Val x)
    (Request_Dir x) (Request_PrevValue x) (Request_PrevIndex x) (Request_PrevExist x)
    (Request_Expiration x) (Request_Wait x) (Request_Since x) (Request_Recursive x)
    (Request_Sorted x) (f (Request_Quorum x)) (Request_Time x) (Request_Stream x)
    (Request_XXX x).
#[export] Instance set_Request_Time : Setter Request_Time := λ f x,
  mkRequest (Request_ID x) (Request_Method x) (Request_Path x) (Request_Val x)
    (Request_Dir x) (Request_PrevValue x) (Request_PrevIndex x) (Request_PrevExist x)
    (Request_Expiration x) (Request_Wait x) (Request_Since x) (Request_Recursive x)
    (Request_Sorted x) (Request_Quorum x) (f (Request_Time x)) (Request_Stream x)
    (Request_XXX x).
#[export] Instance set_Request_Stream : Setter Request_Stream := λ f x,
  mkRequest (Request_ID x) (Request_Method x) (Request_Path x) (Request_Val x)
    (Request_Dir x) (Request_PrevValue x) (Request_PrevIndex x) (Request_PrevExist x)
    (Request_Expiration x) (Request_Wait x) (Request_Since x) (Request_Recursive x)
    (Request_Sorted x) (Request_Quorum x) (Request_Time x) (f (Request_Stream x))
    (Request_XXX x).
#[export] Instance set_Request_XXX : Setter Request_XXX := λ f x,
  mkRequest (Request_ID x) (Request_Method x) (Request_Path x) (Request_Val x)
    (Request_Dir x) (Request_PrevValue x) (Request_PrevIndex x) (Request_PrevExist x)
    (Request_Expiration x) (Request_Wait x) (Request_Since x) (Request_Recursive x)
    (Request_Sorted x) (Request_Quorum x) (Request_Time x) (Request_Stream x) (f
    (Request_XXX x)).

#[export] Instance Request_eq_dec : EqDecision Request.
Proof. solve_decision. Defined.

(** ** The codec *)
Definition stringField (proj : Request → list Z) `{!Setter proj} : fieldCase Request :=
  bytesField uint64 (λ bs m, Ret (m <| proj := bs |>, None)).
Definition boolField (proj : Request → bool) `{!Setter proj} : fieldCase Request :=
  localVarint int64 (λ v m, m <| proj := negb (v =? 0) |>).

Definition Request_fields (n : Z) : option (fieldCase Request) :=
  match n with
  | 1 => Some (varintField int64 Request_ID)
  | 2 => Some (stringField Request_Method)
  | 3 => Some (stringField Request_Path)
  | 4 => Some (stringField Request_Val)
  | 5 => Some (boolField Request_Dir)
  | 6 => Some (stringField Request_PrevValue)
  | 7 => Some (varintField uint64 Request_PrevIndex)
  | 8 => Some (localVarint int64 (λ v m, m <| Request_PrevExist := Some (negb (v =? 0)) |>))
  | 9 => Some (varintField int64 Request_Expiration)
  | 10 => Some (boolField Request_Wait)
  | 11 => Some (varintField uint64 Request_Since)
  | 12 => Some (boolField Request_Recursive)
  | 13 => Some (boolField Request_Sorted)
  | 14 => Some (boolField Request_Quorum)
  | 15 => Some (varintField int64 Request_Time)
  | 16 => Some (boolField Request_Stream)
  | _ => None
  end.

Definition Request_keep (bs : list Z) (m : Request) : Request :=
  m <| Request_XXX := Request_XXX m ++ bs |>.

Definition Request_Unmarshal (fuel : nat) (data : list Z) (m : Request) :=
  unmarshalLoop Request_fields Request_keep fuel fuel data 0 m.

Definition sizeString (s : list Z) : Z := 1 + len s + sov (uint64 (len s)).

Definition Request_Size (m : Request) : Z :=
  (1 + sov (uint64 (Request_ID m))) + sizeString (Request_Method m)
  + sizeString (Request_Path m) + sizeString (Request_Val m) + 2
  + sizeString (Request_PrevValue m) + (1 + sov (uint64 (Request_PrevIndex m)))
  + match Request_PrevExist m with Some _ => 2 | None => 0 end
  + (1 + sov (uint64 (Request_Expiration m))) + 2
  + (1 + sov (uint64 (Request_Since m))) + 2 + 2 + 2
  + (1 + sov (uint64 (Request_Time m))) + 3 + len (Request_XXX m).

Definition Request_MarshalTo (m : Request) : writer :=
  putVarint 0x8 (Request_ID m) ▷ putLen 0x12 (Request_Method m)
  ▷ putLen 0x1a (Request_Path m) ▷ putLen 0x22 (Request_Val m)
  ▷ putBool 0x28 (Request_Dir m) ▷ putLen 0x32 (Request_PrevValue m)
  ▷ putVarint 0x38 (Request_PrevIndex m)
  ▷ match Request_PrevExist m with Some b => putBool 0x40 b | None => Ok end
  ▷ putVarint 0x48 (Request_Expiration m) ▷ putBool 0x50 (Request_Wait m)
  ▷ putVarint 0x58 (Request_Since m) ▷ putBool 0x60 (Request_Recursive m)
  ▷ putBool 0x68 (Request_Sorted m) ▷ putBool 0x70 (Request_Quorum m)
  ▷ putVarint 0x78 (Request_Time m)
  ▷ put 0x80 ▷ putBool 0x1 (Request_Stream m)
  ▷ putBytes (Request_XXX m).

Definition Request_Marshal (m : Request) : outcome (list Z) :=
  marshal (Request_Size m) (Request_MarshalTo m).

(** ** Correctness of the codec *)
Definition Request_encode (m : Request) : list Z :=
  encVarint 0x8 (Request_ID m) ++ encBytes 0x12 (Request_Method m)
  ++ encBytes 0x1a (Request_Path m) ++ encBytes 0x22 (Request_Val m)
  ++ encBool 0x28 (Request_Dir m) ++ encBytes 0x32 (Request_PrevValue m)
  ++ encVarint 0x38 (Request_PrevIndex m)
  ++ match Request_PrevExist m with Some b => encBool 0x40 b | None => [] end
  ++ encVarint 0x48 (Request_Expiration m) ++ encBool 0x50 (Request_Wait m)
  ++ encVarint 0x58 (Request_Since m) ++ encBool 0x60 (Request_Recursive m)
  ++ encBool 0x68 (Request_Sorted m) ++ encBool 0x70 (Request_Quorum m)
  ++ encVarint 0x78 (Request_Time m)
  ++ (varint 0x80 ++ varint (if Request_Stream m then 1 else 0)) ++ Request_XXX m.

Record Request_ok (m : Request) : Prop := {
  qok_ID : inS 64 (Request_ID m);
  qok_PrevIndex : inU 64 (Request_PrevIndex m);
  qok_Expiration : inS 64 (Request_Expiration m);
  qok_Since : inU 64 (Request_Since m);
  qok_Time : inS 64 (Request_Time m);
  qok_XXX : unrecognized_ok Request_fields (Request_XXX m);
}.

#[local] Instance Request_XXX_laws : FieldLaws Request_XXX.
Proof. split; by intros []. Qed.

Lemma len_encBool tag b : len (encBool tag b) = 2.
Proof. done. Qed.

Lemma Request_size m : Request_Size m = len (Request_encode m).
Proof.
  unfold Request_Size, Request_encode, sizeString.
  rewrite ?len_app, ?len_encVarint, ?len_encBytes, ?len_encBool.
  assert (∀ b : bool, len (varint (if b then 1 else 0)) = 1) as -> by by intros [].
  change (len (varint 128)) with 2.
  destruct (Request_PrevExist m); rewrite ?len_encBool; change (len []) with 0; lia.
Qed.

Lemma Request_writes m : writes (Request_MarshalTo m) (Request_encode m).
Proof.
  unfold Request_MarshalTo, Request_encode.
  do 7 (apply writes_seq; [eauto with etcd|]).
  apply writes_seq; [destruct (Request_PrevExist m); [eauto with etcd|apply writes_nil]|].
  do 7 (apply writes_seq; [eauto with etcd|]).
  change (varint 128) with ([128] ++ [1]). rewrite <-!app_assoc.
  apply writes_seq; [apply writes_put; unfold inU; lia|]. rewrite app_assoc.
  apply writes_seq; [|apply writes_bytes].
  assert ([1] ++ varint (if Request_Stream m then 1 else 0) =
    encBool 1 (Request_Stream m)) as -> by by destruct (Request_Stream m).
  eauto with etcd.
Qed.

(** The tag of field 16 takes two bytes. *)
Lemma reads_stream fuel v m :
  reads Request_fields Request_keep fuel (varint 0x80 ++ varint v) m
    (m <| Request_Stream := negb (int64 (uint64 v) =? 0) |>).
Proof.
  eapply reads_field; [lia|reflexivity|].
  change (Z.land 128 7) with 0. apply (decodes_local int64).
Qed.

Lemma Request_reads fuel m :
  Request_ok m → (length (Request_XXX m) < fuel)%nat →
  reads Request_fields Request_keep fuel (Request_encode m) zeroRequest m.
Proof.
  intros [] Hlt. unfold Request_encode.
  destruct (Request_PrevExist m) as [b|] eqn:E; rewrite ?(app_nil_l (encVarint _ _ ++ _)),
    !encBool_varint; read_fields; (eapply reads_app; [apply reads_stream|]);
    read_last Request_XXX; destruct m; simpl in E; by subst.
Qed.

Lemma Request_codec m :
  Request_ok m → Request_Size m < 2 ^ 63 →
  roundtrips Request_Marshal Request_Size Request_Unmarshal zeroRequest m.
Proof.
  intros Hok Hf. rewrite Request_size in Hf.
  apply (roundtrips_intro Request_MarshalTo Request_Size (λ _, Request_fields) Request_keep
    Request_encode); auto using Request_writes, Request_size.
  intros fuel Hl. apply Request_reads; [done|]. unfold Request_encode in Hl.
  rewrite !length_app in Hl. lia.
Qed.

(** A request proposed by one server is the request every server applies:
    Marshal never fails, produces exactly Size bytes, and Unmarshal gives the
    request back, the optional PrevExist and unrecognized bytes included. *)
Theorem Request_roundtrip m :
  Request_ok m → Request_Size m < 2 ^ 63 →
  roundtrips Request_Marshal Request_Size Request_Unmarshal zeroRequest m.
Proof. apply Request_codec. Qed.

(** ** Witness *)
Definition wrequest : Request :=
  mkRequest (-5) [80; 85; 84] [47; 97] [] false [120] 7 (Some false) 0 true 300 false true
    false (-1) true [].

Lemma wrequest_ok : Request_ok wrequest.
Proof. split; [done..|apply unrecognized_nil]. Qed.

Lemma Request_roundtrip_witness :
  roundtrips Request_Marshal Request_Size Request_Unmarshal zeroRequest wrequest.
Proof. apply Request_roundtrip; [exact wrequest_ok|by vm_compute]. Defined.
