(* ===== verification/Crc.v ===== *)
(** * Crc: the running checksum (src/pkg/crc/crc.go)

    The digest of pkg/crc is a CRC-32 that starts from a given value; the log and
    the snapshots use the Castagnoli polynomial.  [Update] is crc32.Update of Go's
    hash/crc32 over the table of that polynomial. *)

From S2P Require Import Prelude.

(** ** hash/crc32 *)

(** The Castagnoli polynomial, bit-reversed. *)
Definition castagnoli : Z := 0x82F63B78.

(** One bit of the table construction. *)
Definition tableBit (c : Z) : Z :=
  if Z.testbit c 0 then Z.lxor (Z.shiftr c 1) castagnoli else Z.shiftr c 1.
Definition tableEntry (i : Z) : Z := Nat.iter 8 tableBit i.

(** [crc32.MakeTable(crc32.Castagnoli)]. *)
Definition crcTable : list Z := tableEntry <$> seqZ 0 256.

Definition tab (i : Z) : Z := crcTable !!! Z.to_nat i.

Definition updateByte (c v : Z) : Z :=
  Z.lxor (tab (Z.lxor (uint8 c) v)) (Z.shiftr c 8).

(** [^crc] on uint32. *)
Definition not32 (c : Z) : Z := Z.lxor c (2 ^ 32 - 1).

Definition Update (c : Z) (p : list Z) : Z := not32 (foldl updateByte (not32 c) p).

(** ** The digest *)
Record digest := mkDigest { d_crc : Z }.

Definition New (prev : Z) : digest := mkDigest prev.
Definition Reset (d : digest) : digest := mkDigest 0.
Definition Write (p : list Z) (d : digest) : digest := mkDigest (Update (d_crc d) p).
Definition Sum32 (d : digest) : Z := d_crc d.
(** The checksum appended to [in_], big end first. *)
Definition Sum (in_ : list Z) (d : digest) : list Z :=
  let s := Sum32 d in
  in_ ++ [uint8 (Z.shiftr s 24); uint8 (Z.shiftr s 16); uint8 (Z.shiftr s 8); uint8 s].

(** ** Chaining *)
Lemma not32_not32 c : not32 (not32 c) = c.
Proof. unfold not32. by rewrite Z.lxor_assoc, Z.lxor_nilpotent, Z.lxor_0_r. Qed.

Lemma Update_app c p1 p2 : Update c (p1 ++ p2) = Update (Update c p1) p2.
Proof. unfold Update. by rewrite foldl_app, not32_not32. Qed.

Lemma Update_nil c : Update c [] = c.
Proof. apply not32_not32. Qed.

(** The check value of the polynomial: the checksum of the digits 1 to 9. *)
Example Update_check : Update 0 (seqZ 49 9) = 0xE3069283.
Proof. by vm_compute. Qed.

(** ** What the checksum detects *)

(** The leading byte of a table entry identifies it. *)
Lemma crcTable_lead :
  NoDup ((λ e, Z.shiftr e 24) <$> crcTable) ∧ Forall (inU 32) crcTable.
Proof.
  split; [apply (bool_decide_unpack _); by vm_compute|].
  change (Forall (λ e, 0 ≤ e ∧ e < 2 ^ 32) crcTable).
  apply (bool_decide_unpack _). by vm_compute.
Qed.

Lemma tab_lookup i : inU 8 i → crcTable !! Z.to_nat i = Some (tab i).
Proof.
  intros [Hlo Hhi]. unfold tab. apply list_lookup_lookup_total_lt.
  change (length crcTable) with 256%nat. lia.
Qed.

Lemma tab_range i : inU 8 i → inU 32 (tab i).
Proof.
  intros Hi. apply (proj1 (Forall_forall _ _) (proj2 crcTable_lead)).
  by eapply list_elem_of_lookup_2, tab_lookup.
Qed.

Lemma tab_lead_inj i j :
  inU 8 i → inU 8 j → Z.shiftr (tab i) 24 = Z.shiftr (tab j) 24 → i = j.
Proof.
  intros Hi Hj He. apply tab_lookup in Hi as Hi'. apply tab_lookup in Hj as Hj'.
  assert (Z.to_nat i = Z.to_nat j) as Hij.
  { eapply (NoDup_lookup _ _ _ _ (proj1 crcTable_lead)); rewrite list_lookup_fmap.
    - rewrite Hi'. reflexivity.
    - rewrite Hj'. simpl. by rewrite He. }
  unfold inU in *. lia.
Qed.

(** Bits above the width are zero. *)
Lemma inU_bits w z : 0 ≤ w → inU w z ↔ 0 ≤ z ∧ ∀ i, w ≤ i → Z.testbit z i = false.
Proof.
  intros Hw. split.
  - intros [Hlo Hhi]. split; [done|]. intros i Hi.
    rewrite <-(Z.mod_small z (2 ^ w)) by lia. apply Z.mod_pow2_bits_high. lia.
  - intros [Hlo Hb]. split; [done|].
    assert (z = z mod 2 ^ w) as ->; [|apply Z.mod_pos_bound, Z.pow_pos_nonneg; lia].
    apply Z.bits_inj'. intros i Hi. destruct (Z.ltb_spec i w).
    + by rewrite Z.mod_pow2_bits_low.
    + by rewrite Z.mod_pow2_bits_high, Hb by lia.
Qed.

Lemma lxor_range w a b : 0 ≤ w → inU w a → inU w b → inU w (Z.lxor a b).
Proof.
  intros Hw Ha%inU_bits Hb%inU_bits; [|done..]. destruct Ha as [Ha0 Ha], Hb as [Hb0 Hb].
  apply inU_bits; [done|]. split; [by apply Z.lxor_nonneg|].
  intros i Hi. rewrite Z.lxor_spec, Ha, Hb by done. done.
Qed.

Lemma shiftr_range w k a : 0 ≤ k → inU w a → inU w (Z.shiftr a k).
Proof.
  intros Hk [Hlo Hhi]. rewrite Z.shiftr_div_pow2 by done.
  assert (0 < 2 ^ k) by (apply Z.pow_pos_nonneg; lia).
  split; [by apply Z.div_pos|]. apply Z.div_lt_upper_bound; nia.
Qed.

Lemma uint8_range c : inU 8 (uint8 c).
Proof. apply Z.mod_pos_bound. lia. Qed.

Lemma updateByte_range c v : inU 32 c → inU 8 v → inU 32 (updateByte c v).
Proof.
  intros. apply lxor_range; [lia| |apply shiftr_range; [lia|done]].
  apply tab_range, lxor_range; [lia|apply uint8_range|done].
Qed.

(** A byte shifted in puts the leading bits of the state and the table index
    beyond doubt: two states that agree above bit [8 * k] come from states that
    agree above bit [8 * (k + 1)], through the same table entry. *)
Lemma updateByte_back k c c' v v' :
  0 ≤ k ≤ 3 → inU 32 c → inU 32 c' → inU 8 v → inU 8 v' →
  Z.shiftr (updateByte c v) (8 * k) = Z.shiftr (updateByte c' v') (8 * k) →
  Z.lxor (uint8 c) v = Z.lxor (uint8 c') v' ∧
  Z.shiftr c (8 * (k + 1)) = Z.shiftr c' (8 * (k + 1)).
Proof.
  intros Hk Hc Hc' Hv Hv' He.
  assert (∀ c v, inU 32 c → inU 8 v →
    Z.shiftr (updateByte c v) 24 = Z.shiftr (tab (Z.lxor (uint8 c) v)) 24) as Hlead.
  { intros d w Hd Hw. unfold updateByte. rewrite Z.shiftr_lxor, Z.shiftr_shiftr by lia.
    rewrite (Z.shiftr_div_pow2 d) by lia. unfold inU in Hd.
    rewrite (Z.div_small d) by lia. apply Z.lxor_0_r. }
  assert (Z.lxor (uint8 c) v = Z.lxor (uint8 c') v') as Hi.
  { apply tab_lead_inj; try (apply lxor_range; [lia|apply uint8_range|done]).
    rewrite <-!Hlead by done. apply (f_equal (λ z, Z.shiftr z (24 - 8 * k))) in He.
    rewrite !Z.shiftr_shiftr in He by lia. by replace (8 * k + (24 - 8 * k)) with 24 in He by lia. }
  split; [done|]. unfold updateByte in He. rewrite Hi, !Z.shiftr_lxor in He.
  apply (f_equal (Z.lxor (Z.shiftr (tab (Z.lxor (uint8 c') v')) (8 * k)))) in He.
  rewrite <-!Z.lxor_assoc, !Z.lxor_nilpotent, !Z.lxor_0_l, !Z.shiftr_shiftr in He by lia.
  by replace (8 * (k + 1)) with (8 + 8 * k) by lia.
Qed.

Lemma foldl_range c p : inU 32 c → bytes p → inU 32 (foldl updateByte c p).
Proof.
  intros Hc Hp. revert c Hc. induction Hp as [|v p Hv Hp IH]; intros c Hc; simpl; [done|].
  by apply IH, updateByte_range.
Qed.

Lemma split_byte c : c = uint8 c + 256 * Z.shiftr c 8.
Proof.
  rewrite Z.shiftr_div_pow2 by lia. unfold wrapU. pose proof (Z.div_mod c (2 ^ 8)). lia.
Qed.

Lemma lxor_cancel_l a b c : Z.lxor a b = Z.lxor a c → b = c.
Proof.
  intros He%(f_equal (Z.lxor a)).
  by rewrite <-!Z.lxor_assoc, !Z.lxor_nilpotent, !Z.lxor_0_l in He.
Qed.

Lemma lxor_cancel_r a b c : Z.lxor b a = Z.lxor c a → b = c.
Proof. rewrite !(Z.lxor_comm _ a). apply lxor_cancel_l. Qed.

(** Different states stay different under the same bytes. *)
Lemma foldl_state_inj c c' p :
  inU 32 c → inU 32 c' → bytes p →
  foldl updateByte c p = foldl updateByte c' p → c = c'.
Proof.
  intros Hc Hc' Hp. revert c c' Hc Hc'.
  induction Hp as [|v p Hv Hp IH]; intros c c' Hc Hc' He; simpl in *; [done|].
  apply IH in He; [|by apply updateByte_range..].
  destruct (updateByte_back 0 c c' v v) as [H1 H2]; [lia|done..|by rewrite He|].
  apply lxor_cancel_r in H1. rewrite (split_byte c), (split_byte c').
  change (8 * (0 + 1)) with 8 in H2. by rewrite H1, H2.
Qed.

(** Equal states after at most four bytes come from the same first table entry. *)
Lemma foldl_back c c' p p' :
  length p = length p' → (length p ≤ 4)%nat → bytes p → bytes p' →
  inU 32 c → inU 32 c' → foldl updateByte c p = foldl updateByte c' p' →
  Z.shiftr c (8 * len p) = Z.shiftr c' (8 * len p) ∧
  ∀ v v', head p = Some v → head p' = Some v' → Z.lxor (uint8 c) v = Z.lxor (uint8 c') v'.
Proof.
  intros Hlen H4 Hp. revert c c' p' Hlen.
  induction Hp as [|v p Hv Hp IH]; intros c c' p' Hlen Hp' Hc Hc' He;
    destruct p' as [|v' p']; try done; simpl in *.
  inversion Hp' as [|?? Hv' Hp'']; subst.
  destruct (IH ltac:(lia) (updateByte c v) (updateByte c' v') p') as [Hs _];
    [lia|done|by apply updateByte_range..|done|].
  destruct (updateByte_back (len p) c c' v v') as [H1 H2]; try done.
  { unfold len. lia. }
  split; [|by intros ?? [= <-] [= <-]].
  replace (len (v :: p)) with (len p + 1); [done|]. unfold len. simpl. lia.
Qed.

(** Two runs of at most four bytes from one state differ when the bytes do. *)
Lemma foldl_burst_inj c p p' :
  length p = length p' → (length p ≤ 4)%nat → bytes p → bytes p' → inU 32 c →
  foldl updateByte c p = foldl updateByte c p' → p = p'.
Proof.
  intros Hlen H4 Hp. revert c p' Hlen.
  induction Hp as [|v p Hv Hp IH]; intros c p' Hlen Hp' Hc He;
    destruct p' as [|v' p']; try done.
  destruct (foldl_back c c (v :: p) (v' :: p')) as [_ Hi]; try done; [by constructor|].
  specialize (Hi v v' eq_refl eq_refl). apply lxor_cancel_l in Hi as <-.
  inversion Hp'; subst. f_equal. simpl in *.
  eapply IH; [lia|lia|done| |exact He]. by apply updateByte_range.
Qed.

Lemma not32_range c : inU 32 c → inU 32 (not32 c).
Proof. intros. apply lxor_range; [lia|done|unfold inU; lia]. Qed.

Lemma Update_range c p : inU 32 c → bytes p → inU 32 (Update c p).
Proof. intros. by apply not32_range, foldl_range; [apply not32_range|]. Qed.

Lemma not32_inj c c' : not32 c = not32 c' → c = c'.
Proof. apply lxor_cancel_r. Qed.

Lemma Update_burst c pre p p' suf :
  inU 32 c → bytes (pre ++ p ++ suf) → bytes (pre ++ p' ++ suf) →
  length p = length p' → (length p ≤ 4)%nat → p ≠ p' →
  Update c (pre ++ p ++ suf) ≠ Update c (pre ++ p' ++ suf).
Proof.
  unfold bytes. rewrite !Forall_app. intros Hc (Hpre & Hp & Hsuf) (_ & Hp' & _) Hlen H4 Hne He.
  apply Hne. unfold Update in He. apply not32_inj in He.
  rewrite !foldl_app in He.
  assert (inU 32 (foldl updateByte (not32 c) pre)) as Hc1 by
    by apply foldl_range; [apply not32_range|].
  apply foldl_state_inj in He; [|by apply foldl_range..|done].
  by eapply foldl_burst_inj.
Qed.

(** The checksum detects every corruption confined to four consecutive bytes:
    data that differ only there, of the same length, never have the same sum,
    whatever the checksum they are chained to. *)
Theorem crc_detects_burst c pre p p' suf :
  inU 32 c → bytes (pre ++ p ++ suf) → bytes (pre ++ p' ++ suf) →
  length p = length p' → (length p ≤ 4)%nat → p ≠ p' →
  Sum32 (Write (pre ++ p ++ suf) (New c)) ≠ Sum32 (Write (pre ++ p' ++ suf) (New c)).
Proof. apply Update_burst. Qed.

Lemma crc_detects_burst_witness :
  Sum32 (Write [1; 2; 3; 4; 5; 6] (New 7)) ≠ Sum32 (Write [1; 2; 8; 9; 10; 6] (New 7)).
Proof.
  apply (crc_detects_burst 7 [1; 2] [3; 4; 5] [8; 9; 10] [6]);
    [done|by repeat constructor|by repeat constructor|done|simpl; lia|done].
Defined.
