(* ===== verification/Wal.v ===== *)
(** * Wal: the write-ahead log (src/wal)

    encoder.go, decoder.go, wal.go, util.go and multi_readcloser.go.  The directory
    of a log is a map from file names to contents.  A [WAL] value holds the fields of
    the struct; its operations take and return the directory and the value.  The
    operations of the operating system are taken to succeed: their error returns are
    not modelled, nor is running out of memory.

    A name is written by Sprintf as two numbers of sixteen hexadecimal digits; the
    scanner that reads it back, fmt.Sscanf, is the parameter [scan]. *)

From stdpp Require Import sorting.
From Stdlib Require Import String Ascii.
From S2P Require Import Prelude Raftpb.
From S2P Require Import RaftLog.
From S2P Require Import Raft RaftInv RaftElection RaftNode.
From S2P Require Import Wire RaftpbCodec Walpb Crc.

(** ** Constants and errors *)
Definition infoType : Z := 1.
Definition entryType : Z := 2.
Definition stateType : Z := 3.
Definition crcType : Z := 4.

Inductive walErr :=
| EOF
| UnexpectedEOF
| WrongType
| RecordCRCMismatch  (** walpb.ErrCRCMismatch *)
| ErrExist
| ErrIDMismatch
| ErrFileNotFound
| ErrIndexNotFound
| ErrCRCMismatch
| UnexpectedBlock (t : Z).

Definition ofProto (e : error) : walErr :=
  match e with ErrUnexpectedEOF => UnexpectedEOF | ErrWrongType => WrongType end.

(** ** Framing: an int64, little end first *)
Fixpoint leBytes (n : nat) (z : Z) : list Z :=
  match n with O => [] | S n => z mod 256 :: leBytes n (z / 256) end.
Fixpoint leValue (l : list Z) : Z :=
  match l with [] => 0 | b :: l => b + 256 * leValue l end.

(** ** The encoder *)

(** A file being appended to through a buffer: the bytes already written to the
    file, and the bytes in the buffer. *)
Definition bufferSize : Z := 4096.

(** [bufio.Writer.Write(p)]. *)
Definition bufWrite (p : list Z) (s : list Z * list Z) : list Z * list Z :=
  let '(file, buf) := s in
  let avail := bufferSize - len buf in
  if len p <=? avail then (file, buf ++ p)
  else match buf with
       | [] => (file ++ p, [])
       | _ =>
           let file := file ++ buf ++ take (Z.to_nat avail) p in
           let p := drop (Z.to_nat avail) p in
           if len p <=? bufferSize then (file, p) else (file ++ p, [])
       end.

Record encoder := mkEncoder { e_buf : list Z; e_crc : digest }.

Definition newEncoder (prevCrc : Z) : encoder := mkEncoder [] (New prevCrc).

(** [e.encode(rec)] on the file the encoder writes to. *)
Definition encode (rec : Record_) (file : list Z) (e : encoder)
  : outcome (list Z * encoder) :=
  let crc := Write (default [] (Record_Data rec)) (e_crc e) in
  data ← Record_Marshal (rec <| Record_Crc := Sum32 crc |>);
  let s := bufWrite (leBytes 8 (uint64 (len data))) (file, e_buf e) in
  let '(file, buf) := bufWrite data s in
  Ok (file, mkEncoder buf crc).

Definition flush (file : list Z) (e : encoder) : list Z * encoder :=
  (file ++ e_buf e, mkEncoder [] (e_crc e)).

(** ** The decoder *)
Record decoder := mkDecoder { d_rest : list Z; d_digest : digest }.

Definition newDecoder (rc : list Z) : decoder := mkDecoder rc (New 0).

(** [readInt64]: the value and the remaining bytes. *)
Definition readInt64 (br : list Z) : walErr + Z * list Z :=
  match br with
  | [] => inl EOF
  | _ => if len br <? 8 then inl UnexpectedEOF
         else inr (int64 (leValue (take 8 br)), drop 8 br)
  end.

(** [io.ReadFull] of [l] bytes. *)
Definition readFull (l : Z) (br : list Z) : walErr + list Z * list Z :=
  if len br <? l
  then inl (match br with [] => EOF | _ => UnexpectedEOF end)
  else inr (take (Z.to_nat l) br, drop (Z.to_nat l) br).

(** [d.decode(rec)]: the record, the decoder and the error. *)
Definition decode (d : decoder) : run (Record_ * decoder * option walErr) :=
  match readInt64 (d_rest d) with
  | inl err => Ret (zeroRecord, mkDecoder [] (d_digest d), Some err)
  | inr (l, rest) =>
      if l <? 0 then Crash "makeslice: len out of range"
      else match readFull l rest with
           | inl err => Ret (zeroRecord, mkDecoder [] (d_digest d), Some err)
           | inr (data, rest) =>
               '(rec, err) ← Record_Unmarshal (S (length data)) data zeroRecord;
               let d := mkDecoder rest (d_digest d) in
               match err with
               | Some e => Ret (rec, d, Some (ofProto e))
               | None =>
                   if Record_Type rec =? crcType then Ret (rec, d, None)
                   else
                     let crc := Write (default [] (Record_Data rec)) (d_digest d) in
                     let '(rec, err) := Validate (Sum32 crc) rec in
                     Ret (rec, mkDecoder rest crc,
                          match err with
                          | Some _ => Some RecordCRCMismatch
                          | None => None
                          end)
               end
           end
  end.

Definition updateCRC (prevCrc : Z) (d : decoder) : decoder :=
  mkDecoder (d_rest d) (New prevCrc).
Definition lastCRC (d : decoder) : Z := Sum32 (d_digest d).

(** A value whose checksum matched and which does not decode is a panic. *)
Definition must {M} (r : run (M * option error)) : run M :=
  '(m, err) ← r;
  match err with
  | None => Ret m
  | Some _ => Crash "unmarshal"
  end.
Definition unmarshalFuel (d : option (list Z)) : nat := S (length (default [] d)).
Definition mustUnmarshalInfo (d : option (list Z)) : run Info :=
  must (Info_Unmarshal (unmarshalFuel d) (default [] d) zeroInfo).
Definition mustUnmarshalEntry (d : option (list Z)) : run Entry :=
  must (Entry_Unmarshal (unmarshalFuel d) (default [] d) zeroEntry).
Definition mustUnmarshalState (d : option (list Z)) : run HardState :=
  must (HardState_Unmarshal (unmarshalFuel d) (default [] d) zeroHardState).

(** ** File names *)
Definition hexDigit (d : Z) : ascii :=
  ascii_of_N (Z.to_N (if d <? 10 then 48 + d else 87 + d)).
(** The [n] low hexadecimal digits of [z]. *)
Fixpoint hexDigits (n : nat) (z : Z) : string :=
  match n with
  | O => EmptyString
  | S n => String (hexDigit (z / 16 ^ Z.of_nat n mod 16)) (hexDigits n z)
  end.
(** The verb %016x on an int64: a minus sign takes one of the places. *)
Definition hex16 (z : Z) : string :=
  if z <? 0 then
    String "-" (hexDigits (if - z <? 16 ^ 15 then 15 else 16) (- z))
  else hexDigits 16 z.

Definition walName (seq index : Z) : string :=
  (hex16 seq ++ "-" ++ hex16 index ++ ".wal")%string.

(** ** The log *)

(** The files of the directory, by name. *)
Abbreviation disk := (gmap string (list Z)).

Definition readDir (d : disk) : list string := (map_to_list d).*1.
Definition Exist (d : disk) : bool := negb (len (readDir d) =? 0).

Record WAL := mkWAL {
  w_ri : Z;
  w_decoder : option decoder;
  w_f : string;  (** the name of the file opened for appending *)
  w_seq : Z;
  w_enti : Z;
  w_encoder : option encoder;
}.

#[export] Instance set_w_enti : Setter w_enti := λ f w,
  mkWAL (w_ri w) (w_decoder w) (w_f w) (w_seq w) (f (w_enti w)) (w_encoder w).
#[export] Instance set_w_encoder : Setter w_encoder := λ f w,
  mkWAL (w_ri w) (w_decoder w) (w_f w) (w_seq w) (w_enti w) (f (w_encoder w)).

Definition content (name : string) (d : disk) : list Z := default [] (d !! name).

(** [w.encoder.encode(rec)]; writing to a bytes buffer returns no error. *)
Definition save (rec : Record_) (s : disk * WAL) : outcome (disk * WAL) :=
  let '(d, w) := s in
  e ← deref (w_encoder w);
  '(file, e) ← encode rec (content (w_f w) d) e;
  Ok (<[w_f w := file]> d, w <| w_encoder := Some e |>).

Definition saveCrc (prevCrc : Z) : disk * WAL → outcome (disk * WAL) :=
  save (mkRecord crcType prevCrc None []).

Definition SaveInfo (i : Info) (s : disk * WAL) : outcome (disk * WAL) :=
  b ← Info_Marshal i;
  save (mkRecord infoType 0 (Some b) []) s.

Definition SaveEntry (e : Entry) (s : disk * WAL) : outcome (disk * WAL) :=
  b ← Entry_Marshal e;
  '(d, w) ← save (mkRecord entryType 0 (Some b) []) s;
  Ok (d, w <| w_enti := Entry_Index e |>).

Definition SaveState (st : HardState) (s : disk * WAL) : outcome (disk * WAL) :=
  if IsEmptyHardState st then Ok s
  else
    b ← HardState_Marshal st;
    save (mkRecord stateType 0 (Some b) []) s.

(** Flushes the buffer; what is in the file then survives a crash. *)
Definition Sync (s : disk * WAL) : disk * WAL :=
  let '(d, w) := s in
  match w_encoder w with
  | None => (d, w)
  | Some e =>
      let '(file, e) := flush (content (w_f w) d) e in
      (<[w_f w := file]> d, w <| w_encoder := Some e |>)
  end.

Definition Save (st : HardState) (ents : list Entry) (s : disk * WAL)
  : outcome (disk * WAL) :=
  s ← SaveState st s;
  s ← foldM (λ s e, SaveEntry e s) ents s;
  Ok (Sync s).

Definition Close (s : disk * WAL) : disk := (Sync s).1.

Definition Create (d : disk) : outcome (walErr + disk * WAL) :=
  if Exist d then Ok (inl ErrExist)
  else
    let p := walName 0 0 in
    s ← saveCrc 0 (<[p := []]> d, mkWAL 0 None p 0 0 (Some (newEncoder 0)));
    Ok (inr s).

(** The new file is opened, or created when it is not there, before the old one is
    flushed and closed. *)
Definition Cut (s : disk * WAL) : outcome (disk * WAL) :=
  let '(d, w) := s in
  let fpath := walName (int64 (w_seq w + 1)) (int64 (w_enti w + 1)) in
  let d := <[fpath := content fpath d]> d in
  let '(d, w) := Sync (d, w) in
  e ← deref (w_encoder w);
  let prevCrc := Sum32 (e_crc e) in
  saveCrc prevCrc
    (d, mkWAL (w_ri w) (w_decoder w) fpath (int64 (w_seq w + 1)) (w_enti w)
          (Some (newEncoder prevCrc))).

(** ** Reading *)
Record readState := mkReadState {
  rs_id : Z;
  rs_state : HardState;
  rs_ents : list Entry * nat;  (** the array of the slice ents, and its length *)
  rs_enti : Z;
  rs_decoder : decoder;
}.

#[export] Instance set_rs_id : Setter rs_id := λ f r,
  mkReadState (f (rs_id r)) (rs_state r) (rs_ents r) (rs_enti r) (rs_decoder r).
#[export] Instance set_rs_state : Setter rs_state := λ f r,
  mkReadState (rs_id r) (f (rs_state r)) (rs_ents r) (rs_enti r) (rs_decoder r).
#[export] Instance set_rs_ents : Setter rs_ents := λ f r,
  mkReadState (rs_id r) (rs_state r) (f (rs_ents r)) (rs_enti r) (rs_decoder r).
#[export] Instance set_rs_enti : Setter rs_enti := λ f r,
  mkReadState (rs_id r) (rs_state r) (rs_ents r) (f (rs_enti r)) (rs_decoder r).
#[export] Instance set_rs_decoder : Setter rs_decoder := λ f r,
  mkReadState (rs_id r) (rs_state r) (rs_ents r) (rs_enti r) (f (rs_decoder r)).

Section read.
(** [grow n]: the capacity append gives to a slice of [n] elements. *)
Context (grow : nat → nat).

(** [append(ents[:k], e)]: within the capacity, the array is shared. *)
Definition appendAt (k : Z) (e : Entry) (s : list Entry * nat) : run (list Entry * nat) :=
  let '(arr, _) := s in
  if (k <? 0) || (len arr <? k) then Crash "slice bounds out of range"
  else
    let k := Z.to_nat k in
    Ret (if decide (k < length arr)%nat then <[k := e]> arr
         else arr ++ e :: replicate (grow (S k) - S k) zeroEntry, S k).

(** The switch on the type of a record: the error it returns, or the variables for
    the next turn. *)
Definition readRecord (ri : Z) (rec : Record_) (r : readState) : run (walErr + readState) :=
  let t := Record_Type rec in
  if t =? entryType then
    e ← mustUnmarshalEntry (Record_Data rec);
    r ← (if Entry_Index e >=? ri then
           ents ← appendAt (int64 (Entry_Index e - ri)) e (rs_ents r);
           Ret (r <| rs_ents := ents |>)
         else Ret r);
    Ret (inr (r <| rs_enti := Entry_Index e |>))
  else if t =? stateType then
    st ← mustUnmarshalState (Record_Data rec);
    Ret (inr (r <| rs_state := st |>))
  else if t =? infoType then
    i ← mustUnmarshalInfo (Record_Data rec);
    Ret (if negb (rs_id r =? 0) && negb (rs_id r =? Info_ID i)
         then inl ErrIDMismatch else inr (r <| rs_id := Info_ID i |>))
  else if t =? crcType then
    let crc := Sum32 (d_digest (rs_decoder r)) in
    let '(rec, err) := if crc =? 0 then (rec, None) else Validate crc rec in
    Ret (match err with
         | Some _ => inl ErrCRCMismatch
         | None => inr (r <| rs_decoder ::= updateCRC (Record_Crc rec) |>)
         end)
  else Ret (inl (UnexpectedBlock t)).

(** The loop of ReadAll: the variables when it ends, and the error. *)
Fixpoint readLoop (fuel : nat) (ri : Z) (r : readState) : run (readState * walErr) :=
  match fuel with
  | O => Loop
  | S fuel =>
      '(rec, d, err) ← decode (rs_decoder r);
      let r := r <| rs_decoder := d |> in
      match err with
      | Some e => Ret (r, e)
      | None =>
          res ← readRecord ri rec r;
          match res with
          | inl e => Ret (r, e)
          | inr r => readLoop fuel ri r
          end
      end
  end.

(** A record takes eight bytes or more, so the bytes bound the turns. *)
Definition ReadAll (w : WAL)
  : run (WAL * (Z * HardState * list Entry * option walErr)) :=
  match w_decoder w with
  | None => Crash nilDeref
  | Some dec =>
      '(r, err) ← readLoop (S (length (d_rest dec))) (w_ri w)
                    (mkReadState 0 zeroHardState ([], 0%nat) (w_enti w) dec);
      let w := w <| w_enti := rs_enti r |> in
      let fail e := Ret (w, (0, zeroHardState, [], Some e)) in
      match err with
      | EOF =>
          if rs_enti r <? w_ri w then fail ErrIndexNotFound
          else
            Ret (mkWAL 0 None (w_f w) (w_seq w) (w_enti w)
                   (Some (newEncoder (lastCRC (rs_decoder r)))),
                 (rs_id r, rs_state r, take (rs_ents r).2 (rs_ents r).1, None))
      | e => fail e
      end
  end.
End read.

(** ** Opening *)

(** [sort.StringSlice]: by bytes. *)
Definition string_le (a b : string) : Prop := String.leb a b = true.
#[export] Instance string_le_dec : RelDecision string_le.
Proof. intros a b. unfold string_le. apply _. Defined.

Section open.
(** [fmt.Sscanf(str, "%016x-%016x.wal", &seq, &index)], when it reads both. *)
Context (scan : string → option (Z * Z)).

Definition parseWalName (str : string) : option (Z * Z) := scan str.

Definition checkWalNames (names : list string) : list string :=
  filter (λ name, is_Some (parseWalName name)) names.

(** The loop runs down from the last name; the index found counts from the start. *)
Fixpoint searchIndexFrom (rev : list string) (index : Z) : outcome (option nat) :=
  match rev with
  | [] => Ok None
  | name :: rest =>
      match parseWalName name with
      | None => Panic "parse correct name error"
      | Some (_, curIndex) =>
          if index >=? curIndex then Ok (Some (length rest))
          else searchIndexFrom rest index
      end
  end.
Definition searchIndex (names : list string) (index : Z) : outcome (option nat) :=
  searchIndexFrom (reverse names) index.

Fixpoint isValidSeqFrom (lastSeq : Z) (names : list string) : outcome bool :=
  match names with
  | [] => Ok true
  | name :: rest =>
      match parseWalName name with
      | None => Panic "parse correct name error"
      | Some (curSeq, _) =>
          if negb (lastSeq =? 0) && negb (lastSeq =? int64 (curSeq - 1)) then Ok false
          else isValidSeqFrom curSeq rest
      end
  end.
Definition isValidSeq (names : list string) : outcome bool := isValidSeqFrom 0 names.

Definition sortNames (names : list string) : list string := merge_sort string_le names.

(** MultiReadCloser: the files one after the other. *)
Definition MultiReadCloser (d : disk) (names : list string) : list Z :=
  concat ((λ name, content name d) <$> names).

Definition OpenAtIndex (d : disk) (index : Z) : outcome (walErr + WAL) :=
  let names := checkWalNames (readDir d) in
  if len names =? 0 then Ok (inl ErrFileNotFound)
  else
    let names := sortNames names in
    found ← searchIndex names index;
    match found with
    | None => Ok (inl ErrFileNotFound)
    | Some nameIndex =>
        valid ← isValidSeq (drop nameIndex names);
        if negb valid then Ok (inl ErrFileNotFound)
        else
          let rc := MultiReadCloser d (drop nameIndex names) in
          let last := default EmptyString (last names) in
          match parseWalName last with
          | None => Ok (inl WrongType)
          | Some (seq, _) =>
              Ok (inr (mkWAL index (Some (newDecoder rc)) last seq 0 None))
          end
    end.
End open.
