(* ===== verification/WalNames.v ===== *)
(** * WalNames: the names of log files sort by sequence (src/wal/util.go)

    A directory is read in no order and sorted by name.  The names are numbers of a
    fixed width in hexadecimal, so the order of the names is the order of the
    sequence numbers. *)

From stdpp Require Import sorting.
From Stdlib Require Import String Ascii.
From S2P Require Import Prelude Wal.

(** ** The order on strings *)
Lemma ascii_compare_N a b : Ascii.compare a b = N.compare (N_of_ascii a) (N_of_ascii b).
Proof. done. Qed.

Lemma string_compare_trans (a b c : string) :
  String.compare a b ≠ Gt → String.compare b c ≠ Gt → String.compare a c ≠ Gt.
Proof.
  revert b c. induction a as [|x a IH]; intros [|y b] [|z c]; simpl; try done.
  rewrite !ascii_compare_N.
  destruct (N.compare_spec (N_of_ascii x) (N_of_ascii y)),
    (N.compare_spec (N_of_ascii y) (N_of_ascii z)),
    (N.compare_spec (N_of_ascii x) (N_of_ascii z)); try done; try lia.
  apply IH.
Qed.

Lemma string_le_compare a b : string_le a b ↔ String.compare a b ≠ Gt.
Proof. unfold string_le, String.leb. destruct (String.compare a b); by split. Qed.

#[export] Instance string_le_trans : Transitive string_le.
Proof. intros a b c. rewrite !string_le_compare. apply string_compare_trans. Qed.
#[export] Instance string_le_total : Total string_le.
Proof. intros a b. apply String.leb_total. Qed.
#[export] Instance string_le_antisymm : AntiSymm (=) string_le.
Proof. intros a b. apply String.leb_antisym. Qed.

(** A list of names in order is what sorting any arrangement of them gives. *)
Lemma sortNames_sorted names l :
  StronglySorted string_le l → names ≡ₚ l → sortNames names = l.
Proof.
  intros Hs Hp. apply (StronglySorted_unique string_le); [|done|].
  - apply StronglySorted_merge_sort; apply _.
  - unfold sortNames. by rewrite merge_sort_Permutation.
Qed.

(** ** Numbers of a fixed width *)
Lemma string_compare_refl (a : string) : String.compare a a = Eq.
Proof. induction a as [|x a IH]; simpl; [done|]. by rewrite ascii_compare_N, N.compare_refl. Qed.

Lemma compare_app_lt (a a' b b' : string) :
  String.length a = String.length a' → String.compare a a' = Lt →
  String.compare (a ++ b) (a' ++ b') = Lt.
Proof.
  revert a'. induction a as [|x a IH]; intros [|y a']; simpl; try done.
  intros [= Hl]. destruct (Ascii.compare x y); try done. by apply IH.
Qed.

Lemma compare_app_eq (a b b' : string) :
  String.compare (a ++ b) (a ++ b') = String.compare b b'.
Proof. induction a as [|x a IH]; simpl; [done|]. by rewrite ascii_compare_N, N.compare_refl. Qed.

Lemma hexDigit_compare d d' :
  0 ≤ d < 16 → 0 ≤ d' < 16 → Ascii.compare (hexDigit d) (hexDigit d') = (d ?= d').
Proof.
  intros Hd Hd'.
  assert (∀ d, 0 ≤ d < 16 → N_of_ascii (hexDigit d) =
    Z.to_N (if d <? 10 then 48 + d else 87 + d)) as HN.
  { intros e He. unfold hexDigit. apply N_ascii_embedding. destruct (e <? 10); lia. }
  rewrite ascii_compare_N, !HN by done.
  destruct (Z.compare_spec d d') as [->|Hlt|Hgt].
  - apply N.compare_refl.
  - apply N.compare_lt_iff. destruct (Z.ltb_spec d 10), (Z.ltb_spec d' 10); lia.
  - apply N.compare_gt_iff. destruct (Z.ltb_spec d 10), (Z.ltb_spec d' 10); lia.
Qed.

Lemma length_hexDigits n z : String.length (hexDigits n z) = n.
Proof. induction n as [|n IH]; simpl; congruence. Qed.

Lemma hexDigits_mod n z : hexDigits n (z mod 16 ^ Z.of_nat n) = hexDigits n z.
Proof.
  enough (∀ k, (n ≤ k)%nat → hexDigits n (z mod 16 ^ Z.of_nat k) = hexDigits n z) as H
    by by apply H.
  intros k. induction n as [|n IH]; intros Hk; simpl; [done|].
  rewrite IH by lia. do 2 f_equal.
  replace (Z.of_nat k) with (Z.of_nat (k - S n) + 1 + Z.of_nat n) by lia.
  rewrite Z.pow_add_r, (Z.pow_add_r _ _ 1) by lia.
  rewrite (Z.mul_comm _ (16 ^ Z.of_nat n)), Z.rem_mul_r by
    (try apply Z.pow_nonzero; try apply Z.mul_pos_pos; try apply Z.pow_pos_nonneg; lia).
  rewrite Z.add_comm, Z.mul_comm, Z.div_add_l by (apply Z.pow_nonzero; lia).
  rewrite (Z.div_small (z mod _)) by (apply Z.mod_pos_bound, Z.pow_pos_nonneg; lia).
  rewrite Z.add_0_r, Z.pow_1_r, (Z.mul_comm (16 ^ _) 16), Z.rem_mul_r by
    (try apply Z.pow_pos_nonneg; lia).
  rewrite Z.mul_comm, Z.mod_add, Z.mod_mod by lia. done.
Qed.

Lemma hexDigits_compare n z z' :
  0 ≤ z < z' → z' < 16 ^ Z.of_nat n → String.compare (hexDigits n z) (hexDigits n z') = Lt.
Proof.
  revert z z'. induction n as [|n IH]; intros z z' Hz Hz'.
  { change (16 ^ Z.of_nat 0) with 1 in Hz'. lia. }
  rewrite Nat2Z.inj_succ, Z.pow_succ_r in Hz' by lia.
  assert (0 < 16 ^ Z.of_nat n) as Hp by (apply Z.pow_pos_nonneg; lia).
  cbn [hexDigits String.compare].
  assert (∀ y, 0 ≤ y < 16 * 16 ^ Z.of_nat n → 0 ≤ y / 16 ^ Z.of_nat n < 16) as Hd.
  { intros y Hy. split; [apply Z.div_pos; lia|apply Z.div_lt_upper_bound; lia]. }
  rewrite !(Z.mod_small (_ / _) 16) by (apply Hd; lia).
  rewrite hexDigit_compare by (apply Hd; lia).
  pose proof (Z.div_le_mono z z' (16 ^ Z.of_nat n) Hp ltac:(lia)).
  destruct (Z.compare_spec (z / 16 ^ Z.of_nat n) (z' / 16 ^ Z.of_nat n)) as [He| |];
    [|done|lia].
  rewrite <-(hexDigits_mod n z), <-(hexDigits_mod n z'). apply IH.
  - pose proof (Z.div_mod z (16 ^ Z.of_nat n)). pose proof (Z.div_mod z' (16 ^ Z.of_nat n)).
    pose proof (Z.mod_pos_bound z (16 ^ Z.of_nat n) Hp). nia.
  - apply Z.mod_pos_bound. lia.
Qed.

(** Names sort by sequence number. *)
Lemma walName_lt seq seq' i i' :
  0 ≤ seq < seq' → seq' < 2 ^ 63 → string_le (walName seq i) (walName seq' i').
Proof.
  intros Hs Hs'. apply string_le_compare. unfold walName, hex16.
  rewrite (proj2 (Z.ltb_ge seq 0)), (proj2 (Z.ltb_ge seq' 0)) by lia.
  rewrite compare_app_lt; [done|by rewrite !length_hexDigits|].
  apply hexDigits_compare; [done|]. change (16 ^ Z.of_nat 16) with (2 ^ 64). lia.
Qed.

Lemma walName_seq_inj seq seq' i i' :
  0 ≤ seq < 2 ^ 63 → 0 ≤ seq' < 2 ^ 63 → walName seq i = walName seq' i' → seq = seq'.
Proof.
  intros Hs Hs' He.
  assert (∀ a b i i', 0 ≤ a < b → b < 2 ^ 63 → walName a i ≠ walName b i') as Hne.
  { intros a b j j' Hab Hb Heq.
    pose proof (string_compare_refl (walName a j)) as Hr. rewrite Heq in Hr at 2.
    unfold walName, hex16 in Hr.
    rewrite (proj2 (Z.ltb_ge a 0)), (proj2 (Z.ltb_ge b 0)) in Hr by lia.
    rewrite compare_app_lt in Hr; [done|by rewrite !length_hexDigits|].
    apply hexDigits_compare; [done|]. change (16 ^ Z.of_nat 16) with (2 ^ 64). lia. }
  destruct (Z.lt_trichotomy seq seq') as [?|[?|?]]; [|done|]; exfalso.
  - eapply Hne; [| |exact He]; lia.
  - eapply Hne; [| |symmetry; exact He]; lia.
Qed.
