(* ===== verification/WalRecords.v ===== *)
(** * WalRecords: the stream of records of a log (src/wal/encoder.go, decoder.go)

    What the encoder writes for a sequence of saved values, what the decoder reads
    from it, and the running checksum that links the two. *)

From S2P Require Import Prelude Raftpb.
From S2P Require Import RaftLog.
From S2P Require Import Raft RaftInv RaftElection RaftNode.
From S2P Require Import Wire RaftpbCodec Walpb Crc Wal.

(** ** Saved values *)
Inductive wop := OInfo (i : Info) | OState (st : HardState) | OEntry (e : Entry).

Definition opType (op : wop) : Z :=
  match op with OInfo _ => infoType | OState _ => stateType | OEntry _ => entryType end.
Definition opData (op : wop) : list Z :=
  match op with
  | OInfo i => Info_encode i
  | OState st => HardState_encode st
  | OEntry e => Entry_encode e
  end.

(** The value has fields in range, and its encoding is a string of bytes that fits
    in a record. *)
Record wop_ok (op : wop) : Prop := {
  wo_value : match op with
             | OInfo i => Info_ok i
             | OState st => HardState_ok st
             | OEntry e => Entry_ok e
             end;
  wo_bytes : bytes (opData op);
  wo_size : len (opData op) < 2 ^ 62;
}.

(** ** Bytes of a stream *)
Definition frame (bs : list Z) : list Z := leBytes 8 (uint64 (len bs)) ++ bs.

(** The record of [op] when the running checksum is [c]. *)
Definition opRecord (c : Z) (op : wop) : Record_ :=
  mkRecord (opType op) (Update c (opData op)) (Some (opData op)) [].
Definition crcRecord (c : Z) : Record_ := mkRecord crcType c None [].

Definition recBytes (c : Z) (op : wop) : list Z := frame (Record_encode (opRecord c op)).
Definition crcBytes (c : Z) : list Z := frame (Record_encode (crcRecord c)).

Fixpoint opsBytes (c : Z) (ops : list wop) : list Z :=
  match ops with
  | [] => []
  | op :: ops => recBytes c op ++ opsBytes (Update c (opData op)) ops
  end.
Definition opsCrc (c : Z) (ops : list wop) : Z := foldl (λ c op, Update c (opData op)) c ops.

(** A file starts with the checksum of what precedes it. *)
Definition fileBytes (c : Z) (ops : list wop) : list Z := crcBytes c ++ opsBytes c ops.

(** ** Framing *)
Lemma leValue_leBytes n z : 0 ≤ z < 256 ^ Z.of_nat n → leValue (leBytes n z) = z.
Proof.
  revert z. induction n as [|n IH]; intros z Hz.
  { change (256 ^ Z.of_nat 0) with 1 in Hz. simpl. lia. }
  rewrite Nat2Z.inj_succ, Z.pow_succ_r in Hz by lia. cbn [leBytes leValue].
  rewrite IH by (split; [apply Z.div_pos; lia|apply Z.div_lt_upper_bound; lia]).
  pose proof (Z.div_mod z 256). lia.
Qed.

Lemma length_leBytes n z : length (leBytes n z) = n.
Proof. revert z. induction n as [|n IH]; intros z; simpl; [done|]. by rewrite IH. Qed.

(** Reading the length of a frame. *)
Lemma readInt64_frame bs rest :
  fits bs → readInt64 (frame bs ++ rest) = inr (len bs, bs ++ rest).
Proof.
  intros Hf. unfold readInt64, frame. rewrite <-app_assoc.
  set (h := leBytes 8 (uint64 (len bs))).
  assert (length h = 8%nat) as Hh by apply length_leBytes.
  assert ((len (h ++ bs ++ rest) <? 8) = false) as ->.
  { apply Z.ltb_ge. rewrite !len_app. pose proof (len_nonneg bs). pose proof (len_nonneg rest).
    unfold len at 1. lia. }
  rewrite take_app_le, take_ge by lia. rewrite <-Hh, drop_app_length.
  assert (leValue h = len bs) as ->.
  { unfold h. rewrite leValue_leBytes by (pose proof (uint64_bound (len bs)); lia).
    apply wrapU_id. pose proof (len_nonneg bs). unfold fits, inU in *. lia. }
  rewrite (int64_fits bs) by (done || pose proof (len_nonneg bs); lia).
  by destruct (h ++ bs ++ rest) eqn:E; [destruct h|].
Qed.

Lemma readFull_app bs rest : readFull (len bs) (bs ++ rest) = inr (bs, rest).
Proof.
  unfold readFull. rewrite (proj2 (Z.ltb_ge _ _)).
  - unfold len. by rewrite Nat2Z.id, take_app_length, drop_app_length.
  - rewrite len_app. pose proof (len_nonneg rest). lia.
Qed.

(** ** Writing through the buffer *)
Lemma bufWrite_app p file buf :
  let '(file', buf') := bufWrite p (file, buf) in file' ++ buf' = file ++ buf ++ p.
Proof.
  unfold bufWrite. destruct (_ <=? _); [done|]. destruct buf as [|b buf].
  { by rewrite app_nil_r. }
  destruct (_ <=? _); rewrite <-!app_assoc, ?app_nil_r, take_drop; done.
Qed.

(** The encoder appends the frame of the record with its checksum filled in. *)
Lemma encode_app rec file e :
  let crc := Write (default [] (Record_Data rec)) (e_crc e) in
  ∃ file' buf', encode rec file e = Ok (file', mkEncoder buf' crc) ∧
    file' ++ buf' = file ++ e_buf e ++
      frame (Record_encode (rec <| Record_Crc := Sum32 crc |>)).
Proof.
  intros crc. unfold encode. fold crc. rewrite Record_Marshal_encode. cbn [mbind outcome_bind].
  set (data := Record_encode _).
  destruct (bufWrite (leBytes 8 (uint64 (len data))) (file, e_buf e)) as [f1 b1] eqn:E1.
  pose proof (bufWrite_app (leBytes 8 (uint64 (len data))) file (e_buf e)) as H1.
  rewrite E1 in H1.
  destruct (bufWrite data (f1, b1)) as [f2 b2] eqn:E2.
  pose proof (bufWrite_app data f1 b1) as H2. rewrite E2 in H2.
  exists f2, b2. split; [done|]. rewrite H2, app_assoc, H1. unfold frame.
  by rewrite <-!app_assoc.
Qed.

(** ** Reading a record *)
Lemma bytes_app l k : bytes (l ++ k) ↔ bytes l ∧ bytes k.
Proof. apply Forall_app. Qed.

Lemma opsCrc_range c ops :
  inU 32 c → Forall wop_ok ops → inU 32 (opsCrc c ops).
Proof.
  intros Hc Hops. revert c Hc. induction Hops as [|op ops Ho Hops IH]; intros c Hc; [done|].
  simpl. apply IH, Update_range; [done|apply Ho].
Qed.

Lemma Record_encode_fits m :
  len (default [] (Record_Data m)) < 2 ^ 62 → Record_XXX m = [] → fits (Record_encode m).
Proof.
  intros Hd Hx. unfold fits. rewrite <-Record_size. unfold Record_Size. rewrite Hx.
  assert (∀ v, sov (uint64 v) ≤ 10) as Hs.
  { intros v. rewrite sov_varint. unfold varint, len.
    assert (∀ n v, (length (digits n v) ≤ n)%nat) as Hd'.
    { induction n as [|n IH]; intros z; simpl; [lia|]. destruct (z <? 128); simpl; [lia|].
      specialize (IH (z / 128)). lia. }
    specialize (Hd' 10%nat (uint64 v)). lia. }
  pose proof (Hs (Record_Type m)). pose proof (Hs (Record_Crc m)).
  unfold sizeOptLen. destruct (Record_Data m) as [d|]; simpl in *.
  - pose proof (Hs (len d)). change (len (@nil Z)) with 0. lia.
  - change (len (@nil Z)) with 0. lia.
Qed.

Lemma opData_nonempty op : opData op ≠ [].
Proof. by destruct op. Qed.

Lemma decode_op c op rest :
  inU 32 c → wop_ok op →
  decode (mkDecoder (recBytes c op ++ rest) (New c)) =
  Ret (opRecord c op, mkDecoder rest (New (Update c (opData op))), None).
Proof.
  intros Hc [_ Hb Hs]. unfold decode. cbn [d_rest d_digest].
  assert (fits (Record_encode (opRecord c op))) as Hf by by apply Record_encode_fits.
  unfold recBytes. rewrite readInt64_frame by done.
  rewrite (proj2 (Z.ltb_ge _ 0)) by apply len_nonneg. rewrite readFull_app.
  rewrite Record_Unmarshal_encode; [|split|done|lia].
  - assert ((opRecord c op) <| Record_Data ::= normData |> = opRecord c op) as ->.
    { unfold opRecord, set, set_Record_Data. simpl.
      pose proof (opData_nonempty op). by destruct (opData op). }
    cbn [mbind run_bind opRecord Record_Type Record_Data Record_Crc].
    assert ((opType op =? crcType) = false) as -> by by destruct op.
    unfold Validate, Write, Sum32. cbn. by rewrite Z.eqb_refl.
  - by destruct op.
  - by apply Update_range.
  - apply unrecognized_nil.
Qed.

Lemma decode_crc c d rest :
  inU 32 c →
  decode (mkDecoder (crcBytes c ++ rest) d) = Ret (crcRecord c, mkDecoder rest d, None).
Proof.
  intros Hc. unfold decode. cbn [d_rest d_digest].
  assert (fits (Record_encode (crcRecord c))) as Hf by by apply Record_encode_fits.
  unfold crcBytes. rewrite readInt64_frame by done.
  rewrite (proj2 (Z.ltb_ge _ 0)) by apply len_nonneg. rewrite readFull_app.
  rewrite Record_Unmarshal_encode; [done|split; try done|done|lia].
  apply unrecognized_nil.
Qed.
