(* ===== verification/WalRead.v ===== *)
(** * WalRead: ReadAll is the replay of the saved values (src/wal/wal.go)

    [replay] is the specification of reading a log: the last state and info, and the
    entries from index [ri] on, where an entry replaces the ones at and after its
    index.  [ReadAll_log] shows that ReadAll computes it on the bytes of a log. *)

From S2P Require Import Prelude Raftpb.
From S2P Require Import RaftLog.
From S2P Require Import Raft RaftInv RaftElection RaftNode.
From S2P Require Import Wire RaftpbCodec Walpb Crc Wal WalRecords.

(** ** The specification *)
Record replayed := mkReplayed {
  sp_id : Z;
  sp_state : HardState;
  sp_ents : list Entry;
  sp_enti : Z;
}.
Definition replayed0 : replayed := mkReplayed 0 zeroHardState [] 0.

Definition replayOp (ri : Z) (s : replayed) (op : wop) : replayed :=
  match op with
  | OInfo i => mkReplayed (Info_ID i) (sp_state s) (sp_ents s) (sp_enti s)
  | OState st => mkReplayed (sp_id s) st (sp_ents s) (sp_enti s)
  | OEntry e =>
      mkReplayed (sp_id s) (sp_state s)
        (if ri <=? Entry_Index e
         then take (Z.to_nat (Entry_Index e - ri)) (sp_ents s) ++ [e] else sp_ents s)
        (Entry_Index e)
  end.
Definition replay (ri : Z) (ops : list wop) (s : replayed) : replayed :=
  foldl (replayOp ri) s ops.

(** The value may follow what was read: an entry leaves no gap, and there is one
    node id. *)
Definition follows (ri : Z) (s : replayed) (op : wop) : Prop :=
  match op with
  | OInfo i => sp_id s = 0 ∨ sp_id s = Info_ID i
  | OState _ => True
  | OEntry e => ri ≤ Entry_Index e → Entry_Index e - ri ≤ len (sp_ents s)
  end.
Fixpoint follow (ri : Z) (ops : list wop) (s : replayed) : Prop :=
  match ops with
  | [] => True
  | op :: ops => follows ri s op ∧ follow ri ops (replayOp ri s op)
  end.

Lemma follow_app ri ops1 ops2 s :
  follow ri (ops1 ++ ops2) s ↔ follow ri ops1 s ∧ follow ri ops2 (replay ri ops1 s).
Proof.
  revert s. induction ops1 as [|op ops1 IH]; intros s; simpl; [tauto|].
  rewrite IH. tauto.
Qed.

Lemma replay_app ri ops1 ops2 s :
  replay ri (ops1 ++ ops2) s = replay ri ops2 (replay ri ops1 s).
Proof. apply foldl_app. Qed.

(** The bytes of the files of a log, the first of them chained to [c]. *)
Fixpoint logBytes (c : Z) (files : list (list wop)) : list Z :=
  match files with
  | [] => []
  | ops :: files => fileBytes c ops ++ logBytes (opsCrc c ops) files
  end.
Definition logCrc (c : Z) (files : list (list wop)) : Z := foldl opsCrc c files.

(** ** Reading *)
Section reading.
Context (grow : nat → nat).
Implicit Types r : readState.

(** The variables of ReadAll hold what was replayed. *)
Record holds r (s : replayed) : Prop := {
  ho_id : rs_id r = sp_id s;
  ho_state : rs_state r = sp_state s;
  ho_ents : take (rs_ents r).2 (rs_ents r).1 = sp_ents s;
  ho_cap : ((rs_ents r).2 ≤ length (rs_ents r).1)%nat;
  ho_enti : rs_enti r = sp_enti s;
}.

Lemma appendAt_take k e arr n :
  0 ≤ k ≤ Z.of_nat n → (n ≤ length arr)%nat →
  ∃ arr', appendAt grow k e (arr, n) = Ret (arr', S (Z.to_nat k)) ∧
    (S (Z.to_nat k) ≤ length arr')%nat ∧
    take (S (Z.to_nat k)) arr' = take (Z.to_nat k) (take n arr) ++ [e].
Proof.
  intros Hk Hn. unfold appendAt.
  rewrite (proj2 (Z.ltb_ge k 0)), (proj2 (Z.ltb_ge (len arr) k)) by (unfold len; lia). simpl.
  rewrite take_take, Nat.min_l by lia. case_decide as Hd.
  - eexists. split; [done|]. rewrite length_insert. split; [lia|].
    rewrite (take_S_r _ _ e) by (by apply list_lookup_insert_eq).
    by rewrite take_insert_ge by lia.
  - assert (Z.to_nat k = length arr) as Hka by lia.
    eexists. split; [done|]. rewrite length_app. simpl. split; [lia|].
    rewrite (take_S_r _ _ e).
    + by rewrite take_app_le by lia.
    + rewrite lookup_app_r by lia. by rewrite Hka, Nat.sub_diag.
Qed.

Lemma must_entry e :
  wop_ok (OEntry e) → mustUnmarshalEntry (Some (Entry_encode e)) = Ret e.
Proof.
  intros [Hv _ Hs]. cbn [opData] in Hs. unfold mustUnmarshalEntry, unmarshalFuel.
  change (default [] (Some (Entry_encode e))) with (Entry_encode e).
  rewrite Entry_Unmarshal_encode; [done|done|unfold fits; lia|lia].
Qed.

Lemma must_state st :
  wop_ok (OState st) → mustUnmarshalState (Some (HardState_encode st)) = Ret st.
Proof.
  intros [Hv _ Hs]. cbn [opData] in Hs. unfold mustUnmarshalState, unmarshalFuel.
  change (default [] (Some (HardState_encode st))) with (HardState_encode st).
  rewrite HardState_Unmarshal_encode; [done|done|unfold fits; lia|lia].
Qed.

Lemma must_info i :
  wop_ok (OInfo i) → mustUnmarshalInfo (Some (Info_encode i)) = Ret i.
Proof.
  intros [Hv _ Hs]. cbn [opData] in Hs. unfold mustUnmarshalInfo, unmarshalFuel.
  change (default [] (Some (Info_encode i))) with (Info_encode i).
  rewrite Info_Unmarshal_encode; [done|done|unfold fits; lia|lia].
Qed.

Lemma readRecord_op ri c op r s :
  0 ≤ ri → wop_ok op → holds r s → follows ri s op →
  ∃ r', readRecord grow ri (opRecord c op) r = Ret (inr r') ∧
    rs_decoder r' = rs_decoder r ∧ holds r' (replayOp ri s op).
Proof.
  intros Hri Hop [] Hf. unfold readRecord. destruct op as [i|st|e].
  - cbn -[mustUnmarshalInfo]. rewrite must_info by done. cbn.
    assert ((negb (rs_id r =? 0) && negb (rs_id r =? Info_ID i)) = false) as ->.
    { simpl in Hf. rewrite ho_id0. destruct Hf as [->| ->]; [done|].
      by rewrite Z.eqb_refl, andb_false_r. }
    eexists. split_and!; [done|done|]. by split.
  - cbn -[mustUnmarshalState]. rewrite must_state by done. cbn.
    eexists. split_and!; [done|done|]. by split.
  - cbn -[mustUnmarshalEntry]. rewrite must_entry by done. cbn -[appendAt]. rewrite Z.geb_leb.
    destruct (Z.leb_spec ri (Entry_Index e)) as [Hle|Hgt]; cbn -[appendAt].
    + assert (inS 64 (Entry_Index e)) as Hi by apply Hop.
      rewrite wrapS_id by (unfold inS in *; lia).
      simpl in Hf. destruct (rs_ents r) as [arr n] eqn:Ee. simpl in ho_ents0, ho_cap0.
      destruct (appendAt_take (Entry_Index e - ri) e arr n) as (arr' & Ha & Hl & Ht).
      { rewrite <-ho_ents0 in Hf. unfold len in Hf. rewrite length_take in Hf. lia. }
      { done. }
      rewrite Ha. cbn. eexists. split_and!; [done|done|].
      split; simpl; try done. by rewrite Ht, ho_ents0.
    + eexists. split_and!; [done|done|]. by split.
Qed.

(** The loop over the records of a file. *)
Lemma readLoop_ops fuel ri c ops rest r s :
  0 ≤ ri → inU 32 c → Forall wop_ok ops → holds r s → follow ri ops s →
  rs_decoder r = mkDecoder (opsBytes c ops ++ rest) (New c) →
  ∃ r', readLoop grow (length ops + fuel) ri r = readLoop grow fuel ri r' ∧
    holds r' (replay ri ops s) ∧ rs_decoder r' = mkDecoder rest (New (opsCrc c ops)).
Proof.
  intros Hri Hc Hops. revert c r s Hc.
  induction Hops as [|op ops Hop Hops IH]; intros c r s Hc Hr Hf Hd.
  { by exists r. }
  destruct Hf as [Hf1 Hf2]. cbn [opsBytes] in Hd. rewrite <-app_assoc in Hd.
  cbn [length Nat.add readLoop]. rewrite Hd, decode_op by done. cbn [mbind run_bind].
  set (r1 := r <| rs_decoder := mkDecoder (opsBytes (Update c (opData op)) ops ++ rest)
    (New (Update c (opData op))) |>).
  assert (holds r1 s) as Hr1 by (destruct Hr; by split).
  destruct (readRecord_op ri c op r1 s) as (r2 & H2 & Hd2 & Hr2); try done.
  rewrite H2. cbn [mbind run_bind].
  apply (IH (Update c (opData op))); try done. by apply Update_range; [|apply Hop].
Qed.

(** The checksum record at the start of a file. *)
Lemma readRecord_crc ri c r c0 :
  d_digest (rs_decoder r) = New c0 → c0 = 0 ∨ c0 = c →
  readRecord grow ri (crcRecord c) r = Ret (inr (r <| rs_decoder ::= updateCRC c |>)).
Proof.
  intros Hd Hc. unfold readRecord. cbn -[Z.eqb]. rewrite Hd.
  destruct Hc as [->| ->]; cbn; [done|]. destruct (c =? 0); [done|].
  unfold Validate. cbn. by rewrite Z.eqb_refl.
Qed.

Definition turns (files : list (list wop)) : nat :=
  length files + length (concat files).

Lemma readLoop_log fuel ri c c0 files rest r s :
  0 ≤ ri → inU 32 c → Forall (Forall wop_ok) files → holds r s →
  follow ri (concat files) s → c0 = 0 ∨ c0 = c →
  files ≠ [] → rs_decoder r = mkDecoder (logBytes c files ++ rest) (New c0) →
  ∃ r', readLoop grow (turns files + fuel) ri r = readLoop grow fuel ri r' ∧
    holds r' (replay ri (concat files) s) ∧
    rs_decoder r' = mkDecoder rest (New (logCrc c files)).
Proof.
  intros Hri Hc Hfs. revert c c0 fuel r s Hc.
  induction Hfs as [|ops files Hops Hfs IH]; intros c c0 fuel r s Hc Hr Hf Hc0 Hne Hd; [done|].
  cbn [logBytes] in Hd. apply follow_app in Hf as [Hf1 Hf2].
  unfold fileBytes in Hd. rewrite <-!app_assoc in Hd.
  replace (turns (ops :: files) + fuel)%nat with
    (S (length ops + (turns files + fuel))) by
    (unfold turns; simpl; rewrite length_app; lia).
  cbn [readLoop]. rewrite Hd, decode_crc by done. cbn [mbind run_bind].
  rewrite (readRecord_crc _ _ _ c0) by done. cbn [mbind run_bind].
  set (r1 := set rs_decoder _ _).
  assert (holds r1 s) as Hr1 by (destruct Hr; by split).
  destruct (readLoop_ops (turns files + fuel) ri c ops
    (logBytes (opsCrc c ops) files ++ rest) r1 s) as (r2 & H2 & Hr2 & Hd2); try done.
  rewrite H2. simpl. rewrite replay_app.
  destruct files as [|ops' files].
  { simpl. exists r2. by rewrite app_nil_l in Hd2. }
  apply (IH (opsCrc c ops) (opsCrc c ops)); auto. by apply opsCrc_range.
Qed.

(** Every turn of the loop has its bytes. *)
Lemma length_frame bs : (8 ≤ length (frame bs))%nat.
Proof. unfold frame. rewrite length_app, length_leBytes. lia. Qed.

Lemma turns_bytes c files : (turns files ≤ length (logBytes c files))%nat.
Proof.
  revert c. induction files as [|ops files IH]; intros c; simpl; [done|].
  unfold turns in *. simpl. unfold fileBytes. rewrite !length_app.
  assert (∀ c, length ops ≤ length (opsBytes c ops))%nat as Ho.
  { induction ops as [|op ops IHo]; intros c'; simpl; [done|]. rewrite length_app.
    pose proof (length_frame (Record_encode (opRecord c' op))). unfold recBytes.
    specialize (IHo (Update c' (opData op))). lia. }
  pose proof (length_frame (Record_encode (crcRecord c))). unfold crcBytes.
  specialize (IH (opsCrc c ops)). specialize (Ho c). lia.
Qed.

Lemma readLoop_end fuel ri r d :
  rs_decoder r = mkDecoder [] d → readLoop grow (S fuel) ri r = Ret (r, EOF).
Proof. intros Hd. cbn [readLoop]. rewrite Hd. cbn. f_equal. destruct r; simpl in *; by subst. Qed.

(** ReadAll on the bytes of a log. *)
Lemma ReadAll_log w c files s :
  0 ≤ w_ri w → w_enti w = 0 → inU 32 c → Forall (Forall wop_ok) files → files ≠ [] →
  w_decoder w = Some (newDecoder (logBytes c files)) →
  follow (w_ri w) (concat files) replayed0 →
  s = replay (w_ri w) (concat files) replayed0 →
  ReadAll grow w =
  Ret (if sp_enti s <? w_ri w
       then (w <| w_enti := sp_enti s |>, (0, zeroHardState, [], Some ErrIndexNotFound))
       else (mkWAL 0 None (w_f w) (w_seq w) (sp_enti s) (Some (newEncoder (logCrc c files))),
             (sp_id s, sp_state s, sp_ents s, None))).
Proof.
  intros Hri He Hc Hfs Hne Hd Hf ->. unfold ReadAll. rewrite Hd, He. cbn [d_rest newDecoder].
  pose proof (turns_bytes c files) as Ht.
  replace (S (length (logBytes c files))) with
    (turns files + S (length (logBytes c files) - turns files))%nat by lia.
  destruct (readLoop_log (S (length (logBytes c files) - turns files)) (w_ri w) c 0 files []
    (mkReadState 0 zeroHardState ([], 0%nat) 0 (newDecoder (logBytes c files))) replayed0)
    as (r & Hl & Hr & Hdr); auto.
  { by split. }
  { by rewrite app_nil_r. }
  rewrite Hl, (readLoop_end _ _ _ _ Hdr). cbn [mbind run_bind].
  destruct Hr as [Hi Hs Hen _ Hent]. rewrite Hent.
  set (enti := sp_enti _). change (w_ri (w <| w_enti := enti |>)) with (w_ri w).
  destruct (enti <? w_ri w); [done|].
  unfold lastCRC. by rewrite Hdr, Hi, Hs, Hen.
Qed.
End reading.
