(* ===== verification/WalProps.v ===== *)
(** * WalProps: what is saved is what is read (src/wal/wal.go, util.go)

    The files of a log are a list of pairs: the raft index in the name of a file, and
    the values saved in it.  [rep] relates them to the directory and the WAL value;
    every operation keeps it, and opening a closed directory finds the files again. *)

From stdpp Require Import sorting.
From Stdlib Require Import String Ascii.
From S2P Require Import Prelude Raftpb.
From S2P Require Import RaftLog.
From S2P Require Import Raft RaftInv RaftElection RaftNode.
From S2P Require Import Wire RaftpbCodec Walpb Crc Wal WalNames WalRecords WalRead.

(** ** The directory of a list of files *)
Abbreviation file := (Z * list wop)%type.

(** The directory, the running checksum and the next sequence number. *)
Definition addFile (s : disk * Z * Z) (f : file) : disk * Z * Z :=
  let '(d, c, k) := s in (<[walName k f.1 := fileBytes c f.2]> d, opsCrc c f.2, k + 1).
Definition dirState (files : list file) : disk * Z * Z := foldl addFile (∅, 0, 0) files.
Definition diskOf (files : list file) : disk := (dirState files).1.1.

Definition names (files : list file) : list string :=
  imap (λ k f, walName (Z.of_nat k) f.1) files.

Lemma dirState_snd files :
  (dirState files).1.2 = logCrc 0 files.*2 ∧ (dirState files).2 = len files.
Proof.
  induction files as [|f files [IH1 IH2]] using rev_ind; [done|].
  unfold dirState in *. rewrite foldl_snoc. destruct (foldl addFile _ files) as [[d c] k].
  simpl in *. subst. rewrite fmap_app, len_app. unfold logCrc. by rewrite foldl_app.
Qed.

Lemma diskOf_snoc files f :
  diskOf (files ++ [f]) =
  <[walName (len files) f.1 := fileBytes (logCrc 0 files.*2) f.2]> (diskOf files).
Proof.
  unfold diskOf. destruct (dirState_snd files) as [<- <-].
  unfold dirState. rewrite foldl_snoc. by destruct (foldl addFile _ files) as [[d c] k].
Qed.

(** Fewer files than sequence numbers. *)
Definition few (files : list file) : Prop := len files < 2 ^ 63.

Lemma few_app files fs : few (files ++ fs) → few files.
Proof. unfold few. rewrite len_app. pose proof (len_nonneg fs). lia. Qed.

Lemma names_snoc files f : names (files ++ [f]) = names files ++ [walName (len files) f.1].
Proof. unfold names. rewrite imap_app. simpl. by rewrite Nat.add_0_r. Qed.

Lemma lookup_names files k f :
  files !! k = Some f → names files !! k = Some (walName (Z.of_nat k) f.1).
Proof. intros Hk. unfold names. by rewrite list_lookup_imap, Hk. Qed.

Lemma length_names files : length (names files) = length files.
Proof. apply length_imap. Qed.

Lemma names_elem files name :
  name ∈ names files ↔ ∃ k f, files !! k = Some f ∧ name = walName (Z.of_nat k) f.1.
Proof.
  rewrite list_elem_of_lookup. split.
  - intros [k Hk]. unfold names in Hk. rewrite list_lookup_imap in Hk.
    apply fmap_Some in Hk as (f & Hf & ->). eauto.
  - intros (k & f & Hf & ->). eauto using lookup_names.
Qed.

(** A new name is not among the names of the files. *)
Lemma names_fresh files i : few files → walName (len files) i ∉ names files.
Proof.
  intros Hf. rewrite names_elem. intros (k & f & Hk & He).
  apply lookup_lt_Some in Hk. unfold few, len in *.
  apply walName_seq_inj in He; lia.
Qed.

Lemma diskOf_lookup files k f :
  few files → files !! k = Some f →
  diskOf files !! walName (Z.of_nat k) f.1 = Some (fileBytes (logCrc 0 (take k files.*2)) f.2).
Proof.
  revert k. induction files as [|g files IH] using rev_ind; intros k Hf Hk; [done|].
  rewrite diskOf_snoc, fmap_app. destruct (decide (k < length files)%nat).
  - rewrite lookup_app_l in Hk by done. rewrite lookup_insert_ne.
    + rewrite take_app_le by (rewrite length_fmap; lia). apply IH; [by eapply few_app|done].
    + intros He. apply (names_fresh files g.1); [by eapply few_app|].
      rewrite He. apply names_elem. eauto.
  - rewrite lookup_app_r in Hk by lia.
    apply list_lookup_singleton_Some in Hk as [Hk ->].
    assert (k = length files) as -> by lia. rewrite lookup_insert_eq.
    rewrite take_app_length' by by rewrite length_fmap. done.
Qed.

Lemma readDir_diskOf files : few files → readDir (diskOf files) ≡ₚ names files.
Proof.
  induction files as [|f files IH] using rev_ind; intros Hf; [done|].
  rewrite names_snoc, diskOf_snoc. apply few_app in Hf as Hf'. unfold readDir in *.
  rewrite map_to_list_insert.
  - simpl. rewrite IH by done. apply Permutation_cons_append.
  - apply not_elem_of_dom. intros Hin. apply (names_fresh files f.1 Hf').
    rewrite <-IH by done. apply elem_of_dom in Hin as [bs Hbs].
    apply list_elem_of_fmap. exists (walName (len files) f.1, bs).
    by rewrite elem_of_map_to_list.
Qed.

Lemma names_sorted files : few files → StronglySorted string_le (names files).
Proof.
  intros Hf. unfold names.
  enough (∀ n, Z.of_nat n + len files < 2 ^ 63 →
    StronglySorted string_le (imap (λ k f, walName (Z.of_nat (n + k)) f.1) files)) as H.
  { apply (H 0%nat). unfold few in Hf. lia. }
  clear Hf. induction files as [|f files IH]; intros n Hn; simpl; [constructor|].
  rewrite len_cons in Hn. constructor.
  - erewrite imap_ext; [apply (IH (S n)); lia|]. intros. simpl. do 2 f_equal. lia.
  - apply Forall_forall. intros name Hin.
    apply list_elem_of_lookup in Hin as [k Hk]. rewrite list_lookup_imap in Hk.
    apply fmap_Some in Hk as (g & Hg & ->). apply lookup_lt_Some in Hg.
    apply walName_lt; unfold len in Hn; lia.
Qed.

(** ** The representation *)
Record rep (files : list file) (s : disk * WAL) : Prop := {
  rp_few : few files;
  rp_ok : Forall (Forall wop_ok) files.*2;
  rp_index : Forall (λ f, 0 ≤ f.1 < 2 ^ 63) files;
  rp_disk : (Sync s).1 = diskOf files;
  rp_enc : ∃ e, w_encoder s.2 = Some e ∧ e_crc e = New (logCrc 0 files.*2);
  rp_f : ∃ old i ops, files = old ++ [(i, ops)] ∧ w_f s.2 = walName (len old) i;
  rp_seq : w_seq s.2 = len files - 1;
}.

Lemma Sync_disk d w e :
  w_encoder w = Some e → (Sync (d, w)).1 = <[w_f w := content (w_f w) d ++ e_buf e]> d.
Proof. intros He. unfold Sync. by rewrite He. Qed.

Lemma Sync_insert d w e file :
  w_encoder w = Some e →
  (Sync (<[w_f w := file]> d, w)).1 = <[w_f w := file ++ e_buf e]> d.
Proof.
  intros He. rewrite (Sync_disk _ w e He). unfold content.
  by rewrite lookup_insert_eq, insert_insert_eq.
Qed.

Lemma opsBytes_snoc c ops op :
  opsBytes c (ops ++ [op]) = opsBytes c ops ++ recBytes (opsCrc c ops) op.
Proof.
  revert c. induction ops as [|o ops IH]; intros c.
  - cbn [opsBytes app]. by rewrite app_nil_r.
  - cbn [opsBytes app]. by rewrite IH, app_assoc.
Qed.

Lemma opsCrc_snoc c ops op : opsCrc c (ops ++ [op]) = Update (opsCrc c ops) (opData op).
Proof. unfold opsCrc. by rewrite foldl_snoc. Qed.

(** The checksum chain over the files starts at 0. *)
Lemma logCrc_range c files :
  inU 32 c → Forall (Forall wop_ok) files → inU 32 (logCrc c files).
Proof.
  intros Hc Hf. revert c Hc. induction Hf as [|ops files Ho Hf IH]; intros c Hc; [done|].
  apply IH. by apply opsCrc_range.
Qed.

Lemma logCrc_snoc c files ops : logCrc c (files ++ [ops]) = opsCrc (logCrc c files) ops.
Proof. unfold logCrc. by rewrite foldl_snoc. Qed.

Lemma fmap_snd_snoc (old : list file) i ops : (old ++ [(i, ops)]).*2 = old.*2 ++ [ops].
Proof. by rewrite fmap_app. Qed.

Lemma save_rep old i ops op s :
  rep (old ++ [(i, ops)]) s → wop_ok op →
  ∃ s', save (mkRecord (opType op) 0 (Some (opData op)) []) s = Ok s' ∧
    rep (old ++ [(i, ops ++ [op])]) s' ∧ w_enti s'.2 = w_enti s.2.
Proof.
  destruct s as [d w]. intros [Hfew Hok Hidx Hdisk (e & He & Hcrc) (old' & i' & ops' & Heq & Hf) Hseq] Hop.
  apply app_inj_tail in Heq as [<- [= <- <-]]. cbn [fst snd] in *.
  rewrite fmap_snd_snoc in Hok, Hcrc. rewrite logCrc_snoc in Hcrc.
  set (c := logCrc 0 old.*2) in *.
  rewrite (Sync_disk d w e He), diskOf_snoc in Hdisk. fold c in Hdisk.
  cbn [fst snd] in Hdisk. rewrite <-Hf in Hdisk.
  assert (content (w_f w) d ++ e_buf e = fileBytes c ops) as Hc.
  { apply (f_equal (lookup (w_f w))) in Hdisk. rewrite !lookup_insert_eq in Hdisk. congruence. }
  destruct (encode_app (mkRecord (opType op) 0 (Some (opData op)) []) (content (w_f w) d) e)
    as (file' & buf' & Henc & Happ).
  rewrite Hcrc in Henc, Happ.
  change (file' ++ buf' = content (w_f w) d ++ e_buf e ++ recBytes (opsCrc c ops) op) in Happ.
  unfold save. rewrite He. cbn [mbind outcome_bind deref]. rewrite Henc. cbn [mbind outcome_bind].
  eexists. split; [done|]. split; [|done]. split; cbn [fst snd w_encoder w_f w_seq].
  - unfold few in *. rewrite len_app in *. done.
  - rewrite fmap_snd_snoc. apply Forall_app in Hok as [Hok1 Hok2].
    apply Forall_app. split; [done|]. constructor; [|done]. inversion Hok2; subst.
    apply Forall_app. by split; [|constructor].
  - apply Forall_app in Hidx as [Hidx1 Hidx2]. apply Forall_app. split; [done|].
    constructor; [|done]. by inversion Hidx2.
  - rewrite diskOf_snoc. cbn [fst snd]. rewrite <-Hf. fold c.
    change (w_f w) with (w_f (w <| w_encoder := Some (mkEncoder buf'
      (Write (opData op) (New (opsCrc c ops)))) |>)) at 1.
    erewrite Sync_insert by reflexivity. cbn [e_buf].
    change (w_f (set _ _ w)) with (w_f w).
    rewrite Happ, app_assoc, Hc. unfold fileBytes. rewrite opsBytes_snoc, <-app_assoc.
    apply (f_equal (insert (w_f w) (crcBytes c ++ opsBytes c ops ++ recBytes (opsCrc c ops) op)))
      in Hdisk. by rewrite !insert_insert_eq in Hdisk.
  - eexists. split; [done|]. rewrite fmap_snd_snoc, logCrc_snoc. fold c.
    by rewrite opsCrc_snoc.
  - by eexists _, _, _.
  - rewrite len_app in *. done.
Qed.

(** A file that was just created, with its checksum record. *)
Lemma saveCrc_new c fpath d ri dec seq enti :
  inU 32 c →
  ∃ s', saveCrc c (<[fpath := []]> d, mkWAL ri dec fpath seq enti (Some (newEncoder c))) = Ok s' ∧
    (Sync s').1 = <[fpath := fileBytes c []]> d ∧
    (∃ e, w_encoder s'.2 = Some e ∧ e_crc e = New c) ∧
    w_f s'.2 = fpath ∧ w_seq s'.2 = seq ∧ w_enti s'.2 = enti.
Proof.
  intros Hc. unfold saveCrc, save. cbn [mbind outcome_bind deref w_encoder].
  destruct (encode_app (mkRecord crcType c None [])
    (content fpath (<[fpath := []]> d)) (newEncoder c)) as (file' & buf' & Henc & Happ).
  assert (Write (default [] (Record_Data (mkRecord crcType c None [])))
    (e_crc (newEncoder c)) = New c) as Hw by (unfold Write; cbn; by rewrite Update_nil).
  rewrite Hw in Henc, Happ.
  change (file' ++ buf' = content fpath (<[fpath := []]> d) ++ crcBytes c) in Happ.
  cbn [w_f]. rewrite Henc. cbn [mbind outcome_bind].
  eexists. split; [done|]. split_and!; [|by eexists|done..].
  rewrite insert_insert_eq. unfold content in Happ. rewrite lookup_insert_eq in Happ.
  set (w := set _ _ _). change fpath with (w_f w) at 1.
  erewrite Sync_insert by reflexivity. cbn [e_buf]. rewrite Happ.
  unfold fileBytes. cbn [opsBytes]. by rewrite app_nil_r.
Qed.

Lemma Create_rep d : d = ∅ → ∃ s, Create d = Ok (inr s) ∧ rep [(0, [])] s ∧ w_enti s.2 = 0.
Proof.
  intros ->. unfold Create. simpl (Exist ∅).
  destruct (saveCrc_new 0 (walName 0 0) ∅ 0 None 0 0) as (s & Hs & Hd & He & Hf & Hq & Hi);
    [done|].
  cbn [Exist]. rewrite Hs. exists s. split; [done|]. split; [|done]. split.
  - by vm_compute.
  - repeat constructor.
  - by repeat constructor.
  - by rewrite Hd.
  - done.
  - by exists [], 0, [].
  - done.
Qed.

Lemma Cut_rep files s :
  rep files s → len files + 1 < 2 ^ 63 → 0 ≤ w_enti s.2 < 2 ^ 63 - 1 →
  ∃ s', Cut s = Ok s' ∧ rep (files ++ [(w_enti s.2 + 1, [])]) s' ∧ w_enti s'.2 = w_enti s.2.
Proof.
  destruct s as [d w].
  intros [Hfew Hok Hidx Hdisk (e & He & Hcrc) (old & i & ops & Heq & Hf) Hseq] Hlen Hent.
  cbn [fst snd] in *. pose proof (len_nonneg files).
  rewrite (Sync_disk d w e He) in Hdisk. unfold Cut, Sync. rewrite He.
  destruct w as [ri dec wf seq enti enc].
  cbn [w_seq w_enti w_encoder w_f w_ri w_decoder set set_w_encoder] in *. rewrite Hseq.
  rewrite (wrapS_id 64 (len files - 1 + 1)), (wrapS_id 64 (enti + 1)) by
    (try done; unfold inS; lia).
  replace (len files - 1 + 1) with (len files) by lia.
  set (fpath := walName (len files) (enti + 1)).
  assert (wf ≠ fpath) as Hne.
  { rewrite Hf. intros Hx. apply (names_fresh files (enti + 1) Hfew).
    fold fpath. rewrite <-Hx, Heq, names_snoc. set_solver. }
  assert (fpath ∉ dom d) as Hfresh.
  { intros Hin. apply (names_fresh files (enti + 1) Hfew). fold fpath.
    rewrite <-readDir_diskOf, <-Hdisk by done. apply elem_of_dom in Hin as [bs Hbs].
    apply list_elem_of_fmap. exists (fpath, bs). rewrite elem_of_map_to_list.
    by rewrite lookup_insert_ne. }
  assert (content fpath d = []) as Hc.
  { unfold content. by rewrite (proj1 (not_elem_of_dom _ _) Hfresh). }
  rewrite Hc. cbn [flush].
  assert (content (wf) (<[fpath := []]> d) = content (wf) d) as ->.
  { unfold content. by rewrite lookup_insert_ne. }
  rewrite insert_insert_ne, Hdisk by done. 
  cbn [mbind outcome_bind deref flush e_crc w_seq w_enti w_encoder w_f w_ri w_decoder
    set set_w_encoder].
  rewrite (wrapS_id 64 (len files - 1 + 1)) by (try done; unfold inS; lia).
  replace (len files - 1 + 1) with (len files) by lia.
  rewrite Hcrc. cbn [Sum32 d_crc New].
  destruct (saveCrc_new (logCrc 0 files.*2) fpath (diskOf files) ri dec
    (len files) (enti)) as (s & Hs & Hd & Hx & Hy & Hq & Hi).
  { by apply logCrc_range. }
  exists s. split; [exact Hs|]. split; [|done]. split.
  - unfold few. rewrite len_app. change (len [_]) with 1. lia.
  - rewrite fmap_snd_snoc. apply Forall_app. split; [done|]. by repeat constructor.
  - apply Forall_app. split; [done|]. repeat constructor; simpl; lia.
  - by rewrite Hd, diskOf_snoc.
  - rewrite fmap_snd_snoc, logCrc_snoc. done.
  - by eexists _, _, _.
  - rewrite Hq, len_app. change (len [_]) with 1. lia.
Qed.

Lemma Sync_rep files s : rep files s → rep files (Sync s) ∧ w_enti (Sync s).2 = w_enti s.2.
Proof.
  destruct s as [d w]. intros [Hfew Hok Hidx Hdisk (e & He & Hcrc) Hf Hseq].
  cbn [fst snd] in *. unfold Sync in *. rewrite He in Hdisk |- *.
  split; [|done]. split; try done.
  - cbn [fst snd w_encoder set set_w_encoder flush]. cbn in Hdisk |- *.
    unfold content. rewrite lookup_insert_eq. cbn. by rewrite app_nil_r, insert_insert_eq.
  - by eexists.
Qed.
