(* ===== verification/WalLog.v ===== *)
(** * WalLog: writing, cutting, reopening and reading a log (src/wal/wal.go, util.go)

    A client of the WAL is a list of steps: the Save calls, Sync, Cut, and closing and
    reopening the log.  The theorems say that every step succeeds and that reading the
    log back gives the replay of all that was saved, whatever the cuts and reopenings. *)

From stdpp Require Import sorting.
From Stdlib Require Import String Ascii.
From S2P Require Import Prelude Raftpb.
From S2P Require Import RaftLog.
From S2P Require Import Raft RaftInv RaftElection RaftNode.
From S2P Require Import Wire RaftpbCodec Walpb Crc Wal WalNames WalRecords WalRead WalProps.

(** ** Saving a value *)
Definition saveOp (op : wop) : disk * WAL → outcome (disk * WAL) :=
  match op with
  | OInfo i => SaveInfo i
  | OState st => SaveState st
  | OEntry e => SaveEntry e
  end.

(** An empty HardState is not written. *)
Definition written (op : wop) : list wop :=
  match op with
  | OState st => if IsEmptyHardState st then [] else [op]
  | _ => [op]
  end.

(** The index of an entry can be followed by another one. *)
Record op_ok (op : wop) : Prop := {
  oo_ok : wop_ok op;
  oo_index : match op with OEntry e => 0 ≤ Entry_Index e < 2 ^ 63 - 1 | _ => True end;
}.

Definition lastSaved (ops : list wop) : Z := sp_enti (replay 0 ops replayed0).

Lemma replay_ri_enti ri ops s s' :
  sp_enti s = sp_enti s' → sp_enti (replay ri ops s) = sp_enti (replay 0 ops s').
Proof. revert s s'. induction ops as [|[]]; intros s s' He; simpl; auto. Qed.

Lemma lastSaved_snoc ops op :
  lastSaved (ops ++ [op]) = match op with OEntry e => Entry_Index e | _ => lastSaved ops end.
Proof. unfold lastSaved. rewrite replay_app. by destruct op. Qed.

Lemma lastSaved_range ops : Forall op_ok ops → 0 ≤ lastSaved ops < 2 ^ 63 - 1.
Proof.
  induction ops as [|op ops IH] using rev_ind; intros Hops; [done|].
  apply Forall_app in Hops as [Hops Hop]. apply Forall_singleton in Hop as [_ Hop].
  rewrite lastSaved_snoc. destruct op; auto.
Qed.

Lemma opMarshal_encode op :
  match op with
  | OInfo i => Info_Marshal i = Ok (opData op)
  | OState st => HardState_Marshal st = Ok (opData op)
  | OEntry e => Entry_Marshal e = Ok (opData op)
  end.
Proof.
  destruct op; apply marshal_writes;
    auto using Info_writes, HardState_writes, Entry_writes, Info_size, HardState_size, Entry_size.
Qed.

Lemma saveOp_rep old i ops op s :
  rep (old ++ [(i, ops)]) s → wop_ok op →
  ∃ s', saveOp op s = Ok s' ∧ rep (old ++ [(i, ops ++ written op)]) s' ∧
    w_enti s'.2 = match op with OEntry e => Entry_Index e | _ => w_enti s.2 end.
Proof.
  intros Hr Hop. pose proof (opMarshal_encode op) as Hm.
  destruct (save_rep old i ops op s Hr Hop) as (s' & Hs & Hr' & He).
  destruct op as [inf|st|e]; cbn [saveOp written].
  - unfold SaveInfo. rewrite Hm. cbn [mbind outcome_bind]. eauto.
  - unfold SaveState. destruct (IsEmptyHardState st); [rewrite app_nil_r; eauto|].
    rewrite Hm. cbn [mbind outcome_bind]. eauto.
  - unfold SaveEntry. rewrite Hm. cbn [mbind outcome_bind].
    change entryType with (opType (OEntry e)). rewrite Hs. cbn [mbind outcome_bind].
    destruct s' as [d w]. eexists. split; [done|]. split; [|done].
    destruct Hr'. split; try done. rewrite <-rp_disk. by destruct w as [? ? ? ? ? []].
Qed.

(** ** The files of a history
    A file begins after the last entry that was saved when it was cut. *)
Inductive aligned : list file → Prop :=
| al_first ops : aligned [(0, ops)]
| al_cut files ops :
    aligned files → aligned (files ++ [(lastSaved (concat files.*2) + 1, ops)]).

Lemma aligned_extend old i ops ops' :
  aligned (old ++ [(i, ops)]) → aligned (old ++ [(i, ops')]).
Proof.
  inversion 1 as [o He|files o Hf He].
  - destruct old as [|? []]; simplify_eq/=. constructor.
  - apply app_inj_tail in He as [-> [= <- _]]. by constructor.
Qed.

Lemma aligned_lookup files k f :
  aligned files → files !! k = Some f →
  (k = 0%nat ∧ f.1 = 0) ∨
  ((0 < k)%nat ∧ f.1 = lastSaved (concat (take k files.*2)) + 1).
Proof.
  intros Ha. revert k f. induction Ha as [ops|files ops Ha IH]; intros k f Hk.
  - destruct k; simplify_eq/=. by left.
  - assert (0 < length files)%nat by (destruct Ha; rewrite ?length_app; simpl; lia).
    rewrite fmap_app. apply lookup_app_Some in Hk as [Hk|[Hle Hk]].
    + apply lookup_lt_Some in Hk as ?. rewrite take_app_le by (rewrite length_fmap; lia). auto.
    + apply list_lookup_singleton_Some in Hk as [Hk <-]. right. split; [lia|].
      rewrite take_app_length' by (rewrite length_fmap; lia). done.
Qed.

Lemma concat_snoc {A} (l : list (list A)) x : concat (l ++ [x]) = concat l ++ x.
Proof. rewrite concat_app. simpl. by rewrite app_nil_r. Qed.

Lemma filter_all {A} (P : A → Prop) `{!∀ x, Decision (P x)} (l : list A) :
  (∀ x, x ∈ l → P x) → filter P l = l.
Proof.
  induction l as [|x l IH]; intros HP; [done|].
  rewrite filter_cons_True by (apply HP; left). f_equal. apply IH. intros y Hy. apply HP. by right.
Qed.

(** The state reached by saving [hist], in at most [n] files. *)
Record logged (n : Z) (hist : list wop) (files : list file) (s : disk * WAL) : Prop := {
  lg_rep : rep files s;
  lg_hist : concat files.*2 = hist;
  lg_aligned : aligned files;
  lg_count : len files ≤ n;
  lg_enti : w_enti s.2 = lastSaved hist;
  lg_ok : Forall op_ok hist;
  lg_follow : follow 0 hist replayed0;
}.

Lemma logged_save n hist files s op :
  logged n hist files s → Forall op_ok (written op) →
  follow 0 (hist ++ written op) replayed0 →
  ∃ files' s', saveOp op s = Ok s' ∧ logged n (hist ++ written op) files' s'.
Proof.
  intros Hlog Hops Hw. destruct (decide (written op = [])) as [Hnil|Hne].
  { destruct op as [|st|]; simplify_eq/=. unfold SaveState.
    destruct (IsEmptyHardState st); [|done]. rewrite app_nil_r. eauto. }
  assert (op_ok op) as Hop.
  { destruct op as [|st|]; simpl in Hops, Hne; [| case_match; [done|] |]; by inversion Hops. }
  destruct Hlog as [Hr Hh Ha Hc He Hok Hf].
  destruct (rp_f _ _ Hr) as (old & i & ops & -> & _).
  destruct (saveOp_rep old i ops op s Hr) as (s' & Hs & Hr' & He'); [apply Hop|].
  exists (old ++ [(i, ops ++ written op)]), s'. split; [done|]. split; try done.
  - rewrite <-Hh, !fmap_snd_snoc, !concat_snoc. by rewrite app_assoc.
  - by eapply aligned_extend.
  - by rewrite !len_app in *.
  - rewrite He'. destruct op as [| |e]; cbn [written].
    + by rewrite lastSaved_snoc.
    + case_match; [by rewrite app_nil_r|by rewrite lastSaved_snoc].
    + by rewrite lastSaved_snoc.
  - by apply Forall_app.
Qed.

Lemma logged_cut n hist files s :
  logged n hist files s → n + 1 < 2 ^ 63 →
  ∃ files' s', Cut s = Ok s' ∧ logged (n + 1) hist files' s'.
Proof.
  intros [Hr Hh Ha Hc He Hok Hf] Hn. pose proof (lastSaved_range hist Hok) as Hi.
  destruct (Cut_rep files s Hr) as (s' & Hs & Hr' & He'); [lia|lia|].
  exists (files ++ [(w_enti s.2 + 1, [])]), s'. split; [done|]. split; try done.
  - by rewrite fmap_snd_snoc, concat_snoc, app_nil_r.
  - rewrite He, <-Hh. by constructor.
  - rewrite len_app. change (len [_]) with 1. lia.
  - congruence.
Qed.

Lemma logged_sync n hist files s : logged n hist files s → logged n hist files (Sync s).
Proof.
  intros [Hr Hh Ha Hc He Hok Hf]. destruct (Sync_rep files s Hr) as [Hr' He'].
  split; try done. congruence.
Qed.

Lemma logged_create s :
  Create ∅ = Ok (inr s) → logged 1 [] [(0, [])] s.
Proof.
  destruct (Create_rep ∅) as (s' & Hs & Hr & He); [done|]. rewrite Hs. intros [= <-].
  split; try done. constructor.
Qed.

(** ** Opening *)
Section opening.
Context (scan : string → option (Z * Z)).
(** Sscanf reads back what Sprintf printed with the same format. *)
Hypothesis scan_walName : ∀ seq i,
  0 ≤ seq < 2 ^ 63 → 0 ≤ i < 2 ^ 63 → scan (walName seq i) = Some (seq, i).
Context (files : list file) (Hfew : few files)
  (Hidx : Forall (λ f, 0 ≤ f.1 < 2 ^ 63) files).

Lemma scan_file k f :
  files !! k = Some f → scan (walName (Z.of_nat k) f.1) = Some (Z.of_nat k, f.1).
Proof.
  intros Hk. apply scan_walName.
  - apply lookup_lt_Some in Hk. unfold few, len in Hfew. lia.
  - by apply (proj1 (Forall_lookup _ _) Hidx k).
Qed.

Lemma open_names : sortNames (checkWalNames scan (readDir (diskOf files))) = names files.
Proof.
  apply sortNames_sorted; [by apply names_sorted|]. unfold checkWalNames.
  rewrite readDir_diskOf by done. rewrite filter_all; [done|].
  intros name Hin. apply names_elem in Hin as (k & f & Hk & ->).
  unfold parseWalName. rewrite (scan_file k f Hk). by eexists.
Qed.

Lemma searchIndex_names ri f0 :
  files !! 0%nat = Some f0 → f0.1 ≤ ri →
  ∃ j f, searchIndex scan (names files) ri = Ok (Some j) ∧ files !! j = Some f ∧ f.1 ≤ ri.
Proof.
  intros H0 Hle. unfold searchIndex.
  enough (∀ n, (0 < n ≤ length files)%nat →
    ∃ j f, searchIndexFrom scan (reverse (take n (names files))) ri = Ok (Some j) ∧
      files !! j = Some f ∧ f.1 ≤ ri) as H.
  { specialize (H (length files)). rewrite <-length_names, firstn_all in H. apply H.
    rewrite length_names. apply lookup_lt_Some in H0. lia. }
  induction n as [|n IH]; intros Hn; [lia|].
  destruct (lookup_lt_is_Some_2 files n) as [f Hf]; [lia|].
  rewrite (take_S_r _ _ _ (lookup_names files n f Hf)), reverse_snoc.
  cbn [searchIndexFrom]. unfold parseWalName. rewrite (scan_file n f Hf), Z.geb_leb.
  destruct (Z.leb_spec f.1 ri).
  - exists n, f. split_and!; [|done..]. rewrite length_reverse, length_take, length_names.
    do 2 f_equal. lia.
  - apply IH. destruct n; [|lia]. assert (f = f0) as -> by congruence. lia.
Qed.

Lemma isValidSeq_names j : isValidSeq scan (drop j (names files)) = Ok true.
Proof.
  unfold isValidSeq.
  enough (∀ n last, last = 0 ∨ last = Z.of_nat n - 1 →
    isValidSeqFrom scan last (drop n (names files)) = Ok true) as H by by apply H; left.
  intros n. remember (length files - n)%nat as m eqn:Hm. revert n Hm.
  induction m as [|m IH]; intros n Hm last Hlast.
  { rewrite drop_ge by (rewrite length_names; lia). done. }
  destruct (lookup_lt_is_Some_2 files n) as [f Hf]; [lia|].
  rewrite (drop_S _ _ _ (lookup_names files n f Hf)). cbn [isValidSeqFrom].
  unfold parseWalName. rewrite (scan_file n f Hf).
  apply lookup_lt_Some in Hf. unfold few, len in Hfew.
  rewrite wrapS_id by (try done; unfold inS; lia).
  assert ((negb (last =? 0) && negb (last =? Z.of_nat n - 1)) = false) as ->.
  { destruct Hlast as [->| ->]; [done|]. by rewrite Z.eqb_refl, andb_false_r. }
  apply (IH (S n)); lia.
Qed.

Lemma content_names j c :
  c = logCrc 0 (take j files.*2) →
  MultiReadCloser (diskOf files) (drop j (names files)) = logBytes c (drop j files.*2).
Proof.
  remember (length files - j)%nat as m eqn:Hm. revert j c Hm.
  induction m as [|m IH]; intros j c Hm ->.
  { rewrite !drop_ge by (rewrite ?length_names, ?length_fmap; lia). done. }
  destruct (lookup_lt_is_Some_2 files j) as [f Hf]; [lia|].
  assert (files.*2 !! j = Some f.2) as Hf2 by by rewrite list_lookup_fmap, Hf.
  rewrite (drop_S _ _ _ (lookup_names files j f Hf)), (drop_S _ _ _ Hf2).
  unfold MultiReadCloser. cbn [fmap list_fmap concat logBytes].
  unfold content at 1. rewrite (diskOf_lookup files j f Hfew Hf).
  cbn [default]. f_equal. apply IH; [lia|].
  by rewrite (take_S_r _ _ _ Hf2), logCrc_snoc.
Qed.

Lemma open_diskOf ri old i ops f0 :
  files = old ++ [(i, ops)] → files !! 0%nat = Some f0 → f0.1 ≤ ri →
  ∃ j f, files !! j = Some f ∧ f.1 ≤ ri ∧
    OpenAtIndex scan (diskOf files) ri =
    Ok (inr (mkWAL ri
      (Some (newDecoder (logBytes (logCrc 0 (take j files.*2)) (drop j files.*2))))
      (walName (len old) i) (len old) 0 None)).
Proof.
  intros Hlast H0 Hle. destruct (searchIndex_names ri f0 H0 Hle) as (j & f & Hs & Hj & Hf).
  exists j, f. split_and!; [done..|]. unfold OpenAtIndex. rewrite open_names.
  assert (len (checkWalNames scan (readDir (diskOf files))) = len files) as ->.
  { unfold len. rewrite <-length_names, <-open_names. unfold sortNames.
    by rewrite merge_sort_Permutation. }
  assert ((len files =? 0) = false) as ->.
  { apply Z.eqb_neq. apply lookup_lt_Some in H0. unfold len. lia. }
  rewrite Hs. cbn [mbind outcome_bind]. rewrite isValidSeq_names.
  cbn [mbind outcome_bind negb]. rewrite (content_names j _ eq_refl).
  assert (default EmptyString (last (names files)) = walName (len old) i) as ->.
  { rewrite Hlast, names_snoc. by rewrite last_snoc. }
  unfold parseWalName, len.
  pose proof (scan_file (length old) (i, ops)) as Hscan. cbn [fst] in Hscan.
  rewrite Hscan; [done|]. by rewrite Hlast, lookup_app_r, Nat.sub_diag.
Qed.
End opening.

(** ** Reading from an index on
    What is read of the files from one on, [t], against what the whole history gives,
    [s]. *)
Record tail_of (ri : Z) (s t : replayed) : Prop := {
  to_id : sp_id t = 0 ∨ sp_id t = sp_id s;
  to_ents : len (sp_ents s) ≤ ri ∨ sp_ents t = drop (Z.to_nat ri) (sp_ents s);
  to_enti : sp_enti t = sp_enti s ∨ (sp_enti t = 0 ∧ sp_enti s < ri);
}.

Lemma tail_of_op ri s t op :
  0 ≤ ri → (∀ e, op = OEntry e → 0 ≤ Entry_Index e) → follows 0 s op → tail_of ri s t →
  follows ri t op ∧ tail_of ri (replayOp 0 s op) (replayOp ri t op).
Proof.
  intros Hri Hidx Hf [Hid Hents Henti]. destruct op as [i|st|e]; simpl in *.
  - split; [destruct Hf as [Hf|Hf], Hid as [Hd|Hd]; rewrite ?Hd, ?Hf; auto|].
    split; simpl; auto.
  - split; [done|]. by split.
  - specialize (Hidx e eq_refl). rewrite (proj2 (Z.leb_le 0 _)) by done.
    rewrite Z.sub_0_r in *. specialize (Hf Hidx). set (k := Entry_Index e) in *.
    assert (len (take (Z.to_nat k) (sp_ents s) ++ [e]) = k + 1) as Hlen.
    { unfold len in *. rewrite length_app, length_take. simpl. lia. }
    destruct (Z.leb_spec ri k) as [Hle|Hgt].
    2: { split; [lia|]. split; simpl; [done|left; lia|by left]. }
    destruct Hents as [Hents|Hents].
    + assert (k = ri) as Hk by lia. assert (len (sp_ents s) = ri) as Hs by lia.
      split; [pose proof (len_nonneg (sp_ents t)); lia|].
      split; simpl; [done|right|by left]. rewrite Hk, Z.sub_diag. unfold len in Hs.
      rewrite (take_ge (sp_ents s)) by lia. by rewrite drop_app_length' by lia.
    + split.
      * intros _. rewrite Hents. unfold len in *. rewrite length_drop. lia.
      * split; simpl; [done|right|by left]. rewrite Hents. unfold len in *.
        rewrite drop_app_le, take_drop_commute by (rewrite length_take; lia).
        do 2 f_equal. f_equal. lia.
Qed.

Lemma tail_of_replay ri ops s t :
  0 ≤ ri → Forall op_ok ops → follow 0 ops s → tail_of ri s t →
  follow ri ops t ∧ tail_of ri (replay 0 ops s) (replay ri ops t).
Proof.
  intros Hri Hok. revert s t. induction Hok as [|op ops [_ Hop] Hok IH]; intros s t Hf Ht; [done|].
  destruct Hf as [Hf1 Hf2]. destruct (tail_of_op ri s t op) as [H1 H2]; auto.
  { intros e ->. lia. }
  destruct (IH _ _ Hf2 H2) as [H3 H4]. by split; [split|].
Qed.

(** There are as many entries as the last index says. *)
Lemma replay_count ops :
  Forall op_ok ops → follow 0 ops replayed0 →
  let s := replay 0 ops replayed0 in
  (sp_ents s = [] ∧ lastSaved ops = 0) ∨ len (sp_ents s) = lastSaved ops + 1.
Proof.
  induction ops as [|op ops IH] using rev_ind; [by left|].
  rewrite Forall_app, follow_app, lastSaved_snoc. intros [Hok Hop] [Hf1 [Hf2 _]].
  apply Forall_singleton in Hop as [_ Hop]. rewrite !replay_app.
  destruct op as [| |e]; simpl in *; [by apply IH..|right].
  rewrite (proj2 (Z.leb_le 0 _)) by lia. rewrite Z.sub_0_r in *.
  unfold len in *. rewrite length_app, length_take. simpl. lia.
Qed.

Lemma aligned_first files : aligned files → ∃ f, files !! 0%nat = Some f ∧ f.1 = 0.
Proof.
  intros Ha. assert (is_Some (files !! 0%nat)) as [f Hf].
  { apply lookup_lt_is_Some. destruct Ha; rewrite ?length_app; simpl; lia. }
  exists f. split; [done|]. by destruct (aligned_lookup files 0 f Ha Hf) as [[_ ?]|[? _]]; [|lia].
Qed.

(** Where the reading starts, nothing before is needed. *)
Lemma tail_start files ri j f :
  aligned files → files !! j = Some f → f.1 ≤ ri →
  Forall op_ok (concat (take j files.*2)) → follow 0 (concat (take j files.*2)) replayed0 →
  tail_of ri (replay 0 (concat (take j files.*2)) replayed0) replayed0.
Proof.
  intros Ha Hj Hle Hok Hf. destruct (aligned_lookup files j f Ha Hj) as [[-> _]|[_ Hi]].
  { split; [by left|right|by left]. simpl. by rewrite drop_nil. }
  pose proof (lastSaved_range _ Hok). split; [by left|left|right; split; [done|]].
  - destruct (replay_count _ Hok Hf) as [[-> _]|Hl]; [|lia]. unfold len. simpl. lia.
  - unfold lastSaved in Hi. lia.
Qed.

Lemma tail_of_end ri hist t :
  let s := replay 0 hist replayed0 in
  Forall op_ok hist → follow 0 hist replayed0 → 0 ≤ ri → (ri = 0 → t = s) → tail_of ri s t →
  (sp_enti t <? ri) = (lastSaved hist <? ri) ∧
  (ri ≤ lastSaved hist →
   sp_ents t = drop (Z.to_nat ri) (sp_ents s) ∧ sp_enti t = lastSaved hist).
Proof.
  intros s Hok Hf Hri H0 [_ Hents Henti]. pose proof (lastSaved_range hist Hok) as Hl.
  unfold lastSaved in *. fold s in Hl |- *. split.
  - destruct Henti as [->|[-> Hlt]]; [done|]. by rewrite !(proj2 (Z.ltb_lt _ _)) by lia.
  - intros Hle. split; [|lia]. destruct Hents as [Hents|Hents]; [|done].
    pose proof (replay_count hist Hok Hf) as Hcount. fold s in Hcount.
    unfold lastSaved in Hcount. fold s in Hcount.
    destruct Hcount as [[Hn Hz]|Hcount]; [|lia].
    assert (ri = 0) as -> by lia. by rewrite H0.
Qed.

(** The WAL that ReadAll leaves goes on where the log ends. *)
Lemma read_rep files s pre i ops enti :
  rep files s → files = pre ++ [(i, ops)] →
  rep files (Close s, mkWAL 0 None (walName (len pre) i) (len pre) enti
    (Some (newEncoder (logCrc 0 files.*2)))).
Proof.
  intros [Hfew Hok Hidx Hdisk _ _ _] Heq. unfold Close. rewrite Hdisk. split; try done.
  - erewrite Sync_disk by reflexivity. cbn [w_f e_buf newEncoder]. rewrite app_nil_r.
    apply insert_id. unfold content.
    pose proof (diskOf_lookup files (length pre) (i, ops) Hfew) as Hl.
    change (len pre) with (Z.of_nat (length pre)). cbn [fst] in Hl.
    rewrite Hl; [done|]. by rewrite Heq, lookup_app_r, Nat.sub_diag.
  - by eexists.
  - by exists pre, i, ops.
  - rewrite Heq, len_app. change (len [_]) with 1. cbn [snd w_seq]. lia.
Qed.

(** ** The steps of a client *)
Inductive wstep :=
| WInfo (i : Info)
| WState (st : HardState)
| WEntry (e : Entry)
| WSave (st : HardState) (ents : list Entry)
| WSync
| WCut
| WReopen.  (** Close, then OpenAtIndex 0 and ReadAll *)

Definition stepOps (st : wstep) : list wop :=
  match st with
  | WInfo i => [OInfo i]
  | WState st => written (OState st)
  | WEntry e => [OEntry e]
  | WSave st ents => written (OState st) ++ (OEntry <$> ents)
  | WSync | WCut | WReopen => []
  end.
Definition saved (steps : list wstep) : list wop := concat (stepOps <$> steps).

Section steps.
Context (grow : nat → nat) (scan : string → option (Z * Z)).

Definition reopen (d : disk) (ri : Z)
  : run (WAL * (Z * HardState * list Entry * option walErr)) :=
  r ← lift (OpenAtIndex scan d ri);
  match r with
  | inl _ => Crash "open"
  | inr w => ReadAll grow w
  end.

Definition runStep (st : wstep) (s : disk * WAL) : run (disk * WAL) :=
  match st with
  | WInfo i => lift (SaveInfo i s)
  | WState st => lift (SaveState st s)
  | WEntry e => lift (SaveEntry e s)
  | WSave st ents => lift (Save st ents s)
  | WSync => Ret (Sync s)
  | WCut => lift (Cut s)
  | WReopen =>
      '(w, (_, _, _, err)) ← reopen (Close s) 0;
      match err with
      | None => Ret (Close s, w)
      | Some _ => Crash "read"
      end
  end.
Fixpoint runSteps (steps : list wstep) (s : disk * WAL) : run (disk * WAL) :=
  match steps with
  | [] => Ret s
  | st :: steps => s ← runStep st s; runSteps steps s
  end.
Definition session (steps : list wstep) : run (disk * WAL) :=
  r ← lift (Create ∅);
  match r with
  | inl _ => Crash "create"
  | inr s => runSteps steps s
  end.

Hypothesis scan_walName : ∀ seq i,
  0 ≤ seq < 2 ^ 63 → 0 ≤ i < 2 ^ 63 → scan (walName seq i) = Some (seq, i).

(** What ReadAll gives, and the WAL it leaves, on a closed log. *)
Lemma logged_read n hist files s ri :
  logged n hist files s → 0 ≤ ri →
  ∃ old ops' w, hist = old ++ ops' ∧ (ri = 0 → old = []) ∧
    reopen (Close s) ri =
      Ret (w, if lastSaved hist <? ri then (0, zeroHardState, [], Some ErrIndexNotFound)
              else let t := replay ri ops' replayed0 in
                   (sp_id t, sp_state t,
                    drop (Z.to_nat ri) (sp_ents (replay 0 hist replayed0)), None)) ∧
    (ri ≤ lastSaved hist → logged n hist files (Close s, w)).
Proof.
  intros [Hr Hh Ha Hc He Hok Hf] Hri.
  destruct (rp_f _ _ Hr) as (pre & i & ops & Hfiles & _).
  destruct (aligned_first files Ha) as [f0 [H0 Hf0]].
  destruct (open_diskOf scan scan_walName files (rp_few _ _ Hr) (rp_index _ _ Hr)
    ri pre i ops f0 Hfiles H0) as (j & f & Hj & Hle & Hopen); [lia|].
  pose proof (lookup_lt_Some _ _ _ Hj) as Hjl.
  assert (Hsplit : concat (take j files.*2) ++ concat (drop j files.*2) = hist).
  { by rewrite <-concat_app, take_drop. }
  assert (ri = 0 → j = 0%nat) as Hj0.
  { intros ->. destruct (aligned_lookup files j f Ha Hj) as [[-> _]|[_ Hx]]; [done|].
    rewrite <-Hsplit in Hok. apply Forall_app in Hok as [Hok _].
    pose proof (lastSaved_range _ Hok). lia. }
  rewrite <-Hsplit in Hok, Hf. apply Forall_app in Hok as [Hok1 Hok2].
  apply follow_app in Hf as [Hf1 Hf2].
  set (old := concat (take j files.*2)) in *. set (rest := concat (drop j files.*2)) in *.
  assert (tail_of ri (replay 0 old replayed0) replayed0) as Ht0.
  { by eapply tail_start. }
  destruct (tail_of_replay ri rest _ _ Hri Hok2 Hf2 Ht0) as [Hfol Htail].
  rewrite <-replay_app, Hsplit in Htail.
  set (t := replay ri rest replayed0) in *.
  destruct (tail_of_end ri hist t) as [Hlt Hend]; try done.
  { rewrite <-Hsplit. by apply Forall_app. }
  { rewrite <-Hsplit. by apply follow_app. }
  { intros Hz. unfold t. rewrite <-Hsplit. unfold old, rest. by rewrite (Hj0 Hz), Hz. }
  match type of Hopen with _ = Ok (inr ?w) =>
    assert (reopen (Close s) ri = ReadAll grow w) as -> end.
  { unfold reopen, Close. by rewrite (rp_disk _ _ Hr), Hopen. }
  assert (inU 32 (logCrc 0 (take j files.*2))) by (apply logCrc_range; [done|apply Forall_take, Hr]).
  assert (Forall (Forall wop_ok) (drop j files.*2)) by apply Forall_drop, Hr.
  assert (drop j files.*2 ≠ []).
  { intros Hnil%(f_equal length). rewrite length_drop, length_fmap in Hnil. simpl in Hnil. lia. }
  rewrite (ReadAll_log grow _ (logCrc 0 (take j files.*2)) (drop j files.*2) t) by done.
  cbn [w_ri w_f w_seq]. rewrite Hlt. unfold logCrc. rewrite <-foldl_app, take_drop.
  fold (logCrc 0 files.*2). destruct (Z.ltb_spec (lastSaved hist) ri) as [Hb|Hb].
  - eexists old, rest, _. split_and!; [done| |done|lia].
    intros Hz. unfold old. by rewrite (Hj0 Hz).
  - destruct (Hend Hb) as [Hents Henti]. rewrite Hents, Henti.
    eexists old, rest, _. split_and!; [done| |done|].
    + intros Hz. unfold old. by rewrite (Hj0 Hz).
    + intros _. split; try done; [by eapply read_rep|..].
      * rewrite <-Hsplit. by apply Forall_app.
      * rewrite <-Hsplit. by apply follow_app.
Qed.

Lemma logged_entries n hist files s ents :
  logged n hist files s → Forall op_ok (OEntry <$> ents) →
  follow 0 (hist ++ (OEntry <$> ents)) replayed0 →
  ∃ files' s', foldM (λ s e, SaveEntry e s) ents s = Ok s' ∧
    logged n (hist ++ (OEntry <$> ents)) files' s'.
Proof.
  revert hist files s. induction ents as [|e ents IH]; intros hist files s Hl Hok Hf.
  { exists files, s. by rewrite app_nil_r. }
  cbn [fmap list_fmap] in *. apply Forall_cons in Hok as [Hop Hok].
  rewrite cons_middle, app_assoc in Hf |- *. pose proof Hf as Hf'. apply follow_app in Hf' as [Hf1 _].
  destruct (logged_save n hist files s (OEntry e)) as (fs & s1 & Hs & Hl1);
    [done|by constructor|done|].
  cbn [foldM]. change (SaveEntry e s) with (saveOp (OEntry e) s). rewrite Hs. by eapply IH.
Qed.

Lemma logged_step n hist files s st :
  logged n hist files s → n + 1 < 2 ^ 63 → Forall op_ok (stepOps st) →
  follow 0 (hist ++ stepOps st) replayed0 →
  ∃ files' s', runStep st s = Ret s' ∧ logged (n + 1) (hist ++ stepOps st) files' s'.
Proof.
  intros Hl Hn Hok Hf.
  enough (∃ files' s' n', runStep st s = Ret s' ∧ n' ≤ n + 1 ∧
    logged n' (hist ++ stepOps st) files' s') as (fs & s' & n' & Hs & Hle & [? ? ? ? ? ? ?]).
  { exists fs, s'. split; [done|]. split; try done. lia. }
  destruct st as [i|st|e|st ents| | |]; cbn [runStep stepOps] in *; rewrite ?app_nil_r.
  - destruct (logged_save n hist files s (OInfo i)) as (fs & s1 & Hs & Hl1); auto.
    exists fs, s1, n. cbn [saveOp] in Hs. rewrite Hs. split_and!; [done|lia|done].
  - destruct (logged_save n hist files s (OState st)) as (fs & s1 & Hs & Hl1); auto.
    exists fs, s1, n. cbn [saveOp] in Hs. rewrite Hs. split_and!; [done|lia|done].
  - destruct (logged_save n hist files s (OEntry e)) as (fs & s1 & Hs & Hl1); auto.
    exists fs, s1, n. cbn [saveOp] in Hs. rewrite Hs. split_and!; [done|lia|done].
  - apply Forall_app in Hok as [Hok1 Hok2]. rewrite app_assoc in Hf |- *.
    pose proof Hf as Hf'. apply follow_app in Hf' as [Hf1 _].
    destruct (logged_save n hist files s (OState st)) as (fs & s1 & Hs & Hl1); auto.
    destruct (logged_entries n _ fs s1 ents Hl1 Hok2 Hf) as (fs2 & s2 & Hs2 & Hl2).
    exists fs2, (Sync s2), n. unfold Save. cbn [saveOp] in Hs. rewrite Hs.
    cbn [mbind outcome_bind]. rewrite Hs2.
    split_and!; [done|lia|by apply logged_sync].
  - exists files, (Sync s), n. split_and!; [done|lia|by apply logged_sync].
  - destruct (logged_cut n hist files s Hl Hn) as (fs & s1 & Hs & Hl1).
    exists fs, s1, (n + 1). rewrite Hs. done.
  - destruct (logged_read n hist files s 0 Hl) as (old & ops & w & _ & _ & Hr & Hl1); [done|].
    pose proof (lastSaved_range hist (lg_ok _ _ _ _ Hl)).
    rewrite Hr, (proj2 (Z.ltb_ge _ 0)) by lia.
    exists files, (Close s, w), n. split_and!; [done|lia|apply Hl1; lia].
Qed.

Lemma logged_steps steps n hist files s :
  logged n hist files s → n + len steps < 2 ^ 63 → Forall op_ok (saved steps) →
  follow 0 (hist ++ saved steps) replayed0 →
  ∃ files' s', runSteps steps s = Ret s' ∧
    logged (n + len steps) (hist ++ saved steps) files' s'.
Proof.
  revert n hist files s. induction steps as [|st steps IH]; intros n hist files s Hl Hn Hok Hf.
  { exists files, s. rewrite app_nil_r, Z.add_0_r. done. }
  unfold saved in *. cbn [fmap list_fmap concat] in *. rewrite len_cons in *.
  apply Forall_app in Hok as [Hok1 Hok2]. rewrite app_assoc in Hf |- *.
  pose proof (len_nonneg steps). pose proof Hf as Hf'. apply follow_app in Hf' as [Hf1 _].
  destruct (logged_step n hist files s st) as (fs & s1 & Hs & Hl1); [done|lia|done|done|].
  cbn [runSteps]. rewrite Hs. rewrite Z.add_assoc. apply (IH (n + 1) _ fs s1); auto. lia.
Qed.

Lemma session_logged steps :
  len steps < 2 ^ 63 - 1 → Forall op_ok (saved steps) → follow 0 (saved steps) replayed0 →
  ∃ files s, session steps = Ret s ∧ logged (1 + len steps) (saved steps) files s.
Proof.
  intros Hn Hok Hf. unfold session.
  destruct (Create_rep ∅) as (s0 & Hs & _); [done|]. rewrite Hs. cbn [lift mbind run_bind].
  apply (logged_steps steps 1 [] [(0, [])]); [by apply logged_create|lia|done|done].
Qed.

(** A closed log gives back the replay of what was saved. *)
Lemma session_read steps :
  len steps < 2 ^ 63 - 1 → Forall op_ok (saved steps) → follow 0 (saved steps) replayed0 →
  ∃ s w, session steps = Ret s ∧
    let t := replay 0 (saved steps) replayed0 in
    reopen (Close s) 0 = Ret (w, (sp_id t, sp_state t, sp_ents t, None)).
Proof.
  intros Hn Hok Hf. destruct (session_logged steps Hn Hok Hf) as (fs & s & Hs & Hl).
  destruct (logged_read _ _ fs s 0 Hl) as (old & ops & w & Hh & Hold & Hr & _); [done|].
  pose proof (lastSaved_range _ Hok). rewrite (proj2 (Z.ltb_ge _ 0)) in Hr by lia.
  exists s, w. split; [done|]. rewrite Hr, Hh, Hold by done. by rewrite drop_0.
Qed.

(** C3: a log round trip.  Starting from an empty directory, any sequence of SaveInfo,
    SaveState, SaveEntry, Save, Sync, Cut and close-and-reopen steps succeeds, and closing
    the log, opening it at index 0 and reading it gives the replay of all that was saved:
    the id, the last HardState and the entries, later ones in place of the earlier ones
    they overwrite.  The entries leave no gap, and there are fewer steps than sequence
    numbers. *)
Theorem wal_roundtrip steps :
  len steps < 2 ^ 63 - 1 → Forall op_ok (saved steps) → follow 0 (saved steps) replayed0 →
  ∃ s w, session steps = Ret s ∧
    let t := replay 0 (saved steps) replayed0 in
    reopen (Close s) 0 = Ret (w, (sp_id t, sp_state t, sp_ents t, None)).
Proof. apply session_read. Qed.

(** C31: opening at an index.  After any such steps, opening the closed log at index [ri]
    finds the file to start from and reads exactly the entries from [ri] on when the last
    entry saved has that index or a later one, and ErrIndexNotFound otherwise; the id and
    the state are those saved in the files that are read. *)
Theorem wal_open_at steps ri :
  len steps < 2 ^ 63 - 1 → Forall op_ok (saved steps) → follow 0 (saved steps) replayed0 →
  0 ≤ ri →
  ∃ s w old ops, session steps = Ret s ∧ saved steps = old ++ ops ∧
    reopen (Close s) ri =
      Ret (w, if lastSaved (saved steps) <? ri
              then (0, zeroHardState, [], Some ErrIndexNotFound)
              else (sp_id (replay ri ops replayed0), sp_state (replay ri ops replayed0),
                    drop (Z.to_nat ri) (sp_ents (replay 0 (saved steps) replayed0)), None)).
Proof.
  intros Hn Hok Hf Hri. destruct (session_logged steps Hn Hok Hf) as (fs & s & Hs & Hl).
  destruct (logged_read _ _ fs s ri Hl) as (old & ops & w & Hh & _ & Hr & _); [done|].
  by exists s, w, old, ops.
Qed.
End steps.
