(* ===== verification/WalFaults.v ===== *)
(** * WalFaults: damaged logs, and what the log does not keep (src/wal/)

    A record damaged in up to four neighbouring bytes is reported by ReadAll.  Three
    behaviours of the code that its documentation does not describe are shown on
    concrete logs: the state is lost by a cut, a gap after file 0 is not noticed, and a
    write torn after the length of a record is not noticed. *)

From Stdlib Require Import String Ascii.
From S2P Require Import Prelude Raftpb.
From S2P Require Import RaftLog.
From S2P Require Import Raft RaftInv RaftElection RaftNode.
From S2P Require Import Wire RaftpbCodec Walpb Crc Wal WalNames WalRecords WalRead WalProps.
From S2P Require Import WalLog.

(** ** Damaged records *)

(** The bytes of a record end with its data, and the others depend on its length only. *)
Lemma frame_record t crc data data' :
  length data = length data' →
  ∃ h, frame (Record_encode (mkRecord t crc (Some data) [])) = h ++ data ∧
    frame (Record_encode (mkRecord t crc (Some data') [])) = h ++ data'.
Proof.
  intros Hl. unfold frame, Record_encode, encOptBytes, encBytes.
  cbn [Record_Type Record_Crc Record_Data Record_XXX]. rewrite !app_nil_r.
  generalize (encVarint 8 t), (encVarint 16 crc). intros a b.
  assert (len data' = len data) as He by (unfold len; lia).
  rewrite !len_app, !len_cons, !len_app, He. generalize (varint (len data)). intros v.
  match goal with |- context [leBytes 8 ?z] => generalize (leBytes 8 z) end. intros l.
  exists (l ++ a ++ b ++ 26 :: v). by rewrite <-!app_assoc.
Qed.

(** A record whose checksum does not fit its data. *)
Lemma decode_mismatch c t crc data rest :
  inU 32 c → inU 32 crc → inS 64 t → t ≠ crcType → data ≠ [] → len data < 2 ^ 62 →
  crc ≠ Update c data →
  ∃ d, decode (mkDecoder (frame (Record_encode (mkRecord t crc (Some data) [])) ++ rest) (New c)) =
    Ret (zeroRecord, d, Some RecordCRCMismatch).
Proof.
  intros Hc Hcrc Ht Hne Hnil Hs Hm. unfold decode. cbn [d_rest d_digest].
  assert (fits (Record_encode (mkRecord t crc (Some data) []))) as Hf
    by by apply Record_encode_fits.
  rewrite readInt64_frame by done.
  rewrite (proj2 (Z.ltb_ge _ 0)) by apply len_nonneg. rewrite readFull_app.
  rewrite Record_Unmarshal_encode; [|split; [done|done|apply unrecognized_nil]|done|lia].
  assert ((mkRecord t crc (Some data) []) <| Record_Data ::= normData |> =
    mkRecord t crc (Some data) []) as -> by by destruct data.
  cbn [mbind run_bind Record_Type Record_Data Record_Crc].
  rewrite (proj2 (Z.eqb_neq _ _) Hne). unfold Validate. cbn [Record_Crc].
  change (Sum32 (Write (default [] (Some data)) (New c))) with (Update c data).
  rewrite (proj2 (Z.eqb_neq _ _) Hm). by eexists.
Qed.

(** The bytes of a record up to [k]. *)
Lemma decode_torn c op k d :
  wop_ok op → (0 < k < length (recBytes c op))%nat →
  decode (mkDecoder (take k (recBytes c op)) d) =
  Ret (zeroRecord, mkDecoder [] d, Some (if decide (k = 8%nat) then EOF else UnexpectedEOF)).
Proof.
  intros Hop Hk. unfold decode, recBytes, frame in *. cbn [d_rest d_digest].
  set (data := Record_encode _) in *. set (h := leBytes 8 _) in *.
  assert (length h = 8%nat) as Hh by apply length_leBytes. rewrite length_app in Hk.
  assert (fits data) as Hfit by by apply Record_encode_fits; [apply Hop|].
  assert (length (take k (h ++ data)) = k) as Hlen by (rewrite length_take, length_app; lia).
  destruct (decide (k < 8)%nat) as [Hlt|Hge].
  { assert (readInt64 (take k (h ++ data)) = inl UnexpectedEOF) as ->.
    { unfold readInt64. destruct (take k (h ++ data)) eqn:E; [simpl in Hlen; lia|].
      rewrite <-E in Hlen |- *. rewrite (proj2 (Z.ltb_lt _ _)) by (unfold len; lia). done. }
    by rewrite decide_False by lia. }
  assert (readInt64 (take k (h ++ data)) = inr (len data, take (k - 8) data)) as ->.
  { pose proof (readInt64_frame data [] Hfit) as Hr. unfold frame in Hr. fold h in Hr.
    clearbody h. unfold readInt64 in *. rewrite !app_nil_r in Hr.
    destruct (h ++ data) eqn:E; [done|]. rewrite <-E in *.
    destruct (take k (h ++ data)) eqn:E2; [simpl in Hlen; lia|]. rewrite <-E2 in *.
    rewrite (proj2 (Z.ltb_ge _ _)) in Hr by (unfold len; rewrite length_app; lia).
    rewrite (proj2 (Z.ltb_ge _ _)) by (unfold len; lia).
    rewrite take_take, Nat.min_l by lia. rewrite skipn_firstn_comm, drop_app_length' in * by done.
    by injection Hr as ->. }
  rewrite (proj2 (Z.ltb_ge _ 0)) by apply len_nonneg. unfold readFull.
  assert (length (take (k - 8) data) = (k - 8)%nat) as Hl2 by (rewrite length_take; lia).
  rewrite (proj2 (Z.ltb_lt _ _)) by (unfold len; lia).
  destruct (take (k - 8) data) eqn:E; simpl in Hl2.
  - by rewrite decide_True by lia.
  - by rewrite decide_False by lia.
Qed.

Section faults.
Context (grow : nat → nat).

(** C30. Corruption of a record is detected.  A log in which up to four consecutive bytes
    of the data of a record differ from what was saved is not read: whatever comes before
    and after that record, ReadAll returns the CRC error and no state or entries. *)
Theorem corruption_detected files op h pre p p' suf rest w :
  0 ≤ w_ri w → w_enti w = 0 → Forall (Forall wop_ok) files → files ≠ [] → wop_ok op →
  follow (w_ri w) (concat files) replayed0 →
  opData op = pre ++ p ++ suf → bytes p' → length p = length p' → (length p ≤ 4)%nat → p ≠ p' →
  recBytes (logCrc 0 files) op = h ++ pre ++ p ++ suf →
  w_decoder w = Some (newDecoder (logBytes 0 files ++ (h ++ pre ++ p' ++ suf) ++ rest)) →
  ∃ w', ReadAll grow w = Ret (w', (0, zeroHardState, [], Some RecordCRCMismatch)).
Proof.
  intros Hri He Hok Hne Hop Hf Hdata Hp' Hlen H4 Hpp Hrec Hdec.
  set (c := logCrc 0 files) in *.
  assert (inU 32 c) as Hc by by apply logCrc_range.
  pose proof (wo_bytes _ Hop) as Hb. rewrite Hdata in Hb.
  assert (bytes (pre ++ p' ++ suf)) as Hb'.
  { unfold bytes in *. rewrite !Forall_app in *. naive_solver. }
  assert (length (pre ++ p ++ suf) = length (pre ++ p' ++ suf)) as Hl.
  { rewrite !length_app. lia. }
  destruct (frame_record (opType op) (Update c (opData op)) _ _ Hl) as (h' & H1 & H2).
  unfold recBytes, opRecord in Hrec. rewrite Hdata in Hrec, H1, H2. rewrite Hrec in H1.
  apply app_inj_2 in H1 as [<- _]; [|done]. rewrite <-H2 in Hdec.
  destruct (decode_mismatch c (opType op) (Update c (pre ++ p ++ suf)) (pre ++ p' ++ suf) rest)
    as [d Hd]; try done.
  { by apply Update_range. }
  { by destruct op. }
  { by destruct op. }
  { pose proof (opData_nonempty op) as Hn. rewrite Hdata in Hn. intros Hz.
    apply Hn, nil_length_inv. by rewrite Hl, Hz. }
  { pose proof (wo_size _ Hop) as Hsz. rewrite Hdata in Hsz. unfold len in *. lia. }
  { by apply Update_burst. }
  unfold ReadAll. rewrite Hdec, He. cbn [d_rest newDecoder].
  set (bad := frame _ ++ rest) in *. set (all := logBytes 0 files ++ bad).
  assert (turns files ≤ length all)%nat as Ht.
  { unfold all. rewrite length_app. pose proof (turns_bytes 0 files). lia. }
  replace (S (length all)) with (turns files + S (length all - turns files))%nat by lia.
  destruct (readLoop_log grow (S (length all - turns files)) (w_ri w) 0 0 files bad
    (mkReadState 0 zeroHardState ([], 0%nat) 0 (newDecoder all)) replayed0)
    as (r & Hloop & _ & Hdr); [done..|by split|done|by left|done|done|].
  rewrite Hloop. cbn [readLoop]. rewrite Hdr. fold c. rewrite Hd. by eexists.
Qed.

(** C33. A torn write.  When the last record of a log is cut short after [k] of its bytes,
    ReadAll reports UnexpectedEOF, with one exception: when exactly the eight bytes of the
    length were written, the log reads as if the record had never been written. *)
Theorem torn_write files op k w :
  w_ri w = 0 → w_enti w = 0 → Forall (Forall wop_ok) files → files ≠ [] → wop_ok op →
  follow 0 (concat files) replayed0 → Forall op_ok (concat files) →
  (0 < k < length (recBytes (logCrc 0 files) op))%nat →
  w_decoder w = Some (newDecoder (logBytes 0 files ++ take k (recBytes (logCrc 0 files) op))) →
  let t := replay 0 (concat files) replayed0 in
  ∃ w', ReadAll grow w = Ret (w', if decide (k = 8%nat)
    then (sp_id t, sp_state t, sp_ents t, None)
    else (0, zeroHardState, [], Some UnexpectedEOF)).
Proof.
  intros Hri He Hok Hne Hop Hf Hops Hk Hdec t. set (c := logCrc 0 files) in *.
  unfold ReadAll. rewrite Hdec, He, Hri. cbn [d_rest newDecoder].
  set (torn := take k _) in *. set (all := logBytes 0 files ++ torn).
  assert (turns files ≤ length all)%nat as Ht.
  { unfold all. rewrite length_app. pose proof (turns_bytes 0 files). lia. }
  replace (S (length all)) with (turns files + S (length all - turns files))%nat by lia.
  destruct (readLoop_log grow (S (length all - turns files)) 0 0 0 files torn
    (mkReadState 0 zeroHardState ([], 0%nat) 0 (newDecoder all)) replayed0)
    as (r & Hloop & [Hi Hs Hen _ Hent] & Hdr); [done..|by split|done|by left|done|done|].
  rewrite Hloop. cbn [readLoop]. rewrite Hdr. fold c.
  rewrite (decode_torn c op k _ Hop Hk). cbn [mbind run_bind].
  case_decide; [|by eexists].
  cbn [rs_enti rs_id rs_state rs_ents set set_rs_decoder]. rewrite Hent, Hi, Hs, Hen.
  pose proof (lastSaved_range _ Hops) as Hl. unfold lastSaved in Hl.
  change (w_ri (w <| w_enti := _ |>)) with (w_ri w). rewrite Hri.
  rewrite (proj2 (Z.ltb_ge _ 0)) by apply Hl. by eexists.
Qed.
End faults.

(** ** A scanner
    Sscanf of the names that walName prints, to show that the theorems apply. *)
Definition hexVal (a : ascii) : option Z :=
  let n := Z.of_N (N_of_ascii a) in
  if (48 <=? n) && (n <=? 57) then Some (n - 48)
  else if (97 <=? n) && (n <=? 102) then Some (n - 87) else None.
Fixpoint scanHex (n : nat) (s : string) (acc : Z) : option (Z * string) :=
  match n, s with
  | O, _ => Some (acc, s)
  | S n, String a s => d ← hexVal a; scanHex n s (16 * acc + d)
  | _, _ => None
  end.
Definition scanName (s : string) : option (Z * Z) :=
  '(seq, s) ← scanHex 16 s 0;
  match s with
  | String "-" s =>
      '(index, s) ← scanHex 16 s 0;
      if String.eqb s ".wal" then Some (seq, index) else None
  | _ => None
  end.

Lemma hexVal_hexDigit d : 0 ≤ d < 16 → hexVal (hexDigit d) = Some d.
Proof.
  intros Hd. assert (d = Z.of_nat (Z.to_nat d)) as -> by lia.
  assert (Z.to_nat d < 16)%nat as Hn by lia. revert Hn. generalize (Z.to_nat d). clear.
  intros n Hn. do 16 (destruct n as [|n]; [done|]). lia.
Qed.

Lemma scanHex_hexDigits n z acc s :
  0 ≤ z → scanHex n (hexDigits n z ++ s)%string acc =
  Some (16 ^ Z.of_nat n * acc + z mod 16 ^ Z.of_nat n, s).
Proof.
  intros Hz. revert acc. induction n as [|n IH]; intros acc.
  { change (16 ^ Z.of_nat 0) with 1. rewrite Z.mod_1_r. cbn. do 2 f_equal. lia. }
  cbn [hexDigits]. set (h := hexDigit _). set (t := hexDigits n z).
  change (String h t +:+ s) with (String h (t +:+ s)). subst h t.
  cbn [scanHex].
  rewrite hexVal_hexDigit by (apply Z.mod_pos_bound; lia). cbn [mbind option_bind].
  rewrite IH. do 2 f_equal. rewrite Nat2Z.inj_succ, Z.pow_succ_r by lia.
  rewrite (Z.mul_comm 16 (16 ^ Z.of_nat n)), Z.rem_mul_r by
    (try apply Z.pow_nonzero; try apply Z.pow_pos_nonneg; lia). lia.
Qed.

Lemma scanName_walName seq i :
  0 ≤ seq < 2 ^ 63 → 0 ≤ i < 2 ^ 63 → scanName (walName seq i) = Some (seq, i).
Proof.
  intros Hs Hi. unfold scanName, walName, hex16.
  rewrite !(proj2 (Z.ltb_ge _ 0)) by lia. rewrite scanHex_hexDigits by lia.
  cbn [mbind option_bind].
  match goal with |- context [("-" +:+ ?t)] => change ("-" +:+ t) with (String "-" t) end.
  cbn iota. rewrite scanHex_hexDigits by lia. cbn [mbind option_bind].
  rewrite !Z.mul_0_r, !Z.add_0_l, !Z.mod_small by lia. done.
Qed.

(** ** A log with two files *)
Definition demoInfo : Info := mkInfo 7 [].
Definition demoState : HardState := mkHardState 2 1 1 [].
Definition demoEntry (i : Z) : Entry := mkEntry EntryNormal 2 i [i; 255] [].
Definition demo : list wstep :=
  [WInfo demoInfo; WSave demoState [demoEntry 0; demoEntry 1]; WCut; WEntry (demoEntry 2);
   WReopen; WEntry (demoEntry 3); WEntry (demoEntry 2)].

Lemma demo_entry_ok i : i ∈ [0; 1; 2; 3] → op_ok (OEntry (demoEntry i)).
Proof.
  intros Hi. split; [split|].
  - split; [done..| |apply unrecognized_nil].
    all: repeat (apply elem_of_cons in Hi as [->|Hi]; [done|]); by apply not_elem_of_nil in Hi.
  - repeat (apply elem_of_cons in Hi as [->|Hi]; [by repeat constructor|]).
    by apply not_elem_of_nil in Hi.
  - repeat (apply elem_of_cons in Hi as [->|Hi]; [done|]). by apply not_elem_of_nil in Hi.
  - repeat (apply elem_of_cons in Hi as [->|Hi]; [simpl; lia|]). by apply not_elem_of_nil in Hi.
Qed.

Lemma demo_info_ok : op_ok (OInfo demoInfo).
Proof.
  split; [split|done]; [split; [done|apply unrecognized_nil]|by repeat constructor|done].
Qed.

Lemma demo_state_ok : op_ok (OState demoState).
Proof.
  split; [split|done]; [split; [done..|apply unrecognized_nil]|by repeat constructor|done].
Qed.

Lemma demo_ok : Forall op_ok (saved demo).
Proof.
  change (saved demo) with
    ([OInfo demoInfo; OState demoState] ++ ((λ i, OEntry (demoEntry i)) <$> [0; 1; 2; 3; 2])).
  apply Forall_app. split; [auto using demo_info_ok, demo_state_ok|].
  apply Forall_fmap, Forall_forall. intros i Hi. apply demo_entry_ok. set_solver.
Qed.

Lemma demo_follow : follow 0 (saved demo) replayed0.
Proof. by vm_compute; repeat split; auto. Qed.

Lemma wal_roundtrip_witness :
  ∃ s w, session Nat.double scanName demo = Ret s ∧
    reopen Nat.double scanName (Close s) 0 =
    Ret (w, (7, demoState, [demoEntry 0; demoEntry 1; demoEntry 2], None)).
Proof.
  exact (wal_roundtrip Nat.double scanName scanName_walName demo eq_refl demo_ok demo_follow).
Defined.

Lemma wal_open_at_witness :
  ∃ s w old ops, session Nat.double scanName demo = Ret s ∧ saved demo = old ++ ops ∧
    reopen Nat.double scanName (Close s) 2 =
    Ret (w, (sp_id (replay 2 ops replayed0), sp_state (replay 2 ops replayed0),
             [demoEntry 2], None)).
Proof.
  apply (wal_open_at Nat.double scanName scanName_walName demo 2 eq_refl demo_ok demo_follow).
  lia.
Defined.

(** A record of entry 0 with its first data byte changed. *)
Definition demoReader (bs : list Z) : WAL :=
  mkWAL 0 (Some (newDecoder bs)) (walName 0 0) 0 0 None.

Definition demoFiles : list (list wop) := [[OInfo demoInfo]].
Definition demoRecord : list Z := recBytes (logCrc 0 demoFiles) (OEntry (demoEntry 0)).

Lemma demoFiles_ok : Forall (Forall wop_ok) demoFiles.
Proof. repeat constructor; apply demo_info_ok. Qed.

Lemma corruption_detected_witness :
  ∃ w, ReadAll Nat.double (demoReader (logBytes 0 demoFiles ++
    (take 18 demoRecord ++ [8; 0; 16; 2; 24; 0; 34; 2] ++ [9] ++ [255]) ++ [1; 2])) =
  Ret (w, (0, zeroHardState, [], Some RecordCRCMismatch)).
Proof.
  apply (corruption_detected Nat.double demoFiles (OEntry (demoEntry 0)) (take 18 demoRecord)
    [8; 0; 16; 2; 24; 0; 34; 2] [0] [9] [255] [1; 2]).
  - simpl. lia.
  - reflexivity.
  - apply demoFiles_ok.
  - discriminate.
  - apply demo_entry_ok. set_solver.
  - cbn. auto.
  - vm_compute. reflexivity.
  - by repeat constructor.
  - reflexivity.
  - simpl. lia.
  - discriminate.
  - vm_compute. reflexivity.
  - reflexivity.
Defined.

Lemma torn_write_witness :
  ∃ w, ReadAll Nat.double (demoReader (logBytes 0 demoFiles ++ take 8 demoRecord)) =
  Ret (w, (7, zeroHardState, [], None)).
Proof.
  apply (torn_write Nat.double demoFiles (OEntry (demoEntry 0)) 8).
  - reflexivity.
  - reflexivity.
  - apply demoFiles_ok.
  - discriminate.
  - apply demo_entry_ok. set_solver.
  - cbn. auto.
  - constructor; [apply demo_info_ok|constructor].
  - vm_compute. lia.
  - reflexivity.
Defined.

(** ** Findings *)

(** Cutting loses the id and the state.  The id and the HardState that were saved
    before a Cut are not read when the log is opened at an index of the new file: ReadAll
    returns id 0 and the empty state, with no error. *)
Theorem cut_loses_state :
  (s ← session Nat.double scanName demo;
   '(_, read) ← reopen Nat.double scanName (Close s) 2;
   Ret read) = Ret (0, zeroHardState, [demoEntry 2], None).
Proof. vm_compute. reflexivity. Qed.

(** A missing file after file 0 is not noticed.  isValidSeq takes the sequence number 0
    for the absence of a previous file, so that it accepts any gap that follows file 0,
    while the same gap later is refused. *)
Theorem gap_after_first_accepted :
  (∀ seq i, 0 < seq < 2 ^ 63 → 0 ≤ i < 2 ^ 63 →
    isValidSeq scanName [walName 0 0; walName seq i] = Ok true) ∧
  (∀ seq seq' i i', 0 < seq < 2 ^ 63 → seq + 1 < seq' < 2 ^ 63 →
    0 ≤ i < 2 ^ 63 → 0 ≤ i' < 2 ^ 63 →
    isValidSeq scanName [walName seq i; walName seq' i'] = Ok false).
Proof.
  unfold isValidSeq. split; intros.
  - cbn [isValidSeqFrom]. unfold parseWalName. by rewrite !scanName_walName by lia.
  - cbn [isValidSeqFrom]. unfold parseWalName. rewrite !scanName_walName by lia. simpl.
    rewrite wrapS_id by (try done; unfold inS; lia).
    rewrite (proj2 (Z.eqb_neq seq 0)), (proj2 (Z.eqb_neq seq (seq' - 1))) by lia. done.
Qed.

(** The hypotheses of [gap_after_first_accepted] are met. *)
Lemma gap_after_first_accepted_witness :
  isValidSeq scanName [walName 0 0; walName 5 3] = Ok true.
Proof. apply (proj1 gap_after_first_accepted); lia. Defined.
