(* ===== verification/RaftStorage.v ===== *)
(** * RaftStorage: what a node has promised survives a crash (src/raft/node.go, src/wal)

    A server saves the HardState and the entries of every Ready in the write-ahead log before
    it sends the messages of the Ready.  The theorem: after any life of a node without snapshots,
    with crashes that lose the buffer of the encoder, and restarts, reading the files gives
    back the term, the vote, the commit index and the entries that the node had when it handed
    out its last Ready.

    [steady] says what the handlers of raft.go do to the log of a node: entries that were
    handed out already change only together with new ones that replace them. *)

From S2P Require Import Prelude Raftpb.
From S2P Require Import RaftLog.
From S2P Require Import Raft RaftInv RaftElection RaftNode RaftCluster.
From S2P Require Import Wire RaftpbCodec Walpb Crc Wal WalNames WalRecords WalRead WalProps WalLog WalFaults.

(** ** Logs that grow *)

(** The entries are at their indexes. *)
Definition indexed (l : raftLog) : Prop :=
  ∀ k e, ents l !! k = Some e → Entry_Index e = Z.of_nat k.

(** [l'] comes after [l] without a compaction: nothing has changed up to [committed] and below
    [unstable], and when nothing is unstable nothing has changed at all. *)
Record grows (l l' : raftLog) : Prop := {
  gr_snapshot : snapshot l' = snapshot l;
  gr_committed : committed l ≤ committed l';
  gr_applied : applied l' = applied l;
  gr_kept : take (Z.to_nat (committed l + 1)) (ents l') = take (Z.to_nat (committed l + 1)) (ents l);
  gr_unstable : unstable l' ≤ unstable l;
  gr_stable : take (Z.to_nat (unstable l')) (ents l') = take (Z.to_nat (unstable l')) (ents l);
  gr_settled : unstable l' = lastIndex l' + 1 → unstable l = lastIndex l + 1 ∧ ents l' = ents l;
}.

Record sound (r : raft) : Prop := {
  sd_log : log_ok (rlog r);
  sd_offset : offset (rlog r) = 0;
  sd_indexed : indexed (rlog r);
  sd_term : 0 ≤ Term r;
  sd_vote : Term r = 0 → Vote r = None_;
}.

Definition steady (r r' : raft) : Prop :=
  sound r → sound r' ∧ grows (rlog r) (rlog r') ∧ Term r ≤ Term r'.

Lemma take_less {A} (i j : nat) (l l' : list A) : (i ≤ j)%nat → take j l = take j l' → take i l = take i l'.
Proof. intros Hij E. apply (f_equal (take i)) in E. by rewrite !take_take, !(Nat.min_l i j) in E by lia. Qed.

#[export] Instance grows_refl : Reflexive grows.
Proof. intros l. by split. Qed.

#[export] Instance grows_trans : Transitive grows.
Proof.
  intros l1 l2 l3 [A1 A2 Aa Ak A3 A4 A5] [B1 B2 Ba Bk B3 B4 B5].
  split; [congruence|lia|lia| |lia| |].
  - rewrite <-Ak. apply (take_less _ (Z.to_nat (committed l2 + 1))); [lia|done].
  - rewrite B4. apply (take_less _ (Z.to_nat (unstable l2))); [lia|done].
  - intros H3. destruct (B5 H3) as [H2 ->]. by apply A5.
Qed.

#[export] Instance steady_refl : Reflexive steady.
Proof. intros r Hr. by split_and!. Qed.

#[export] Instance steady_trans : Transitive steady.
Proof.
  intros r1 r2 r3 H12 H23 H1. destruct (H12 H1) as (H2 & G12 & T12). destruct (H23 H2) as (H3 & G23 & T23).
  split_and!; [done|by etrans|lia].
Qed.

(** ** The operations on a log *)
Lemma grows_commit l c :
  log_ok l → committed l ≤ c ≤ lastIndex l → log_ok (l <| committed := c |>) ∧ grows l (l <| committed := c |>).
Proof. intros Hok Hc. split; [destruct Hok as [????? [??]]; log_solve|]. split; simpl; done || lia. Qed.

Lemma take_slice l after :
  offset l = 0 → -1 ≤ after ≤ lastIndex l → slice l 0 (after + 1) = take (Z.to_nat (after + 1)) (ents l).
Proof.
  intros Ho Ha. unfold slice. rewrite Ho. destruct (Z.geb_spec 0 (after + 1)).
  { by replace (after + 1) with 0 by lia. }
  rewrite (proj2 (oob_false l 0)), (proj2 (oob_false l (after + 1 - 1))) by lia. cbn [orb].
  by rewrite !Z.sub_0_r, drop_0.
Qed.

Lemma grows_append l after es :
  log_ok l → offset l = 0 → indexed l → committed l ≤ after ≤ lastIndex l → es ≠ [] →
  (∀ k e, es !! k = Some e → Entry_Index e = after + 1 + Z.of_nat k) →
  log_ok (append after es l) ∧ indexed (append after es l) ∧ grows l (append after es l).
Proof.
  intros Hok Ho Hi Ha Hne Hes. pose proof (ok_applied _ Hok). pose proof (ok_committed _ Hok).
  assert (log_ok (append after es l)) as Hok' by (apply append_ok; [done|lia..]).
  assert (ents (append after es l) = take (Z.to_nat (after + 1)) (ents l) ++ es) as He.
  { unfold append. cbn [ents set set_ents set_unstable]. rewrite Ho, take_slice by (done || lia). done. }
  assert (length (take (Z.to_nat (after + 1)) (ents l)) = Z.to_nat (after + 1)) as Hlen.
  { rewrite length_take. unfold lastIndex, len in Ha. lia. }
  split_and!; [done| |split; try done].
  - intros k e. rewrite He. destruct (decide (k < Z.to_nat (after + 1))%nat) as [Hk|Hk].
    + rewrite lookup_app_l, lookup_take_lt by lia. apply Hi.
    + rewrite lookup_app_r, Hlen by lia. intros Hke%Hes. lia.
  - rewrite He, take_app_le by lia. rewrite take_take. f_equal. lia.
  - simpl. rewrite min_le. lia.
  - rewrite He. assert (Z.to_nat (unstable (append after es l)) ≤ Z.to_nat (after + 1))%nat as Hu.
    { simpl. rewrite min_le. lia. }
    rewrite take_app_le by lia. rewrite take_take. f_equal. lia.
  - intros Hu. exfalso. unfold lastIndex in Hu. rewrite He, len_app in Hu. unfold len in Hu at 1. rewrite Hlen in Hu.
    pose proof (len_pos es Hne). simpl in Hu. rewrite min_le, Ho in Hu. lia.
Qed.

(** The entries of a message follow its index. *)
Definition numbered (m : Message) : Prop :=
  ∀ k e, Message_Entries m !! k = Some e → Entry_Index e = Message_Index m + 1 + Z.of_nat k.

Lemma grows_advance l c :
  log_ok l → log_ok (advanceCommit c l) ∧ grows l (advanceCommit c l) ∧ offset (advanceCommit c l) = offset l ∧
  (indexed l → indexed (advanceCommit c l)).
Proof.
  intros Hok. unfold advanceCommit. destruct (Z.ltb_spec (committed l) c); [|done].
  pose proof (ok_last _ Hok). destruct (grows_commit l (min c (lastIndex l)) Hok) as [H1 H2]; [|done].
  rewrite min_le. lia.
Qed.

Lemma grows_maybeAppend index t c es l l' b :
  log_ok l → offset l = 0 → indexed l → maybeAppend index t c es l = Ok (l', b) →
  (∀ k e, es !! k = Some e → Entry_Index e = index + 1 + Z.of_nat k) →
  log_ok l' ∧ offset l' = 0 ∧ indexed l' ∧ grows l l'.
Proof.
  intros Hok Ho Hi E Hes.
  destruct (maybeAppend_cases index t c es l Hok)
    as [[_ E']|[Hm [[_ E']|(k & Hk & [[_ E']|[Hc E']])]]]; rewrite E' in E; [| |done|].
  - by injection E as <- <-.
  - injection E as <- <-. destruct (grows_advance l c Hok) as (H1 & H2 & H3 & H4). rewrite H3. auto.
  - injection E as <- <-. pose proof (matchTerm_bound _ _ _ Hm). pose proof Hk as (Hlt & _).
    apply first_conflict_bound in Hk; [|lia].
    destruct (grows_append l (index + Z.of_nat k) (drop k es)) as (A1 & A2 & A3); [done..|lia| | |].
    { intros Hd. apply (f_equal length) in Hd. rewrite length_drop in Hd. simpl in Hd. lia. }
    { intros j e. rewrite lookup_drop. intros Hj%Hes. lia. }
    destruct (grows_advance (append (index + Z.of_nat k) (drop k es) l) c A1) as (H1 & H2 & H3 & H4).
    split_and!; [done|by rewrite H3|auto|by etrans].
Qed.

(** ** The handlers *)
Lemma steady_vote r r' :
  rlog r' = rlog r → (0 ≤ Term r → Term r ≤ Term r') → (0 ≤ Term r → Term r' = 0 → Vote r' = None_) → steady r r'.
Proof.
  intros El Et Ev [A B C D _]. specialize (Et D). split_and!; [split; rewrite ?El; auto; lia|by rewrite El|done].
Qed.

Lemma steady_same r r' : rlog r' = rlog r → Term r' = Term r → Vote r' = Vote r → steady r r'.
Proof. intros El Et Ev Hr. apply steady_vote; [done|by rewrite Et| |done]. intros _. rewrite Et, Ev. apply Hr. Qed.

Section handlers.
Context `{MapRange}.
Implicit Types r : raft.

Lemma sendAppend_steady to r r' : sendAppend to r = Ok r' → steady r r'.
Proof. unfold sendAppend. intros E. inv_ok. case_match; inv_ok; subst r'; by apply steady_same. Qed.

(** A loop over the members whose body is steady. *)
Lemma foldM_steady (f : raft → Z → outcome raft) l r r' :
  (∀ r i r', f r i = Ok r' → steady r r') → foldM f l r = Ok r' → steady r r'.
Proof. intros Hf. apply foldM_ind; [apply _..|]. intros a b a' _. apply Hf. Qed.

Lemma bcastAppend_steady r r' : bcastAppend r = Ok r' → steady r r'.
Proof.
  apply foldM_steady. intros r0 i r1. case_match; [by intros [= <-]|]. apply sendAppend_steady.
Qed.

Lemma bcastHeartbeat_steady r r' : bcastHeartbeat r = Ok r' → steady r r'.
Proof. apply foldM_steady. intros r0 i r1. case_match; intros [= <-]; by apply steady_same. Qed.

Lemma maybeCommit_steady r r' b : maybeCommit r = Ok (r', b) → steady r r'.
Proof.
  unfold maybeCommit. destruct (_ !! _) as [mci|]; [|done].
  destruct (RaftLog.maybeCommit mci (Term r) (rlog r)) as [l b'] eqn:E. intros [= <- _] [A B C D V].
  unfold RaftLog.maybeCommit in E. destruct (_ && _) eqn:Ec; injection E as <- _; [|done].
  apply andb_true_iff in Ec as [E1 E2]. to_prop. apply term_bound in E2; [|done].
  destruct (grows_commit (rlog r) mci A) as [H1 H2]; [lia|]. by split_and!.
Qed.

Lemma appendEntry_steady e r r' : appendEntry e r = Ok r' → steady r r'.
Proof.
  unfold appendEntry. set (e' := e <| Entry_Term := Term r |> <| Entry_Index := lastIndex (rlog r) + 1 |>).
  intros E. inv_ok. destruct x0 as [r2 b]. inv_ok. subst r2.
  etrans; [|by eapply maybeCommit_steady]. intros [A B C D V].
  pose proof (ok_last _ A). destruct (grows_append (rlog r) (lastIndex (rlog r)) [e']) as (H1 & H2 & H3);
    [done..|lia|done| |].
  { intros [|k] e0; [intros [= <-]; simpl; lia|done]. }
  split_and!; [by split|done|done].
Qed.

Lemma becomeLeader_steady r r' : becomeLeader r = Ok r' → steady r r'.
Proof.
  unfold becomeLeader. case_decide; [done|]. intros E. inv_ok.
  etrans; [|by eapply appendEntry_steady]. etrans; [|eapply (foldM_ind steady); [apply _..| |done]].
  - apply steady_vote; [done..|]. done.
  - intros a b a' _ Ea. cbv beta in Ea. repeat case_match; try done; injection Ea as <-; by apply steady_same.
Qed.

Lemma becomeCandidate_steady r r' : Term r < maxInt64 → becomeCandidate r = Ok r' → steady r r'.
Proof.
  unfold becomeCandidate. case_decide; [done|]. intros Ht [= <-].
  apply steady_vote; [done|..]; intros Hp; simpl; rewrite int64_succ by done; lia.
Qed.

Lemma poll_steady i v r : steady r (poll i v r).1.
Proof. unfold poll. case_decide; by apply steady_same. Qed.

Lemma campaign_steady r r' : Term r < maxInt64 → campaign r = Ok r' → steady r r'.
Proof.
  unfold campaign. intros Ht E. inv_ok. pose proof (poll_steady (id x) true x) as Hp.
  destruct (poll (id x) true x) as [r1 gr]. inv_ok.
  etrans; [by apply becomeCandidate_steady|]. etrans; [exact Hp|]. etrans; [|eapply foldM_steady; [|done]].
  - destruct (q r1 =? gr); [by apply becomeLeader_steady|]. by injection E1 as <-.
  - intros r0 i r2 Ea. cbv beta in Ea. case_match; injection Ea as <-; by apply steady_same.
Qed.

Lemma handleAppendEntries_steady m r r' : numbered m → handleAppendEntries m r = Ok r' → steady r r'.
Proof.
  unfold handleAppendEntries. intros Hm E. inv_ok. destruct x as [l b]. inv_ok.
  intros [A B C D V]. destruct (grows_maybeAppend _ _ _ _ _ _ _ A B C E0 Hm) as (H1 & H2 & H3 & H4).
  destruct b; subst r'; (split_and!; [by split|done|done]).
Qed.

Lemma stepLeader_steady m r r' : stepLeader m r = Ok r' → steady r r'.
Proof.
  unfold stepLeader. intros E.
  destruct (_ =? msgBeat); [by apply bcastHeartbeat_steady|].
  destruct (_ =? msgProp).
  { destruct (Message_Entries m) as [|e [|]]; [done| |done]. destruct (_ =? EntryConfChange).
    - destruct (pendingConf r); [by injection E as <-|]. inv_ok. etrans; [|by eapply bcastAppend_steady].
      etrans; [|by eapply appendEntry_steady]. by apply steady_same.
    - inv_ok. etrans; [|by eapply bcastAppend_steady]. by eapply appendEntry_steady. }
  destruct (_ =? msgAppResp).
  { inv_ok. destruct (Message_Denied m).
    - etrans; [|by eapply sendAppend_steady]. by apply steady_same.
    - inv_ok. destruct x0 as [r1 b]. etrans; [by apply (steady_same r (r <| prs := <[Message_From m := update (Message_Index m) x]> (prs r) |>))|].
      etrans; [by eapply maybeCommit_steady|]. destruct b; [by apply bcastAppend_steady|by injection E as <-]. }
  destruct (_ =? msgVote); injection E as <-; by apply steady_same.
Qed.

Lemma becomeFollower_steady t l r : Term r ≤ t → steady r (becomeFollower t l r).
Proof. intros Ht. by apply steady_vote. Qed.

(** A message that is not a snapshot, and that a node sends: the entries of an append are
    numbered, and a request for a vote has a term. *)
Definition plain (m : Message) : Prop :=
  Message_Type m ≠ msgSnap ∧ (Message_Type m = msgApp → numbered m) ∧
  (Message_Type m = msgVote → 1 ≤ Message_Term m).

Lemma stepCandidate_steady m r r' : plain m → sound r → stepCandidate m r = Ok r' → steady r r'.
Proof.
  unfold stepCandidate. intros (Hs & Ha & _) Hr E. pose proof (sd_term _ Hr).
  destruct (_ =? msgProp); [done|]. destruct (_ =? msgApp) eqn:Eapp.
  { to_prop. etrans; [|by eapply handleAppendEntries_steady; [apply Ha|]]. by apply becomeFollower_steady. }
  destruct (_ =? msgSnap) eqn:Esnap; [by to_prop|].
  destruct (_ =? msgVote); [injection E as <-; by apply steady_same|].
  destruct (_ =? msgVoteResp); [|by injection E as <-].
  pose proof (poll_steady (Message_From m) (negb (Message_Denied m)) r) as Hp.
  destruct (poll _ _ r) as [r1 gr]. cbn [fst] in Hp. etrans; [exact Hp|].
  destruct (q r1 =? gr).
  { inv_ok. etrans; [by eapply becomeLeader_steady|by eapply bcastAppend_steady]. }
  destruct (_ =? _ - _); injection E as <-; [|done].
  by apply becomeFollower_steady.
Qed.

Lemma stepFollower_steady m r r' :
  plain m → (Message_Type m = msgVote → 1 ≤ Term r) → stepFollower m r = Ok r' → steady r r'.
Proof.
  unfold stepFollower. intros (Hs & Ha & _) Ht E.
  destruct (_ =? msgProp); [case_match; [done|]; injection E as <-; by apply steady_same|].
  destruct (_ =? msgApp) eqn:Eapp.
  { to_prop. etrans; [|by eapply handleAppendEntries_steady; [apply Ha|]]. by apply steady_same. }
  destruct (_ =? msgSnap) eqn:Esnap; [by to_prop|].
  destruct (_ =? msgVote) eqn:Ev; [|by injection E as <-]. inv_ok. to_prop. specialize (Ht Ev).
  destruct x; subst r'; [|by apply steady_same]. apply steady_vote; simpl; [done|lia..].
Qed.

Lemma callStep_steady m r r' :
  plain m → (Message_Type m = msgVote → 1 ≤ Term r) → sound r → callStep m r = Ok r' → steady r r'.
Proof.
  unfold callStep. intros Hm Ht Hr. destruct (step_ r); [by apply stepFollower_steady|by apply stepCandidate_steady|apply stepLeader_steady].
Qed.

Lemma Step_steady m r r' :
  plain m → Term r < maxInt64 → sound r → Step m r = Ok r' → sound r' ∧ grows (rlog r) (rlog r') ∧ Term r ≤ Term r' ∧ Commit r' = committed (rlog r').
Proof.
  intros Hm Ht Hr E. enough (steady r r' ∧ Commit r' = committed (rlog r')) as [Hs ?].
  { destruct (Hs Hr) as (? & ? & ?). done. }
  unfold Step in E. destruct (default false _).
  { injection E as <-. split; [|by destruct (_ =? id r)]. destruct (_ =? id r); by apply steady_same. }
  destruct (_ =? msgDenied); [injection E as <-; split; [by apply steady_same|done]|].
  inv_ok. assert (steady r x) as Hx.
  { destruct (_ =? msgHup); [by apply campaign_steady|by injection E0 as <-]. }
  destruct (Hx Hr) as (Sx & _).
  assert (∀ y r', steady x y → sound y → (Message_Type m = msgVote → 1 ≤ Term y) → (z ← callStep m y; Ok (saveCommit z)) = Ok r' →
    steady r r' ∧ Commit r' = committed (rlog r')) as Hcall.
  { intros y r0 Hy Sy Hv E1. inv_ok. subst r0. split; [|done]. etrans; [exact Hx|]. etrans; [exact Hy|].
    etrans; [by eapply callStep_steady|]. by apply steady_same. }
  destruct Hm as (_ & _ & Hv). destruct (_ =? 0) eqn:E1; to_prop.
  { eapply Hcall; [done|done| |exact E]. intros Ev%Hv. lia. }
  destruct (_ >? _) eqn:E2; to_prop.
  - assert (steady x (becomeFollower (Message_Term m)
      (if Message_Type m =? msgVote then None_ else Message_From m) x)) as Hb.
    { apply becomeFollower_steady. pose proof (sd_term _ Sx). lia. }
    eapply Hcall; [exact Hb|by apply Hb|exact Hv|exact E].
  - destruct (_ <? _) eqn:E3; to_prop.
    + injection E as <-. split; [|done]. etrans; [exact Hx|by apply steady_same].
    + eapply Hcall; [done|done| |exact E]. intros Ev%Hv. lia.
Qed.

Lemma tick_steady r r' :
  Term r < maxInt64 → sound r → Commit r = committed (rlog r) → tick r = Ok r' →
  sound r' ∧ grows (rlog r) (rlog r') ∧ Term r ≤ Term r' ∧ Commit r' = committed (rlog r').
Proof.
  intros Ht Hr Hc E.
  assert (∀ e, sound (r <| elapsed := e |>)) as Hs by (intros e; by destruct Hr; split).
  assert (∀ ty e e' r1, ty = msgHup ∨ ty = msgBeat →
    Step (zeroMessage <| Message_From := id r |> <| Message_Type := ty |>)
      (r <| elapsed := e |> <| elapsed := e' |>) = Ok r1 →
    sound r1 ∧ grows (rlog r) (rlog r1) ∧ Term r ≤ Term r1 ∧ Commit r1 = committed (rlog r1)) as Hstep.
  { intros ty e e' r1 Hty HS. apply Step_steady in HS; [done| |done|apply Hs].
    split_and!; [|intros _ [|k] e0 Hk; done|]; by destruct Hty as [-> | ->]. }
  unfold tick, tickElection, tickHeartbeat in E.
  repeat case_match; first [by eapply Hstep; [..|exact E]; auto|injection E as <-; by split_and!; [apply Hs|done..]].
Qed.
End handlers.

(** ** Replaying saved entries *)
Lemma replay_entries es i t :
  0 ≤ i → i ≤ len (sp_ents t) → (∀ k e, es !! k = Some e → Entry_Index e = i + Z.of_nat k) →
  follow 0 (OEntry <$> es) t ∧
  let t' := replay 0 (OEntry <$> es) t in
  sp_id t' = sp_id t ∧ sp_state t' = sp_state t ∧
  sp_ents t' = if decide (es = []) then sp_ents t else take (Z.to_nat i) (sp_ents t) ++ es.
Proof.
  revert i t. induction es as [|e es IH]; intros i t Hi Hle Hes; [done|].
  assert (Entry_Index e = i) as He by (rewrite (Hes 0%nat e eq_refl); lia).
  cbn [fmap list_fmap]. set (t1 := replayOp 0 t (OEntry e)).
  assert (sp_ents t1 = take (Z.to_nat i) (sp_ents t) ++ [e]) as H1.
  { unfold t1. cbn. rewrite He, (proj2 (Z.leb_le 0 i)) by lia. by rewrite Z.sub_0_r. }
  assert (len (sp_ents t1) = i + 1) as Hlen.
  { rewrite H1. unfold len in *. rewrite length_app, length_take. simpl. lia. }
  destruct (IH (i + 1) t1) as (Hf & Hid & Hst & Hents); [lia|lia| |].
  { intros k e' Hk. rewrite (Hes (S k) e' Hk). lia. }
  split; [split; [|done]; cbn; rewrite He; lia|]. cbn zeta in *.
  change (replay 0 (OEntry e :: (OEntry <$> es)) t) with (replay 0 (OEntry <$> es) t1).
  rewrite Hid, Hst, Hents. split_and!; [done..|]. rewrite (decide_False (P := e :: es = [])) by done.
  assert (take (Z.to_nat (i + 1)) (sp_ents t1) = sp_ents t1) as Ht.
  { apply take_ge. unfold len in Hlen. lia. }
  case_decide as Hes0; [by subst; rewrite H1|]. by rewrite Ht, H1, <-app_assoc.
Qed.

(** ** A process that dies *)

(** What it leaves: the files.  The records that are still in the buffer of the encoder are
    lost. *)
Definition crashed (s : disk * WAL) : disk := s.1.

Section crashing.
Context (grow : nat → nat) (scan : string → option (Z * Z)).

(** The steps of a log, where [WReopen] is a crash and the restart after it. *)
Definition crashStep (st : wstep) (s : disk * WAL) : run (disk * WAL) :=
  match st with
  | WReopen =>
      '(w, (_, _, _, err)) ← reopen grow scan (crashed s) 0;
      match err with
      | None => Ret (crashed s, w)
      | Some _ => Crash "read"
      end
  | _ => runStep grow scan st s
  end.
Fixpoint crashSteps (steps : list wstep) (s : disk * WAL) : run (disk * WAL) :=
  match steps with
  | [] => Ret s
  | st :: steps => s ← crashStep st s; crashSteps steps s
  end.
Definition crashSession (steps : list wstep) : run (disk * WAL) :=
  r ← lift (Create ∅);
  match r with
  | inl _ => Crash "create"
  | inr s => crashSteps steps s
  end.

(** Every record is in the files after these steps. *)
Definition syncing (st : wstep) : Prop :=
  match st with WSave _ _ | WSync | WReopen => True | _ => False end.

(** A crash comes only when every record is in the files; [b] says that it is so. *)
Fixpoint calm (b : Prop) (steps : list wstep) : Prop :=
  match steps with
  | [] => True
  | st :: steps => (st = WReopen → b) ∧ calm (syncing st) steps
  end.

Lemma Sync_twice s : Sync (Sync s) = Sync s.
Proof.
  destruct s as [d w]. unfold Sync. destruct (w_encoder w) as [e|] eqn:E; [|by rewrite E].
  destruct (flush (content (w_f w) d) e) as [file e'] eqn:Ef. cbn [w_encoder w_f set set_w_encoder].
  unfold flush in *. injection Ef as <- <-. unfold content. rewrite lookup_insert_eq. cbn. rewrite app_nil_r.
  f_equal. by rewrite insert_insert_eq.
Qed.

(** After a step that syncs, closing the log changes nothing. *)
Lemma crashed_Close n hist files s s' st :
  logged n hist files s → runStep grow scan st s = Ret s' → syncing st →
  (∀ w r, st = WReopen → reopen grow scan (Close s) 0 = Ret (w, r) → ∃ n', logged n' hist files (Close s, w)) →
  crashed s' = Close s'.
Proof.
  intros Hl E Hst Hr. destruct st as [| | |hs es| | |]; try done; cbn [runStep] in E.
  - destruct (Save hs es s) as [s1|] eqn:Es; [|done]. injection E as <-. unfold Save in Es.
    inv_ok. subst. unfold Close, crashed. by rewrite Sync_twice.
  - injection E as <-. unfold Close, crashed. by rewrite Sync_twice.
  - destruct (reopen _ _ _ _) as [[w [[[id st] es] err]]| |] eqn:Eo; try done. cbn [mbind run_bind] in E.
    destruct err; [done|]. injection E as <-. destruct (Hr w _ eq_refl eq_refl) as [n' Hl'].
    unfold crashed. cbn [fst]. unfold Close at 2. rewrite (rp_disk _ _ (lg_rep _ _ _ _ Hl')).
    unfold Close. by rewrite (rp_disk _ _ (lg_rep _ _ _ _ Hl)).
Qed.

Hypothesis scan_walName : ∀ seq i,
  0 ≤ seq < 2 ^ 63 → 0 ≤ i < 2 ^ 63 → scan (walName seq i) = Some (seq, i).

(** When the crashes come after the records were synced, they lose nothing. *)
Lemma crashSteps_logged (b : Prop) steps n hist files s :
  logged n hist files s → n + len steps < 2 ^ 63 → Forall op_ok (saved steps) →
  follow 0 (hist ++ saved steps) replayed0 → (b → crashed s = Close s) → calm b steps →
  ∃ files' s', crashSteps steps s = Ret s' ∧ logged (n + len steps) (hist ++ saved steps) files' s' ∧
    (∀ st, last steps = Some st → syncing st → crashed s' = Close s').
Proof.
  revert b n hist files s. induction steps as [|st steps IH]; intros b n hist files s Hl Hn Hok Hf Hb Hcalm.
  { exists files, s. rewrite app_nil_r, Z.add_0_r. done. }
  unfold saved in *. cbn [fmap list_fmap concat calm] in *. rewrite len_cons in *.
  apply Forall_app in Hok as [Hok1 Hok2]. rewrite app_assoc in Hf |- *. destruct Hcalm as [Hc1 Hc2].
  pose proof (len_nonneg steps). pose proof Hf as Hf'. apply follow_app in Hf' as [Hf1 _].
  destruct (logged_step grow scan scan_walName n hist files s st) as (fs & s1 & Hs & Hl1); [done|lia|done|done|].
  assert (crashStep st s = Ret s1) as Hs'.
  { destruct st; try done. cbn [crashStep runStep] in *. by rewrite (Hb (Hc1 eq_refl)). }
  assert (syncing st → crashed s1 = Close s1) as Hb1.
  { intros Hst. apply (crashed_Close n hist files s s1 st Hl Hs Hst). intros w r -> Er.
    pose proof (lastSaved_range hist (lg_ok _ _ _ _ Hl)).
    destruct (logged_read grow scan scan_walName n hist files s 0 Hl) as (old & ops & w' & _ & _ & Hr & Hl'); [done|].
    rewrite Er in Hr. injection Hr as <- _. exists n. apply Hl'. lia. }
  cbn [crashSteps]. rewrite Hs'. rewrite Z.add_assoc.
  destruct (IH (syncing st) (n + 1) (hist ++ stepOps st) fs s1) as (fs2 & s2 & E2 & L2 & H2); [done|lia|done|done|done|done|].
  exists fs2, s2. split_and!; [done|done|]. intros st'. destruct steps as [|st2 steps]; [|apply H2].
  intros [= <-]. cbn [crashSteps mbind run_bind] in E2. by injection E2 as <-.
Qed.

(** A log whose last records were synced, after a crash. *)
Lemma crash_read steps st :
  last steps = Some st → syncing st → calm False steps →
  len steps < 2 ^ 63 - 1 → Forall op_ok (saved steps) → follow 0 (saved steps) replayed0 →
  ∃ s w, crashSession steps = Ret s ∧
    let t := replay 0 (saved steps) replayed0 in
    reopen grow scan (crashed s) 0 = Ret (w, (sp_id t, sp_state t, sp_ents t, None)).
Proof.
  intros Hst Hsync Hcalm Hn Hok Hf. unfold crashSession.
  destruct (Create_rep ∅) as (s0 & Hs & _); [done|]. rewrite Hs. cbn [lift mbind run_bind].
  destruct (crashSteps_logged False steps 1 [] [(0, [])] s0) as (fs & s & E & Hl & Hc);
    [by apply logged_create|lia|done..|].
  destruct (logged_read grow scan scan_walName _ _ fs s 0 Hl) as (old & ops & w & Hh & Hold & Hr & _); [done|].
  pose proof (lastSaved_range _ Hok). rewrite app_nil_l in *. rewrite (proj2 (Z.ltb_ge _ 0)) in Hr by lia.
  exists s, w. split; [done|]. rewrite (Hc st Hst Hsync), Hr, Hh, Hold by done. by rewrite drop_0.
Qed.
End crashing.

(** ** The life of a node *)
Definition saving (rd : Ready) : wstep := WSave (rd_HardState rd) (rd_Entries rd).

(** What a write-ahead log gives back after the steps [steps]. *)
Definition onDisk (steps : list wstep) : replayed := replay 0 (saved steps) replayed0.

(** The events between two Readys; there is no compaction. *)
Definition local (ev : event) : Prop :=
  match ev with
  | EvProp m | EvRecv m => plain m
  | EvConf _ | EvTick => True
  | EvCompact _ | EvReady => False
  end.

Section life.
Context `{MapRange}.

(** [life n steps ds]: the node [n] runs, [steps] were done on its write-ahead log, and it has
    given the committed entries [ds] to the server since it was started.  Each Ready is saved.
    A crash can come at any time after the first one, but not between a cut of the log and the
    next Ready; the node is then started again with what the log holds, and with any peers. *)
Inductive life : node → list wstep → list Entry → Prop :=
  | life_start i peers el hb n : StartNode i peers el hb = Ok n → life n [] []
  | life_event n steps ds ev n' :
      life n steps ds → local ev → Term (n_raft n) < maxInt64 → iterate ev n = Some (Ok n') →
      life n' steps ds
  | life_ready n steps ds n' :
      life n steps ds → iterate EvReady n = Some (Ok n') →
      life n' (steps ++ [saving (ready n)]) (ds ++ rd_CommittedEntries (ready n))
  | life_cut n steps ds : life n steps ds → life n (steps ++ [WCut]) ds
  | life_restart n steps ds i peers el hb n' :
      life n steps ds → sp_ents (onDisk steps) ≠ [] → last steps ≠ Some WCut →
      RestartNode i peers el hb None (sp_state (onDisk steps)) (sp_ents (onDisk steps)) = Ok n' →
      life n' (steps ++ [WReopen]) [].

Definition at_indexes (es : list Entry) : Prop := ∀ k e, es !! k = Some e → Entry_Index e = Z.of_nat k.

Record durable (n : node) (steps : list wstep) (ds : list Entry) : Prop := {
  du_sound : sound (n_raft n);
  du_commit : Commit (n_raft n) = committed (rlog (n_raft n));
  du_snap : snapshot (rlog (n_raft n)) = zeroSnapshot ∧ n_prevSnapi n = 0;
  du_follow : follow 0 (saved steps) replayed0;
  du_id : sp_id (onDisk steps) = 0;
  du_indexed : at_indexes (sp_ents (onDisk steps));
  du_stable : unstable (rlog (n_raft n)) ≤ len (sp_ents (onDisk steps)) ∧
    take (Z.to_nat (unstable (rlog (n_raft n)))) (ents (rlog (n_raft n))) =
    take (Z.to_nat (unstable (rlog (n_raft n)))) (sp_ents (onDisk steps));
  du_settled : unstable (rlog (n_raft n)) = lastIndex (rlog (n_raft n)) + 1 →
    sp_ents (onDisk steps) = ents (rlog (n_raft n));
  du_state : sp_state (onDisk steps) = n_prevHardSt n;
  du_term : 0 ≤ HardState_Term (n_prevHardSt n) ≤ Term (n_raft n);
  du_vote : HardState_Term (n_prevHardSt n) = 0 → HardState_Vote (n_prevHardSt n) = None_;
  du_xxx : HardState_XXX (n_prevHardSt n) = [];
  du_range : 0 ≤ HardState_Commit (n_prevHardSt n) ≤ committed (rlog (n_raft n));
  du_delivered : ds = take (Z.to_nat (applied (rlog (n_raft n)))) (drop 1 (ents (rlog (n_raft n))));
  du_reach : sp_ents (onDisk steps) ≠ [] → HardState_Commit (n_prevHardSt n) < len (sp_ents (onDisk steps));
}.

Lemma take_drop_commute {A} (l : list A) n : take n (drop 1 l) = drop 1 (take (S n) l).
Proof. destruct l; [by destruct n|done]. Qed.

Lemma durable_start i peers el hb n : StartNode i peers el hb = Ok n → durable n [] [].
Proof.
  unfold StartNode, newRaft. case_match; [done|]. intros [= <-].
  split; try done; simpl; try lia.
  split; try done. intros [|k] e; [by intros [= <-]|done].
Qed.

(** The log of the node grows, and nothing else that matters changes. *)
Lemma durable_grows n n' steps ds :
  durable n steps ds → sound (n_raft n') → grows (rlog (n_raft n)) (rlog (n_raft n')) → Term (n_raft n) ≤ Term (n_raft n') →
  Commit (n_raft n') = committed (rlog (n_raft n')) →
  n_prevHardSt n' = n_prevHardSt n → n_prevSnapi n' = n_prevSnapi n → durable n' steps ds.
Proof.
  intros [A1 A2 [A3 A3'] A4 A5 A6 [A7 A8] A9 A10 A11 A12 A13 A14 Ad A15] Hs [G1 G2 Ga Gk G3 G4 G5] Ht Hc Ep Esn.
  split; rewrite ?Ep, ?Esn; try done.
  - by rewrite G1.
  - split; [lia|]. rewrite G4. apply (take_less _ (Z.to_nat (unstable (rlog (n_raft n))))); [lia|done].
  - intros Hu. destruct (G5 Hu) as [Hu' ->]. by apply A9.
  - lia.
  - lia.
  - rewrite Ad, Ga. rewrite !take_drop_commute. f_equal. symmetry.
    apply (take_less _ (Z.to_nat (committed (rlog (n_raft n)) + 1))); [|done].
    pose proof (sd_log _ A1) as [? ? ? ? _ _]. lia.
Qed.

Lemma durable_event n n' ev steps ds :
  durable n steps ds → local ev → Term (n_raft n) < maxInt64 → iterate ev n = Some (Ok n') → durable n' steps ds.
Proof.
  intros D Hev Ht E. unfold iterate in E.
  assert (∀ n1, n1 = loopTop n → n_raft n1 = n_raft n ∧ n_prevHardSt n1 = n_prevHardSt n ∧
    n_prevSnapi n1 = n_prevSnapi n) as HT.
  { intros n1 ->. unfold loopTop. by repeat case_match. }
  destruct (HT _ eq_refl) as (E1 & E2 & E3). destruct (enabled _ ev); [|done]. injection E as E.
  pose proof (du_sound _ _ _ D) as Hs. pose proof (du_commit _ _ _ D) as Hc.
  assert (∀ m r', plain m → Step m (n_raft n) = Ok r' → durable ((loopTop n) <| n_raft := r' |>) steps ds) as HS.
  { intros m r' Hm HS. apply Step_steady in HS as (S1 & S2 & S3 & S4); [|done..].
    by apply (durable_grows n). }
  assert (∀ r', rlog r' = rlog (n_raft n) → Term r' = Term (n_raft n) → Vote r' = Vote (n_raft n) →
    Commit r' = Commit (n_raft n) → durable ((loopTop n) <| n_raft := r' |>) steps ds) as HC.
  { intros r' F1 F2 F3 F4. destruct (steady_same _ r' F1 F2 F3 Hs) as (S1 & S2 & S3).
    apply (durable_grows n); [done|done|done|done| |done..]. cbn [n_raft set set_n_raft]. congruence. }
  destruct ev as [m|m|d|cc| |]; cbn [selectCase local] in *; rewrite ?E1 in E; [| |done| | |done].
  - inv_ok. subst n'. by eapply HS; [|exact E0].
  - inv_ok. subst n'. by eapply HS; [|exact E0].
  - destruct (_ =? _); [inv_ok; subst n'; by apply HC|]. destruct (_ =? _); inv_ok; subst n'; by apply HC.
  - inv_ok. subst n'. apply tick_steady in E0 as (S1 & S2 & S3 & S4); [|done..]. by apply (durable_grows n).
Qed.

Lemma loopTop_durable n steps ds : durable n steps ds → durable (loopTop n) steps ds.
Proof. intros D. unfold loopTop. repeat case_match; [|done..]. by destruct D. Qed.

Lemma unstableEnts_drop l :
  log_ok l → offset l = 0 → unstableEnts l = drop (Z.to_nat (unstable l)) (ents l).
Proof.
  intros [? ? ? ? ? [??]] Ho. unfold unstableEnts, slice. destruct (Z.geb_spec (unstable l) (lastIndex l + 1)).
  - rewrite drop_ge; [done|]. unfold lastIndex, len in *. lia.
  - rewrite (proj2 (oob_false l _)), (proj2 (oob_false l (lastIndex l + 1 - 1))) by lia. cbn [orb].
    rewrite Ho, Z.sub_0_r. apply take_ge. rewrite length_drop. unfold lastIndex, len in *. lia.
Qed.

Lemma onDisk_app steps st : onDisk (steps ++ [st]) = replay 0 (stepOps st) (onDisk steps).
Proof.
  unfold onDisk, saved. rewrite fmap_app, concat_app. cbn [fmap list_fmap concat]. rewrite app_nil_r.
  apply replay_app.
Qed.

Lemma follow_saved steps st :
  follow 0 (saved steps) replayed0 → follow 0 (stepOps st) (onDisk steps) → follow 0 (saved (steps ++ [st])) replayed0.
Proof.
  intros H1 H2. unfold saved. rewrite fmap_app, concat_app. cbn [fmap list_fmap concat]. rewrite app_nil_r.
  by apply follow_app.
Qed.

Lemma durable_quiet n steps st ds : stepOps st = [] → durable n steps ds → durable n (steps ++ [st]) ds.
Proof.
  intros E D. assert (onDisk (steps ++ [st]) = onDisk steps) as Ed by (rewrite onDisk_app, E; done).
  destruct D. split; rewrite ?Ed; try done. apply follow_saved; [done|]. by rewrite E.
Qed.

Lemma durable_restart n steps ds i peers el hb n' :
  durable n steps ds → sp_ents (onDisk steps) ≠ [] →
  RestartNode i peers el hb None (sp_state (onDisk steps)) (sp_ents (onDisk steps)) = Ok n' →
  durable n' steps [].
Proof.
  intros [A1 A2 A3 A4 A5 A6 A7 A8 A9 [A10 A10'] A11 A12 A13 Ad A14] Hne. unfold RestartNode, newRaft.
  case_match; [done|]. intros [= <-]. specialize (A14 Hne). rewrite A9. set (st := n_prevHardSt n) in *.
  set (es := sp_ents (onDisk steps)) in *. pose proof (len_pos es Hne).
  assert (hardState (loadEnts es (loadState st (becomeFollower 0 None_ (mkRaft 0 0 0 i newLog
    (foldl (λ m p, <[p := mkProgress 0 0]> m) ∅ peers) StateFollower ∅ [] None_ false ∅ 0 hb el
    TickElection StepFollower)))) = st) as Hst.
  { unfold hardState. simpl. destruct st. simpl in *. by subst. }
  split; unfold startRun; cbn [n_raft n_prevHardSt n_prevSnapi]; rewrite ?Hst; try done; simpl; try lia.
  split; simpl; try done. split; simpl; try done; unfold lastIndex; simpl; lia.
Qed.

Lemma hardState_eq a b :
  isHardStateEqual a b = true → HardState_XXX a = HardState_XXX b → a = b.
Proof.
  unfold isHardStateEqual. destruct a, b. simpl. rewrite !andb_true_iff, !Z.eqb_eq.
  intros [[-> ->] ->] ->. done.
Qed.

(** After a Ready the HardState that was handed out last is the one of the node. *)
Lemma accept_state n steps ds :
  durable n steps ds → n_prevHardSt (acceptReady n) = hardState (n_raft n).
Proof.
  intros D. unfold acceptReady. cbn [n_prevHardSt]. unfold ready, newReady. cbn [rd_HardState].
  destruct (isHardStateEqual (hardState (n_raft n)) (n_prevHardSt n)) eqn:E; cbn [negb].
  - apply hardState_eq in E; [done|]. by rewrite (du_xxx _ _ _ D).
  - destruct (IsEmptyHardState (hardState (n_raft n))) eqn:Ee; [|done]. cbn [negb].
    apply hardState_eq in Ee; [|done]. rewrite Ee. unfold hardState in Ee. injection Ee as Et Ev Ec.
    destruct (du_term _ _ _ D) as [T1 T2]. destruct (du_range _ _ _ D) as [R1 R2].
    pose proof (du_commit _ _ _ D) as Hc. pose proof (du_vote _ _ _ D) as Hv. pose proof (du_xxx _ _ _ D) as Hx.
    destruct (n_prevHardSt n) as [t v c x]. simpl in *. unfold None_ in *.
    assert (t = 0) as -> by lia. rewrite Hv by done. assert (c = 0) as -> by lia. by rewrite Hx.
Qed.

Lemma replay_state st es t :
  replay 0 (written (OState st) ++ es) t =
  replay 0 es (mkReplayed (sp_id t) (if IsEmptyHardState st then sp_state t else st) (sp_ents t) (sp_enti t)).
Proof. cbn [written]. by destruct (IsEmptyHardState st), t. Qed.

Lemma follow_state st es t :
  follow 0 es (mkReplayed (sp_id t) (if IsEmptyHardState st then sp_state t else st) (sp_ents t) (sp_enti t)) →
  follow 0 (written (OState st) ++ es) t.
Proof. cbn [written]. by destruct (IsEmptyHardState st), t. Qed.

(** The saved Ready: the log then holds the state and the entries of the node. *)
Lemma saved_ready n steps ds :
  durable n steps ds →
  let steps' := steps ++ [saving (ready n)] in
  follow 0 (saved steps') replayed0 ∧ sp_id (onDisk steps') = 0 ∧
  sp_state (onDisk steps') = hardState (n_raft n) ∧ sp_ents (onDisk steps') = ents (rlog (n_raft n)).
Proof.
  intros D. pose proof (accept_state n steps ds D) as Ha. unfold acceptReady in Ha. cbn [n_prevHardSt] in Ha.
  pose proof (du_sound _ _ _ D) as [S1 S2 S3 _ _]. destruct (du_stable _ _ _ D) as [Hu Hst].
  cbn zeta. rewrite onDisk_app. cbn [stepOps saving]. rewrite replay_state.
  assert (rd_Entries (ready n) = drop (Z.to_nat (unstable (rlog (n_raft n)))) (ents (rlog (n_raft n)))) as ->
    by by apply unstableEnts_drop.
  set (u := unstable (rlog (n_raft n))) in *. set (l := rlog (n_raft n)) in *.
  assert (0 ≤ u) as Hu0 by (destruct S1 as [????? [??]]; unfold u; lia).
  set (t := mkReplayed _ _ _ _).
  destruct (replay_entries (drop (Z.to_nat u) (ents l)) u t) as (Hf & Hid & Hs & He); [done|done| |].
  { intros k e. rewrite lookup_drop. intros Hk%S3. lia. }
  cbn zeta in *. split_and!.
  - apply follow_saved; [apply D|]. cbn [stepOps]. apply follow_state.
    assert (rd_Entries (ready n) = drop (Z.to_nat u) (ents l)) as -> by by apply unstableEnts_drop. exact Hf.
  - rewrite Hid. apply D.
  - rewrite Hs. unfold t. cbn [sp_state]. rewrite (du_state _ _ _ D).
    by destruct (IsEmptyHardState (rd_HardState (ready n))).
  - rewrite He. unfold t. cbn [sp_ents]. case_decide as Hd; [|by rewrite <-Hst, take_drop].
    apply (du_settled _ _ _ D). apply (f_equal length) in Hd. rewrite length_drop in Hd. simpl in Hd.
    destruct S1 as [????? [??]]. unfold lastIndex, len in *. fold l u. lia.
Qed.

(** The entries that were delivered, and the next ones. *)
Lemma delivered_next l :
  log_ok l → offset l = 0 →
  take (Z.to_nat (applied l)) (drop 1 (ents l)) ++ nextEnts l = take (Z.to_nat (committed l)) (drop 1 (ents l)) ∧
  applied (resetNextEnts l) = committed l.
Proof.
  intros [? ? ? ? ? _] Ho. unfold nextEnts, resetNextEnts. destruct (_ >? _) eqn:E; to_prop.
  - split; [|done]. unfold slice. rewrite (proj2 (oob_false l _)), (proj2 (oob_false l (committed l + 1 - 1))) by lia.
    destruct (Z.geb_spec (applied l + 1) (committed l + 1)); [lia|]. cbn [orb]. rewrite Ho.
    replace (Z.to_nat (applied l + 1 - 0)) with (1 + Z.to_nat (applied l))%nat by lia.
    rewrite <-drop_drop, take_take_drop. f_equal. lia.
  - replace (committed l) with (applied l) by lia. split; [apply app_nil_r|done].
Qed.

Lemma durable_ready n steps ds :
  durable n steps ds →
  durable (acceptReady n) (steps ++ [saving (ready n)]) (ds ++ rd_CommittedEntries (ready n)).
Proof.
  intros D. destruct (saved_ready n steps ds D) as (Hf & Hid & Hs & He).
  pose proof (accept_state n steps ds D) as Ha. pose proof (du_sound _ _ _ D) as [S1 S2 S3 S4 S5].
  set (l := rlog (n_raft n)) in *.
  assert (rlog (n_raft (acceptReady n)) = resetUnstable (resetNextEnts l)) as Hl by done.
  assert (ents (resetUnstable (resetNextEnts l)) = ents l ∧ committed (resetUnstable (resetNextEnts l)) = committed l ∧
    offset (resetUnstable (resetNextEnts l)) = 0 ∧ snapshot (resetUnstable (resetNextEnts l)) = snapshot l ∧
    lastIndex (resetUnstable (resetNextEnts l)) = lastIndex l ∧
    unstable (resetUnstable (resetNextEnts l)) = len (ents l)) as (L1 & L2 & L3 & L4 & L5 & L6).
  { unfold resetNextEnts, lastIndex. case_match; simpl; unfold lastIndex; simpl; split_and!; try done; lia. }
  pose proof (ok_last _ S1). pose proof (ok_committed _ S1). pose proof (ok_applied _ S1).
  destruct (du_snap _ _ _ D) as [N1 N2]. pose proof (du_commit _ _ _ D) as Hc. fold l in Hc, N1.
  split; rewrite ?Ha, ?Hl; try rewrite Hs; try rewrite He; try done.
  - split; rewrite ?Hl; [by apply resetUnstable_ok, resetNextEnts_ok|done| |done..]. unfold indexed. by rewrite L1.
  - by rewrite L2.
  - rewrite L4. split; [done|]. unfold acceptReady. cbn [n_prevSnapi]. unfold ready, newReady. cbn [rd_Snapshot].
    fold l. rewrite N1, N2. done.
  - rewrite L6, L1. split; [lia|done].
  - rewrite L2. cbn [hardState HardState_Commit]. lia.
  - rewrite (du_delivered _ _ _ D), L1. fold l. change (rd_CommittedEntries (ready n)) with (nextEnts l).
    destruct (delivered_next l S1 S2) as [-> Happ]. by rewrite <-Happ.
  - intros _. simpl. rewrite Hc. unfold lastIndex in *. rewrite S2 in *. lia.
Qed.

Lemma life_durable n steps ds : life n steps ds → durable n steps ds.
Proof.
  induction 1 as [i peers el hb n E|n steps ds ev n' _ IH Hev Ht E|n steps ds n' _ IH E|n steps ds _ IH|
    n steps ds i peers el hb n' _ IH Hne _ E].
  - by eapply durable_start.
  - by eapply durable_event.
  - apply loopTop_durable in IH. unfold iterate in E. destruct (enabled _ _); [|done].
    injection E as <-. rewrite <-(loopTop_ready n). by apply durable_ready.
  - by apply durable_quiet.
  - apply durable_quiet; [done|]. by eapply durable_restart.
Qed.

Lemma calm_snoc b steps st :
  calm b steps → (st = WReopen → match last steps with Some st' => syncing st' | None => b end) →
  calm b (steps ++ [st]).
Proof.
  revert b. induction steps as [|st' steps IH]; intros b Hc Hst; [done|].
  destruct Hc as [H1 H2]. split; [done|]. apply IH; [done|]. intros E. specialize (Hst E).
  destruct steps as [|st2 steps]; [done|]. rewrite last_cons_cons in Hst.
  destruct (last (st2 :: steps)) eqn:El; [done|]. by apply last_None in El.
Qed.

(** The crashes of a life come when every record is in the files. *)
Lemma life_calm n steps ds :
  life n steps ds → calm False steps ∧ ∀ st, last steps = Some st → st = WCut ∨ syncing st.
Proof.
  assert (∀ steps st, calm False steps → (st = WCut ∨ syncing st) → st ≠ WReopen →
    calm False (steps ++ [st]) ∧ ∀ st', last (steps ++ [st]) = Some st' → st' = WCut ∨ syncing st') as Hsnoc.
  { intros steps0 st H1 H2 H3. split; [by apply calm_snoc|]. intros st'. rewrite last_snoc. by intros [= <-]. }
  induction 1 as [| |n steps ds n' _ [IH1 IH2] _|n steps ds _ [IH1 IH2]|
    n steps ds i peers el hb n' _ [IH1 IH2] Hne Hcut _]; [done|done| | |].
  - apply Hsnoc; [done|by right|done].
  - apply Hsnoc; [done|by left|done].
  - split; [|intros st; rewrite last_snoc; intros [= <-]; by right].
    apply calm_snoc; [done|]. intros _. destruct (last steps) as [st|] eqn:E.
    + destruct (IH2 st eq_refl) as [->|?]; done.
    + by apply last_None in E as ->.
Qed.
End life.

(** ** Crash and restart *)
Section crash.
Context `{MapRange} (grow : nat → nat) (scan : string → option (Z * Z)).
Hypothesis scan_walName : ∀ seq i,
  0 ≤ seq < 2 ^ 63 → 0 ≤ i < 2 ^ 63 → scan (walName seq i) = Some (seq, i).

(** A node that is started from the log of [n] after a Ready was saved. *)
Lemma restarted n steps ds i peers el hb :
  life n steps ds → i ≠ None_ →
  let steps' := steps ++ [saving (ready n)] in
  len steps' < 2 ^ 63 - 1 → Forall op_ok (saved steps') →
  ∃ s w st es n', crashSession grow scan steps' = Ret s ∧
    reopen grow scan (crashed s) 0 = Ret (w, (0, st, es, None)) ∧
    RestartNode i peers el hb None st es = Ok n' ∧
    hardState (n_raft n') = hardState (n_raft n) ∧
    ents (rlog (n_raft n')) = ents (rlog (n_raft n)) ∧
    committed (rlog (n_raft n')) = committed (rlog (n_raft n)) ∧
    rd_CommittedEntries (ready n') = ds ++ rd_CommittedEntries (ready n).
Proof.
  intros HL Hi steps' Hlen Hok. pose proof (life_durable n steps ds HL) as D.
  destruct (saved_ready n steps ds D) as (Hf & Hid & Hs & He).
  assert (calm False steps') as Hcalm by (apply calm_snoc; [by apply (life_calm n steps ds)|done]).
  destruct (crash_read grow scan scan_walName steps' (saving (ready n))) as (s & w & E1 & E2);
    [by apply last_snoc|done..|].
  fold (onDisk steps') in E2. cbn zeta in E2. unfold steps' in E2. rewrite Hid, Hs, He in E2.
  unfold RestartNode, newRaft. rewrite (proj2 (Z.eqb_neq i None_) Hi). cbn [mbind outcome_bind].
  eexists s, w, _, _, _. split_and!; [done|exact E2|reflexivity|done|done|apply (du_commit _ _ _ D)|].
  destruct (du_sound _ _ _ D) as [S1 S2 _ _ _].
  rewrite (du_delivered _ _ _ D). change (rd_CommittedEntries (ready n)) with (nextEnts (rlog (n_raft n))).
  rewrite (proj1 (delivered_next _ S1 S2)), <-(du_commit _ _ _ D).
  match goal with |- rd_CommittedEntries (ready ?n') = _ => set (l' := rlog (n_raft n')) end.
  assert (ents l' = ents (rlog (n_raft n)) ∧ offset l' = 0 ∧ applied l' = 0 ∧
    committed l' = Commit (n_raft n)) as (L1 & L2 & L3 & L4) by done.
  assert (log_ok l') as Hl'.
  { destruct S1 as [Hne ? ? ? ? [??]]. pose proof (du_commit _ _ _ D). split; rewrite ?L1, ?L2, ?L3, ?L4; try done; try lia.
    - unfold lastIndex in *. rewrite L1, L2. lia.
    - unfold l', lastIndex. simpl. pose proof (len_pos (ents (rlog (n_raft n))) Hne). lia. }
  destruct (delivered_next l' Hl' L2) as [Hn _]. rewrite L3, L1, L4 in Hn. exact Hn.
Qed.

(** C4. What a node has handed out survives a crash.  After any life of a node, with elections,
    proposals, appends, configuration changes, new files of the log, crashes and restarts, but
    without snapshots and compaction, when a Ready has been saved, and before its messages are
    sent, the process may die, without closing the log: the files that are on the disk, without
    what was in the buffer of the encoder, can be opened and read, and the node that is started
    from them has the term, the vote, the commit index and the entries of the node that handed
    out the Ready; it gives the server again all committed entries, in the same order.  The
    earlier crashes of the life lose the buffer, too, and do not come between a cut of the log
    and the next Ready.  The values fit into the records of the log. *)
Theorem crash_recovers n steps ds n1 i peers el hb :
  life n steps ds → iterate EvReady n = Some (Ok n1) → i ≠ None_ →
  let steps' := steps ++ [saving (ready n)] in
  len steps' < 2 ^ 63 - 1 → Forall op_ok (saved steps') →
  ∃ s w st es n', crashSession grow scan steps' = Ret s ∧
    reopen grow scan (crashed s) 0 = Ret (w, (0, st, es, None)) ∧
    RestartNode i peers el hb None st es = Ok n' ∧
    hardState (n_raft n') = hardState (n_raft n) ∧
    ents (rlog (n_raft n')) = ents (rlog (n_raft n)) ∧
    committed (rlog (n_raft n')) = committed (rlog (n_raft n)) ∧
    rd_CommittedEntries (ready n') = ds ++ rd_CommittedEntries (ready n).
Proof. intros HL _. by apply restarted. Qed.
End crash.

(** ** Example *)
#[local] Existing Instance keyOrder.

Definition campaigning : node :=
  match iterate Campaign (start3 1) with Some (Ok n) => n | _ => start3 1 end.

Lemma campaigning_life : life campaigning [] [].
Proof.
  eapply (life_event (start3 1) [] [] Campaign); [by apply (life_start 1 [1; 2; 3] 10 1)| |done|by vm_compute].
  split_and!; [done|done|done].
Qed.

Definition campaigningReady : node :=
  match iterate EvReady campaigning with Some (Ok n) => n | _ => campaigning end.

Lemma campaigning_saved :
  saved [saving (ready campaigning)] = [OState (mkHardState 1 1 0 []); OEntry zeroEntry].
Proof. by vm_compute. Qed.

Lemma crash_recovers_witness :
  ∃ s w st es n', crashSession Nat.double scanName [saving (ready campaigning)] = Ret s ∧
    reopen Nat.double scanName (crashed s) 0 = Ret (w, (0, st, es, None)) ∧
    RestartNode 1 [1; 2; 3] 10 1 None st es = Ok n' ∧
    hardState (n_raft n') = mkHardState 1 1 0 [] ∧ ents (rlog (n_raft n')) = [zeroEntry].
Proof.
  destruct (crash_recovers Nat.double scanName scanName_walName campaigning [] [] campaigningReady 1 [1; 2; 3] 10 1)
    as (s & w & st & es & n' & E1 & E2 & E3 & E4 & E5 & _).
  - apply campaigning_life.
  - by vm_compute.
  - done.
  - done.
  - cbn [app]. rewrite campaigning_saved. repeat constructor; try done; try apply unrecognized_nil.
  - exists s, w, st, es, n'. by split_and!.
Defined.

(** A crash between the creation of the log and the first Ready leaves a log without the dummy
    entry.  The server starts from it, and the first request for a vote makes it panic. *)
Theorem restart_before_first_ready :
  ∃ s w n, crashSession Nat.double scanName [] = Ret s ∧
    reopen Nat.double scanName (crashed s) 0 = Ret (w, (0, zeroHardState, [], None)) ∧
    RestartNode 1 [1; 2; 3] 10 1 None zeroHardState [] = Ok n ∧
    iterate (stepEvent (zeroMessage <| Message_Type := msgVote |> <| Message_From := 2 |> <| Message_Term := 1 |>)) n =
      Some (Panic nilDeref).
Proof.
  eexists _, _, _. split_and!; [vm_compute; reflexivity|vm_compute; reflexivity|reflexivity|]. by vm_compute.
Qed.
