(* ===== verification/Paths.v ===== *)
(** * Paths: the string and path functions of the store (packages strings and path)

    The store keys are slash-separated paths.  This file models the functions of Go's
    packages strings and path that src/store uses, and shows what they do on the
    canonical form [pathOf names] of a path, the names of which are [name_ok]. *)

From Stdlib Require Import String Ascii.
From S2P Require Import Prelude.

Definition slash : ascii := "/".

(** ** package strings *)

(** [strings.Split(s, "/")]. *)
Fixpoint split (s : string) : list string :=
  match s with
  | EmptyString => [EmptyString]
  | String c s =>
      if decide (c = slash) then EmptyString :: split s
      else match split s with
           | w :: ws => String c w :: ws
           | [] => []
           end
  end.

(** [strings.Join(l, "/")]. *)
Definition joinSlash (l : list string) : string := String.concat "/" l.

Definition HasPrefix (s prefix : string) : bool := String.prefix prefix s.

(** [strings.Contains(s, sub)] for a non-empty [sub]. *)
Fixpoint Contains (s sub : string) : bool :=
  match s with
  | EmptyString => false
  | String _ s' => HasPrefix s sub || Contains s' sub
  end.

(** ** package path *)

(** One element of a path, on the stack of the elements kept so far. *)
Definition cleanStep (rooted : bool) (stack : list string) (c : string) : list string :=
  if decide (c = EmptyString ∨ c = ".") then stack
  else if decide (c = "..") then
    match stack with
    | top :: rest => if decide (top = "..") then c :: stack else rest
    | [] => if rooted then [] else [c]
    end
  else c :: stack.
Definition cleanNames (rooted : bool) (l : list string) : list string :=
  reverse (foldl (cleanStep rooted) [] l).

Definition isRooted (p : string) : bool :=
  match p with String c _ => bool_decide (c = slash) | EmptyString => false end.

Definition Clean (p : string) : string :=
  let names := cleanNames (isRooted p) (split p) in
  if isRooted p then String slash (joinSlash names)
  else match names with [] => "." | _ => joinSlash names end.

(** [path.Join(a, b)]. *)
Definition Join (a b : string) : string :=
  if decide (a = EmptyString) then (if decide (b = EmptyString) then EmptyString else Clean b)
  else Clean (a ++ String slash b)%string.

(** [path.Split(p)]: up to and including the last slash, and the rest. *)
Fixpoint Split (p : string) : string * string :=
  match p with
  | EmptyString => (EmptyString, EmptyString)
  | String c p =>
      let '(dir, file) := Split p in
      match dir with
      | EmptyString => if decide (c = slash) then (String c EmptyString, file)
                       else (EmptyString, String c file)
      | _ => (String c dir, file)
      end
  end.

(** ** Canonical paths *)
Fixpoint noSlash (s : string) : Prop :=
  match s with EmptyString => True | String c s => c ≠ slash ∧ noSlash s end.
Record name_ok (s : string) : Prop := {
  no_slash : noSlash s;
  no_empty : s ≠ EmptyString;
  no_dot : s ≠ ".";
  no_dotdot : s ≠ "..";
}.
Definition pathOf (names : list string) : string := String slash (joinSlash names).

(** The names of a key as a client gives it. *)
Definition parts (p : string) : list string := cleanNames true (split p).

Lemma append_assoc (a b c : string) : ((a ++ b) ++ c = a ++ (b ++ c))%string.
Proof. induction a as [|x a IH]; [done|]. exact (f_equal (String x) IH). Qed.

Lemma append_nil (a : string) : (a ++ EmptyString)%string = a.
Proof. induction a as [|x a IH]; [done|]. exact (f_equal (String x) IH). Qed.

Lemma split_noSlash s : noSlash s → split s = [s].
Proof.
  induction s as [|c s IH]; simpl; [done|]. intros [Hc Hs].
  rewrite decide_False by done. by rewrite IH.
Qed.

Lemma append_cons c (a b : string) : (String c a ++ b)%string = String c (a ++ b).
Proof. done. Qed.

Lemma length_append (a b : string) :
  String.length (a ++ b) = (String.length a + String.length b)%nat.
Proof. induction a as [|x a IH]; [done|]. rewrite append_cons. simpl. congruence. Qed.

Lemma split_app a b : noSlash a → split (a ++ String slash b)%string = a :: split b.
Proof.
  induction a as [|c a IH]; [done|]. intros [Hc Ha]. rewrite append_cons.
  cbn [split]. rewrite decide_False by done. by rewrite IH.
Qed.

Lemma split_nonempty s : split s ≠ [].
Proof.
  induction s as [|c s IH]; simpl; [done|]. case_decide; [done|]. by destruct (split s).
Qed.

Lemma split_all_noSlash s : Forall noSlash (split s).
Proof.
  induction s as [|c s IH]; simpl; [by repeat constructor|]. case_decide.
  - by constructor.
  - destruct (split s); [done|]. apply Forall_cons in IH as [Hw Hws].
    constructor; [by split|done].
Qed.

(** ** Joining and splitting *)
Lemma joinSlash_cons x names :
  names ≠ [] → joinSlash (x :: names) = (x ++ String slash (joinSlash names))%string.
Proof. by destruct names. Qed.

Lemma joinSlash_snoc names x :
  names ≠ [] → joinSlash (names ++ [x]) = (joinSlash names ++ String slash x)%string.
Proof.
  induction names as [|y names IH]; [done|]. intros _.
  destruct names as [|z names]; [done|].
  change ((y :: z :: names) ++ [x]) with (y :: (z :: names) ++ [x]).
  rewrite !joinSlash_cons by done. rewrite IH by done.
  by rewrite append_assoc, append_cons.
Qed.

Lemma split_joinSlash names :
  names ≠ [] → Forall noSlash names → split (joinSlash names) = names.
Proof.
  intros Hne Hf. induction Hf as [|x names Hx Hf IH]; [done|].
  destruct names as [|y names]; [by apply split_noSlash|].
  rewrite joinSlash_cons, split_app by done. by rewrite IH.
Qed.

Lemma name_ok_noSlash names : Forall name_ok names → Forall noSlash names.
Proof. intros Hf. eapply Forall_impl; [done|]. by intros ? []. Qed.

Lemma split_pathOf names :
  names ≠ [] → Forall name_ok names → split (pathOf names) = EmptyString :: names.
Proof.
  intros Hne Hok. unfold pathOf. cbn [split]. rewrite decide_True by done.
  by rewrite split_joinSlash by auto using name_ok_noSlash.
Qed.

Lemma split_root : split (pathOf []) = [EmptyString; EmptyString].
Proof. done. Qed.

(** ** Cleaning *)
Lemma cleanStep_keep rooted stack x : name_ok x → cleanStep rooted stack x = x :: stack.
Proof.
  intros []. unfold cleanStep. rewrite decide_False by naive_solver.
  by rewrite decide_False.
Qed.

Lemma foldl_cleanStep rooted stack names :
  Forall name_ok names → foldl (cleanStep rooted) stack names = reverse names ++ stack.
Proof.
  intros Hok. revert stack. induction Hok as [|x names Hx Hok IH]; intros stack; simpl; [done|].
  rewrite cleanStep_keep by done. by rewrite IH, reverse_cons, <-app_assoc.
Qed.

Lemma cleanNames_id rooted names : Forall name_ok names → cleanNames rooted names = names.
Proof.
  intros Hok. unfold cleanNames. rewrite foldl_cleanStep by done.
  by rewrite app_nil_r, reverse_involutive.
Qed.

Lemma cleanNames_ok l : Forall noSlash l → Forall name_ok (cleanNames true l).
Proof.
  intros Hl. unfold cleanNames. apply Forall_reverse.
  enough (∀ stack, Forall name_ok stack → Forall name_ok (foldl (cleanStep true) stack l)) as H
    by by apply H.
  induction Hl as [|c l Hc Hl IH]; intros stack Hs; simpl; [done|]. apply IH.
  unfold cleanStep. case_decide as H1; [done|]. case_decide as H2.
  - destruct Hs as [|top rest Ht Hs]; [done|]. rewrite decide_False by apply Ht. done.
  - constructor; [|done]. split; naive_solver.
Qed.

Lemma parts_ok p : Forall name_ok (parts p).
Proof. apply cleanNames_ok, split_all_noSlash. Qed.

Lemma Clean_rooted p : Clean (String slash p) = pathOf (parts p).
Proof. unfold Clean, parts. cbn [isRooted]. rewrite bool_decide_true by done. done. Qed.

(** [path.Clean(path.Join("/", p))]. *)
Lemma parts_slash p : parts (String slash p) = parts p.
Proof. done. Qed.

Lemma parts_pathOf names : Forall name_ok names → parts (pathOf names) = names.
Proof.
  intros Hok. unfold parts. destruct names as [|x names]; [done|].
  rewrite split_pathOf by done.
  change (cleanNames true (EmptyString :: x :: names)) with (cleanNames true (x :: names)).
  by apply cleanNames_id.
Qed.

Lemma Clean_pathOf names : Forall name_ok names → Clean (pathOf names) = pathOf names.
Proof.
  intros Hok. unfold pathOf at 1. rewrite Clean_rooted, <-parts_slash.
  fold (pathOf names). by rewrite parts_pathOf.
Qed.

Lemma Clean_Join p : Clean (Join "/" p) = pathOf (parts p).
Proof.
  unfold Join. rewrite decide_False by done.
  change ("/" ++ String slash p)%string with (String slash (String slash p)).
  rewrite Clean_rooted, parts_slash. apply Clean_pathOf, parts_ok.
Qed.

Lemma pathOf_inj l l' : Forall name_ok l → Forall name_ok l' → pathOf l = pathOf l' → l = l'.
Proof. intros Hl Hl' He. rewrite <-(parts_pathOf l), <-(parts_pathOf l') by done. by f_equal. Qed.

Lemma pathOf_root l : Forall name_ok l → pathOf l = "/" → l = [].
Proof. intros Hl. apply (pathOf_inj l []); [done|constructor]. Qed.

(** ** Children *)
(** [path.Join(parent, name)] for a name that is in a canonical path. *)
Lemma Join_child names x :
  Forall name_ok names → name_ok x → Join (pathOf names) x = pathOf (names ++ [x]).
Proof.
  intros Hn Hx. unfold Join. rewrite decide_False by done.
  unfold pathOf at 1. rewrite append_cons, Clean_rooted. f_equal.
  assert (Forall name_ok (names ++ [x])) as Hnx by (apply Forall_app; auto).
  destruct names as [|y names].
  - change (joinSlash [] ++ String slash x)%string with (String slash x).
    rewrite parts_slash. unfold parts. rewrite split_noSlash by apply Hx. by apply cleanNames_id.
  - rewrite <-joinSlash_snoc by done. rewrite <-parts_slash.
    by apply (parts_pathOf ((y :: names) ++ [x])).
Qed.

(** The directory part of a canonical path, as Split returns it. *)
Definition dirName (names : list string) : string :=
  match names with [] => "/" | _ => (pathOf names ++ "/")%string end.

Lemma Split_noSlash x : noSlash x → Split x = (EmptyString, x).
Proof.
  induction x as [|c x IH]; [done|]. intros [Hc Hx]. cbn [Split].
  rewrite IH by done. by rewrite decide_False.
Qed.

Lemma Split_app a x : noSlash x → Split (a ++ String slash x)%string = ((a ++ "/")%string, x).
Proof.
  intros Hx. induction a as [|c a IH].
  - change (EmptyString ++ String slash x)%string with (String slash x). cbn [Split].
    rewrite Split_noSlash by done. by rewrite decide_True.
  - rewrite !append_cons. cbn [Split]. rewrite IH. by destruct a.
Qed.

Lemma Split_pathOf names x :
  name_ok x → Split (pathOf (names ++ [x])) = (dirName names, x).
Proof.
  intros Hx. unfold dirName. destruct names as [|y names].
  - unfold pathOf. simpl. by rewrite Split_noSlash by apply Hx.
  - unfold pathOf at 1. rewrite joinSlash_snoc by done. rewrite <-append_cons.
    rewrite Split_app by apply Hx. done.
Qed.

Lemma split_snoc_slash a : Forall noSlash a → a ≠ [] →
  split (joinSlash a ++ "/")%string = a ++ [EmptyString].
Proof.
  intros Ha Hne. induction Ha as [|x a Hx Ha IH]; [done|].
  destruct a as [|y a].
  - change (joinSlash [x] ++ "/")%string with (x ++ String slash EmptyString)%string.
    by rewrite split_app.
  - rewrite joinSlash_cons, append_assoc, append_cons, split_app by done. by rewrite IH.
Qed.

Lemma split_dirName names :
  Forall name_ok names → split (dirName names) = EmptyString :: names ++ [EmptyString].
Proof.
  intros Hok. unfold dirName. destruct names as [|y names]; [done|].
  unfold pathOf. rewrite append_cons. cbn [split]. rewrite decide_True by done.
  by rewrite split_snoc_slash by auto using name_ok_noSlash.
Qed.
