(* ===== verification/Utf8.v ===== *)
(** * Utf8: the strings that encoding/json writes (Go's packages unicode/utf8 and encoding/json)

    The store and the members of a cluster are marshalled with encoding/json
    (src/store/store.go, src/etcdserver/cluster_store.go).  A JSON string is UTF-8: each byte
    of a Go string that is not part of a valid rune is replaced by U+FFFD.  What was written
    is read back as it was written, so that a string survives when it is valid UTF-8. *)

From Stdlib Require Import String Ascii.
From S2P Require Import Prelude.
From S2P Require Import Paths.

(** ** Runes *)
Definition byteOf (c : ascii) : Z := Z.of_N (N_of_ascii c).

Definition single (a : ascii) : bool := byteOf a <? 128.
Definition continuation (c : ascii) : bool := (128 <=? byteOf c) && (byteOf c <? 192).
Definition low (c : ascii) : Z := Z.land (byteOf c) 63.

(** The first bytes of a string as a rune of two, three or four bytes: not one that has a
    shorter encoding, not a surrogate, and not above the last code point. *)
Definition double (a b : ascii) : bool :=
  (192 <=? byteOf a) && (byteOf a <? 224) && continuation b &&
  (127 <? Z.lor (Z.shiftl (Z.land (byteOf a) 31) 6) (low b)).
Definition triple (a b c : ascii) : bool :=
  let r := Z.lor (Z.shiftl (Z.land (byteOf a) 15) 12) (Z.lor (Z.shiftl (low b) 6) (low c)) in
  (224 <=? byteOf a) && (byteOf a <? 240) && continuation b && continuation c &&
  (2047 <? r) && negb ((55296 <=? r) && (r <=? 57343)).
Definition quadruple (a b c d : ascii) : bool :=
  let r := Z.lor (Z.shiftl (Z.land (byteOf a) 7) 18)
             (Z.lor (Z.shiftl (low b) 12) (Z.lor (Z.shiftl (low c) 6) (low d))) in
  (240 <=? byteOf a) && (byteOf a <? 248) && continuation b && continuation c && continuation d &&
  (65535 <? r) && (r <=? 1114111).

(** [utf8.DecodeRuneInString(s)]: the bytes of the first rune and the rest, when it is valid. *)
Definition rune (s : string) : option (string * string) :=
  match s with
  | EmptyString => None
  | String a s =>
      if single a then Some (String a EmptyString, s) else
      match s with
      | EmptyString => None
      | String b s =>
          if double a b then Some (String a (String b EmptyString), s) else
          match s with
          | EmptyString => None
          | String c s =>
              if triple a b c then Some (String a (String b (String c EmptyString)), s) else
              match s with
              | EmptyString => None
              | String d s =>
                  if quadruple a b c d
                  then Some (String a (String b (String c (String d EmptyString))), s) else None
              end
          end
      end
  end.

(** U+FFFD. *)
Definition RuneError (s : string) : string :=
  String (ascii_of_nat 239) (String (ascii_of_nat 191) (String (ascii_of_nat 189) s)).

(** A string as it comes back from JSON. *)
Fixpoint coerceFrom (fuel : nat) (s : string) : string :=
  match fuel with
  | O => EmptyString
  | S fuel =>
      match s with
      | EmptyString => EmptyString
      | String _ tail =>
          match rune s with
          | Some (r, rest) => (r ++ coerceFrom fuel rest)%string
          | None => RuneError (coerceFrom fuel tail)
          end
      end
  end.
(** Every turn takes a byte or more. *)
Definition coerce (s : string) : string := coerceFrom (String.length s) s.

(** [utf8.ValidString(s)]: the string is a sequence of runes. *)
Inductive Valid : string → Prop :=
  | Valid_nil : Valid EmptyString
  | Valid_rune s r rest : rune s = Some (r, rest) → Valid rest → Valid s.

(** All bytes are ASCII. *)
Fixpoint plain (s : string) : Prop :=
  match s with EmptyString => True | String c s => single c = true ∧ plain s end.

(** ** The first rune *)
Ltac rune_cases s :=
  destruct s as [|? s]; cbn [rune]; [|destruct (single _) eqn:?];
  [| |destruct s as [|? s]; [|destruct (double _ _) eqn:?]];
  [| | | |destruct s as [|? s]; [|destruct (triple _ _ _) eqn:?]];
  [| | | | | |destruct s as [|? s]; [|destruct (quadruple _ _ _ _) eqn:?]].

Lemma append_inj (a b c : string) : (a ++ b = a ++ c)%string → b = c.
Proof. induction a as [|x a IH]; [done|]. rewrite !append_cons. intros [= E]. auto. Qed.

Lemma append_empty (s : string) : (EmptyString ++ s)%string = s.
Proof. done. Qed.

Lemma rune_split s r rest :
  rune s = Some (r, rest) → s = (r ++ rest)%string ∧ (0 < String.length r)%nat.
Proof. rune_cases s; intros [= <- <-]; simpl; split; [done|lia|done|lia|done|lia|done|lia]. Qed.

Lemma rune_more s r rest u : rune s = Some (r, rest) → rune (s ++ u) = Some (r, (rest ++ u)%string).
Proof.
  rune_cases s; intros [= <- <-]; rewrite ?append_cons; cbn [rune];
    repeat match goal with H : _ = _ |- _ => rewrite H; clear H end; done.
Qed.

(** What follows an invalid byte does not make it valid, when it is no continuation. *)
Lemma single_not_continuation c : single c = true → continuation c = false.
Proof. unfold single, continuation. rewrite Z.ltb_lt. intros Hc. apply andb_false_iff. left. lia. Qed.

Lemma rune_None c s a t :
  rune (String c s) = None → single a = true → rune (String c s ++ String a t) = None.
Proof.
  intros Hn Ha. apply single_not_continuation in Ha.
  assert (∀ x, double x a = false) as H2 by (intros; unfold double; rewrite Ha; by rewrite !andb_false_r).
  assert (∀ x y, triple x y a = false ∧ triple x a y = false) as H3.
  { intros; unfold triple; rewrite Ha; by rewrite !andb_false_r. }
  assert (∀ x y z, quadruple x y z a = false ∧ quadruple x y a z = false ∧ quadruple x a y z = false) as H4.
  { intros; unfold quadruple; rewrite Ha; by rewrite !andb_false_r. }
  revert Hn. set (u := String c s). assert (u ≠ EmptyString) as Hu by done. clearbody u. clear c s.
  rune_cases u; intros Hn; try done; rewrite ?append_cons; cbn [rune];
    repeat match goal with H : _ = false |- _ => rewrite H; clear H end; try done.
  - rewrite append_empty, H2. destruct t as [|b t]; [done|]. destruct (H3 a0 b) as [_ ->].
    destruct t as [|d t]; [done|]. by destruct (H4 a0 b d) as (_ & _ & ->).
  - rewrite append_empty. destruct (H3 a0 a1) as [-> _]. destruct t as [|d t]; [done|].
    by destruct (H4 a0 a1 d) as (_ & -> & _).
  - rewrite append_empty. by destruct (H4 a0 a1 a2) as (-> & _ & _).
Qed.

(** ** Coercion *)
Lemma coerceFrom_enough n m s :
  (String.length s ≤ n)%nat → (String.length s ≤ m)%nat → coerceFrom n s = coerceFrom m s.
Proof.
  revert m s. induction n as [|n IH]; intros m s Hn Hm.
  { destruct s; [by destruct m|simpl in Hn; lia]. }
  destruct m as [|m]; [destruct s; [done|simpl in Hm; lia]|]. cbn [coerceFrom].
  destruct s as [|c s]; [done|]. cbn [String.length] in *.
  destruct (rune (String c s)) as [[r rest]|] eqn:Er; [|f_equal; apply IH; lia].
  apply rune_split in Er as [Es Hr]. apply (f_equal String.length) in Es.
  rewrite length_append in Es. cbn [String.length] in Es. f_equal. apply IH; lia.
Qed.

Lemma coerce_rune s r rest : rune s = Some (r, rest) → coerce s = (r ++ coerce rest)%string.
Proof.
  intros Er. unfold coerce. destruct s as [|c s]; [done|]. cbn [String.length coerceFrom]. rewrite Er. f_equal.
  apply rune_split in Er as [Es Hr]. apply (f_equal String.length) in Es.
  rewrite length_append in Es. cbn [String.length] in Es. apply coerceFrom_enough; lia.
Qed.

Lemma coerce_bad c s : rune (String c s) = None → coerce (String c s) = RuneError (coerce s).
Proof. intros Er. unfold coerce. cbn [String.length coerceFrom]. by rewrite Er. Qed.

Lemma coerce_single c s : single c = true → coerce (String c s) = String c (coerce s).
Proof. intros Hc. rewrite (coerce_rune _ (String c EmptyString) s); [done|]. cbn [rune]. by rewrite Hc. Qed.

(** Induction along the bytes and runes of a string. *)
Lemma coerce_ind (P : string → Prop) :
  P EmptyString → (∀ s r rest, rune s = Some (r, rest) → P rest → P s) →
  (∀ c s, rune (String c s) = None → P s → P (String c s)) → ∀ s, P s.
Proof.
  intros H0 H1 H2. assert (∀ n s, (String.length s ≤ n)%nat → P s) as H; [|intros s; by eapply H].
  induction n as [|n IH]; intros s Hs; [by destruct s; [|simpl in Hs; lia]|].
  destruct s as [|c s]; [done|]. cbn [String.length] in Hs.
  destruct (rune (String c s)) as [[r rest]|] eqn:Er; [|apply H2; [done|]; apply IH; lia].
  apply (H1 _ _ _ Er), IH. apply rune_split in Er as [Es Hr]. apply (f_equal String.length) in Es.
  rewrite length_append in Es. cbn [String.length] in Es. lia.
Qed.

Lemma coerce_length s : (String.length s ≤ String.length (coerce s))%nat.
Proof.
  induction s as [|s r rest Er IH|c s Er IH] using coerce_ind; [done| |].
  - rewrite (coerce_rune _ _ _ Er). apply rune_split in Er as [-> _]. rewrite !length_append. lia.
  - rewrite (coerce_bad _ _ Er). simpl. lia.
Qed.

(** Exactly the valid strings come back as they were. *)
Lemma coerce_valid s : Valid s ↔ coerce s = s.
Proof.
  split.
  - induction 1 as [|s r rest Er _ IH]; [done|]. rewrite (coerce_rune _ _ _ Er), IH.
    by apply rune_split in Er as [-> _].
  - induction s as [|s r rest Er IH|c s Er IH] using coerce_ind; intros E; [constructor| |].
    + apply (Valid_rune _ _ _ Er), IH. rewrite (coerce_rune _ _ _ Er) in E.
      apply rune_split in Er as [-> _]. by apply append_inj in E.
    + rewrite (coerce_bad _ _ Er) in E. apply (f_equal String.length) in E. simpl in E.
      pose proof (coerce_length s). lia.
Qed.

#[export] Instance Valid_dec s : Decision (Valid s).
Proof. refine (cast_if (decide (coerce s = s))); by rewrite coerce_valid. Defined.

Lemma coerce_plain s : plain s → coerce s = s.
Proof. induction s as [|c s IH]; [done|]. intros [Hc Hs]. by rewrite coerce_single, IH. Qed.

(** Nothing else becomes a plain string. *)
Lemma coerce_plain_inv s t : plain t → coerce s = t → s = t.
Proof.
  intros Ht E. revert t Ht E. induction s as [|s r rest Er IH|c s Er IH] using coerce_ind; intros t Ht E.
  - done.
  - rewrite (coerce_rune _ _ _ Er) in E. destruct (rune_split _ _ _ Er) as [-> _]. subst t. f_equal.
    assert (plain (coerce rest)) as Hp.
    { clear -Ht. induction r as [|c r IHr]; [done|]. apply IHr. apply Ht. }
    symmetry. rewrite <-(IH _ Hp eq_refl). done.
  - rewrite (coerce_bad _ _ Er) in E. subst t. by destruct Ht.
Qed.

Lemma coerce_app s c t :
  single c = true → coerce (s ++ String c t) = (coerce s ++ String c (coerce t))%string.
Proof.
  intros Hc. induction s as [|s r rest Er IH|a s Er IH] using coerce_ind.
  - by rewrite append_empty, coerce_single.
  - rewrite (coerce_rune _ _ _ Er), append_assoc, <-IH. by apply coerce_rune, rune_more.
  - pose proof (rune_None a s c t Er Hc) as E. rewrite (coerce_bad _ _ Er). rewrite append_cons in *.
    by rewrite (coerce_bad _ _ E), IH.
Qed.

(** ** Names and paths *)
Lemma noSlash_app a b : noSlash (a ++ b) ↔ noSlash a ∧ noSlash b.
Proof. induction a as [|c a IH]; [simpl; tauto|]. rewrite append_cons. simpl. rewrite IH. tauto. Qed.

Lemma coerce_noSlash s : noSlash s → noSlash (coerce s).
Proof.
  induction s as [|s r rest Er IH|c s Er IH] using coerce_ind; [done| |].
  - rewrite (coerce_rune _ _ _ Er). apply rune_split in Er as [-> _]. rewrite !noSlash_app. tauto.
  - rewrite (coerce_bad _ _ Er). intros [_ Hs]. do 3 (split; [done|]). auto.
Qed.

Lemma coerce_name x : name_ok x → name_ok (coerce x).
Proof.
  intros [H1 H2 H3 H4]. split; [by apply coerce_noSlash|..]; intros E.
  - apply H2. by apply (coerce_plain_inv x EmptyString).
  - apply H3. by apply (coerce_plain_inv x).
  - apply H4. by apply (coerce_plain_inv x).
Qed.

Lemma coerce_names k : Forall name_ok k → Forall name_ok (coerce <$> k).
Proof. intros Hk. apply Forall_fmap. eapply Forall_impl; [done|]. apply coerce_name. Qed.

Lemma coerce_path k : coerce (pathOf k) = pathOf (coerce <$> k).
Proof.
  unfold pathOf. rewrite coerce_single by done. f_equal. induction k as [|x k IH]; [done|].
  destruct k as [|y k]; [done|]. rewrite joinSlash_cons, coerce_app, IH by done. done.
Qed.
