(* ===== verification/Snap.v ===== *)
(** * Snap: the files of the snapshots (src/snap/snapshotter.go)

    A snapshot is written to a file of its own, named after its term and index, with a
    checksum.  Loading takes the newest file that can be read and renames those that
    cannot.  The directory is a map from names to contents, as for the log; reading and
    writing a file that is there succeeds. *)

From stdpp Require Import sorting.
From Stdlib Require Import String Ascii.
From S2P Require Import Prelude Wire Raftpb RaftpbCodec Snappb Crc Wal WalNames RaftNode.

(** [strings.HasSuffix]. *)
Definition HasSuffix (s suffix : string) : bool :=
  (String.length suffix <=? String.length s)%nat &&
  (String.substring (String.length s - String.length suffix) (String.length suffix) s =? suffix)%string.

Module Snapshotter.

Definition snapSuffix : string := ".snap".

Inductive snapErr :=
  | ErrNoSnapshot
  | ErrCRCMismatch
  | ErrNotExist  (** of ReadFile *)
  | ErrUnmarshal (e : error).

(** ** Saving *)
Definition snapName (term index : Z) : string :=
  (hex16 term ++ "-" ++ hex16 index ++ snapSuffix)%string.

Definition save (snapshot : Snapshot) (d : disk) : outcome disk :=
  let fname := snapName (Snapshot_Term snapshot) (Snapshot_Index snapshot) in
  b ← Snapshot_Marshal snapshot;
  let crc := Update 0 b in
  let snap := snappb.mkSnapshot crc (Some b) [] in
  data ← snappb.Marshal snap;
  Ok (<[fname := data]> d).

Definition SaveSnap (snapshot : Snapshot) (d : disk) : outcome disk :=
  if IsEmptySnap snapshot then Ok d else save snapshot d.

(** ** Loading *)
Definition renameBroken (path : string) (d : disk) : disk :=
  let brokenPath := (path ++ ".broken")%string in
  match d !! path with
  | None => d
  | Some b => <[brokenPath := b]> (delete path d)
  end.

(** What loadSnap makes of the contents of a file. *)
Definition readSnap (b : list Z) : run (snapErr + Snapshot) :=
  '(serializedSnap, err) ← snappb.Unmarshal (S (length b)) b snappb.zeroSnapshot;
  match err with
  | Some e => Ret (inl (ErrUnmarshal e))
  | None =>
      let data := default [] (snappb.Data serializedSnap) in
      let crc := Update 0 data in
      if negb (crc =? snappb.Crc serializedSnap) then Ret (inl ErrCRCMismatch)
      else
        '(snap, err) ← Snapshot_Unmarshal (S (length data)) data zeroSnapshot;
        match err with
        | Some e => Ret (inl (ErrUnmarshal e))
        | None => Ret (inr snap)
        end
  end.

(** The deferred function renames the file on an error. *)
Definition loadSnap (name : string) (d : disk) : run (disk * (snapErr + Snapshot)) :=
  res ← match d !! name with
        | None => Ret (inl ErrNotExist)
        | Some b => readSnap b
        end;
  match res with
  | inl err => Ret (renameBroken name d, inl err)
  | inr snap => Ret (d, inr snap)
  end.

Definition checkSuffix (names : list string) : list string :=
  filter (λ name, HasSuffix name snapSuffix = true) names.

(** [sort.Reverse(sort.StringSlice(snaps))]. *)
Definition sortReverse (names : list string) : list string := merge_sort (flip string_le) names.

Definition snapNames (d : disk) : snapErr + list string :=
  let snaps := checkSuffix (readDir d) in
  match snaps with
  | [] => inl ErrNoSnapshot
  | _ => inr (sortReverse snaps)
  end.

(** The loop over the names: [last] is what the turn before left. *)
Fixpoint loadLoop (names : list string) (last : snapErr + Snapshot) (d : disk)
  : run (disk * (snapErr + Snapshot)) :=
  match names with
  | [] => Ret (d, last)
  | name :: names =>
      '(d, res) ← loadSnap name d;
      match res with
      | inr snap => Ret (d, inr snap)
      | inl err => loadLoop names (inl err) d
      end
  end.

(** There is a name, so [last] is replaced in the first turn. *)
Definition Load (d : disk) : run (disk * (snapErr + Snapshot)) :=
  match snapNames d with
  | inl err => Ret (d, inl err)
  | inr names => loadLoop names (inl ErrNoSnapshot) d
  end.
End Snapshotter.
