(* ===== verification/SnapProps.v ===== *)
(** * SnapProps: loading finds the newest snapshot that is intact (src/snap/snapshotter.go)

    The names sort by term and index.  A file that was written is read back; one whose
    payload was damaged is recognized by its checksum, renamed, and skipped. *)

From stdpp Require Import sorting.
From Stdlib Require Import String Ascii.
From S2P Require Import Prelude Wire Raftpb RaftpbCodec Snappb Crc Wal WalNames WalRecords RaftNode.
From S2P Require Import Paths Snap.

(** ** Suffixes *)
Lemma substring_append (a b : string) :
  String.substring (String.length a) (String.length b) (a ++ b) = b.
Proof.
  induction a as [|x a IH]; [|by rewrite append_cons]. change (EmptyString ++ b)%string with b.
  induction b as [|y b IH]; [done|]. simpl. f_equal. exact IH.
Qed.

Lemma HasSuffix_append a b suffix :
  String.length b = String.length suffix → HasSuffix (a ++ b) suffix = (b =? suffix)%string.
Proof.
  intros Hl. unfold HasSuffix. rewrite length_append, <-Hl, Nat.add_sub, substring_append.
  rewrite (proj2 (Nat.leb_le _ _)) by lia. done.
Qed.

Import Snapshotter.

Lemma append_inj_r (a a' b : string) : (a ++ b = a' ++ b)%string → a = a'.
Proof.
  revert a'. induction a as [|x a IH]; intros [|y a'] E; [done|..].
  1-2: apply (f_equal String.length) in E; rewrite !length_append in E; simpl in E; lia.
  rewrite !append_cons in E. injection E as -> E. by rewrite (IH a' E).
Qed.

Lemma broken_suffix a : HasSuffix (a ++ ".broken") snapSuffix = false.
Proof.
  change ".broken"%string with (".b" ++ "roken")%string. rewrite <-append_assoc.
  by rewrite HasSuffix_append.
Qed.

Lemma snapName_suffix term index : HasSuffix (snapName term index) snapSuffix = true.
Proof. unfold snapName. rewrite <-!append_assoc. by rewrite HasSuffix_append. Qed.

(** ** The order of the names *)

(** The snapshot [a] was taken before [b]. *)
Definition before (a b : Snapshot) : Prop :=
  Snapshot_Term a < Snapshot_Term b ∨
  Snapshot_Term a = Snapshot_Term b ∧ Snapshot_Index a < Snapshot_Index b.

Definition fileName (m : Snapshot) : string := snapName (Snapshot_Term m) (Snapshot_Index m).

(** The contents of the file of a snapshot. *)
Definition fileOf (m : Snapshot) : list Z :=
  let b := Snapshot_encode m in snappb.encode (snappb.mkSnapshot (Update 0 b) (Some b) []).

Record snap_ok (m : Snapshot) : Prop := {
  sn_ok : Snapshot_ok m;
  sn_Term : 0 ≤ Snapshot_Term m;
  sn_Index : 0 < Snapshot_Index m;
  sn_Data : bytes (Snapshot_Data m);
  sn_XXX : bytes (Snapshot_XXX m);
  sn_fits : fits (fileOf m);
}.

Lemma hex16_nonneg z : 0 ≤ z → hex16 z = hexDigits 16 z.
Proof. intros Hz. unfold hex16. by rewrite (proj2 (Z.ltb_ge _ _)). Qed.

Lemma fileName_compare a b :
  snap_ok a → snap_ok b → before a b → String.compare (fileName a) (fileName b) = Lt.
Proof.
  intros [[_ [_ Ia] [_ Ta] _] ? ? _ _ _] [[_ [_ Ib] [_ Tb] _] ? ? _ _ _] Hab.
  change (2 ^ (64 - 1)) with (16 ^ Z.of_nat 16 / 2) in *. unfold fileName, snapName.
  assert (16 ^ Z.of_nat 16 / 2 < 16 ^ Z.of_nat 16) by done.
  rewrite !hex16_nonneg by lia. destruct Hab as [Ht|[-> Hi]].
  - apply compare_app_lt; [by rewrite !length_hexDigits|]. apply hexDigits_compare; lia.
  - rewrite !compare_app_eq. apply compare_app_lt; [by rewrite !length_hexDigits|].
    apply hexDigits_compare; lia.
Qed.

Lemma fileName_inj a b :
  snap_ok a → snap_ok b → before a b → fileName a ≠ fileName b.
Proof.
  intros Ha Hb Hab E. pose proof (fileName_compare a b Ha Hb Hab) as Hc.
  by rewrite E, string_compare_refl in Hc.
Qed.

#[local] Instance flip_string_le_total : Total (flip string_le).
Proof. intros a b. apply (total string_le b a). Qed.
#[local] Instance flip_string_le_antisymm : AntiSymm (=) (flip string_le).
Proof. intros a b Hab Hba. by apply (anti_symm string_le). Qed.

Lemma sortReverse_sorted names l :
  StronglySorted (flip string_le) l → names ≡ₚ l → sortReverse names = l.
Proof.
  intros Hs Hp. apply (StronglySorted_unique (flip string_le)); [|done|].
  - apply StronglySorted_merge_sort; apply _.
  - unfold sortReverse. by rewrite merge_sort_Permutation.
Qed.

(** ** One file *)
Lemma encVarint_bytes tag v : inU 8 tag → bytes (encVarint tag v).
Proof. intros Ht. unfold encVarint. constructor; [done|]. apply varint_bytes. Qed.

Lemma encBytes_bytes tag bs : inU 8 tag → bytes bs → bytes (encBytes tag bs).
Proof.
  intros Ht Hb. unfold encBytes. constructor; [done|]. apply bytes_app. split; [apply varint_bytes|done].
Qed.

Lemma Snapshot_encode_bytes m :
  bytes (Snapshot_Data m) → bytes (Snapshot_XXX m) → bytes (Snapshot_encode m).
Proof.
  intros Hd Hx. unfold Snapshot_encode. rewrite !bytes_app. split_and!; [by apply encBytes_bytes|..|done].
  2-3: by apply encVarint_bytes.
  induction (Snapshot_Nodes m) as [|v l IH]; [constructor|].
  rewrite fmap_cons. cbn [concat]. apply bytes_app. split; [by apply encVarint_bytes|done].
Qed.

Lemma Snapshot_encode_nonempty m : Snapshot_encode m ≠ [].
Proof. done. Qed.

(** A file with the payload [b] and the checksum [crc]. *)
Lemma readSnap_encode crc b :
  let file := snappb.encode (snappb.mkSnapshot crc (Some b) []) in
  inU 32 crc → b ≠ [] → fits file →
  readSnap file =
    (if negb (Update 0 b =? crc) then Ret (inl ErrCRCMismatch)
     else '(snap, err) ← Snapshot_Unmarshal (S (length b)) b zeroSnapshot;
          match err with Some e => Ret (inl (ErrUnmarshal e)) | None => Ret (inr snap) end).
Proof.
  intros file Hc Hb Hf. unfold readSnap. subst file. rewrite snappb.Unmarshal_encode; [done|..|done|lia].
  split; [done|simpl; congruence|apply unrecognized_nil].
Qed.

Lemma Update_u32 m : snap_ok m → inU 32 (Update 0 (Snapshot_encode m)).
Proof. intros Hm. apply Update_range; [done|]. apply Snapshot_encode_bytes; apply Hm. Qed.

Lemma readSnap_file m : snap_ok m → readSnap (fileOf m) = Ret (inr m).
Proof.
  intros Hm. pose proof Hm as [Hok _ _ Hd Hx Hf]. unfold fileOf.
  rewrite readSnap_encode; [|by apply Update_u32|done|done]. rewrite Z.eqb_refl. cbn [negb].
  rewrite Snapshot_Unmarshal_encode; [done|done| |lia].
  eapply fits_le, Hf. unfold fileOf, snappb.encode. rewrite !length_app. cbn [snappb.Data encOptBytes].
  pose proof (length_encBytes 0x12 (Snapshot_encode m)). lia.
Qed.

Lemma SaveSnap_ok m d : snap_ok m → SaveSnap m d = Ok (<[fileName m := fileOf m]> d).
Proof.
  intros Hm. unfold SaveSnap, IsEmptySnap, save. pose proof (sn_Index _ Hm).
  rewrite (proj2 (Z.eqb_neq _ _)) by lia. unfold Snapshot_Marshal.
  rewrite (marshal_writes _ _ (Snapshot_encode m));
    [|apply Snapshot_writes, (sn_ok _ Hm)|apply Snapshot_size].
  cbn [mbind outcome_bind]. by rewrite snappb.Marshal_encode.
Qed.

(** ** The files that are skipped *)
Definition brokenAll (names : list string) (d : disk) : disk :=
  foldl (λ d name, renameBroken name d) d names.

Lemma lookup_renameBroken name d k :
  HasSuffix k snapSuffix = true →
  renameBroken name d !! k = if decide (k = name) then None else d !! k.
Proof.
  intros Hk. unfold renameBroken. destruct (d !! name) as [b|] eqn:Hn.
  - rewrite lookup_insert_ne by (intros <-; by rewrite broken_suffix in Hk).
    case_decide; [subst; by rewrite lookup_delete_eq|by rewrite lookup_delete_ne].
  - by case_decide; subst.
Qed.

Lemma lookup_brokenAll names d k :
  HasSuffix k snapSuffix = true →
  brokenAll names d !! k = if decide (k ∈ names) then None else d !! k.
Proof.
  intros Hk. revert d. induction names as [|n names IH]; intros d; [done|]. simpl.
  rewrite IH, lookup_renameBroken by done. repeat case_decide; set_solver.
Qed.

Lemma renameBroken_keeps name d n :
  HasSuffix name snapSuffix = true → name ≠ n →
  renameBroken name d !! (n ++ ".broken")%string = d !! (n ++ ".broken")%string.
Proof.
  intros Hs Hne. unfold renameBroken. destruct (d !! name); [|done].
  rewrite lookup_insert_ne by (intros E%append_inj_r; done).
  apply lookup_delete_ne. intros ->. by rewrite broken_suffix in Hs.
Qed.

Lemma brokenAll_keeps names d n :
  Forall (λ k, HasSuffix k snapSuffix = true) names → n ∉ names →
  brokenAll names d !! (n ++ ".broken")%string = d !! (n ++ ".broken")%string.
Proof.
  intros Hs. revert d. induction Hs as [|k names Hk Hs IH]; intros d Hn; [done|]. simpl.
  rewrite IH by set_solver. apply renameBroken_keeps; set_solver.
Qed.

Lemma brokenAll_renamed names d n b :
  NoDup names → Forall (λ k, HasSuffix k snapSuffix = true) names → n ∈ names → d !! n = Some b →
  brokenAll names d !! (n ++ ".broken")%string = Some b.
Proof.
  intros Hnd Hs. revert d. induction Hs as [|k names Hk Hs IH]; intros d Hn Hb; [by apply elem_of_nil in Hn|].
  apply NoDup_cons in Hnd as [Hnk Hnd]. simpl. apply elem_of_cons in Hn as [->|Hn].
  - rewrite brokenAll_keeps by done. unfold renameBroken. rewrite Hb. apply lookup_insert_eq.
  - apply IH; [done|done|]. rewrite lookup_renameBroken, decide_False; [done|set_solver|].
    by apply (proj1 (Forall_forall _ _) Hs).
Qed.

(** The loop skips the files that cannot be read and stops at the first one that can. *)
Lemma loadLoop_ok bad good rest last d b m :
  NoDup (bad ++ [good]) → Forall (λ k, HasSuffix k snapSuffix = true) (bad ++ [good]) →
  Forall (λ k, ∃ b err, d !! k = Some b ∧ readSnap b = Ret (inl err)) bad →
  d !! good = Some b → readSnap b = Ret (inr m) →
  loadLoop (bad ++ good :: rest) last d = Ret (brokenAll bad d, inr m).
Proof.
  revert last d. induction bad as [|k bad IH]; intros last d Hnd Hs Hbad Hg Hm.
  { cbn [app loadLoop]. unfold loadSnap. rewrite Hg, Hm. done. }
  cbn [app] in Hnd, Hs |- *. apply NoDup_cons in Hnd as [Hk Hnd]. apply Forall_cons in Hs as [Hsk Hs].
  apply Forall_cons in Hbad as [(bk & err & Hbk & Hrk) Hbad]. cbn [loadLoop]. unfold loadSnap at 1.
  rewrite Hbk. cbn [mbind run_bind]. rewrite Hrk. cbn [mbind run_bind].
  apply IH; [done|done|..|done].
  - rewrite Forall_forall in Hbad |- *. rewrite Forall_forall in Hs. intros x Hx.
    rewrite lookup_renameBroken, decide_False by set_solver. by apply Hbad.
  - rewrite Forall_forall in Hs. by rewrite lookup_renameBroken, decide_False by set_solver.
Qed.

(** ** A history of snapshots *)
Definition saveAll (ms : list Snapshot) (d : disk) : outcome disk :=
  foldM (λ d m, SaveSnap m d) ms d.

(** The contents of the files of some snapshots are replaced. *)
Definition damage (bad : list (Snapshot * list Z)) (d : disk) : disk :=
  foldl (λ d p, <[fileName p.1 := p.2]> d) d bad.

Lemma saveAll_ok ms d :
  Forall snap_ok ms → saveAll ms d = Ok (damage ((λ m, (m, fileOf m)) <$> ms) d).
Proof.
  intros Hms. revert d. induction Hms as [|m ms Hm Hms IH]; intros d; [done|].
  unfold saveAll. cbn [foldM]. rewrite SaveSnap_ok by done. apply IH.
Qed.

Lemma lookup_damage_ne bad d k :
  k ∉ fileName <$> bad.*1 → damage bad d !! k = d !! k.
Proof.
  revert d. induction bad as [|[m b] bad IH]; intros d Hk; [done|]. simpl.
  rewrite IH by set_solver. apply lookup_insert_ne. set_solver.
Qed.

Lemma lookup_damage bad d m b :
  NoDup (fileName <$> bad.*1) → (m, b) ∈ bad → damage bad d !! fileName m = Some b.
Proof.
  revert d. induction bad as [|[m' b'] bad IH]; intros d Hnd Hin; [by apply elem_of_nil in Hin|].
  simpl in Hnd. apply NoDup_cons in Hnd as [Hn Hnd]. simpl.
  apply elem_of_cons in Hin as [[= <- <-]|Hin]; [|by apply IH].
  rewrite lookup_damage_ne by done. apply lookup_insert_eq.
Qed.

Lemma names_NoDup ms :
  Forall snap_ok ms → StronglySorted before ms → NoDup (fileName <$> ms).
Proof.
  intros Hok. induction 1 as [|m ms Hs IH Hm]; [constructor|]. apply Forall_cons in Hok as [H1 Hok].
  rewrite fmap_cons. constructor; [|by apply IH]. intros (x & E & Hx)%list_elem_of_fmap.
  rewrite Forall_forall in Hm, Hok. apply (fileName_inj m x); auto.
Qed.

Lemma sorted_snoc {A} (R : relation A) l x :
  StronglySorted R l → Forall (λ y, R y x) l → StronglySorted R (l ++ [x]).
Proof.
  intros Hs. induction Hs as [|y l Hs IH Hy]; intros Hx; [repeat constructor|].
  apply Forall_cons in Hx as [Hyx Hx]. cbn [app]. constructor; [by apply IH|].
  apply Forall_app. by split; [|constructor].
Qed.

Lemma fileNames_sorted ms :
  Forall snap_ok ms → StronglySorted before ms →
  StronglySorted (flip string_le) (reverse (fileName <$> ms)).
Proof.
  intros Hok. induction 1 as [|m ms Hs IH Hm]; [constructor|]. apply Forall_cons in Hok as [H1 Hok].
  rewrite fmap_cons, reverse_cons. apply sorted_snoc; [by apply IH|].
  apply Forall_forall. intros k. rewrite elem_of_reverse. intros (x & -> & Hx)%list_elem_of_fmap.
  rewrite Forall_forall in Hm, Hok. apply string_le_compare. by rewrite (fileName_compare m x) by auto.
Qed.

(** The files of a directory with the snapshots [ms], newest first. *)
Lemma snapNames_sorted ms d :
  ms ≠ [] → Forall snap_ok ms → StronglySorted before ms →
  (∀ k, HasSuffix k snapSuffix = true → is_Some (d !! k) ↔ k ∈ fileName <$> ms) →
  snapNames d = inr (reverse (fileName <$> ms)).
Proof.
  intros Hne Hok Hs Hd. unfold snapNames.
  assert (checkSuffix (readDir d) ≡ₚ reverse (fileName <$> ms)) as Hp.
  { rewrite reverse_Permutation. apply NoDup_Permutation; [|by apply names_NoDup|].
    - apply NoDup_filter, NoDup_fst_map_to_list.
    - intros k. unfold checkSuffix, readDir. rewrite list_elem_of_filter, list_elem_of_fmap. split.
      + intros [Hk ([k' b] & -> & Hin)]. apply Hd; [done|]. apply elem_of_map_to_list in Hin. by exists b.
      + intros Hin. assert (HasSuffix k snapSuffix = true) as Hk.
        { apply list_elem_of_fmap in Hin as (m & -> & _). apply snapName_suffix. }
        split; [done|]. apply (Hd k Hk) in Hin as [b Hb]. exists (k, b). by rewrite elem_of_map_to_list. }
  rewrite (sortReverse_sorted _ _ (fileNames_sorted _ Hok Hs) Hp).
  destruct (checkSuffix (readDir d)); [|done]. apply Permutation_nil in Hp.
  destruct ms as [|m ms]; [done|]. rewrite fmap_cons, reverse_cons in Hp. by apply app_nil in Hp as [].
Qed.

Lemma saved_fst ms : ((λ m, (m, fileOf m)) <$> ms).*1 = ms.
Proof. rewrite <-list_fmap_compose. apply list_fmap_id. Qed.

Lemma names_suffix ms : Forall (λ k, HasSuffix k snapSuffix = true) (fileName <$> ms).
Proof. apply Forall_forall. intros k (x & -> & _)%list_elem_of_fmap. apply snapName_suffix. Qed.

Section history.
Context (d0 : disk) (old : list Snapshot) (m : Snapshot) (bad : list (Snapshot * list Z)).
Context (Hd0 : ∀ k, HasSuffix k snapSuffix = true → d0 !! k = None).
Let ms := old ++ m :: bad.*1.
Context (Hok : Forall snap_ok ms) (Hs : StronglySorted before ms).

(** The directory after the snapshots were saved and the newest damaged. *)
Let d := damage bad (damage ((λ m, (m, fileOf m)) <$> ms) d0).

Lemma history_names :
  NoDup (fileName <$> bad.*1) ∧ ∀ x, x ∈ old ++ [m] → fileName x ∉ fileName <$> bad.*1.
Proof.
  pose proof (names_NoDup _ Hok Hs) as Hnd. unfold ms in Hnd.
  change (m :: bad.*1) with ([m] ++ bad.*1) in Hnd. rewrite app_assoc, fmap_app in Hnd.
  apply NoDup_app in Hnd as (_ & Hdis & Hndb). split; [done|]. intros x Hx.
  by apply Hdis, list_elem_of_fmap_2.
Qed.

Lemma history_kept x : x ∈ old ++ [m] → d !! fileName x = Some (fileOf x).
Proof.
  intros Hx. unfold d. rewrite lookup_damage_ne by by apply history_names.
  apply lookup_damage; [rewrite saved_fst; by apply names_NoDup|]. apply list_elem_of_fmap.
  exists x. split; [done|]. unfold ms. set_solver.
Qed.

Lemma history_damaged x b : (x, b) ∈ bad → d !! fileName x = Some b.
Proof. intros Hx. apply lookup_damage; [apply history_names|done]. Qed.

Lemma history_files k :
  HasSuffix k snapSuffix = true → is_Some (d !! k) ↔ k ∈ fileName <$> ms.
Proof.
  intros Hk. split.
  - intros [b Hb]. destruct (decide (k ∈ fileName <$> ms)) as [|Hn]; [done|]. unfold d in Hb.
    rewrite lookup_damage_ne in Hb by (unfold ms in Hn; set_solver).
    rewrite lookup_damage_ne, Hd0 in Hb; [done|done|by rewrite saved_fst].
  - intros (x & -> & Hx)%list_elem_of_fmap. unfold ms in Hx.
    change (m :: bad.*1) with ([m] ++ bad.*1) in Hx. rewrite app_assoc in Hx.
    apply elem_of_app in Hx as [Hx|Hx]; [rewrite (history_kept x Hx); eauto|].
    apply list_elem_of_fmap in Hx as ([x' b] & -> & Hx). exists b. by apply history_damaged.
Qed.

Lemma history_load :
  Forall (λ p, ∃ err, readSnap p.2 = Ret (inl err)) bad →
  Load d = Ret (brokenAll (reverse (fileName <$> bad.*1)) d, inr m).
Proof.
  intros Hbad. destruct history_names as [Hnd Hdis]. unfold Load.
  rewrite (snapNames_sorted ms) by (done || (by unfold ms; destruct old) || apply history_files).
  unfold ms. rewrite fmap_app, fmap_cons, reverse_app, reverse_cons, <-app_assoc. cbn [app].
  apply (loadLoop_ok _ _ _ _ _ (fileOf m)).
  - apply NoDup_app. rewrite reverse_Permutation at 1. split_and!; [done| |apply NoDup_singleton].
    intros k Hk ->%list_elem_of_singleton. rewrite elem_of_reverse in Hk. apply (Hdis m); set_solver.
  - apply Forall_app. split; [apply Forall_reverse, names_suffix|]. constructor; [|done]. apply snapName_suffix.
  - apply Forall_reverse, Forall_forall. intros k (x & -> & Hx)%list_elem_of_fmap.
    apply list_elem_of_fmap in Hx as ([x' b] & -> & Hx). rewrite Forall_forall in Hbad.
    destruct (Hbad _ Hx) as [err He]. exists b, err. split; [by apply history_damaged|done].
  - apply history_kept. set_solver.
  - apply readSnap_file. apply (proj1 (Forall_forall _ _) Hok). unfold ms. set_solver.
Qed.
End history.

(** ** Damage *)
Lemma fits_file crc b b' :
  length b = length b' → fits (snappb.encode (snappb.mkSnapshot crc (Some b) [])) →
  fits (snappb.encode (snappb.mkSnapshot crc (Some b') [])).
Proof.
  intros Hl. apply fits_le. unfold snappb.encode.
  cbn [snappb.Crc snappb.Data snappb.XXX encOptBytes]. unfold encBytes.
  rewrite !length_app. cbn [length]. rewrite !length_app. unfold len. rewrite Hl. lia.
Qed.

(** A file: a header with the checksum and the length, and the data. *)
Definition header (m : Snapshot) : list Z :=
  let b := Snapshot_encode m in encVarint 0x08 (Update 0 b) ++ 0x12 :: varint (len b).

Lemma file_header m b' :
  length b' = length (Snapshot_encode m) →
  snappb.encode (snappb.mkSnapshot (Update 0 (Snapshot_encode m)) (Some b') []) = header m ++ b'.
Proof.
  intros Hl. unfold snappb.encode, header, encOptBytes, encBytes.
  cbn [snappb.Crc snappb.Data snappb.XXX]. assert (len b' = len (Snapshot_encode m)) as -> by (unfold len; by rewrite Hl).
  by rewrite app_nil_r, <-app_assoc.
Qed.

(** The bytes [b] of the file of [m] after a change of one to four neighbouring bytes of the
    data. *)
Definition damaged (m : Snapshot) (b : list Z) : Prop :=
  ∃ pre p p' suf, fileOf m = header m ++ pre ++ p ++ suf ∧ b = header m ++ pre ++ p' ++ suf ∧
    length p' = length p ∧ (length p ≤ 4)%nat ∧ p' ≠ p ∧ bytes p'.

(** The check of a snapshot file finds every corruption of its payload that is confined
    to four consecutive bytes. *)
Theorem snap_payload_checked m pre p p' suf :
  snap_ok m → Snapshot_encode m = pre ++ p ++ suf → bytes (pre ++ p' ++ suf) →
  length p = length p' → (length p ≤ 4)%nat → p ≠ p' →
  readSnap (snappb.encode (snappb.mkSnapshot (Update 0 (Snapshot_encode m)) (Some (pre ++ p' ++ suf)) []))
  = Ret (inl ErrCRCMismatch).
Proof.
  intros Hm He Hb' Hlen H4 Hne. pose proof (Update_u32 m Hm) as Hc.
  pose proof (Snapshot_encode_bytes m (sn_Data _ Hm) (sn_XXX _ Hm)) as Hb.
  assert (length (Snapshot_encode m) = length (pre ++ p' ++ suf)) as Hl.
  { rewrite He, !length_app. lia. }
  rewrite readSnap_encode; [|done| |eapply fits_file, (sn_fits _ Hm); exact Hl].
  - rewrite (proj2 (Z.eqb_neq _ _)); [done|]. rewrite He in Hb |- *. intros E.
    by apply (Update_burst 0 pre p p' suf).
  - intros E. rewrite E in Hl. by destruct (Snapshot_encode m) eqn:E'.
Qed.

Lemma damaged_checked m b : snap_ok m → damaged m b → readSnap b = Ret (inl ErrCRCMismatch).
Proof.
  intros Hm (pre & p & p' & suf & Hf & -> & Hl & H4 & Hne & Hb').
  unfold fileOf in Hf. rewrite file_header in Hf by done. apply app_inv_head in Hf.
  rewrite <-(file_header m (pre ++ p' ++ suf)) by (rewrite Hf, !length_app; lia).
  apply (snap_payload_checked m pre p p' suf); [done|done| |done|done|done].
  pose proof (Snapshot_encode_bytes m (sn_Data _ Hm) (sn_XXX _ Hm)) as Hb. rewrite Hf, !bytes_app in Hb.
  rewrite !bytes_app. tauto.
Qed.

(** C12. Snapshots survive damage to newer ones.  Save any snapshots in the order they were
    taken into a directory without snapshots, and then change one to four neighbouring bytes of
    the data in the files of the newest ones: Load returns the newest snapshot whose file was
    not touched, exactly as it was saved.  Every damaged file is set aside under its name
    with .broken added, and the files of the other snapshots stay.  (Other damage can pass
    the check: a file that was emptied is loaded as a snapshot without data.) *)
Theorem snap_recovers d0 old m bad :
  let ms := old ++ m :: bad.*1 in
  (∀ k, HasSuffix k snapSuffix = true → d0 !! k = None) →
  Forall snap_ok ms → StronglySorted before ms →
  Forall (λ p, damaged p.1 p.2) bad →
  ∃ d, saveAll ms d0 = Ok d ∧
  ∃ d', Load (damage bad d) = Ret (d', inr m) ∧
    (∀ x b, (x, b) ∈ bad → d' !! fileName x = None ∧ d' !! (fileName x ++ ".broken")%string = Some b) ∧
    (∀ x, x ∈ old ++ [m] → d' !! fileName x = Some (fileOf x)).
Proof.
  intros ms Hd0 Hok Hs Hdam.
  assert (Forall (λ p, ∃ err, readSnap p.2 = Ret (inl err)) bad) as Hbad.
  { rewrite Forall_forall in Hdam |- *. intros [x b] Hx. exists ErrCRCMismatch.
    apply (damaged_checked x); [|by apply (Hdam (x, b))]. apply (proj1 (Forall_forall _ _) Hok).
    unfold ms. apply elem_of_app. do 2 right. apply list_elem_of_fmap. by exists (x, b). }
  eexists. split; [by apply saveAll_ok|].
  destruct (history_names old m bad Hok Hs) as [Hnd Hdis].
  eexists. split; [by apply history_load|]. split.
  - intros x b Hx. assert (fileName x ∈ reverse (fileName <$> bad.*1)) as Hin.
    { rewrite elem_of_reverse. apply list_elem_of_fmap_2, list_elem_of_fmap. by exists (x, b). }
    rewrite lookup_brokenAll, decide_True by (done || apply snapName_suffix). split; [done|].
    apply brokenAll_renamed; [by rewrite reverse_Permutation|apply Forall_reverse, names_suffix|done|].
    by apply history_damaged.
  - intros x Hx. rewrite lookup_brokenAll by apply snapName_suffix.
    rewrite decide_False; [by apply history_kept|]. rewrite elem_of_reverse. by apply Hdis.
Qed.

(** An empty file passes the check, since no bytes have the checksum 0.  When the newest
    file is empty, as after a crash between the creation and the writing of it, Load
    returns an empty snapshot with no error and does not look at the older files. *)
Theorem empty_file_loaded d name rest :
  snapNames d = inr (name :: rest) → d !! name = Some [] → Load d = Ret (d, inr zeroSnapshot).
Proof. intros Hn Hd. unfold Load. rewrite Hn. cbn [loadLoop]. unfold loadSnap. by rewrite Hd. Qed.

(** ** Examples *)
Definition demoSnap (i : Z) : Snapshot := mkSnapshot [115; i] [1; 2; 3] i 1 [].

Lemma demoSnap_ok i : i ∈ [1; 2] → snap_ok (demoSnap i).
Proof.
  intros Hi. assert (0 < i < 3) by (set_unfold; lia).
  split; simpl; [| lia | lia | repeat apply Forall_cons_2; [unfold inU; lia..|constructor] | constructor |].
  - split; simpl; [repeat apply Forall_cons_2; [lia..|constructor]|unfold inS; lia|unfold inS; lia|apply unrecognized_nil].
  - repeat (apply elem_of_cons in Hi as [->|Hi]; [by vm_compute|]). by apply elem_of_nil in Hi.
Qed.

Lemma demo_suffix k : HasSuffix k snapSuffix = true → (∅ : disk) !! k = None.
Proof. intros _. apply lookup_empty. Qed.

Lemma snap_payload_checked_witness :
  readSnap (snappb.encode (snappb.mkSnapshot (Update 0 (Snapshot_encode (demoSnap 2)))
    (Some ([10; 2] ++ [116] ++ drop 3 (Snapshot_encode (demoSnap 2)))) [])) = Ret (inl ErrCRCMismatch).
Proof.
  apply (snap_payload_checked (demoSnap 2) [10; 2] [115] [116]);
    [apply demoSnap_ok; set_solver|by vm_compute| |done|simpl; lia|done].
  apply (bool_decide_unpack _). by vm_compute.
Defined.

Definition flipped (m : Snapshot) : list Z :=
  let b := Snapshot_encode m in
  snappb.encode (snappb.mkSnapshot (Update 0 b) (Some ([10; 2] ++ [116] ++ drop 3 b)) []).

(** The newer of two snapshots is damaged; the older one is loaded. *)
Lemma snap_recovers_witness :
  ∃ d, saveAll [demoSnap 1; demoSnap 2] ∅ = Ok d ∧
  ∃ d', Load (damage [(demoSnap 2, flipped (demoSnap 2))] d) = Ret (d', inr (demoSnap 1)) ∧
    d' !! (fileName (demoSnap 2) ++ ".broken")%string = Some (flipped (demoSnap 2)).
Proof.
  destruct (snap_recovers ∅ [] (demoSnap 1) [(demoSnap 2, flipped (demoSnap 2))])
    as (d & E & d' & L & B & _).
  - apply demo_suffix.
  - repeat apply Forall_cons_2; [apply demoSnap_ok; set_solver..|constructor].
  - constructor; [repeat constructor|]. apply Forall_cons_2; [|constructor]. right. simpl. lia.
  - apply Forall_cons_2; [|constructor]. exists [10; 2], [115], [116], (drop 3 (Snapshot_encode (demoSnap 2))).
    split_and!; [by vm_compute..|done|simpl; lia|done|]. apply (bool_decide_unpack _). by vm_compute.
  - exists d. split; [exact E|]. exists d'. split; [exact L|]. apply (B (demoSnap 2)). by left.
Defined.

(** An empty newest file hides an older snapshot that could be read. *)
Definition demoDisk : disk :=
  <[fileName (demoSnap 1) := fileOf (demoSnap 1)]> (<[fileName (demoSnap 2) := []]> ∅).

Lemma empty_file_loaded_witness :
  readSnap (fileOf (demoSnap 1)) = Ret (inr (demoSnap 1)) ∧
  Load demoDisk = Ret (demoDisk, inr zeroSnapshot).
Proof.
  split; [by vm_compute|].
  apply (empty_file_loaded demoDisk (fileName (demoSnap 2)) [fileName (demoSnap 1)]); by vm_compute.
Defined.
