(* ===== verification/TtlHeap.v ===== *)
(** * TtlHeap: the heap of the keys that expire (src/store/ttl_key_heap.go)

    A binary heap of pointers to nodes, ordered by expire time, with a map from a node
    to its index.  [up], [down], [heapPush], [heapPop] and [heapRemove] are the functions
    of Go's container/heap.  The expire times are read through [key], since they change
    while a node is in the heap. *)

From S2P Require Import Prelude.

Abbreviation ptr := positive.

Record ttlKeyHeap := mkHeap {
  h_array : list ptr;
  h_keyMap : gmap ptr nat;
}.
Definition newTtlKeyHeap : ttlKeyHeap := mkHeap [] ∅.

(** ** The methods of heap.Interface
    They are called with indices in range. *)
Definition Len (h : ttlKeyHeap) : nat := length (h_array h).

Definition Swap (i j : nat) (h : ttlKeyHeap) : ttlKeyHeap :=
  match h_array h !! i, h_array h !! j with
  | Some x, Some y =>
      mkHeap (<[j := x]> (<[i := y]> (h_array h)))
             (<[x := j]> (<[y := i]> (h_keyMap h)))
  | _, _ => h
  end.

Definition Push (n : ptr) (h : ttlKeyHeap) : ttlKeyHeap :=
  mkHeap (h_array h ++ [n]) (<[n := Len h]> (h_keyMap h)).

Definition Pop (h : ttlKeyHeap) : outcome (ttlKeyHeap * ptr) :=
  match last (h_array h) with
  | None => Panic outOfRange
  | Some x => Ok (mkHeap (take (Len h - 1) (h_array h)) (delete x (h_keyMap h)), x)
  end.

Section key.
Context (key : ptr → Z).

Definition Less (i j : nat) (h : ttlKeyHeap) : bool :=
  match h_array h !! i, h_array h !! j with
  | Some x, Some y => key x <? key y
  | _, _ => false
  end.

(** ** package container/heap *)
Fixpoint up (fuel : nat) (j : nat) (h : ttlKeyHeap) : ttlKeyHeap :=
  match fuel with
  | O => h
  | S fuel =>
      let i := ((j - 1) / 2)%nat in
      if decide (i = j) then h
      else if negb (Less j i h) then h
      else up fuel i (Swap i j h)
  end.

Fixpoint down (fuel : nat) (i n : nat) (h : ttlKeyHeap) : ttlKeyHeap :=
  match fuel with
  | O => h
  | S fuel =>
      let j1 := (2 * i + 1)%nat in
      if decide (n ≤ j1)%nat then h
      else
        let j2 := (j1 + 1)%nat in
        let j := if decide (j2 < n)%nat then (if Less j1 j2 h then j1 else j2) else j1 in
        if negb (Less j i h) then h else down fuel j n (Swap i j h)
  end.

(** The index decreases in every turn of [up], and increases in every turn of [down]. *)
Definition heapPush (n : ptr) (h : ttlKeyHeap) : ttlKeyHeap :=
  let h := Push n h in up (Len h) (Len h - 1) h.

Definition heapPop (h : ttlKeyHeap) : outcome (ttlKeyHeap * ptr) :=
  let n := (Len h - 1)%nat in Pop (down (S n) 0 n (Swap 0 n h)).

Definition heapRemove (i : nat) (h : ttlKeyHeap) : outcome (ttlKeyHeap * ptr) :=
  let n := (Len h - 1)%nat in
  if decide (n = i) then Pop h
  else Pop (up (S i) i (down (S n) i n (Swap i n h))).

(** ** The operations of the store *)
Definition top (h : ttlKeyHeap) : option ptr := h_array h !! 0%nat.

Definition pop (h : ttlKeyHeap) : outcome (ttlKeyHeap * ptr) := heapPop h.

Definition push (n : ptr) (h : ttlKeyHeap) : ttlKeyHeap := heapPush n h.

Definition heapUpdate (n : ptr) (h : ttlKeyHeap) : outcome ttlKeyHeap :=
  match h_keyMap h !! n with
  | None => Ok h
  | Some index => '(h, _) ← heapRemove index h; Ok (heapPush n h)
  end.

Definition remove (n : ptr) (h : ttlKeyHeap) : outcome ttlKeyHeap :=
  match h_keyMap h !! n with
  | None => Ok h
  | Some index => '(h, _) ← heapRemove index h; Ok h
  end.

(** ** The order of the heap *)
Definition parent (k : nat) : nat := ((k - 1) / 2)%nat.

Lemma parent_lt k : (0 < k)%nat → (parent k < k)%nat.
Proof. intros Hk. unfold parent. apply Nat.Div0.div_lt_upper_bound. lia. Qed.

Lemma parent_child i k : (0 < k)%nat → parent k = i ↔ k = (2 * i + 1)%nat ∨ k = (2 * i + 2)%nat.
Proof.
  intros Hk. unfold parent. pose proof (Nat.div_mod_eq (k - 1) 2).
  pose proof (Nat.mod_upper_bound (k - 1) 2). lia.
Qed.

(** The element at [a] expires no later than the one at [b]. *)
Definition le_at (l : list ptr) (a b : nat) : Prop :=
  ∀ x y, l !! a = Some x → l !! b = Some y → key x ≤ key y.

Definition heap_upto (n : nat) (l : list ptr) : Prop :=
  ∀ k, (0 < k < n)%nat → le_at l (parent k) k.

Lemma le_at_trans l a b c :
  is_Some (l !! b) → le_at l a b → le_at l b c → le_at l a c.
Proof. intros [y Hy] H1 H2 x z Hx Hz. trans (key y); eauto. Qed.

(** Where the element at [k] comes from after exchanging [i] and [j]. *)
Definition tr (i j k : nat) : nat :=
  if decide (k = i) then j else if decide (k = j) then i else k.

Lemma lookup_Swap i j h k :
  (i < Len h)%nat → (j < Len h)%nat →
  h_array (Swap i j h) !! k = h_array h !! tr i j k.
Proof.
  unfold Len, Swap, tr. intros Hi Hj.
  destruct (lookup_lt_is_Some_2 _ _ Hi) as [x Hx]. destruct (lookup_lt_is_Some_2 _ _ Hj) as [y Hy].
  rewrite Hx, Hy. simpl. destruct (decide (k = j)) as [->|Hkj].
  - rewrite list_lookup_insert_eq by (rewrite length_insert; lia).
    case_decide as Hd; [subst; congruence|done].
  - rewrite list_lookup_insert_ne by done. case_decide as Hd.
    + subst. by rewrite list_lookup_insert_eq.
    + by rewrite list_lookup_insert_ne.
Qed.

Lemma Len_Swap i j h : Len (Swap i j h) = Len h.
Proof. unfold Len, Swap. repeat case_match; simpl; by rewrite ?length_insert. Qed.

Lemma le_at_Swap i j h a b :
  (i < Len h)%nat → (j < Len h)%nat →
  le_at (h_array (Swap i j h)) a b ↔ le_at (h_array h) (tr i j a) (tr i j b).
Proof. intros Hi Hj. unfold le_at. by setoid_rewrite lookup_Swap. Qed.

Lemma Less_spec i j h :
  (i < Len h)%nat → (j < Len h)%nat →
  (Less i j h = true ∧ le_at (h_array h) i j) ∨ (Less i j h = false ∧ le_at (h_array h) j i).
Proof.
  unfold Len, Less, le_at. intros Hi Hj.
  destruct (lookup_lt_is_Some_2 _ _ Hi) as [x Hx]. destruct (lookup_lt_is_Some_2 _ _ Hj) as [y Hy].
  rewrite Hx, Hy. destruct (Z.ltb_spec (key x) (key y)); [left|right]; (split; [done|]);
    intros; simplify_eq; lia.
Qed.

(** [up]: only the element at [j] may be smaller than its parent. *)
Record upInv (n j : nat) (l : list ptr) : Prop := {
  ui_others : ∀ k, (0 < k < n)%nat → k ≠ j → le_at l (parent k) k;
  ui_below : ∀ k, (0 < k < n)%nat → parent k = j → (0 < j)%nat → le_at l (parent j) k;
}.

Lemma upInv_swap n j h :
  (0 < j < n)%nat → (n ≤ Len h)%nat → upInv n j (h_array h) →
  le_at (h_array h) j (parent j) → upInv n (parent j) (h_array (Swap (parent j) j h)).
Proof.
  intros Hj Hn [Ho Hb] Hless. pose proof (parent_lt j ltac:(lia)) as Hp.
  assert (∀ k, (k < n)%nat → is_Some (h_array h !! k)) as Hin.
  { intros k Hk. apply lookup_lt_is_Some. unfold Len in Hn. lia. }
  split.
  - intros k Hk Hkp. apply le_at_Swap; [lia..|]. unfold tr.
    pose proof (parent_lt k ltac:(lia)) as Hpk.
    rewrite (decide_False (P := k = parent j)) by done.
    destruct (decide (k = j)) as [->|Hkj].
    { by rewrite decide_True. }
    destruct (decide (parent k = parent j)) as [He|He].
    { apply (le_at_trans _ _ (parent j)); [apply Hin; lia|done|]. rewrite <-He. by apply Ho. }
    destruct (decide (parent k = j)) as [He2|He2]; [|by apply Ho].
    apply Hb; [lia|done|lia].
  - intros k Hk Hkp Hpj. apply le_at_Swap; [lia..|]. unfold tr.
    pose proof (parent_lt (parent j) Hpj) as Hg.
    rewrite (decide_False (P := parent (parent j) = parent j)),
      (decide_False (P := parent (parent j) = j)) by lia.
    pose proof (parent_lt k ltac:(lia)).
    rewrite (decide_False (P := k = parent j)) by lia.
    assert (le_at (h_array h) (parent (parent j)) (parent j)) as Hgp by (apply Ho; lia).
    destruct (decide (k = j)) as [->|Hkj]; [done|].
    apply (le_at_trans _ _ (parent j)); [apply Hin; lia|done|]. rewrite <-Hkp. by apply Ho.
Qed.

Lemma upInv_root n l : upInv n 0 l → heap_upto n l.
Proof. intros [Ho _] k Hk. apply Ho; lia. Qed.

Lemma upInv_done n j l : upInv n j l → le_at l (parent j) j → heap_upto n l.
Proof. intros [Ho _] Hle k Hk. destruct (decide (k = j)) as [->|]; auto. Qed.

Lemma up_heap fuel n j h :
  (j < fuel)%nat → (j < n ≤ Len h)%nat → upInv n j (h_array h) →
  heap_upto n (h_array (up fuel j h)).
Proof.
  revert j h. induction fuel as [|fuel IH]; intros j h Hfuel Hj Hinv; [lia|].
  cbn [up]. fold (parent j). case_decide as Hd.
  - destruct j as [|j]; [by apply upInv_root|]. pose proof (parent_lt (S j)). lia.
  - assert (0 < j)%nat as Hj0 by (destruct j; [done|lia]).
    pose proof (parent_lt j Hj0) as Hp.
    destruct (Less_spec j (parent j) h) as [[-> Hle]|[-> Hle]]; [lia..| |]; simpl.
    + apply IH; [lia|rewrite Len_Swap; lia|by apply upInv_swap; [lia..| |]].
    + by eapply upInv_done.
Qed.

(** [down] from [i0], now at [i]: only the children of [i] may be smaller than it, and
    the element at [i0] smaller than its parent. *)
Record downInv (n i0 i : nat) (l : list ptr) : Prop := {
  di_others : ∀ k, (0 < k < n)%nat → k ≠ i0 → parent k ≠ i → le_at l (parent k) k;
  di_start : i = i0 → ∀ k, (0 < k < n)%nat → parent k = i0 → (0 < i0)%nat →
    le_at l (parent i0) k;
  di_below : i ≠ i0 → ∀ k, (0 < k < n)%nat → parent k = i → le_at l (parent i) k;
  di_moved : i ≠ i0 → (0 < i0)%nat → le_at l (parent i0) i0;
}.

Lemma downInv_done n i0 i l :
  (i0 < n ≤ length l)%nat → downInv n i0 i l →
  (∀ k, (0 < k < n)%nat → parent k = i → le_at l i k) → upInv n i0 l.
Proof.
  intros Hn [Ho Hs Hb Hm] Hc.
  assert (∀ k, (0 < k < n)%nat → k ≠ i0 → le_at l (parent k) k) as Hall.
  { intros k Hk Hki. destruct (decide (parent k = i)) as [He|He]; [|by apply Ho].
    rewrite He. by apply Hc. }
  split; [done|]. intros k Hk Hkp Hi0. destruct (decide (i = i0)) as [He|He].
  - by apply Hs.
  - apply (le_at_trans _ _ i0); [apply lookup_lt_is_Some; lia|by apply Hm|].
    rewrite <-Hkp. apply Hall; [done|]. pose proof (parent_lt k ltac:(lia)). lia.
Qed.

Lemma downInv_swap n i0 i j h :
  (i0 ≤ i)%nat → (0 < j < n)%nat → (n ≤ Len h)%nat → parent j = i → downInv n i0 i (h_array h) →
  le_at (h_array h) j i → (∀ k, (0 < k < n)%nat → parent k = i → le_at (h_array h) j k) →
  downInv n i0 j (h_array (Swap i j h)).
Proof.
  intros Hi0 Hj Hn Hji [Ho Hs Hb Hm] Hless Hmin.
  pose proof (parent_lt j ltac:(lia)) as Hij. rewrite Hji in Hij. split.
  - intros k Hk Hki0 Hkp. apply le_at_Swap; [lia..|]. unfold tr.
    pose proof (parent_lt k ltac:(lia)) as Hpk.
    destruct (decide (k = i)) as [->|Hki].
    { rewrite !decide_False by lia. apply Hb; [lia..|done]. }
    destruct (decide (k = j)) as [->|Hkj].
    { by rewrite decide_True. }
    destruct (decide (parent k = i)) as [He|He]; [by apply Hmin|].
    rewrite decide_False by done. by apply Ho.
  - lia.
  - intros _ k Hk Hkp. apply le_at_Swap; [lia..|]. unfold tr. rewrite Hji.
    pose proof (parent_lt k ltac:(lia)) as Hpk.
    rewrite (decide_True (P := i = i)), (decide_False (P := k = i)),
      (decide_False (P := k = j)) by (done || lia).
    rewrite <-Hkp. apply Ho; lia.
  - intros _ H0. pose proof (parent_lt i0 H0) as Hp0. apply le_at_Swap; [lia..|]. unfold tr.
    rewrite (decide_False (P := parent i0 = i)), (decide_False (P := parent i0 = j)) by lia.
    destruct (decide (i0 = i)) as [->|Hne]; [by apply Hs|].
    rewrite decide_False by lia. apply Hm; lia.
Qed.

(** The child that [down] takes is a smallest one. *)
Lemma down_child i n h :
  (n ≤ Len h)%nat → (2 * i + 1 < n)%nat →
  let j1 := (2 * i + 1)%nat in let j2 := (j1 + 1)%nat in
  let j := if decide (j2 < n)%nat then (if Less j1 j2 h then j1 else j2) else j1 in
  (0 < j < n)%nat ∧ parent j = i ∧
  ∀ k, (0 < k < n)%nat → parent k = i → le_at (h_array h) j k.
Proof.
  intros Hn Hi j1 j2 j.
  assert (∀ k, (0 < k)%nat → parent k = i → k = j1 ∨ k = j2) as Hk.
  { intros k Hk Hp. apply parent_child in Hp; [|done]. unfold j2, j1. lia. }
  assert (∀ k, le_at (h_array h) k k) as Hrefl.
  { intros k x y Hx Hy. simplify_eq. lia. }
  assert (parent j1 = i) as Hp1 by (apply parent_child; unfold j1; lia).
  assert (parent j2 = i) as Hp2 by (apply parent_child; unfold j2, j1; lia).
  unfold j. destruct (decide (j2 < n)%nat) as [Hj2|Hj2].
  - destruct (Less_spec j1 j2 h) as [[-> Hle]|[-> Hle]]; [unfold j1 in *; lia|lia| |];
      (split; [unfold j2, j1 in *; lia|split; [done|]]);
      intros k Hkn Hp; destruct (Hk k) as [->| ->]; auto; lia.
  - split; [unfold j1; lia|]. split; [done|]. intros k Hkn Hp.
    destruct (Hk k) as [->| ->]; auto; lia.
Qed.

Lemma down_upInv fuel n i0 i h :
  (n - i < fuel)%nat → (i0 ≤ i < n)%nat → (n ≤ Len h)%nat → downInv n i0 i (h_array h) →
  upInv n i0 (h_array (down fuel i n h)).
Proof.
  revert i h. induction fuel as [|fuel IH]; intros i h Hfuel Hi Hn Hinv; [lia|].
  cbn [down]. case_decide as Hd.
  - apply (downInv_done n i0 i); [unfold Len in Hn; lia|done|].
    intros k Hk Hp. apply parent_child in Hp; lia.
  - destruct (down_child i n h) as (Hj & Hpj & Hmin); [lia..|].
    set (j := if decide _ then _ else _) in *.
    pose proof (parent_lt j ltac:(lia)) as Hlt.
    destruct (Less_spec j i h) as [[-> Hle]|[-> Hle]]; [lia..| |]; simpl.
    + apply IH; [lia|lia|rewrite Len_Swap; lia|]. apply downInv_swap; auto; lia.
    + apply (downInv_done n i0 i); [unfold Len in Hn; lia|done|].
      intros k Hk Hp. apply (le_at_trans _ _ j); auto.
      apply lookup_lt_is_Some. unfold Len in Hn. lia.
Qed.
End key.

(** ** The index map *)
Definition map_ok (h : ttlKeyHeap) : Prop :=
  ∀ n i, h_keyMap h !! n = Some i ↔ h_array h !! i = Some n.

Lemma map_ok_NoDup h : map_ok h → NoDup (h_array h).
Proof.
  intros Hm. apply NoDup_alt. intros i j n Hi Hj. apply Hm in Hi, Hj. congruence.
Qed.

(** [h'] has the elements of [h], those from [n] on in their places. *)
Record moved (n : nat) (h h' : ttlKeyHeap) : Prop := {
  mv_perm : h_array h' ≡ₚ h_array h;
  mv_map : map_ok h → map_ok h';
  mv_same : ∀ k, (n ≤ k)%nat → h_array h' !! k = h_array h !! k;
}.

Lemma moved_refl n h : moved n h h.
Proof. done. Qed.
Lemma moved_trans n h1 h2 h3 : moved n h1 h2 → moved n h2 h3 → moved n h1 h3.
Proof.
  intros [p1 m1 s1] [p2 m2 s2]. split; [by rewrite p2|auto|].
  intros k Hk. by rewrite s2, s1.
Qed.
Lemma moved_Len n h h' : moved n h h' → Len h' = Len h.
Proof. intros [Hp _ _]. unfold Len. by rewrite Hp. Qed.

Lemma moved_Swap n i j h :
  (i < n)%nat → (j < n)%nat → (n ≤ Len h)%nat → moved n h (Swap i j h).
Proof.
  intros Hi Hj Hn. pose proof Hn as Hn'. unfold Len in Hn'.
  destruct (lookup_lt_is_Some_2 (h_array h) i) as [x Hx]; [lia|].
  destruct (lookup_lt_is_Some_2 (h_array h) j) as [y Hy]; [lia|].
  split.
  - unfold Swap. rewrite Hx, Hy. simpl. by apply Permutation_insert_swap.
  - intros Hm m k. rewrite lookup_Swap by lia. unfold Swap. rewrite Hx, Hy. simpl.
    assert (∀ a b z, h_array h !! a = Some z → h_array h !! b = Some z → a = b) as Hinj.
    { intros a b z Ha Hb. apply Hm in Ha, Hb. congruence. }
    specialize (Hm m k). rewrite !lookup_insert. unfold tr.
    repeat case_decide; subst; split; intros Hl; simplify_eq; eauto; try congruence.
    all: try (by apply Hm). all: try (exfalso; naive_solver).
  - intros k Hk. rewrite lookup_Swap by lia. unfold tr. by rewrite !decide_False by lia.
Qed.

Lemma moved_mono n m h h' : (n ≤ m)%nat → moved n h h' → moved m h h'.
Proof. intros Hle [p mm s]. split; [done..|]. intros k Hk. apply s. lia. Qed.

Lemma moved_up key fuel n j h :
  (j < n ≤ Len h)%nat → moved n h (up key fuel j h).
Proof.
  revert j h. induction fuel as [|fuel IH]; intros j h Hj; [apply moved_refl|].
  cbn [up]. fold (parent j). case_decide as Hd; [apply moved_refl|].
  destruct (negb _); [apply moved_refl|].
  assert (parent j < n)%nat.
  { destruct j as [|j]; [done|]. pose proof (parent_lt (S j)). lia. }
  eapply moved_trans; [by apply (moved_Swap n (parent j) j); lia|].
  apply IH. rewrite Len_Swap. lia.
Qed.

Lemma moved_down key fuel n i h :
  (i < n ≤ Len h)%nat → moved n h (down key fuel i n h).
Proof.
  revert i h. induction fuel as [|fuel IH]; intros i h Hi; [apply moved_refl|].
  cbn [down]. case_decide as Hd; [apply moved_refl|].
  destruct (down_child key i n h) as (Hj & _ & _); [lia..|].
  set (j := if decide _ then _ else _) in *. destruct (negb _); [apply moved_refl|].
  eapply moved_trans; [by apply (moved_Swap n i j); lia|].
  apply IH. rewrite Len_Swap. lia.
Qed.

(** ** The operations keep the heap in order *)
Record heap_ok (key : ptr → Z) (h : ttlKeyHeap) : Prop := {
  hk_map : map_ok h;
  hk_order : heap_upto key (Len h) (h_array h);
}.

Lemma new_heap_ok key : heap_ok key newTtlKeyHeap.
Proof.
  split; [|intros k Hk; unfold Len in Hk; simpl in Hk; lia].
  intros n i. unfold newTtlKeyHeap. cbn [h_keyMap h_array].
  rewrite lookup_empty, lookup_nil. done.
Qed.

(** Removing the last element. *)
Lemma Pop_ok key h x n :
  map_ok h → S n = Len h → h_array h !! n = Some x → heap_upto key n (h_array h) →
  ∃ h', Pop h = Ok (h', x) ∧ h_array h ≡ₚ x :: h_array h' ∧ heap_ok key h'.
Proof.
  intros Hm Hn Hx Ho. unfold Pop, Len in *.
  assert (last (h_array h) = Some x) as ->.
  { rewrite last_lookup. by rewrite <-Hn. }
  assert (h_array h = take n (h_array h) ++ [x]) as Hsplit.
  { rewrite <-(take_S_r _ _ _ Hx). by rewrite take_ge by lia. }
  replace (length (h_array h) - 1)%nat with n by lia.
  eexists. split; [done|]. split; [|split].
  - simpl. rewrite Hsplit at 1. by rewrite Permutation_app_comm.
  - intros m i. simpl. rewrite lookup_delete_Some, (Hm m i). split.
    + intros [Hne Hi]. rewrite lookup_take_lt; [done|].
      destruct (decide (i = n)) as [->|]; [congruence|]. apply lookup_lt_Some in Hi. lia.
    + intros Hi. apply lookup_take_Some in Hi as [Hi Hlt]. split; [|done].
      intros ->. apply Hm in Hi, Hx. rewrite Hi in Hx. simplify_eq. lia.
  - intros k Hk a b Ha Hb. unfold Len in Hk. simpl in *. rewrite length_take in Hk.
    apply lookup_take_Some in Ha as [Ha _]. apply lookup_take_Some in Hb as [Hb _].
    apply (Ho k ltac:(lia) a b Ha Hb).
Qed.

Lemma push_ok key n h :
  heap_ok key h → n ∉ h_array h →
  heap_ok key (push key n h) ∧ h_array (push key n h) ≡ₚ n :: h_array h.
Proof.
  intros [Hm Ho] Hn. unfold push, heapPush.
  assert (Len (Push n h) = S (Len h)) as Hlen.
  { unfold Len, Push. simpl. rewrite length_app. simpl. lia. }
  rewrite Hlen. replace (S (Len h) - 1)%nat with (Len h) by lia.
  assert (map_ok (Push n h)) as Hm'.
  { intros m i. unfold Push. simpl. rewrite lookup_insert. case_decide as He.
    - subst. split; [intros [= <-]; unfold Len; by rewrite lookup_app_r, Nat.sub_diag by lia|].
      intros Hi. apply lookup_app_Some in Hi as [Hi|[Hle Hi]].
      + by apply list_elem_of_lookup_2 in Hi.
      + apply list_lookup_singleton_Some in Hi as [Hi _]. f_equal. unfold Len. lia.
    - rewrite (Hm m i). split; [intros Hi; by apply lookup_app_l_Some|].
      intros Hi. apply lookup_app_Some in Hi as [Hi|[Hle Hi]]; [done|].
      apply list_lookup_singleton_Some in Hi as [_ Hi]. congruence. }
  assert (moved (S (Len h)) (Push n h) (up key (S (Len h)) (Len h) (Push n h))) as Hmv
    by (apply moved_up; lia).
  split; [split|].
  - by apply Hmv.
  - rewrite (moved_Len _ _ _ Hmv), Hlen. apply up_heap; [lia..|].
    split.
    + intros k Hk Hne x y Hx Hy. pose proof (parent_lt k ltac:(lia)). unfold Push in Hx, Hy.
      simpl in Hx, Hy. unfold Len in *. rewrite lookup_app_l in Hx, Hy by lia.
      apply (Ho k ltac:(unfold Len; lia) x y Hx Hy).
    + intros k Hk Hp Hj. pose proof (parent_lt k ltac:(lia)). lia.
  - rewrite (mv_perm _ _ _ Hmv). unfold Push. simpl. by rewrite Permutation_app_comm.
Qed.

(** The element at [i] goes to the end, where [down] and [up] do not reach it.  Its key
    may have changed since the heap was in order. *)
Lemma remove_downInv key0 key n i x h :
  map_ok h → S n = Len h → (i < n)%nat → h_array h !! i = Some x →
  heap_upto key0 (Len h) (h_array h) → (∀ y, y ≠ x → key0 y = key y) →
  downInv key n i i (h_array (Swap i n h)) ∧ h_array (Swap i n h) !! n = Some x.
Proof.
  intros Hm Hn Hi Hx Ho Hkey.
  assert (∀ k y, k ≠ i → h_array h !! k = Some y → y ≠ x) as Hne.
  { intros k y Hk Hy ->. apply Hm in Hx, Hy. congruence. }
  assert (∀ a b, a ≠ i → b ≠ i → le_at key0 (h_array h) a b → le_at key (h_array h) a b) as Hcv.
  { intros a b Ha Hb Hle u v Hu Hv. rewrite <-!Hkey by eauto. by apply Hle. }
  assert (is_Some (h_array h !! n)) as Hlast.
  { apply lookup_lt_is_Some. unfold Len in Hn. lia. }
  split; [|rewrite lookup_Swap by lia; unfold tr; by rewrite decide_False, decide_True by lia].
  split; [..|done|done].
  - intros k Hk Hki Hkp. apply le_at_Swap; [lia..|]. unfold tr.
    pose proof (parent_lt k ltac:(lia)). rewrite !decide_False by lia.
    apply Hcv; [lia..|]. apply Ho. lia.
  - intros _ k Hk Hkp Hi0. apply le_at_Swap; [lia..|]. unfold tr.
    pose proof (parent_lt k ltac:(lia)). pose proof (parent_lt i Hi0).
    rewrite !decide_False by lia. apply Hcv; [lia..|].
    apply (le_at_trans _ _ _ i); [by eexists|apply Ho; lia|]. rewrite <-Hkp. apply Ho. lia.
Qed.

Lemma heapRemove_ok key0 key i x h :
  map_ok h → h_array h !! i = Some x → heap_upto key0 (Len h) (h_array h) →
  (∀ y, y ≠ x → key0 y = key y) →
  ∃ h', heapRemove key i h = Ok (h', x) ∧ h_array h ≡ₚ x :: h_array h' ∧ heap_ok key h'.
Proof.
  intros Hm Hx Ho Hkey. apply lookup_lt_Some in Hx as Hi. fold (Len h) in Hi.
  unfold heapRemove. destruct (Len h) as [|n] eqn:Hn; [lia|].
  replace (S n - 1)%nat with n by lia. case_decide as Hd.
  - subst. apply (Pop_ok key h x i); [done|done|done|].
    intros k Hk u v Hu Hv. pose proof (parent_lt k ltac:(lia)).
    assert (∀ k y, k ≠ i → h_array h !! k = Some y → y ≠ x) as Hne.
    { intros k' y Hk' Hy ->. apply Hm in Hx, Hy. congruence. }
    rewrite <-!Hkey by (eapply Hne; [|done]; lia). apply (Ho k ltac:(lia) u v Hu Hv).
  - rewrite <-Hn in Ho.
    destruct (remove_downInv key0 key n i x h) as [Hdown Hlast]; [done|lia|lia|done..|].
    set (h1 := Swap i n h) in *. set (h2 := down key (S n) i n h1).
    set (h3 := up key (S i) i h2).
    assert (moved (S n) h h1) as M1 by (apply moved_Swap; lia).
    pose proof (moved_Len _ _ _ M1) as L1.
    assert (moved n h1 h2) as M2 by (apply moved_down; lia).
    pose proof (moved_Len _ _ _ M2) as L2.
    assert (moved n h2 h3) as M3 by (apply moved_up; lia).
    pose proof (moved_Len _ _ _ M3) as L3.
    destruct (Pop_ok key h3 x n) as (h' & Hp & Hperm & Hok).
    + by apply M3, M2, M1.
    + lia.
    + rewrite (mv_same _ _ _ M3), (mv_same _ _ _ M2) by done. done.
    + apply up_heap; [lia..|]. apply down_upInv; [lia..|done].
    + exists h'. split; [done|]. split; [|done].
      by rewrite <-Hperm, (mv_perm _ _ _ M3), (mv_perm _ _ _ M2), (mv_perm _ _ _ M1).
Qed.

Lemma map_ok_elem h n : map_ok h → n ∈ h_array h ↔ is_Some (h_keyMap h !! n).
Proof.
  intros Hm. rewrite list_elem_of_lookup. unfold is_Some. by setoid_rewrite (Hm n).
Qed.

(** [remove] of a node that is in the heap, or is not. *)
Lemma remove_ok key0 key n h :
  map_ok h → heap_upto key0 (Len h) (h_array h) → (∀ y, y ≠ n → key0 y = key y) →
  ∃ h', remove key n h = Ok h' ∧ heap_ok key h' ∧
    (if decide (n ∈ h_array h) then h_array h ≡ₚ n :: h_array h'
     else h' = h).
Proof.
  intros Hm Ho Hkey. unfold remove. destruct (h_keyMap h !! n) as [i|] eqn:Hn.
  - assert (n ∈ h_array h) as Hin by (apply map_ok_elem; [done|by eexists]).
    apply Hm in Hn. destruct (heapRemove_ok key0 key i n h) as (h' & Hr & Hp & Hok); [done..|].
    exists h'. rewrite Hr. by rewrite decide_True.
  - assert (n ∉ h_array h) as Hin.
    { rewrite map_ok_elem by done. rewrite Hn. by intros []. }
    exists h. rewrite decide_False by done. split_and!; [done| |done]. split; [done|].
    intros k Hk u v Hu Hv. rewrite <-!Hkey.
    + apply (Ho k Hk u v Hu Hv).
    + intros ->. by apply Hin, (list_elem_of_lookup_2 _ k).
    + intros ->. by apply Hin, (list_elem_of_lookup_2 _ (parent k)).
Qed.

(** [update] puts a node whose expire time has changed in its place. *)
Lemma update_ok key0 key n h :
  map_ok h → heap_upto key0 (Len h) (h_array h) → (∀ y, y ≠ n → key0 y = key y) →
  n ∈ h_array h →
  ∃ h', heapUpdate key n h = Ok h' ∧ heap_ok key h' ∧ h_array h' ≡ₚ h_array h.
Proof.
  intros Hm Ho Hkey Hin. unfold heapUpdate.
  destruct (proj1 (map_ok_elem h n Hm) Hin) as [i Hn]. rewrite Hn. apply Hm in Hn.
  destruct (heapRemove_ok key0 key i n h) as (h' & Hr & Hp & Hok); [done..|].
  assert (n ∉ h_array h') as Hni.
  { apply map_ok_NoDup in Hm. rewrite Hp in Hm. by apply NoDup_cons in Hm as [? _]. }
  destruct (push_ok key n h' Hok Hni) as [Hok' Hp'].
  exists (push key n h'). rewrite Hr. split_and!; [done|done|]. by rewrite Hp', <-Hp.
Qed.

(** The first element expires first. *)
Lemma top_min key h n m :
  heap_ok key h → top h = Some n → m ∈ h_array h → key n ≤ key m.
Proof.
  intros [_ Ho] Ht Hm. apply list_elem_of_lookup in Hm as [k Hk]. unfold top in Ht.
  enough (le_at key (h_array h) 0 k) as Hle by by apply Hle.
  apply lookup_lt_Some in Hk. clear m. induction (lt_wf k) as [k _ IH].
  destruct (decide (k = 0)%nat) as [->|Hk0].
  { intros u v Hu Hv. simplify_eq. lia. }
  pose proof (parent_lt k ltac:(lia)). apply (le_at_trans _ _ _ (parent k)).
  - apply lookup_lt_is_Some. lia.
  - apply IH; lia.
  - apply Ho. unfold Len. lia.
Qed.

Lemma pop_ok key h n :
  heap_ok key h → top h = Some n →
  ∃ h', pop key h = Ok (h', n) ∧ h_array h ≡ₚ n :: h_array h' ∧ heap_ok key h'.
Proof.
  intros [Hm Ho] Ht. unfold top in Ht. apply lookup_lt_Some in Ht as Hi. fold (Len h) in Hi.
  unfold pop, heapPop. destruct (Len h) as [|m] eqn:Hn; [lia|].
  replace (S m - 1)%nat with m by lia. destruct m as [|m].
  { assert (h_array h = [n]) as He.
    { unfold Len in Hn. destruct (h_array h) as [|? []]; simplify_eq/=. done. }
    assert (Swap 0 0 h = mkHeap [n] (<[n := 0%nat]> (<[n := 0%nat]> (h_keyMap h)))) as Hs.
    { unfold Swap. by rewrite He. }
    assert (moved 1 h (Swap 0 0 h)) as M1 by (apply moved_Swap; lia).
    destruct (Pop_ok key (Swap 0 0 h) n 0) as (h' & Hp & Hperm & Hok).
    - by apply M1.
    - by rewrite Len_Swap.
    - by rewrite Hs.
    - intros k Hk. lia.
    - exists h'. split; [exact Hp|]. split; [|done]. by rewrite <-Hperm, (mv_perm _ _ _ M1). }
  rewrite <-Hn in Ho.
  destruct (remove_downInv key key (S m) 0 n h) as [Hdown Hlast]; [done|lia|lia|done..|].
  set (h1 := Swap 0 (S m) h) in *. set (h2 := down key (S (S m)) 0 (S m) h1).
  assert (moved (S (S m)) h h1) as M1 by (apply moved_Swap; lia).
  pose proof (moved_Len _ _ _ M1) as L1.
  assert (moved (S m) h1 h2) as M2 by (apply moved_down; lia).
  pose proof (moved_Len _ _ _ M2) as L2.
  destruct (Pop_ok key h2 n (S m)) as (h' & Hp & Hperm & Hok).
  - by apply M2, M1.
  - lia.
  - by rewrite (mv_same _ _ _ M2).
  - apply upInv_root, down_upInv; [lia..|done].
  - exists h'. split; [done|]. split; [|done].
    by rewrite <-Hperm, (mv_perm _ _ _ M2), (mv_perm _ _ _ M1).
Qed.
