(* ===== verification/EtcdError.v ===== *)
(** * EtcdError: the errors of etcd (src/error/error.go)

    The codes, their messages, and the HTTP status with which an error is written. *)

From stdpp Require Import pretty.
From S2P Require Import Prelude.

Inductive ecode : Set :=
  | EcodeKeyNotFound | EcodeTestFailed | EcodeNotFile | EcodeNoMorePeer | EcodeNotDir
  | EcodeNodeExist | EcodeKeyIsPreserved | EcodeRootROnly | EcodeDirNotEmpty
  | EcodeExistingPeerAddr | EcodeValueRequired | EcodePrevValueRequired | EcodeTTLNaN
  | EcodeIndexNaN | EcodeValueOrTTLRequired | EcodeTimeoutNaN | EcodeNameRequired
  | EcodeIndexOrValueRequired | EcodeIndexValueMutex | EcodeInvalidField | EcodeInvalidForm
  | EcodeRaftInternal | EcodeLeaderElect | EcodeWatcherCleared | EcodeEventIndexCleared
  | EcodeStandbyInternal | EcodeInvalidActiveSize | EcodeInvalidRemoveDelay | EcodeClientInternal.

Definition ecodeNum (c : ecode) : Z :=
  match c with
  | EcodeKeyNotFound => 100 | EcodeTestFailed => 101 | EcodeNotFile => 102
  | EcodeNoMorePeer => 103 | EcodeNotDir => 104 | EcodeNodeExist => 105
  | EcodeKeyIsPreserved => 106 | EcodeRootROnly => 107 | EcodeDirNotEmpty => 108
  | EcodeExistingPeerAddr => 109 | EcodeValueRequired => 200 | EcodePrevValueRequired => 201
  | EcodeTTLNaN => 202 | EcodeIndexNaN => 203 | EcodeValueOrTTLRequired => 204
  | EcodeTimeoutNaN => 205 | EcodeNameRequired => 206 | EcodeIndexOrValueRequired => 207
  | EcodeIndexValueMutex => 208 | EcodeInvalidField => 209 | EcodeInvalidForm => 210
  | EcodeRaftInternal => 300 | EcodeLeaderElect => 301 | EcodeWatcherCleared => 400
  | EcodeEventIndexCleared => 401 | EcodeStandbyInternal => 402 | EcodeInvalidActiveSize => 403
  | EcodeInvalidRemoveDelay => 404 | EcodeClientInternal => 500
  end.
Coercion ecodeNum : ecode >-> Z.

Definition errors : list (ecode * string) := [
  (EcodeKeyNotFound, "Key not found");
  (EcodeTestFailed, "Compare failed");
  (EcodeNotFile, "Not a file");
  (EcodeNoMorePeer, "Reached the max number of peers in the cluster");
  (EcodeNotDir, "Not a directory");
  (EcodeNodeExist, "Key already exists");
  (EcodeRootROnly, "Root is read only");
  (EcodeKeyIsPreserved, "The prefix of given key is a keyword in etcd");
  (EcodeDirNotEmpty, "Directory not empty");
  (EcodeExistingPeerAddr, "Peer address has existed");
  (EcodeValueRequired, "Value is Required in POST form");
  (EcodePrevValueRequired, "PrevValue is Required in POST form");
  (EcodeTTLNaN, "The given TTL in POST form is not a number");
  (EcodeIndexNaN, "The given index in POST form is not a number");
  (EcodeValueOrTTLRequired, "Value or TTL is required in POST form");
  (EcodeTimeoutNaN, "The given timeout in POST form is not a number");
  (EcodeNameRequired, "Name is required in POST form");
  (EcodeIndexOrValueRequired, "Index or value is required");
  (EcodeIndexValueMutex, "Index and value cannot both be specified");
  (EcodeInvalidField, "Invalid field");
  (EcodeInvalidForm, "Invalid POST form");
  (EcodeRaftInternal, "Raft Internal Error");
  (EcodeLeaderElect, "During Leader Election");
  (EcodeWatcherCleared, "watcher is cleared due to etcd recovery");
  (EcodeEventIndexCleared, "The event in requested index is outdated and cleared");
  (EcodeStandbyInternal, "Standby Internal Error");
  (EcodeInvalidActiveSize, "Invalid active size");
  (EcodeInvalidRemoveDelay, "Standby remove delay");
  (EcodeClientInternal, "Client Internal Error")].

(** Reading a map of strings: the empty string for a key that is not there. *)
Definition errorsAt (code : Z) : string :=
  default EmptyString (snd <$> find (λ p, ecodeNum p.1 =? code) errors).

Record Error := mkError {
  ErrorCode : Z;
  Error_Message : string;
  Cause : string;
  Error_Index : Z;
}.
#[export] Instance set_Error_Index : Setter Error_Index := λ f e,
  mkError (ErrorCode e) (Error_Message e) (Cause e) (f (Error_Index e)).

Definition NewError (errorCode : Z) (cause : string) (index : Z) : Error :=
  mkError errorCode (errorsAt errorCode) cause index.
Definition NewRequestError (errorCode : Z) (cause : string) : Error :=
  NewError errorCode cause 0.
Definition Message_ (code : Z) : string := errorsAt code.

(** The Error method. *)
Definition errorString (e : Error) : string :=
  (Error_Message e ++ " (" ++ Cause e ++ ")")%string.

(** The status that Write sends; the header X-Etcd-Index is [Error_Index]. *)
Definition writeStatus (e : Error) : Z :=
  let c := ErrorCode e in
  if c =? EcodeKeyNotFound then 404
  else if (c =? EcodeNotFile) || (c =? EcodeDirNotEmpty) then 403
  else if (c =? EcodeTestFailed) || (c =? EcodeNodeExist) then 412
  else if Z.quot c 100 =? 3 then 500
  else 400.
