(* ===== verification/Stats.v ===== *)
(** * Stats: the counters of the store (src/store/stats.go) *)

From S2P Require Import Prelude.

Inductive statField :=
| SetSuccess | SetFail | DeleteSuccess | DeleteFail | CreateSuccess | CreateFail
| UpdateSuccess | UpdateFail | CompareAndSwapSuccess | CompareAndSwapFail
| GetSuccess | GetFail | ExpireCount | CompareAndDeleteSuccess | CompareAndDeleteFail.

#[export] Instance statField_eq_dec : EqDecision statField.
Proof. solve_decision. Defined.

Record Stats := mkStats {
  st_GetSuccess : Z;
  st_GetFail : Z;
  st_SetSuccess : Z;
  st_SetFail : Z;
  st_DeleteSuccess : Z;
  st_DeleteFail : Z;
  st_UpdateSuccess : Z;
  st_UpdateFail : Z;
  st_CreateSuccess : Z;
  st_CreateFail : Z;
  st_CompareAndSwapSuccess : Z;
  st_CompareAndSwapFail : Z;
  st_CompareAndDeleteSuccess : Z;
  st_CompareAndDeleteFail : Z;
  st_ExpireCount : Z;
  st_Watchers : Z;
}.

Definition newStats : Stats := mkStats 0 0 0 0 0 0 0 0 0 0 0 0 0 0 0 0.

(** The positional literal of clone, in the order of the source. *)
Definition Stats_clone (s : Stats) : Stats :=
  mkStats (st_GetSuccess s) (st_GetFail s) (st_SetSuccess s) (st_SetFail s)
    (st_DeleteSuccess s) (st_DeleteFail s) (st_UpdateSuccess s) (st_UpdateFail s)
    (st_CreateSuccess s) (st_CreateFail s) (st_CompareAndSwapSuccess s)
    (st_CompareAndSwapFail s) (st_CompareAndDeleteSuccess s) (st_CompareAndDeleteFail s)
    (st_Watchers s) (st_ExpireCount s).

Definition TotalReads (s : Stats) : Z := uint64 (st_GetSuccess s + st_GetFail s).

Definition TotalTranscations (s : Stats) : Z :=
  uint64 (st_SetSuccess s + st_SetFail s + st_DeleteSuccess s + st_DeleteFail s
    + st_CompareAndSwapSuccess s + st_CompareAndSwapFail s
    + st_CompareAndDeleteSuccess s + st_CompareAndDeleteFail s
    + st_UpdateSuccess s + st_UpdateFail s).

Definition Inc (field : statField) (s : Stats) : Stats :=
  let add1 f n := if bool_decide (field = f) then uint64 (n + 1) else n in
  mkStats (add1 GetSuccess (st_GetSuccess s)) (add1 GetFail (st_GetFail s))
    (add1 SetSuccess (st_SetSuccess s)) (add1 SetFail (st_SetFail s))
    (add1 DeleteSuccess (st_DeleteSuccess s)) (add1 DeleteFail (st_DeleteFail s))
    (add1 UpdateSuccess (st_UpdateSuccess s)) (add1 UpdateFail (st_UpdateFail s))
    (add1 CreateSuccess (st_CreateSuccess s)) (add1 CreateFail (st_CreateFail s))
    (add1 CompareAndSwapSuccess (st_CompareAndSwapSuccess s))
    (add1 CompareAndSwapFail (st_CompareAndSwapFail s))
    (add1 CompareAndDeleteSuccess (st_CompareAndDeleteSuccess s))
    (add1 CompareAndDeleteFail (st_CompareAndDeleteFail s))
    (add1 ExpireCount (st_ExpireCount s)) (st_Watchers s).
