(* ===== verification/StoreEvent.v ===== *)
(** * StoreEvent: events and their history (src/store/event.go, event_queue.go,
    event_history.go, node_extern.go)

    Events are shared by pointer between the history and the channels of the watchers,
    and [watch] assigns to a field of an event that is already shared: an event is a
    pointer into [events].  The history is a ring buffer of the last events; [held]
    relates it to the list of the events it holds, oldest first. *)

From stdpp Require Import pretty.
From S2P Require Import Prelude.
From S2P Require Import Wire.
From S2P Require Import Paths TtlHeap EtcdError.

#[local] Set Warnings "-register-all".

(** ** NodeExtern *)
Inductive NodeExtern := mkNodeExtern {
  ne_Key : string;
  ne_Value : option string;
  ne_Dir : bool;
  ne_Expiration : option ptr;  (** [&n.ExpireTime], a pointer into the node [n] *)
  ne_TTL : Z;
  ne_Nodes : list NodeExtern;
  ne_ModifiedIndex : Z;
  ne_CreatedIndex : Z;
}.
#[export] Instance set_ne_Value : Setter ne_Value := λ f e,
  mkNodeExtern (ne_Key e) (f (ne_Value e)) (ne_Dir e) (ne_Expiration e) (ne_TTL e)
    (ne_Nodes e) (ne_ModifiedIndex e) (ne_CreatedIndex e).
#[export] Instance set_ne_Dir : Setter ne_Dir := λ f e,
  mkNodeExtern (ne_Key e) (ne_Value e) (f (ne_Dir e)) (ne_Expiration e) (ne_TTL e)
    (ne_Nodes e) (ne_ModifiedIndex e) (ne_CreatedIndex e).
#[export] Instance set_ne_Expiration : Setter ne_Expiration := λ f e,
  mkNodeExtern (ne_Key e) (ne_Value e) (ne_Dir e) (f (ne_Expiration e)) (ne_TTL e)
    (ne_Nodes e) (ne_ModifiedIndex e) (ne_CreatedIndex e).
#[export] Instance set_ne_TTL : Setter ne_TTL := λ f e,
  mkNodeExtern (ne_Key e) (ne_Value e) (ne_Dir e) (ne_Expiration e) (f (ne_TTL e))
    (ne_Nodes e) (ne_ModifiedIndex e) (ne_CreatedIndex e).
#[export] Instance set_ne_Nodes : Setter ne_Nodes := λ f e,
  mkNodeExtern (ne_Key e) (ne_Value e) (ne_Dir e) (ne_Expiration e) (ne_TTL e)
    (f (ne_Nodes e)) (ne_ModifiedIndex e) (ne_CreatedIndex e).

(** ** Event *)
Inductive action :=
| Get | Create | Set_ | Update | Delete | CompareAndSwap | CompareAndDelete | Expire.
#[export] Instance action_eq_dec : EqDecision action.
Proof. solve_decision. Defined.

Record Event := mkEvent {
  e_Action : action;
  e_Node : NodeExtern;
  e_PrevNode : option NodeExtern;
  e_EtcdIndex : Z;
}.
#[export] Instance set_e_Node : Setter e_Node := λ f e,
  mkEvent (e_Action e) (f (e_Node e)) (e_PrevNode e) (e_EtcdIndex e).
#[export] Instance set_e_PrevNode : Setter e_PrevNode := λ f e,
  mkEvent (e_Action e) (e_Node e) (f (e_PrevNode e)) (e_EtcdIndex e).
#[export] Instance set_e_EtcdIndex : Setter e_EtcdIndex := λ f e,
  mkEvent (e_Action e) (e_Node e) (e_PrevNode e) (f (e_EtcdIndex e)).

Definition newEvent (action : action) (key : string) (modifiedIndex createdIndex : Z) : Event :=
  mkEvent action (mkNodeExtern key None false None 0 [] modifiedIndex createdIndex) None 0.

Definition IsCreated (e : Event) : bool :=
  bool_decide (e_Action e = Create)
  || (bool_decide (e_Action e = Set_) && match e_PrevNode e with None => true | _ => false end).

Definition Index (e : Event) : Z := ne_ModifiedIndex (e_Node e).

(** ** eventQueue *)
Record eventQueue := mkQueue {
  q_Events : list (option ptr);
  q_Size : Z;
  q_Front : Z;
  q_Back : Z;
  q_Capacity : Z;
}.

Definition insert (e : ptr) (eq : eventQueue) : outcome eventQueue :=
  if (0 <=? q_Back eq) && (q_Back eq <? len (q_Events eq)) then
    if q_Capacity eq =? 0 then Panic "integer divide by zero"
    else
      let full := q_Size eq =? q_Capacity eq in
      Ok (mkQueue (<[Z.to_nat (q_Back eq) := Some e]> (q_Events eq))
            (if full then q_Size eq else q_Size eq + 1)
            (if full then Z.rem (q_Front eq + 1) (q_Capacity eq) else q_Front eq)
            (Z.rem (q_Back eq + 1) (q_Capacity eq))
            (q_Capacity eq))
  else Panic outOfRange.

(** ** EventHistory *)
Record EventHistory := mkHistory {
  eh_Queue : eventQueue;
  eh_StartIndex : Z;
  eh_LastIndex : Z;
}.

Definition newEventHistory (capacity : Z) : EventHistory :=
  mkHistory (mkQueue (replicate (Z.to_nat capacity) None) 0 0 0 capacity) 0 0.

Section history.
Context (events : gmap ptr Event).

(** [e.Node] of a pointer [e] that may be nil. *)
Definition eventAt (q : list (option ptr)) (i : Z) : outcome (ptr * Event) :=
  if (0 <=? i) && (i <? len q) then
    match q !! Z.to_nat i with
    | Some (Some p) => e ← deref (events !! p); Ok (p, e)
    | _ => Panic nilDeref
    end
  else Panic outOfRange.

Definition addEvent (p : ptr) (eh : EventHistory) : outcome EventHistory :=
  q ← insert p (eh_Queue eh);
  e ← deref (events !! p);
  '(_, front) ← eventAt (q_Events q) (q_Front q);
  Ok (mkHistory q (Index front) (Index e)).

(** The condition of the loop of scan. *)
Definition keyMatch (key : string) (recursive : bool) (e : Event) : bool :=
  let k := ne_Key (e_Node e) in
  let same := bool_decide (k = key) in
  if recursive then
    let key := Clean key in
    let key := if bool_decide (last (String.list_ascii_of_string key) = Some slash) then key
               else (key ++ "/")%string in
    same || HasPrefix k key
  else same.

Fixpoint scanLoop (fuel : nat) (key : string) (recursive : bool) (q : eventQueue) (i : Z)
  : run (option ptr) :=
  match fuel with
  | O => Loop
  | S fuel =>
      match eventAt (q_Events q) i with
      | Panic why => Crash why
      | Ok (p, e) =>
          if keyMatch key recursive e then Ret (Some p)
          else
            let i := Z.rem (i + 1) (q_Capacity q) in
            if i =? q_Back q then Ret None else scanLoop fuel key recursive q i
      end
  end.

(** At most [q_Capacity] turns. *)
Definition scan (key : string) (recursive : bool) (index : Z) (eh : EventHistory)
  : run (Error + option ptr) :=
  if index <? eh_StartIndex eh then
    Ret (inl (NewError EcodeEventIndexCleared
      ("the requested history has been cleared [" ++ pretty (eh_StartIndex eh) ++ "/"
       ++ pretty index ++ "]")%string 0))
  else if index >? eh_LastIndex eh then Ret (inr None)
  else
    let offset := uint64 (index - eh_StartIndex eh) in
    let q := eh_Queue eh in
    if q_Capacity q =? 0 then Crash "integer divide by zero"
    else
      r ← scanLoop (Z.to_nat (q_Capacity q)) key recursive q
            (Z.rem (int64 (q_Front q + int64 offset)) (q_Capacity q));
      Ret (inr r).
End history.

(** The elements are copied one by one. *)
Definition EventHistory_clone (eh : EventHistory) : EventHistory :=
  let q := eh_Queue eh in
  mkHistory (mkQueue (q_Events q) (q_Size q) (q_Front q) (q_Back q) (q_Capacity q))
    (eh_StartIndex eh) (eh_LastIndex eh).

(** ** The queue holds the last events *)
Record held (q : eventQueue) (l : list ptr) : Prop := {
  hd_len : len (q_Events q) = q_Capacity q;
  hd_size : q_Size q = len l;
  hd_fits : len l ≤ q_Capacity q;
  hd_front : 0 ≤ q_Front q < q_Capacity q;
  hd_back : q_Back q = (q_Front q + len l) mod q_Capacity q;
  hd_elems : ∀ k p, l !! k = Some p →
    q_Events q !! Z.to_nat ((q_Front q + Z.of_nat k) mod q_Capacity q) = Some (Some p);
}.

Lemma held_new c : 0 < c → held (eh_Queue (newEventHistory c)) [].
Proof.
  intros Hc. split; simpl; try done; try lia.
  - unfold len. rewrite length_replicate. lia.
  - unfold len. simpl. lia.
Qed.

(** Places of the ring are different within one turn. *)
Lemma ring_inj c f a b :
  0 < c → 0 ≤ a < c → 0 ≤ b < c → (f + a) mod c = (f + b) mod c → a = b.
Proof.
  intros Hc Ha Hb He. pose proof (Z.div_mod (f + a) c). pose proof (Z.div_mod (f + b) c).
  assert (c * ((f + a) / c - (f + b) / c) = a - b) as Hd by lia.
  destruct (Z.eq_dec ((f + a) / c) ((f + b) / c)) as [Hq|Hq]; [rewrite Hq in Hd; lia|nia].
Qed.

Lemma lookup_ring q l k p i :
  held q l → i = (q_Front q + Z.of_nat k) mod q_Capacity q → l !! k = Some p →
  q_Events q !! Z.to_nat i = Some (Some p).
Proof. intros Hh -> Hk. by apply Hh. Qed.

(** What the queue holds after an insertion. *)
Definition pushed (c : Z) (l : list ptr) (p : ptr) : list ptr :=
  (if len l =? c then tail l else l) ++ [p].

Lemma rem_mod a c : 0 ≤ a → 0 < c → Z.rem a c = a mod c.
Proof. intros. by apply Z.rem_mod_nonneg. Qed.

Lemma insert_held q l p :
  held q l →
  ∃ q', insert p q = Ok q' ∧ q_Capacity q' = q_Capacity q ∧ held q' (pushed (q_Capacity q) l p).
Proof.
  intros Hh. pose proof Hh as [Hlen Hsize Hfits Hfront Hback Helems].
  pose proof (len_nonneg l) as Hl0. set (c := q_Capacity q) in *.
  assert (0 ≤ q_Back q < c) as Hb by (rewrite Hback; apply Z.mod_pos_bound; lia).
  unfold insert. rewrite Hlen, Hsize. fold c.
  rewrite (proj2 (Z.leb_le 0 _)), (proj2 (Z.ltb_lt _ c)), (proj2 (Z.eqb_neq c 0)) by lia.
  cbn [andb]. eexists. split; [done|]. split; [done|].
  assert (∀ k x, l !! k = Some x → (k = 0%nat ∧ len l = c) ∨
    Z.to_nat ((q_Front q + Z.of_nat k) mod c) ≠ Z.to_nat (q_Back q)) as Hne.
  { intros k x Hk. apply lookup_lt_Some in Hk. unfold len in *.
    destruct (decide (k = 0%nat ∧ Z.of_nat (length l) = c)) as [|Hd]; [by left|right].
    intros He. assert (0 ≤ (q_Front q + Z.of_nat k) mod c) by (apply Z.mod_pos_bound; lia).
    assert ((q_Front q + Z.of_nat k) mod c = q_Back q) as He2 by lia. rewrite Hback in He2.
    destruct (decide (Z.of_nat (length l) = c)) as [Hc|Hc].
    - assert ((q_Front q + c) mod c = (q_Front q + 0) mod c) as Hz.
      { rewrite Z.add_0_r. replace (q_Front q + c) with (q_Front q + 1 * c) by lia.
        apply Z.mod_add. lia. }
      rewrite Hc, Hz in He2. apply ring_inj in He2; lia.
    - apply ring_inj in He2; lia. }
  unfold pushed. destruct (Z.eqb_spec (len l) c) as [Hfull|Hnot].
  - destruct l as [|x l]; [unfold len in Hfull; simpl in Hfull; lia|]. simpl tail.
    rewrite len_cons in *.
    split; cbn [q_Events q_Size q_Front q_Back q_Capacity];
      rewrite ?len_app, ?rem_mod by lia; change (len [p]) with 1.
    + unfold len. rewrite length_insert. done.
    + lia.
    + lia.
    + apply Z.mod_pos_bound. lia.
    + rewrite Hback, Zplus_mod_idemp_l, Zplus_mod_idemp_l. f_equal. lia.
    + intros k y Hk. rewrite Zplus_mod_idemp_l.
      destruct (decide (k = length l)) as [->|Hkl].
      * rewrite lookup_app_r, Nat.sub_diag in Hk by lia. injection Hk as <-.
        assert ((q_Front q + 1 + Z.of_nat (length l)) mod c = q_Back q) as ->.
        { rewrite Hback. f_equal. unfold len. lia. }
        apply list_lookup_insert_eq. unfold len in Hlen. lia.
      * assert (l !! k = Some y) as Hky.
        { apply lookup_app_Some in Hk as [|[Hge Hk]]; [done|].
          apply list_lookup_singleton_Some in Hk as [Hk _]. lia. }
        replace (q_Front q + 1 + Z.of_nat k) with (q_Front q + Z.of_nat (S k)) by lia.
        rewrite list_lookup_insert_ne; [by apply Helems|].
        destruct (Hne (S k) y Hky) as [[? _]|Hx]; [lia|congruence].
  - split; cbn [q_Events q_Size q_Front q_Back q_Capacity];
      rewrite ?len_app, ?rem_mod by lia; change (len [p]) with 1; try lia.
    + unfold len. rewrite length_insert. done.
    + rewrite Hback, Zplus_mod_idemp_l. f_equal. lia.
    + intros k y Hk. apply lookup_app_Some in Hk as [Hk|[Hge Hk]].
      * rewrite list_lookup_insert_ne; [by apply Helems|].
        destruct (Hne k y Hk) as [[_ ?]|Hx]; [lia|congruence].
      * apply list_lookup_singleton_Some in Hk as [Hk <-].
        assert ((q_Front q + Z.of_nat k) mod c = q_Back q) as ->.
        { rewrite Hback. f_equal. unfold len. lia. }
        apply list_lookup_insert_eq. unfold len in Hlen. lia.
Qed.

(** ** The history
    The events have consecutive indices, from [start] on. *)
Definition chained (events : gmap ptr Event) (start : Z) (l : list ptr) : Prop :=
  ∀ k p, l !! k = Some p → ∃ e, events !! p = Some e ∧ Index e = start + Z.of_nat k.

Record history_ok (events : gmap ptr Event) (eh : EventHistory) (l : list ptr) : Prop := {
  hs_held : held (eh_Queue eh) l;
  hs_chain : chained events (eh_StartIndex eh) l;
  hs_start : 0 ≤ eh_StartIndex eh;
  hs_last : l = [] ∧ eh_StartIndex eh = 0 ∧ eh_LastIndex eh = 0 ∨
    l ≠ [] ∧ eh_LastIndex eh = eh_StartIndex eh + len l - 1;
  hs_bounds : q_Capacity (eh_Queue eh) < 2 ^ 62;
}.

Lemma eventAt_ring events q l k p e :
  held q l → l !! k = Some p → events !! p = Some e →
  eventAt events (q_Events q) ((q_Front q + Z.of_nat k) mod q_Capacity q) = Ok (p, e).
Proof.
  intros Hh Hk He. pose proof Hh as [Hlen Hsize Hfits Hfront Hback Helems]. unfold eventAt.
  pose proof (Z.mod_pos_bound (q_Front q + Z.of_nat k) (q_Capacity q) ltac:(lia)).
  rewrite Hlen, (proj2 (Z.leb_le 0 _)), (proj2 (Z.ltb_lt _ (q_Capacity q))) by lia.
  cbn [andb]. rewrite (Helems k p Hk), He. done.
Qed.

Lemma chained_pushed events start l p e c :
  chained events start l → events !! p = Some e → (l ≠ [] → Index e = start + len l) → 0 < c →
  len l ≤ c →
  chained events (match pushed c l p with q :: _ => default 0 (Index <$> events !! q) | [] => 0 end)
    (pushed c l p).
Proof.
  intros Hch He Hidx Hc Hle. unfold pushed. destruct l as [|x l].
  { destruct (_ =? _); simpl; rewrite He; simpl; intros k y Hk;
      apply list_lookup_singleton_Some in Hk as [-> <-]; exists e; split; [done|lia|done|lia]. }
  specialize (Hidx ltac:(done)). rewrite len_cons in Hidx.
  assert (chained events start ((x :: l) ++ [p])) as Hall.
  { intros k y Hk. apply lookup_app_Some in Hk as [Hk|[Hge Hk]]; [by apply Hch|].
    apply list_lookup_singleton_Some in Hk as [Hk <-]. exists e. split; [done|].
    simpl in Hge, Hk. unfold len in Hidx. lia. }
  destruct (_ =? c).
  - cbn [tail]. destruct (l ++ [p]) as [|y l'] eqn:E; [by destruct l|].
    destruct (Hall 1%nat y) as (ey & Hy & Hiy); [by rewrite <-app_comm_cons, E|].
    rewrite Hy. simpl. intros k z Hk. destruct (Hall (S k) z) as (ez & Hz & Hiz).
    { by rewrite <-app_comm_cons, E. }
    exists ez. split; [done|]. lia.
  - rewrite <-app_comm_cons in *. destruct (Hall 0%nat x) as (ex & Hx & Hix); [done|].
    rewrite Hx. simpl. intros k z Hk. destruct (Hall k z Hk) as (ez & Hz & Hiz).
    exists ez. split; [done|]. lia.
Qed.

(** addEvent of the event with the next index. *)
Lemma addEvent_ok events eh l p e :
  history_ok events eh l → events !! p = Some e → 0 ≤ Index e →
  (l ≠ [] → Index e = eh_LastIndex eh + 1) →
  ∃ eh', addEvent events p eh = Ok eh' ∧ eh_LastIndex eh' = Index e ∧
    history_ok events eh' (pushed (q_Capacity (eh_Queue eh)) l p).
Proof.
  intros [Hh Hch Hs Hl Hb] He H0 Hidx. unfold addEvent.
  destruct (insert_held (eh_Queue eh) l p Hh) as (q & Hq & Hc & Hh'). rewrite Hq.
  cbn [mbind outcome_bind]. rewrite He. cbn [mbind outcome_bind deref].
  set (c := q_Capacity (eh_Queue eh)) in *. pose proof (hd_front _ _ Hh) as Hf.
  assert (chained events (match pushed c l p with
    | q :: _ => default 0 (Index <$> events !! q) | [] => 0 end) (pushed c l p)) as Hch'.
  { eapply chained_pushed; [done|done| |lia|apply Hh].
    intros Hne. rewrite Hidx by done. destruct Hl as [[? _]|[_ ->]]; [done|lia]. }
  destruct (pushed c l p) as [|x l'] eqn:E.
  { unfold pushed in E. by apply app_eq_nil in E as [_ ?]. }
  destruct (Hch' 0%nat x) as (ex & Hx & Hix); [done|].
  pose proof (eventAt_ring events q (x :: l') 0 x ex Hh' ltac:(done) Hx) as Hat.
  assert ((q_Front q + Z.of_nat 0) mod q_Capacity q = q_Front q) as Hz.
  { rewrite Z.add_0_r. apply Z.mod_small. apply Hh'. }
  rewrite Hz in Hat. rewrite Hat. cbn [mbind outcome_bind].
  eexists. split; [done|]. split; [done|]. rewrite Hx in Hch'. simpl in Hch'. clear Hix.
  assert (Index e = Index ex + len (x :: l') - 1 ∧ 0 ≤ Index ex) as [Hlast Hst].
  { assert (last (x :: l') = Some p) as Hlp.
    { rewrite <-E. unfold pushed. apply last_snoc. }
    rewrite last_lookup in Hlp. destruct (Hch' _ _ Hlp) as (e' & He' & Hi').
    simplify_eq. split; [rewrite Hi', len_cons; unfold len; simpl; lia|].
    destruct l as [|y l].
    - unfold pushed in E. destruct (_ =? _); simplify_eq/=; by simplify_eq.
    - destruct Hl as [[? _]|[_ Hl]]; [done|].
      destruct (Hch 0%nat y) as (ey & Hy & Hiy); [done|].
      assert (eh_StartIndex eh ≤ Index ex); [|lia].
      unfold pushed in E. destruct (_ =? _); simpl in E; [|simplify_eq; lia].
      destruct l as [|z l]; simplify_eq/=.
      + simplify_eq. pose proof (Hidx ltac:(done)). unfold len in *. simpl in *. lia.
      + destruct (Hch 1%nat x) as (ez & Hz' & Hiz); [done|]. simplify_eq. lia. }
  split; try done; cbn [eh_Queue eh_StartIndex eh_LastIndex].
  - by right.
  - by rewrite Hc.
Qed.

(** ** scan *)
Definition matching (events : gmap ptr Event) (key : string) (recursive : bool) (p : ptr) : bool :=
  match events !! p with Some e => keyMatch key recursive e | None => false end.

Lemma scanLoop_find events start key recursive fuel q l k :
  held q l → chained events start l → (k < length l)%nat → (length l - k ≤ fuel)%nat →
  scanLoop events fuel key recursive q ((q_Front q + Z.of_nat k) mod q_Capacity q) =
  Ret (find (matching events key recursive) (drop k l)).
Proof.
  intros Hh Hch. pose proof Hh as [Hlen Hsize Hfits Hfront Hback Helems].
  revert k. induction fuel as [|fuel IH]; intros k Hk Hf; [lia|].
  destruct (lookup_lt_is_Some_2 l k Hk) as [p Hp]. destruct (Hch k p Hp) as (e & He & _).
  cbn [scanLoop]. rewrite (eventAt_ring events q l k p e Hh Hp He).
  rewrite (drop_S _ _ _ Hp). cbn [find]. unfold matching at 1. rewrite He.
  destruct (keyMatch key recursive e); [done|].
  pose proof (Z.mod_pos_bound (q_Front q + Z.of_nat k) (q_Capacity q) ltac:(lia)).
  rewrite rem_mod by lia. rewrite Zplus_mod_idemp_l.
  replace (q_Front q + Z.of_nat k + 1) with (q_Front q + Z.of_nat (S k)) by lia.
  destruct (decide (S k = length l)) as [He2|Hne].
  - rewrite Hback, He2, Z.eqb_refl. by rewrite drop_ge by lia.
  - rewrite (proj2 (Z.eqb_neq _ _)); [apply IH; lia|]. rewrite Hback. intros Hx.
    unfold len in *. destruct (decide (Z.of_nat (length l) = q_Capacity q)) as [Hc|Hc].
    + assert ((q_Front q + q_Capacity q) mod q_Capacity q = (q_Front q + 0) mod q_Capacity q) as Hz.
      { rewrite Z.add_0_r. replace (q_Front q + q_Capacity q) with
          (q_Front q + 1 * q_Capacity q) by lia. apply Z.mod_add. lia. }
      rewrite Hc, Hz in Hx. apply ring_inj in Hx; lia.
    + apply ring_inj in Hx; lia.
Qed.

(** What scan returns: the first event of the history, from the index on, at the key. *)
Lemma scan_history events eh l key recursive index :
  history_ok events eh l → 1 ≤ index →
  scan events key recursive index eh =
  Ret (if index <? eh_StartIndex eh then
         inl (NewError EcodeEventIndexCleared
           ("the requested history has been cleared [" ++ pretty (eh_StartIndex eh) ++ "/"
            ++ pretty index ++ "]")%string 0)
       else inr (find (matching events key recursive)
                   (drop (Z.to_nat (index - eh_StartIndex eh)) l))).
Proof.
  intros [Hh Hch Hs Hl Hb] Hi. unfold scan.
  destruct (Z.ltb_spec index (eh_StartIndex eh)) as [|Hge]; [done|].
  rewrite Z.gtb_ltb. pose proof (hd_front _ _ Hh) as Hf. pose proof (hd_fits _ _ Hh) as Hfit.
  destruct (Z.ltb_spec (eh_LastIndex eh) index) as [Hlt|Hle].
  { rewrite drop_ge; [done|]. unfold len in *. destruct Hl as [[-> _]|[_ Hl]]; simpl; lia. }
  destruct Hl as [(_ & _ & Hl)|[Hne Hl]]; [lia|].
  rewrite (proj2 (Z.eqb_neq (q_Capacity _) 0)) by lia.
  set (k := Z.to_nat (index - eh_StartIndex eh)).
  assert (index - eh_StartIndex eh = Z.of_nat k) as -> by (unfold k; lia).
  assert (k < length l)%nat as Hk by (unfold k, len in *; lia).
  unfold len in *. rewrite (wrapU_id 64), (wrapS_id 64 (Z.of_nat k)), (wrapS_id 64)
    by (try done; unfold inU, inS; lia).
  rewrite rem_mod by lia.
  by rewrite (scanLoop_find events (eh_StartIndex eh) _ _ _ _ l) by (try done; lia).
Qed.
