(* ===== verification/WatcherHub.v ===== *)
(** * WatcherHub: the watchers of the store (src/store/watcher_hub.go, watcher.go)

    Watchers, the linked lists they are on, and events are shared by pointer: a hub holds
    the memory of all three.  An element of a list is identified by its watcher, which is
    on a list at most once.  A channel has room for one event.

    The closure [w.remove] of a watcher captures the list it was put on when it was
    created, which need not be the list that the hub has for its key later. *)

From Stdlib Require Import String.
From S2P Require Import Prelude.
From S2P Require Import Wire.
From S2P Require Import Paths TtlHeap EtcdError StoreEvent.

Record watcher := mkWatcher {
  w_eventChan : list ptr;  (** the events in the buffer *)
  w_closed : bool;
  w_stream : bool;
  w_recursive : bool;
  w_sinceIndex : Z;
  w_removed : bool;
  w_remove : option (string * ptr);  (** the key and the list captured by the closure *)
}.
#[export] Instance set_w_eventChan : Setter w_eventChan := λ f w,
  mkWatcher (f (w_eventChan w)) (w_closed w) (w_stream w) (w_recursive w)
    (w_sinceIndex w) (w_removed w) (w_remove w).
#[export] Instance set_w_closed : Setter w_closed := λ f w,
  mkWatcher (w_eventChan w) (f (w_closed w)) (w_stream w) (w_recursive w)
    (w_sinceIndex w) (w_removed w) (w_remove w).
#[export] Instance set_w_removed : Setter w_removed := λ f w,
  mkWatcher (w_eventChan w) (w_closed w) (w_stream w) (w_recursive w)
    (w_sinceIndex w) (f (w_removed w)) (w_remove w).

Record watcherHub := mkHub {
  wh_watchers : gmap string ptr;
  wh_count : Z;
  wh_EventHistory : EventHistory;
  wh_lists : gmap ptr (list ptr);
  wh_all : gmap ptr watcher;
  wh_events : gmap ptr Event;
}.
#[export] Instance set_wh_watchers : Setter wh_watchers := λ f h,
  mkHub (f (wh_watchers h)) (wh_count h) (wh_EventHistory h) (wh_lists h) (wh_all h) (wh_events h).
#[export] Instance set_wh_count : Setter wh_count := λ f h,
  mkHub (wh_watchers h) (f (wh_count h)) (wh_EventHistory h) (wh_lists h) (wh_all h) (wh_events h).
#[export] Instance set_wh_EventHistory : Setter wh_EventHistory := λ f h,
  mkHub (wh_watchers h) (wh_count h) (f (wh_EventHistory h)) (wh_lists h) (wh_all h) (wh_events h).
#[export] Instance set_wh_lists : Setter wh_lists := λ f h,
  mkHub (wh_watchers h) (wh_count h) (wh_EventHistory h) (f (wh_lists h)) (wh_all h) (wh_events h).
#[export] Instance set_wh_all : Setter wh_all := λ f h,
  mkHub (wh_watchers h) (wh_count h) (wh_EventHistory h) (wh_lists h) (f (wh_all h)) (wh_events h).
#[export] Instance set_wh_events : Setter wh_events := λ f h,
  mkHub (wh_watchers h) (wh_count h) (wh_EventHistory h) (wh_lists h) (wh_all h) (f (wh_events h)).

Definition newWatchHub (capacity : Z) : watcherHub :=
  mkHub ∅ 0 (newEventHistory capacity) ∅ ∅ ∅.

(** A new object in memory. *)
Definition newPtr {A} (m : gmap ptr A) : ptr := fresh (dom m).

(** [atomic.AddInt64(&wh.count, d)]. *)
Definition addCount (d : Z) (wh : watcherHub) : watcherHub :=
  wh <| wh_count ::= λ c, int64 (c + d) |>.

(** [l.Remove(elem)]: nothing when the element is no longer on the list. *)
Definition listRemove (l w : ptr) (wh : watcherHub) : watcherHub :=
  wh <| wh_lists ::= alter (filter (λ x, x ≠ w)) l |>.

(** [if l.Len() == 0 { delete(wh.watchers, key) }]. *)
Definition dropEmpty (l : ptr) (key : string) (wh : watcherHub) : watcherHub :=
  match wh_lists wh !! l with
  | Some (_ :: _) => wh
  | _ => wh <| wh_watchers ::= delete key |>
  end.

(** The closure [w.remove]. *)
Definition removeFunc (wp : ptr) (wh : watcherHub) : outcome watcherHub :=
  w ← deref (wh_all wh !! wp);
  '(key, l) ← deref (w_remove w);
  if w_removed w then Ok wh
  else
    let wh := wh <| wh_all ::= <[wp := w <| w_removed := true |>]> |> in
    let wh := addCount (-1) (listRemove l wp wh) in
    Ok (dropEmpty l key wh).

(** [w.notify(e, originalPath, deleted)]. *)
Definition watcherNotify (wp e : ptr) (originalPath deleted : bool) (wh : watcherHub)
  : outcome (watcherHub * bool) :=
  w ← deref (wh_all wh !! wp);
  ev ← deref (wh_events wh !! e);
  if (w_recursive w || originalPath || deleted) && (Index ev >=? w_sinceIndex w) then
    if w_closed w then Panic "send on closed channel"
    else if len (w_eventChan w) <? 1 then
      Ok (wh <| wh_all ::= <[wp := w <| w_eventChan := w_eventChan w ++ [e] |>]> |>, true)
    else
      wh ← removeFunc wp wh;
      Ok (wh, true)
  else Ok (wh, false).

(** [w.Remove()]. *)
Definition Remove (wp : ptr) (wh : watcherHub) : outcome watcherHub :=
  w ← deref (wh_all wh !! wp);
  if w_closed w then Panic "close of closed channel"
  else
    let wh := wh <| wh_all ::= <[wp := w <| w_closed := true |>]> |> in
    match w_remove w with
    | Some _ => removeFunc wp wh
    | None => Ok wh
    end.

(** [<-w.EventChan()], when there is an event in the buffer. *)
Definition receive (wp : ptr) (wh : watcherHub) : option (ptr * watcherHub) :=
  w ← wh_all wh !! wp;
  match w_eventChan w with
  | [] => None
  | e :: rest => Some (e, wh <| wh_all ::= <[wp := w <| w_eventChan := rest |>]> |>)
  end.

Definition isHidden (watchPath keyPath : string) : bool :=
  if (String.length keyPath <? String.length watchPath)%nat then false
  else
    let after := String.substring (String.length watchPath)
                   (String.length keyPath - String.length watchPath) keyPath in
    Contains (Clean (String slash after)) "/_".

(** The body of the loop of notifyWatchers for one element of the list [l]. *)
Definition notifyOne (e : ptr) (nodePath : string) (deleted : bool) (l : ptr)
    (wh : watcherHub) (wp : ptr) : outcome watcherHub :=
  ev ← deref (wh_events wh !! e);
  w ← deref (wh_all wh !! wp);
  let key := ne_Key (e_Node ev) in
  let originalPath := bool_decide (key = nodePath) in
  if originalPath || negb (isHidden nodePath key) then
    '(wh, ok) ← watcherNotify wp e originalPath deleted wh;
    if ok && negb (w_stream w) then Ok (addCount (-1) (listRemove l wp wh)) else Ok wh
  else Ok wh.

Definition notifyWatchers (e : ptr) (nodePath : string) (deleted : bool) (wh : watcherHub)
  : outcome watcherHub :=
  match wh_watchers wh !! nodePath with
  | None => Ok wh
  | Some l =>
      elems ← deref (wh_lists wh !! l);
      wh ← foldM (notifyOne e nodePath deleted l) elems wh;
      Ok (dropEmpty l nodePath wh)
  end.

(** The paths that notify visits. *)
Fixpoint notifyPaths (currPath : string) (segments : list string) : list string :=
  match segments with
  | [] => []
  | segment :: segments =>
      let currPath := Join currPath segment in currPath :: notifyPaths currPath segments
  end.

Definition notify (e : ptr) (wh : watcherHub) : outcome watcherHub :=
  eh ← addEvent (wh_events wh) e (wh_EventHistory wh);
  let wh := wh <| wh_EventHistory := eh |> in
  ev ← deref (wh_events wh !! e);
  foldM (λ wh currPath, notifyWatchers e currPath false wh)
    (notifyPaths "/" (split (ne_Key (e_Node ev)))) wh.

(** The list of the key, with the new watcher at its end. *)
Definition enlist (key : string) (wp : ptr) (w : ptr → watcher) (wh : watcherHub) : watcherHub :=
  let '(l, wh) :=
    match wh_watchers wh !! key with
    | Some l => (l, wh <| wh_lists ::= alter (λ elems, elems ++ [wp]) l |>)
    | None =>
        let l := newPtr (wh_lists wh) in
        (l, wh <| wh_lists ::= <[l := [wp]]> |> <| wh_watchers ::= <[key := l]> |>)
    end in
  addCount 1 (wh <| wh_all ::= <[wp := w l]> |>).

Definition watch (key : string) (recursive stream : bool) (index storeIndex : Z)
    (wh : watcherHub) : run (watcherHub * (Error + ptr)) :=
  r ← scan (wh_events wh) key recursive index (wh_EventHistory wh);
  match r with
  | inl err => Ret (wh, inl (err <| Error_Index := storeIndex |>))
  | inr found =>
      let wp := newPtr (wh_all wh) in
      match found with
      | Some e =>
          let wh := wh <| wh_events ::= alter (set e_EtcdIndex (λ _, storeIndex)) e |> in
          let w := mkWatcher [e] false stream recursive index false None in
          Ret (wh <| wh_all ::= <[wp := w]> |>, inr wp)
      | None =>
          let w l := mkWatcher [] false stream recursive index false (Some (key, l)) in
          Ret (enlist key wp w wh, inr wp)
      end
  end.

(** Only the history is cloned. *)
Definition watcherHub_clone (wh : watcherHub) : watcherHub :=
  mkHub ∅ 0 (EventHistory_clone (wh_EventHistory wh)) ∅ ∅ (wh_events wh).
