(* ===== verification/HubProps.v ===== *)
(** * HubProps: notifying the watchers (src/store/watcher_hub.go, watcher.go)

    [hub_ok] is the invariant of a hub: the watchers on the list of a key are open, not
    removed, and know their list.  Under it the operations do not panic, and [notify]
    hands an event to the watchers that are interested in it, and to no others. *)

From Stdlib Require Import String.
From S2P Require Import Prelude.
From S2P Require Import Wire.
From S2P Require Import Paths TtlHeap EtcdError StoreEvent WatcherHub.

(** A watcher that is on the list [l] of [key]. *)
Record registered (wh : watcherHub) (key : string) (l wp : ptr) (w : watcher) : Prop := {
  rg_at : wh_all wh !! wp = Some w;
  rg_open : w_closed w = false;
  rg_present : w_removed w = false;
  rg_list : w_remove w = Some (key, l);
}.

Record hub_ok (wh : watcherHub) : Prop := {
  hb_lists : ∀ key l, wh_watchers wh !! key = Some l →
    ∃ elems, wh_lists wh !! l = Some elems ∧ NoDup elems ∧
      ∀ wp, wp ∈ elems → ∃ w, registered wh key l wp w;
  hb_inj : ∀ key key' l, wh_watchers wh !! key = Some l → wh_watchers wh !! key' = Some l →
    key = key';
}.

(** The watchers of a key. *)
Definition watchersOf (wh : watcherHub) (key : string) : list ptr :=
  default [] (l ← wh_watchers wh !! key; wh_lists wh !! l).

(** Whether a watcher at [path] wants the event. *)
Definition wants (path : string) (deleted : bool) (ev : Event) (w : watcher) : bool :=
  let key := ne_Key (e_Node ev) in
  let originalPath := bool_decide (key = path) in
  (originalPath || negb (isHidden path key)) &&
  ((w_recursive w || originalPath || deleted) && (Index ev >=? w_sinceIndex w)).

(** What the watcher becomes. *)
Definition afterNotify (path : string) (deleted : bool) (e : ptr) (ev : Event) (w : watcher)
  : watcher :=
  if wants path deleted ev w then
    match w_eventChan w with
    | [] => w <| w_eventChan := [e] |>
    | _ => w <| w_removed := true |>
    end
  else w.

(** ** The parts of an update *)
Lemma hub_ok_update wh wp w w' :
  hub_ok wh → wh_all wh !! wp = Some w → w_closed w' = w_closed w →
  w_removed w' = w_removed w → w_remove w' = w_remove w →
  hub_ok (wh <| wh_all ::= <[wp := w']> |>).
Proof.
  intros [Hl Hi] Hw H1 H2 H3. split; [|done]. intros key l Hk.
  destruct (Hl key l Hk) as (elems & He & Hnd & Hreg). exists elems. split_and!; [done..|].
  intros wp' Hin. destruct (Hreg wp' Hin) as (v & [Ha Ho Hp Hr]). simpl.
  destruct (decide (wp = wp')) as [<-|Hne].
  - rewrite Hw in Ha. injection Ha as <-. exists w'.
    split; [simpl; apply lookup_insert_eq|congruence..].
  - exists v. split; [simpl; by rewrite lookup_insert_ne|done..].
Qed.

Lemma hub_ok_listRemove wh l wp : hub_ok wh → hub_ok (listRemove l wp wh).
Proof.
  intros [Hl Hi]. split; [|done]. intros key l' Hk.
  destruct (Hl key l' Hk) as (elems & He & Hnd & Hreg). unfold listRemove. simpl.
  destruct (decide (l' = l)) as [->|Hne].
  - exists (filter (λ x, x ≠ wp) elems). split_and!.
    + by rewrite lookup_alter_eq, He.
    + by apply NoDup_filter.
    + intros wp' Hin. apply list_elem_of_filter in Hin as [_ Hin].
      destruct (Hreg wp' Hin) as (v & []). by exists v.
  - exists elems. split_and!; [by rewrite lookup_alter_ne|done|].
    intros wp' Hin. destruct (Hreg wp' Hin) as (v & []). by exists v.
Qed.

Lemma hub_ok_count wh d : hub_ok wh → hub_ok (addCount d wh).
Proof.
  intros [Hl Hi]. split; [|done]. intros key l Hk.
  destruct (Hl key l Hk) as (elems & He & Hnd & Hreg). exists elems. split_and!; [done..|].
  intros wp Hin. destruct (Hreg wp Hin) as (v & []). by exists v.
Qed.

Lemma hub_ok_delete wh key : hub_ok wh → hub_ok (wh <| wh_watchers ::= delete key |>).
Proof.
  intros [Hl Hi]. split.
  - intros key' l Hk. simpl in Hk. apply lookup_delete_Some in Hk as [_ Hk].
    destruct (Hl key' l Hk) as (elems & He & Hnd & Hreg). exists elems. split_and!; [done..|].
    intros wp Hin. destruct (Hreg wp Hin) as (v & []). by exists v.
  - intros k1 k2 l H1 H2. simpl in *. apply lookup_delete_Some in H1 as [_ H1].
    apply lookup_delete_Some in H2 as [_ H2]. eauto.
Qed.

Lemma hub_ok_dropEmpty wh l key : hub_ok wh → hub_ok (dropEmpty l key wh).
Proof. intros Hok. unfold dropEmpty. repeat case_match; auto using hub_ok_delete. Qed.

Lemma dropEmpty_fields l key wh :
  wh_all (dropEmpty l key wh) = wh_all wh ∧ wh_events (dropEmpty l key wh) = wh_events wh ∧
  wh_lists (dropEmpty l key wh) = wh_lists wh ∧
  wh_EventHistory (dropEmpty l key wh) = wh_EventHistory wh.
Proof. unfold dropEmpty. by repeat case_match. Qed.

(** A watcher that is taken from its list may change in any way. *)
Lemma hub_ok_retire wh wp w m key l :
  hub_ok wh → wh_all wh !! wp = Some w → w_remove w = Some (key, l) →
  (∀ x, x ≠ wp → m !! x = wh_all wh !! x) → hub_ok (listRemove l wp (wh <| wh_all := m |>)).
Proof.
  intros [Hl Hi] Ha Hr Hm. split; [|done].
  intros key' l' Hk. destruct (Hl key' l' Hk) as (elems & He & Hnd & Hreg). simpl.
  destruct (decide (l' = l)) as [->|Hne].
  - exists (filter (λ x, x ≠ wp) elems). split_and!.
    + by rewrite lookup_alter_eq, He.
    + by apply NoDup_filter.
    + intros wp' Hin. apply list_elem_of_filter in Hin as [Hx Hin].
      destruct (Hreg wp' Hin) as (v & []). exists v. split; [simpl; by rewrite Hm|done..].
  - exists elems. split_and!; [by rewrite lookup_alter_ne|done|].
    intros wp' Hin. destruct (Hreg wp' Hin) as (v & [Ha' Ho' Hp' Hr']). exists v.
    split; [simpl; rewrite Hm; [done|]|done..].
    intros ->. rewrite Ha in Ha'. simplify_eq.
Qed.

(** So may a watcher that is on no list. *)
Lemma hub_ok_off wh wp w w' :
  hub_ok wh → wh_all wh !! wp = Some w → (w_removed w = true ∨ w_remove w = None) →
  hub_ok (wh <| wh_all ::= <[wp := w']> |>).
Proof.
  intros [Hl Hi] Ha Hoff. split; [|done]. intros key l Hk.
  destruct (Hl key l Hk) as (elems & He & Hnd & Hreg). exists elems. split_and!; [done..|].
  intros wp' Hin. destruct (Hreg wp' Hin) as (v & [Ha' Ho' Hp' Hr']). exists v.
  split; [simpl; rewrite lookup_insert_ne; [done|]|done..].
  intros ->. rewrite Ha in Ha'. injection Ha' as ->. destruct Hoff; congruence.
Qed.

(** The closure remove, on a watcher that is on its list. *)
Lemma removeFunc_ok wh wp w key l :
  hub_ok wh → registered wh key l wp w →
  ∃ wh', removeFunc wp wh = Ok wh' ∧ hub_ok wh' ∧
    wh_all wh' = <[wp := w <| w_removed := true |>]> (wh_all wh) ∧
    wh_events wh' = wh_events wh ∧ wh_EventHistory wh' = wh_EventHistory wh.
Proof.
  intros [Hl Hi] [Ha Ho Hp Hr]. unfold removeFunc. rewrite Ha. cbn [deref mbind outcome_bind].
  rewrite Hr. cbn [deref mbind outcome_bind]. rewrite Hp.
  eexists. split; [done|].
  destruct (dropEmpty_fields l key
    (addCount (-1) (listRemove l wp (wh <| wh_all ::= <[wp := w <| w_removed := true |>]> |>))))
    as (F1 & F2 & F3 & F4).
  rewrite F1, F2, F4. split_and!; [|done..].
  apply hub_ok_dropEmpty, hub_ok_count.
  apply (hub_ok_retire wh wp w (<[wp := w <| w_removed := true |>]> (wh_all wh)) key); [done..|].
  intros x Hx. by rewrite lookup_insert_ne.
Qed.

(** ** Notifying *)

(** [wh'] differs from [wh] in the list [l] of [path], and in the watchers that [f] says. *)
Record notified (path : string) (l : ptr) (wh wh' : watcherHub) : Prop := {
  nt_ok : hub_ok wh';
  nt_events : wh_events wh' = wh_events wh;
  nt_history : wh_EventHistory wh' = wh_EventHistory wh;
  nt_lists : ∀ l', l' ≠ l → wh_lists wh' !! l' = wh_lists wh !! l';
  nt_watchers : ∀ key, key ≠ path → wh_watchers wh' !! key = wh_watchers wh !! key;
}.

Lemma notified_trans path l wh1 wh2 wh3 :
  notified path l wh1 wh2 → notified path l wh2 wh3 → notified path l wh1 wh3.
Proof.
  intros [A1 A2 A3 A4 A5] [B1 B2 B3 B4 B5]. split; [done|congruence|congruence|..].
  - intros l' Hl. by rewrite B4, A4.
  - intros key Hk. by rewrite B5, A5.
Qed.

Lemma notified_listRemove path l wp wh wh' :
  notified path l wh wh' → notified path l wh (addCount (-1) (listRemove l wp wh')).
Proof.
  intros [A1 A2 A3 A4 A5]. split; [by apply hub_ok_count, hub_ok_listRemove|done..| |done].
  intros l' Hl. simpl. rewrite lookup_alter_ne by done. by apply A4.
Qed.

Lemma notified_update path l wh wp w w' :
  hub_ok wh → wh_all wh !! wp = Some w → w_closed w' = w_closed w →
  w_removed w' = w_removed w → w_remove w' = w_remove w →
  notified path l wh (wh <| wh_all ::= <[wp := w']> |>).
Proof. intros. split; [by eapply hub_ok_update|done..]. Qed.

Lemma notified_dropEmpty path l wh wh' :
  notified path l wh wh' → notified path l wh (dropEmpty l path wh').
Proof.
  intros [A1 A2 A3 A4 A5]. destruct (dropEmpty_fields l path wh') as (F1 & F2 & F3 & F4).
  split; [by apply hub_ok_dropEmpty|congruence|congruence| |].
  - intros l' Hl. rewrite F3. by apply A4.
  - intros key Hk. unfold dropEmpty. repeat case_match; auto; simpl;
      rewrite lookup_delete_ne by done; by apply A5.
Qed.

Lemma notified_removeFunc path l wh wp w :
  hub_ok wh → registered wh path l wp w →
  ∃ wh', removeFunc wp wh = Ok wh' ∧ notified path l wh wh' ∧
    wh_all wh' = <[wp := w <| w_removed := true |>]> (wh_all wh).
Proof.
  intros Hok Hr. destruct (removeFunc_ok wh wp w path l Hok Hr) as (wh' & E & Hok' & Ha & He & Hh).
  exists wh'. split_and!; [done| |done]. destruct Hr as [Ra Ro Rp Rr].
  unfold removeFunc in E. rewrite Ra in E. cbn [deref mbind outcome_bind] in E.
  rewrite Rr in E. cbn [deref mbind outcome_bind] in E. rewrite Rp in E. injection E as <-.
  split; [done..| |].
  - intros l' Hl. destruct (dropEmpty_fields l path (addCount (-1) (listRemove l wp
      (wh <| wh_all ::= <[wp := w <| w_removed := true |>]> |>)))) as (_ & _ & F3 & _).
    rewrite F3. simpl. by rewrite lookup_alter_ne.
  - intros key Hk. unfold dropEmpty. repeat case_match; auto; simpl; by rewrite lookup_delete_ne.
Qed.

Lemma notifyOne_ok wh e ev path deleted l wp w :
  hub_ok wh → wh_events wh !! e = Some ev → registered wh path l wp w →
  ∃ wh', notifyOne e path deleted l wh wp = Ok wh' ∧ notified path l wh wh' ∧
    wh_all wh' = <[wp := afterNotify path deleted e ev w]> (wh_all wh).
Proof.
  intros Hok He Hr. pose proof Hr as [Ra Ro Rp Rr]. unfold notifyOne, afterNotify, wants.
  rewrite He, Ra. cbn [deref mbind outcome_bind].
  assert (notified path l wh wh) as Hrefl by by split.
  destruct (_ || negb _); cbn [andb].
  2: { exists wh. split_and!; [done..|]. by rewrite insert_id. }
  unfold watcherNotify. rewrite Ra, He. cbn [deref mbind outcome_bind].
  destruct (_ && (_ >=? _)); cbn [mbind outcome_bind].
  2: { exists wh. split_and!; [done..|]. by rewrite insert_id. }
  rewrite Ro. destruct (w_eventChan w) as [|e0 ch] eqn:Hch.
  - cbn [len length]. change (len (@nil ptr) <? 1) with true. cbn iota. cbn [mbind outcome_bind app].
    set (wh1 := set wh_all _ _).
    assert (notified path l wh wh1) as N1 by by eapply notified_update.
    destruct (w_stream w); cbn [andb negb].
    + by exists wh1.
    + eexists. split; [done|]. split; [by apply notified_listRemove|done].
  - rewrite len_cons, (proj2 (Z.ltb_ge _ 1)) by (pose proof (len_nonneg ch); lia).
    destruct (notified_removeFunc path l wh wp w Hok Hr) as (wh1 & E1 & N1 & A1). rewrite E1.
    cbn [mbind outcome_bind]. destruct (w_stream w); cbn [andb negb].
    + by exists wh1.
    + eexists. split; [done|]. split; [by apply notified_listRemove|done].
Qed.

Lemma notifyList_ok e ev path deleted l ws wh :
  hub_ok wh → wh_events wh !! e = Some ev → NoDup ws →
  (∀ wp, wp ∈ ws → ∃ w, registered wh path l wp w) →
  ∃ wh', foldM (notifyOne e path deleted l) ws wh = Ok wh' ∧ notified path l wh wh' ∧
    ∀ wp, wh_all wh' !! wp =
      if decide (wp ∈ ws) then afterNotify path deleted e ev <$> wh_all wh !! wp
      else wh_all wh !! wp.
Proof.
  revert wh. induction ws as [|wp ws IH]; intros wh Hok He Hnd Hreg.
  { exists wh. split_and!; [done|by split|]. intros wp. by rewrite decide_False by set_solver. }
  apply NoDup_cons in Hnd as [Hnot Hnd]. destruct (Hreg wp) as [w Hw]; [left|].
  destruct (notifyOne_ok wh e ev path deleted l wp w Hok He Hw) as (wh1 & E1 & N1 & A1).
  destruct (IH wh1) as (wh2 & E2 & N2 & A2).
  - apply N1.
  - by rewrite (nt_events _ _ _ _ N1).
  - done.
  - intros wp' Hin. destruct (Hreg wp') as [w' []]; [by right|]. exists w'.
    split; [|done..]. rewrite A1, lookup_insert_ne; [done|]. by intros ->.
  - exists wh2. cbn [foldM]. rewrite E1. split_and!; [done|by eapply notified_trans|].
    intros wp'. rewrite A2, A1. destruct (decide (wp' = wp)) as [->|Hne].
    + rewrite decide_False by done. rewrite decide_True by set_solver.
      rewrite lookup_insert_eq. by rewrite (rg_at _ _ _ _ _ Hw).
    + rewrite lookup_insert_ne by done. repeat case_decide; set_solver.
Qed.

Lemma notifyWatchers_ok e ev path deleted wh :
  hub_ok wh → wh_events wh !! e = Some ev →
  ∃ wh', notifyWatchers e path deleted wh = Ok wh' ∧ hub_ok wh' ∧
    wh_events wh' = wh_events wh ∧ wh_EventHistory wh' = wh_EventHistory wh ∧
    (∀ key, key ≠ path → watchersOf wh' key = watchersOf wh key) ∧
    ∀ wp, wh_all wh' !! wp =
      if decide (wp ∈ watchersOf wh path) then afterNotify path deleted e ev <$> wh_all wh !! wp
      else wh_all wh !! wp.
Proof.
  intros Hok He. unfold notifyWatchers, watchersOf. destruct (wh_watchers wh !! path) as [l|] eqn:Hl.
  2: { exists wh. by split_and!. }
  destruct (hb_lists _ Hok path l Hl) as (elems & Hel & Hnd & Hreg). rewrite Hel.
  cbn [deref mbind outcome_bind option_bind default].
  destruct (notifyList_ok e ev path deleted l elems wh Hok He Hnd Hreg) as (wh1 & E1 & N1 & A1).
  rewrite E1. cbn [mbind outcome_bind]. eexists. split; [done|].
  pose proof (notified_dropEmpty _ _ _ _ N1) as [B1 B2 B3 B4 B5]. split_and!; [done..| |].
  - intros key Hk. rewrite B5 by done. destruct (wh_watchers wh !! key) as [l'|] eqn:Hl'; [|done].
    simpl. rewrite B4; [done|]. intros ->. apply Hk. by eapply (hb_inj _ Hok).
  - intros wp. destruct (dropEmpty_fields l path wh1) as (F1 & _). rewrite F1, A1. simpl. by rewrite Hel.
Qed.

(** ** The whole of notify *)

(** The paths that notify visits for the event of [names]. *)
Definition ancestors (names : list string) : list string :=
  (λ i, pathOf (take i names)) <$> seq 0 (S (length names)).

Lemma notifyPaths_from pre names :
  Forall name_ok (pre ++ names) →
  notifyPaths (pathOf pre) names =
  (λ i, pathOf (pre ++ take i names)) <$> seq 1 (length names).
Proof.
  revert pre. induction names as [|x names IH]; intros pre Hok; [done|].
  cbn [notifyPaths length seq fmap list_fmap]. apply Forall_app in Hok as [Hpre Hx].
  apply Forall_cons in Hx as [Hx Hnames]. rewrite Join_child by done. f_equal.
  rewrite IH by (rewrite !Forall_app; auto).
  rewrite <-(fmap_S_seq 1), <-list_fmap_compose. apply list_fmap_ext. intros i j _. simpl.
  by rewrite <-app_assoc.
Qed.

Lemma notifyPaths_pathOf names :
  names ≠ [] → Forall name_ok names →
  notifyPaths "/" (split (pathOf names)) = ancestors names.
Proof.
  intros Hne Hok. rewrite split_pathOf by done. cbn [notifyPaths].
  change (Join "/" EmptyString) with (pathOf []).
  rewrite (notifyPaths_from [] names) by done. done.
Qed.

Lemma ancestors_NoDup names : Forall name_ok names → NoDup (ancestors names).
Proof.
  intros Hok. apply NoDup_fmap_2_strong; [|apply NoDup_seq]. intros i j Hi Hj He.
  apply elem_of_seq in Hi, Hj. apply pathOf_inj in He; [|by apply Forall_take..].
  apply (f_equal length) in He. rewrite !length_take in He. lia.
Qed.

(** The effect of visiting [paths] one after the other. *)
Lemma notifyAll_ok e ev paths wh :
  hub_ok wh → wh_events wh !! e = Some ev → NoDup paths →
  ∃ wh', foldM (λ wh path, notifyWatchers e path false wh) paths wh = Ok wh' ∧ hub_ok wh' ∧
    wh_events wh' = wh_events wh ∧ wh_EventHistory wh' = wh_EventHistory wh ∧
    (∀ key, key ∉ paths → watchersOf wh' key = watchersOf wh key) ∧
    (∀ key wp, key ∈ paths → wp ∈ watchersOf wh key →
      wh_all wh' !! wp = afterNotify key false e ev <$> wh_all wh !! wp) ∧
    ∀ wp, (∀ key, key ∈ paths → wp ∉ watchersOf wh key) → wh_all wh' !! wp = wh_all wh !! wp.
Proof.
  revert wh. induction paths as [|path paths IH]; intros wh Hok He Hnd.
  { exists wh. split_and!; try done. intros key wp Hin. by apply elem_of_nil in Hin. }
  apply NoDup_cons in Hnd as [Hnot Hnd].
  destruct (notifyWatchers_ok e ev path false wh Hok He) as (wh1 & E1 & Ok1 & Ev1 & H1 & W1 & A1).
  destruct (IH wh1) as (wh2 & E2 & Ok2 & Ev2 & H2 & W2 & A2 & B2); [done|by rewrite Ev1|done|].
  assert (∀ key wp, key ∈ paths → wp ∈ watchersOf wh key → wp ∉ watchersOf wh path) as Hone.
  { intros key wp Hk Hin Hin'. apply Hnot. unfold watchersOf in Hin, Hin'.
    destruct (wh_watchers wh !! key) as [l|] eqn:L1; [|by apply elem_of_nil in Hin].
    destruct (wh_watchers wh !! path) as [l'|] eqn:L2; [|by apply elem_of_nil in Hin'].
    destruct (hb_lists _ Hok key l L1) as (el & El & _ & R1).
    destruct (hb_lists _ Hok path l' L2) as (el' & El' & _ & R2).
    simpl in *. rewrite El in Hin. rewrite El' in Hin'. simpl in *.
    destruct (R1 wp Hin) as (w & []), (R2 wp Hin') as (w' & []). simplify_eq. done. }
  exists wh2. cbn [foldM]. rewrite E1. split_and!; [done|done|congruence|congruence|..].
  - intros key Hk. apply not_elem_of_cons in Hk as [Hk1 Hk2]. by rewrite W2, W1.
  - intros key wp Hk Hin. apply elem_of_cons in Hk as [->|Hk].
    + rewrite B2; [by rewrite A1, decide_True|]. intros key Hk Hin2.
      rewrite W1 in Hin2; [by apply (Hone key wp Hk Hin2)|]. by intros ->.
    + rewrite (A2 key wp Hk).
      * by rewrite A1, decide_False by eauto.
      * rewrite W1; [done|]. by intros ->.
  - intros wp Hnone. rewrite B2.
    + rewrite A1, decide_False; [done|]. apply Hnone. left.
    + intros key Hk. rewrite W1; [apply Hnone; by right|]. by intros ->.
Qed.
