(* ===== verification/HubNotify.v ===== *)
(** * HubNotify: notification and registration (src/store/watcher_hub.go)

    The invariant of the hub of a store at index [cur], that notify, notifyWatchers and
    watch keep, and what each of them does: which watchers get an event, and what a new
    watcher gets. *)

From stdpp Require Import pretty.
From Stdlib Require Import String Ascii.
From S2P Require Import Prelude.
From S2P Require Import Wire.
From S2P Require Import Paths TtlHeap EtcdError StoreEvent WatcherHub HubProps.

Record hub_inv (cur : Z) (wh : watcherHub) : Prop := {
  hi_hub : hub_ok wh;
  hi_history : ∃ l, history_ok (wh_events wh) (wh_EventHistory wh) l ∧
    (l ≠ [] → eh_LastIndex (wh_EventHistory wh) = cur);
}.

Lemma newEventHistory_ok events : history_ok events (newEventHistory 1000) [].
Proof. split; [by apply held_new|by intros k p|done|by left|done]. Qed.

Lemma newWatchHub_inv cur : hub_inv cur (newWatchHub 1000).
Proof. split; [by split; intros ??? |]. exists []. split; [apply newEventHistory_ok|done]. Qed.

Lemma history_ok_events events events' eh l :
  (∀ p e, events !! p = Some e → ∃ e', events' !! p = Some e' ∧ Index e' = Index e) →
  history_ok events eh l → history_ok events' eh l.
Proof.
  intros Hev [Hh Hc Hs Hl Hb]. split; try done. intros k p Hk.
  destruct (Hc k p Hk) as (e & He & Hi). destruct (Hev p e He) as (e' & He' & Hi').
  exists e'. split; [done|congruence].
Qed.

Lemma hub_inv_events cur wh f :
  (∀ p e, wh_events wh !! p = Some e → ∃ e', f (wh_events wh) !! p = Some e' ∧ Index e' = Index e) →
  hub_inv cur wh → hub_inv cur (wh <| wh_events ::= f |>).
Proof.
  intros Hf [[Hl Hi] (l & Hh & Hlast)]. split.
  - split; [|done]. intros key q Hk. destruct (Hl key q Hk) as (elems & He & Hnd & Hr).
    exists elems. split_and!; [done..|]. intros wp Hin. destruct (Hr wp Hin) as (w & []). by exists w.
  - exists l. split; [|done]. by eapply history_ok_events.
Qed.

(** A new event in memory. *)
Lemma hub_inv_share cur wh p e :
  wh_events wh !! p = None → hub_inv cur wh → hub_inv cur (wh <| wh_events ::= <[p := e]> |>).
Proof.
  intros Hp. apply hub_inv_events. intros q e' Hq. exists e'.
  by rewrite lookup_insert_ne by congruence.
Qed.

Lemma hub_inv_notifyWatchers cur e ev path deleted wh :
  hub_inv cur wh → wh_events wh !! e = Some ev →
  ∃ wh', notifyWatchers e path deleted wh = Ok wh' ∧ hub_inv cur wh' ∧
    wh_events wh' = wh_events wh.
Proof.
  intros [Hok (l & Hh & Hlast)] He.
  destruct (notifyWatchers_ok e ev path deleted wh Hok He) as (wh' & E & Hok' & Hev & Heh & _).
  exists wh'. split_and!; [done| |done]. split; [done|]. exists l. by rewrite Hev, Heh.
Qed.

(** ** Hidden nodes *)
Definition hiddenName (x : string) : bool :=
  match x with String c _ => bool_decide (c = "_"%char) | EmptyString => false end.

Lemma HasPrefix_hidden x : HasPrefix (String slash x) "/_" = hiddenName x.
Proof.
  destruct x as [|c x]; [done|]. unfold HasPrefix, hiddenName. cbn [String.prefix].
  destruct (ascii_dec "/" slash); [|done]. destruct (ascii_dec "_" c) as [<-|Hc]; [by destruct x|].
  by rewrite bool_decide_false by congruence.
Qed.

Lemma Contains_app x s :
  noSlash x → Contains (x ++ String slash s)%string "/_" = Contains (String slash s) "/_".
Proof.
  induction x as [|c x IH]; [done|]. intros [Hc Hx]. rewrite append_cons. cbn [Contains].
  rewrite IH by done. unfold HasPrefix. cbn [String.prefix].
  destruct (ascii_dec "/" c) as [<-|]; [by destruct Hc|done].
Qed.

Lemma Contains_noSlash x : noSlash x → Contains x "/_" = false.
Proof.
  induction x as [|c x IH]; [done|]. intros [Hc Hx]. cbn [Contains].
  rewrite IH by done. unfold HasPrefix. cbn [String.prefix].
  destruct (ascii_dec "/" c) as [<-|]; [by destruct Hc|done].
Qed.

Lemma Contains_joinSlash names :
  Forall name_ok names → names ≠ [] → Contains (String slash (joinSlash names)) "/_" = existsb hiddenName names.
Proof.
  intros Hok. induction Hok as [|x names Hx Hok IH]; [done|]. intros _. cbn [existsb].
  destruct (decide (names = [])) as [->|Hne].
  - change (joinSlash [x]) with x. cbn [Contains]. rewrite HasPrefix_hidden. simpl.
    by rewrite Contains_noSlash by apply Hx.
  - rewrite joinSlash_cons by done. cbn [Contains].
    rewrite HasPrefix_hidden, Contains_app, <-IH by (done || apply Hx).
    f_equal. by destruct x as [|c x]; [destruct Hx|].
Qed.

Lemma Contains_pathOf names :
  Forall name_ok names → Contains (pathOf names) "/_" = existsb hiddenName names.
Proof.
  intros Hok. destruct (decide (names = [])) as [->|Hne]; [done|]. by apply Contains_joinSlash.
Qed.

Lemma substring_skip a b :
  String.substring (String.length a) (String.length (a ++ b) - String.length a) (a ++ b) = b.
Proof.
  replace (String.length (a ++ b) - String.length a)%nat with (String.length b).
  - induction a as [|c a IH]; [|exact IH]. induction b as [|c b IH]; [done|].
    exact (f_equal (String c) IH).
  - assert (String.length (a ++ b) = String.length a + String.length b)%nat as ->; [|lia].
    induction a as [|c a IH]; [done|]. exact (f_equal S IH).
Qed.

Lemma pathOf_app a b : a ≠ [] → b ≠ [] → pathOf (a ++ b) = (pathOf a ++ pathOf b)%string.
Proof.
  intros Ha Hb. unfold pathOf. rewrite append_cons. f_equal.
  induction a as [|x a IH]; [done|]. destruct (decide (a = [])) as [->|Hne].
  - simpl. by rewrite joinSlash_cons.
  - rewrite <-app_comm_cons, !joinSlash_cons by (done || by destruct a).
    rewrite IH, append_assoc by done. done.
Qed.

(** A node is hidden from a watcher above it when a name on the way begins with [_]. *)
Lemma isHidden_pathOf a b :
  Forall name_ok (a ++ b) → isHidden (pathOf a) (pathOf (a ++ b)) = existsb hiddenName b.
Proof.
  intros Hok. apply Forall_app in Hok as [Ha Hb]. unfold isHidden.
  destruct (decide (b = [])) as [->|Hbne].
  { rewrite app_nil_r, Nat.ltb_irrefl, Nat.sub_diag.
    assert (∀ s n, String.substring n 0 s = EmptyString) as ->; [|done].
    induction s as [|c s IH]; intros [|n]; simpl; auto. }
  assert (∃ s, pathOf (a ++ b) = (pathOf a ++ s)%string ∧ parts s = b) as (s & -> & Hs).
  { destruct (decide (a = [])) as [->|Hane].
    - exists (joinSlash b). split; [done|]. rewrite <-parts_slash. by apply parts_pathOf.
    - exists (pathOf b). split; [by apply pathOf_app|by apply parts_pathOf]. }
  rewrite substring_skip, Clean_rooted, Hs, Contains_pathOf by done.
  destruct (Nat.ltb_spec (String.length (pathOf a ++ s)) (String.length (pathOf a))) as [Hlt|]; [|done].
  assert (∀ x y, String.length x ≤ String.length (x ++ y))%nat as Hle; [|specialize (Hle (pathOf a) s); lia].
  intros x y. induction x as [|c x IH]; [apply Nat.le_0_l|]. apply le_n_S, IH.
Qed.

(** ** notify *)

(** Whether a watcher of [wnames] is to get the event [ev] of the node [names]. *)
Definition interested (wnames names : list string) (ev : Event) (w : watcher) : bool :=
  bool_decide (wnames `prefix_of` names) &&
  (bool_decide (wnames = names)
   || (w_recursive w && negb (existsb hiddenName (drop (length wnames) names)))) &&
  (Index ev >=? w_sinceIndex w).

(** The event goes to the buffer of the channel, which holds one; a watcher that did not
    take the last event is dropped. *)
Definition delivered (e : ptr) (w : watcher) : watcher :=
  match w_eventChan w with
  | [] => w <| w_eventChan := [e] |>
  | _ => w <| w_removed := true |>
  end.

Lemma elem_of_ancestors wnames names :
  Forall name_ok wnames → Forall name_ok names →
  pathOf wnames ∈ ancestors names ↔ wnames `prefix_of` names.
Proof.
  intros Hw Hn. unfold ancestors. rewrite list_elem_of_fmap. setoid_rewrite elem_of_seq. split.
  - intros (i & He & _). apply pathOf_inj in He; [|done|by apply Forall_take]. subst.
    exists (drop i names). by rewrite take_drop.
  - intros [k ->]. exists (length wnames). rewrite take_app_length, length_app. split; [done|lia].
Qed.

Lemma wants_interested wnames names e ev w :
  Forall name_ok names → wnames `prefix_of` names → ne_Key (e_Node ev) = pathOf names →
  afterNotify (pathOf wnames) false e ev w =
  if interested wnames names ev w then delivered e w else w.
Proof.
  intros Hok [k ->] Hkey. unfold afterNotify, wants, interested, delivered. rewrite Hkey.
  rewrite isHidden_pathOf, drop_app_length by done.
  rewrite (bool_decide_true (wnames `prefix_of` _)) by by exists k. cbn [andb].
  apply Forall_app in Hok as [Hw Hk].
  assert (bool_decide (pathOf (wnames ++ k) = pathOf wnames) = bool_decide (wnames = wnames ++ k)) as ->.
  { apply bool_decide_ext. split; [|by intros <-]. intros He. symmetry.
    apply pathOf_inj in He; [done|by apply Forall_app|done]. }
  destruct (bool_decide (wnames = wnames ++ k)), (w_recursive w); simpl.
  all: by destruct (existsb hiddenName k).
Qed.

Lemma watchersOf_names wh key wp :
  hub_ok wh → wp ∈ watchersOf wh key →
  ∃ w l, registered wh key l wp w ∧ wh_watchers wh !! key = Some l.
Proof.
  intros Hok. unfold watchersOf. destruct (wh_watchers wh !! key) as [l|] eqn:Hl; simpl.
  - destruct (hb_lists _ Hok key l Hl) as (elems & -> & _ & Hr). simpl.
    intros Hin. destruct (Hr wp Hin) as [w Hw]. eauto.
  - intros Hin. by apply elem_of_nil in Hin.
Qed.

Lemma removed_unlisted wh key wp w :
  hub_ok wh → wh_all wh !! wp = Some w → w_removed w = true → wp ∉ watchersOf wh key.
Proof.
  intros Hok Hwp Hr Hin. apply watchersOf_names in Hin as (w' & l & [] & _); [|done]. congruence.
Qed.

Lemma watchersOf_one wh key key' wp :
  hub_ok wh → wp ∈ watchersOf wh key → wp ∈ watchersOf wh key' → key = key'.
Proof.
  intros Hok H1 H2. apply watchersOf_names in H1 as (w & l & [] & _), H2 as (w' & l' & [] & _); [|done..].
  congruence.
Qed.

(** What is in the buffer stays there. *)
Lemma afterNotify_chan path deleted e ev w :
  w_eventChan w ≠ [] → w_eventChan (afterNotify path deleted e ev w) = w_eventChan w.
Proof.
  intros Hc. unfold afterNotify. destruct (wants _ _ _ _); [|done].
  by destruct (w_eventChan w) eqn:E.
Qed.

Lemma notify_ok cur wh e ev names :
  hub_inv cur wh → 0 ≤ cur → wh_events wh !! e = Some ev →
  ne_Key (e_Node ev) = pathOf names → names ≠ [] → Forall name_ok names → Index ev = cur + 1 →
  ∃ wh', notify e wh = Ok wh' ∧ hub_inv (cur + 1) wh' ∧ wh_events wh' = wh_events wh ∧
    (∀ wnames wp w, Forall name_ok wnames → wp ∈ watchersOf wh (pathOf wnames) →
      wh_all wh !! wp = Some w →
      wh_all wh' !! wp = Some (if interested wnames names ev w then delivered e w else w)) ∧
    (∀ wp, (∀ wnames, Forall name_ok wnames → wp ∉ watchersOf wh (pathOf wnames)) →
      wh_all wh' !! wp = wh_all wh !! wp) ∧
    (∀ wp w, wh_all wh !! wp = Some w → w_eventChan w ≠ [] →
      ∃ w', wh_all wh' !! wp = Some w' ∧ w_eventChan w' = w_eventChan w).
Proof.
  intros [Hok (l & Hh & Hlast)] Hc He Hkey Hne Hnames Hidx. unfold notify.
  destruct (addEvent_ok _ _ l e ev Hh He) as (eh & E1 & Hl' & Hh');
    [lia|intros Hl; specialize (Hlast Hl); lia|].
  rewrite E1. cbn [mbind outcome_bind]. set (wh1 := set wh_EventHistory _ wh).
  assert (hub_ok wh1) as Hok1.
  { destruct Hok as [A B]. split; [|done]. intros key q Hk.
    destruct (A key q Hk) as (elems & ? & ? & Hr). exists elems. split_and!; [done..|].
    intros wp Hin. destruct (Hr wp Hin) as (w & []). by exists w. }
  change (wh_events wh1) with (wh_events wh). rewrite He. cbn [deref mbind outcome_bind].
  rewrite Hkey, notifyPaths_pathOf by done.
  destruct (notifyAll_ok e ev (ancestors names) wh1 Hok1 He) as (wh' & E2 & Hok2 & Ev2 & H2 & _ & A2 & B2);
    [by apply ancestors_NoDup|].
  exists wh'. split_and!; [done| |done|..].
  - split; [done|]. eexists. rewrite Ev2, H2. split; [exact Hh'|]. intros _. simpl. congruence.
  - intros wnames wp w Hw Hin Hwp. destruct (decide (wnames `prefix_of` names)) as [Hp|Hp].
    + rewrite (A2 (pathOf wnames) wp); [|by apply elem_of_ancestors|done].
      change (wh_all wh1) with (wh_all wh). rewrite Hwp. simpl. f_equal. by apply wants_interested.
    + rewrite B2.
      * unfold interested. rewrite bool_decide_false by done. done.
      * intros key Hk Hin'. apply Hp. apply elem_of_ancestors; [done..|].
        by rewrite (watchersOf_one wh (pathOf wnames) key wp).
  - intros wp Hnone. rewrite B2; [done|]. intros key Hk. unfold ancestors in Hk.
    apply list_elem_of_fmap in Hk as (i & -> & _). by apply Hnone, Forall_take.
  - intros wp w Hwp Hfull.
    destruct (decide (Exists (λ key, wp ∈ watchersOf wh1 key) (ancestors names))) as [Hd|Hd].
    + apply Exists_exists in Hd as (key & Hk & Hin). rewrite (A2 key wp Hk Hin).
      change (wh_all wh1) with (wh_all wh). rewrite Hwp. eexists. split; [done|].
      by apply afterNotify_chan.
    + rewrite B2; [eauto|]. intros key Hk Hin. apply Hd, Exists_exists. eauto.
Qed.

(** ** watch *)

(** A watcher at a new place in memory is on no list yet. *)
Lemma hub_ok_new wh wp w :
  hub_ok wh → wh_all wh !! wp = None → hub_ok (wh <| wh_all ::= <[wp := w]> |>).
Proof.
  intros [Hl Hi] Hwp. split; [|done]. intros key l Hk.
  destruct (Hl key l Hk) as (elems & He & Hnd & Hr). exists elems. split_and!; [done..|].
  intros wp' Hin. destruct (Hr wp' Hin) as (v & []). exists v. split; try done. simpl.
  rewrite lookup_insert_ne; [done|]. congruence.
Qed.

Lemma newPtr_fresh {A} (m : gmap ptr A) : m !! newPtr m = None.
Proof. apply not_elem_of_dom, is_fresh. Qed.

Lemma enlist_old key wp w wh l elems :
  hub_ok wh → wh_all wh !! wp = None → wh_watchers wh !! key = Some l →
  wh_lists wh !! l = Some elems →
  w_closed (w l) = false → w_removed (w l) = false → w_remove (w l) = Some (key, l) →
  hub_ok (enlist key wp w wh) ∧ watchersOf (enlist key wp w wh) key = elems ++ [wp] ∧
  ∀ key', key' ≠ key → watchersOf (enlist key wp w wh) key' = watchersOf wh key'.
Proof.
  intros Hok Hwp Hk He H1 H2 H3. pose proof Hok as [Hl Hi]. unfold enlist. rewrite Hk.
  split; [apply hub_ok_count|split].
  - destruct (Hl key l Hk) as (elems' & He' & Hnd & Hr). simplify_eq. split; [|done].
    intros key' l' Hk'. simpl. destruct (decide (l' = l)) as [->|Hne].
    + rewrite (Hi key' key l) by done. exists (elems ++ [wp]).
      rewrite lookup_alter_eq, He. split_and!; [done|..].
      * apply NoDup_app. split_and!; [done| |apply NoDup_singleton]. intros x Hx ->%list_elem_of_singleton.
        destruct (Hr wp Hx) as (v & []). congruence.
      * intros x. rewrite elem_of_app, list_elem_of_singleton. intros [Hx| ->].
        { destruct (Hr x Hx) as (v & []). exists v. split; try done. simpl.
          rewrite lookup_insert_ne; [done|congruence]. }
        exists (w l). split; try done. simpl. by rewrite lookup_insert_eq.
    + destruct (Hl key' l' Hk') as (elems' & He' & Hnd' & Hr'). exists elems'.
      rewrite lookup_alter_ne by done. split_and!; [done..|]. intros x Hx.
      destruct (Hr' x Hx) as (v & []). exists v. split; try done. simpl.
      rewrite lookup_insert_ne; [done|congruence].
  - unfold watchersOf. simpl. rewrite Hk. simpl. by rewrite lookup_alter_eq, He.
  - intros key' Hne. unfold watchersOf. simpl. destruct (wh_watchers wh !! key') as [l'|] eqn:Hk'; [|done].
    simpl. rewrite lookup_alter_ne; [done|]. intros <-. by apply Hne, (Hi key' key l).
Qed.

Lemma enlist_new key wp w wh :
  let l := newPtr (wh_lists wh) in
  hub_ok wh → wh_all wh !! wp = None → wh_watchers wh !! key = None →
  w_closed (w l) = false → w_removed (w l) = false → w_remove (w l) = Some (key, l) →
  hub_ok (enlist key wp w wh) ∧ watchersOf (enlist key wp w wh) key = [wp] ∧
  ∀ key', key' ≠ key → watchersOf (enlist key wp w wh) key' = watchersOf wh key'.
Proof.
  intros l Hok Hwp Hk H1 H2 H3. pose proof Hok as [Hl Hi]. unfold enlist. rewrite Hk.
  assert (wh_lists wh !! l = None) as Hfresh by apply newPtr_fresh. fold l. clearbody l.
  assert (∀ key', wh_watchers wh !! key' ≠ Some l) as Hno.
  { intros key' Hk'. destruct (Hl key' l Hk') as (? & ? & _). congruence. }
  split; [apply hub_ok_count|split].
  - split; simpl.
    + intros key' l' Hk'. apply lookup_insert_Some in Hk' as [[<- <-]|[Hne Hk']].
      * exists [wp]. rewrite lookup_insert_eq. split_and!; [done|apply NoDup_singleton|].
        intros x ->%list_elem_of_singleton. exists (w l). split; try done. simpl.
        by rewrite lookup_insert_eq.
      * destruct (Hl key' l' Hk') as (elems & He & Hnd & Hr). exists elems.
        rewrite lookup_insert_ne by congruence. split_and!; [done..|]. intros x Hx.
        destruct (Hr x Hx) as (v & []). exists v. split; try done. simpl.
        rewrite lookup_insert_ne; [done|congruence].
    + intros k1 k2 l' L1 L2. apply lookup_insert_Some in L1, L2. naive_solver.
  - unfold watchersOf. simpl. rewrite lookup_insert_eq. simpl. by rewrite lookup_insert_eq.
  - intros key' Hne. unfold watchersOf. simpl. rewrite lookup_insert_ne by done.
    destruct (wh_watchers wh !! key') as [l'|] eqn:Hk'; [|done]. simpl.
    rewrite lookup_insert_ne; [done|]. intros ->. by apply (Hno key').
Qed.

Lemma enlist_ok key wp w wh :
  hub_ok wh → wh_all wh !! wp = None →
  (∀ l, w_closed (w l) = false ∧ w_removed (w l) = false ∧ w_remove (w l) = Some (key, l)) →
  hub_ok (enlist key wp w wh) ∧ watchersOf (enlist key wp w wh) key = watchersOf wh key ++ [wp] ∧
  (∀ key', key' ≠ key → watchersOf (enlist key wp w wh) key' = watchersOf wh key') ∧
  wh_events (enlist key wp w wh) = wh_events wh ∧
  wh_EventHistory (enlist key wp w wh) = wh_EventHistory wh ∧
  ∃ l, wh_all (enlist key wp w wh) = <[wp := w l]> (wh_all wh).
Proof.
  intros Hok Hwp Hw. assert (∃ l, wh_all (enlist key wp w wh) = <[wp := w l]> (wh_all wh)) as Hall
    by (unfold enlist; destruct (wh_watchers wh !! key); by eexists).
  assert (wh_events (enlist key wp w wh) = wh_events wh ∧
    wh_EventHistory (enlist key wp w wh) = wh_EventHistory wh) as [He Hh]
    by (unfold enlist; by destruct (wh_watchers wh !! key)).
  destruct (wh_watchers wh !! key) as [l|] eqn:Hk.
  - destruct (hb_lists _ Hok key l Hk) as (elems & El & _). destruct (Hw l) as (W1 & W2 & W3).
    destruct (enlist_old key wp w wh l elems) as (A & B & C); [done..|].
    split_and!; try done. rewrite B. unfold watchersOf. rewrite Hk. simpl. by rewrite El.
  - destruct (Hw (newPtr (wh_lists wh))) as (W1 & W2 & W3).
    destruct (enlist_new key wp w wh) as (A & B & C); [done..|].
    split_and!; try done. rewrite B. unfold watchersOf. by rewrite Hk.
Qed.

(** What a watcher of [key] from [index] on gets: an error when the history begins after
    the index, the first matching event of the history, or a place on the list of the key. *)
Lemma watch_ok cur wh l key recursive stream index storeIndex :
  let wp := newPtr (wh_all wh) in
  let eh := wh_EventHistory wh in
  hub_inv cur wh → history_ok (wh_events wh) eh l → 1 ≤ index →
  ∃ wh', hub_inv cur wh' ∧
    watch key recursive stream index storeIndex wh =
    Ret (wh', if index <? eh_StartIndex eh then
                inl (NewError EcodeEventIndexCleared
                  ("the requested history has been cleared [" ++ pretty (eh_StartIndex eh) ++ "/"
                   ++ pretty index ++ "]")%string storeIndex)
              else inr wp) ∧
    (index < eh_StartIndex eh → wh' = wh) ∧
    (eh_StartIndex eh ≤ index → ∃ w, wh_all wh' = <[wp := w]> (wh_all wh) ∧
      w_stream w = stream ∧ w_recursive w = recursive ∧ w_sinceIndex w = index ∧
      w_eventChan w = option_list (find (matching (wh_events wh) key recursive)
        (drop (Z.to_nat (index - eh_StartIndex eh)) l)) ∧
      (w_eventChan w = [] → watchersOf wh' key = watchersOf wh key ++ [wp])) ∧
    ∀ key', key' ≠ key → watchersOf wh' key' = watchersOf wh key'.
Proof.
  intros wp eh Hinv Hh Hidx. unfold watch. rewrite (scan_history _ _ l) by done.
  cbn [mbind run_bind]. fold eh. pose proof (newPtr_fresh (wh_all wh)) as Hwp. fold wp in Hwp |- *.
  pose proof Hinv as [Hok (l0 & Hh0 & Hlast)].
  destruct (Z.ltb_spec index (eh_StartIndex eh)) as [Hlt|Hge].
  { exists wh. split_and!; [done..|lia|done]. }
  destruct (find _ _) as [p|].
  - eexists. split_and!; [|done|lia| |done].
    + apply (hub_inv_events _ _ (alter (set e_EtcdIndex (λ _, storeIndex)) p)) in Hinv as [Ok1 H1].
      * split; [by apply (hub_ok_new _ wp)|exact H1].
      * intros q e Hq. destruct (decide (p = q)) as [<-|Hne].
        { rewrite lookup_alter_eq, Hq. by eexists. }
        rewrite lookup_alter_ne by done. by eexists.
    + intros _. eexists. by split_and!.
  - destruct (enlist_ok key wp (λ l, mkWatcher [] false stream recursive index false (Some (key, l))) wh)
      as (A & B & C & D & F & lp & G); [done..|].
    eexists. split_and!; [|done|lia| |apply C].
    + split; [exact A|]. exists l0. by rewrite D, F.
    + intros _. eexists. by split_and!.
Qed.

(** ** The client *)
Lemma hub_inv_all cur wh h :
  hub_ok h → wh_events h = wh_events wh → wh_EventHistory h = wh_EventHistory wh →
  hub_inv cur wh → hub_inv cur h.
Proof. intros Hok He Hh [_ (l & Hl & Hlast)]. split; [done|]. exists l. by rewrite He, Hh. Qed.

Lemma receive_ok cur wp e wh h : hub_inv cur wh → receive wp wh = Some (e, h) → hub_inv cur h.
Proof.
  intros Hinv. unfold receive. destruct (wh_all wh !! wp) as [w|] eqn:Hw; simpl; [|done].
  destruct (w_eventChan w) as [|e' rest]; [done|]. intros [= _ <-].
  apply (hub_inv_all cur wh); [|done..]. by eapply hub_ok_update; [apply Hinv|..].
Qed.

(** Remove returns when it is the first one of the watcher. *)
Lemma Remove_returns wp wh w :
  wh_all wh !! wp = Some w → (∃ h, Remove wp wh = Ok h) ↔ w_closed w = false.
Proof.
  intros Hw. unfold Remove. rewrite Hw. cbn [deref mbind outcome_bind].
  destruct (w_closed w); [split; [by intros [h ?]|done]|]. split; [done|]. intros _.
  destruct (w_remove w) as [[key l]|] eqn:Hr; [|by eexists].
  unfold removeFunc. simpl. rewrite lookup_insert_eq. simpl. rewrite Hr. simpl.
  destruct (w_removed w); by eexists.
Qed.

(** Remove takes the watcher from its list. *)
Lemma Remove_ok cur wp wh h : hub_inv cur wh → Remove wp wh = Ok h → hub_inv cur h.
Proof.
  intros Hinv. pose proof (hi_hub _ _ Hinv) as Hok. unfold Remove.
  destruct (wh_all wh !! wp) as [w|] eqn:Hw; [|done]. cbn [deref mbind outcome_bind].
  destruct (w_closed w) eqn:Hcl; [done|].
  destruct (w_remove w) as [[key l]|] eqn:Hr.
  2: { intros [= <-]. apply (hub_inv_all cur wh); [|done..]. eapply hub_ok_off; [done|exact Hw|by right]. }
  unfold removeFunc. simpl. rewrite lookup_insert_eq. simpl. rewrite Hr. simpl.
  destruct (w_removed w) eqn:Hrm; intros [= <-].
  { apply (hub_inv_all cur wh); [|done..]. eapply hub_ok_off; [done|exact Hw|by left]. }
  match goal with |- hub_inv _ (dropEmpty _ _ ?x) => destruct (dropEmpty_fields l key x) as (_ & F2 & _ & F4) end.
  apply (hub_inv_all cur wh); [|by rewrite F2|by rewrite F4|done].
  apply hub_ok_dropEmpty, hub_ok_count.
  apply (hub_ok_retire wh wp w (<[wp := w <| w_closed := true |> <| w_removed := true |>]>
    (<[wp := w <| w_closed := true |>]> (wh_all wh))) key); [done..|].
  intros x Hx. by rewrite !lookup_insert_ne.
Qed.
