(* ===== verification/StoreNode.v ===== *)
(** * StoreNode: the nodes of the store (src/store/node.go, node_extern.go)

    Nodes are shared by pointer: a [tree] is the memory of the nodes, with the heap of
    the nodes that expire.  A time is the number of nanoseconds since the zero time of
    Go, so that [Permanent] is 0; an operation reads the clock once, as [now].  The
    recursive methods take fuel, which counts the levels of the tree. *)

From stdpp Require Import sorting.
From Stdlib Require Import String Ascii.
From S2P Require Import Prelude.
From S2P Require Import Wire.
From S2P Require Import Paths TtlHeap EtcdError StoreEvent.

Definition CompareMatch : Z := 0.
Definition CompareIndexNotMatch : Z := 1.
Definition CompareValueNotMatch : Z := 2.
Definition CompareNotMatch : Z := 3.

Definition Permanent : Z := 0.

Record node := mkNode {
  n_Path : string;
  n_CreatedIndex : Z;
  n_ModifiedIndex : Z;
  n_Parent : option ptr;
  n_ExpireTime : Z;
  n_ACL : string;
  n_Value : string;
  n_Children : option (gmap string ptr);  (** nil for a key-value pair *)
}.
#[export] Instance set_n_ModifiedIndex : Setter n_ModifiedIndex := λ f n,
  mkNode (n_Path n) (n_CreatedIndex n) (f (n_ModifiedIndex n)) (n_Parent n) (n_ExpireTime n)
    (n_ACL n) (n_Value n) (n_Children n).
#[export] Instance set_n_Parent : Setter n_Parent := λ f n,
  mkNode (n_Path n) (n_CreatedIndex n) (n_ModifiedIndex n) (f (n_Parent n)) (n_ExpireTime n)
    (n_ACL n) (n_Value n) (n_Children n).
#[export] Instance set_n_ExpireTime : Setter n_ExpireTime := λ f n,
  mkNode (n_Path n) (n_CreatedIndex n) (n_ModifiedIndex n) (n_Parent n) (f (n_ExpireTime n))
    (n_ACL n) (n_Value n) (n_Children n).
#[export] Instance set_n_Value : Setter n_Value := λ f n,
  mkNode (n_Path n) (n_CreatedIndex n) (n_ModifiedIndex n) (n_Parent n) (n_ExpireTime n)
    (n_ACL n) (f (n_Value n)) (n_Children n).
#[export] Instance set_n_Children : Setter n_Children := λ f n,
  mkNode (n_Path n) (n_CreatedIndex n) (n_ModifiedIndex n) (n_Parent n) (n_ExpireTime n)
    (n_ACL n) (n_Value n) (f (n_Children n)).

Record tree := mkTree {
  t_nodes : gmap ptr node;
  t_ttl : ttlKeyHeap;
}.
#[export] Instance set_t_nodes : Setter t_nodes := λ f t, mkTree (f (t_nodes t)) (t_ttl t).
#[export] Instance set_t_ttl : Setter t_ttl := λ f t, mkTree (t_nodes t) (f (t_ttl t)).

(** The order in which a range over the children of a directory visits them. *)
Class ChildRange := {
  children : gmap string ptr → list (string * ptr);
  children_perm : ∀ m, children m ≡ₚ map_to_list m;
}.

Definition nodeAt (p : ptr) (t : tree) : run node := lift (deref (t_nodes t !! p)).

(** The expire time of a node of the heap. *)
Definition expireOf (nodes : gmap ptr node) (p : ptr) : Z :=
  match nodes !! p with Some n => n_ExpireTime n | None => 0 end.
Abbreviation expiry t := (expireOf (t_nodes t)).

(** A new node in memory. *)
Definition alloc (n : node) (t : tree) : tree * ptr :=
  let p := fresh (dom (t_nodes t)) in (t <| t_nodes ::= <[p := n]> |>, p).

Definition newKV (nodePath value : string) (createdIndex : Z) (parent : option ptr)
    (ACL : string) (expireTime : Z) : node :=
  mkNode nodePath createdIndex createdIndex parent expireTime ACL value None.

Definition newDir (nodePath : string) (createdIndex : Z) (parent : option ptr)
    (ACL : string) (expireTime : Z) : node :=
  mkNode nodePath createdIndex createdIndex parent expireTime ACL EmptyString (Some ∅).

(** The second result of [path.Split]. *)
Definition baseName (p : string) : string := (Split p).2.

(** [name[0]] panics when the name is empty. *)
Definition IsHidden (n : node) : outcome bool :=
  match baseName (n_Path n) with
  | EmptyString => Panic outOfRange
  | String c _ => Ok (bool_decide (c = "_"%char))
  end.

Definition IsPermanent (n : node) : bool := n_ExpireTime n =? 0.
Definition IsDir (n : node) : bool := match n_Children n with Some _ => true | None => false end.

Definition Read (cur : Z) (n : node) : Error + string :=
  if IsDir n then inl (NewError EcodeNotFile EmptyString cur) else inr (n_Value n).

Definition nodeWrite (cur : Z) (value : string) (index : Z) (n : node) : option Error * node :=
  if IsDir n then (Some (NewError EcodeNotFile EmptyString cur), n)
  else (None, n <| n_Value := value |> <| n_ModifiedIndex := index |>).

(** The difference of two times, an int64 that saturates. *)
Definition timeSub (a b : Z) : Z := Z.max (- 2 ^ 63) (Z.min (2 ^ 63 - 1) (a - b)).
Definition second : Z := 1000000000.

Definition ttlOf (expireTime now : Z) : Z :=
  let ttlN := timeSub expireTime now in
  let ttl := Z.quot ttlN second in
  if Z.rem ttlN second >? 0 then ttl + 1 else ttl.
Definition ExpirationAndTTL (now : Z) (p : ptr) (n : node) : option ptr * Z :=
  if IsPermanent n then (None, 0) else (Some p, ttlOf (n_ExpireTime n) now).

Definition GetChild (cur : Z) (name : string) (n : node) : Error + option ptr :=
  match n_Children n with
  | None => inl (NewError EcodeNotDir (n_Path n) cur)
  | Some c => inr (c !! name)
  end.

(** [n.Add(child)], for the node at [p]. *)
Definition Add (cur : Z) (p child : ptr) (t : tree) : run (option Error * tree) :=
  n ← nodeAt p t;
  match n_Children n with
  | None => Ret (Some (NewError EcodeNotDir EmptyString cur), t)
  | Some c =>
      ch ← nodeAt child t;
      let name := baseName (n_Path ch) in
      match c !! name with
      | Some _ => Ret (Some (NewError EcodeNodeExist EmptyString cur), t)
      | None => Ret (None, t <| t_nodes ::=
                  <[p := n <| n_Children := Some (<[name := child]> c) |>]> |>)
      end
  end.

(** [if n.Parent != nil && n.Parent.Children[name] == n { delete(n.Parent.Children, name) }]:
    the tree, and whether the condition holds. *)
Definition detach (p : ptr) (n : node) (t : tree) : run (tree * bool) :=
  match n_Parent n with
  | None => Ret (t, false)
  | Some pp =>
      par ← nodeAt pp t;
      let name := baseName (n_Path n) in
      match n_Children par with
      | None => Ret (t, false)
      | Some c =>
          if bool_decide (c !! name = Some p)
          then Ret (t <| t_nodes ::= <[pp := par <| n_Children := Some (delete name c) |>]> |>, true)
          else Ret (t, false)
      end
  end.

(** [if !n.IsPermanent() { n.store.ttlKeyHeap.remove(n) }]. *)
Definition ttlRemove (p : ptr) (n : node) (t : tree) : run tree :=
  if IsPermanent n then Ret t
  else h ← lift (remove (expiry t) p (t_ttl t)); Ret (t <| t_ttl := h |>).

(** A loop over a slice. *)
Fixpoint forEach {A S} (f : A → S → run S) (l : list A) (s : S) : run S :=
  match l with
  | [] => Ret s
  | a :: l => s ← f a s; forEach f l s
  end.

Section range.
Context `{ChildRange}.

Definition List (cur : Z) (n : node) : Error + list ptr :=
  match n_Children n with
  | None => inl (NewError EcodeNotDir EmptyString cur)
  | Some c => inr (children c).*2
  end.

Section callback.
Context {W : Type} (callback : option (string → W → run W)) (cur : Z).

Definition call (path : string) (w : W) : run W :=
  match callback with Some f => f path w | None => Ret w end.

Fixpoint nodeRemove (fuel : nat) (dir recursive : bool) (p : ptr) (s : tree * W)
  : run (option Error * (tree * W)) :=
  match fuel with
  | O => Loop
  | S fuel =>
      let '(t, w) := s in
      n ← nodeAt p t;
      match n_Children n with
      | None =>
          '(t, _) ← detach p n t;
          w ← call (n_Path n) w;
          t ← ttlRemove p n t;
          Ret (None, (t, w))
      | Some c =>
          if negb dir then Ret (Some (NewError EcodeNotFile (n_Path n) cur), s)
          else if negb (bool_decide (c = ∅)) && negb recursive then
            Ret (Some (NewError EcodeDirNotEmpty (n_Path n) cur), s)
          else
            '(t, w) ← forEach (λ child s, r ← nodeRemove fuel true true child s; Ret r.2)
                        (children c).*2 s;
            '(t, deleted) ← detach p n t;
            if deleted : bool then
              w ← call (n_Path n) w;
              t ← ttlRemove p n t;
              Ret (None, (t, w))
            else Ret (None, (t, w))
      end
  end.
End callback.

(** The children that are not hidden. *)
Fixpoint reprVisible (f : ptr → run NodeExtern) (t : tree) (l : list ptr)
  : run (list NodeExtern) :=
  match l with
  | [] => Ret []
  | p :: l =>
      n ← nodeAt p t;
      hidden ← lift (IsHidden n);
      if hidden : bool then reprVisible f t l
      else e ← f p; es ← reprVisible f t l; Ret (e :: es)
  end.

Definition key_le (a b : NodeExtern) : Prop := String.leb (ne_Key a) (ne_Key b) = true.
#[export] Instance key_le_dec : RelDecision key_le.
Proof. intros a b. unfold key_le. apply _. Defined.

(** [sort.Sort(nodes)]. *)
Definition sortNodes (l : list NodeExtern) : list NodeExtern := merge_sort key_le l.

Fixpoint Repr (fuel : nat) (now : Z) (recursive sorted : bool) (t : tree) (p : ptr)
  : run NodeExtern :=
  match fuel with
  | O => Loop
  | S fuel =>
      n ← nodeAt p t;
      let '(exp, ttl) := ExpirationAndTTL now p n in
      match n_Children n with
      | Some c =>
          let e := mkNodeExtern (n_Path n) None true exp ttl [] (n_ModifiedIndex n)
                     (n_CreatedIndex n) in
          if negb recursive then Ret e
          else
            es ← reprVisible (Repr fuel now recursive sorted t) t (children c).*2;
            Ret (e <| ne_Nodes := if sorted then sortNodes es else es |>)
      | None =>
          Ret (mkNodeExtern (n_Path n) (Some (n_Value n)) false exp ttl [] (n_ModifiedIndex n)
                 (n_CreatedIndex n))
      end
  end.

(** [eNode.loadInternalNode(n, recursive, sorted)]. *)
Definition loadInternalNode (fuel : nat) (now : Z) (recursive sorted : bool) (t : tree) (p : ptr)
    (eNode : NodeExtern) : run NodeExtern :=
  n ← nodeAt p t;
  e ← match n_Children n with
      | Some c =>
          es ← reprVisible (Repr fuel now recursive sorted t) t (children c).*2;
          Ret (eNode <| ne_Dir := true |> <| ne_Nodes := if sorted then sortNodes es else es |>)
      | None => Ret (eNode <| ne_Value := Some (n_Value n) |>)
      end;
  let '(exp, ttl) := ExpirationAndTTL now p n in
  Ret (e <| ne_Expiration := exp |> <| ne_TTL := ttl |>).
End range.

Definition UpdateTTL (expireTime : Z) (p : ptr) (t : tree) : run tree :=
  n ← nodeAt p t;
  let t' := t <| t_nodes ::= <[p := n <| n_ExpireTime := expireTime |>]> |> in
  if negb (IsPermanent n) then
    if expireTime =? 0 then
      h ← lift (remove (expiry t') p (t_ttl t')); Ret (t' <| t_ttl := h |>)
    else
      h ← lift (heapUpdate (expiry t') p (t_ttl t')); Ret (t' <| t_ttl := h |>)
  else
    if negb (expireTime =? 0) then Ret (t' <| t_ttl := push (expiry t') p (t_ttl t') |>)
    else Ret t.

Definition Compare (prevValue : string) (prevIndex : Z) (n : node) : bool * Z :=
  let indexMatch := (prevIndex =? 0) || (n_ModifiedIndex n =? prevIndex) in
  let valueMatch := bool_decide (prevValue = EmptyString) || bool_decide (n_Value n = prevValue) in
  let which :=
    if valueMatch && indexMatch then CompareMatch
    else if indexMatch && negb valueMatch then CompareValueNotMatch
    else if valueMatch && negb indexMatch then CompareIndexNotMatch
    else CompareNotMatch in
  (valueMatch && indexMatch, which).
