(* ===== verification/Store.v ===== *)
(** * Store: the key-value store (src/store/store.go)

    The operations of the store hold its lock from beginning to end, so that an operation
    is a function of the state of the store.  A result is the event that the operation
    returns, by pointer when the event is also in the history. *)

From stdpp Require Import pretty.
From Stdlib Require Import String Ascii.
From S2P Require Import Prelude.
From S2P Require Import Wire.
From S2P Require Import Paths TtlHeap EtcdError Stats StoreEvent WatcherHub StoreNode.

Definition defaultVersion : Z := 2.
(** 2000-01-01T00:00:00Z. *)
Definition minExpireTime : Z := 63082281600 * second.

Record store := mkStore {
  s_Root : ptr;
  s_WatcherHub : watcherHub;
  s_CurrentIndex : Z;
  s_Stats : Stats;
  s_CurrentVersion : Z;
  s_tree : tree;  (** the nodes, with ttlKeyHeap *)
}.
#[export] Instance set_s_WatcherHub : Setter s_WatcherHub := λ f s,
  mkStore (s_Root s) (f (s_WatcherHub s)) (s_CurrentIndex s) (s_Stats s) (s_CurrentVersion s)
    (s_tree s).
#[export] Instance set_s_CurrentIndex : Setter s_CurrentIndex := λ f s,
  mkStore (s_Root s) (s_WatcherHub s) (f (s_CurrentIndex s)) (s_Stats s) (s_CurrentVersion s)
    (s_tree s).
#[export] Instance set_s_Stats : Setter s_Stats := λ f s,
  mkStore (s_Root s) (s_WatcherHub s) (s_CurrentIndex s) (f (s_Stats s)) (s_CurrentVersion s)
    (s_tree s).
#[export] Instance set_s_tree : Setter s_tree := λ f s,
  mkStore (s_Root s) (s_WatcherHub s) (s_CurrentIndex s) (s_Stats s) (s_CurrentVersion s)
    (f (s_tree s)).

Definition newStore : store :=
  let '(t, root) := alloc (newDir "/" 0 None EmptyString Permanent) (mkTree ∅ newTtlKeyHeap) in
  mkStore root (newWatchHub 1000) 0 newStats defaultVersion t.

Definition Version (s : store) : Z := s_CurrentVersion s.
Definition storeIndex (s : store) : Z := s_CurrentIndex s.

(** A path in a tree of [n] nodes has fewer than [n] names. *)
Definition levels (t : tree) : nat := S (size (t_nodes t)).

(** [s.Stats.Inc(field)]. *)
Definition stat (field : statField) (s : store) : store := s <| s_Stats ::= Inc field |>.

(** The event becomes an object in memory. *)
Definition shareEvent (e : Event) (s : store) : store * ptr :=
  let p := newPtr (wh_events (s_WatcherHub s)) in
  (s <| s_WatcherHub ::= set wh_events (<[p := e]>) |>, p).

(** [s.WatcherHub.notify(e)]. *)
Definition hubNotify (e : ptr) (s : store) : run store :=
  h ← lift (notify e (s_WatcherHub s)); Ret (s <| s_WatcherHub := h |>).

(** The callback of a removal: [s.WatcherHub.notifyWatchers(e, path, true)]. *)
Definition deletedCallback (e : ptr) : option (string → watcherHub → run watcherHub) :=
  Some (λ path wh, lift (notifyWatchers e path true wh)).

(** ** walk *)
Section walk.
Context {S : Type} (walkFunc : ptr → string → S → run (S * (Error + ptr))).

Fixpoint walkLoop (components : list string) (curr : ptr) (s : S) : run (S * (Error + ptr)) :=
  match components with
  | [] => Ret (s, inr curr)
  | c :: components =>
      if decide (c = EmptyString) then Ret (s, inr curr)
      else
        '(s, r) ← walkFunc curr c s;
        match r with
        | inl err => Ret (s, inl err)
        | inr curr => walkLoop components curr s
        end
  end.

Definition walk (root : ptr) (nodePath : string) (s : S) : run (S * (Error + ptr)) :=
  walkLoop (tail (split nodePath)) root s.
End walk.

(** The walkFunc of internalGet. *)
Definition getChild (cur : Z) (parent : ptr) (name : string) (t : tree)
  : run (tree * (Error + ptr)) :=
  n ← nodeAt parent t;
  match n_Children n with
  | None => Ret (t, inl (NewError EcodeNotDir (n_Path n) cur))
  | Some c =>
      match c !! name with
      | Some child => Ret (t, inr child)
      | None => Ret (t, inl (NewError EcodeKeyNotFound (Join (n_Path n) name) cur))
      end
  end.

Definition internalGet (nodePath : string) (s : store) : run (Error + ptr) :=
  let nodePath := Clean (Join "/" nodePath) in
  '(_, r) ← walk (getChild (s_CurrentIndex s)) (s_Root s) nodePath (s_tree s);
  Ret r.

Definition checkDir (cur : Z) (parent : ptr) (dirName : string) (t : tree)
  : run (tree * (Error + ptr)) :=
  par ← nodeAt parent t;
  match n_Children par ≫= lookup dirName with
  | Some child =>
      n ← nodeAt child t;
      if IsDir n then Ret (t, inr child)
      else Ret (t, inl (NewError EcodeNotDir (n_Path n) cur))
  | None =>
      let n := newDir (Join (n_Path par) dirName) (uint64 (cur + 1)) (Some parent)
                 (n_ACL par) Permanent in
      let '(t, p) := alloc n t in
      match n_Children par with
      | None => Crash "assignment to entry in nil map"
      | Some c => Ret (t <| t_nodes ::= <[parent := par <| n_Children := Some (<[dirName := p]> c) |>]> |>,
                       inr p)
      end
  end.

(** The text of a failed comparison. *)
Definition getCompareFailCause (n : node) (which : Z) (prevValue : string) (prevIndex : Z)
  : string :=
  let byIndex := ("[" ++ pretty prevIndex ++ " != " ++ pretty (n_ModifiedIndex n) ++ "]")%string in
  let byValue := ("[" ++ prevValue ++ " != " ++ n_Value n ++ "]")%string in
  if which =? CompareIndexNotMatch then byIndex
  else if which =? CompareValueNotMatch then byValue
  else (byValue ++ " " ++ byIndex)%string.

Section operations.
Context `{ChildRange} (now : Z).

(** [n.Remove(false, false, nil)]. *)
Definition removeOld (cur : Z) (p : ptr) (t : tree) : run tree :=
  '(_, (t, _)) ← nodeRemove (W := unit) None cur (levels t) false false p (t, tt);
  Ret t.

(** The part of internalCreate for a node [n] that is there already: a file is removed when
    the call replaces, and becomes the previous node of the event. *)
Definition replaceOld (nodePath : string) (currIndex : Z) (replace : bool) (n : option ptr)
    (t : tree) (e : Event) : run (Error + (tree * Event)) :=
  match n with
  | None => Ret (inr (t, e))
  | Some old =>
      if replace then
        oldn ← nodeAt old t;
        if IsDir oldn then Ret (inl (NewError EcodeNotFile nodePath currIndex))
        else
          prev ← Repr (levels t) now false false t old;
          t ← removeOld currIndex old t;
          Ret (inr (t, e <| e_PrevNode := Some prev |>))
      else Ret (inl (NewError EcodeNodeExist nodePath currIndex))
  end.

(** The part that makes the node, under the directory at [d]. *)
Definition placeNew (nodePath : string) (currIndex nextIndex : Z) (dir : bool) (value : string)
    (expireTime : Z) (d : ptr) (t : tree) (e : Event) : run (tree * Event) :=
  let e := if dir then e <| e_Node ::= set ne_Dir (λ _, true) |>
           else e <| e_Node ::= set ne_Value (λ _, Some value) |> in
  let n := if dir then newDir nodePath nextIndex (Some d) EmptyString expireTime
           else newKV nodePath value nextIndex (Some d) EmptyString expireTime in
  let '(t, p) := alloc n t in
  '(_, t) ← Add currIndex d p t;
  if IsPermanent n then Ret (t, e)
  else
    let '(exp, ttl) := ExpirationAndTTL now p n in
    Ret (t <| t_ttl ::= push (expiry t) p |>,
         e <| e_Node ::= λ en, en <| ne_Expiration := exp |> <| ne_TTL := ttl |> |>).

Definition internalCreate (nodePath : string) (dir : bool) (value : string)
    (unique replace : bool) (expireTime : Z) (act : action) (s : store)
  : run (store * (Error + Event)) :=
  let currIndex := s_CurrentIndex s in
  let nextIndex := uint64 (s_CurrentIndex s + 1) in
  let nodePath := if unique then (nodePath ++ "/" ++ pretty nextIndex)%string else nodePath in
  let nodePath := Clean (Join "/" nodePath) in
  if decide (nodePath = "/") then Ret (s, inl (NewError EcodeRootROnly "/" currIndex))
  else
    let expireTime := if expireTime <? minExpireTime then Permanent else expireTime in
    let '(dirName, nodeName) := Split nodePath in
    '(t, r) ← walk (checkDir currIndex) (s_Root s) dirName (s_tree s);
    let s := s <| s_tree := t |> in
    match r with
    | inl err => Ret (stat SetFail s, inl (err <| Error_Index := currIndex |>))
    | inr d =>
        let e := newEvent act nodePath nextIndex nextIndex in
        dn ← nodeAt d t;
        let n := match GetChild currIndex nodeName dn with inr c => c | inl _ => None end in
        r ← replaceOld nodePath currIndex replace n t e;
        match r with
        | inl err => Ret (s, inl err)
        | inr (t, e) =>
            '(t, e) ← placeNew nodePath currIndex nextIndex dir value expireTime d t e;
            Ret (s <| s_tree := t |> <| s_CurrentIndex := nextIndex |>, inr e)
        end
    end.

(** ** The operations *)
Definition storeGet (nodePath : string) (recursive sorted : bool) (s : store)
  : run (store * (Error + Event)) :=
  let nodePath := Clean (Join "/" nodePath) in
  r ← internalGet nodePath s;
  match r with
  | inl err => Ret (stat GetFail s, inl err)
  | inr p =>
      n ← nodeAt p (s_tree s);
      let e := (newEvent Get nodePath (n_ModifiedIndex n) (n_CreatedIndex n))
                 <| e_EtcdIndex := s_CurrentIndex s |> in
      en ← loadInternalNode (levels (s_tree s)) now recursive sorted (s_tree s) p (e_Node e);
      Ret (stat GetSuccess s, inr (e <| e_Node := en |>))
  end.

Definition storeCreate (nodePath : string) (dir : bool) (value : string) (unique : bool)
    (expireTime : Z) (s : store) : run (store * (Error + ptr)) :=
  '(s, r) ← internalCreate nodePath dir value unique false expireTime Create s;
  match r with
  | inl err => Ret (stat CreateFail s, inl err)
  | inr e =>
      let '(s, ep) := shareEvent (e <| e_EtcdIndex := s_CurrentIndex s |>) s in
      s ← hubNotify ep s;
      Ret (stat CreateSuccess s, inr ep)
  end.

Definition storeSet (nodePath : string) (dir : bool) (value : string) (expireTime : Z)
    (s : store) : run (store * (Error + ptr)) :=
  g ← internalGet nodePath s;
  match g with
  | inl getErr =>
      if negb (ErrorCode getErr =? EcodeKeyNotFound) then Ret (stat SetFail s, inl getErr)
      else
        '(s, r) ← internalCreate nodePath dir value false true expireTime Set_ s;
        match r with
        | inl err => Ret (stat SetFail s, inl err)
        | inr e =>
            let '(s, ep) := shareEvent (e <| e_EtcdIndex := s_CurrentIndex s |>) s in
            s ← hubNotify ep s;
            Ret (stat SetSuccess s, inr ep)
        end
  | inr p =>
      '(s, r) ← internalCreate nodePath dir value false true expireTime Set_ s;
      match r with
      | inl err => Ret (stat SetFail s, inl err)
      | inr e =>
          n ← nodeAt p (s_tree s);
          let prev := newEvent Get nodePath (n_ModifiedIndex n) (n_CreatedIndex n) in
          prevNode ← loadInternalNode (levels (s_tree s)) now false false (s_tree s) p (e_Node prev);
          let e := e <| e_EtcdIndex := s_CurrentIndex s |> <| e_PrevNode := Some prevNode |> in
          let '(s, ep) := shareEvent e s in
          s ← hubNotify ep s;
          Ret (stat SetSuccess s, inr ep)
      end
  end.

(** [n.Write(value, index)] on the node at [p]; the error is not used. *)
Definition writeNode (cur : Z) (value : string) (index : Z) (p : ptr) (t : tree) : run tree :=
  n ← nodeAt p t;
  Ret (t <| t_nodes ::= <[p := (nodeWrite cur value index n).2]> |>).

Definition storeUpdate (nodePath newValue : string) (expireTime : Z) (s : store)
  : run (store * (Error + ptr)) :=
  let nodePath := Clean (Join "/" nodePath) in
  if decide (nodePath = "/") then Ret (s, inl (NewError EcodeRootROnly "/" (s_CurrentIndex s)))
  else
    let currIndex := s_CurrentIndex s in
    let nextIndex := uint64 (s_CurrentIndex s + 1) in
    r ← internalGet nodePath s;
    match r with
    | inl err => Ret (stat UpdateFail s, inl err)
    | inr p =>
        n ← nodeAt p (s_tree s);
        prev ← Repr (levels (s_tree s)) now false false (s_tree s) p;
        let e := (newEvent Update nodePath nextIndex (n_CreatedIndex n))
                   <| e_EtcdIndex := nextIndex |> <| e_PrevNode := Some prev |> in
        if IsDir n && negb (bool_decide (newValue = EmptyString)) then
          Ret (stat UpdateFail s, inl (NewError EcodeNotFile nodePath currIndex))
        else
          t ← writeNode currIndex newValue nextIndex p (s_tree s);
          let e := if IsDir n then e <| e_Node ::= set ne_Dir (λ _, true) |>
                   else e <| e_Node ::= set ne_Value (λ _, Some newValue) |> in
          t ← UpdateTTL expireTime p t;
          n' ← nodeAt p t;
          let '(exp, ttl) := ExpirationAndTTL now p n' in
          let e := e <| e_Node ::= λ en, en <| ne_Expiration := exp |> <| ne_TTL := ttl |> |> in
          let '(s, ep) := shareEvent e (s <| s_tree := t |>) in
          s ← hubNotify ep s;
          Ret ((stat UpdateSuccess s) <| s_CurrentIndex := nextIndex |>, inr ep)
    end.

Definition storeCompareAndSwap (nodePath prevValue : string) (prevIndex : Z) (value : string)
    (expireTime : Z) (s : store) : run (store * (Error + ptr)) :=
  let nodePath := Clean (Join "/" nodePath) in
  if decide (nodePath = "/") then Ret (s, inl (NewError EcodeRootROnly "/" (s_CurrentIndex s)))
  else
    r ← internalGet nodePath s;
    match r with
    | inl err => Ret (stat CompareAndSwapFail s, inl err)
    | inr p =>
        n ← nodeAt p (s_tree s);
        if IsDir n then
          Ret (stat CompareAndSwapFail s, inl (NewError EcodeNotFile nodePath (s_CurrentIndex s)))
        else
          let '(ok, which) := Compare prevValue prevIndex n in
          if negb ok then
            let cause := getCompareFailCause n which prevValue prevIndex in
            Ret (stat CompareAndSwapFail s,
                 inl (NewError EcodeTestFailed cause (s_CurrentIndex s)))
          else
            let s := s <| s_CurrentIndex ::= λ i, uint64 (i + 1) |> in
            prev ← Repr (levels (s_tree s)) now false false (s_tree s) p;
            let e := (newEvent CompareAndSwap nodePath (s_CurrentIndex s) (n_CreatedIndex n))
                       <| e_EtcdIndex := s_CurrentIndex s |> <| e_PrevNode := Some prev |> in
            t ← writeNode (s_CurrentIndex s) value (s_CurrentIndex s) p (s_tree s);
            t ← UpdateTTL expireTime p t;
            n' ← nodeAt p t;
            let '(exp, ttl) := ExpirationAndTTL now p n' in
            let e := e <| e_Node ::= λ en, en <| ne_Value := Some value |>
                         <| ne_Expiration := exp |> <| ne_TTL := ttl |> |> in
            let '(s, ep) := shareEvent e (s <| s_tree := t |>) in
            s ← hubNotify ep s;
            Ret (stat CompareAndSwapSuccess s, inr ep)
    end.

Definition storeDelete (nodePath : string) (dir recursive : bool) (s : store)
  : run (store * (Error + ptr)) :=
  let nodePath := Clean (Join "/" nodePath) in
  if decide (nodePath = "/") then Ret (s, inl (NewError EcodeRootROnly "/" (s_CurrentIndex s)))
  else
    let dir := if recursive then true else dir in
    r ← internalGet nodePath s;
    match r with
    | inl err => Ret (stat DeleteFail s, inl err)
    | inr p =>
        n ← nodeAt p (s_tree s);
        let nextIndex := uint64 (s_CurrentIndex s + 1) in
        prev ← Repr (levels (s_tree s)) now false false (s_tree s) p;
        let e := (newEvent Delete nodePath nextIndex (n_CreatedIndex n))
                   <| e_EtcdIndex := nextIndex |> <| e_PrevNode := Some prev |> in
        let e := if IsDir n then e <| e_Node ::= set ne_Dir (λ _, true) |> else e in
        let '(s, ep) := shareEvent e s in
        '(err, (t, h)) ← nodeRemove (deletedCallback ep) (s_CurrentIndex s) (levels (s_tree s))
                           dir recursive p (s_tree s, s_WatcherHub s);
        let s := s <| s_tree := t |> <| s_WatcherHub := h |> in
        match err with
        | Some err => Ret (stat DeleteFail s, inl err)
        | None =>
            let s := s <| s_CurrentIndex ::= λ i, uint64 (i + 1) |> in
            s ← hubNotify ep s;
            Ret (stat DeleteSuccess s, inr ep)
        end
    end.

Definition storeCompareAndDelete (nodePath prevValue : string) (prevIndex : Z) (s : store)
  : run (store * (Error + ptr)) :=
  let nodePath := Clean (Join "/" nodePath) in
  r ← internalGet nodePath s;
  match r with
  | inl err => Ret (stat CompareAndDeleteFail s, inl err)
  | inr p =>
      n ← nodeAt p (s_tree s);
      if IsDir n then
        Ret (stat CompareAndSwapFail s, inl (NewError EcodeNotFile nodePath (s_CurrentIndex s)))
      else
        let '(ok, which) := Compare prevValue prevIndex n in
        if negb ok then
          let cause := getCompareFailCause n which prevValue prevIndex in
          Ret (stat CompareAndDeleteFail s,
               inl (NewError EcodeTestFailed cause (s_CurrentIndex s)))
        else
          let s := s <| s_CurrentIndex ::= λ i, uint64 (i + 1) |> in
          prev ← Repr (levels (s_tree s)) now false false (s_tree s) p;
          let e := (newEvent CompareAndDelete nodePath (s_CurrentIndex s) (n_CreatedIndex n))
                     <| e_EtcdIndex := s_CurrentIndex s |> <| e_PrevNode := Some prev |> in
          let '(s, ep) := shareEvent e s in
          '(_, (t, h)) ← nodeRemove (deletedCallback ep) (s_CurrentIndex s) (levels (s_tree s))
                           false false p (s_tree s, s_WatcherHub s);
          let s := s <| s_tree := t |> <| s_WatcherHub := h |> in
          s ← hubNotify ep s;
          Ret (stat CompareAndDeleteSuccess s, inr ep)
  end.

Definition storeWatch (key : string) (recursive stream : bool) (sinceIndex : Z) (s : store)
  : run (store * (Error + ptr)) :=
  let key := Clean (Join "/" key) in
  let sinceIndex := if sinceIndex =? 0 then uint64 (s_CurrentIndex s + 1) else sinceIndex in
  '(h, r) ← watch key recursive stream sinceIndex (s_CurrentIndex s) (s_WatcherHub s);
  Ret (s <| s_WatcherHub := h |>, r).

(** One turn of the loop of DeleteExpiredKeys: [None] at its end. *)
Definition expireOne (cutoff : Z) (s : store) : run (option store) :=
  match top (t_ttl (s_tree s)) with
  | None => Ret None
  | Some p =>
      n ← nodeAt p (s_tree s);
      if n_ExpireTime n >? cutoff then Ret None
      else
        let s := s <| s_CurrentIndex ::= λ i, uint64 (i + 1) |> in
        prev ← Repr (levels (s_tree s)) now false false (s_tree s) p;
        let e := (newEvent Expire (n_Path n) (s_CurrentIndex s) (n_CreatedIndex n))
                   <| e_EtcdIndex := s_CurrentIndex s |> <| e_PrevNode := Some prev |> in
        let '(s, ep) := shareEvent e s in
        '(h, _) ← lift (pop (expiry (s_tree s)) (t_ttl (s_tree s)));
        let t := (s_tree s) <| t_ttl := h |> in
        '(_, (t, h)) ← nodeRemove (deletedCallback ep) (s_CurrentIndex s) (levels t)
                         true true p (t, s_WatcherHub s);
        let s := stat ExpireCount (s <| s_tree := t |> <| s_WatcherHub := h |>) in
        s ← hubNotify ep s;
        Ret (Some s)
  end.

Fixpoint expireLoop (fuel : nat) (cutoff : Z) (s : store) : run store :=
  match fuel with
  | O => Loop
  | S fuel =>
      r ← expireOne cutoff s;
      match r with
      | None => Ret s
      | Some s => expireLoop fuel cutoff s
      end
  end.
(** A turn takes at least one node from the heap. *)
Definition DeleteExpiredKeys (cutoff : Z) (s : store) : run store :=
  expireLoop (S (Len (t_ttl (s_tree s)))) cutoff s.
End operations.

(** JsonStats sets the number of watchers before it prints the counters. *)
Definition statsForJson (s : store) : Stats :=
  let st := s_Stats s in
  mkStats (st_GetSuccess st) (st_GetFail st) (st_SetSuccess st) (st_SetFail st)
    (st_DeleteSuccess st) (st_DeleteFail st) (st_UpdateSuccess st) (st_UpdateFail st)
    (st_CreateSuccess st) (st_CreateFail st) (st_CompareAndSwapSuccess st)
    (st_CompareAndSwapFail st) (st_CompareAndDeleteSuccess st) (st_CompareAndDeleteFail st)
    (st_ExpireCount st) (uint64 (wh_count (s_WatcherHub s))).

Definition TotalTransactions (s : store) : Z := TotalTranscations (s_Stats s).
