(* ===== verification/StoreTree.v ===== *)
(** * StoreTree: the nodes form a tree (src/store/node.go, store.go)

    [resolve] follows names from a node.  [shape_ok] is the invariant of the pointers: a
    child points back to its parent and carries the path under which it is found.  From
    it follows that a node is found under one list of names only, so that memory, which
    is shared and updated in place, can be read as a map from names to nodes. *)

From S2P Require Import Prelude.
From S2P Require Import Wire.
From S2P Require Import Paths TtlHeap EtcdError StoreEvent StoreNode.

(** ** Following names *)
Fixpoint resolve (nodes : gmap ptr node) (p : ptr) (names : list string) : option ptr :=
  match names with
  | [] => Some p
  | x :: names => n ← nodes !! p; c ← n_Children n; q ← c !! x; resolve nodes q names
  end.

Lemma resolve_app nodes p l l' :
  resolve nodes p (l ++ l') = q ← resolve nodes p l; resolve nodes q l'.
Proof.
  revert p. induction l as [|x l IH]; intros p; simpl; [done|].
  destruct (nodes !! p) as [n|]; simpl; [|done]. destruct (n_Children n) as [c|]; simpl; [|done].
  destruct (c !! x); simpl; [|done]. apply IH.
Qed.

Lemma resolve_snoc nodes p l x q :
  resolve nodes p (l ++ [x]) = Some q ↔
  ∃ d n c, resolve nodes p l = Some d ∧ nodes !! d = Some n ∧ n_Children n = Some c ∧
    c !! x = Some q.
Proof.
  rewrite resolve_app. simpl. split.
  - intros H. repeat setoid_rewrite bind_Some in H. naive_solver.
  - intros (d & n & c & -> & Hn & Hc & Hx). simpl. by rewrite Hn; simpl; rewrite Hc; simpl; rewrite Hx.
Qed.

(** Only the children matter. *)
Lemma resolve_ext nodes nodes' p names :
  (∀ q, nodes !! q ≫= n_Children = nodes' !! q ≫= n_Children) →
  resolve nodes p names = resolve nodes' p names.
Proof.
  intros He. revert p. induction names as [|x names IH]; intros p; simpl; [done|].
  specialize (He p). destruct (nodes !! p) as [n|], (nodes' !! p) as [n'|]; simpl in *; try done.
  - rewrite He. destruct (n_Children n'); simpl; [|done]. destruct (_ !! x); simpl; auto.
  - by rewrite He.
  - by rewrite <-He.
Qed.

Lemma prefix_snoc_inv {A} (a l : list A) y :
  a `prefix_of` l ++ [y] → a = l ++ [y] ∨ a `prefix_of` l.
Proof.
  intros [z Hz]. destruct z as [|w z _] using rev_ind.
  - left. by rewrite app_nil_r in Hz.
  - right. rewrite app_assoc in Hz. apply app_inj_tail in Hz as [-> _]. by exists z.
Qed.

(** When a node is found under one path only, a path is shorter than the number of nodes. *)
Lemma resolve_short nodes p names :
  (∀ k q, resolve nodes p k = Some q → is_Some (nodes !! q)) →
  (∀ k k' q, resolve nodes p k = Some q → resolve nodes p k' = Some q → k = k') →
  is_Some (resolve nodes p names) → (length names < size nodes)%nat.
Proof.
  intros Hin Hinj [q0 Hp]. set (l := (λ i, resolve nodes p (take i names)) <$> seq 0 (S (length names))).
  assert (∀ i, is_Some (resolve nodes p (take i names))) as Hsome.
  { intros i. rewrite <-(take_drop i names), resolve_app in Hp.
    destruct (resolve nodes p (take i names)); [by eexists|done]. }
  assert (NoDup l) as Hnd.
  { apply NoDup_fmap_2_strong; [|apply NoDup_seq].
    intros i j Hi Hj Hij. apply elem_of_seq in Hi, Hj. destruct (Hsome i) as [q Hq].
    assert (take i names = take j names) as Ht by (apply (Hinj _ _ q); congruence).
    apply (f_equal length) in Ht. rewrite !length_take in Ht. lia. }
  assert (l ⊆ Some <$> elements (dom nodes)) as Hsub.
  { intros o Ho. apply list_elem_of_fmap in Ho as (i & -> & _). destruct (Hsome i) as [q Hq].
    rewrite Hq. apply list_elem_of_fmap. exists q. split; [done|]. apply elem_of_elements, elem_of_dom. eauto. }
  pose proof (submseteq_length _ _ (NoDup_submseteq _ _ Hnd Hsub)) as Hle.
  unfold l in Hle. rewrite !length_fmap, length_seq in Hle.
  change (length (elements (dom nodes))) with (size (dom nodes)) in Hle. rewrite size_dom in Hle. lia.
Qed.

(** ** The shape of the tree *)
Section shape.
Context (root : ptr).

Record shape_ok (nodes : gmap ptr node) : Prop := {
  sh_root : ∃ n, nodes !! root = Some n ∧ n_Parent n = None ∧ n_Path n = pathOf [] ∧
    is_Some (n_Children n) ∧ n_ExpireTime n = 0;
  sh_child : ∀ names p n c x q,
    resolve nodes root names = Some p → nodes !! p = Some n → n_Children n = Some c →
    c !! x = Some q →
    name_ok x ∧ ∃ m, nodes !! q = Some m ∧ n_Parent m = Some p ∧ n_Path m = pathOf (names ++ [x]);
}.

(** What is known of the node found under [names]. *)
Lemma shape_at nodes names p :
  shape_ok nodes → resolve nodes root names = Some p →
  Forall name_ok names ∧ ∃ n, nodes !! p = Some n ∧ n_Path n = pathOf names ∧
    match reverse names with
    | [] => p = root
    | x :: r => ∃ d, resolve nodes root (reverse r) = Some d ∧ n_Parent n = Some d
    end.
Proof.
  intros [Hroot Hchild]. revert p. induction names as [|x names IH] using rev_ind; intros p Hp.
  - injection Hp as <-. destruct Hroot as (n & Hn & _ & Hpath & _).
    split; [constructor|]. by exists n.
  - apply resolve_snoc in Hp as (d & n & c & Hd & Hn & Hc & Hx).
    destruct (Hchild names d n c x p Hd Hn Hc Hx) as (Hok & m & Hm & Hpar & Hpath).
    destruct (IH d Hd) as [Hnames _]. split; [by apply Forall_app; auto|].
    exists m. rewrite reverse_snoc, reverse_involutive. eauto.
Qed.

(** A node is found under one path only. *)
Lemma resolve_inj nodes l l' p :
  shape_ok nodes → resolve nodes root l = Some p → resolve nodes root l' = Some p → l = l'.
Proof.
  intros Hs H1 H2. destruct (shape_at nodes l p Hs H1) as (Hl & n & Hn & Hp & _).
  destruct (shape_at nodes l' p Hs H2) as (Hl' & n' & Hn' & Hp' & _).
  simplify_eq. apply pathOf_inj; congruence.
Qed.

Lemma shape_parent nodes pre x p :
  shape_ok nodes → resolve nodes root (pre ++ [x]) = Some p →
  ∃ d dn c n, resolve nodes root pre = Some d ∧ nodes !! d = Some dn ∧ n_Children dn = Some c ∧
    c !! x = Some p ∧ nodes !! p = Some n ∧ n_Parent n = Some d ∧
    n_Path n = pathOf (pre ++ [x]) ∧ name_ok x ∧ Forall name_ok pre.
Proof.
  intros Hs Hp. apply resolve_snoc in Hp as (d & dn & c & Hd & Hdn & Hc & Hx).
  destruct (sh_child _ Hs pre d dn c x p Hd Hdn Hc Hx) as (Hok & m & Hm & Hpar & Hpath).
  destruct (shape_at nodes pre d Hs Hd) as [Hpre _]. naive_solver.
Qed.

(** A path is shorter than the number of nodes. *)
Lemma resolve_length nodes names :
  shape_ok nodes → is_Some (resolve nodes root names) → (length names < size nodes)%nat.
Proof.
  intros Hs. apply resolve_short.
  - intros k q Hq. destruct (shape_at nodes k q Hs Hq) as (_ & n & Hn & _). by eexists.
  - intros k k' q. by apply resolve_inj.
Qed.

(** ** Changing a node in place *)
Lemma shape_update nodes p n n' :
  shape_ok nodes → nodes !! p = Some n → n_Children n' = n_Children n →
  n_Parent n' = n_Parent n → n_Path n' = n_Path n → (p = root → n_ExpireTime n' = 0) →
  shape_ok (<[p := n']> nodes) ∧
  ∀ k, resolve (<[p := n']> nodes) root k = resolve nodes root k.
Proof.
  intros Hs Hn Hc Hpar Hpath Hexp.
  assert (∀ k, resolve (<[p := n']> nodes) root k = resolve nodes root k) as Hres.
  { intros k. apply resolve_ext. intros q. rewrite lookup_insert. case_decide; [|done].
    subst. by rewrite Hn. }
  split; [|done]. split.
  - destruct (sh_root _ Hs) as (r & Hr & H1 & H2 & H3 & H4). rewrite lookup_insert.
    case_decide as Hd; [|eauto 10]. subst. simplify_eq. exists n'. split_and!; auto; congruence.
  - intros names d dn c x q Hd Hdn Hch Hx. rewrite Hres in Hd.
    assert (∃ dn0, nodes !! d = Some dn0 ∧ n_Children dn0 = Some c) as (dn0 & Hdn0 & Hch0).
    { rewrite lookup_insert in Hdn. case_decide; simplify_eq; [exists n|exists dn]; split; congruence. }
    destruct (sh_child _ Hs names d dn0 c x q Hd Hdn0 Hch0 Hx) as (Hok & m & Hm & H1 & H2).
    split; [done|]. rewrite lookup_insert. case_decide; [|eauto].
    subst. simplify_eq. exists n'. split_and!; congruence.
Qed.

Lemma resolve_prefix nodes p a b :
  is_Some (resolve nodes p (a ++ b)) → is_Some (resolve nodes p a).
Proof. rewrite resolve_app. destruct (resolve nodes p a); simpl; [by eexists|by intros []]. Qed.

(** ** A new child *)
Section attach.
Context (nodes nodes' : gmap ptr node) (pre : list string) (x : string) (d q : ptr)
  (dn m : node) (c : gmap string ptr) (Hs : shape_ok nodes)
  (Hd : resolve nodes root pre = Some d) (Hdn : nodes !! d = Some dn)
  (Hc : n_Children dn = Some c) (Hx : c !! x = None) (Hq : nodes !! q = None)
  (Hm : n_Children m = None ∨ n_Children m = Some ∅)
  (attach_at_d : nodes' !! d = Some (dn <| n_Children := Some (<[x := q]> c) |>))
  (attach_at_q : nodes' !! q = Some m)
  (attach_at : ∀ p, p ≠ d → p ≠ q → nodes' !! p = nodes !! p).

Lemma attach_follow k l p :
  resolve nodes root l = Some p →
  resolve nodes' p k = if decide (l ++ k = pre ++ [x]) then Some q else resolve nodes p k.
Proof.
  revert l p. induction k as [|y k IH]; intros l p Hp.
  { rewrite app_nil_r. rewrite decide_False; [done|]. intros ->.
    apply resolve_snoc in Hp as (d' & dn' & c' & ? & ? & ? & ?). simplify_eq. }
  cbn [resolve]. destruct (shape_at nodes l p Hs Hp) as (_ & pn & Hpn & _).
  assert (resolve nodes root (l ++ [y]) = None → l ≠ pre → l ++ y :: k ≠ pre ++ [x]) as Hmiss.
  { intros Hnone Hne He. destruct (exists_last (l := y :: k)) as (k' & z & Hk); [done|].
    rewrite Hk, app_assoc in He. apply app_inj_tail in He as [He <-]. destruct k' as [|w k'].
    { rewrite app_nil_r in He. done. }
    simplify_eq/=. destruct (resolve_prefix nodes root (l ++ [w]) k') as [r Hr]; [|congruence].
    rewrite <-app_assoc. simpl. by eexists. }
  destruct (decide (p = d)) as [->|Hpd].
  - assert (l = pre) as -> by by eapply resolve_inj. rewrite attach_at_d, Hdn. simpl. rewrite Hc.
    simpl. destruct (decide (y = x)) as [->|Hyx].
    + rewrite lookup_insert_eq, Hx. simpl. destruct k as [|z k]; [by rewrite decide_True|].
      rewrite decide_False by (intros He; by apply app_inv_head in He).
      cbn [resolve]. rewrite attach_at_q. simpl. by destruct Hm as [-> | ->].
    + rewrite lookup_insert_ne by done. destruct (c !! y) as [p'|] eqn:Hy; simpl.
      * rewrite (IH (pre ++ [y]) p'), <-app_assoc; [done|]. apply resolve_snoc. eauto 10.
      * rewrite decide_False; [done|]. intros He. apply app_inv_head in He. by simplify_eq.
  - assert (l ≠ pre) as Hlp by congruence.
    rewrite attach_at, Hpn by congruence. simpl.
    assert (resolve nodes root (l ++ [y]) = c ← n_Children pn; c !! y) as Hl.
    { rewrite resolve_app, Hp. simpl. rewrite Hpn. simpl. destruct (n_Children pn) as [pc|]; simpl; [|done].
      by destruct (pc !! y). }
    destruct (n_Children pn) as [pc|] eqn:Hpc; simpl in *; [|by rewrite decide_False by auto].
    destruct (pc !! y) as [p'|] eqn:Hy; simpl; [|by rewrite decide_False by auto].
    rewrite (IH (l ++ [y]) p'), <-app_assoc; done.
Qed.

Lemma attach_resolve k :
  resolve nodes' root k = if decide (k = pre ++ [x]) then Some q else resolve nodes root k.
Proof. by apply (attach_follow k [] root). Qed.

Lemma attach_shape :
  name_ok x → n_Parent m = Some d → n_Path m = pathOf (pre ++ [x]) → shape_ok nodes'.
Proof.
  intros Hok Hpar Hpath.
  assert (∀ p n, nodes !! p = Some n → ∃ n', nodes' !! p = Some n' ∧
    n_Parent n' = n_Parent n ∧ n_Path n' = n_Path n ∧ n_ExpireTime n' = n_ExpireTime n ∧
    (is_Some (n_Children n) → is_Some (n_Children n'))) as Hold.
  { intros p n Hp. destruct (decide (p = d)) as [->|Hpd].
    - rewrite attach_at_d. simplify_eq. eexists. split; [done|]. simpl. eauto.
    - rewrite attach_at by congruence. eauto 10. }
  split.
  - destruct (sh_root _ Hs) as (r & Hr & H1 & H2 & H3 & H4).
    destruct (Hold _ _ Hr) as (r' & Hr' & E1 & E2 & E3 & E4). exists r'.
    split_and!; auto; congruence.
  - intros names p pn pc y p' Hp Hpn Hpc Hy. rewrite attach_resolve in Hp. case_decide as Hk.
    { simplify_eq. destruct Hm as [He|He]; rewrite He in Hpc; simplify_eq. }
    assert (∀ c0 n0, nodes !! p = Some n0 → n_Children n0 = Some c0 → c0 !! y = Some p' →
      name_ok y ∧ ∃ m0, nodes' !! p' = Some m0 ∧ n_Parent m0 = Some p ∧
      n_Path m0 = pathOf (names ++ [y])) as Hgo.
    { intros c0 n0 Hn0 Hc0 Hy0.
      destruct (sh_child _ Hs names p n0 c0 y p' Hp Hn0 Hc0 Hy0) as (Hoky & m0 & Hm0 & E1 & E2).
      destruct (Hold _ _ Hm0) as (m1 & Hm1 & E3 & E4 & _). split; [done|].
      exists m1. split_and!; congruence. }
    destruct (decide (p = d)) as [->|Hpd].
    + assert (names = pre) as -> by by eapply resolve_inj.
      rewrite attach_at_d in Hpn. simplify_eq. simpl in Hpc. simplify_eq.
      apply lookup_insert_Some in Hy as [[<- <-]|[_ Hy]]; [eauto 10|eauto].
    + destruct (shape_at nodes names p Hs Hp) as (_ & n0 & Hn0 & _).
      rewrite attach_at in Hpn by congruence. eauto.
Qed.
End attach.

(** ** A child that is taken away *)
Section detach.
Context (nodes nodes' : gmap ptr node) (pre : list string) (x : string) (d p : ptr) (dn : node)
  (c : gmap string ptr) (Hs : shape_ok nodes)
  (Hd : resolve nodes root pre = Some d) (Hdn : nodes !! d = Some dn)
  (Hc : n_Children dn = Some c)
  (detach_at_d : nodes' !! d = Some (dn <| n_Children := Some (delete x c) |>))
  (detach_at : ∀ q, q ≠ d → nodes' !! q = nodes !! q).

Lemma detach_follow k l q :
  resolve nodes root l = Some q → ¬ (pre ++ [x]) `prefix_of` l →
  resolve nodes' q k = if decide ((pre ++ [x]) `prefix_of` (l ++ k)) then None else resolve nodes q k.
Proof.
  revert l q. induction k as [|y k IH]; intros l q Hq Hnp.
  { rewrite app_nil_r. by rewrite decide_False. }
  cbn [resolve]. destruct (shape_at nodes l q Hs Hq) as (_ & qn & Hqn & _).
  assert (∀ q', resolve nodes root (l ++ [y]) = Some q' → l ++ [y] ≠ pre ++ [x] →
    resolve nodes' q' k = if decide ((pre ++ [x]) `prefix_of` (l ++ y :: k)) then None
                          else resolve nodes q' k) as Hgo.
  { intros q' Hq' Hne. rewrite (IH (l ++ [y]) q'), <-app_assoc; [done|done|].
    intros Hp. apply prefix_snoc_inv in Hp as [Hp|Hp]; congruence. }
  destruct (decide (q = d)) as [->|Hqd].
  - assert (l = pre) as -> by by eapply resolve_inj. rewrite detach_at_d, Hdn. simpl.
    rewrite Hc. simpl. destruct (decide (y = x)) as [->|Hyx].
    + rewrite lookup_delete_eq. simpl. rewrite decide_True; [done|].
      apply prefix_app. by exists k.
    + rewrite lookup_delete_ne by done. destruct (c !! y) as [q'|] eqn:Hy; simpl; [|by case_decide].
      apply Hgo; [apply resolve_snoc; eauto 10|]. intros He. by apply app_inj_tail in He as [_ ?].
  - rewrite detach_at, Hqn by done. simpl.
    destruct (n_Children qn) as [qc|] eqn:Hqc; simpl; [|by case_decide].
    destruct (qc !! y) as [q'|] eqn:Hy; simpl; [|by case_decide].
    apply Hgo; [apply resolve_snoc; eauto 10|]. intros He. apply app_inj_tail in He as [-> _].
    congruence.
Qed.

Lemma detach_resolve k :
  resolve nodes' root k = if decide ((pre ++ [x]) `prefix_of` k) then None else resolve nodes root k.
Proof.
  apply (detach_follow k [] root); [done|]. intros Hp. apply prefix_nil_inv in Hp.
  by apply app_eq_nil in Hp as [_ ?].
Qed.

Lemma detach_shape : shape_ok nodes'.
Proof.
  assert (∀ p n, nodes !! p = Some n → ∃ n', nodes' !! p = Some n' ∧
    n_Parent n' = n_Parent n ∧ n_Path n' = n_Path n ∧ n_ExpireTime n' = n_ExpireTime n ∧
    (is_Some (n_Children n) → is_Some (n_Children n'))) as Hold.
  { intros q n Hq. destruct (decide (q = d)) as [->|Hqd].
    - rewrite detach_at_d. simplify_eq. eexists. split; [done|]. simpl. eauto.
    - rewrite detach_at by done. eauto 10. }
  split.
  - destruct (sh_root _ Hs) as (r & Hr & H1 & H2 & H3 & H4).
    destruct (Hold _ _ Hr) as (r' & Hr' & E1 & E2 & E3 & E4). exists r'.
    split_and!; auto; congruence.
  - intros names q qn qc y q' Hq Hqn Hqc Hy. rewrite detach_resolve in Hq.
    case_decide as Hk; [done|].
    assert (∃ n0 c0, nodes !! q = Some n0 ∧ n_Children n0 = Some c0 ∧ c0 !! y = Some q')
      as (n0 & c0 & Hn0 & Hc0 & Hy0).
    { destruct (decide (q = d)) as [->|Hqd].
      - rewrite detach_at_d in Hqn. simplify_eq. simpl in Hqc. simplify_eq.
        apply lookup_delete_Some in Hy as [_ Hy]. eauto.
      - rewrite detach_at in Hqn by done. eauto. }
    destruct (sh_child _ Hs names q n0 c0 y q' Hq Hn0 Hc0 Hy0) as (Hok & m0 & Hm0 & E1 & E2).
    destruct (Hold _ _ Hm0) as (m1 & Hm1 & E3 & E4 & _). split; [done|].
    exists m1. split_and!; congruence.
Qed.
End detach.
End shape.
