(* ===== verification/StoreRemove.v ===== *)
(** * StoreRemove: removing a node removes its subtree (src/store/node.go)

    [removed t t' D] says that [t'] is [t] without the subtrees at the paths [D], and that
    the heap has lost the nodes of these subtrees and no others.  nodeRemove calls its
    callback for every node that it removes. *)

From S2P Require Import Prelude.
From S2P Require Import Wire.
From S2P Require Import Paths TtlHeap EtcdError StoreEvent StoreNode StoreTree.

(** What a node holds besides the children of a directory. *)
Definition dataOf (n : node) : node * bool := (n <| n_Children := None |>, IsDir n).

Lemma dataOf_fields n n' :
  dataOf n = dataOf n' →
  n_Path n = n_Path n' ∧ n_CreatedIndex n = n_CreatedIndex n' ∧
  n_ModifiedIndex n = n_ModifiedIndex n' ∧ n_Parent n = n_Parent n' ∧
  n_ExpireTime n = n_ExpireTime n' ∧ n_ACL n = n_ACL n' ∧ n_Value n = n_Value n' ∧
  IsDir n = IsDir n'.
Proof. unfold dataOf. destruct n, n'. simpl. intros [=]. by subst. Qed.

Lemma expireOf_data nodes nodes' q :
  dataOf <$> nodes' !! q = dataOf <$> nodes !! q → expireOf nodes' q = expireOf nodes q.
Proof.
  unfold expireOf. intros He. destruct (nodes' !! q) as [n'|], (nodes !! q) as [n|]; simplify_eq/=; auto.
Qed.

Lemma heap_ok_ext key key' h : (∀ q, key q = key' q) → heap_ok key h → heap_ok key' h.
Proof.
  intros He [Hm Ho]. split; [done|]. intros k Hk a b Ha Hb. rewrite <-!He. by apply (Ho k Hk).
Qed.

Definition under (D : list (list string)) (k : list string) : Prop :=
  Exists (λ d, d `prefix_of` k) D.

Section removed.
Context (root : ptr).

Record removed (t t' : tree) (D : list (list string)) : Prop := {
  rm_resolve : ∀ k, resolve (t_nodes t') root k =
    if decide (under D k) then None else resolve (t_nodes t) root k;
  rm_data : ∀ q, dataOf <$> t_nodes t' !! q = dataOf <$> t_nodes t !! q;
  rm_shape : shape_ok root (t_nodes t');
  rm_heap : heap_ok (expiry t') (t_ttl t');
  rm_ttl : ∀ q, q ∈ h_array (t_ttl t') ↔
    q ∈ h_array (t_ttl t) ∧ ¬ ∃ k, under D k ∧ resolve (t_nodes t) root k = Some q;
}.

Lemma removed_nil t :
  shape_ok root (t_nodes t) → heap_ok (expiry t) (t_ttl t) → removed t t [].
Proof.
  intros Hs Hh. split; [|done..|].
  - intros k. by rewrite decide_False by by intros ?%Exists_nil.
  - intros q. split; [|by intros [? _]]. intros Hq. split; [done|]. intros (k & Hk & _).
    by apply Exists_nil in Hk.
Qed.

Lemma removed_trans t1 t2 t3 D D' :
  removed t1 t2 D → removed t2 t3 D' → removed t1 t3 (D ++ D').
Proof.
  intros [R1 A1 S1 H1 T1] [R2 A2 S2 H2 T2].
  assert (∀ k, under (D ++ D') k ↔ under D k ∨ under D' k) as Hu by (intros; apply Exists_app).
  split; [| |done|done|].
  - intros k. rewrite R2, R1. repeat case_decide; naive_solver.
  - intros q. by rewrite A2, A1.
  - intros q. rewrite T2, T1. setoid_rewrite Hu. setoid_rewrite R1. split.
    + intros [[Hq Hn1] Hn2]. split; [done|]. intros (k & [Hk|Hk] & Hr); [naive_solver|].
      apply Hn2. exists k. split; [done|]. rewrite decide_False; [done|]. naive_solver.
    + intros [Hq Hn]. split; [split; [done|naive_solver]|]. intros (k & Hk & Hr).
      case_decide; [done|]. naive_solver.
Qed.

Lemma removed_under t t' D D' :
  (∀ k, under D k ↔ under D' k) → removed t t' D → removed t t' D'.
Proof.
  intros Hu [R A S H T]. split; [|done..|].
  - intros k. rewrite R. specialize (Hu k). repeat case_decide; naive_solver.
  - intros q. rewrite T. by setoid_rewrite Hu.
Qed.

Lemma removed_expiry t t' D q : removed t t' D → expiry t' q = expiry t q.
Proof. intros [_ A _ _ _]. by apply expireOf_data. Qed.

(** Every node of the heap expires. *)
Definition ttl_nonzero (t : tree) : Prop := ∀ q, q ∈ h_array (t_ttl t) → expiry t q ≠ 0.

Lemma removed_nonzero t t' D : removed t t' D → ttl_nonzero t → ttl_nonzero t'.
Proof. intros R Hz q Hq. rewrite (removed_expiry _ _ _ _ R). apply Hz. by apply R in Hq as [? _]. Qed.

(** ** Taking a leaf away *)
Lemma detach_ok t pre x p n m :
  shape_ok root (t_nodes t) → resolve (t_nodes t) root (pre ++ [x]) = Some p →
  t_nodes t !! p = Some m → dataOf n = dataOf m →
  ∃ t', detach p n t = Ret (t', true) ∧ t_ttl t' = t_ttl t ∧ shape_ok root (t_nodes t') ∧
    n_Path n = pathOf (pre ++ [x]) ∧
    (∀ q, dataOf <$> t_nodes t' !! q = dataOf <$> t_nodes t !! q) ∧
    ∀ k, resolve (t_nodes t') root k =
      if decide ((pre ++ [x]) `prefix_of` k) then None else resolve (t_nodes t) root k.
Proof.
  intros Hs Hp Hm Hdata. destruct (shape_parent root _ _ _ _ Hs Hp)
    as (d & dn & c & m' & Hd & Hdn & Hc & Hx & Hm' & Hpar & Hpath & Hok & Hpre).
  rewrite Hm in Hm'. injection Hm' as <-.
  apply dataOf_fields in Hdata as (E1 & _ & _ & E2 & _). rewrite Hpath in E1. rewrite Hpar in E2.
  unfold detach, nodeAt, baseName. rewrite E2, Hdn. cbn [deref lift mbind run_bind].
  rewrite Hc, E1, Split_pathOf by done. cbn [snd]. rewrite bool_decide_true by done.
  eexists. split; [done|]. split; [done|]. cbn [t_nodes set set_t_nodes].
  split; [by eapply (detach_shape root _ _ pre x d dn c); [done..|apply lookup_insert_eq|
    intros; by apply lookup_insert_ne]|].
  split; [done|]. split.
  - intros q. rewrite lookup_insert. case_decide; [|done]. subst. rewrite Hdn. simpl.
    unfold dataOf, IsDir. simpl. by rewrite Hc.
  - intros k. by eapply (detach_resolve root _ _ pre x d dn c); [done..|apply lookup_insert_eq|
      intros; by apply lookup_insert_ne].
Qed.

Lemma ttlRemove_ok t p n :
  heap_ok (expiry t) (t_ttl t) → ttl_nonzero t → n_ExpireTime n = expiry t p →
  ∃ t', ttlRemove p n t = Ret t' ∧ t_nodes t' = t_nodes t ∧ heap_ok (expiry t') (t_ttl t') ∧
    ∀ q, q ∈ h_array (t_ttl t') ↔ q ∈ h_array (t_ttl t) ∧ q ≠ p.
Proof.
  intros Hh Hz He. unfold ttlRemove, IsPermanent. rewrite He.
  destruct (Z.eqb_spec (expiry t p) 0) as [H0|H0].
  - exists t. split_and!; [done..|]. intros q. split; [|by intros [? _]].
    intros Hq. split; [done|]. intros ->. by apply (Hz p).
  - destruct (remove_ok (expiry t) (expiry t) p (t_ttl t)) as (h & Hr & Hok & Hel); [apply Hh..|done|].
    rewrite Hr. eexists. split; [done|]. split_and!; [done..|]. intros q. cbn [t_ttl set set_t_ttl].
    case_decide as Hin.
    + pose proof (map_ok_NoDup _ (hk_map _ _ Hh)) as Hnd. rewrite Hel in Hnd |- *.
      apply NoDup_cons in Hnd as [Hnp _]. rewrite elem_of_cons. naive_solver.
    + subst. naive_solver.
Qed.

(** The part of nodeRemove after the children. *)
Lemma removeLeaf_ok t names p n m :
  shape_ok root (t_nodes t) → heap_ok (expiry t) (t_ttl t) → ttl_nonzero t → names ≠ [] →
  resolve (t_nodes t) root names = Some p → t_nodes t !! p = Some m → dataOf n = dataOf m →
  (∀ k, k ≠ [] → resolve (t_nodes t) root (names ++ k) = None) →
  ∃ t1 t2, detach p n t = Ret (t1, true) ∧ ttlRemove p n t1 = Ret t2 ∧
    n_Path n = pathOf names ∧ removed t t2 [names].
Proof.
  intros Hs Hh Hz Hne Hp Hm Hdata Hleaf.
  destruct (exists_last Hne) as (pre & x & ->).
  destruct (detach_ok t pre x p n m) as (t1 & Ht1 & Httl & Hs1 & Hpath & Hd1 & Hr1); [done..|].
  assert (∀ q, expiry t1 q = expiry t q) as Hexp by (intros; by apply expireOf_data).
  destruct (ttlRemove_ok t1 p n) as (t2 & Ht2 & Hn2 & Hh2 & Hel).
  { rewrite Httl. eapply heap_ok_ext; [|done]. intros q. by rewrite Hexp. }
  { intros q. rewrite Httl, Hexp. apply Hz. }
  { rewrite Hexp. unfold expireOf. rewrite Hm. by apply dataOf_fields in Hdata as (_ & _ & _ & _ & ? & _). }
  exists t1, t2. split_and!; [done..|].
  assert (∀ k, under [pre ++ [x]] k ↔ (pre ++ [x]) `prefix_of` k) as Hu.
  { intros k. unfold under. rewrite Exists_cons, Exists_nil. naive_solver. }
  split; [| |by rewrite Hn2|done|].
  - intros k. rewrite Hn2, Hr1. specialize (Hu k). repeat case_decide; naive_solver.
  - intros q. by rewrite Hn2, Hd1.
  - intros q. rewrite Hel, Httl. setoid_rewrite Hu. split; intros [Hq Hnot]; (split; [done|]).
    + intros (k & [z ->] & Hk). destruct z as [|y z].
      * rewrite app_nil_r in Hk. congruence.
      * rewrite Hleaf in Hk; done.
    + intros ->. apply Hnot. by exists (pre ++ [x]).
Qed.

(** ** The whole subtree *)
Section nodeRemove.
Context `{ChildRange} {W : Type} (callback : option (string → W → run W)) (I : W → Prop).
Hypothesis callback_total : ∀ path w, I w → ∃ w', call callback path w = Ret w' ∧ I w'.

(** The calls that were made, in order. *)
Definition called (paths : list string) (w w' : W) : Prop :=
  forEach (call callback) paths w = Ret w'.

Lemma called_app l l' w w' w'' : called l w w' → called l' w' w'' → called (l ++ l') w w''.
Proof.
  unfold called. revert w. induction l as [|a l IH]; intros w; simpl; [by intros [= ->]|].
  destruct (call callback a w) as [w1| |]; simpl; [|done..]. apply IH.
Qed.

(** The paths of the nodes under [D]. *)
Definition covers (t : tree) (D : list (list string)) (paths : list string) : Prop :=
  ∀ path, path ∈ paths ↔
    ∃ k, under D k ∧ is_Some (resolve (t_nodes t) root k) ∧ path = pathOf k.

Lemma covers_app t t' D D' l l' :
  removed t t' D → covers t D l → covers t' D' l' → covers t (D ++ D') (l ++ l').
Proof.
  intros R C C' path. rewrite elem_of_app, (C path), (C' path).
  assert (∀ k, under (D ++ D') k ↔ under D k ∨ under D' k) as Hu by (intros; apply Exists_app).
  setoid_rewrite Hu. setoid_rewrite (rm_resolve _ _ _ R). split.
  - intros [(k & Hk & Hs & ->)|(k & Hk & Hs & ->)]; exists k; [naive_solver|].
    case_decide; [by destruct Hs|naive_solver].
  - intros (k & Hk & Hs & ->). destruct (decide (under D k)) as [Hd|Hd]; [left; eauto|].
    right. exists k. rewrite decide_False by done. naive_solver.
Qed.

(** What nodeRemove does, with [fuel] levels. *)
Definition removes (cur : Z) (fuel : nat) : Prop := ∀ t w names p,
  shape_ok root (t_nodes t) → heap_ok (expiry t) (t_ttl t) → ttl_nonzero t → I w →
  resolve (t_nodes t) root names = Some p → names ≠ [] →
  (∀ k, is_Some (resolve (t_nodes t) root (names ++ k)) → (length k < fuel)%nat) →
  ∃ t' w' paths, nodeRemove callback cur fuel true true p (t, w) = Ret (None, (t', w')) ∧
    removed t t' [names] ∧ I w' ∧ called paths w w' ∧ covers t [names] paths.

Lemma under_single names k : under [names] k ↔ names `prefix_of` k.
Proof. unfold under. rewrite Exists_cons, Exists_nil. naive_solver. Qed.

Lemma prefix_sibling (names : list string) x y k :
  x ≠ y → ¬ (names ++ [x]) `prefix_of` (names ++ y :: k).
Proof. intros Hne Hp. apply prefix_app_inv in Hp. by apply prefix_cons_inv_1 in Hp. Qed.

Lemma removeChildren_ok cur fuel names cs t w :
  removes cur fuel → NoDup cs.*1 →
  shape_ok root (t_nodes t) → heap_ok (expiry t) (t_ttl t) → ttl_nonzero t → I w →
  (∀ x q, (x, q) ∈ cs → resolve (t_nodes t) root (names ++ [x]) = Some q) →
  (∀ k, is_Some (resolve (t_nodes t) root (names ++ k)) → (length k < S fuel)%nat) →
  ∃ t' w' paths,
    forEach (λ child s, r ← nodeRemove callback cur fuel true true child s; Ret r.2) cs.*2 (t, w)
      = Ret (t', w') ∧
    removed t t' ((λ x, names ++ [x]) <$> cs.*1) ∧ I w' ∧ called paths w w' ∧
    covers t ((λ x, names ++ [x]) <$> cs.*1) paths.
Proof.
  intros Hrem. revert t w. induction cs as [|[x q] cs IH]; intros t w Hnd Hs Hh Hz HI Hcs Hdepth.
  { exists t, w, []. split_and!; [done|by apply removed_nil|done|done|].
    intros path. rewrite elem_of_nil. split; [done|]. intros (k & Hk & _). by apply Exists_nil in Hk. }
  apply NoDup_cons in Hnd as [Hx Hnd].
  destruct (Hrem t w (names ++ [x]) q) as (t1 & w1 & l1 & E1 & R1 & I1 & C1 & V1); try done.
  { apply Hcs. left. }
  { intros Hnil. by apply app_eq_nil in Hnil as [_ ?]. }
  { intros k Hk. rewrite <-app_assoc in Hk. specialize (Hdepth _ Hk). simpl in Hdepth. lia. }
  assert (∀ y k, y ≠ x → resolve (t_nodes t1) root (names ++ y :: k) =
    resolve (t_nodes t) root (names ++ y :: k)) as Hsame.
  { intros y k Hy. rewrite (rm_resolve _ _ _ R1). rewrite decide_False; [done|].
    rewrite under_single. by apply prefix_sibling. }
  destruct (IH t1 w1) as (t2 & w2 & l2 & E2 & R2 & I2 & C2 & V2); try done.
  { apply R1. }
  { apply R1. }
  { by eapply removed_nonzero. }
  { intros y q' Hy. rewrite Hsame; [apply Hcs; by right|]. intros ->. apply Hx.
    by apply (list_elem_of_fmap_2 fst) in Hy. }
  { intros k Hk. apply Hdepth. rewrite (rm_resolve _ _ _ R1) in Hk. case_decide; [|done].
    by destruct Hk. }
  exists t2, w2, (l1 ++ l2). split_and!.
  - cbn [fmap list_fmap snd forEach]. rewrite E1. cbn [mbind run_bind snd]. exact E2.
  - cbn [fmap list_fmap fst]. by apply (removed_trans _ _ _ [_] _ R1).
  - done.
  - by eapply called_app.
  - cbn [fmap list_fmap fst]. by apply (covers_app _ _ [_] _ _ _ R1).
Qed.

(** A node and what is under it. *)
Lemma covers_leaf t names : Forall name_ok names → is_Some (resolve (t_nodes t) root names) →
  (∀ k, k ≠ [] → resolve (t_nodes t) root (names ++ k) = None) → covers t [names] [pathOf names].
Proof.
  intros Hok Hs Hleaf path. rewrite list_elem_of_singleton. setoid_rewrite under_single. split.
  - intros ->. by exists names.
  - intros (k & [z ->] & Hk & ->). destruct z as [|y z]; [by rewrite app_nil_r|].
    rewrite Hleaf in Hk by done. by destruct Hk.
Qed.

Lemma called_one path w : I w → ∃ w', call callback path w = Ret w' ∧ I w' ∧ called [path] w w'.
Proof.
  intros HI. destruct (callback_total path w HI) as (w' & Hw & HI').
  exists w'. split_and!; [done..|]. unfold called. simpl. by rewrite Hw.
Qed.

Lemma resolve_below nodes names p n y k :
  resolve nodes root names = Some p → nodes !! p = Some n →
  resolve nodes root (names ++ y :: k) = c ← n_Children n; q ← c !! y; resolve nodes q k.
Proof. intros Hp Hn. rewrite resolve_app, Hp. simpl. by rewrite Hn. Qed.

Lemma removeFile_ok cur fuel t w names p n dir recursive :
  shape_ok root (t_nodes t) → heap_ok (expiry t) (t_ttl t) → ttl_nonzero t → I w →
  resolve (t_nodes t) root names = Some p → names ≠ [] →
  t_nodes t !! p = Some n → n_Children n = None →
  ∃ t' w' paths, nodeRemove callback cur (S fuel) dir recursive p (t, w) = Ret (None, (t', w')) ∧
    removed t t' [names] ∧ I w' ∧ called paths w w' ∧ covers t [names] paths.
Proof.
  intros Hs Hh Hz HI Hp Hne Hn Hc.
  assert (∀ k, k ≠ [] → resolve (t_nodes t) root (names ++ k) = None) as Hleaf.
  { intros [|y k] Hk; [done|]. by rewrite (resolve_below _ _ _ _ _ _ Hp Hn), Hc. }
  destruct (shape_at root _ _ _ Hs Hp) as (Hnames & _).
  destruct (removeLeaf_ok t names p n n) as (t1 & t2 & E1 & E2 & Hpath & R); [done..|].
  destruct (called_one (n_Path n) w HI) as (w' & E3 & HI' & C).
  exists t2, w', [n_Path n]. cbn [nodeRemove]. unfold nodeAt. rewrite Hn.
  cbn [deref lift mbind run_bind]. rewrite Hc, E1. cbn [mbind run_bind]. rewrite E3.
  cbn [mbind run_bind]. rewrite E2. split_and!; [done..|].
  rewrite Hpath. apply covers_leaf; [done|by eexists|done].
Qed.

Lemma removes_all cur fuel : removes cur fuel.
Proof.
  induction fuel as [|fuel IH]; intros t w names p Hs Hh Hz HI Hp Hne Hdepth.
  { specialize (Hdepth []). rewrite app_nil_r in Hdepth. specialize (Hdepth ltac:(by eexists)). lia. }
  destruct (shape_at root _ _ _ Hs Hp) as (Hnames & n & Hn & Hpath & _).
  destruct (n_Children n) as [c|] eqn:Hc; [|by eapply removeFile_ok].
  destruct (removeChildren_ok cur fuel names (children c) t w)
    as (t1 & w1 & l1 & E1 & R1 & I1 & C1 & V1); try done.
  { rewrite children_perm. apply NoDup_fst_map_to_list. }
  { intros x q Hxq. rewrite children_perm, elem_of_map_to_list in Hxq.
    rewrite (resolve_below _ _ _ _ _ _ Hp Hn), Hc. simpl. by rewrite Hxq. }
  set (D := (λ x, names ++ [x]) <$> (children c).*1) in *.
  assert (∀ y k, is_Some (c !! y) → under D (names ++ y :: k)) as Hunder.
  { intros y k [q Hy]. apply Exists_exists. exists (names ++ [y]). split.
    - apply list_elem_of_fmap. exists y. split; [done|]. apply list_elem_of_fmap. exists (y, q).
      split; [done|]. by rewrite children_perm, elem_of_map_to_list.
    - apply prefix_app. by exists k. }
  assert (∀ k, under D k → names `prefix_of` k) as HD.
  { intros k Hk. apply Exists_exists in Hk as (d & Hd & Hpre). apply list_elem_of_fmap in Hd as (x & -> & _).
    by eapply prefix_app_l. }
  assert (resolve (t_nodes t1) root names = Some p) as Hp1.
  { rewrite (rm_resolve _ _ _ R1). rewrite decide_False; [done|]. intros Hk.
    apply Exists_exists in Hk as (d & Hd & Hpre). apply list_elem_of_fmap in Hd as (x & -> & _).
    by apply prefix_snoc_not in Hpre. }
  pose proof (rm_data _ _ _ R1 p) as Hd1. rewrite Hn in Hd1. simpl in Hd1.
  apply fmap_Some in Hd1 as (m1 & Hm1 & Hdata).
  destruct (removeLeaf_ok t1 names p n m1) as (t2 & t3 & E2 & E3 & _ & R2); try done; try apply R1.
  { by eapply removed_nonzero. }
  { intros [|y k] Hk; [done|]. rewrite (rm_resolve _ _ _ R1). case_decide as Hu; [done|].
    rewrite (resolve_below _ _ _ _ _ _ Hp Hn), Hc. simpl.
    destruct (c !! y) as [q|] eqn:Hy; [|done]. by destruct Hu; apply Hunder. }
  destruct (called_one (n_Path n) w1 I1) as (w2 & E4 & I2 & C2).
  exists t3, w2, (l1 ++ [n_Path n]). split_and!.
  - cbn [nodeRemove]. unfold nodeAt. rewrite Hn. cbn [deref lift mbind run_bind]. rewrite Hc.
    rewrite andb_false_r. cbn [negb]. rewrite E1. cbn [mbind run_bind]. rewrite E2.
    cbn [mbind run_bind]. rewrite E4. cbn [mbind run_bind]. by rewrite E3.
  - eapply removed_under; [|by eapply removed_trans]. intros k. unfold under.
    rewrite Exists_app. fold (under D k) (under [names] k). rewrite under_single. naive_solver.
  - done.
  - by eapply called_app.
  - intros path.
    assert (covers t1 [names] [pathOf names]) as V2.
    { apply covers_leaf; [done|by eexists|]. intros [|y k] Hk; [done|].
      rewrite (rm_resolve _ _ _ R1). case_decide as Hu; [done|].
      rewrite (resolve_below _ _ _ _ _ _ Hp Hn), Hc. simpl.
      destruct (c !! y) as [q|] eqn:Hy; [|done]. by destruct Hu; apply Hunder. }
    rewrite Hpath, (covers_app _ _ _ _ _ _ R1 V1 V2 path).
    assert (∀ k, under (D ++ [names]) k ↔ under [names] k) as Hu2.
    { intros k. unfold under at 1. rewrite Exists_app. fold (under D k) (under [names] k).
      rewrite under_single. naive_solver. }
    by setoid_rewrite Hu2.
Qed.
End nodeRemove.
End removed.
