(* ===== verification/StoreWalk.v ===== *)
(** * StoreWalk: finding and creating nodes (src/store/store.go)

    [view] reads a tree as a map from names to entries.  internalGet looks a path up in
    it; walk with checkDir adds the directories that are missing, and nothing else. *)

From Stdlib Require Import String.
From S2P Require Import Prelude.
From S2P Require Import Wire.
From S2P Require Import Paths TtlHeap EtcdError StoreEvent StoreNode StoreTree StoreRemove.
From S2P Require Import Stats WatcherHub Store.

(** ** The map of a tree *)
Record entry := mkEntry {
  v_value : option string;  (** [None] for a directory *)
  v_created : Z;
  v_modified : Z;
  v_expire : Z;
}.
Definition entryOf (n : node) : entry :=
  mkEntry (if IsDir n then None else Some (n_Value n)) (n_CreatedIndex n) (n_ModifiedIndex n)
    (n_ExpireTime n).
Definition view (t : tree) (root : ptr) (k : list string) : option entry :=
  p ← resolve (t_nodes t) root k; entryOf <$> t_nodes t !! p.

Lemma entryOf_data n n' : dataOf n = dataOf n' → entryOf n = entryOf n'.
Proof.
  intros He. pose proof (dataOf_fields n n' He) as (_ & E1 & E2 & _ & E3 & _ & E4 & E5).
  unfold entryOf. by rewrite E1, E2, E3, E4, E5.
Qed.

Lemma view_data t t' root k :
  resolve (t_nodes t') root k = resolve (t_nodes t) root k →
  (∀ q, dataOf <$> t_nodes t' !! q = dataOf <$> t_nodes t !! q) →
  view t' root k = view t root k.
Proof.
  intros Hr Hd. unfold view. rewrite Hr. destruct (resolve (t_nodes t) root k) as [p|]; simpl; [|done].
  specialize (Hd p). destruct (t_nodes t' !! p) as [n'|], (t_nodes t !! p) as [n|]; try done.
  simpl in *. f_equal. apply entryOf_data. congruence.
Qed.

Section tree.
Context (root : ptr) (t : tree) (Hs : shape_ok root (t_nodes t)).

Lemma view_resolve k p :
  resolve (t_nodes t) root k = Some p → ∃ n, t_nodes t !! p = Some n ∧ view t root k = Some (entryOf n).
Proof.
  intros Hp. destruct (shape_at root _ _ _ Hs Hp) as (_ & n & Hn & _).
  exists n. split; [done|]. unfold view. rewrite Hp. simpl. by rewrite Hn.
Qed.

Lemma view_Some k v :
  view t root k = Some v →
  ∃ p n, resolve (t_nodes t) root k = Some p ∧ t_nodes t !! p = Some n ∧ v = entryOf n ∧
    n_Path n = pathOf k ∧ Forall name_ok k.
Proof.
  unfold view. intros Hv. destruct (resolve _ root k) as [p|] eqn:Hp; [simpl in Hv|done].
  destruct (shape_at root _ _ _ Hs Hp) as (Hk & n & Hn & Hpath & _). rewrite Hn in Hv.
  simplify_eq/=. eauto 10.
Qed.

Lemma view_None k : view t root k = None ↔ resolve (t_nodes t) root k = None.
Proof.
  split.
  - intros Hv. destruct (resolve _ root k) as [p|] eqn:Hp; [|done].
    destruct (view_resolve k p Hp) as (n & _ & Hv'). congruence.
  - intros Hr. unfold view. by rewrite Hr.
Qed.

(** A directory has a table of children. *)
Lemma entry_dir n : v_value (entryOf n) = None ↔ is_Some (n_Children n).
Proof.
  unfold entryOf, IsDir. simpl. destruct (n_Children n); simpl; [split; [by eexists|done]|].
  split; [done|by intros []].
Qed.
End tree.

(** ** internalGet *)

(** The names before the first one that cannot be passed. *)
Definition notFound (cur : Z) (k : list string) : Error :=
  NewError EcodeKeyNotFound (pathOf k) cur.
Definition notDir (cur : Z) (k : list string) : Error :=
  NewError EcodeNotDir (pathOf k) cur.

(** What a lookup of [pre ++ names] gives, when [pre] is there: the first of the names that
    is missing, or has a file above it, decides. *)
Fixpoint lookupSpec (cur : Z) (v : list string → option entry) (pre names : list string)
  : option Error :=
  match names with
  | [] => None
  | x :: names =>
      match v pre with
      | Some (mkEntry (Some _) _ _ _) => Some (notDir cur pre)
      | _ =>
          match v (pre ++ [x]) with
          | None => Some (notFound cur (pre ++ [x]))
          | Some _ => lookupSpec cur v (pre ++ [x]) names
          end
      end
  end.

Lemma getChild_at cur t p n x :
  t_nodes t !! p = Some n →
  getChild cur p x t =
  Ret (t, match n_Children n with
          | None => inl (NewError EcodeNotDir (n_Path n) cur)
          | Some c => match c !! x with
                      | Some child => inr child
                      | None => inl (NewError EcodeKeyNotFound (Join (n_Path n) x) cur)
                      end
          end).
Proof. intros Hn. unfold getChild, nodeAt. rewrite Hn. simpl. by repeat case_match. Qed.

Lemma getWalk_ok root t cur pre names p :
  shape_ok root (t_nodes t) → resolve (t_nodes t) root pre = Some p → Forall name_ok names →
  walkLoop (getChild cur) names p t =
  Ret (t, match lookupSpec cur (view t root) pre names with
          | Some err => inl err
          | None => match resolve (t_nodes t) root (pre ++ names) with
                    | Some q => inr q | None => inr p end
          end) ∧
  (lookupSpec cur (view t root) pre names = None →
    is_Some (resolve (t_nodes t) root (pre ++ names))).
Proof.
  intros Hs. revert pre p. induction names as [|x names IH]; intros pre p Hp Hok.
  { rewrite app_nil_r. simpl. rewrite Hp. split; [done|by eexists]. }
  apply Forall_cons in Hok as [Hx Hok]. cbn [walkLoop lookupSpec].
  rewrite decide_False by apply Hx.
  destruct (view_resolve root t Hs pre p Hp) as (n & Hn & Hv).
  rewrite (getChild_at _ _ _ _ _ Hn), Hv. cbn [mbind run_bind]. unfold entryOf, IsDir.
  destruct (shape_at root _ _ _ Hs Hp) as (Hpre & n' & Hn' & Hpath & _). simplify_eq.
  destruct (n_Children n) as [c|] eqn:Hc.
  - assert (resolve (t_nodes t) root (pre ++ [x]) = c !! x) as Hr.
    { rewrite resolve_app, Hp. simpl. rewrite Hn. simpl. rewrite Hc. simpl. by destruct (c !! x). }
    destruct (c !! x) as [q|] eqn:Hq.
    + destruct (view_resolve root t Hs (pre ++ [x]) q Hr) as (m & Hm & Hvm). rewrite Hvm.
      cbn [mbind run_bind]. destruct (IH (pre ++ [x]) q Hr Hok) as [E1 E2].
      rewrite <-app_assoc in E1, E2. change ([x] ++ names) with (x :: names) in E1, E2.
      split; [|done]. rewrite E1.
      destruct (lookupSpec _ _ _ _); [done|]. by destruct (E2 eq_refl) as [? ->].
    + assert (view t root (pre ++ [x]) = None) as -> by by apply view_None.
      cbn [mbind run_bind]. by rewrite Hpath, Join_child.
  - cbn [mbind run_bind]. unfold notDir. rewrite Hpath. done.
Qed.

(** internalGet in terms of the map. *)
Lemma internalGet_ok s path :
  shape_ok (s_Root s) (t_nodes (s_tree s)) →
  internalGet path s =
  Ret (match lookupSpec (s_CurrentIndex s) (view (s_tree s) (s_Root s)) [] (parts path) with
       | Some err => inl err
       | None => match resolve (t_nodes (s_tree s)) (s_Root s) (parts path) with
                 | Some q => inr q | None => inr (s_Root s) end
       end) ∧
  (lookupSpec (s_CurrentIndex s) (view (s_tree s) (s_Root s)) [] (parts path) = None →
    is_Some (resolve (t_nodes (s_tree s)) (s_Root s) (parts path))).
Proof.
  intros Hs. unfold internalGet, walk. rewrite Clean_Join.
  pose proof (parts_ok path) as Hok. set (names := parts path) in *.
  destruct names as [|x names].
  { simpl. split; [done|by eexists]. }
  rewrite split_pathOf by done. cbn [tail].
  destruct (getWalk_ok (s_Root s) (s_tree s) (s_CurrentIndex s) [] (x :: names) (s_Root s))
    as [E1 E2]; [done..|]. rewrite E1. done.
Qed.

(** What is there is found. *)
Lemma lookupSpec_found root t cur pre names :
  shape_ok root (t_nodes t) → is_Some (resolve (t_nodes t) root (pre ++ names)) →
  lookupSpec cur (view t root) pre names = None.
Proof.
  intros Hs. revert pre. induction names as [|x names IH]; intros pre Hr; [done|]. cbn [lookupSpec].
  replace (pre ++ x :: names) with ((pre ++ [x]) ++ names) in Hr by by rewrite <-app_assoc.
  destruct (resolve_prefix _ _ _ _ Hr) as [q Hq].
  pose proof Hq as (d & dn & c & Hd & Hdn & Hc & _)%resolve_snoc.
  destruct (view_resolve root t Hs _ _ Hq) as (m & _ & ->).
  destruct (view_resolve root t Hs _ _ Hd) as (n & Hn & ->). simplify_eq.
  unfold entryOf, IsDir. rewrite Hc. by apply IH.
Qed.

(** ** A new node under a directory *)
Record added (root : ptr) (t t' : tree) (names : list string) (p : ptr) (m : node) : Prop := {
  ad_shape : shape_ok root (t_nodes t');
  ad_ttl : t_ttl t' = t_ttl t;
  ad_fresh : t_nodes t !! p = None;
  ad_node : t_nodes t' !! p = Some m;
  ad_resolve : ∀ k, resolve (t_nodes t') root k =
    if decide (k = names) then Some p else resolve (t_nodes t) root k;
  ad_data : ∀ q n, t_nodes t !! q = Some n → dataOf <$> t_nodes t' !! q = Some (dataOf n);
  ad_expiry : ∀ q, expiry t' q = if decide (q = p) then n_ExpireTime m else expiry t q;
}.

Lemma attach_added root t pre x d dn c q m :
  shape_ok root (t_nodes t) → resolve (t_nodes t) root pre = Some d → t_nodes t !! d = Some dn →
  n_Children dn = Some c → c !! x = None → t_nodes t !! q = None → name_ok x →
  n_Path m = pathOf (pre ++ [x]) → n_Parent m = Some d →
  (n_Children m = None ∨ n_Children m = Some ∅) →
  added root t (t <| t_nodes := <[d := dn <| n_Children := Some (<[x := q]> c) |>]>
                     (<[q := m]> (t_nodes t)) |>) (pre ++ [x]) q m.
Proof.
  intros Hs Hd Hdn Hc Hx Hq Hok Hpath Hpar Hm. set (t' := set t_nodes _ _).
  assert (d ≠ q) as Hdq by congruence.
  assert (t_nodes t' !! d = Some (dn <| n_Children := Some (<[x := q]> c) |>)) as L1
    by apply lookup_insert_eq.
  assert (t_nodes t' !! q = Some m) as L2
    by (unfold t'; simpl; rewrite lookup_insert_ne by done; apply lookup_insert_eq).
  assert (∀ p, p ≠ d → p ≠ q → t_nodes t' !! p = t_nodes t !! p) as L3
    by (intros; unfold t'; simpl; by rewrite !lookup_insert_ne).
  assert (t_ttl t' = t_ttl t) as L4 by done. clearbody t'.
  assert (∀ p n, t_nodes t !! p = Some n → dataOf <$> t_nodes t' !! p = Some (dataOf n)) as Hdata.
  { intros p n Hp. destruct (decide (p = d)) as [->|Hpd].
    - rewrite L1. simplify_eq. simpl. unfold dataOf, IsDir. simpl. by rewrite Hc.
    - rewrite L3, Hp by congruence. done. }
  split; try done.
  - by eapply (attach_shape root _ _ pre x d q dn m).
  - intros k. by eapply (attach_resolve root _ _ pre x d q dn m).
  - intros p. unfold expireOf. case_decide as Hp; [subst; by rewrite L2|].
    destruct (t_nodes t !! p) as [n|] eqn:Hn.
    + specialize (Hdata p n Hn). apply fmap_Some in Hdata as (n' & Hn' & He).
      rewrite Hn'. by apply dataOf_fields in He as (_ & _ & _ & _ & ? & _).
    + by rewrite L3, Hn by congruence.
Qed.

Lemma view_added root t t' names p m :
  shape_ok root (t_nodes t) → added root t t' names p m →
  ∀ k, view t' root k = if decide (k = names) then Some (entryOf m) else view t root k.
Proof.
  intros Hs [A1 A2 A3 A4 A5 A6 A7] k. unfold view. rewrite A5. case_decide as Hk.
  - simpl. by rewrite A4.
  - destruct (resolve (t_nodes t) root k) as [q|] eqn:Hq; simpl; [|done].
    destruct (shape_at root _ _ _ Hs Hq) as (_ & n & Hn & _). rewrite Hn.
    specialize (A6 q n Hn). apply fmap_Some in A6 as (n' & Hn' & He). rewrite Hn'. simpl.
    by rewrite (entryOf_data n' n).
Qed.

(** ** Creating directories *)
Definition dirEntry (i : Z) : entry := mkEntry None i i 0.

Section grown.
Context (root : ptr) (i : Z).

(** [t'] is [t] with the directories on the way to [l] that were missing. *)
Record grown (t t' : tree) (l : list string) : Prop := {
  gr_shape : shape_ok root (t_nodes t');
  gr_ttl : t_ttl t' = t_ttl t;
  gr_keep : ∀ k p, resolve (t_nodes t) root k = Some p → resolve (t_nodes t') root k = Some p;
  gr_new : ∀ k p, resolve (t_nodes t') root k = Some p →
    resolve (t_nodes t) root k = Some p ∨ expiry t' p = 0;
  gr_data : ∀ p n, t_nodes t !! p = Some n →
    dataOf <$> t_nodes t' !! p = Some (dataOf n);
  gr_expiry : ∀ p, expiry t' p = expiry t p;
  gr_view : ∀ k, view t' root k =
    match view t root k with
    | Some v => Some v
    | None => if decide (k `prefix_of` l) then Some (dirEntry i) else None
    end;
}.

Lemma grown_refl t l :
  shape_ok root (t_nodes t) → is_Some (resolve (t_nodes t) root l) → grown t t l.
Proof.
  intros Hs Hl. split; auto.
  - by intros p n ->.
  - intros k. destruct (view t root k) eqn:Hv; [done|]. rewrite decide_False; [done|].
    intros [z ->]. apply resolve_prefix in Hl as [p Hp].
    destruct (view_resolve root t Hs k p Hp) as (n & _ & ?). congruence.
Qed.

Lemma grown_trans t1 t2 t3 l1 l2 :
  l1 `prefix_of` l2 → grown t1 t2 l1 → grown t2 t3 l2 → grown t1 t3 l2.
Proof.
  intros Hl [A1 A2 A3 A4 A5 A6 A7] [B1 B2 B3 B4 B5 B6 B7]. split; [done|congruence|auto|..].
  - intros k p Hp. destruct (B4 k p Hp) as [Hp2|]; [|auto].
    destruct (A4 k p Hp2) as [|Hz]; [auto|]. right. by rewrite B6.
  - intros p n Hn. specialize (A5 p n Hn). destruct (t_nodes t2 !! p) as [n2|] eqn:H2; [|done].
    rewrite (B5 p n2 H2). done.
  - intros p. by rewrite B6, A6.
  - intros k. rewrite B7, A7. destruct (view t1 root k); [done|].
    destruct (decide (k `prefix_of` l1)) as [Hk|Hk]; [|done].
    rewrite decide_True; [done|]. by trans l1.
Qed.

(** One new directory. *)
Lemma grown_attach t pre x d dn c q :
  shape_ok root (t_nodes t) → resolve (t_nodes t) root pre = Some d → t_nodes t !! d = Some dn →
  n_Children dn = Some c → c !! x = None → t_nodes t !! q = None → name_ok x →
  Forall name_ok pre →
  grown t (t <| t_nodes := <[d := dn <| n_Children := Some (<[x := q]> c) |>]>
                 (<[q := newDir (pathOf (pre ++ [x])) i (Some d) (n_ACL dn) Permanent]> (t_nodes t)) |>)
    (pre ++ [x]).
Proof.
  intros Hs Hd Hdn Hc Hx Hq Hok Hpre. set (m := newDir _ _ _ _ _).
  assert (resolve (t_nodes t) root (pre ++ [x]) = None) as Hnone.
  { rewrite resolve_app, Hd. simpl. rewrite Hdn. simpl. rewrite Hc. simpl. by rewrite Hx. }
  assert (added root t (t <| t_nodes := <[d := dn <| n_Children := Some (<[x := q]> c) |>]>
    (<[q := m]> (t_nodes t)) |>) (pre ++ [x]) q m) as A by (eapply attach_added; eauto).
  pose proof (view_added _ _ _ _ _ _ Hs A) as Hv. revert A Hv. generalize (set t_nodes).
  intros st [A1 A2 A3 A4 A5 A6 A7] Hv. split; [done|done|..|done| |].
  - intros k p Hp. rewrite A5, decide_False; [done|]. intros ->. congruence.
  - intros k p Hp. rewrite A5 in Hp. case_decide; [|auto]. injection Hp as <-. right.
    by rewrite A7, decide_True.
  - intros p. rewrite A7. case_decide; [subst|done]. unfold expireOf. by rewrite Hq.
  - intros k. rewrite Hv. case_decide as Hk.
    + subst. unfold view. rewrite Hnone. simpl. by rewrite decide_True.
    + destruct (view t root k) eqn:Hp; [done|]. rewrite decide_False; [done|]. intros Hpre'.
      apply prefix_snoc_inv in Hpre' as [->|[z Hz]]; [done|]. apply view_None in Hp; [|done].
      rewrite Hz in Hd. destruct (resolve_prefix (t_nodes t) root k z) as [? ?]; [by eexists|congruence].
Qed.
End grown.

(** The first name on the way that is a file. *)
Fixpoint dirError (cur : Z) (v : list string → option entry) (pre names : list string)
  : option Error :=
  match names with
  | [] => None
  | x :: names =>
      match v (pre ++ [x]) with
      | Some (mkEntry (Some _) _ _ _) => Some (notDir cur (pre ++ [x]))
      | Some _ => dirError cur v (pre ++ [x]) names
      | None => None
      end
  end.

Lemma checkDir_old cur t d dn c x q m :
  t_nodes t !! d = Some dn → n_Children dn = Some c → c !! x = Some q → t_nodes t !! q = Some m →
  checkDir cur d x t =
  Ret (t, if IsDir m then inr q else inl (NewError EcodeNotDir (n_Path m) cur)).
Proof.
  intros Hd Hc Hq Hm. unfold checkDir, nodeAt. rewrite Hd. simpl. rewrite Hc. simpl. rewrite Hq, Hm.
  simpl. by destruct (IsDir m).
Qed.

Lemma checkDir_new cur t d dn c x :
  t_nodes t !! d = Some dn → n_Children dn = Some c → c !! x = None →
  checkDir cur d x t =
  let q := fresh (dom (t_nodes t)) in
  Ret (t <| t_nodes := <[d := dn <| n_Children := Some (<[x := q]> c) |>]>
             (<[q := newDir (Join (n_Path dn) x) (uint64 (cur + 1)) (Some d) (n_ACL dn) Permanent]>
               (t_nodes t)) |>, inr q).
Proof.
  intros Hd Hc Hq. unfold checkDir, nodeAt. rewrite Hd. simpl. rewrite Hc. simpl. by rewrite Hq.
Qed.

Lemma dirWalk_ok root cur t pre names d dn c :
  shape_ok root (t_nodes t) → resolve (t_nodes t) root pre = Some d → t_nodes t !! d = Some dn →
  n_Children dn = Some c → Forall name_ok names →
  match dirError cur (view t root) pre names with
  | Some err => walkLoop (checkDir cur) (names ++ [EmptyString]) d t = Ret (t, inl err)
  | None => ∃ t' q n c, walkLoop (checkDir cur) (names ++ [EmptyString]) d t = Ret (t', inr q) ∧
      grown root (uint64 (cur + 1)) t t' (pre ++ names) ∧
      resolve (t_nodes t') root (pre ++ names) = Some q ∧ t_nodes t' !! q = Some n ∧
      n_Children n = Some c
  end.
Proof.
  revert t pre d dn c. induction names as [|x names IH]; intros t pre d dn c Hs Hd Hdn Hc Hok.
  { simpl. rewrite app_nil_r. exists t, d, dn, c. split_and!; [done| |done..].
    apply grown_refl; [done|by eexists]. }
  apply Forall_cons in Hok as [Hx Hok]. cbn [dirError].
  destruct (shape_at root _ _ _ Hs Hd) as (Hpre & dn' & Hdn' & Hpath & _). simplify_eq.
  assert (resolve (t_nodes t) root (pre ++ [x]) = c !! x) as Hr.
  { rewrite resolve_app, Hd. simpl. rewrite Hdn. simpl. rewrite Hc. simpl. by destruct (c !! x). }
  replace (pre ++ x :: names) with ((pre ++ [x]) ++ names) by (by rewrite <-app_assoc).
  change ((x :: names) ++ [EmptyString]) with (x :: names ++ [EmptyString]). cbn [walkLoop].
  rewrite decide_False by apply Hx.
  destruct (c !! x) as [q|] eqn:Hq.
  - destruct (sh_child _ _ Hs pre d dn c x q Hd Hdn Hc Hq) as (_ & m & Hm & _ & Hmp).
    rewrite (checkDir_old cur t d dn c x q m Hdn Hc Hq Hm). cbn [mbind run_bind].
    assert (view t root (pre ++ [x]) = Some (entryOf m)) as ->.
    { unfold view. rewrite Hr. simpl. by rewrite Hm. }
    unfold entryOf, IsDir. destruct (n_Children m) as [mc|] eqn:Hmc.
    + by apply (IH t (pre ++ [x]) q m mc).
    + by rewrite Hmp.
  - assert (view t root (pre ++ [x]) = None) as -> by by apply view_None.
    rewrite (checkDir_new cur t d dn c x Hdn Hc Hq), Hpath, Join_child by done.
    cbn [mbind run_bind]. set (q := fresh (dom (t_nodes t))).
    assert (t_nodes t !! q = None) as Hqn by apply not_elem_of_dom, is_fresh.
    pose proof (grown_attach root (uint64 (cur + 1)) t pre x d dn c q Hs Hd Hdn Hc Hq Hqn Hx Hpre) as G.
    set (t1 := set t_nodes _ _) in *.
    assert (t_nodes t1 !! q = Some (newDir (pathOf (pre ++ [x])) (uint64 (cur + 1)) (Some d)
      (n_ACL dn) Permanent)) as Hq1.
    { unfold t1. simpl. rewrite lookup_insert_ne by congruence. apply lookup_insert_eq. }
    assert (resolve (t_nodes t1) root (pre ++ [x]) = Some q) as Hrq.
    { apply resolve_snoc. eexists d, _, _. split_and!; [by apply G|unfold t1; simpl;
        apply lookup_insert_eq|done|]. apply lookup_insert_eq. }
    clearbody t1.
    pose proof (IH t1 (pre ++ [x]) q _ ∅ (gr_shape _ _ _ _ _ G) Hrq Hq1 eq_refl Hok) as Hgo.
    assert (dirError cur (view t1 root) (pre ++ [x]) names = None) as Hnone.
    { destruct names as [|y names]; [done|]. simpl.
      assert (view t1 root ((pre ++ [x]) ++ [y]) = None) as ->; [|done].
      apply view_None; [apply G|]. rewrite resolve_app, Hrq. simpl. by rewrite Hq1. }
    rewrite Hnone in Hgo. destruct Hgo as (t' & r & n & c' & E & G' & R & N & C).
    exists t', r, n, c'. split_and!; try done. eapply grown_trans; [|done..]. by exists names.
Qed.
