(* ===== verification/StoreCreate.v ===== *)
(** * StoreCreate: internalCreate against its specification (src/store/store.go)

    [createSpec] says what creating a path does to the map of the tree: an error, or the
    new entry together with the directories on the way.  internalCreate implements it and
    keeps the invariant [tree_ok]. *)

From stdpp Require Import pretty.
From Stdlib Require Import String.
From S2P Require Import Prelude.
From S2P Require Import Wire.
From S2P Require Import Paths TtlHeap EtcdError StoreEvent StoreNode StoreTree StoreRemove.
From S2P Require Import Stats WatcherHub Store StoreWalk.

(** ** The invariant of a tree
    The heap holds the nodes of the tree that expire. *)
Record tree_ok (root : ptr) (t : tree) : Prop := {
  tk_shape : shape_ok root (t_nodes t);
  tk_heap : heap_ok (expiry t) (t_ttl t);
  tk_ttl : ∀ p, p ∈ h_array (t_ttl t) ↔
    expiry t p ≠ 0 ∧ ∃ k, resolve (t_nodes t) root k = Some p;
}.

Lemma tree_ok_nonzero root t : tree_ok root t → ttl_nonzero t.
Proof. intros [_ _ Ht] q Hq. by apply Ht in Hq as [? _]. Qed.

Lemma tree_ok_grown root i t t' l : tree_ok root t → grown root i t t' l → tree_ok root t'.
Proof.
  intros [Hs Hh Ht] [G1 G2 G3 G4 G5 G6 G7]. split; [done|..].
  - rewrite G2. eapply heap_ok_ext; [|done]. intros q. by rewrite G6.
  - intros p. rewrite G2, Ht, G6. split; intros [Hz [k Hk]]; (split; [done|]); exists k; auto.
    destruct (G4 k p Hk) as [|He]; [done|]. by rewrite G6 in He.
Qed.

Lemma tree_ok_removed root t t' D : tree_ok root t → removed root t t' D → tree_ok root t'.
Proof.
  intros [Hs Hh Ht] R. split; [apply R|apply R|]. intros p.
  rewrite (rm_ttl _ _ _ _ R), Ht, (removed_expiry _ _ _ _ _ R).
  setoid_rewrite (rm_resolve _ _ _ _ R). split.
  - intros [[Hz [k Hk]] Hn]. split; [done|]. exists k. rewrite decide_False; [done|]. naive_solver.
  - intros [Hz [k Hk]]. case_decide as Hu; [done|]. split; [eauto|]. intros (k' & Hu' & Hk').
    assert (k = k') as <- by by eapply resolve_inj. done.
Qed.

Lemma view_removed root t t' names :
  removed root t t' [names] →
  ∀ k, view t' root k = if decide (names `prefix_of` k) then None else view t root k.
Proof.
  intros R k. assert (resolve (t_nodes t') root k =
    if decide (names `prefix_of` k) then None else resolve (t_nodes t) root k) as Hr.
  { rewrite (rm_resolve _ _ _ _ R). by rewrite (decide_ext _ _ _ _ (under_single names k)). }
  case_decide; [unfold view; by rewrite Hr|]. by apply view_data; [|apply R].
Qed.

(** ** A new node *)
Lemma addNode_ok root cur t pre x d dn c m :
  shape_ok root (t_nodes t) → resolve (t_nodes t) root pre = Some d → t_nodes t !! d = Some dn →
  n_Children dn = Some c → c !! x = None → Forall name_ok pre → name_ok x →
  n_Path m = pathOf (pre ++ [x]) → n_Parent m = Some d →
  (n_Children m = None ∨ n_Children m = Some ∅) →
  let '(t1, p) := alloc m t in
  ∃ t', Add cur d p t1 = Ret (None, t') ∧ added root t t' (pre ++ [x]) p m.
Proof.
  intros Hs Hd Hdn Hc Hx Hpre Hok Hpath Hpar Hm. unfold alloc.
  assert (t_nodes t !! fresh (dom (t_nodes t)) = None) as Hp by apply not_elem_of_dom, is_fresh.
  revert Hp. generalize (fresh (dom (t_nodes t))). intros p Hp.
  assert (d ≠ p) as Hdp by congruence.
  unfold Add, nodeAt. simpl. rewrite (lookup_insert_ne _ p d) by done. rewrite Hdn. simpl. rewrite Hc.
  rewrite lookup_insert_eq. simpl. unfold baseName. rewrite Hpath.
  rewrite Split_pathOf by done. simpl. rewrite Hx.
  eexists. split; [done|]. by apply (attach_added root t pre x d dn c p m).
Qed.

(** The new node enters the heap when it expires. *)
Definition pushNew (p : ptr) (m : node) (t : tree) : tree :=
  if IsPermanent m then t else t <| t_ttl ::= push (expiry t) p |>.

Lemma tree_ok_added root t t' names p m :
  tree_ok root t → added root t t' names p m →
  resolve (t_nodes t) root names = None → tree_ok root (pushNew p m t').
Proof.
  intros [Hs Hh Ht] [A1 A2 A3 A4 A5 A6 A7] Hnone.
  assert (p ∉ h_array (t_ttl t)) as Hp.
  { intros Hin. apply Ht in Hin as [Hz _]. unfold expireOf in Hz. by rewrite A3 in Hz. }
  assert (heap_ok (expiry t') (t_ttl t')) as Hh'.
  { rewrite A2. destruct Hh as [Hm Ho]. split; [done|]. intros k Hk a b Ha Hb.
    rewrite !A7, !decide_False; [by apply (Ho k Hk)|..]; intros ->; apply Hp;
      by eapply list_elem_of_lookup_2. }
  assert (∀ q, q ∈ h_array (t_ttl t) ∨ (q = p ∧ n_ExpireTime m ≠ 0) ↔
    expiry t' q ≠ 0 ∧ ∃ k, resolve (t_nodes t') root k = Some q) as Hlive.
  { intros q. rewrite A7. split.
    - intros [Hq|[-> Hz]].
      + rewrite decide_False by by intros ->. apply Ht in Hq as [Hz [k Hk]]. split; [done|].
        exists k. rewrite A5, decide_False; [done|]. intros ->. congruence.
      + rewrite decide_True by done. split; [done|]. exists names. by rewrite A5, decide_True.
    - intros [Hz [k Hk]]. rewrite A5 in Hk. destruct (decide (q = p)) as [->|Hqp]; [by right|].
      left. apply Ht. split; [done|]. exists k. case_decide; [by simplify_eq|done]. }
  unfold pushNew, IsPermanent. destruct (Z.eqb_spec (n_ExpireTime m) 0) as [Hz|Hz].
  - split; [done..|]. intros q. rewrite A2, <-Hlive. naive_solver.
  - destruct (push_ok (expiry t') p (t_ttl t') Hh') as [Hok Hperm]; [by rewrite A2|].
    split; [done|done|]. intros q. cbn [t_ttl set set_t_ttl t_nodes].
    rewrite Hperm, elem_of_cons, <-Hlive, A2. naive_solver.
Qed.

Lemma pushNew_nodes p m t : t_nodes (pushNew p m t) = t_nodes t.
Proof. unfold pushNew. by destruct (IsPermanent m). Qed.

(** The steps of internalCreate that make the node, under the directory at [d]. *)
Lemma newNode_ok root cur t pre x d dn c m :
  tree_ok root t → resolve (t_nodes t) root pre = Some d → t_nodes t !! d = Some dn →
  n_Children dn = Some c → c !! x = None → name_ok x →
  n_Path m = pathOf (pre ++ [x]) → n_Parent m = Some d →
  (n_Children m = None ∨ n_Children m = Some ∅) →
  ∃ t1 p t2, alloc m t = (t1, p) ∧ Add cur d p t1 = Ret (None, t2) ∧
    tree_ok root (pushNew p m t2) ∧
    resolve (t_nodes (pushNew p m t2)) root (pre ++ [x]) = Some p ∧
    (∀ q n, t_nodes t !! q = Some n →
      dataOf <$> t_nodes (pushNew p m t2) !! q = Some (dataOf n)) ∧
    ∀ k, view (pushNew p m t2) root k =
      if decide (k = pre ++ [x]) then Some (entryOf m) else view t root k.
Proof.
  intros Hok Hd Hdn Hc Hx Hname Hpath Hpar Hm. pose proof (tk_shape _ _ Hok) as Hs.
  destruct (shape_at root _ _ _ Hs Hd) as (Hpre & _).
  pose proof (addNode_ok root cur t pre x d dn c m Hs Hd Hdn Hc Hx Hpre Hname Hpath Hpar Hm) as A.
  destruct (alloc m t) as [t1 p] eqn:Halloc. destruct A as (t2 & HA & A).
  exists t1, p, t2. split_and!; [done..| | | |].
  - eapply tree_ok_added; [done..|]. rewrite resolve_app, Hd. simpl. rewrite Hdn. simpl.
    rewrite Hc. simpl. by rewrite Hx.
  - rewrite pushNew_nodes, (ad_resolve _ _ _ _ _ _ A). by rewrite decide_True.
  - rewrite pushNew_nodes. apply A.
  - intros k. unfold view at 1. rewrite pushNew_nodes. by eapply view_added.
Qed.

(** ** internalCreate *)

(** The names under which internalCreate makes a node. *)
Definition createNames (cur : Z) (nodePath : string) (unique : bool) : list string :=
  parts (if unique then (nodePath ++ "/" ++ pretty (uint64 (cur + 1)))%string else nodePath).

(** The map with the entry [new] at [names], and directories on the way. *)
Definition place (i : Z) (names : list string) (new : entry) (v : list string → option entry)
    (k : list string) : option entry :=
  if decide (k = names) then Some new
  else match v k with
       | Some e => Some e
       | None => if decide (k `prefix_of` names) then Some (dirEntry i) else None
       end.

Definition newEntry (i : Z) (dir : bool) (value : string) (expireTime : Z) : entry :=
  mkEntry (if dir then None else Some value) i i
    (if expireTime <? minExpireTime then Permanent else expireTime).

(** A directory is not replaced, and a node that is not to be replaced is an error. *)
Definition placeError (cur : Z) (old : option entry) (replace : bool) (names : list string)
  : option Error :=
  match old with
  | None => None
  | Some old =>
      if replace then
        match v_value old with
        | None => Some (NewError EcodeNotFile (pathOf names) cur)
        | Some _ => None
        end
      else Some (NewError EcodeNodeExist (pathOf names) cur)
  end.

Definition createSpec (cur : Z) (v : list string → option entry) (names : list string)
    (replace : bool) (new : entry) : Error + (list string → option entry) :=
  if decide (names = []) then inl (NewError EcodeRootROnly "/" cur)
  else
    match dirError cur v [] (removelast names), placeError cur (v names) replace names with
    | Some err, _ => inl err
    | None, Some err => inl err
    | None, None => inr (place (uint64 (cur + 1)) names new v)
    end.

(** The counter that a failed walk increments. *)
Definition walkStat (cur : Z) (v : list string → option entry) (names : list string)
    (s : store) : store :=
  if decide (names = []) then s
  else match dirError cur v [] (removelast names) with Some _ => stat SetFail s | None => s end.

(** The entry of the node at [p], as an event shows it. *)
Definition externOf (now : Z) (key : string) (p : ptr) (en : entry) : NodeExtern :=
  let permanent := v_expire en =? 0 in
  mkNodeExtern key (v_value en) (match v_value en with None => true | _ => false end)
    (if permanent then None else Some p) (if permanent then 0 else ttlOf (v_expire en) now)
    [] (v_modified en) (v_created en).

Lemma prefix_of_removelast (k pre : list string) x :
  k ≠ pre ++ [x] → k `prefix_of` pre ↔ k `prefix_of` pre ++ [x].
Proof.
  intros Hne. split.
  - intros [z ->]. exists (z ++ [x]). by rewrite app_assoc.
  - intros Hp. by apply prefix_snoc_inv in Hp as [|].
Qed.

Section create.
Context `{ChildRange} (now : Z).

Lemma Repr_flat t p n sorted :
  t_nodes t !! p = Some n →
  Repr (levels t) now false sorted t p = Ret (externOf now (n_Path n) p (entryOf n)).
Proof.
  intros Hn. unfold levels. cbn [Repr]. unfold nodeAt. rewrite Hn. simpl.
  unfold ExpirationAndTTL, externOf, IsPermanent, entryOf, IsDir. simpl.
  by destruct (n_ExpireTime n =? 0), (n_Children n).
Qed.

(** Replacing a file: the old node goes, its directory stays. *)
Lemma removeOld_ok root cur t pre x d dn c old oldn :
  tree_ok root t → resolve (t_nodes t) root pre = Some d → t_nodes t !! d = Some dn →
  n_Children dn = Some c → resolve (t_nodes t) root (pre ++ [x]) = Some old →
  t_nodes t !! old = Some oldn → n_Children oldn = None →
  ∃ t' dn' c', removeOld cur old t = Ret t' ∧ removed root t t' [pre ++ [x]] ∧
    resolve (t_nodes t') root pre = Some d ∧ t_nodes t' !! d = Some dn' ∧
    n_Children dn' = Some c' ∧ c' !! x = None.
Proof.
  intros Hok Hd Hdn Hc Ho Hn Hleaf.
  edestruct (removeFile_ok root (W := unit) None (λ _, True)) as (t' & [] & paths & E & R & _);
    [by eauto|apply Hok|apply Hok|by eapply tree_ok_nonzero|done|done|by destruct pre|done|done|].
  pose proof (rm_data _ _ _ _ R d) as Hdd. rewrite Hdn in Hdd. simpl in Hdd.
  apply fmap_Some in Hdd as (dn' & Hdn' & He).
  apply dataOf_fields in He as (_ & _ & _ & _ & _ & _ & _ & Hdir). unfold IsDir in Hdir.
  rewrite Hc in Hdir. destruct (n_Children dn') as [c'|] eqn:Hc'; [|done].
  assert (resolve (t_nodes t') root pre = Some d) as Hd'.
  { rewrite (rm_resolve _ _ _ _ R), decide_False; [done|]. rewrite under_single.
    intros Hp%prefix_length. rewrite length_app in Hp. simpl in Hp. lia. }
  exists t', dn', c'. unfold removeOld, levels. rewrite E. split_and!; [done..|].
  pose proof (rm_resolve _ _ _ _ R (pre ++ [x])) as Hnone.
  rewrite decide_True in Hnone by by apply under_single.
  rewrite resolve_app, Hd' in Hnone. simpl in Hnone. rewrite Hdn' in Hnone. simpl in Hnone.
  rewrite Hc' in Hnone. simpl in Hnone. by destruct (c' !! x).
Qed.

(** The entry of the node that placeNew makes, and its event. *)
Lemma placeNew_ok root cur i t pre x d dn c dir value expireTime act prev :
  let names := pre ++ [x] in
  let new := mkEntry (if dir : bool then None else Some value) i i expireTime in
  tree_ok root t → resolve (t_nodes t) root pre = Some d → t_nodes t !! d = Some dn →
  n_Children dn = Some c → c !! x = None → name_ok x →
  ∃ t' p e, placeNew now (pathOf names) cur i dir value expireTime d t
      ((newEvent act (pathOf names) i i) <| e_PrevNode := prev |>) = Ret (t', e) ∧
    tree_ok root t' ∧
    (∀ q n, t_nodes t !! q = Some n → dataOf <$> t_nodes t' !! q = Some (dataOf n)) ∧
    (∀ k, view t' root k = if decide (k = names) then Some new else view t root k) ∧
    resolve (t_nodes t') root names = Some p ∧
    e = mkEvent act (externOf now (pathOf names) p new) prev 0.
Proof.
  intros names new Hok Hd Hdn Hc Hx Hname.
  set (m := if dir then newDir (pathOf names) i (Some d) EmptyString expireTime
            else newKV (pathOf names) value i (Some d) EmptyString expireTime).
  destruct (newNode_ok root cur t pre x d dn c m) as (t1 & p & t2 & E1 & E2 & Hok' & R & D & V);
    [done..|by destruct dir|by destruct dir|by destruct dir; [right|left]|].
  unfold placeNew. fold m. rewrite E1. cbn [mbind run_bind]. rewrite E2. cbn [mbind run_bind].
  assert (entryOf m = new) as Hm by by destruct dir.
  assert (n_ExpireTime m = expireTime) as He by by destruct dir. clearbody m. subst expireTime.
  exists (pushNew p m t2), p, (mkEvent act (externOf now (pathOf names) p new) prev 0).
  split_and!; [|done|done|by rewrite <-Hm|done..]. unfold ExpirationAndTTL, pushNew, IsPermanent.
  unfold externOf, new. simpl. by destruct (n_ExpireTime m =? 0), dir.
Qed.

Lemma dirError_index cur v pre names err :
  dirError cur v pre names = Some err → err <| Error_Index := cur |> = err.
Proof.
  revert pre. induction names as [|x names IH]; intros pre; simpl; [done|].
  destruct (v (pre ++ [x])) as [[[w|] ? ? ?]|]; [by intros [= <-]|apply IH|done].
Qed.

(** What replaceOld makes of the node at [pre ++ [x]]. *)
Lemma replaceOld_ok root cur t pre x d dn c replace act i :
  let names := pre ++ [x] in
  let e := newEvent act (pathOf names) i i in
  tree_ok root t → resolve (t_nodes t) root pre = Some d → t_nodes t !! d = Some dn →
  n_Children dn = Some c →
  match placeError cur (view t root names) replace names with
  | Some err => replaceOld now (pathOf names) cur replace (c !! x) t e = Ret (inl err)
  | None => ∃ t' dn' c' prev,
      replaceOld now (pathOf names) cur replace (c !! x) t e =
        Ret (inr (t', e <| e_PrevNode := prev |>)) ∧
      tree_ok root t' ∧ (∀ q, dataOf <$> t_nodes t' !! q = dataOf <$> t_nodes t !! q) ∧
      (∀ k, k ≠ names → view t' root k = view t root k) ∧
      resolve (t_nodes t') root pre = Some d ∧ t_nodes t' !! d = Some dn' ∧
      n_Children dn' = Some c' ∧ c' !! x = None ∧ (view t root names = None → prev = None)
  end.
Proof.
  intros names e Hok Hd Hdn Hc. pose proof (tk_shape _ _ Hok) as Hs.
  assert (resolve (t_nodes t) root names = c !! x) as Hr.
  { unfold names. rewrite resolve_app, Hd. simpl. rewrite Hdn. simpl. rewrite Hc. simpl.
    by destruct (c !! x). }
  destruct (c !! x) as [old|] eqn:Hx.
  - destruct (view_resolve root t Hs names old Hr) as (oldn & Hn & ->).
    unfold replaceOld, placeError, nodeAt. rewrite Hn. cbn [deref lift mbind run_bind entryOf v_value].
    destruct replace; [|done]. destruct (IsDir oldn) eqn:Hdir; [done|].
    unfold IsDir in Hdir. destruct (n_Children oldn) as [|] eqn:Hleaf; [done|].
    destruct (removeOld_ok root cur t pre x d dn c old oldn)
      as (t' & dn' & c' & E2 & R & ? & ? & ? & ?); [done..|].
    eexists t', dn', c', (Some _). rewrite (Repr_flat t old oldn) by done. cbn [mbind run_bind].
    rewrite E2. split_and!; [done|by eapply tree_ok_removed|apply R| |done..].
    intros k Hk. rewrite (view_removed _ _ _ _ R). case_decide as Hp; [|done].
    destruct Hp as [[|y z] ->]; [by rewrite app_nil_r in Hk|]. symmetry. apply view_None; [done|].
    by rewrite (resolve_below _ _ _ _ _ _ _ Hr Hn), Hleaf.
  - assert (view t root names = None) as -> by by apply view_None.
    exists t, dn, c, None. by split_and!.
Qed.

Lemma internalCreate_ok s nodePath dir value unique replace expireTime act :
  let cur := s_CurrentIndex s in
  let i := uint64 (cur + 1) in
  let names := createNames cur nodePath unique in
  let root := s_Root s in
  let new := newEntry i dir value expireTime in
  tree_ok root (s_tree s) →
  ∃ t', tree_ok root t' ∧
    (∀ q n, t_nodes (s_tree s) !! q = Some n → dataOf <$> t_nodes t' !! q = Some (dataOf n)) ∧
    match createSpec cur (view (s_tree s) root) names replace new with
    | inl err =>
        internalCreate now nodePath dir value unique replace expireTime act s =
        Ret ((walkStat cur (view (s_tree s) root) names s) <| s_tree := t' |>, inl err) ∧
        ∀ k, view t' root k = view (s_tree s) root k
    | inr v' => ∃ p e,
        internalCreate now nodePath dir value unique replace expireTime act s =
        Ret (s <| s_tree := t' |> <| s_CurrentIndex := i |>, inr e) ∧
        (∀ k, view t' root k = v' k) ∧ resolve (t_nodes t') root names = Some p ∧
        e_Action e = act ∧ e_Node e = externOf now (pathOf names) p new ∧
        (view (s_tree s) root names = None → e_PrevNode e = None)
    end.
Proof.
  intros cur i names root new Hok. unfold createSpec, walkStat, internalCreate.
  change (if unique then _ else nodePath) with
    (if unique then (nodePath ++ "/" ++ pretty (uint64 (cur + 1)))%string else nodePath).
  rewrite Clean_Join. fold (createNames cur nodePath unique). fold names.
  assert (Forall name_ok names) as Hnames by apply parts_ok.
  pose proof (tk_shape _ _ Hok) as Hs. clearbody names.
  destruct (decide (names = [])) as [->|Hroot].
  { exists (s_tree s). split_and!; [done|by intros q n ->|by destruct s|done]. }
  rewrite (decide_False (P := pathOf names = "/")) by by intros ?%pathOf_root.
  destruct (exists_last Hroot) as (pre & x & ->). apply Forall_app in Hnames as [Hpre Hx].
  apply Forall_cons in Hx as [Hx _]. rewrite (Split_pathOf _ _ Hx), removelast_last.
  destruct (sh_root _ _ Hs) as (rn & Hrn & _ & _ & [rc Hrc] & _).
  pose proof (dirWalk_ok root cur (s_tree s) [] pre root rn rc Hs eq_refl Hrn Hrc Hpre) as W.
  unfold walk. rewrite split_dirName by done. cbn [tail]. fold cur root in W |- *.
  destruct (dirError cur (view (s_tree s) root) [] pre) as [err|] eqn:Herr.
  { exists (s_tree s). rewrite W. cbn [mbind run_bind]. split_and!; [done|by intros q n ->| |done].
    rewrite (dirError_index _ _ _ _ _ Herr). by destruct s. }
  destruct W as (t1 & d & dn & c & E & G & Hd & Hdn & Hc). rewrite E. cbn [mbind run_bind].
  unfold nodeAt, GetChild. rewrite Hdn. cbn [deref lift mbind run_bind]. rewrite Hc.
  pose proof (tree_ok_grown _ _ _ _ _ Hok G) as Hok1.
  assert (∀ k, ¬ k `prefix_of` pre → view t1 root k = view (s_tree s) root k) as Hsame.
  { intros k Hk. rewrite (gr_view _ _ _ _ _ G), (decide_False (P := k `prefix_of` _)) by done.
    by destruct (view (s_tree s) root k). }
  assert (view t1 root (pre ++ [x]) = view (s_tree s) root (pre ++ [x])) as Hlast.
  { apply Hsame. intros Hp%prefix_length. rewrite length_app in Hp. simpl in Hp. lia. }
  rewrite <-Hlast.
  pose proof (replaceOld_ok root cur t1 pre x d dn c replace act i Hok1 Hd Hdn Hc) as P.
  destruct (placeError cur (view t1 root (pre ++ [x])) replace (pre ++ [x])) as [err|] eqn:Hpe.
  - exists t1. fold i. rewrite P. cbn [mbind run_bind].
    split_and!; [done|apply G|done|]. intros k. destruct (decide (k `prefix_of` pre)) as [[z ->]|]; [|auto].
    rewrite (gr_view _ _ _ _ _ G). destruct (view (s_tree s) root k) eqn:Hk; [done|exfalso].
    apply (view_None root _ Hs) in Hk. destruct (view t1 root _) eqn:Hx' in Hpe; [|done].
    rewrite Hlast in Hx'.    apply (view_Some root _ Hs) in Hx' as (p & _ & Hp & _).
    rewrite <-app_assoc in Hp.
    destruct (resolve_prefix (t_nodes (s_tree s)) root k (z ++ [x])); [by eexists|congruence].
  - destruct P as (t2 & dn2 & c2 & prev & E2 & Hok2 & D2 & V2 & Hd2 & Hdn2 & Hc2 & Hx2 & Hprev).
    fold i. rewrite E2. cbn [mbind run_bind].
    edestruct (placeNew_ok root cur i t2 pre x d dn2 c2 dir value) as (t3 & p & e & E3 & Hok3 & D3 & V3 & R3 & ->);
      [done..|]. rewrite E3. cbn [mbind run_bind]. exists t3. split_and!; [done| |].
    + intros q n Hq. apply G in Hq. rewrite <-D2 in Hq. apply fmap_Some in Hq as (n2 & Hn2 & ->). by apply D3.
    + eexists p, _. split_and!; [by destruct s| |done..].
      intros k. rewrite V3. unfold place. case_decide as Hk; [done|]. rewrite V2 by done.
      rewrite (gr_view _ _ _ _ _ G). by rewrite (decide_ext _ _ _ _ (prefix_of_removelast k pre x Hk)).
Qed.
End create.
