(* ===== verification/StoreProps.v ===== *)
(** * StoreProps: the operations of the store (src/store/store.go)

    The invariant [store_ok] of a store, and for each operation that changes the store:
    it returns, it keeps the invariant, and it changes the map of the keys as its
    specification says.  A successful change takes the next index and publishes one event. *)

From stdpp Require Import pretty.
From Stdlib Require Import String.
From S2P Require Import Prelude.
From S2P Require Import Wire.
From S2P Require Import Paths TtlHeap EtcdError StoreEvent StoreNode StoreTree StoreRemove.
From S2P Require Import Stats WatcherHub HubProps HubNotify Store StoreWalk StoreCreate.

Record store_ok (s : store) : Prop := {
  so_tree : tree_ok (s_Root s) (s_tree s);
  so_hub : hub_inv (s_CurrentIndex s) (s_WatcherHub s);
  so_index : 0 ≤ s_CurrentIndex s < 2 ^ 64;
}.

(** The map of the keys of a store. *)
Definition keys (s : store) : list string → option entry := view (s_tree s) (s_Root s).

(** There is an index for one more change. *)
Definition room (s : store) : Prop := s_CurrentIndex s + 1 < 2 ^ 64.

Lemma next_index s : store_ok s → room s → uint64 (s_CurrentIndex s + 1) = s_CurrentIndex s + 1.
Proof. intros [_ _ Hi] Hr. unfold room in Hr. apply (wrapU_id 64); unfold inU; lia. Qed.

Lemma newStore_ok : store_ok newStore.
Proof.
  unfold newStore. destruct (alloc _ _) as [t root] eqn:Ha.
  assert (t_nodes t !! root = Some (newDir "/" 0 None EmptyString Permanent) ∧ t_ttl t = newTtlKeyHeap
    ∧ ∀ k p, resolve (t_nodes t) root k = Some p → k = [] ∧ p = root) as (Hn & Ht & Hr).
  { injection Ha as <- <-. split_and!; [apply lookup_insert_eq|done|]. intros [|x k] p; [naive_solver|].
    simpl. rewrite lookup_insert_eq. simpl. rewrite lookup_empty. done. }
  clear Ha. split; simpl; [|apply newWatchHub_inv|lia]. split.
  - split; [eexists; split_and!; [exact Hn|done|done|by eexists|done]|].
    intros names p n c x q Hp Hpn Hc Hx. apply Hr in Hp as [-> ->].
    rewrite Hn in Hpn. injection Hpn as <-. simpl in Hc. injection Hc as <-. by rewrite lookup_empty in Hx.
  - rewrite Ht. apply new_heap_ok.
  - rewrite Ht. intros p. split; [by intros ?%elem_of_nil|]. intros [Hz (k & Hk)].
    apply Hr in Hk as [_ ->]. unfold expireOf in Hz. by rewrite Hn in Hz.
Qed.

(** ** Publishing an event *)

(** The watchers of [h'] after the event [e] at [ep], for the node [names], when [h] was the
    hub before: the watchers that are interested got it, the others are as before. *)
Record published (h h' : watcherHub) (ep : ptr) (e : Event) (names : list string) : Prop := {
  pb_event : wh_events h' = <[ep := e]> (wh_events h);
  pb_new : wh_events h !! ep = None;
  pb_watchers : ∀ wnames wp w, Forall name_ok wnames → wp ∈ watchersOf h (pathOf wnames) →
    wh_all h !! wp = Some w →
    wh_all h' !! wp = Some (if interested wnames names e w then delivered ep w else w);
  pb_others : ∀ wp, (∀ wnames, Forall name_ok wnames → wp ∉ watchersOf h (pathOf wnames)) →
    wh_all h' !! wp = wh_all h !! wp;
}.

Lemma publish_ok cur s e names :
  hub_inv cur (s_WatcherHub s) → 0 ≤ cur → ne_Key (e_Node e) = pathOf names → names ≠ [] →
  Forall name_ok names → Index e = cur + 1 →
  ∃ s1 ep h, shareEvent e s = (s1, ep) ∧ hubNotify ep s1 = Ret (s <| s_WatcherHub := h |>) ∧
    hub_inv (cur + 1) h ∧ published (s_WatcherHub s) h ep e names.
Proof.
  intros Hh Hc Hkey Hne Hnames Hidx. unfold shareEvent, hubNotify.
  pose proof (newPtr_fresh (wh_events (s_WatcherHub s))) as Hf.
  set (ep := newPtr (wh_events (s_WatcherHub s))) in *.
  pose proof (hub_inv_share cur _ ep e Hf Hh) as Hh1.
  destruct (notify_ok cur _ ep e names Hh1) as (h & E & Hh2 & Hev & A & B & _); [done| |done..|].
  { apply lookup_insert_eq. }
  exists (s <| s_WatcherHub ::= set wh_events (<[ep := e]>) |>), ep, h.
  split_and!; [done| |done|by split]. simpl. rewrite E. by destruct s.
Qed.

(** Runs [shareEvent] and [hubNotify]. *)
Ltac publish cur names :=
  match goal with
  | |- context [shareEvent ?e ?s0] =>
      let s1 := fresh "s1" in let ep := fresh "ep" in let h := fresh "h" in
      let E1 := fresh "E1" in let E2 := fresh "E2" in
      let Hh := fresh "Hh" in let P := fresh "P" in
      destruct (publish_ok cur s0 e names) as (s1 & ep & h & E1 & E2 & Hh & P);
      [..|rewrite E1; cbn [mbind run_bind]; rewrite E2; cbn [mbind run_bind]; clear E1 E2 s1]
  end.

Section operations.
Context `{ChildRange} (now : Z).

(** The store after a change: its invariant, the new index, the new map of the keys, and
    the event that the operation returns. *)
Record settled (s s' : store) (ep : ptr) (e : Event) (v : list string → option entry) : Prop := {
  st_ok : store_ok s';
  st_root : s_Root s' = s_Root s;
  st_index : s_CurrentIndex s' = s_CurrentIndex s + 1;
  st_keys : ∀ k, keys s' k = v k;
  st_event : wh_events (s_WatcherHub s') !! ep = Some e;
  st_stamp : e_EtcdIndex e = s_CurrentIndex s + 1 ∧ Index e = s_CurrentIndex s + 1;
}.
(** A change of the node [names], that its watchers are told of. *)
Record changed (s s' : store) (ep : ptr) (e : Event) (names : list string)
    (v : list string → option entry) : Prop := {
  ch_settled : settled s s' ep e v;
  ch_event : published (s_WatcherHub s) (s_WatcherHub s') ep e names;
}.

(** The store after an operation that failed: only a counter is different.  (The memory of
    the hub may hold an event that nobody refers to.) *)
Definition hub_same (h h' : watcherHub) : Prop :=
  ∃ evs, h' = h <| wh_events := evs |> ∧ wh_events h ⊆ evs.
Record unchanged (s s' : store) : Prop := {
  un_ok : store_ok s';
  un_root : s_Root s' = s_Root s;
  un_index : s_CurrentIndex s' = s_CurrentIndex s;
  un_keys : ∀ k, keys s' k = keys s k;
  un_hub : hub_same (s_WatcherHub s) (s_WatcherHub s');
}.

Lemma hub_same_refl h : hub_same h h.
Proof. exists (wh_events h). by destruct h. Qed.

Lemma unchanged_refl s : store_ok s → unchanged s s.
Proof. intros Hok. split; try done. apply hub_same_refl. Qed.

Lemma unchanged_stat f s : store_ok s → unchanged s (stat f s).
Proof. intros [A B C]. split; try done. apply hub_same_refl. Qed.

Lemma changed_intro s s' ep e names v :
  store_ok s → room s → s_Root s' = s_Root s → tree_ok (s_Root s) (s_tree s') →
  (∀ k, view (s_tree s') (s_Root s) k = v k) →
  s_CurrentIndex s' = s_CurrentIndex s + 1 → hub_inv (s_CurrentIndex s + 1) (s_WatcherHub s') →
  published (s_WatcherHub s) (s_WatcherHub s') ep e names →
  e_EtcdIndex e = s_CurrentIndex s + 1 → ne_ModifiedIndex (e_Node e) = s_CurrentIndex s + 1 →
  changed s s' ep e names v.
Proof.
  intros [Ht Hh Hi] Hroom Hr Ht' Hv Hidx Hh' P He Hm. unfold room in Hroom.
  split; [|done]. split; try done.
  - split; [by rewrite Hr|by rewrite Hidx|lia].
  - intros k. unfold keys. rewrite Hr. apply Hv.
  - rewrite (pb_event _ _ _ _ _ P). apply lookup_insert_eq.
Qed.

(** ** Create and Set *)
Lemma createSpec_inr cur v names replace new v' :
  createSpec cur v names replace new = inr v' →
  names ≠ [] ∧ v' = place (uint64 (cur + 1)) names new v ∧ placeError cur (v names) replace names = None.
Proof.
  unfold createSpec. destruct (decide (names = [])); [done|].
  destruct (dirError _ _ _ _); [done|]. destruct (placeError _ _ _ _); [done|].
  intros [= <-]. done.
Qed.

Lemma unchanged_walkStat s t f :
  store_ok s → tree_ok (s_Root s) t → (∀ k, view t (s_Root s) k = keys s k) →
  ∀ cur v names, unchanged s (stat f ((walkStat cur v names s) <| s_tree := t |>)).
Proof.
  intros [A B C] Ht Hv cur v names. unfold walkStat.
  destruct (decide _); [|destruct (dirError _ _ _ _)]; split; try done; apply hub_same_refl.
Qed.

Lemma storeCreate_ok s nodePath dir value unique expireTime :
  let i := s_CurrentIndex s + 1 in
  let names := createNames (s_CurrentIndex s) nodePath unique in
  let new := newEntry i dir value expireTime in
  store_ok s → room s →
  ∃ s' r, storeCreate now nodePath dir value unique expireTime s = Ret (s', r) ∧
    match createSpec (s_CurrentIndex s) (keys s) names false new with
    | inl err => r = inl err ∧ unchanged s s'
    | inr v => ∃ ep p, r = inr ep ∧ resolve (t_nodes (s_tree s')) (s_Root s') names = Some p ∧
        changed s s' ep (mkEvent Create (externOf now (pathOf names) p new) None i) names v
    end.
Proof.
  intros i names new Hok Hroom. pose proof (next_index s Hok Hroom) as Hi.
  destruct (internalCreate_ok now s nodePath dir value unique false expireTime Create) as (t & Ht & _ & C);
    [apply Hok|]. rewrite Hi in C. fold i names new (keys s) in C. unfold storeCreate.
  destruct (createSpec _ _ names false new) as [err|v] eqn:Hspec.
  - destruct C as [-> Hv]. cbn [mbind run_bind]. eexists _, _. split; [done|]. split; [done|].
    by apply unchanged_walkStat.
  - destruct C as (p & e & -> & Hv & Hp & Hact & Hnode & Hprev). cbn [mbind run_bind].
    apply createSpec_inr in Hspec as (Hne & -> & Hpe).
    assert (keys s names = None) as Hnone by by destruct (keys s names).
    specialize (Hprev Hnone). destruct e as [a n pr ei]. simpl in Hact, Hnode, Hprev. subst a n pr.
    publish (s_CurrentIndex s) names; [apply Hok|apply Hok|done|done|apply parts_ok|done|].
    eexists _, _. split; [done|]. exists ep, p. split_and!; [done|exact Hp|].
    by apply changed_intro.
Qed.

Lemma lookup_dirError cur v pre names err :
  lookupSpec cur v pre names = Some err → ErrorCode err ≠ EcodeKeyNotFound →
  (∀ en, v pre = Some en → v_value en = None) →
  names ≠ [] ∧ dirError cur v pre (removelast names) = Some err.
Proof.
  revert pre. induction names as [|x names IH]; intros pre; [done|]. cbn [lookupSpec].
  intros Hl Hcode Hdir. split; [done|].
  destruct (v pre) as [[[w|] ? ? ?]|]; [by specialize (Hdir _ eq_refl)|..].
  all: destruct (v (pre ++ [x])) as [en|] eqn:Hx; [|by injection Hl as <-].
  all: destruct names as [|y names]; [done|].
  all: change (removelast (x :: y :: names)) with (x :: removelast (y :: names)).
  all: cbn [dirError]; rewrite Hx; destruct en as [[w|] ? ? ?]; [|by eapply IH; [..|naive_solver]].
  all: cbn [lookupSpec] in Hl; rewrite Hx in Hl; done.
Qed.

Lemma root_dir s en : store_ok s → keys s [] = Some en → v_value en = None.
Proof.
  intros [Ht _ _] Hen. destruct (sh_root _ _ (tk_shape _ _ Ht)) as (rn & Hrn & _ & _ & Hc & _).
  unfold keys, view in Hen. simpl in Hen. rewrite Hrn in Hen. injection Hen as <-.
  by apply entry_dir.
Qed.

Lemma lookup_createSpec s names gerr replace new :
  store_ok s → lookupSpec (s_CurrentIndex s) (keys s) [] names = Some gerr →
  ErrorCode gerr ≠ EcodeKeyNotFound →
  createSpec (s_CurrentIndex s) (keys s) names replace new = inl gerr.
Proof.
  intros Hok Hl Hc. apply lookup_dirError in Hl as [Hne Hd]; [|done|intros en; by apply root_dir].
  unfold createSpec. by rewrite decide_False, Hd.
Qed.

Lemma loadInternalNode_file fuel recursive sorted t p n key :
  t_nodes t !! p = Some n → n_Children n = None →
  loadInternalNode fuel now recursive sorted t p
    (e_Node (newEvent Get key (n_ModifiedIndex n) (n_CreatedIndex n))) =
  Ret (externOf now key p (entryOf n)).
Proof.
  intros Hn Hc. unfold loadInternalNode, nodeAt. rewrite Hn. simpl. rewrite Hc. simpl.
  unfold ExpirationAndTTL, externOf, IsPermanent, entryOf, IsDir. simpl. rewrite Hc.
  by destruct (n_ExpireTime n =? 0).
Qed.

Lemma storeSet_ok s nodePath dir value expireTime :
  let i := s_CurrentIndex s + 1 in
  let names := parts nodePath in
  let new := newEntry i dir value expireTime in
  store_ok s → room s →
  ∃ s' r, storeSet now nodePath dir value expireTime s = Ret (s', r) ∧
    match createSpec (s_CurrentIndex s) (keys s) names true new with
    | inl err => r = inl err ∧ unchanged s s'
    | inr v => ∃ ep p prev, r = inr ep ∧
        resolve (t_nodes (s_tree s')) (s_Root s') names = Some p ∧
        changed s s' ep (mkEvent Set_ (externOf now (pathOf names) p new) prev i) names v ∧
        prev = q ← resolve (t_nodes (s_tree s)) (s_Root s) names;
               externOf now nodePath q <$> keys s names
    end.
Proof.
  intros i names new Hok Hroom. pose proof (next_index s Hok Hroom) as Hi.
  pose proof (tk_shape _ _ (so_tree _ Hok)) as Hs.
  destruct (internalCreate_ok now s nodePath dir value false true expireTime Set_) as (t & Ht & D & C);
    [apply Hok|]. rewrite Hi in C. change (createNames _ nodePath false) with names in C.
  fold i new (keys s) in C. unfold storeSet.
  destruct (internalGet_ok s nodePath Hs) as [G1 G2]. fold names (keys s) in G1, G2.
  rewrite G1. cbn [mbind run_bind].
  destruct (createSpec _ _ names true new) as [err|v] eqn:Hspec.
  - destruct C as [E Hv]. rewrite E. cbn [mbind run_bind].
    destruct (lookupSpec _ _ [] names) as [gerr|] eqn:Hl.
    + destruct (Z.eqb_spec (ErrorCode gerr) EcodeKeyNotFound) as [Hc|Hc]; cbn [negb].
      * eexists _, _. split; [done|]. split; [done|]. by apply unchanged_walkStat.
      * rewrite (lookup_createSpec _ _ gerr) in Hspec by done. injection Hspec as <-.
        eexists _, _. split; [done|]. split; [done|]. by apply unchanged_stat.
    + destruct (G2 eq_refl) as [q ->]. eexists _, _. split; [done|]. split; [done|].
      by apply unchanged_walkStat.
  - destruct C as (p & e & E & Hv & Hp & Hact & Hnode & Hprev). rewrite E. cbn [mbind run_bind].
    destruct (createSpec_inr _ _ _ _ _ _ Hspec) as (Hne & Hput & Hpe).
    destruct e as [a n pr ei]. simpl in Hact, Hnode, Hprev. subst a n.
    destruct (lookupSpec _ _ [] names) as [gerr|] eqn:Hl.
    + destruct (Z.eqb_spec (ErrorCode gerr) EcodeKeyNotFound) as [Hc|Hc]; cbn [negb].
      2: { by rewrite (lookup_createSpec _ _ gerr) in Hspec. }
      destruct (resolve (t_nodes (s_tree s)) (s_Root s) names) as [q|] eqn:Hq.
      { unfold keys in Hl. rewrite lookupSpec_found in Hl; [done..|by eexists]. }
      assert (keys s names = None) as Hnone by by apply view_None. rewrite Hprev in * by done.
      publish (s_CurrentIndex s) names; [apply Hok|apply Hok|done|done|apply parts_ok|done|].
      eexists _, _. split; [done|]. exists ep, p, None. split_and!; [done|exact Hp| |done].
      by apply changed_intro.
    + destruct (G2 eq_refl) as [q Hq]. rewrite Hq.
      destruct (view_resolve _ _ Hs _ _ Hq) as (m & Hm & Hvm).
      fold (keys s) in Hvm. rewrite Hvm in Hpe.
      destruct (n_Children m) as [c|] eqn:Hc.
      { unfold placeError, entryOf, IsDir in Hpe. by rewrite Hc in Hpe. }
      specialize (D q m Hm). apply fmap_Some in D as (m' & Hm' & Hd).
      assert (n_Children m' = None) as Hc'.
      { apply dataOf_fields in Hd as (_ & _ & _ & _ & _ & _ & _ & Hd). unfold IsDir in Hd.
        rewrite Hc in Hd. by destruct (n_Children m'). }
      rewrite (entryOf_data m m') in Hvm by done.
      unfold nodeAt. cbn [s_tree set set_s_tree set_s_CurrentIndex]. rewrite Hm'. cbn [deref lift mbind run_bind].
      rewrite loadInternalNode_file by done. cbn [mbind run_bind].
      publish (s_CurrentIndex s) names; [apply Hok|apply Hok|done|done|apply parts_ok|done|].
      eexists _, _. split; [done|]. eexists ep, p, _. split_and!; [done|exact Hp| |].
      * apply changed_intro; try done.
      * by rewrite Hvm.
Qed.
End operations.
