(* ===== verification/StoreUpdate.v ===== *)
(** * StoreUpdate: changing a node in place (src/store/node.go, src/store/store.go)

    Write and UpdateTTL keep the invariant of the tree and change one entry of its map.
    Update and CompareAndSwap are these two steps and an event. *)

From stdpp Require Import pretty.
From Stdlib Require Import String.
From S2P Require Import Prelude.
From S2P Require Import Wire.
From S2P Require Import Paths TtlHeap EtcdError StoreEvent StoreNode StoreTree StoreRemove.
From S2P Require Import Stats WatcherHub HubProps HubNotify Store StoreWalk StoreCreate StoreProps.

(** ** One node *)
Record resetAt (root : ptr) (t t' : tree) (p : ptr) (n n' : node) (names : list string) : Prop := {
  rs_at : t_nodes t !! p = Some n;
  rs_names : resolve (t_nodes t) root names = Some p;
  rs_nodes : t_nodes t' = <[p := n']> (t_nodes t);
  rs_children : n_Children n' = n_Children n;
  rs_parent : n_Parent n' = n_Parent n;
  rs_path : n_Path n' = n_Path n;
  rs_root : p = root → n_ExpireTime n' = 0;
}.

Section resetAt.
Context (root : ptr) (t t' : tree) (p : ptr) (n n' : node) (names : list string).
Hypothesis Hr : resetAt root t t' p n n' names.
Hypothesis Hs : shape_ok root (t_nodes t).

Lemma reset_shape : shape_ok root (t_nodes t').
Proof. destruct Hr as [? ? -> ? ? ? ?]. by eapply shape_update. Qed.

Lemma reset_resolve k : resolve (t_nodes t') root k = resolve (t_nodes t) root k.
Proof. destruct Hr as [? ? -> ? ? ? ?]. by eapply shape_update. Qed.

Lemma reset_view k :
  view t' root k = if decide (k = names) then Some (entryOf n') else view t root k.
Proof.
  unfold view. rewrite reset_resolve. destruct Hr as [Hn Hp -> _ _ _ _]. case_decide as Hk.
  - subst. rewrite Hp. simpl. by rewrite lookup_insert_eq.
  - destruct (resolve (t_nodes t) root k) as [q|] eqn:Hq; simpl; [|done].
    rewrite lookup_insert_ne; [done|]. intros <-. by apply Hk, (resolve_inj root _ k names p Hs).
Qed.

Lemma reset_expiry q : expiry t' q = if decide (q = p) then n_ExpireTime n' else expiry t q.
Proof.
  destruct Hr as [Hn Hp -> _ _ _ _]. unfold expireOf. rewrite lookup_insert.
  repeat case_decide; by subst.
Qed.

(** The heap of the new tree holds the nodes that expire in it. *)
Lemma reset_ok :
  tree_ok root t → heap_ok (expiry t') (t_ttl t') →
  (∀ q, q ∈ h_array (t_ttl t') ↔
    (q ≠ p ∧ q ∈ h_array (t_ttl t)) ∨ (q = p ∧ n_ExpireTime n' ≠ 0)) →
  tree_ok root t'.
Proof.
  intros [_ _ Ht] Hh Hel. split; [apply reset_shape|done|]. intros q.
  rewrite Hel, Ht, reset_expiry. setoid_rewrite reset_resolve.
  destruct (decide (q = p)) as [->|Hne]; [|naive_solver].
  split; [|naive_solver]. intros [[? _]|[_ Hz]]; [done|]. split; [done|]. exists names. apply Hr.
Qed.
End resetAt.

Lemma nodeAt_eq t p n : t_nodes t !! p = Some n → nodeAt p t = Ret n.
Proof. intros Hn. unfold nodeAt. by rewrite Hn. Qed.

(** Write leaves a directory as it is. *)
Definition overwrite (value : string) (index : Z) (n : node) : node :=
  if IsDir n then n else n <| n_Value := value |> <| n_ModifiedIndex := index |>.

Lemma writeNode_ok root cur t p n names value index :
  tree_ok root t → resolve (t_nodes t) root names = Some p → t_nodes t !! p = Some n →
  ∃ t', writeNode cur value index p t = Ret t' ∧ tree_ok root t' ∧
    resetAt root t t' p n (overwrite value index n) names.
Proof.
  intros Hok Hp Hn. pose proof (tk_shape _ _ Hok) as Hs. set (n' := overwrite value index n).
  set (t' := t <| t_nodes := <[p := n']> (t_nodes t) |>). exists t'. split.
  { unfold writeNode. rewrite (nodeAt_eq _ _ _ Hn). cbn [mbind run_bind].
    unfold nodeWrite, t', n', overwrite. by destruct (IsDir n). }
  assert (n_Children n' = n_Children n ∧ n_Parent n' = n_Parent n ∧ n_Path n' = n_Path n ∧
    n_ExpireTime n' = n_ExpireTime n) as (F1 & F2 & F3 & F4)
    by (unfold n', overwrite; by destruct (IsDir n)).
  assert (resetAt root t t' p n n' names) as R.
  { split; try done. intros ->. destruct (sh_root _ _ Hs) as (r & Hr & _ & _ & _ & He). congruence. }
  split; [|done].
  assert (∀ q, expiry t' q = expiry t q) as He.
  { intros q. rewrite (reset_expiry _ _ _ _ _ _ _ R). case_decide; [|done]. subst.
    unfold expireOf. by rewrite Hn, F4. }
  destruct Hok as [_ Hh Ht]. split; [by eapply reset_shape| |].
  - eapply heap_ok_ext; [|exact Hh]. done.
  - intros q. rewrite He. setoid_rewrite (reset_resolve _ _ _ _ _ _ _ R Hs). apply Ht.
Qed.

Lemma UpdateTTL_ok root t p n names e :
  tree_ok root t → resolve (t_nodes t) root names = Some p → names ≠ [] →
  t_nodes t !! p = Some n →
  ∃ t', UpdateTTL e p t = Ret t' ∧ tree_ok root t' ∧
    resetAt root t t' p n (n <| n_ExpireTime := e |>) names.
Proof.
  intros Hok Hp Hne Hn. pose proof (tk_shape _ _ Hok) as Hs.
  assert (p ≠ root) as Hpr.
  { intros ->. by apply Hne, (resolve_inj root _ names [] root Hs). }
  unfold UpdateTTL, nodeAt. rewrite Hn. cbn [deref lift mbind run_bind].
  set (n' := n <| n_ExpireTime := e |>). set (t1 := set t_nodes _ t).
  assert (∀ h, resetAt root t (t1 <| t_ttl := h |>) p n n' names) as R by done.
  assert (expiry t p = n_ExpireTime n) as Hep by (unfold expireOf; by rewrite Hn).
  assert (p ∈ h_array (t_ttl t) ↔ n_ExpireTime n ≠ 0) as Hin.
  { rewrite (tk_ttl _ _ Hok), Hep. naive_solver. }
  assert (∀ y, y ≠ p → expiry t y = expiry t1 y) as Hkey.
  { intros y Hy. unfold t1, expireOf. simpl. by rewrite lookup_insert_ne. }
  destruct (tk_heap _ _ Hok) as [Hm Ho]. unfold IsPermanent.
  destruct (Z.eqb_spec (n_ExpireTime n) 0) as [H0|H0], (Z.eqb_spec e 0) as [E0|E0]; cbn [negb].
  - exists t. split_and!; [done..|]. split; try done. symmetry. apply insert_id.
    rewrite Hn. unfold n'. rewrite E0, <-H0. by destruct n.
  - assert (p ∉ h_array (t_ttl t)) as Hni by (rewrite Hin; naive_solver).
    destruct (remove_ok (expiry t) (expiry t1) p (t_ttl t) Hm Ho Hkey) as (h & _ & Hh & Heq).
    rewrite decide_False in Heq by done. subst h.
    destruct (push_ok (expiry t1) p (t_ttl t) Hh Hni) as [Hh' Hperm].
    eexists. split_and!; [done| |apply R]. apply (reset_ok _ _ _ _ _ _ _ (R _) Hs); [done..|].
    intros q. cbn [t_ttl set set_t_ttl]. change (t_ttl t1) with (t_ttl t). rewrite Hperm, elem_of_cons. destruct (decide (q = p)) as [->|]; naive_solver.
  - destruct (remove_ok (expiry t) (expiry t1) p (t_ttl t) Hm Ho Hkey) as (h & E & Hh & Hperm).
    rewrite decide_True in Hperm by by apply Hin.
    change (t_ttl t1) with (t_ttl t). rewrite E. cbn [lift mbind run_bind].
    eexists. split_and!; [done| |apply R]. apply (reset_ok _ _ _ _ _ _ _ (R _) Hs); [done..|].
    pose proof (map_ok_NoDup _ Hm) as Hnd. rewrite Hperm in Hnd. apply NoDup_cons in Hnd as [Hnd _].
    intros q. cbn [t_ttl set set_t_ttl]. change (t_ttl t1) with (t_ttl t). rewrite Hperm, elem_of_cons. destruct (decide (q = p)) as [->|]; naive_solver.
  - destruct (update_ok (expiry t) (expiry t1) p (t_ttl t) Hm Ho Hkey) as (h & E & Hh & Hperm);
      [by apply Hin|].
    change (t_ttl t1) with (t_ttl t). rewrite E. cbn [lift mbind run_bind].
    eexists. split_and!; [done| |apply R]. apply (reset_ok _ _ _ _ _ _ _ (R _) Hs); [done..|].
    intros q. cbn [t_ttl set set_t_ttl]. change (t_ttl t1) with (t_ttl t). rewrite Hperm. destruct (decide (q = p)) as [->|]; naive_solver.
Qed.

(** The two steps that Update and CompareAndSwap share. *)
Lemma writeTTL_ok root cur t p n names value index e :
  tree_ok root t → resolve (t_nodes t) root names = Some p → names ≠ [] → t_nodes t !! p = Some n →
  let n' := (overwrite value index n) <| n_ExpireTime := e |> in
  ∃ t1 t2, writeNode cur value index p t = Ret t1 ∧ UpdateTTL e p t1 = Ret t2 ∧ tree_ok root t2 ∧
    nodeAt p t2 = Ret n' ∧ resolve (t_nodes t2) root names = Some p ∧
    ∀ k, view t2 root k = if decide (k = names) then Some (entryOf n') else view t root k.
Proof.
  intros Hok Hp Hne Hn n'.
  destruct (writeNode_ok root cur t p n names value index Hok Hp Hn) as (t1 & E1 & Ok1 & R1).
  destruct (UpdateTTL_ok root t1 p (overwrite value index n) names e) as (t2 & E2 & Ok2 & R2);
    [done|by rewrite (reset_resolve _ _ _ _ _ _ _ R1 (tk_shape _ _ Hok))|done| |].
  { rewrite (rs_nodes _ _ _ _ _ _ _ R1). apply lookup_insert_eq. }
  exists t1, t2. split_and!; [done..| | |].
  - apply nodeAt_eq. rewrite (rs_nodes _ _ _ _ _ _ _ R2). apply lookup_insert_eq.
  - rewrite (reset_resolve _ _ _ _ _ _ _ R2 (tk_shape _ _ Ok1)).
    by rewrite (reset_resolve _ _ _ _ _ _ _ R1 (tk_shape _ _ Hok)).
  - intros k. rewrite (reset_view _ _ _ _ _ _ _ R2 (tk_shape _ _ Ok1)).
    rewrite (reset_view _ _ _ _ _ _ _ R1 (tk_shape _ _ Hok)). by case_decide.
Qed.

(** ** Update and CompareAndSwap *)
Definition upd (names : list string) (en : entry) (v : list string → option entry)
    (k : list string) : option entry := if decide (k = names) then Some en else v k.

(** The lookup that precedes a change of the node [names]. *)
Definition onNode {A} (cur : Z) (v : list string → option entry) (names : list string)
    (f : entry → Error + A) : Error + A :=
  match lookupSpec cur v [] names, v names with
  | Some err, _ => inl err
  | None, Some en => f en
  | None, None => inl (notFound cur names)
  end.
Definition notRoot {A} (cur : Z) (names : list string) (r : Error + A) : Error + A :=
  if decide (names = []) then inl (NewError EcodeRootROnly "/" cur) else r.

(** The entry after an update: a directory only gets a new expire time. *)
Definition updateSpec (cur : Z) (v : list string → option entry) (names : list string)
    (newValue : string) (expireTime : Z) : Error + entry :=
  notRoot cur names $ onNode cur v names $ λ en,
    match v_value en with
    | None =>
        if decide (newValue = EmptyString) then inr (mkEntry None (v_created en) (v_modified en) expireTime)
        else inl (NewError EcodeNotFile (pathOf names) cur)
    | Some _ => inr (mkEntry (Some newValue) (v_created en) (cur + 1) expireTime)
    end.

(** The text of a comparison that fails. *)
Definition compareCause (value : string) (modified : Z) (prevValue : string) (prevIndex : Z)
  : string :=
  let byIndex := ("[" ++ pretty prevIndex ++ " != " ++ pretty modified ++ "]")%string in
  let byValue := ("[" ++ prevValue ++ " != " ++ value ++ "]")%string in
  if decide (prevValue = EmptyString ∨ value = prevValue) then byIndex
  else if decide (prevIndex = 0 ∨ modified = prevIndex) then byValue
  else (byValue ++ " " ++ byIndex)%string.

(** A comparison is with the value and the index that are given; the empty value and the
    index 0 stand for any. *)
Definition compareSpec {A} (cur : Z) (v : list string → option entry) (names : list string)
    (prevValue : string) (prevIndex : Z) (ok : entry → A) : Error + A :=
  onNode cur v names $ λ en,
    match v_value en with
    | None => inl (NewError EcodeNotFile (pathOf names) cur)
    | Some value =>
        if decide ((prevValue = EmptyString ∨ value = prevValue) ∧
                   (prevIndex = 0 ∨ v_modified en = prevIndex)) then inr (ok en)
        else inl (NewError EcodeTestFailed (compareCause value (v_modified en) prevValue prevIndex) cur)
    end.

Lemma Compare_spec n prevValue prevIndex :
  let '(ok, which) := Compare prevValue prevIndex n in
  if decide ((prevValue = EmptyString ∨ n_Value n = prevValue) ∧
             (prevIndex = 0 ∨ n_ModifiedIndex n = prevIndex)) then ok = true
  else ok = false ∧ getCompareFailCause n which prevValue prevIndex =
                    compareCause (n_Value n) (n_ModifiedIndex n) prevValue prevIndex.
Proof.
  unfold Compare, compareCause, getCompareFailCause. 
  assert (bool_decide (prevValue = EmptyString) || bool_decide (n_Value n = prevValue) =
    bool_decide (prevValue = EmptyString ∨ n_Value n = prevValue)) as ->
    by (rewrite bool_decide_or; done).
  assert ((prevIndex =? 0) || (n_ModifiedIndex n =? prevIndex) =
    bool_decide (prevIndex = 0 ∨ n_ModifiedIndex n = prevIndex)) as ->.
  { rewrite bool_decide_or. f_equal; apply Bool.eq_true_iff_eq; rewrite bool_decide_eq_true; apply Z.eqb_eq. }
  destruct (decide (prevValue = EmptyString ∨ n_Value n = prevValue)) as [Hv|Hv],
    (decide (prevIndex = 0 ∨ n_ModifiedIndex n = prevIndex)) as [Hi|Hi];
    rewrite ?(bool_decide_true _ Hv), ?(bool_decide_false _ Hv), ?(bool_decide_true _ Hi),
      ?(bool_decide_false _ Hi); cbn [andb negb].
  - by rewrite decide_True.
  - rewrite decide_False by tauto. done.
  - rewrite decide_False by tauto. done.
  - rewrite decide_False by tauto. done.
Qed.

Lemma internalGet_names s names :
  store_ok s → Forall name_ok names →
  match lookupSpec (s_CurrentIndex s) (keys s) [] names with
  | Some err => internalGet (pathOf names) s = Ret (inl err)
  | None => ∃ p n, internalGet (pathOf names) s = Ret (inr p) ∧
      resolve (t_nodes (s_tree s)) (s_Root s) names = Some p ∧
      t_nodes (s_tree s) !! p = Some n ∧ keys s names = Some (entryOf n) ∧ n_Path n = pathOf names
  end.
Proof.
  intros [Ht _ _] Hok. pose proof (tk_shape _ _ Ht) as Hs.
  destruct (internalGet_ok s (pathOf names) Hs) as [G1 G2]. rewrite parts_pathOf in G1, G2 by done.
  fold (keys s) in G1, G2. destruct (lookupSpec _ _ _ _) as [err|]; [done|].
  destruct (G2 eq_refl) as [p Hp]. rewrite Hp in G1.
  destruct (view_resolve _ _ Hs _ _ Hp) as (n & Hn & Hv).
  destruct (shape_at _ _ _ _ Hs Hp) as (_ & n' & Hn' & Hpath & _). simplify_eq. eauto 10.
Qed.

Section operations.
Context `{ChildRange} (now : Z).

Lemma ExpirationAndTTL_spec p n :
  ExpirationAndTTL now p n =
  (if n_ExpireTime n =? 0 then None else Some p,
   if n_ExpireTime n =? 0 then 0 else ttlOf (n_ExpireTime n) now).
Proof. unfold ExpirationAndTTL, IsPermanent. by destruct (n_ExpireTime n =? 0). Qed.

(** The entry as the event of a change at [i] shows it. *)
Definition stamped (i : Z) (en : entry) : entry :=
  mkEntry (v_value en) (v_created en) i (v_expire en).

Lemma storeUpdate_ok s nodePath newValue expireTime :
  let i := s_CurrentIndex s + 1 in
  let names := parts nodePath in
  store_ok s → room s →
  ∃ s' r, storeUpdate now nodePath newValue expireTime s = Ret (s', r) ∧
    match updateSpec (s_CurrentIndex s) (keys s) names newValue expireTime with
    | inl err => r = inl err ∧ unchanged s s'
    | inr en => ∃ ep p old, r = inr ep ∧ resolve (t_nodes (s_tree s)) (s_Root s) names = Some p ∧
        resolve (t_nodes (s_tree s')) (s_Root s') names = Some p ∧ keys s names = Some old ∧
        changed s s' ep (mkEvent Update (externOf now (pathOf names) p (stamped i en))
                           (Some (externOf now (pathOf names) p old)) i) names (upd names en (keys s))
    end.
Proof.
  intros i names Hok Hroom. pose proof (next_index s Hok Hroom) as Hi.
  unfold storeUpdate, updateSpec, notRoot. rewrite Clean_Join. fold names.
  pose proof (parts_ok nodePath : Forall name_ok names) as Hnames. clearbody names.
  destruct (decide (names = [])) as [->|Hne].
  { eexists _, _. split; [done|]. split; [done|]. by apply unchanged_refl. }
  rewrite (decide_False (P := pathOf names = "/")) by by intros ?%pathOf_root.
  pose proof (internalGet_names s names Hok Hnames) as G. unfold onNode.
  destruct (lookupSpec _ _ _ _) as [err|].
  { rewrite G. eexists _, _. split; [done|]. split; [done|]. by apply unchanged_stat. }
  destruct G as (p & n & -> & Hp & Hn & Hk & Hpath). rewrite Hk. cbn [mbind run_bind].
  rewrite (nodeAt_eq _ _ _ Hn). cbn [mbind run_bind].
  rewrite (Repr_flat _ _ _ n) by done. cbn [mbind run_bind].
  destruct (writeTTL_ok (s_Root s) (s_CurrentIndex s) (s_tree s) p n names newValue i expireTime)
    as (t1 & t2 & E1 & E2 & Ok2 & E3 & P2 & V2); [apply Hok|done..|].
  rewrite Hpath, Hi. fold i. rewrite E1. cbn [mbind run_bind]. rewrite E2. cbn [mbind run_bind].
  rewrite E3. cbn [mbind run_bind].
  rewrite ExpirationAndTTL_spec.
  assert (entryOf n = mkEntry (if IsDir n then None else Some (n_Value n)) (n_CreatedIndex n)
    (n_ModifiedIndex n) (n_ExpireTime n)) as Hen by done.
  set (n' := (overwrite newValue i n) <| n_ExpireTime := expireTime |>) in *.
  assert (entryOf n' = if IsDir n then mkEntry None (n_CreatedIndex n) (n_ModifiedIndex n) expireTime
    else mkEntry (Some newValue) (n_CreatedIndex n) i expireTime) as Hen'.
  { unfold n', overwrite, entryOf, IsDir. by destruct (n_Children n) eqn:Hc; simpl; rewrite Hc. }
  assert (n_ExpireTime n' = expireTime) as -> by done. clearbody n'. rewrite Hen' in V2. rewrite Hen. cbn [v_value v_created v_modified].
  destruct (IsDir n); [destruct (decide (newValue = EmptyString)) as [->|Hv]|].
  2: { rewrite bool_decide_false by done. cbn [andb negb]. eexists _, _. split; [done|].
       split; [done|]. by apply unchanged_stat. }
  - rewrite bool_decide_true by done. cbn [andb negb].
    publish (s_CurrentIndex s) names; [apply Hok|apply Hok|done|done|apply Hnames|done|].
    eexists _, _. split; [done|]. eexists ep, p, _. split_and!; [done..|].
    by apply changed_intro.
  - cbn [andb negb].
    publish (s_CurrentIndex s) names; [apply Hok|apply Hok|done|done|apply Hnames|done|].
    eexists _, _. split; [done|]. eexists ep, p, _. split_and!; [done..|].
    by apply changed_intro.
Qed.

(** The entry after a swap. *)
Definition swapped (i : Z) (value : string) (expireTime : Z) (en : entry) : entry :=
  mkEntry (Some value) (v_created en) i expireTime.

Lemma storeCompareAndSwap_ok s nodePath prevValue prevIndex value expireTime :
  let i := s_CurrentIndex s + 1 in
  let names := parts nodePath in
  store_ok s → room s →
  ∃ s' r, storeCompareAndSwap now nodePath prevValue prevIndex value expireTime s = Ret (s', r) ∧
    match notRoot (s_CurrentIndex s) names $
          compareSpec (s_CurrentIndex s) (keys s) names prevValue prevIndex (λ en, en) with
    | inl err => r = inl err ∧ unchanged s s'
    | inr old => ∃ ep p, let en := swapped i value expireTime old in
        r = inr ep ∧ resolve (t_nodes (s_tree s)) (s_Root s) names = Some p ∧
        keys s names = Some old ∧
        changed s s' ep (mkEvent CompareAndSwap (externOf now (pathOf names) p en)
                           (Some (externOf now (pathOf names) p old)) i) names (upd names en (keys s))
    end.
Proof.
  intros i names Hok Hroom. pose proof (next_index s Hok Hroom) as Hi.
  unfold storeCompareAndSwap, compareSpec, notRoot. rewrite Clean_Join. fold names.
  pose proof (parts_ok nodePath : Forall name_ok names) as Hnames. clearbody names.
  destruct (decide (names = [])) as [->|Hne].
  { eexists _, _. split; [done|]. split; [done|]. by apply unchanged_refl. }
  rewrite (decide_False (P := pathOf names = "/")) by by intros ?%pathOf_root.
  pose proof (internalGet_names s names Hok Hnames) as G. unfold onNode.
  destruct (lookupSpec _ _ _ _) as [err|].
  { rewrite G. eexists _, _. split; [done|]. split; [done|]. by apply unchanged_stat. }
  destruct G as (p & n & -> & Hp & Hn & Hk & Hpath). rewrite Hk. cbn [mbind run_bind].
  rewrite (nodeAt_eq _ _ _ Hn). cbn [mbind run_bind]. unfold entryOf at 1. cbn [v_value].
  destruct (IsDir n) eqn:Hdir.
  { eexists _, _. split; [done|]. split; [done|]. by apply unchanged_stat. }
  pose proof (Compare_spec n prevValue prevIndex) as C. cbn [entryOf v_modified] in *.
  destruct (Compare prevValue prevIndex n) as [ok which].
  destruct (decide (_ ∧ _)) as [Hm|Hm].
  2: { destruct C as [-> ->]. cbn [negb]. eexists _, _. split; [done|]. split; [done|].
       by apply unchanged_stat. }
  subst ok. cbn [negb].
  destruct (writeTTL_ok (s_Root s) i (s_tree s) p n names value i expireTime)
    as (t1 & t2 & E1 & E2 & Ok2 & E3 & P2 & V2); [apply Hok|done..|].
  cbn [s_tree s_CurrentIndex set set_s_CurrentIndex]. rewrite Hi. fold i.
  rewrite (Repr_flat _ _ _ n) by done. cbn [mbind run_bind].
  rewrite E1. cbn [mbind run_bind]. rewrite E2. cbn [mbind run_bind]. rewrite E3.
  cbn [mbind run_bind]. rewrite ExpirationAndTTL_spec, Hpath.
  unfold overwrite in V2. rewrite Hdir in V2.
  assert (∀ m, n_ExpireTime (m <| n_ExpireTime := expireTime |>) = expireTime) as -> by done.
  publish (s_CurrentIndex s) names; [apply Hok|apply Hok|done|done|apply Hnames|done|].
  eexists _, _. split; [done|]. exists ep, p. split_and!; [done|done|done|].
  apply changed_intro; try done. intros k. unfold upd. etrans; [apply V2|]. case_decide; [|done].
  f_equal. unfold entryOf at 1. change (IsDir _) with (IsDir n). by rewrite Hdir.
Qed.
End operations.
