(* ===== verification/StoreDelete.v ===== *)
(** * StoreDelete: Delete, CompareAndDelete and the expiry of keys (src/store/store.go)

    Removing a node takes it and everything below it out of the map of the keys, and tells
    the watchers of each removed node. *)

From stdpp Require Import pretty.
From Stdlib Require Import String.
From S2P Require Import Prelude.
From S2P Require Import Wire.
From S2P Require Import Paths TtlHeap EtcdError StoreEvent StoreNode StoreTree StoreRemove.
From S2P Require Import Stats WatcherHub HubProps HubNotify Store StoreWalk StoreCreate StoreProps.
From S2P Require Import StoreUpdate.

(** ** The callback of a removal *)

(** What the callback, on the paths [paths], makes of the watchers. *)
Record told (ep : ptr) (ev : Event) (paths : list string) (h h' : watcherHub) : Prop := {
  td_events : wh_events h' = wh_events h;
  td_get : ∀ key wp w, key ∈ paths → wp ∈ watchersOf h key → wh_all h !! wp = Some w →
    w_eventChan w = [] → wants key true ev w = true →
    ∃ w', wh_all h' !! wp = Some w' ∧ w_eventChan w' = [ep];
  td_keep : ∀ wp w, wh_all h !! wp = Some w → w_eventChan w = [ep] →
    ∃ w', wh_all h' !! wp = Some w' ∧ w_eventChan w' = [ep];
  td_others : ∀ key, key ∉ paths → watchersOf h' key = watchersOf h key ∧
    ∀ wp, wp ∈ watchersOf h key → wh_all h' !! wp = wh_all h !! wp;
}.

Lemma told_one cur ep ev path h :
  hub_inv cur h → wh_events h !! ep = Some ev →
  ∃ h', notifyWatchers ep path true h = Ok h' ∧ hub_inv cur h' ∧ told ep ev [path] h h'.
Proof.
  intros [Hok (l & Hh & Hlast)] He.
  destruct (notifyWatchers_ok ep ev path true h Hok He) as (h' & E & Hok' & Hev & Heh & Hw & Ha).
  exists h'. split_and!; [done| |].
  { split; [done|]. exists l. by rewrite Hev, Heh. }
  split; [done|..].
  - intros key wp w ->%list_elem_of_singleton Hin Hwp Hc Hwant. rewrite Ha, decide_True, Hwp by done.
    eexists. split; [done|]. unfold afterNotify. by rewrite Hwant, Hc.
  - intros wp w Hwp Hc. rewrite Ha, Hwp. case_decide; [|eauto].
    eexists. split; [done|]. rewrite afterNotify_chan; [done|by rewrite Hc].
  - intros key Hk. rewrite list_elem_of_singleton in Hk. split; [by apply Hw|].
    intros wp Hin. rewrite Ha, decide_False; [done|]. intros Hin'. by apply Hk, (watchersOf_one h key path wp).
Qed.

Lemma told_nil ep ev h : told ep ev [] h h.
Proof.
  split; try done; eauto. intros key wp w Hk. by apply elem_of_nil in Hk.
Qed.

Lemma told_cons ep ev path paths h h1 h2 :
  hub_ok h → told ep ev [path] h h1 → told ep ev paths h1 h2 → told ep ev (path :: paths) h h2.
Proof.
  intros Hok [A1 A2 A3 A4] [B1 B2 B3 B4]. split.
  - congruence.
  - intros key wp w Hk Hin Hwp Hc Hwant. destruct (decide (key = path)) as [->|Hne].
    + destruct (A2 path wp w) as (w1 & H1 & C1); [by left|done..|]. by apply (B3 wp w1).
    + apply elem_of_cons in Hk as [?|Hk]; [done|].
      destruct (A4 key) as [E1 E2]; [by rewrite list_elem_of_singleton|].
      apply (B2 key wp w Hk); [by rewrite E1|by rewrite E2|done|done].
  - intros wp w Hwp Hc. destruct (A3 wp w Hwp Hc) as (w1 & H1 & C1). by apply (B3 wp w1).
  - intros key [Hk1 Hk2]%not_elem_of_cons.
    destruct (A4 key) as [E1 E2]; [by rewrite list_elem_of_singleton|].
    destruct (B4 key Hk2) as [F1 F2]. split; [congruence|]. intros wp Hin.
    rewrite F2, E2; [done..|]. by rewrite E1.
Qed.

Section removal.
Context `{ChildRange}.

Lemma called_told cur ep ev paths h h' :
  hub_inv cur h → wh_events h !! ep = Some ev → called (deletedCallback ep) paths h h' →
  hub_inv cur h' ∧ told ep ev paths h h'.
Proof.
  unfold called. revert h. induction paths as [|path paths IH]; intros h Hh He.
  { simpl. intros [= <-]. split; [done|apply told_nil]. }
  destruct (told_one cur ep ev path h Hh He) as (h1 & E1 & Hh1 & T1). simpl. rewrite E1. simpl.
  intros E2. destruct (IH h1 Hh1) as [Hh2 T2]; [by rewrite (td_events _ _ _ _ _ T1)|done|].
  split; [done|]. eapply told_cons; [apply Hh|done..].
Qed.

(** The condition of a removal is met: the node goes, with all below it. *)
Lemma removal_ok at_ cur root t h names p n dir recursive ep ev :
  shape_ok root (t_nodes t) → heap_ok (expiry t) (t_ttl t) → ttl_nonzero t →
  hub_inv cur h → wh_events h !! ep = Some ev →
  resolve (t_nodes t) root names = Some p → names ≠ [] → t_nodes t !! p = Some n →
  (n_Children n = None ∨ dir = true ∧ (n_Children n = Some ∅ ∨ recursive = true)) →
  ∃ t' h' paths,
    nodeRemove (deletedCallback ep) at_ (levels t) dir recursive p (t, h) = Ret (None, (t', h')) ∧
    removed root t t' [names] ∧ hub_inv cur h' ∧ told ep ev paths h h' ∧
    covers root t [names] paths.
Proof.
  intros Hs Hheap Hz Hh He Hp Hne Hn Hcase.
  assert (∀ path w, hub_inv cur w ∧ wh_events w = wh_events h →
    ∃ w', call (deletedCallback ep) path w = Ret w' ∧ hub_inv cur w' ∧ wh_events w' = wh_events h) as Hcb.
  { intros path w [Hw Hev]. destruct (told_one cur ep ev path w Hw) as (w' & E & Hw' & T); [by rewrite Hev|].
    exists w'. simpl. rewrite E. split_and!; [done..|]. by rewrite (td_events _ _ _ _ _ T). }
  assert (∃ t' h' paths,
    nodeRemove (deletedCallback ep) at_ (levels t) dir recursive p (t, h) = Ret (None, (t', h')) ∧
    removed root t t' [names] ∧ called (deletedCallback ep) paths h h' ∧ covers root t [names] paths)
    as (t' & h' & paths & E & R & C & V).
  2: { destruct (called_told cur ep ev paths h h' Hh He C). exists t', h', paths. by split_and!. }
  destruct Hcase as [Hc|[-> Hcase]].
  - edestruct (removeFile_ok root _ _ Hcb) as (t' & h' & paths & E & R & _ & C & V);
      [done..|exact Hp|done|exact Hn|done|]. eauto 10.
  - edestruct (removes_all root _ _ Hcb at_ (levels t) t h names p) as (t' & h' & paths & E & R & _ & C & V);
      [done..|exact Hp|done| |].
    { intros k Hk. apply (resolve_length _ _ _ Hs) in Hk. rewrite length_app in Hk.
      unfold levels. lia. }
    exists t', h', paths. split_and!; [|done..]. rewrite <-E. unfold levels. cbn [nodeRemove].
    rewrite (nodeAt_eq _ _ _ Hn). cbn [mbind run_bind].
    destruct Hcase as [-> | ->]; [|done]. by rewrite bool_decide_true.
Qed.
End removal.

(** ** The watchers of what is removed *)

(** The event [e] of the removal of [names] and all below it, when [v] was the map of the
    keys: a watcher of a removed key has the event in its channel if there was place, and
    the others are told as of any change. *)
Record dismissed (h h' : watcherHub) (ep : ptr) (e : Event) (names : list string)
    (v : list string → option entry) : Prop := {
  dm_below : ∀ wnames wp w, names `prefix_of` wnames → is_Some (v wnames) →
    wp ∈ watchersOf h (pathOf wnames) → wh_all h !! wp = Some w → w_eventChan w = [] →
    w_sinceIndex w ≤ Index e → ∃ w', wh_all h' !! wp = Some w' ∧ w_eventChan w' = [ep];
  dm_above : ∀ wnames wp w, ¬ names `prefix_of` wnames → Forall name_ok wnames →
    wp ∈ watchersOf h (pathOf wnames) → wh_all h !! wp = Some w →
    wh_all h' !! wp = Some (if interested wnames names e w then delivered ep w else w);
}.

Lemma wants_deleted names k ev w :
  names ≠ [] → ne_Key (e_Node ev) = pathOf names → w_sinceIndex w ≤ Index ev →
  wants (pathOf (names ++ k)) true ev w = true.
Proof.
  intros Hne Hkey Hidx. unfold wants. rewrite Hkey.
  rewrite (proj2 (Z.geb_le _ _)) by done. rewrite orb_true_r, andb_true_r.
  destruct k as [|x k].
  { rewrite app_nil_r, bool_decide_true by done. done. }
  rewrite pathOf_app by done. unfold isHidden.
  assert (String.length (pathOf names) < String.length (pathOf names ++ pathOf (x :: k)))%nat as Hlt.
  { generalize (pathOf names). intros a. induction a as [|c a IH]; [apply Nat.lt_0_succ|].
    apply -> Nat.succ_lt_mono. exact IH. }
  rewrite (proj2 (Nat.ltb_lt _ _) Hlt). by rewrite orb_true_r.
Qed.

Lemma dismiss_ok root t cur h h1 ep e names paths :
  hub_inv cur h → hub_inv cur h1 → 0 ≤ cur → shape_ok root (t_nodes t) →
  told ep e paths (h <| wh_events ::= <[ep := e]> |>) h1 → covers root t [names] paths →
  ne_Key (e_Node e) = pathOf names → names ≠ [] → Forall name_ok names → Index e = cur + 1 →
  ∃ h', notify ep h1 = Ok h' ∧ hub_inv (cur + 1) h' ∧ wh_events h' !! ep = Some e ∧
    dismissed h h' ep e names (view t root).
Proof.
  intros Hh Hh1 Hc Hs T V Hkey Hne Hnames Hidx.
  assert (wh_events h1 !! ep = Some e) as He.
  { rewrite (td_events _ _ _ _ _ T). apply lookup_insert_eq. }
  destruct (notify_ok cur h1 ep e names) as (h' & E & Hh' & Hev & A & _ & F); [done..|].
  exists h'. split_and!; [done..|by rewrite Hev|]. split.
  - intros wnames wp w [k ->] Hv Hin Hwp Hempty Hsince.
    destruct (td_get _ _ _ _ _ T (pathOf (names ++ k)) wp w) as (w1 & H1 & C1);
      [|exact Hin|exact Hwp|done|by apply wants_deleted|].
    + apply V. exists (names ++ k). split_and!; [apply under_single; by exists k| |done].
      destruct Hv as [en Hen]. apply view_Some in Hen as (q & _ & Hq & _); [|done]. by eexists.
    + destruct (F wp w1 H1) as (w2 & H2 & C2); [by rewrite C1|]. exists w2. by rewrite C2.
  - intros wnames wp w Hnp Hw Hin Hwp.
    destruct (td_others _ _ _ _ _ T (pathOf wnames)) as [E1 E2].
    + intros (k & Hk & Hr & He')%V. apply under_single in Hk. destruct Hr as [q Hq].
      apply (shape_at root _ _ _ Hs) in Hq as [Hkok _]. by apply pathOf_inj in He' as ->.
    + apply (A wnames wp w Hw); [by rewrite E1|]. rewrite E2; [done|exact Hin].
Qed.

(** ** Delete and CompareAndDelete *)
Definition without (names : list string) (v : list string → option entry) (k : list string)
  : option entry := if decide (names `prefix_of` k) then None else v k.

Definition hasChild (v : list string → option entry) (names : list string) : Prop :=
  ∃ x, is_Some (v (names ++ [x])).

(** A directory goes when the call says so, with what is in it only when it is recursive. *)
Definition deletable (v : list string → option entry) (names : list string) (old : entry)
    (dir recursive : bool) : Prop :=
  v_value old ≠ None ∨ recursive = true ∨ dir = true ∧ ¬ hasChild v names.

(** The event of a removal. *)
Definition removalEvent (now i : Z) (act : action) (key : string) (p : ptr) (old : entry)
    (isDir : bool) : Event :=
  mkEvent act (mkNodeExtern key None isDir None 0 [] i (v_created old))
    (Some (externOf now key p old)) i.

Lemma hasChild_children s names p n c :
  store_ok s → resolve (t_nodes (s_tree s)) (s_Root s) names = Some p →
  t_nodes (s_tree s) !! p = Some n → n_Children n = Some c → hasChild (keys s) names ↔ c ≠ ∅.
Proof.
  intros [Ht _ _] Hp Hn Hc. pose proof (tk_shape _ _ Ht) as Hs.
  assert (∀ x, is_Some (keys s (names ++ [x])) ↔ is_Some (c !! x)) as Hx.
  { intros x. assert (resolve (t_nodes (s_tree s)) (s_Root s) (names ++ [x]) = c !! x) as Hr.
    { rewrite resolve_app, Hp. simpl. rewrite Hn. simpl. rewrite Hc. simpl. by destruct (c !! x). }
    rewrite <-!not_eq_None_Some. unfold keys. by rewrite view_None, Hr. }
  unfold hasChild. setoid_rewrite Hx. split.
  - intros [x [q Hq]] ->. by rewrite lookup_empty in Hq.
  - intros (x & q & Hq)%map_choose. exists x. by eexists.
Qed.

Section operations.
Context `{ChildRange} (now : Z).

Lemma unchanged_share s ep e f :
  store_ok s → wh_events (s_WatcherHub s) !! ep = None →
  unchanged s (stat f (s <| s_WatcherHub ::= set wh_events (<[ep := e]>) |>)).
Proof.
  intros [Ht Hh Hi] Hep. split; try done.
  - split; [done| |done]. by apply (hub_inv_share _ _ ep e).
  - exists (<[ep := e]> (wh_events (s_WatcherHub s))). split; [done|]. by apply insert_subseteq.
Qed.

(** [t] is the tree [t0], possibly without [p] in its heap. *)
Record popped (t0 t : tree) (p : ptr) : Prop := {
  po_nodes : t_nodes t = t_nodes t0;
  po_heap : heap_ok (expiry t) (t_ttl t);
  po_less : ∀ q, q ∈ h_array (t_ttl t) → q ∈ h_array (t_ttl t0);
  po_rest : ∀ q, q ∈ h_array (t_ttl t0) → q ∈ h_array (t_ttl t) ∨ q = p;
}.
Lemma popped_refl root t p : tree_ok root t → popped t t p.
Proof. intros [_ Hh _]. split; auto. Qed.

Lemma popped_removed root t0 t t' p names :
  popped t0 t p → resolve (t_nodes t0) root names = Some p → removed root t t' [names] →
  removed root t0 t' [names].
Proof.
  intros [P1 P2 P3 P4] Hp [R1 R2 R3 R4 R5]. rewrite P1 in *. split; try done. intros q. rewrite R5. split.
  - intros [Hq Hn]. split; [by apply P3|done].
  - intros [Hq Hn]. split; [|done]. destruct (P4 q Hq) as [| ->]; [done|]. destruct Hn.
    exists names. split; [by apply under_single|done].
Qed.

(** What a removal that is allowed gives. *)
Lemma remove_settled s t0 names p n dir recursive at_ act f :
  let i := s_CurrentIndex s + 1 in
  let e := removalEvent now i act (pathOf names) p (entryOf n) (IsDir n && negb (bool_decide (act = Expire))) in
  let ep := newPtr (wh_events (s_WatcherHub s)) in
  let h0 := (s_WatcherHub s) <| wh_events ::= <[ep := e]> |> in
  store_ok s → room s → resolve (t_nodes (s_tree s)) (s_Root s) names = Some p → names ≠ [] →
  t_nodes (s_tree s) !! p = Some n → popped (s_tree s) t0 p →
  (n_Children n = None ∨ dir = true ∧ (n_Children n = Some ∅ ∨ recursive = true)) →
  ∃ t h1 h2, nodeRemove (deletedCallback ep) at_ (levels t0) dir recursive p (t0, h0) =
      Ret (None, (t, h1)) ∧ notify ep h1 = Ok h2 ∧ removed (s_Root s) (s_tree s) t [names] ∧
    (∀ s', s' = stat f (s <| s_WatcherHub := h2 |> <| s_tree := t |> <| s_CurrentIndex := i |>) →
      settled s s' ep e (without names (keys s)) ∧
      dismissed (s_WatcherHub s) (s_WatcherHub s') ep e names (keys s)).
Proof.
  intros i e ep h0 Hok Hroom Hp Hne Hn Hpop Hcase. pose proof Hok as [Ht Hh Hi]. unfold room in Hroom.
  pose proof (tk_shape _ _ Ht) as Hs. destruct (shape_at _ _ _ _ Hs Hp) as (Hnames & _).
  pose proof (newPtr_fresh (wh_events (s_WatcherHub s)) : wh_events (s_WatcherHub s) !! ep = None) as Hf.
  destruct (removal_ok at_ (s_CurrentIndex s) (s_Root s) t0 h0 names p n dir recursive ep e)
    as (t & h1 & paths & E & R & Hh1 & T & V);
    [by rewrite (po_nodes _ _ _ Hpop)|apply Hpop| |by apply hub_inv_share|apply lookup_insert_eq|
     by rewrite (po_nodes _ _ _ Hpop)|done|by rewrite (po_nodes _ _ _ Hpop)|done|].
  { intros q Hq. rewrite (po_nodes _ _ _ Hpop). by apply (tree_ok_nonzero _ _ Ht), Hpop. }
  pose proof (popped_removed _ _ _ _ _ _ Hpop Hp R) as R'.
  destruct (dismiss_ok (s_Root s) (s_tree s) (s_CurrentIndex s) (s_WatcherHub s) h1 ep e names paths)
    as (h2 & E2 & Hh2 & Hev & Hd); [done|done|lia|done|done| |done..|].
  { unfold covers in *. by rewrite (po_nodes _ _ _ Hpop) in V. }
  exists t, h1, h2. split_and!; [done..|]. intros s' ->. split; [|done]. split; try done.
  - split; simpl; [by eapply tree_ok_removed|done|lia].
  - by apply view_removed.
Qed.

(** The condition that the node itself is asked for. *)
Definition removable (n : node) (dir recursive : bool) : Prop :=
  n_Children n = None ∨ dir = true ∧ (n_Children n = Some ∅ ∨ recursive = true).
#[local] Instance removable_dec n dir recursive : Decision (removable n dir recursive).
Proof. unfold removable. apply _. Defined.

Lemma deletable_iff s names p n dir recursive :
  store_ok s → resolve (t_nodes (s_tree s)) (s_Root s) names = Some p →
  t_nodes (s_tree s) !! p = Some n →
  deletable (keys s) names (entryOf n) dir recursive ↔
  removable n (if recursive then true else dir) recursive.
Proof.
  intros Hok Hp Hn. unfold deletable, removable, entryOf, IsDir. cbn [v_value].
  destruct (n_Children n) as [c|] eqn:Hc; [|by split; [left|left]].
  rewrite (hasChild_children s names p n c) by done.
  destruct recursive, (decide (c = ∅)) as [->|Hne]; naive_solver.
Qed.

Lemma nodeRemove_refused {W} (callback : option (string → W → run W)) at_ t w n p dir recursive :
  t_nodes t !! p = Some n → ¬ removable n dir recursive →
  nodeRemove callback at_ (levels t) dir recursive p (t, w) =
  Ret (Some (NewError (if dir then EcodeDirNotEmpty else EcodeNotFile) (n_Path n) at_), (t, w)).
Proof.
  intros Hn Hno. unfold removable in Hno. unfold levels. cbn [nodeRemove].
  rewrite (nodeAt_eq _ _ _ Hn). cbn [mbind run_bind].
  destruct (n_Children n) as [c|]; [|naive_solver].
  destruct dir; [|done]. cbn [negb]. rewrite bool_decide_false by naive_solver.
  destruct recursive; [naive_solver|done].
Qed.

Lemma storeDelete_ok s nodePath dir recursive :
  let i := s_CurrentIndex s + 1 in
  let names := parts nodePath in
  store_ok s → room s →
  ∃ s' r, storeDelete now nodePath dir recursive s = Ret (s', r) ∧
    match notRoot (s_CurrentIndex s) names $ onNode (s_CurrentIndex s) (keys s) names inr with
    | inl err => r = inl err ∧ unchanged s s'
    | inr old =>
        (¬ deletable (keys s) names old dir recursive ∧
          r = inl (NewError (if dir then EcodeDirNotEmpty else EcodeNotFile) (pathOf names)
                     (s_CurrentIndex s)) ∧ unchanged s s') ∨
        (deletable (keys s) names old dir recursive ∧ ∃ ep p,
          let e := removalEvent now i Delete (pathOf names) p old
                     (match v_value old with None => true | _ => false end) in
          r = inr ep ∧ resolve (t_nodes (s_tree s)) (s_Root s) names = Some p ∧
          settled s s' ep e (without names (keys s)) ∧
          dismissed (s_WatcherHub s) (s_WatcherHub s') ep e names (keys s))
    end.
Proof.
  intros i names Hok Hroom. pose proof (next_index s Hok Hroom) as Hi.
  unfold storeDelete, notRoot. rewrite Clean_Join. fold names.
  pose proof (parts_ok nodePath : Forall name_ok names) as Hnames. clearbody names.
  destruct (decide (names = [])) as [->|Hne].
  { eexists _, _. split; [done|]. split; [done|]. by apply unchanged_refl. }
  rewrite (decide_False (P := pathOf names = "/")) by by intros ?%pathOf_root.
  pose proof (internalGet_names s names Hok Hnames) as G. unfold onNode.
  destruct (lookupSpec _ _ _ _) as [err|].
  { rewrite G. eexists _, _. split; [done|]. split; [done|]. by apply unchanged_stat. }
  destruct G as (p & n & -> & Hp & Hn & Hk & Hpath). rewrite Hk. cbn [mbind run_bind].
  rewrite (nodeAt_eq _ _ _ Hn). cbn [mbind run_bind].
  rewrite (Repr_flat _ _ _ n) by done. cbn [mbind run_bind].
  rewrite Hpath, Hi. fold i.
  set (e := removalEvent now i Delete (pathOf names) p (entryOf n) (IsDir n)).
  match goal with |- context [shareEvent ?x s] =>
    replace x with e by (unfold e, removalEvent; by destruct (IsDir n)) end.
  assert ((match v_value (entryOf n) with None => true | _ => false end) = IsDir n) as ->
    by (unfold entryOf; by destruct (IsDir n)).
  unfold shareEvent. set (ep := newPtr _). set (rdir := if recursive then true else dir).
  pose proof (deletable_iff s names p n dir recursive Hok Hp Hn) as Hdel. fold rdir in Hdel.
  destruct (decide (removable n rdir recursive)) as [Hyes|Hno].
  - destruct (remove_settled s (s_tree s) names p n rdir recursive (s_CurrentIndex s) Delete DeleteSuccess)
      as (t & h1 & h2 & E1 & E2 & _ & Hfin); [done..|eapply popped_refl, Hok|done|].
    rewrite andb_true_r in E1, Hfin. fold i e ep in E1, E2, Hfin.
    cbn [s_tree s_WatcherHub s_CurrentIndex set set_s_WatcherHub]. rewrite E1. cbn [mbind run_bind].
    unfold hubNotify. cbn [s_WatcherHub set set_s_WatcherHub set_s_CurrentIndex].
    rewrite E2. cbn [lift mbind run_bind]. eexists _, _. split; [done|].
    right. split; [by apply Hdel|]. exists ep, p. split; [done|]. split; [done|].
    apply Hfin. unfold i. rewrite <-Hi. by destruct s.
  - cbn [s_tree s_WatcherHub s_CurrentIndex set set_s_WatcherHub].
    rewrite (nodeRemove_refused _ _ _ _ n) by done. cbn [mbind run_bind].
    eexists _, _. split; [done|]. left. split; [by rewrite Hdel|]. rewrite Hpath. split.
    + f_equal. unfold rdir. destruct recursive; [|done]. exfalso. apply Hno. by right; auto.
    + pose proof (unchanged_share s ep e DeleteFail Hok (newPtr_fresh _)) as U. by destruct s.
Qed.

Lemma storeCompareAndDelete_ok s nodePath prevValue prevIndex :
  let i := s_CurrentIndex s + 1 in
  let names := parts nodePath in
  store_ok s → room s →
  ∃ s' r, storeCompareAndDelete now nodePath prevValue prevIndex s = Ret (s', r) ∧
    match compareSpec (s_CurrentIndex s) (keys s) names prevValue prevIndex (λ en, en) with
    | inl err => r = inl err ∧ unchanged s s'
    | inr old => ∃ ep p, let e := removalEvent now i CompareAndDelete (pathOf names) p old false in
        r = inr ep ∧ resolve (t_nodes (s_tree s)) (s_Root s) names = Some p ∧
        keys s names = Some old ∧ settled s s' ep e (without names (keys s)) ∧
        dismissed (s_WatcherHub s) (s_WatcherHub s') ep e names (keys s)
    end.
Proof.
  intros i names Hok Hroom. pose proof (next_index s Hok Hroom) as Hi.
  unfold storeCompareAndDelete, compareSpec. rewrite Clean_Join. fold names.
  pose proof (parts_ok nodePath : Forall name_ok names) as Hnames. clearbody names.
  pose proof (internalGet_names s names Hok Hnames) as G. unfold onNode.
  destruct (lookupSpec _ _ _ _) as [err|].
  { rewrite G. eexists _, _. split; [done|]. split; [done|]. by apply unchanged_stat. }
  destruct G as (p & n & -> & Hp & Hn & Hk & Hpath). rewrite Hk. cbn [mbind run_bind].
  rewrite (nodeAt_eq _ _ _ Hn). cbn [mbind run_bind]. unfold entryOf at 1. cbn [v_value].
  destruct (IsDir n) eqn:Hdir.
  { eexists _, _. split; [done|]. split; [done|]. by apply unchanged_stat. }
  assert (names ≠ []) as Hne.
  { intros ->. pose proof (root_dir s _ Hok Hk) as Hr. unfold entryOf in Hr. by rewrite Hdir in Hr. }
  pose proof (Compare_spec n prevValue prevIndex) as C. cbn [entryOf v_modified] in *.
  destruct (Compare prevValue prevIndex n) as [ok which].
  destruct (decide (_ ∧ _)) as [Hm|Hm].
  2: { destruct C as [-> ->]. cbn [negb]. eexists _, _. split; [done|]. split; [done|].
       by apply unchanged_stat. }
  subst ok. cbn [negb].
  destruct (remove_settled s (s_tree s) names p n false false i CompareAndDelete CompareAndDeleteSuccess)
    as (t & h1 & h2 & E1 & E2 & _ & Hfin); [done..|eapply popped_refl, Hok| |].
  { left. unfold IsDir in Hdir. by destruct (n_Children n). }
  rewrite Hdir in E1, Hfin. fold i in E1, Hfin.
  cbn [s_tree s_CurrentIndex set set_s_CurrentIndex]. rewrite Hi. fold i.
  rewrite (Repr_flat _ _ _ n), Hpath by done. cbn [mbind run_bind].
  unfold shareEvent. cbn [s_tree s_WatcherHub s_CurrentIndex set set_s_WatcherHub set_s_CurrentIndex].
  rewrite Hi. fold i.
  match type of E1 with ?l = _ => match goal with |- context [nodeRemove ?a ?b ?c ?d ?e ?f ?g] =>
    change (nodeRemove a b c d e f g) with l end end.
  rewrite E1. cbn [mbind run_bind].
  unfold hubNotify. cbn [s_WatcherHub set set_s_WatcherHub set_s_CurrentIndex].
  match type of E2 with ?l = _ => match goal with |- context [notify ?a ?b] =>
    change (notify a b) with l end end.
  rewrite E2. cbn [lift mbind run_bind]. eexists _, _. split; [done|].
  eexists _, p. split; [done|]. split; [done|]. split; [done|].
  apply Hfin. unfold i. rewrite <-Hi. by destruct s.
Qed.
End operations.
