(* ===== verification/StoreExpire.v ===== *)
(** * StoreExpire: DeleteExpiredKeys (src/store/store.go)

    The loop takes the node that expires first from the heap, as long as its time has come.
    It ends, and then the keys that are left are those with no expired node on their way. *)

From stdpp Require Import pretty.
From Stdlib Require Import String.
From S2P Require Import Prelude.
From S2P Require Import Wire.
From S2P Require Import Paths TtlHeap EtcdError StoreEvent StoreNode StoreTree StoreRemove.
From S2P Require Import Stats WatcherHub HubProps HubNotify Store StoreWalk StoreCreate StoreProps.
From S2P Require Import StoreUpdate StoreDelete.

(** The time of the entry has come. *)
Definition due (cutoff : Z) (en : entry) : bool :=
  negb (v_expire en =? 0) && (v_expire en <=? cutoff).

(** A key is gone when it or a directory above it is due. *)
Definition expiredKey (cutoff : Z) (v : list string → option entry) (k : list string) : bool :=
  existsb (λ j, match v (take j k) with Some en => due cutoff en | None => false end)
    (seq 0 (S (length k))).

Lemma expiredKey_spec cutoff v k :
  expiredKey cutoff v k = true ↔ ∃ j en, j `prefix_of` k ∧ v j = Some en ∧ due cutoff en = true.
Proof.
  unfold expiredKey. rewrite existsb_exists. setoid_rewrite <-list_elem_of_In.
  setoid_rewrite elem_of_seq. split.
  - intros (j & Hj & Hd). destruct (v (take j k)) as [en|] eqn:Hv; [|done].
    exists (take j k), en. split_and!; [|done..]. exists (drop j k). by rewrite take_drop.
  - intros (j & en & [z ->] & Hv & Hd). exists (length j). rewrite take_app_length, Hv.
    rewrite length_app. split; [lia|done].
Qed.

(** The nodes of the heap are the keys that have a time. *)
Lemma heap_keys s p :
  store_ok s → p ∈ h_array (t_ttl (s_tree s)) ↔
  ∃ names n, resolve (t_nodes (s_tree s)) (s_Root s) names = Some p ∧
    t_nodes (s_tree s) !! p = Some n ∧ keys s names = Some (entryOf n) ∧ n_ExpireTime n ≠ 0.
Proof.
  intros [Ht _ _]. pose proof (tk_shape _ _ Ht) as Hs. rewrite (tk_ttl _ _ Ht). split.
  - intros [Hz [k Hk]]. destruct (view_resolve _ _ Hs _ _ Hk) as (n & Hn & Hv).
    exists k, n. split_and!; [done..|]. unfold expireOf in Hz. by rewrite Hn in Hz.
  - intros (k & n & Hk & Hn & _ & Hz). split; [|eauto]. unfold expireOf. by rewrite Hn.
Qed.

Section operations.
Context `{ChildRange} (now : Z).

Lemma popped_heap root t p :
  tree_ok root t → top (t_ttl t) = Some p →
  ∃ h, pop (expiry t) (t_ttl t) = Ok (h, p) ∧ popped t (t <| t_ttl := h |>) p.
Proof.
  intros [_ Hh _] Htop. destruct (pop_ok _ _ _ Hh Htop) as (h & E & Hperm & Hh').
  exists h. split; [done|]. split; [done|done|..]; intros q; cbn [t_ttl set set_t_ttl].
  - rewrite Hperm. by right.
  - rewrite Hperm. intros [->|]%elem_of_cons; auto.
Qed.

Lemma removed_shorter root t t' p names :
  tree_ok root t → resolve (t_nodes t) root names = Some p → p ∈ h_array (t_ttl t) →
  removed root t t' [names] → (Len (t_ttl t') < Len (t_ttl t))%nat.
Proof.
  intros Ht Hp Hin R. pose proof (hk_map _ _ (rm_heap _ _ _ _ R)) as Hm.
  assert (p ∉ h_array (t_ttl t')) as Hno.
  { intros [_ Hn]%(rm_ttl _ _ _ _ R). destruct Hn. exists names. split; [by apply under_single|done]. }
  assert (p :: h_array (t_ttl t') ⊆+ h_array (t_ttl t)) as Hsub.
  { apply NoDup_submseteq; [constructor; [done|by apply map_ok_NoDup]|].
    intros q [->|Hq]%elem_of_cons; [done|]. by apply (rm_ttl _ _ _ _ R) in Hq as [? _]. }
  apply submseteq_length in Hsub. unfold Len. simpl in Hsub. lia.
Qed.

(** A turn that removes the top of the heap. *)
Lemma expireTop_ok s cutoff names p n :
  store_ok s → room s → top (t_ttl (s_tree s)) = Some p →
  resolve (t_nodes (s_tree s)) (s_Root s) names = Some p → names ≠ [] →
  t_nodes (s_tree s) !! p = Some n → n_ExpireTime n ≤ cutoff →
  ∃ s', expireOne now cutoff s = Ret (Some s') ∧
    (Len (t_ttl (s_tree s')) < Len (t_ttl (s_tree s)))%nat ∧
    let e := removalEvent now (s_CurrentIndex s + 1) Expire (pathOf names) p (entryOf n) false in
    ∃ ep, settled s s' ep e (without names (keys s)) ∧
      dismissed (s_WatcherHub s) (s_WatcherHub s') ep e names (keys s).
Proof.
  intros Hok Hroom Htop Hp Hne Hn Hle. pose proof Hok as [Ht _ _].
  pose proof (next_index s Hok Hroom) as Hi.
  destruct (shape_at _ _ _ _ (tk_shape _ _ Ht) Hp) as (_ & n' & Hn' & Hpath & _). simplify_eq.
  destruct (popped_heap _ _ _ Ht Htop) as (hp & E0 & Hpop).
  set (i := s_CurrentIndex s + 1).
  destruct (remove_settled now s _ names p n true true i Expire ExpireCount Hok Hroom Hp Hne Hn Hpop)
    as (t & h1 & h2 & E1 & E2 & R & Hfin); [by right; auto|].
  rewrite bool_decide_true, andb_false_r in E1, Hfin by done. fold i in E1, Hfin.
  unfold expireOne. rewrite Htop, (nodeAt_eq _ _ _ Hn). cbn [mbind run_bind].
  rewrite Z.gtb_ltb, (proj2 (Z.ltb_ge _ _)) by done.
  cbn [s_tree s_CurrentIndex set set_s_CurrentIndex]. rewrite Hi. fold i.
  rewrite (Repr_flat _ _ _ n), Hpath by done. cbn [mbind run_bind].
  unfold shareEvent. cbn [s_tree s_WatcherHub s_CurrentIndex set set_s_WatcherHub set_s_CurrentIndex].
  rewrite E0. cbn [lift mbind run_bind]. rewrite Hi. fold i.
  match type of E1 with ?l = _ => match goal with |- context [nodeRemove ?a ?b ?c ?d ?e ?f ?g] =>
    change (nodeRemove a b c d e f g) with l end end.
  rewrite E1. cbn [mbind run_bind]. unfold hubNotify.
  match type of E2 with ?l = _ => match goal with |- context [notify ?a ?b] =>
    change (notify a b) with l end end.
  rewrite E2. cbn [lift mbind run_bind]. eexists. split; [done|]. split.
  { eapply removed_shorter; [done|exact Hp| |exact R]. by eapply list_elem_of_lookup_2. }
  eexists. apply Hfin. unfold i. rewrite <-Hi. by destruct s.
Qed.

(** One turn: nothing is due, or the key that is due first goes. *)
Lemma expireOne_ok s cutoff :
  store_ok s → (top (t_ttl (s_tree s)) ≠ None → room s) →
  expireOne now cutoff s = Ret None ∧
    (∀ k en, keys s k = Some en → due cutoff en = false) ∨
  ∃ s' names p old, expireOne now cutoff s = Ret (Some s') ∧
    keys s names = Some old ∧ due cutoff old = true ∧
    (∀ k en, keys s k = Some en → v_expire en ≠ 0 → v_expire old ≤ v_expire en) ∧
    (Len (t_ttl (s_tree s')) < Len (t_ttl (s_tree s)))%nat ∧
    let e := removalEvent now (s_CurrentIndex s + 1) Expire (pathOf names) p old false in
    ∃ ep, settled s s' ep e (without names (keys s)) ∧
      dismissed (s_WatcherHub s) (s_WatcherHub s') ep e names (keys s).
Proof.
  intros Hok Hroom. pose proof Hok as [Ht _ _]. pose proof (tk_shape _ _ Ht) as Hs.
  assert (∀ k en, keys s k = Some en → v_expire en ≠ 0 →
    ∃ q, q ∈ h_array (t_ttl (s_tree s)) ∧ expiry (s_tree s) q = v_expire en) as Hall.
  { intros k en Hk Hz. apply (view_Some _ _ Hs) in Hk as (q & n & Hq & Hn & -> & _). exists q.
    split; [|unfold expireOf; by rewrite Hn]. apply (heap_keys s q Hok). exists k, n.
    split_and!; [done..| |done]. unfold keys, view. rewrite Hq. simpl. by rewrite Hn. }
  destruct (top (t_ttl (s_tree s))) as [p|] eqn:Htop.
  2: { left. split; [unfold expireOne; by rewrite Htop|]. intros k en Hk. unfold due.
       destruct (Z.eqb_spec (v_expire en) 0) as [|Hz]; [done|]. destruct (Hall k en Hk Hz) as (q & Hq & _).
       unfold top in Htop. destruct (h_array (t_ttl (s_tree s))); [by apply elem_of_nil in Hq|done]. }
  assert (p ∈ h_array (t_ttl (s_tree s))) as Hin by (by eapply list_elem_of_lookup_2).
  pose proof (λ q, top_min _ _ p q (tk_heap _ _ Ht) Htop) as Hmin.
  apply (heap_keys s p Hok) in Hin as Hnode. destruct Hnode as (names & n & Hp & Hn & Hk & Hz).
  assert (expiry (s_tree s) p = n_ExpireTime n) as Hep by (unfold expireOf; by rewrite Hn).
  destruct (Z.lt_ge_cases cutoff (n_ExpireTime n)) as [Hlt|Hge].
  { left. split.
    { unfold expireOne. rewrite Htop, (nodeAt_eq _ _ _ Hn). cbn [mbind run_bind].
      by rewrite Z.gtb_ltb, (proj2 (Z.ltb_lt _ _)). }
    intros k en Hen. unfold due.
    destruct (Z.eqb_spec (v_expire en) 0) as [|Hnz]; [done|]. destruct (Hall k en Hen Hnz) as (q & Hq & Hqe).
    specialize (Hmin q Hq). apply Z.leb_gt. lia. }
  assert (names ≠ []) as Hne.
  { intros ->. destruct (sh_root _ _ Hs) as (r & Hr & _ & _ & _ & Hre). simpl in Hp. simplify_eq. }
  destruct (expireTop_ok s cutoff names p n) as (s' & E & Hlen & ep & D); [auto..|].
  right. exists s', names, p, (entryOf n). split_and!; [done|done| | |done|by exists ep].
  - unfold due. simpl. rewrite (proj2 (Z.eqb_neq _ _)), (proj2 (Z.leb_le _ _)) by done. done.
  - intros k en Hen Hnz. destruct (Hall k en Hen Hnz) as (q & Hq & Hqe). specialize (Hmin q Hq).
    simpl. lia.
Qed.

(** The keys that a turn leaves, and those that the whole loop leaves. *)
Lemma expiredKey_step cutoff v names old k :
  v names = Some old → due cutoff old = true →
  (if expiredKey cutoff (without names v) k then None else without names v k) =
  (if expiredKey cutoff v k then None else v k).
Proof.
  intros Hv Hd. destruct (expiredKey cutoff v k) eqn:He.
  - destruct (expiredKey cutoff (without names v) k) eqn:He'; [done|]. unfold without.
    case_decide as Hp; [done|]. apply expiredKey_spec in He as (j & en & Hj & Hen & Hdue).
    assert (expiredKey cutoff (without names v) k = true); [|congruence].
    apply expiredKey_spec. exists j, en. split_and!; [done| |done]. unfold without.
    rewrite decide_False; [done|]. intros Hnj. apply Hp. by trans j.
  - destruct (expiredKey cutoff (without names v) k) eqn:He'.
    + apply expiredKey_spec in He' as (j & en & Hj & Hen & Hdue). unfold without in Hen.
      case_decide; [done|]. assert (expiredKey cutoff v k = true); [|congruence].
      apply expiredKey_spec. eauto.
    + unfold without. case_decide as Hp; [|done].
      assert (expiredKey cutoff v k = true); [|congruence]. apply expiredKey_spec. eauto.
Qed.

Lemma expiredKey_ext cutoff v v' k : (∀ j, v j = v' j) → expiredKey cutoff v k = expiredKey cutoff v' k.
Proof.
  intros Hv. apply Bool.eq_true_iff_eq. rewrite !expiredKey_spec. by setoid_rewrite Hv.
Qed.


Lemma expireLoop_ok fuel s cutoff :
  store_ok s → (Len (t_ttl (s_tree s)) < fuel)%nat →
  s_CurrentIndex s + Z.of_nat (Len (t_ttl (s_tree s))) < 2 ^ 64 →
  ∃ s', expireLoop now fuel cutoff s = Ret s' ∧ store_ok s' ∧ s_Root s' = s_Root s ∧
    (∀ k, keys s' k = if expiredKey cutoff (keys s) k then None else keys s k) ∧
    s_CurrentIndex s ≤ s_CurrentIndex s' ∧
    s_CurrentIndex s' + Z.of_nat (Len (t_ttl (s_tree s'))) ≤
      s_CurrentIndex s + Z.of_nat (Len (t_ttl (s_tree s))).
Proof.
  revert s. induction fuel as [|fuel IH]; intros s Hok Hfuel Hroom; [lia|]. cbn [expireLoop].
  destruct (expireOne_ok s cutoff Hok) as [[E Hnone]|(s1 & names & p & old & E & Hk & Hd & _ & Hlen & ep & D & _)].
  { intros Htop. unfold room. unfold top, Len in *. destruct (h_array (t_ttl (s_tree s))); [done|].
    simpl in *. lia. }
  - rewrite E. exists s. split_and!; [done..| |lia|lia]. intros k.
    destruct (expiredKey cutoff (keys s) k) eqn:He; [|done].
    apply expiredKey_spec in He as (j & en & _ & Hen & Hdue). by rewrite (Hnone j en Hen) in Hdue.
  - rewrite E. cbn [mbind run_bind]. pose proof (st_index _ _ _ _ _ D) as Hidx.
    destruct (IH s1) as (s2 & E2 & Ok2 & Root2 & V2 & I2); [apply D|lia|lia|].
    exists s2. split_and!; [done|done| | |lia|lia].
    + by rewrite Root2, (st_root _ _ _ _ _ D).
    + intros k. rewrite V2, <-(expiredKey_step cutoff (keys s) names old k Hk Hd).
      rewrite (expiredKey_ext _ _ (without names (keys s))) by apply (st_keys _ _ _ _ _ D).
      by rewrite (st_keys _ _ _ _ _ D).
Qed.

Lemma DeleteExpiredKeys_ok s cutoff :
  store_ok s → s_CurrentIndex s + Z.of_nat (Len (t_ttl (s_tree s))) < 2 ^ 64 →
  ∃ s', DeleteExpiredKeys now cutoff s = Ret s' ∧ store_ok s' ∧
    (∀ k, keys s' k = if expiredKey cutoff (keys s) k then None else keys s k) ∧
    s_CurrentIndex s ≤ s_CurrentIndex s' ∧
    s_CurrentIndex s' + Z.of_nat (Len (t_ttl (s_tree s'))) ≤
      s_CurrentIndex s + Z.of_nat (Len (t_ttl (s_tree s))).
Proof.
  intros Hok Hroom. unfold DeleteExpiredKeys.
  destruct (expireLoop_ok (S (Len (t_ttl (s_tree s)))) s cutoff Hok) as (s' & E & Ok' & _ & V & I1 & I2);
    [lia|done|]. exists s'. split_and!; [done..|lia|lia].
Qed.
End operations.
