(* ===== verification/StoreGet.v ===== *)
(** * StoreGet: Get (src/store/store.go, src/store/node.go, src/store/node_extern.go)

    A Get shows the node, and of a directory the nodes below it that are not hidden: the
    direct children, or all of them when the call is recursive; sorted at every level when
    asked for. *)

From stdpp Require Import pretty sorting.
From Stdlib Require Import String Ascii.
From S2P Require Import Prelude.
From S2P Require Import Wire.
From S2P Require Import Paths TtlHeap EtcdError StoreEvent StoreNode StoreTree StoreRemove.
From S2P Require Import Stats WatcherHub HubProps HubNotify Store StoreWalk StoreCreate StoreProps.
From S2P Require Import StoreUpdate.

(** The nodes of an answer, each without those below it. *)
Fixpoint flatten (e : NodeExtern) : list NodeExtern :=
  match e with
  | mkNodeExtern key value dir exp ttl nodes modified created =>
      mkNodeExtern key value dir exp ttl [] modified created :: flat_map flatten nodes
  end.

Lemma flatten_nodes key value dir exp ttl nodes modified created x :
  x ∈ flatten (mkNodeExtern key value dir exp ttl nodes modified created) ↔
  x = mkNodeExtern key value dir exp ttl [] modified created ∨ ∃ e, e ∈ nodes ∧ x ∈ flatten e.
Proof.
  cbn [flatten]. rewrite elem_of_cons. apply or_iff_compat_l.
  rewrite list_elem_of_In, in_flat_map. setoid_rewrite list_elem_of_In. naive_solver.
Qed.

Lemma flatten_set e nodes x :
  x ∈ flatten (e <| ne_Nodes := nodes |>) ↔
  x = e <| ne_Nodes := [] |> ∨ ∃ e', e' ∈ nodes ∧ x ∈ flatten e'.
Proof. apply flatten_nodes. Qed.

Lemma sortNodes_elem l e : e ∈ sortNodes l ↔ e ∈ l.
Proof. unfold sortNodes. by rewrite merge_sort_Permutation. Qed.

#[export] Instance key_le_total : Total key_le.
Proof. intros a b. unfold key_le. destruct (String.leb_total (ne_Key a) (ne_Key b)); auto. Qed.

Lemma sortNodes_sorted l : Sorted key_le (sortNodes l).
Proof. apply Sorted_merge_sort, _. Qed.

(** The answer is the tree of the keys: each node in [ne_Nodes] of another is one of its
    children, no child comes twice, and at every level the children are sorted by key when
    [sorted] asks for it. *)
Inductive nested (sorted : bool) (names : list string) (e : NodeExtern) : Prop :=
  nested_at (name : NodeExtern → string) :
    ne_Key e = pathOf names → NoDup (ne_Key <$> ne_Nodes e) →
    (sorted = true → Sorted key_le (ne_Nodes e)) →
    (∀ c, c ∈ ne_Nodes e → nested sorted (names ++ [name c]) c) → nested sorted names e.

Lemma nested_key sorted names e : nested sorted names e → ne_Key e = pathOf names.
Proof. by intros []. Qed.

(** A node with the children [es], sorted or not. *)
Lemma nested_nodes (sorted : bool) names e es :
  ne_Key e = pathOf names → ne_Nodes e = (if sorted then sortNodes es else es) →
  NoDup (ne_Key <$> es) → (∀ c, c ∈ es → ∃ x, name_ok x ∧ nested sorted (names ++ [x]) c) →
  nested sorted names e.
Proof.
  intros Hk He Hd Hc. apply (nested_at _ _ _ (λ c, (Split (ne_Key c)).2)); rewrite ?He; [done|..].
  - destruct sorted; [|done]. unfold sortNodes. by rewrite merge_sort_Permutation.
  - intros ->. apply sortNodes_sorted.
  - intros c Hin. destruct (Hc c) as (x & Hx & Hn); [destruct sorted; [by apply sortNodes_elem|done]|].
    by rewrite (nested_key _ _ _ Hn), Split_pathOf.
Qed.

Lemma nested_leaf sorted names e :
  ne_Key e = pathOf names → ne_Nodes e = [] → nested sorted names e.
Proof.
  intros Hk He. apply (nested_nodes _ _ _ []); [done|by destruct sorted|constructor|].
  by intros c ?%elem_of_nil.
Qed.

Lemma IsHidden_child m names x :
  name_ok x → n_Path m = pathOf (names ++ [x]) → IsHidden m = Ok (hiddenName x).
Proof.
  intros Hx Hp. unfold IsHidden, baseName. rewrite Hp, Split_pathOf by done. simpl.
  destruct x as [|c x]; [by destruct Hx|done].
Qed.

(** The paths of the children of a directory are distinct. *)
Lemma NoDup_childPaths names (l : list (string * ptr)) :
  NoDup l.*1 → (∀ x q, (x, q) ∈ l → name_ok x) → NoDup ((λ x, pathOf (names ++ [x])) <$> l.*1).
Proof.
  intros Hd Hok. apply NoDup_fmap_2_strong; [|done].
  intros x y ([x' p] & -> & Hx)%list_elem_of_fmap ([y' q] & -> & Hy)%list_elem_of_fmap E.
  apply (f_equal Split) in E. rewrite !Split_pathOf in E by (by eapply Hok). by injection E.
Qed.

Section get.
Context `{ChildRange} (now : Z).

Lemma reprVisible_ok f t (l : list ptr) (shown : ptr → bool) :
  (∀ p, p ∈ l → ∃ m, t_nodes t !! p = Some m ∧ IsHidden m = Ok (negb (shown p)) ∧
    (shown p = true → ∃ e, f p = Ret e)) →
  ∃ es, reprVisible f t l = Ret es ∧
    ∀ e, e ∈ es ↔ ∃ p, p ∈ l ∧ shown p = true ∧ f p = Ret e.
Proof.
  induction l as [|p l IH]; intros Hl.
  { exists []. split; [done|]. intros e. split; [by intros ?%elem_of_nil|].
    intros (p & ?%elem_of_nil & _). done. }
  destruct IH as (es & E & Hes); [intros q Hq; apply Hl; by right|].
  destruct (Hl p) as (m & Hm & Hh & Hf); [by left|]. cbn [reprVisible].
  rewrite (nodeAt_eq _ _ _ Hm). cbn [mbind run_bind]. rewrite Hh. cbn [lift mbind run_bind].
  destruct (shown p) eqn:Hs; cbn [negb].
  - destruct (Hf eq_refl) as [e He]. rewrite He. cbn [mbind run_bind]. rewrite E.
    exists (e :: es). split; [done|]. intros e'. rewrite elem_of_cons, Hes. split.
    + intros [->|(q & Hq & ?)]; [exists p; split; [by left|done]|exists q; split; [by right|done]].
    + intros (q & [->|Hq]%elem_of_cons & Hsq & Hfq); [left; congruence|right; eauto].
  - exists es. split; [done|]. intros e'. rewrite Hes. split.
    + intros (q & Hq & ?). exists q. split; [by right|done].
    + intros (q & [->|Hq]%elem_of_cons & Hsq & Hfq); [congruence|eauto].
Qed.

Section tree.
Context (t : tree) (root : ptr) (Hs : shape_ok root (t_nodes t)).

(** [x] shows a node at [names ++ k], for [k] in [K], that is not hidden below [names]. *)
Definition shows (names : list string) (K : list string → Prop) (x : NodeExtern) : Prop :=
  ∃ k q m, K k ∧ resolve (t_nodes t) root (names ++ k) = Some q ∧ t_nodes t !! q = Some m ∧
    existsb hiddenName k = false ∧ x = externOf now (pathOf (names ++ k)) q (entryOf m).

Lemma children_elem (c : gmap string ptr) q : q ∈ (children c).*2 ↔ ∃ x, c !! x = Some q.
Proof.
  rewrite list_elem_of_fmap. setoid_rewrite (children_perm c). split.
  - intros ([x q'] & -> & Hin%elem_of_map_to_list). eauto.
  - intros [x Hx]. exists (x, q). split; [done|]. by apply elem_of_map_to_list.
Qed.

Lemma resolve_child names p n c x q k :
  resolve (t_nodes t) root names = Some p → t_nodes t !! p = Some n → n_Children n = Some c →
  c !! x = Some q → resolve (t_nodes t) root (names ++ x :: k) = resolve (t_nodes t) q k.
Proof. intros Hp Hn Hc Hx. rewrite (resolve_below _ _ _ _ _ _ _ Hp Hn), Hc. simpl. by rewrite Hx. Qed.

(** The listing of a directory, when [f] shows each child. *)
Lemma listing_ok f names p n c (K : list string → Prop) :
  resolve (t_nodes t) root names = Some p → t_nodes t !! p = Some n → n_Children n = Some c →
  (∀ x q, c !! x = Some q → ∃ e, f q = Ret e ∧ ∀ y, y ∈ flatten e ↔ shows (names ++ [x]) K y) →
  ∃ es, reprVisible f t (children c).*2 = Ret es ∧
    ∀ y, (∃ e, e ∈ es ∧ y ∈ flatten e) ↔ shows names (λ k, ∃ x k', k = x :: k' ∧ K k') y.
Proof.
  intros Hp Hn Hc Hf.
  assert (∀ x q, c !! x = Some q → ∃ m, t_nodes t !! q = Some m ∧ IsHidden m = Ok (hiddenName x)) as Hch.
  { intros x q Hx. destruct (sh_child _ _ Hs names p n c x q Hp Hn Hc Hx) as (Hok & m & Hm & _ & Hpath).
    exists m. split; [done|]. by eapply IsHidden_child. }
  set (shown := λ q, match t_nodes t !! q with
    | Some m => match IsHidden m with Ok b => negb b | Panic _ => false end | None => false end).
  assert (∀ x q, c !! x = Some q → shown q = negb (hiddenName x)) as Hshown.
  { intros x q Hx. destruct (Hch x q Hx) as (m & Hm & Hh). unfold shown. by rewrite Hm, Hh. }
  destruct (reprVisible_ok f t (children c).*2 shown) as (es & E & Hes).
  { intros q [x Hx]%children_elem. destruct (Hch x q Hx) as (m & Hm & Hh). exists m.
    rewrite (Hshown x q Hx), negb_involutive. split_and!; [done..|]. intros _.
    destruct (Hf x q Hx) as (e & He & _). eauto. }
  exists es. split; [done|]. intros y. setoid_rewrite Hes. setoid_rewrite children_elem. split.
  - intros (e & (q & [x Hx] & Hsh & He) & Hy). destruct (Hf x q Hx) as (e' & He' & Hiff).
    assert (e' = e) as -> by congruence. apply Hiff in Hy as (k & q' & m & HK & Hr & Hm & Hh & ->).
    rewrite (Hshown x q Hx) in Hsh. exists (x :: k), q', m. rewrite <-app_assoc in Hr.
    split_and!; [eauto|done|done| |by rewrite <-app_assoc]. simpl. by destruct (hiddenName x).
  - intros (k & q' & m & (x & k' & -> & HK) & Hr & Hm & Hh & ->). simpl in Hh.
    apply orb_false_iff in Hh as [Hhx Hh].
    assert (∃ q, c !! x = Some q) as [q Hx].
    { rewrite (resolve_below _ _ _ _ _ _ _ Hp Hn), Hc in Hr. simpl in Hr.
      destruct (c !! x) as [q|]; [eauto|done]. }
    destruct (Hf x q Hx) as (e & He & Hiff). exists e. split.
    + exists q. split_and!; [eauto| |done]. by rewrite (Hshown x q Hx), Hhx.
    + apply Hiff. exists k', q', m. rewrite <-!app_assoc. by split_and!.
Qed.

(** The children of a listing, when [f] gives the tree of each. *)
Lemma reprVisible_keys f (l : list (string * ptr)) es (key : string → string) :
  reprVisible f t l.*2 = Ret es →
  (∀ x q e, (x, q) ∈ l → f q = Ret e → ne_Key e = key x) →
  (ne_Key <$> es) `sublist_of` (key <$> l.*1) ∧ ∀ e, e ∈ es → ∃ x q, (x, q) ∈ l ∧ f q = Ret e.
Proof.
  revert es. induction l as [|[x q] l IH]; intros es E Hkey; cbn [fmap list_fmap reprVisible fst snd] in E.
  { injection E as <-. split; [done|]. by intros e ?%elem_of_nil. }
  destruct (nodeAt q t) as [n| |] eqn:En; try done. cbn [mbind run_bind] in E.
  destruct (IsHidden n) as [hidden|]; [|done]. cbn [lift mbind run_bind] in E.
  assert (∀ x q e, (x, q) ∈ l → f q = Ret e → ne_Key e = key x) as Hkey'.
  { intros x' q' e' Hin. apply Hkey. by right. }
  destruct hidden.
  - destruct (IH es E Hkey') as [Hsub Hin]. split; [by apply sublist_cons|].
    intros e (x' & q' & ? & ?)%Hin. exists x', q'. split; [by right|done].
  - destruct (f q) as [e| |] eqn:Ef; try done. cbn [mbind run_bind] in E.
    destruct (reprVisible f t l.*2) as [es'| |] eqn:El; try done. injection E as <-.
    destruct (IH es' eq_refl Hkey') as [Hsub Hin]. split.
    + cbn [fmap list_fmap fst]. rewrite (Hkey x q e) by (by left || done). by apply sublist_skip.
    + intros e' [->|(x' & q' & ? & ?)%Hin]%elem_of_cons; [exists x, q|exists x', q'];
        (split; [|done]); [by left|by right].
Qed.

Lemma listing_nested f names p n c sorted es :
  resolve (t_nodes t) root names = Some p → t_nodes t !! p = Some n → n_Children n = Some c →
  (∀ x q e, c !! x = Some q → f q = Ret e → nested sorted (names ++ [x]) e) →
  reprVisible f t (children c).*2 = Ret es →
  NoDup (ne_Key <$> es) ∧ ∀ e, e ∈ es → ∃ x, name_ok x ∧ nested sorted (names ++ [x]) e.
Proof.
  intros Hp Hn Hc Hf E.
  assert (∀ x q, (x, q) ∈ children c ↔ c !! x = Some q) as Hch.
  { intros x q. by rewrite (children_perm c), elem_of_map_to_list. }
  assert (∀ x q, c !! x = Some q → name_ok x) as Hnames.
  { intros x q Hx. apply (sh_child _ _ Hs names p n c x q Hp Hn Hc Hx). }
  apply (reprVisible_keys _ _ _ (λ x, pathOf (names ++ [x]))) in E as [Hsub Hin].
  - split.
    + eapply sublist_NoDup; [|exact Hsub]. apply NoDup_childPaths.
      { rewrite (children_perm c). apply NoDup_fst_map_to_list. }
      intros x q Hx%Hch. by eapply Hnames.
    + intros e (x & q & Hx%Hch & He)%Hin. eauto.
  - intros x q e Hx%Hch He. by eapply nested_key, Hf.
Qed.

(** The node itself, and those below it. *)
Lemma shows_split names p n (K : list string → Prop) y :
  resolve (t_nodes t) root names = Some p → t_nodes t !! p = Some n → K [] →
  shows names K y ↔
  y = externOf now (pathOf names) p (entryOf n) ∨ shows names (λ k, ∃ x k', k = x :: k' ∧ K k) y.
Proof.
  intros Hp Hn HK. split.
  - intros ([|x k] & q & m & Hk & Hr & Hm & Hh & ->).
    + rewrite app_nil_r in *. left. congruence.
    + right. exists (x :: k), q, m. split_and!; eauto.
  - intros [->|(k & q & m & (x & k' & -> & Hk) & ?)].
    + exists [], p, n. rewrite app_nil_r. by split_and!.
    + by exists (x :: k'), q, m.
Qed.

Lemma shows_ext names (K K' : list string → Prop) y :
  (∀ k, K k ↔ K' k) → shows names K y ↔ shows names K' y.
Proof. intros HK. unfold shows. by setoid_rewrite HK. Qed.

Lemma shows_none names K y : (∀ k, K k → resolve (t_nodes t) root (names ++ k) = None) → ¬ shows names K y.
Proof. intros Hk (k & q & m & HK & Hr & _). rewrite Hk in Hr; done. Qed.

(** Repr, of a node that has fewer than [fuel] levels below it. *)
Definition depth (recursive : bool) (k : list string) : Prop := recursive = true ∨ k = [].

Lemma Repr_ok fuel recursive sorted names p :
  resolve (t_nodes t) root names = Some p →
  (∀ k, is_Some (resolve (t_nodes t) root (names ++ k)) → (length k < fuel)%nat) →
  ∃ e, Repr fuel now recursive sorted t p = Ret e ∧
    ∀ y, y ∈ flatten e ↔ shows names (depth recursive) y.
Proof.
  revert names p. induction fuel as [|fuel IH]; intros names p Hp Hdepth.
  { specialize (Hdepth []). rewrite app_nil_r in Hdepth. specialize (Hdepth ltac:(by eexists)). lia. }
  destruct (shape_at _ _ _ _ Hs Hp) as (_ & n & Hn & Hpath & _). cbn [Repr].
  rewrite (nodeAt_eq _ _ _ Hn). cbn [mbind run_bind]. rewrite ExpirationAndTTL_spec.
  assert (depth recursive []) as HK by by right. setoid_rewrite (shows_split names p n _ _ Hp Hn HK).
  assert (externOf now (pathOf names) p (entryOf n) = mkNodeExtern (n_Path n) (v_value (entryOf n))
    (IsDir n) (if n_ExpireTime n =? 0 then None else Some p)
    (if n_ExpireTime n =? 0 then 0 else ttlOf (n_ExpireTime n) now) [] (n_ModifiedIndex n)
    (n_CreatedIndex n)) as ->.
  { rewrite <-Hpath. unfold externOf, entryOf. simpl. by destruct (IsDir n). }
  unfold entryOf, IsDir. destruct (n_Children n) as [c|] eqn:Hc; [destruct recursive|]; cbn [negb].
  - destruct (listing_ok (Repr fuel now true sorted t) names p n c (depth true)) as (es & E & Hes); [done..| |].
    { intros x q Hx. apply IH.
      - by rewrite (resolve_child names p n c x q []).
      - intros k Hk. rewrite <-app_assoc in Hk. apply Hdepth in Hk. simpl in Hk. lia. }
    rewrite E. cbn [mbind run_bind]. eexists. split; [done|]. intros y.
    rewrite flatten_set. apply or_iff_compat_l.
    rewrite (shows_ext _ _ (λ k, ∃ x k', k = x :: k' ∧ depth true k')) by (unfold depth; naive_solver).
    rewrite <-Hes. by destruct sorted; [setoid_rewrite sortNodes_elem|].
  - eexists. split; [done|]. intros y. rewrite flatten_nodes. apply or_iff_compat_l.
    split; [by intros (e & ?%elem_of_nil & _)|]. intros (k & ? & ? & (x & k' & -> & [|]) & _); done.
  - eexists. split; [done|]. intros y. rewrite flatten_nodes. apply or_iff_compat_l.
    split; [by intros (e & ?%elem_of_nil & _)|]. intros Hsh. exfalso. revert Hsh. apply shows_none.
    intros k (x & k' & -> & _). by rewrite (resolve_below _ _ _ _ _ _ _ Hp Hn), Hc.
Qed.

Lemma Repr_nested fuel recursive sorted names p e :
  resolve (t_nodes t) root names = Some p → Repr fuel now recursive sorted t p = Ret e →
  nested sorted names e.
Proof.
  revert names p e. induction fuel as [|fuel IH]; intros names p e Hp E; [done|].
  destruct (shape_at _ _ _ _ Hs Hp) as (_ & n & Hn & Hpath & _). cbn [Repr] in E.
  rewrite (nodeAt_eq _ _ _ Hn) in E. cbn [mbind run_bind] in E.
  destruct (ExpirationAndTTL now p n) as [exp ttl].
  destruct (n_Children n) as [c|] eqn:Hc; [|injection E as <-; by apply nested_leaf].
  destruct recursive; cbn [negb] in E; [|injection E as <-; by apply nested_leaf].
  destruct (reprVisible _ _ _) as [es| |] eqn:El; try done. injection E as <-.
  apply (listing_nested _ names p n c sorted) in El as [Hd Hes]; [|done..|].
  - by apply (nested_nodes _ _ _ es).
  - intros x q e Hx. apply IH. by rewrite (resolve_child names p n c x q []).
Qed.

Lemma loadInternalNode_ok recursive sorted names p n key :
  resolve (t_nodes t) root names = Some p → t_nodes t !! p = Some n →
  ∃ e, loadInternalNode (levels t) now recursive sorted t p
      (e_Node (newEvent Get key (n_ModifiedIndex n) (n_CreatedIndex n))) = Ret e ∧
    e <| ne_Nodes := [] |> = externOf now key p (entryOf n) ∧
    (∀ y, (∃ c, c ∈ ne_Nodes e ∧ y ∈ flatten c) ↔
      shows names (λ k, ∃ x k', k = x :: k' ∧ depth recursive k') y) ∧
    (key = pathOf names → nested sorted names e).
Proof.
  intros Hp Hn. destruct (n_Children n) as [c|] eqn:Hc.
  - destruct (listing_ok (Repr (levels t) now recursive sorted t) names p n c (depth recursive))
      as (es & E & Hes); [done..| |].
    { intros x q Hx. apply Repr_ok.
      - by rewrite (resolve_child names p n c x q []).
      - intros k Hk. apply (resolve_length _ _ _ Hs) in Hk. rewrite !length_app in Hk.
        unfold levels. lia. }
    unfold loadInternalNode. rewrite (nodeAt_eq _ _ _ Hn). cbn [mbind run_bind]. rewrite Hc, E.
    cbn [mbind run_bind]. rewrite ExpirationAndTTL_spec. eexists. split; [done|]. split_and!.
    + unfold externOf, entryOf, IsDir. by rewrite Hc.
    + intros y. rewrite <-Hes. simpl. by destruct sorted; [setoid_rewrite sortNodes_elem|].
    + intros ->. apply (listing_nested _ names p n c sorted) in E as [Hd Hn']; [|done..|].
      * by apply (nested_nodes _ _ _ es).
      * intros x q e Hx. apply Repr_nested. by rewrite (resolve_child names p n c x q []).
  - exists (externOf now key p (entryOf n)). rewrite (loadInternalNode_file now _ _ _ t p n) by done.
    split_and!; [done|done| |intros ->; by apply nested_leaf]. intros y. split; [by intros (e & ?%elem_of_nil & _)|].
    intros Hsh. exfalso. revert Hsh. apply shows_none. intros k (x & k' & -> & _).
    by rewrite (resolve_below _ _ _ _ _ _ _ Hp Hn), Hc.
Qed.
End tree.

(** A Get answers the lookup of the key: an error, or the node at the key with the visible
    nodes below it. *)
Lemma storeGet_ok s nodePath recursive sorted :
  let names := parts nodePath in
  store_ok s →
  match lookupSpec (s_CurrentIndex s) (keys s) [] names with
  | Some err => storeGet now nodePath recursive sorted s = Ret (stat GetFail s, inl err)
  | None => ∃ p en node, keys s names = Some en ∧
      resolve (t_nodes (s_tree s)) (s_Root s) names = Some p ∧
      storeGet now nodePath recursive sorted s =
        Ret (stat GetSuccess s, inr (mkEvent Get node None (s_CurrentIndex s))) ∧
      node <| ne_Nodes := [] |> = externOf now (pathOf names) p en ∧
      (∀ y, (∃ c, c ∈ ne_Nodes node ∧ y ∈ flatten c) ↔
        shows (s_tree s) (s_Root s) names (λ k, ∃ x k', k = x :: k' ∧ depth recursive k') y) ∧
      nested sorted names node
  end.
Proof.
  intros names Hok. unfold storeGet. rewrite Clean_Join. fold names.
  pose proof (parts_ok nodePath : Forall name_ok names) as Hnames. clearbody names.
  pose proof (internalGet_names s names Hok Hnames) as G.
  destruct (lookupSpec _ _ _ _) as [err|]; [by rewrite G|].
  destruct G as (p & n & -> & Hp & Hn & Hk & Hpath). cbn [mbind run_bind].
  rewrite (nodeAt_eq _ _ _ Hn). cbn [mbind run_bind].
  destruct (loadInternalNode_ok (s_tree s) (s_Root s) (tk_shape _ _ (so_tree _ Hok)) recursive sorted
    names p n (pathOf names) Hp Hn) as (node & E & A & B & C).
  exists p, (entryOf n), node. split_and!; [done|done| |done|done|by apply C].
  match type of E with ?l = _ => match goal with |- context [loadInternalNode ?a ?b ?c ?d ?e ?f ?g] =>
    change (loadInternalNode a b c d e f g) with l end end.
  rewrite E. done.
Qed.
End get.
