(* ===== verification/StoreApi.v ===== *)
(** * StoreApi: what the store promises (src/store/store.go)

    The specification of the operations on the map of the keys, and the theorems that the
    store implements it: one step at a time, along every run from a new store, and for the
    watchers of a key. *)

From stdpp Require Import pretty sorting.
From Stdlib Require Import String Ascii.
From S2P Require Import Prelude.
From S2P Require Import Wire.
From S2P Require Import Paths TtlHeap EtcdError StoreEvent StoreNode StoreTree StoreRemove.
From S2P Require Import Stats WatcherHub HubProps HubNotify Store StoreWalk StoreCreate StoreProps.
From S2P Require Import StoreUpdate StoreDelete StoreExpire StoreGet.

(** ** The specification *)

(** The operations that change the keys. *)
Inductive op :=
  | OpCreate (nodePath : string) (dir : bool) (value : string) (unique : bool) (expireTime : Z)
  | OpSet (nodePath : string) (dir : bool) (value : string) (expireTime : Z)
  | OpUpdate (nodePath newValue : string) (expireTime : Z)
  | OpCompareAndSwap (nodePath prevValue : string) (prevIndex : Z) (value : string) (expireTime : Z)
  | OpDelete (nodePath : string) (dir recursive : bool)
  | OpCompareAndDelete (nodePath prevValue : string) (prevIndex : Z).

(** A map of the keys at an index, and a change of it: the action, the key and the new map. *)
Abbreviation kmap := (list string → option entry).
Abbreviation change := (action * list string * kmap)%type.

Definition as_change (act : action) (names : list string) (f : entry → kmap) (r : Error + entry)
  : Error + change :=
  match r with inl err => inl err | inr en => inr (act, names, f en) end.

(** What an operation does to the keys [v] at the index [cur]. *)
Definition effect (cur : Z) (v : kmap) (o : op) (r : Error + change) : Prop :=
  match o with
  | OpCreate nodePath dir value unique expireTime =>
      let names := createNames cur nodePath unique in
      r = match createSpec cur v names false (newEntry (cur + 1) dir value expireTime) with
          | inl err => inl err
          | inr v' => inr (Create, names, v')
          end
  | OpSet nodePath dir value expireTime =>
      let names := parts nodePath in
      r = match createSpec cur v names true (newEntry (cur + 1) dir value expireTime) with
          | inl err => inl err
          | inr v' => inr (Set_, names, v')
          end
  | OpUpdate nodePath newValue expireTime =>
      let names := parts nodePath in
      r = as_change Update names (λ en, upd names en v) (updateSpec cur v names newValue expireTime)
  | OpCompareAndSwap nodePath prevValue prevIndex value expireTime =>
      let names := parts nodePath in
      r = as_change CompareAndSwap names
            (λ old, upd names (swapped (cur + 1) value expireTime old) v)
            (notRoot cur names $ compareSpec cur v names prevValue prevIndex (λ en, en))
  | OpDelete nodePath dir recursive =>
      let names := parts nodePath in
      match notRoot cur names $ onNode cur v names inr with
      | inl err => r = inl err
      | inr old =>
          ¬ deletable v names old dir recursive ∧
            r = inl (NewError (if dir then EcodeDirNotEmpty else EcodeNotFile) (pathOf names) cur) ∨
          deletable v names old dir recursive ∧ r = inr (Delete, names, without names v)
      end
  | OpCompareAndDelete nodePath prevValue prevIndex =>
      let names := parts nodePath in
      r = as_change CompareAndDelete names (λ _, without names v)
            (compareSpec cur v names prevValue prevIndex (λ en, en))
  end.

Section refinement.
Context `{ChildRange}.

Definition runOp (now : Z) (o : op) : store → run (store * (Error + ptr)) :=
  match o with
  | OpCreate nodePath dir value unique expireTime => storeCreate now nodePath dir value unique expireTime
  | OpSet nodePath dir value expireTime => storeSet now nodePath dir value expireTime
  | OpUpdate nodePath newValue expireTime => storeUpdate now nodePath newValue expireTime
  | OpCompareAndSwap nodePath prevValue prevIndex value expireTime =>
      storeCompareAndSwap now nodePath prevValue prevIndex value expireTime
  | OpDelete nodePath dir recursive => storeDelete now nodePath dir recursive
  | OpCompareAndDelete nodePath prevValue prevIndex =>
      storeCompareAndDelete now nodePath prevValue prevIndex
  end.

(** The outcome [s'], [r] of an operation on [s] implements the change [a]. *)
Definition implements (s s' : store) (r : Error + ptr) (a : Error + change) : Prop :=
  match a with
  | inl err => r = inl err ∧ unchanged s s'
  | inr (act, names, v') => ∃ ep e, r = inr ep ∧ settled s s' ep e v' ∧
      e_Action e = act ∧ ne_Key (e_Node e) = pathOf names
  end.

Lemma refines_create now s nodePath dir value unique expireTime :
  store_ok s → room s →
  ∃ s' r a, storeCreate now nodePath dir value unique expireTime s = Ret (s', r) ∧
    effect (s_CurrentIndex s) (keys s) (OpCreate nodePath dir value unique expireTime) a ∧
    implements s s' r a.
Proof.
  intros Hok Hroom.
  destruct (storeCreate_ok now s nodePath dir value unique expireTime Hok Hroom) as (s' & r & E & S).
  eexists s', r, _. split; [done|]. split; [done|]. cbn [effect].
  destruct (createSpec _ _ _ _ _); [done|]. destruct S as (ep & p & -> & _ & [Hc _]).
  by eexists ep, _.
Qed.

Lemma refines_set now s nodePath dir value expireTime :
  store_ok s → room s →
  ∃ s' r a, storeSet now nodePath dir value expireTime s = Ret (s', r) ∧
    effect (s_CurrentIndex s) (keys s) (OpSet nodePath dir value expireTime) a ∧
    implements s s' r a.
Proof.
  intros Hok Hroom.
  destruct (storeSet_ok now s nodePath dir value expireTime Hok Hroom) as (s' & r & E & S).
  eexists s', r, _. split; [done|]. split; [done|]. cbn [effect].
  destruct (createSpec _ _ _ _ _); [done|]. destruct S as (ep & p & prev & -> & _ & [Hc _] & _).
  by eexists ep, _.
Qed.

Lemma refines_delete now s nodePath dir recursive :
  store_ok s → room s →
  ∃ s' r a, storeDelete now nodePath dir recursive s = Ret (s', r) ∧
    effect (s_CurrentIndex s) (keys s) (OpDelete nodePath dir recursive) a ∧ implements s s' r a.
Proof.
  intros Hok Hroom.
  destruct (storeDelete_ok now s nodePath dir recursive Hok Hroom) as (s' & r & E & S). cbn [effect].
  destruct (notRoot _ _ _) as [err|old].
  - eexists s', r, (inl err). by split_and!.
  - destruct S as [(Hd & -> & U)|(Hd & ep & p & -> & _ & Hc & _)].
    + eexists s', _, (inl _). split; [done|]. split; [by left|]. done.
    + eexists s', _, (inr _). split; [done|]. split; [by right|]. by eexists ep, _.
Qed.

Lemma runOp_refines now o s :
  store_ok s → room s →
  ∃ s' r a, runOp now o s = Ret (s', r) ∧ effect (s_CurrentIndex s) (keys s) o a ∧
    implements s s' r a.
Proof.
  intros Hok Hroom. destruct o.
  - by apply refines_create.
  - by apply refines_set.
  - cbn [runOp effect]. destruct (storeUpdate_ok now s nodePath newValue expireTime Hok Hroom)
      as (s' & r & E & S). eexists s', r, _. split; [done|]. split; [done|].
    destruct (updateSpec _ _ _ _ _); [done|]. destruct S as (ep & p & old & -> & _ & _ & _ & [Hc _]).
    by eexists ep, _.
  - cbn [runOp effect].
    destruct (storeCompareAndSwap_ok now s nodePath prevValue prevIndex value expireTime Hok Hroom)
      as (s' & r & E & S). eexists s', r, _. split; [done|]. split; [done|].
    destruct (notRoot _ _ _); [done|]. destruct S as (ep & p & -> & _ & _ & [Hc _]).
    by eexists ep, _.
  - by apply refines_delete.
  - cbn [runOp effect]. destruct (storeCompareAndDelete_ok now s nodePath prevValue prevIndex Hok Hroom)
      as (s' & r & E & S). eexists s', r, _. split; [done|]. split; [done|].
    destruct (compareSpec _ _ _ _ _ _); [done|]. destruct S as (ep & p & -> & _ & _ & Hc & _).
    by eexists ep, _.
Qed.

(** The abstract store: an index and a map of the keys.  An operation fails, with its error,
    or takes the next index. *)
Inductive specRun : Z → kmap → list op → list (option Error) → Z → kmap → Prop :=
  | specRun_nil cur v : specRun cur v [] [] cur v
  | specRun_fail cur v v1 o os err rs cur' v' :
      effect cur v o (inl err) → (∀ k, v1 k = v k) → specRun cur v1 os rs cur' v' →
      specRun cur v (o :: os) (Some err :: rs) cur' v'
  | specRun_done cur v v1 v2 o os act names rs cur' v' :
      effect cur v o (inr (act, names, v1)) → (∀ k, v2 k = v1 k) →
      specRun (cur + 1) v2 os rs cur' v' →
      specRun cur v (o :: os) (None :: rs) cur' v'.

(** The operations one after the other, each at its own time. *)
Fixpoint runOps (os : list (Z * op)) (s : store) : run (store * list (option Error)) :=
  match os with
  | [] => Ret (s, [])
  | (now, o) :: os =>
      '(s, r) ← runOp now o s;
      '(s, rs) ← runOps os s;
      Ret (s, (match r with inl err => Some err | inr _ => None end) :: rs)
  end.

(** C2. The store refines the abstract store: every sequence of operations returns, with the
    errors, the index and the map of the keys that the specification gives, and keeps the
    invariant of the store. *)
Theorem store_refines os s :
  store_ok s → s_CurrentIndex s + len os < 2 ^ 64 →
  ∃ s' rs, runOps os s = Ret (s', rs) ∧ store_ok s' ∧
    specRun (s_CurrentIndex s) (keys s) os.*2 rs (s_CurrentIndex s') (keys s').
Proof.
  revert s. induction os as [|[now o] os IH]; intros s Hok Hlen.
  { exists s, []. split_and!; [done..|]. constructor. }
  rewrite len_cons in Hlen. pose proof (len_nonneg os).
  assert (room s) as Hroom by (unfold room; lia).
  destruct (runOp_refines now o s Hok Hroom) as (s1 & r & a & E & Ha & HI). cbn [runOps]. rewrite E.
  cbn [mbind run_bind]. destruct a as [err|[[act names] v]].
  - destruct HI as [-> [Ok1 _ I1 K1 _]]. rewrite <-I1 in Hlen.
    destruct (IH s1) as (s2 & rs & E2 & Ok2 & R2); [done|lia|]. rewrite E2. rewrite I1 in R2.
    eexists s2, _. split_and!; [done..|]. by eapply specRun_fail.
  - destruct HI as (ep & e & -> & [Ok1 _ I1 K1 _ _] & _).
    destruct (IH s1) as (s2 & rs & E2 & Ok2 & R2); [done|lia|]. rewrite E2. rewrite I1 in R2.
    eexists s2, _. split_and!; [done..|]. by eapply specRun_done.
Qed.

(** ** Runs *)

(** Every operation, and what a client does with a watcher. *)
Inductive step : store → store → Prop :=
  | step_op now o s s' r : room s → runOp now o s = Ret (s', r) → step s s'
  | step_get now nodePath recursive sorted s s' r :
      storeGet now nodePath recursive sorted s = Ret (s', r) → step s s'
  | step_watch key recursive stream sinceIndex s s' r : room s → 0 ≤ sinceIndex →
      storeWatch key recursive stream sinceIndex s = Ret (s', r) → step s s'
  | step_expire now cutoff s s' :
      s_CurrentIndex s + Z.of_nat (Len (t_ttl (s_tree s))) < 2 ^ 64 →
      DeleteExpiredKeys now cutoff s = Ret s' → step s s'
  | step_receive wp e h s : receive wp (s_WatcherHub s) = Some (e, h) →
      step s (s <| s_WatcherHub := h |>)
  | step_remove wp h s : Remove wp (s_WatcherHub s) = Ok h → step s (s <| s_WatcherHub := h |>).

Lemma store_ok_hub s h :
  store_ok s → hub_inv (s_CurrentIndex s) h → store_ok (s <| s_WatcherHub := h |>).
Proof. intros [A B C] Hh. by split. Qed.

Lemma storeWatch_ok s key recursive stream sinceIndex :
  store_ok s → room s → 0 ≤ sinceIndex →
  ∃ s' r, storeWatch key recursive stream sinceIndex s = Ret (s', r) ∧ store_ok s'.
Proof.
  intros Hok Hroom Hidx. pose proof Hok as [_ Hh Hi]. unfold storeWatch.
  rewrite (next_index s Hok Hroom). pose proof Hh as [_ (l & Hl & _)].
  set (i := if sinceIndex =? 0 then _ else _).
  assert (1 ≤ i) as H1 by (unfold i; destruct (Z.eqb_spec sinceIndex 0); lia).
  destruct (watch_ok (s_CurrentIndex s) (s_WatcherHub s) l (Clean (Join "/" key)) recursive stream i
    (s_CurrentIndex s) Hh Hl H1) as (h & Hh' & E & _).
  rewrite E. cbn [mbind run_bind]. eexists _, _. split; [done|]. by apply store_ok_hub.
Qed.

Lemma runOp_ok now o s s' r : store_ok s → room s → runOp now o s = Ret (s', r) → store_ok s'.
Proof.
  intros Hok Hroom E. destruct (runOp_refines now o s Hok Hroom) as (s1 & r1 & a & E1 & _ & HI).
  rewrite E in E1. injection E1 as <- <-. destruct a as [err|[[act names] v]]; [apply HI|].
  destruct HI as (ep & e & _ & S & _). apply S.
Qed.

Lemma step_ok s s' : store_ok s → step s s' → store_ok s'.
Proof.
  intros Hok Hstep. destruct Hstep as [now o s s' r Hroom E|now p rc st s s' r E|k rc st i s s' r Hroom Hi E|
    now cutoff s s' Hroom E|wp e h s E|wp h s E].
  - by eapply runOp_ok.
  - pose proof (storeGet_ok now s p rc st Hok) as G. destruct (lookupSpec _ _ _ _) as [err|].
    + rewrite E in G. injection G as -> ->. by eapply un_ok, unchanged_stat.
    + destruct G as (q & en & node & _ & _ & G & _). rewrite E in G. injection G as -> ->.
      by eapply un_ok, unchanged_stat.
  - destruct (storeWatch_ok s k rc st i Hok Hroom Hi) as (s2 & r2 & E2 & Ok2). rewrite E in E2; by injection E2 as <- <-.
  - destruct (expireLoop_ok now (S (Len (t_ttl (s_tree s)))) s cutoff Hok) as (s2 & E2 & Ok2 & _);
      [lia|lia|]. unfold DeleteExpiredKeys in E. rewrite E in E2. by injection E2 as <-.
  - apply store_ok_hub; [done|]. eapply receive_ok; [apply Hok|done].
  - apply store_ok_hub; [done|]. eapply Remove_ok; [apply Hok|done].
Qed.

(** Every operation on a good store returns. *)
Lemma store_safe s :
  store_ok s →
  (∀ now o, room s → ∃ s' r, runOp now o s = Ret (s', r)) ∧
  (∀ now nodePath recursive sorted, ∃ s' r, storeGet now nodePath recursive sorted s = Ret (s', r)) ∧
  (∀ key recursive stream sinceIndex, room s → 0 ≤ sinceIndex →
    ∃ s' r, storeWatch key recursive stream sinceIndex s = Ret (s', r)) ∧
  ∀ now cutoff, s_CurrentIndex s + Z.of_nat (Len (t_ttl (s_tree s))) < 2 ^ 64 →
    ∃ s', DeleteExpiredKeys now cutoff s = Ret s'.
Proof.
  intros Hok. split_and!.
  - intros now o Hroom. destruct (runOp_refines now o s Hok Hroom) as (s' & r & _ & E & _). eauto.
  - intros now p rc st. pose proof (storeGet_ok now s p rc st Hok) as G.
    destruct (lookupSpec _ _ _ _); [eauto|]. destruct G as (q & en & node & _ & _ & G & _). eauto.
  - intros key rc st i Hroom Hi. destruct (storeWatch_ok s key rc st i Hok Hroom Hi) as (s' & r & E & _).
    eauto.
  - intros now cutoff Hroom. destruct (DeleteExpiredKeys_ok now s cutoff Hok Hroom) as (s' & E & _). eauto.
Qed.
End refinement.
