(* ===== verification/StoreTheorems.v ===== *)
(** * StoreTheorems: what a client of the store can rely on (src/store)

    Consequences of the specifications of the operations: reading back what was written,
    the listing of a directory, the condition of a swap, the end of expired keys, and which
    watchers are told of a change. *)

From stdpp Require Import pretty sorting.
From Stdlib Require Import String Ascii.
From S2P Require Import Prelude.
From S2P Require Import Wire.
From S2P Require Import Paths TtlHeap EtcdError StoreEvent StoreNode StoreTree StoreRemove.
From S2P Require Import Stats WatcherHub HubProps HubNotify Store StoreWalk StoreCreate StoreProps.
From S2P Require Import StoreUpdate StoreDelete StoreExpire StoreGet.

Section theorems.
Context `{ChildRange}.

(** A key that is there is found by every lookup. *)
Lemma lookup_there s cur names :
  store_ok s → is_Some (keys s names) → lookupSpec cur (keys s) [] names = None.
Proof.
  intros Hok [en Hen]. pose proof (tk_shape _ _ (so_tree _ Hok)) as Hs.
  apply lookupSpec_found; [done|]. apply (view_Some _ _ Hs) in Hen as (p & _ & Hp & _). by eexists.
Qed.

(** ** Reading back *)

(** A Set that succeeds, with what it did to the store. *)
Lemma set_success now s nodePath dir value expireTime s' ep :
  let i := s_CurrentIndex s + 1 in
  let names := parts nodePath in
  store_ok s → room s → storeSet now nodePath dir value expireTime s = Ret (s', inr ep) →
  ∃ p prev v, changed s s' ep (mkEvent Set_
      (externOf now (pathOf names) p (newEntry i dir value expireTime)) prev i) names v ∧
    keys s' names = Some (newEntry i dir value expireTime).
Proof.
  intros i names Hok Hroom E. pose proof (next_index s Hok Hroom) as Hi.
  destruct (storeSet_ok now s nodePath dir value expireTime Hok Hroom) as (s2 & r & E2 & S).
  rewrite E in E2. injection E2 as <- <-.
  destruct (createSpec _ _ _ _ _) as [err|v] eqn:Hspec; [by destruct S|].
  destruct S as (ep' & p & prev & [= <-] & _ & Hc & _). exists p, prev, v. split; [done|].
  rewrite (st_keys _ _ _ _ _ (ch_settled _ _ _ _ _ _ Hc)).
  apply createSpec_inr in Hspec as (_ & -> & _). unfold place. by rewrite decide_True.
Qed.

(** What a Set writes a Get reads: after a Set of a file that succeeded, every Get of the
    key, at any later time, gives the value, with the index of the Set as the index at
    which the key was created and modified. *)
Theorem set_get now now' s nodePath value expireTime s' ep recursive sorted :
  store_ok s → room s → storeSet now nodePath false value expireTime s = Ret (s', inr ep) →
  ∃ e, storeGet now' nodePath recursive sorted s' = Ret (stat GetSuccess s', inr e) ∧
    ne_Key (e_Node e) = pathOf (parts nodePath) ∧ ne_Value (e_Node e) = Some value ∧
    ne_Dir (e_Node e) = false ∧ e_EtcdIndex e = s_CurrentIndex s + 1 ∧
    ne_ModifiedIndex (e_Node e) = s_CurrentIndex s + 1 ∧
    ne_CreatedIndex (e_Node e) = s_CurrentIndex s + 1.
Proof.
  intros Hok Hroom E. destruct (set_success _ _ _ _ _ _ _ _ Hok Hroom E) as (p & prev & v & [Hst _] & Hk).
  pose proof (st_ok _ _ _ _ _ Hst) as Hok'.
  pose proof (storeGet_ok now' s' nodePath recursive sorted Hok') as G.
  rewrite (lookup_there s') in G by (done || by eexists).
  destruct G as (q & en & node & Hen & _ & G & Hnode & _). rewrite Hk in Hen. injection Hen as <-.
  eexists. split; [exact G|]. rewrite (st_index _ _ _ _ _ Hst).
  split_and!; [apply (f_equal ne_Key Hnode)|apply (f_equal ne_Value Hnode)|apply (f_equal ne_Dir Hnode)|
    done|apply (f_equal ne_ModifiedIndex Hnode)|apply (f_equal ne_CreatedIndex Hnode)].
Qed.

(** ** Listing *)

(** C29. A Get of a directory lists the keys below it that are not hidden, the children or, when
    it is recursive, all of them, each with its value and its indexes.  The answer is nested
    as the keys are, with no child twice, and when the call asks for it the children are
    sorted by key at every level. *)
Theorem get_listing now s nodePath recursive sorted en :
  let names := parts nodePath in
  store_ok s → keys s names = Some en →
  ∃ e, storeGet now nodePath recursive sorted s = Ret (stat GetSuccess s, inr e) ∧
    (∀ key value created modified,
      (∃ c y, c ∈ ne_Nodes (e_Node e) ∧ y ∈ flatten c ∧ ne_Key y = key ∧ ne_Value y = value ∧
        ne_CreatedIndex y = created ∧ ne_ModifiedIndex y = modified) ↔
      ∃ x k expire, key = pathOf (names ++ x :: k) ∧ (recursive = true ∨ k = []) ∧
        existsb hiddenName (x :: k) = false ∧
        keys s (names ++ x :: k) = Some (mkEntry value created modified expire)) ∧
    nested sorted names (e_Node e).
Proof.
  intros names Hok Hen. pose proof (tk_shape _ _ (so_tree _ Hok)) as Hs.
  pose proof (storeGet_ok now s nodePath recursive sorted Hok) as G. fold names in G.
  rewrite (lookup_there s) in G by (done || by eexists).
  destruct G as (p & en' & node & _ & Hp & G & _ & Hlist & Hsort).
  eexists. split; [exact G|]. split; [|done]. intros key value created modified. cbn [e_Node]. split.
  - intros (c & y & Hc & Hy & <- & <- & <- & <-).
    destruct (proj1 (Hlist y)) as (k & q & m & (x & k' & -> & Hd) & Hr & Hm & Hh & ->); [eauto|].
    exists x, k', (n_ExpireTime m). split_and!; [done|by destruct Hd; auto|done|].
    unfold keys, view. rewrite Hr. simpl. by rewrite Hm.
  - intros (x & k & expire & -> & Hd & Hh & Hk).
    apply (view_Some _ _ Hs) in Hk as (q & m & Hq & Hm & Heq & _).
    destruct (proj2 (Hlist (externOf now (pathOf (names ++ x :: k)) q (entryOf m)))) as (c & Hc & Hy).
    { exists (x :: k), q, m. split_and!; [eauto|done..]. }
    rewrite <-Heq in Hy. eexists c, _. by split_and!.
Qed.

(** ** Comparing *)

(** C37. CompareAndSwap succeeds exactly when the key is a file whose value is the given one,
    when one is given, and whose index is the given one, when one is given; then it writes
    the new value at the next index and changes no other key. *)
Theorem cas_iff now s nodePath prevValue prevIndex value expireTime :
  let names := parts nodePath in
  let i := s_CurrentIndex s + 1 in
  store_ok s → room s →
  ∃ s' r, storeCompareAndSwap now nodePath prevValue prevIndex value expireTime s = Ret (s', r) ∧
    ((∃ ep, r = inr ep) ↔ ∃ old created modified expire,
      keys s names = Some (mkEntry (Some old) created modified expire) ∧
      (prevValue = EmptyString ∨ old = prevValue) ∧ (prevIndex = 0 ∨ modified = prevIndex)) ∧
    (∀ ep, r = inr ep → ∃ created,
      keys s' names = Some (mkEntry (Some value) created i expireTime) ∧
      ∀ k, k ≠ names → keys s' k = keys s k).
Proof.
  intros names i Hok Hroom.
  destruct (storeCompareAndSwap_ok now s nodePath prevValue prevIndex value expireTime Hok Hroom)
    as (s' & r & E & S). fold names i in S. exists s', r. split; [done|].
  unfold notRoot, compareSpec, onNode in S. destruct (decide (names = [])) as [Hroot|Hne].
  { destruct S as [-> _]. split; [|done]. split; [by intros []|].
    intros (old & cr & mo & ex & Hk & _). rewrite Hroot in Hk. by apply (root_dir s _ Hok) in Hk. }
  destruct (lookupSpec _ _ _ _) as [err|] eqn:Hl.
  { destruct S as [-> _]. split; [|done]. split; [by intros []|].
    intros (old & cr & mo & ex & Hk & _). by rewrite (lookup_there s) in Hl by (done || by eexists). }
  destruct (keys s names) as [en|] eqn:Hk.
  2: { destruct S as [-> _]. split; [|done]. split; [by intros []|]. by intros (? & ? & ? & ? & ? & _). }
  destruct en as [[old|] cr mo ex]; cbn [v_value v_modified v_created] in S.
  2: { destruct S as [-> _]. split; [|done]. split; [by intros []|]. by intros (? & ? & ? & ? & ? & _). }
  destruct (decide (_ ∧ _)) as [Hm|Hm].
  - destruct S as (ep & p & -> & _ & _ & [Hst _]). split; [split; [by exists old, cr, mo, ex|by eexists]|].
    intros ep' [= <-]. exists cr. rewrite (st_keys _ _ _ _ _ Hst). unfold upd.
    split; [by rewrite decide_True|]. intros k Hnk. rewrite (st_keys _ _ _ _ _ Hst). unfold upd.
    by rewrite decide_False.
  - destruct S as [-> _]. split; [|done]. split; [by intros []|].
    intros (old' & ? & ? & ? & Heq & Hc). injection Heq as <- <- <- <-. by destruct Hm.
Qed.

(** ** Expiry *)

(** C13. DeleteExpiredKeys ends.  It removes the keys that are due at the cutoff, with all that
    is below them, and no others; no key that is left is due. *)
Theorem expire_exact now s cutoff :
  store_ok s → s_CurrentIndex s + Z.of_nat (Len (t_ttl (s_tree s))) < 2 ^ 64 →
  ∃ s', DeleteExpiredKeys now cutoff s = Ret s' ∧ store_ok s' ∧
    (∀ k, keys s' k = if expiredKey cutoff (keys s) k then None else keys s k) ∧
    (∀ k en, keys s' k = Some en → due cutoff en = false) ∧
    s_CurrentIndex s ≤ s_CurrentIndex s' ≤ s_CurrentIndex s + Z.of_nat (Len (t_ttl (s_tree s))).
Proof.
  intros Hok Hroom.
  destruct (DeleteExpiredKeys_ok now s cutoff Hok Hroom) as (s' & E & Ok' & V & I).
  exists s'. split_and!; [done..| |lia|lia].
  intros k en Hk. rewrite V in Hk. destruct (expiredKey cutoff (keys s) k) eqn:He; [done|].
  destruct (due cutoff en) eqn:Hd; [|done].
  assert (expiredKey cutoff (keys s) k = true); [|congruence]. apply expiredKey_spec. eauto.
Qed.

(** ** Watchers *)

(** C28. A Set tells the watchers that are interested in the key, and no others: those of the
    key itself, and those of a directory above it that are recursive and from which the key
    is not hidden, when they wait for its index.  One whose channel has room finds the event
    there.  One that has not taken its last event yet does not get this one: it keeps what is
    in its channel, is marked as removed, and is on no list of the hub any more. *)
Theorem set_notifies now s nodePath dir value expireTime s' ep wnames wp w :
  let names := parts nodePath in
  let h := s_WatcherHub s in
  store_ok s → room s → storeSet now nodePath dir value expireTime s = Ret (s', inr ep) →
  Forall name_ok wnames → wp ∈ watchersOf h (pathOf wnames) → wh_all h !! wp = Some w →
  ∃ e w', wh_events (s_WatcherHub s') !! ep = Some e ∧ ne_Key (e_Node e) = pathOf names ∧
    wh_all (s_WatcherHub s') !! wp = Some w' ∧
    (interested wnames names e w = false → w' = w) ∧
    (interested wnames names e w = true → w_eventChan w = [] → w' = w <| w_eventChan := [ep] |>) ∧
    (interested wnames names e w = true → w_eventChan w ≠ [] →
      w' = w <| w_removed := true |> ∧ ∀ key, wp ∉ watchersOf (s_WatcherHub s') key).
Proof.
  intros names h Hok Hroom E Hw Hin Hwp.
  destruct (set_success _ _ _ _ _ _ _ _ Hok Hroom E) as (p & prev & v & [Hst P] & _).
  pose proof (pb_watchers _ _ _ _ _ P wnames wp w Hw Hin Hwp) as Hw'.
  eexists _, _. split; [apply Hst|]. split; [done|]. split; [exact Hw'|].
  unfold delivered in Hw' |- *. destruct (interested _ _ _ _); [|done].
  split; [done|]. split; [by intros _ ->|]. intros _ Hc. destruct (w_eventChan w); [done|].
  split; [done|]. intros key. apply (removed_unlisted _ _ _ _ (hi_hub _ _ (so_hub _ (st_ok _ _ _ _ _ Hst))) Hw').
  done.
Qed.

(** C38. A Delete tells the watchers of every key that it removes: a watcher of such a key, whose
    channel is empty and that waits for the index, has the event in its channel. *)
Theorem delete_notifies now s nodePath dir recursive s' ep wnames wp w :
  let names := parts nodePath in
  let h := s_WatcherHub s in
  store_ok s → room s → storeDelete now nodePath dir recursive s = Ret (s', inr ep) →
  names `prefix_of` wnames → is_Some (keys s wnames) → wp ∈ watchersOf h (pathOf wnames) →
  wh_all h !! wp = Some w → w_eventChan w = [] → w_sinceIndex w ≤ s_CurrentIndex s + 1 →
  keys s' wnames = None ∧
  ∃ e w', wh_events (s_WatcherHub s') !! ep = Some e ∧ e_Action e = Delete ∧
    wh_all (s_WatcherHub s') !! wp = Some w' ∧ w_eventChan w' = [ep].
Proof.
  intros names h Hok Hroom E Hp Hkey Hin Hwp Hc Hidx.
  destruct (storeDelete_ok now s nodePath dir recursive Hok Hroom) as (s2 & r & E2 & S).
  rewrite E in E2. injection E2 as <- <-. fold names in S.
  destruct (notRoot _ _ _) as [err|old]; [by destruct S|].
  destruct S as [(_ & [=] & _)|(_ & ep' & p & [= <-] & _ & Hst & D)]. split.
  - rewrite (st_keys _ _ _ _ _ Hst). unfold without. by rewrite decide_True.
  - destruct (dm_below _ _ _ _ _ _ D wnames wp w) as (w' & Hw' & Hc'); [done..|].
    eexists _, w'. split; [apply Hst|]. by split_and!.
Qed.
End theorems.

(** ** Watching *)

Lemma split_slash a b : split (a ++ String slash b)%string = split a ++ split b.
Proof.
  induction a as [|c a IH]; [done|]. rewrite append_cons. cbn [split]. rewrite IH.
  case_decide; [done|]. pose proof (split_nonempty a). by destruct (split a).
Qed.

Lemma HasPrefix_spec s p : HasPrefix s p = true ↔ ∃ z, s = (p ++ z)%string.
Proof.
  unfold HasPrefix. revert s. induction p as [|c p IH]; intros s.
  { split; [by exists s|]. by destruct s. }
  destruct s as [|d s]; cbn [String.prefix]; [split; [done|by intros []]|].
  destruct (ascii_dec c d) as [->|Hne].
  - rewrite IH. split; intros [z Hz]; exists z; [by rewrite Hz|]. rewrite append_cons in Hz. congruence.
  - split; [done|]. intros [z Hz]. rewrite append_cons in Hz. congruence.
Qed.

(** The last character of a canonical path. *)
Lemma noSlash_last x : noSlash x → last (list_ascii_of_string x) ≠ Some slash.
Proof.
  induction x as [|c x IH]; [done|]. intros [Hc Hx].
  destruct x as [|d x]; [simpl; congruence|].
  change (list_ascii_of_string (String c (String d x))) with (c :: d :: list_ascii_of_string x).
  rewrite last_cons_cons. by apply IH.
Qed.

Lemma last_app_slash a x :
  x ≠ EmptyString → last (list_ascii_of_string (a ++ x)) = last (list_ascii_of_string x).
Proof.
  intros Hx. induction a as [|c a IH]; [done|]. rewrite append_cons. cbn [list_ascii_of_string].
  rewrite last_cons, IH. destruct x; [done|]. cbn [list_ascii_of_string]. rewrite last_cons.
  by destruct (last (list_ascii_of_string x)).
Qed.

Lemma pathOf_last names :
  Forall name_ok names → names ≠ [] → last (list_ascii_of_string (pathOf names)) ≠ Some slash.
Proof.
  intros Hok Hne. destruct (exists_last Hne) as (pre & x & ->).
  apply Forall_app in Hok as [_ Hx]. apply Forall_cons in Hx as [Hx _].
  assert (∃ a, pathOf (pre ++ [x]) = (a ++ x)%string) as [a ->].
  { destruct (decide (pre = [])) as [->|Hp]; [by exists "/"|].
    exists (pathOf pre ++ "/")%string. unfold pathOf. rewrite joinSlash_snoc by done.
    by rewrite append_assoc. }
  rewrite last_app_slash by apply Hx. apply noSlash_last, Hx.
Qed.

(** The condition of scan: the key of the event is the key of the watcher, or below it when
    the watcher is recursive. *)
Lemma keyMatch_pathOf wnames names recursive e :
  Forall name_ok wnames → Forall name_ok names → ne_Key (e_Node e) = pathOf names →
  keyMatch (pathOf wnames) recursive e =
  bool_decide (names = wnames) || (recursive && bool_decide (wnames `prefix_of` names)).
Proof.
  intros Hw Hn Hkey. unfold keyMatch. rewrite Hkey.
  assert (bool_decide (pathOf names = pathOf wnames) = bool_decide (names = wnames)) as ->.
  { apply bool_decide_ext. split; [by apply pathOf_inj|by intros ->]. }
  destruct recursive; cbn [andb]; [|by rewrite orb_false_r].
  destruct (bool_decide_reflect (names = wnames)) as [|Hne]; [done|]. cbn [orb].
  rewrite Clean_pathOf by done. destruct (decide (wnames = [])) as [->|Hwne].
  - rewrite bool_decide_true by done. rewrite (bool_decide_true ([] `prefix_of` _)) by apply prefix_nil.
    apply HasPrefix_spec. by exists (joinSlash names).
  - rewrite bool_decide_false by by apply pathOf_last.
    apply Bool.eq_true_iff_eq. rewrite HasPrefix_spec, bool_decide_eq_true. split.
    + intros [z Hz]. rewrite append_assoc in Hz. apply (f_equal split) in Hz.
      change ("/" ++ z)%string with (String slash z) in Hz. rewrite split_slash in Hz.
      destruct (decide (names = [])) as [->|Hnn].
      { exfalso. rewrite split_root, split_pathOf in Hz by done. apply (f_equal length) in Hz.
        rewrite length_app in Hz. pose proof (split_nonempty z).
        destruct wnames, (split z); simpl in Hz; try done. lia. }
      rewrite !split_pathOf in Hz by done. injection Hz as ->. by exists (split z).
    + intros [k ->]. destruct k as [|x k]; [by rewrite app_nil_r in Hne|].
      exists (joinSlash (x :: k)). by rewrite pathOf_app, append_assoc.
Qed.

(** C27. What a watch gives: an error when the history begins after the index that it waits for;
    otherwise a watcher that has the first event of the history from that index on, of the
    key or, when it is recursive, of a key below it; and when there is none, a watcher at
    the end of the list of the key, with an empty channel. *)
Theorem watch_gives s l key recursive stream sinceIndex :
  let names := parts key in
  let h := s_WatcherHub s in
  let eh := wh_EventHistory h in
  let index := if sinceIndex =? 0 then s_CurrentIndex s + 1 else sinceIndex in
  let found := find (matching (wh_events h) (pathOf names) recursive)
                 (drop (Z.to_nat (index - eh_StartIndex eh)) l) in
  store_ok s → room s → 0 ≤ sinceIndex → history_ok (wh_events h) eh l →
  ∃ s' r, storeWatch key recursive stream sinceIndex s = Ret (s', r) ∧ store_ok s' ∧
    (index < eh_StartIndex eh → s' = s ∧ ∃ cause,
      r = inl (NewError EcodeEventIndexCleared cause (s_CurrentIndex s))) ∧
    (eh_StartIndex eh ≤ index → ∃ wp w, r = inr wp ∧ wh_all h !! wp = None ∧
      wh_all (s_WatcherHub s') !! wp = Some w ∧ w_recursive w = recursive ∧ w_stream w = stream ∧
      w_sinceIndex w = index ∧ w_eventChan w = option_list found ∧
      (found = None → watchersOf (s_WatcherHub s') (pathOf names) = watchersOf h (pathOf names) ++ [wp])) ∧
    ∀ p e enames, wh_events h !! p = Some e → ne_Key (e_Node e) = pathOf enames → Forall name_ok enames →
      matching (wh_events h) (pathOf names) recursive p =
      bool_decide (enames = names) || (recursive && bool_decide (names `prefix_of` enames)).
Proof.
  intros names h eh index found Hok Hroom Hidx Hl. pose proof Hok as [Ht Hh Hi]. unfold storeWatch.
  rewrite (next_index s Hok Hroom), Clean_Join. fold names index.
  assert (1 ≤ index) as H1 by (unfold index; destruct (Z.eqb_spec sinceIndex 0); lia).
  destruct (watch_ok (s_CurrentIndex s) h l (pathOf names) recursive stream index (s_CurrentIndex s) Hh Hl H1)
    as (h' & Hh' & E & Hsame & Hnew & _). fold eh in E, Hsame, Hnew.
  fold h. rewrite E. cbn [mbind run_bind]. eexists _, _. split; [done|]. split; [by split|]. split_and!.
  - intros Hlt. rewrite (proj2 (Z.ltb_lt _ _)), (Hsame Hlt) by done. split; [by destruct s|eauto].
  - intros Hge. rewrite (proj2 (Z.ltb_ge _ _)) by done.
    destruct (Hnew Hge) as (w & Hall & W1 & W2 & W3 & W4 & W5). eexists _, w. split; [done|].
    split; [apply newPtr_fresh|]. split; [simpl; rewrite Hall; apply lookup_insert_eq|].
    split_and!; try done. intros Hf. apply W5. rewrite W4. fold found. by rewrite Hf.
  - intros p e enames He Hkey Hen. unfold matching. rewrite He.
    by apply keyMatch_pathOf; [apply parts_ok|..].
Qed.
