(* ===== verification/StoreReplica.v ===== *)
(** * StoreReplica: copies of the store stay equal (src/store/store.go)

    Two stores that hold the same keys at the same index give the same answers and hold the
    same keys afterwards, whatever the order in which their maps are visited and the time
    their clocks show.  For the removal of the expired keys this needs that a directory
    and a node below it do not expire at the same instant: then the order of the heap, and
    with it the number of the removals, would depend on the history of the heap.

    The indexes of some keys, [M], may be different: those of the members of the cluster,
    which every start of a server creates in another order.  The operations must then not
    compare these indexes. *)

From stdpp Require Import pretty sorting.
From Stdlib Require Import String Ascii FunctionalExtensionality.
From S2P Require Import Prelude.
From S2P Require Import Wire.
From S2P Require Import Paths TtlHeap EtcdError StoreEvent StoreNode StoreTree StoreRemove.
From S2P Require Import Stats WatcherHub HubProps HubNotify Store StoreWalk StoreCreate StoreProps.
From S2P Require Import StoreUpdate StoreDelete StoreExpire StoreGet StoreApi.

(** ** Keys that are equal up to the indexes of [M] *)
Definition twin_entry (M : list string → Prop) (k : list string) (e1 e2 : entry) : Prop :=
  v_value e1 = v_value e2 ∧ v_expire e1 = v_expire e2 ∧ (M k ∨ e1 = e2).
Definition alike (M : list string → Prop) (v1 v2 : kmap) : Prop :=
  ∀ k, option_Forall2 (twin_entry M k) (v1 k) (v2 k).

Lemma alike_refl M v : alike M v v.
Proof. intros k. destruct (v k); constructor. split_and!; [done..|by right]. Qed.

Lemma alike_eq v1 v2 : alike (λ _, False) v1 v2 → v1 = v2.
Proof.
  intros H. apply functional_extensionality. intros k. destruct (H k) as [e1 e2 (_ & _ & [[]| ->])|]; done.
Qed.

(** The keys of two stores, as the specification sees them. *)
Record agree (M : list string → Prop) (s1 s2 : store) : Prop := {
  ag_index : s_CurrentIndex s1 = s_CurrentIndex s2;
  ag_keys : alike M (keys s1) (keys s2);
}.

Lemma lookupSpec_alike M v1 v2 cur pre names :
  alike M v1 v2 → lookupSpec cur v1 pre names = lookupSpec cur v2 pre names.
Proof.
  intros H. revert pre. induction names as [|x names IH]; intros pre; [done|]. cbn [lookupSpec]. rewrite IH.
  destruct (H pre) as [[] [] (E & _)|], (H (pre ++ [x])) as [? ? _|]; simpl in *; subst; done.
Qed.

Lemma dirError_alike M v1 v2 cur pre names :
  alike M v1 v2 → dirError cur v1 pre names = dirError cur v2 pre names.
Proof.
  intros H. revert pre. induction names as [|x names IH]; intros pre; [done|]. cbn [dirError]. rewrite IH.
  destruct (H (pre ++ [x])) as [[] [] (E & _)|]; simpl in *; subst; done.
Qed.

Lemma upd_alike M v1 v2 names e1 e2 :
  alike M v1 v2 → twin_entry M names e1 e2 → alike M (upd names e1 v1) (upd names e2 v2).
Proof. intros H He k. unfold upd. case_decide; [subst; by constructor|apply H]. Qed.

Lemma place_alike M v1 v2 i names new :
  alike M v1 v2 → alike M (place i names new v1) (place i names new v2).
Proof.
  intros H k. unfold place. case_decide; [constructor; split_and!; [done..|by right]|].
  destruct (H k) as [e1 e2 He|]; [by constructor|]. case_decide; constructor. split_and!; [done..|by right].
Qed.

Lemma without_alike M v1 v2 names : alike M v1 v2 → alike M (without names v1) (without names v2).
Proof. intros H k. unfold without. case_decide; [constructor|apply H]. Qed.

(** The operation does not compare an index that may differ. *)
Definition spares (M : list string → Prop) (o : op) : Prop :=
  match o with
  | OpCompareAndSwap nodePath _ prevIndex _ _ | OpCompareAndDelete nodePath _ prevIndex =>
      prevIndex = 0 ∨ ¬ M (parts nodePath)
  | _ => True
  end.

(** ** Operations *)
Definition same_change (M : list string → Prop) (a1 a2 : Error + change) : Prop :=
  match a1, a2 with
  | inl err1, inl err2 => err1 = err2
  | inr (act1, names1, v1), inr (act2, names2, v2) => act1 = act2 ∧ names1 = names2 ∧ alike M v1 v2
  | _, _ => False
  end.

Lemma onNode_alike {A} M v1 v2 cur names (f1 f2 : entry → Error + A) (R : Error + A → Error + A → Prop) :
  alike M v1 v2 → (∀ err, R (inl err) (inl err)) →
  (∀ e1 e2, v1 names = Some e1 → v2 names = Some e2 → twin_entry M names e1 e2 → R (f1 e1) (f2 e2)) →
  R (onNode cur v1 names f1) (onNode cur v2 names f2).
Proof.
  intros H Herr Hok. unfold onNode. rewrite (lookupSpec_alike M v1 v2) by done.
  destruct (lookupSpec cur v2 [] names); [done|]. pose proof (H names) as Hn.
  destruct (v1 names), (v2 names); inversion Hn; subst; auto.
Qed.

Lemma notRoot_alike {A} cur names (r1 r2 : Error + A) (R : Error + A → Error + A → Prop) :
  (∀ err, R (inl err) (inl err)) → R r1 r2 → R (notRoot cur names r1) (notRoot cur names r2).
Proof. intros Herr Hr. unfold notRoot. by case_decide. Qed.

Lemma createSpec_alike M v1 v2 cur names replace new act :
  alike M v1 v2 →
  same_change M
    (match createSpec cur v1 names replace new with inl err => inl err | inr v' => inr (act, names, v') end)
    (match createSpec cur v2 names replace new with inl err => inl err | inr v' => inr (act, names, v') end).
Proof.
  intros H. unfold createSpec. case_decide; [done|]. rewrite (dirError_alike M v1 v2) by done.
  destruct (dirError _ _ _ _); [done|].
  assert (placeError cur (v1 names) replace names = placeError cur (v2 names) replace names) as ->.
  { destruct (H names) as [[] [] (E & _)|]; simpl in *; subst; done. }
  destruct (placeError _ _ _ _); [done|]. split_and!; [done..|]. by apply place_alike.
Qed.

(** The entries that an operation that replaces a node finds. *)
Definition twin_result (M : list string → Prop) (names : list string) (r1 r2 : Error + entry) : Prop :=
  match r1, r2 with
  | inl err1, inl err2 => err1 = err2
  | inr e1, inr e2 => twin_entry M names e1 e2
  | _, _ => False
  end.

Lemma updateSpec_alike M v1 v2 cur names newValue expireTime :
  alike M v1 v2 →
  twin_result M names (updateSpec cur v1 names newValue expireTime) (updateSpec cur v2 names newValue expireTime).
Proof.
  intros H. unfold updateSpec. apply notRoot_alike; [done|]. apply (onNode_alike M); [done..|].
  intros [w1 c1 m1 x1] [w2 c2 m2 x2] _ _ (E & _ & Hm). simpl in *. subst w2.
  destruct w1; [|case_decide; [|done]]; (split_and!; [done..|]); destruct Hm as [|[= -> -> ->]]; auto.
Qed.

Lemma compareSpec_alike M v1 v2 cur names prevValue prevIndex :
  alike M v1 v2 → prevIndex = 0 ∨ ¬ M names →
  twin_result M names (compareSpec cur v1 names prevValue prevIndex (λ en, en))
    (compareSpec cur v2 names prevValue prevIndex (λ en, en)).
Proof.
  intros H Hs. unfold compareSpec. apply (onNode_alike M); [done..|]. intros e1 e2 _ _ He.
  pose proof He as (E & _ & Hm). rewrite E. destruct (v_value e2) as [w|] eqn:Hw; [|done].
  destruct Hs as [->|Hs].
  - destruct (decide (_ ∧ _)) as [[? _]|Hn]; [rewrite decide_True by auto; exact He|].
    rewrite decide_False by naive_solver. simpl. unfold compareCause.
    rewrite !(decide_False (P := prevValue = EmptyString ∨ w = prevValue)) by naive_solver.
    by rewrite !decide_True by by left.
  - destruct Hm as [| <-]; [done|]. case_decide; [exact He|done].
Qed.

Lemma effect_alike M cur v1 v2 o a1 a2 :
  alike M v1 v2 → spares M o → effect cur v1 o a1 → effect cur v2 o a2 → same_change M a1 a2.
Proof.
  intros H Hs. destruct o as [| |path val ex|path pv pi val ex|path dir rc|path pv pi]; cbn [effect spares] in *.
  - intros -> ->. by apply createSpec_alike.
  - intros -> ->. by apply createSpec_alike.
  - intros -> ->. pose proof (updateSpec_alike M v1 v2 cur (parts path) val ex H) as Hr. unfold as_change.
    destruct (updateSpec _ v1 _ _ _), (updateSpec _ v2 _ _ _); try done.
    split_and!; [done..|]. by apply upd_alike.
  - intros -> ->. pose proof (compareSpec_alike M v1 v2 cur (parts path) pv pi H Hs) as Hr.
    unfold as_change, notRoot. case_decide; [done|].
    destruct (compareSpec _ v1 _ _ _ _) as [|e1], (compareSpec _ v2 _ _ _ _) as [|e2]; try done.
    split_and!; [done..|]. apply upd_alike; [done|]. destruct Hr as (E & Ex & Hm).
    split_and!; [done..|]. destruct Hm as [| ->]; auto.
  - assert (twin_result M (parts path) (notRoot cur (parts path) (onNode cur v1 (parts path) inr))
      (notRoot cur (parts path) (onNode cur v2 (parts path) inr))) as Hr.
    { apply notRoot_alike; [done|]. by apply (onNode_alike M). }
    destruct (notRoot _ _ (onNode _ v1 _ _)) as [|e1], (notRoot _ _ (onNode _ v2 _ _)) as [|e2]; try done.
    { simpl in Hr. subst. by intros -> ->. }
    assert (deletable v1 (parts path) e1 dir rc ↔ deletable v2 (parts path) e2 dir rc) as Hd.
    { destruct Hr as (E & _). unfold deletable, hasChild. rewrite E.
      assert (∀ k, is_Some (v1 k) ↔ is_Some (v2 k)) as Hi; [|by setoid_rewrite Hi].
      intros k. destruct (H k); [|done]. by split; intros _; eexists. }
    rewrite Hd. intros [[? ->]|[? ->]] [[? ->]|[? ->]]; try done.
    split_and!; [done..|]. by apply without_alike.
  - intros -> ->. pose proof (compareSpec_alike M v1 v2 cur (parts path) pv pi H Hs) as Hr. unfold as_change.
    destruct (compareSpec _ v1 _ _ _ _), (compareSpec _ v2 _ _ _ _); try done.
    split_and!; [done..|]. by apply without_alike.
Qed.

(** Two stores that can be implemented in different ways: the orders of their maps. *)
Section replicas.
Context (R1 R2 : ChildRange).

Lemma runOp_agree M now1 now2 o s1 s2 :
  store_ok s1 → store_ok s2 → agree M s1 s2 → spares M o → room s1 →
  ∃ s1' s2' r1 r2 a1 a2, runOp (H := R1) now1 o s1 = Ret (s1', r1) ∧ runOp (H := R2) now2 o s2 = Ret (s2', r2) ∧
    effect (s_CurrentIndex s1) (keys s1) o a1 ∧
    implements s1 s1' r1 a1 ∧ implements s2 s2' r2 a2 ∧ same_change M a1 a2 ∧
    store_ok s1' ∧ store_ok s2' ∧ agree M s1' s2'.
Proof.
  intros Ok1 Ok2 [Hi Hk] Hsp Hr1. assert (room s2) as Hr2 by (unfold room in *; lia).
  destruct (runOp_refines (H := R1) now1 o s1 Ok1 Hr1) as (s1' & r1 & a1 & E1 & F1 & I1).
  destruct (runOp_refines (H := R2) now2 o s2 Ok2 Hr2) as (s2' & r2 & a2 & E2 & F2 & I2).
  rewrite <-Hi in F2. pose proof (effect_alike M _ _ _ _ _ _ Hk Hsp F1 F2) as Hsame.
  pose proof (runOp_ok (H := R1) _ _ _ _ _ Ok1 Hr1 E1). pose proof (runOp_ok (H := R2) _ _ _ _ _ Ok2 Hr2 E2).
  exists s1', s2', r1, r2, a1, a2. split_and!; [done..|].
  destruct a1 as [err|[[act names] v1]], a2 as [err'|[[act' names'] v2]]; try done; cbn [implements] in I1, I2.
  - destruct I1 as [_ [_ _ Hi1 Hk1 _]], I2 as [_ [_ _ Hi2 Hk2 _]]. split; [congruence|].
    intros k. rewrite Hk1, Hk2. apply Hk.
  - destruct I1 as (? & ? & _ & [_ _ Hi1 Hk1 _ _] & _), I2 as (? & ? & _ & [_ _ Hi2 Hk2 _ _] & _).
    split; [congruence|]. intros k. rewrite Hk1, Hk2. apply Hsame.
Qed.
End replicas.

(** ** Expired keys *)

(** No node expires together with a directory above it. *)
Definition noTies (v : kmap) : Prop :=
  ∀ j k ej ek, j `prefix_of` k → v j = Some ej → v k = Some ek →
    v_expire ej ≠ 0 → v_expire ej = v_expire ek → j = k.

(** The keys that DeleteExpiredKeys removes by themselves: they are due, and before the
    directories above them. *)
Definition doomed (cutoff : Z) (v : kmap) (k : list string) : Prop :=
  ∃ en, v k = Some en ∧ due cutoff en = true ∧
    ∀ j ej, j `prefix_of` k → j ≠ k → v j = Some ej → due cutoff ej = true → v_expire en < v_expire ej.

Lemma due_nonzero cutoff en : due cutoff en = true → v_expire en ≠ 0.
Proof. unfold due. intros [Hz _]%andb_true_iff. by apply negb_true_iff, Z.eqb_neq in Hz. Qed.

Lemma noTies_without v names : noTies v → noTies (without names v).
Proof.
  intros Hv j k ej ek Hjk. unfold without. repeat case_decide; try done. intros. by eapply Hv.
Qed.

Lemma doomed_without cutoff v names old k :
  noTies v → v names = Some old → due cutoff old = true →
  (∀ j en, v j = Some en → v_expire en ≠ 0 → v_expire old ≤ v_expire en) →
  doomed cutoff v k ↔ k = names ∨ doomed cutoff (without names v) k.
Proof.
  intros Hties Hv Hd Hmin. split.
  - intros (en & Hk & Hdue & Hall). destruct (decide (k = names)) as [|Hne]; [by left|right].
    assert (¬ names `prefix_of` k) as Hnp.
    { intros Hp. specialize (Hall names old Hp ltac:(done) Hv Hd).
      specialize (Hmin k en Hk (due_nonzero _ _ Hdue)). lia. }
    exists en. unfold without at 1. rewrite decide_False by done. split_and!; [done..|].
    intros j ej Hj Hjk Hjv. unfold without in Hjv. case_decide; [done|]. by apply (Hall j).
  - intros [->|(en & Hk & Hdue & Hall)].
    + exists old. split_and!; [done..|]. intros j ej Hj Hne Hjv Hjd.
      pose proof (Hmin j ej Hjv (due_nonzero _ _ Hjd)).
      destruct (Z.eq_dec (v_expire old) (v_expire ej)) as [E|]; [|lia]. destruct Hne.
      by apply (Hties j names ej old Hj Hjv Hv (due_nonzero _ _ Hjd)).
    + unfold without in Hk. case_decide as Hnp; [done|]. exists en. split_and!; [done..|].
      intros j ej Hj Hne Hjv Hjd. apply (Hall j ej); [done|done| |done]. unfold without.
      rewrite decide_False; [done|]. intros Hp. apply Hnp. by trans j.
Qed.

Lemma doomed_names cutoff v names : ¬ doomed cutoff (without names v) names.
Proof. intros (en & Hk & _). unfold without in Hk. by rewrite decide_True in Hk. Qed.

Lemma doomed_ext cutoff v v' k : (∀ j, v j = v' j) → doomed cutoff v k → doomed cutoff v' k.
Proof.
  intros Hv (en & Hk & Hd & Hall). exists en. rewrite <-Hv. split_and!; [done..|].
  intros j ej. rewrite <-Hv. apply Hall.
Qed.

Lemma doomed_alike M cutoff v v' k : alike M v v' → doomed cutoff v k ↔ doomed cutoff v' k.
Proof.
  intros H. assert (∀ v v', alike M v v' ∨ alike M v' v → doomed cutoff v k → doomed cutoff v' k) as Hd;
    [|split; apply Hd; auto]. clear v v' H. intros v v' H (en & Hk & Hdue & Hall).
  assert (∀ j e', v' j = Some e' → ∃ e, v j = Some e ∧ v_expire e = v_expire e') as Hback.
  { intros j e' Hj. destruct H as [H|H]; specialize (H j); rewrite Hj in H;
      inversion H as [? ? (_ & E & _)|]; subst; eauto. }
  assert (∃ en', v' k = Some en' ∧ v_expire en' = v_expire en) as (en' & Hk' & E).
  { destruct H as [H|H]; specialize (H k); rewrite Hk in H; inversion H as [? ? (_ & E & _)|]; subst; eauto. }
  assert (∀ e e', v_expire e = v_expire e' → due cutoff e = due cutoff e') as Hdu by (unfold due; by intros ? ? ->).
  exists en'. split_and!; [done|by rewrite (Hdu en' en)|]. intros j ej' Hj Hne Hjv Hjd.
  destruct (Hback j ej' Hjv) as (ej & Hjv' & Ej). rewrite E, <-Ej. apply (Hall j); [done..|]. by rewrite (Hdu ej ej').
Qed.

Lemma noTies_alike M v v' : alike M v v' → noTies v → noTies v'.
Proof.
  intros H Hv j k ej' ek' Hjk Hj Hk. pose proof (H j) as Aj. pose proof (H k) as Ak. rewrite Hj in Aj. rewrite Hk in Ak.
  inversion Aj as [ej ? (_ & Ej & _)|]; inversion Ak as [ek ? (_ & Ek & _)|]; subst.
  rewrite <-Ej, <-Ek. by apply Hv.
Qed.

Lemma expiredKey_alike M cutoff v v' k : alike M v v' → expiredKey cutoff v k = expiredKey cutoff v' k.
Proof.
  intros H. unfold expiredKey. f_equal. apply functional_extensionality. intros j.
  destruct (H (take j k)) as [e1 e2 (_ & E & _)|]; [|done]. unfold due. by rewrite E.
Qed.

Section expire.
Context `{ChildRange} (now : Z).

(** The index grows by the number of the keys that are removed by themselves. *)
Lemma expireLoop_count fuel s cutoff :
  store_ok s → (Len (t_ttl (s_tree s)) < fuel)%nat →
  s_CurrentIndex s + Z.of_nat (Len (t_ttl (s_tree s))) < 2 ^ 64 → noTies (keys s) →
  ∃ s' l, expireLoop now fuel cutoff s = Ret s' ∧ NoDup l ∧
    (∀ k, k ∈ l ↔ doomed cutoff (keys s) k) ∧ s_CurrentIndex s' = s_CurrentIndex s + len l.
Proof.
  revert s. induction fuel as [|fuel IH]; intros s Hok Hfuel Hroom Hties; [lia|]. cbn [expireLoop].
  destruct (expireOne_ok now s cutoff Hok)
    as [[E Hnone]|(s1 & names & p & old & E & Hk & Hd & Hmin & Hlen & ep & D & _)].
  { intros Htop. unfold room. unfold top, Len in *. destruct (h_array (t_ttl (s_tree s))); [done|].
    simpl in *. lia. }
  - rewrite E. exists s, []. split_and!; [done|constructor| |unfold len; simpl; lia].
    intros k. split; [by intros ?%elem_of_nil|]. intros (en & Hen & Hdue & _).
    by rewrite (Hnone k en Hen) in Hdue.
  - rewrite E. cbn [mbind run_bind]. pose proof (st_index _ _ _ _ _ D) as Hidx.
    pose proof (st_keys _ _ _ _ _ D) as Hkeys.
    assert (keys s1 = without names (keys s)) as Hk1 by by apply functional_extensionality.
    destruct (IH s1) as (s2 & l & E2 & Hnd & Hl & I2); [apply D|lia|lia|rewrite Hk1; by apply noTies_without|].
    rewrite Hk1 in Hl. exists s2, (names :: l). split_and!; [done| | |rewrite len_cons; lia].
    + constructor; [|done]. rewrite Hl. apply doomed_names.
    + intros k. rewrite elem_of_cons, Hl. symmetry. by eapply doomed_without.
Qed.
End expire.

(** DeleteExpiredKeys with the same cutoff. *)
Lemma expire_agree M (R1 R2 : ChildRange) now1 now2 cutoff s1 s2 :
  store_ok s1 → store_ok s2 → agree M s1 s2 → noTies (keys s1) →
  s_CurrentIndex s1 + Z.of_nat (Len (t_ttl (s_tree s1))) < 2 ^ 64 →
  s_CurrentIndex s2 + Z.of_nat (Len (t_ttl (s_tree s2))) < 2 ^ 64 →
  ∃ s1' s2', DeleteExpiredKeys (H := R1) now1 cutoff s1 = Ret s1' ∧
    DeleteExpiredKeys (H := R2) now2 cutoff s2 = Ret s2' ∧
    store_ok s1' ∧ store_ok s2' ∧ agree M s1' s2' ∧
    (∀ k, keys s1' k = if expiredKey cutoff (keys s1) k then None else keys s1 k) ∧
    s_CurrentIndex s1' + Z.of_nat (Len (t_ttl (s_tree s1'))) ≤
      s_CurrentIndex s1 + Z.of_nat (Len (t_ttl (s_tree s1))).
Proof.
  intros Ok1 Ok2 [Hi Hk] Hties Hr1 Hr2. unfold DeleteExpiredKeys.
  destruct (expireLoop_ok (H := R1) now1 (S (Len (t_ttl (s_tree s1)))) s1 cutoff Ok1)
    as (s1' & E1 & Ok1' & _ & V1 & I1 & I1'); [lia|done|].
  destruct (expireLoop_ok (H := R2) now2 (S (Len (t_ttl (s_tree s2)))) s2 cutoff Ok2)
    as (s2' & E2 & Ok2' & _ & V2 & I2 & _); [lia|done|].
  destruct (expireLoop_count (H := R1) now1 (S (Len (t_ttl (s_tree s1)))) s1 cutoff Ok1)
    as (s1'' & l1 & C1 & N1 & M1 & J1); [lia|done|done|].
  destruct (expireLoop_count (H := R2) now2 (S (Len (t_ttl (s_tree s2)))) s2 cutoff Ok2)
    as (s2'' & l2 & C2 & N2 & M2 & J2); [lia|done|by eapply noTies_alike|].
  rewrite E1 in C1. injection C1 as <-. rewrite E2 in C2. injection C2 as <-.
  exists s1', s2'. split_and!; [done..| |done|done].
  assert (l1 ≡ₚ l2) as Hp. { apply NoDup_Permutation; [done..|]. intros k.
    rewrite M1, M2. by apply (doomed_alike M). }
  split; [unfold len in *; rewrite Hp in J1; lia|].
  intros k. rewrite V1, V2, (expiredKey_alike M cutoff _ _ k Hk). destruct (expiredKey _ _ _); [constructor|apply Hk].
Qed.

(** ** The expire times in use *)

(** The expire time that an operation gives to its key. *)
Definition opExpire (o : op) : Z :=
  match o with
  | OpCreate _ _ _ _ expireTime | OpSet _ _ _ expireTime =>
      if expireTime <? minExpireTime then Permanent else expireTime
  | OpUpdate _ _ expireTime | OpCompareAndSwap _ _ _ _ expireTime => expireTime
  | OpDelete _ _ _ | OpCompareAndDelete _ _ _ => 0
  end.

Lemma place_expire i names new v k en :
  place i names new v k = Some en → v_expire en ≠ 0 →
  (∃ en0, v k = Some en0 ∧ v_expire en0 = v_expire en) ∨ k = names ∧ v_expire en = v_expire new.
Proof.
  unfold place. case_decide; [intros [= <-] _; by right|].
  destruct (v k) as [en0|]; [intros [= ->] _; left; eauto|]. by case_decide; intros [= <-].
Qed.

Lemma upd_expire names new v k en :
  upd names new v k = Some en →
  (∃ en0, v k = Some en0 ∧ v_expire en0 = v_expire en) ∨ k = names ∧ v_expire en = v_expire new.
Proof. unfold upd. case_decide; [intros [= <-]; by right|]. intros ->. left. eauto. Qed.

Lemma without_expire names v k en : without names v k = Some en → v k = Some en.
Proof. unfold without. by case_decide. Qed.

(** Every expire time after an operation was there before, or is the one of the operation. *)
Lemma effect_expire cur v o act names v' k en :
  effect cur v o (inr (act, names, v')) → v' k = Some en → v_expire en ≠ 0 →
  (∃ en0, v k = Some en0 ∧ v_expire en0 = v_expire en) ∨ k = names ∧ v_expire en = opExpire o.
Proof.
  intros He Hk Hz. destruct o; cbn [effect] in He.
  - destruct (createSpec _ _ _ _ _) as [|v2] eqn:E; [done|]. injection He as -> -> ->.
    apply createSpec_inr in E as (_ & -> & _). by apply place_expire in Hk.
  - destruct (createSpec _ _ _ _ _) as [|v2] eqn:E; [done|]. injection He as -> -> ->.
    apply createSpec_inr in E as (_ & -> & _). by apply place_expire in Hk.
  - destruct (updateSpec _ _ _ _ _) as [|new] eqn:E; [done|]. injection He as -> -> ->.
    apply upd_expire in Hk as [|[-> Hk]]; [by left|right]. split; [done|]. rewrite Hk.
    unfold updateSpec, notRoot, onNode in E. repeat (case_decide || case_match); by simplify_eq/=.
  - destruct (notRoot _ _ _) as [|old]; [done|]. injection He as -> -> ->.
    by apply upd_expire in Hk.
  - destruct (notRoot _ _ _) as [|old]; [done|]. destruct He as [[_ ?]|[_ [= -> -> ->]]]; [done|].
    apply without_expire in Hk. left. eauto.
  - destruct (compareSpec _ _ _ _ _ _) as [|old]; [done|]. injection He as -> -> ->.
    apply without_expire in Hk. left. eauto.
Qed.

(** The keys have different expire times, all of them from [L]. *)
Record expires (v : kmap) (L : list Z) : Prop := {
  ex_in : ∀ k en, v k = Some en → v_expire en ≠ 0 → v_expire en ∈ L;
  ex_inj : ∀ j k ej ek, v j = Some ej → v k = Some ek → v_expire ej ≠ 0 →
    v_expire ej = v_expire ek → j = k;
}.

Lemma expires_noTies v L : expires v L → noTies v.
Proof. intros [_ Hinj] j k ej ek _. apply Hinj. Qed.

Lemma expires_sub v v' L :
  expires v L → (∀ k en, v' k = Some en → v_expire en ≠ 0 → ∃ en0, v k = Some en0 ∧ v_expire en0 = v_expire en) →
  expires v' L.
Proof.
  intros [Hin Hinj] Hsub. split.
  - intros k en Hk Hz. destruct (Hsub k en Hk Hz) as (en0 & Hk0 & E). rewrite <-E. eapply Hin; [done|congruence].
  - intros j k ej ek Hj Hk Hz E. destruct (Hsub j ej Hj Hz) as (ej0 & Hj0 & Ej).
    destruct (Hsub k ek Hk) as (ek0 & Hk0 & Ek); [congruence|].
    apply (Hinj j k ej0 ek0); congruence.
Qed.

Lemma expires_effect cur v o act names v' L :
  expires v L → effect cur v o (inr (act, names, v')) → (opExpire o ≠ 0 → opExpire o ∉ L) →
  expires v' (opExpire o :: L).
Proof.
  intros [Hin Hinj] He Hnew. pose proof (λ k en, effect_expire _ _ _ _ _ _ k en He) as Hx. split.
  - intros k en Hk Hz. destruct (Hx k en Hk Hz) as [(en0 & Hk0 & E)|[_ ->]]; [|by left].
    right. rewrite <-E. eapply Hin; [done|]. congruence.
  - intros j k ej ek Hj Hk Hz E. assert (v_expire ek ≠ 0) as Hz' by congruence.
    destruct (Hx j ej Hj Hz) as [(ej0 & Hj0 & Ej)|[-> Ej]], (Hx k ek Hk Hz') as [(ek0 & Hk0 & Ek)|[-> Ek]].
    + apply (Hinj j k ej0 ek0); congruence.
    + destruct Hnew; [congruence|]. rewrite <-Ek, <-E, <-Ej. eapply Hin; [done|congruence].
    + destruct Hnew; [congruence|]. rewrite <-Ej, E, <-Ek. eapply Hin; [done|congruence].
    + done.
Qed.

(** ** The size of the heap *)
Lemma Forall2_choice {A B} (R : A → B → Prop) l :
  (∀ a, a ∈ l → ∃ b, R a b) → ∃ k, Forall2 R l k.
Proof.
  induction l as [|a l IH]; intros Ha; [exists []; constructor|].
  destruct (Ha a ltac:(by left)) as [b Hb]. destruct IH as [k Hk]; [intros x Hx; apply Ha; by right|].
  exists (b :: k). by constructor.
Qed.

(** The heap has as many nodes as there are keys that expire. *)
Lemma heap_size s :
  store_ok s →
  ∃ l, NoDup l ∧ length l = Len (t_ttl (s_tree s)) ∧
    ∀ k, k ∈ l ↔ ∃ en, keys s k = Some en ∧ v_expire en ≠ 0.
Proof.
  intros Hok. pose proof Hok as [Ht _ _]. pose proof (tk_shape _ _ Ht) as Hs.
  set (nodes := t_nodes (s_tree s)).
  destruct (Forall2_choice (λ p k, resolve nodes (s_Root s) k = Some p) (h_array (t_ttl (s_tree s))))
    as [l Hl].
  { intros p (k & n & Hk & _)%(heap_keys s p Hok). eauto. }
  exists l. split_and!.
  - pose proof (map_ok_NoDup _ (hk_map _ _ (tk_heap _ _ Ht))) as Hnd.
    induction Hl as [|p k ps ks Hp Hl IH]; [constructor|]. apply NoDup_cons in Hnd as [Hno Hnd].
    constructor; [|by apply IH]. intros Hin. apply list_elem_of_lookup in Hin as [i Hi].
    destruct (Forall2_lookup_r _ _ _ _ _ Hl Hi) as (q & Hq & Hqk). assert (p = q) by congruence. subst q.
    destruct Hno. by eapply list_elem_of_lookup_2.
  - symmetry. by eapply Forall2_length.
  - intros k. split.
    + intros [i Hi]%list_elem_of_lookup. destruct (Forall2_lookup_r _ _ _ _ _ Hl Hi) as (p & Hp & Hk).
      apply list_elem_of_lookup_2, (heap_keys s p Hok) in Hp as (k' & n & Hk' & Hn & Hv & Hz).
      assert (k' = k) as -> by by eapply resolve_inj. exists (entryOf n). by split.
    + intros (en & Hv & Hz). apply (view_Some _ _ Hs) in Hv as (p & n & Hp & Hn & -> & Hv).
      assert (p ∈ h_array (t_ttl (s_tree s))) as [i Hi]%list_elem_of_lookup.
      { apply (heap_keys s p Hok). exists k, n. split_and!; [done..| |done].
        unfold keys, view. rewrite Hp. simpl. by rewrite Hn. }
      destruct (Forall2_lookup_l _ _ _ _ _ Hl Hi) as (k' & Hk' & Hr).
      assert (k' = k) as <- by by eapply resolve_inj. by eapply list_elem_of_lookup_2.
Qed.

Lemma heap_grows s s' names :
  store_ok s → store_ok s' →
  (∀ k en, keys s' k = Some en → v_expire en ≠ 0 →
    (∃ en0, keys s k = Some en0 ∧ v_expire en0 ≠ 0) ∨ k = names) →
  (Len (t_ttl (s_tree s')) ≤ S (Len (t_ttl (s_tree s))))%nat.
Proof.
  intros Hok Hok' Hsub. destruct (heap_size s Hok) as (l & _ & <- & Hl).
  destruct (heap_size s' Hok') as (l' & Hnd & <- & Hl').
  assert (l' ⊆+ names :: l) as Hs.
  { apply NoDup_submseteq; [done|]. intros k (en & Hk & Hz)%Hl'. rewrite elem_of_cons, Hl.
    destruct (Hsub k en Hk Hz); auto. }
  apply submseteq_length in Hs. done.
Qed.

Lemma heap_same M s1 s2 :
  store_ok s1 → store_ok s2 → alike M (keys s1) (keys s2) →
  Len (t_ttl (s_tree s1)) = Len (t_ttl (s_tree s2)).
Proof.
  intros Ok1 Ok2 Hk. destruct (heap_size s1 Ok1) as (l1 & N1 & <- & M1).
  destruct (heap_size s2 Ok2) as (l2 & N2 & <- & M2).
  apply Permutation_length, NoDup_Permutation; [done..|]. intros k. rewrite M1, M2.
  destruct (Hk k) as [e1 e2 (_ & E & _)|]; [|done].
  split; intros (? & [= <-] & Hz); eexists; (split; [done|]); congruence.
Qed.

(** An operation adds one to the index and one to the heap at most. *)
Lemma implements_bound s s' r o a :
  store_ok s → effect (s_CurrentIndex s) (keys s) o a → implements s s' r a →
  s_CurrentIndex s ≤ s_CurrentIndex s' ∧
  s_CurrentIndex s' + Z.of_nat (Len (t_ttl (s_tree s'))) ≤
    s_CurrentIndex s + Z.of_nat (Len (t_ttl (s_tree s))) + 2.
Proof.
  intros Ok Ha I. destruct a as [err|[[act names] v]].
  - destruct I as [_ [Ok' _ Hi Hk _]]. apply functional_extensionality in Hk.
    rewrite (heap_same (λ _, False) s' s), Hi by (done || rewrite Hk; apply alike_refl). lia.
  - destruct I as (ep & e & _ & [Ok' _ Hi Hk _ _] & _).
    assert (Len (t_ttl (s_tree s')) ≤ S (Len (t_ttl (s_tree s))))%nat; [|lia].
    apply (heap_grows s s' names Ok Ok'). intros k en Hen Hz. rewrite Hk in Hen.
    destruct (effect_expire _ _ _ _ _ _ _ _ Ha Hen Hz) as [(en0 & Hk0 & E)|[-> _]]; [left|by right].
    exists en0. split; [done|congruence].
Qed.
