(* ===== verification/StoreFindings.v ===== *)
(** * StoreFindings: a store at work, and where the code surprises (src/store)

    The theorems on the store at concrete inputs, and runs that show what happens to a
    watcher whose predecessor is removed late, to a stream watcher of a deleted key, and to
    the expiration that an event shows of the previous node. *)

From stdpp Require Import pretty sorting.
From Stdlib Require Import String Ascii.
From S2P Require Import Prelude.
From S2P Require Import Wire.
From S2P Require Import Paths TtlHeap EtcdError StoreEvent StoreNode StoreTree StoreRemove.
From S2P Require Import Stats WatcherHub HubProps HubNotify Store StoreWalk StoreCreate StoreProps.
From S2P Require Import StoreUpdate StoreDelete StoreExpire StoreGet StoreApi StoreTheorems.

(** The children of a directory, in the order of the map. *)
Definition mapOrder : ChildRange :=
  {| children := map_to_list; children_perm m := reflexivity (map_to_list m) |}.
#[local] Existing Instance mapOrder.

(** 2013-03-23, in nanoseconds since the zero time. *)
Definition noon : Z := 63500000000 * second.

Definition finalStore {A} (r : run (store * A)) : store :=
  match r with Ret (s, _) => s | _ => newStore end.

(** One key that stays, with a watcher of its directory, and one that expires. *)
Definition setOne := storeSet noon "/app/one" false "1" 0 newStore.
Definition store1 : store := finalStore setOne.
Definition watchApp := storeWatch "/app" true false 0 store1.
Definition store2 : store := finalStore watchApp.
Definition setTwo := storeSet noon "/app/two" false "2" (noon + 5 * second) store2.
Definition store3 : store := finalStore setTwo.

Lemma setOne_eq : setOne = Ret (store1, inr 1%positive).
Proof. vm_compute. reflexivity. Qed.
Lemma watchApp_eq : watchApp = Ret (store2, inr 1%positive).
Proof. vm_compute. reflexivity. Qed.
Lemma setTwo_eq : setTwo = Ret (store3, inr 2%positive).
Proof. vm_compute. reflexivity. Qed.

Lemma store1_ok : store_ok store1.
Proof.
  apply (runOp_ok noon (OpSet "/app/one" false "1" 0) newStore store1 (inr 1%positive));
    [apply newStore_ok|done|apply setOne_eq].
Qed.
Lemma store2_ok : store_ok store2.
Proof.
  eapply (step_ok store1); [apply store1_ok|].
  by eapply (step_watch "/app" true false 0); [..|apply watchApp_eq].
Qed.
Lemma store3_ok : store_ok store3.
Proof.
  apply (runOp_ok noon (OpSet "/app/two" false "2" (noon + 5 * second)) store2 store3 (inr 2%positive));
    [apply store2_ok|done|apply setTwo_eq].
Qed.

(** ** The theorems at work *)
Definition demoOps : list (Z * op) :=
  [(noon, OpCreate "/app/one" false "1" false 0); (noon, OpCreate "/app/one" false "2" false 0);
   (noon, OpUpdate "/app/one" "3" 0); (noon, OpCompareAndSwap "/app/one" "3" 2 "4" 0);
   (noon, OpDelete "/app" true false); (noon, OpDelete "/app" true true)].

Lemma store_refines_witness :
  store_ok newStore ∧ s_CurrentIndex newStore + len demoOps < 2 ^ 64 ∧
  ∃ s' rs, runOps demoOps newStore = Ret (s', rs) ∧ store_ok s' ∧
    specRun (s_CurrentIndex newStore) (keys newStore) demoOps.*2 rs (s_CurrentIndex s') (keys s').
Proof.
  split; [apply newStore_ok|]. split; [done|].
  apply (store_refines demoOps newStore); [apply newStore_ok|done].
Defined.

Lemma store3_reached : rtc step newStore store3.
Proof.
  eapply rtc_l; [by eapply (step_op noon (OpSet "/app/one" false "1" 0)); [|apply setOne_eq]|].
  eapply rtc_l; [by eapply (step_watch "/app" true false 0); [..|apply watchApp_eq]|].
  eapply rtc_l; [|apply rtc_refl].
  by eapply (step_op noon (OpSet "/app/two" false "2" (noon + 5 * second))); [|apply setTwo_eq].
Qed.

Lemma set_get_witness :
  ∃ e, storeGet noon "/app/../app/two" true true store3 = Ret (stat GetSuccess store3, inr e) ∧
    ne_Key (e_Node e) = "/app/two" ∧ ne_Value (e_Node e) = Some "2" ∧
    ne_ModifiedIndex (e_Node e) = 2.
Proof.
  destruct (set_get noon noon store2 "/app/two" "2" (noon + 5 * second) store3 2%positive true true)
    as (e & E & K & V & _ & _ & M & _); [apply store2_ok|done|apply setTwo_eq|].
  exists e. split; [exact E|]. by split_and!.
Defined.

Lemma get_listing_witness :
  ∃ en e, keys store3 ["app"] = Some en ∧
    storeGet noon "/app" true true store3 = Ret (stat GetSuccess store3, inr e) ∧
    nested true ["app"] (e_Node e).
Proof.
  destruct (get_listing noon store3 "/app" true true (dirEntry 1) store3_ok) as (e & E & _ & Hs).
  { vm_compute. reflexivity. }
  exists (dirEntry 1), e. split; [vm_compute; reflexivity|]. split; [exact E|]. exact Hs.
Defined.

Lemma cas_iff_witness :
  ∃ s' r, storeCompareAndSwap noon "/app/one" "1" 1 "one" 0 store3 = Ret (s', r) ∧ ∃ ep, r = inr ep.
Proof.
  destruct (cas_iff noon store3 "/app/one" "1" 1 "one" 0 store3_ok) as (s' & r & E & Hiff & _).
  { vm_compute. reflexivity. }
  exists s', r. split; [exact E|]. apply Hiff. exists "1", 1, 1, 0.
  split; [vm_compute; reflexivity|]. split; by right.
Defined.

Lemma expire_exact_witness :
  ∃ s', DeleteExpiredKeys noon (noon + 60 * second) store3 = Ret s' ∧
    keys s' ["app"; "two"] = None ∧ keys s' ["app"; "one"] = keys store3 ["app"; "one"].
Proof.
  destruct (expire_exact noon store3 (noon + 60 * second) store3_ok) as (s' & E & _ & V & _).
  { vm_compute. reflexivity. }
  exists s'. split; [exact E|]. split; (etrans; [apply V|]; vm_compute; reflexivity).
Defined.

Lemma app_watchers : watchersOf (s_WatcherHub store2) (pathOf ["app"]) = [1%positive].
Proof. vm_compute. reflexivity. Qed.

(** The watcher of the directory gets the second Set. *)
Lemma set_notifies_witness :
  ∃ e w w', wh_all (s_WatcherHub store2) !! 1%positive = Some w ∧ w_eventChan w = [] ∧
    wh_events (s_WatcherHub store3) !! 2%positive = Some e ∧
    wh_all (s_WatcherHub store3) !! 1%positive = Some w' ∧ w_eventChan w' = [2%positive].
Proof.
  destruct (wh_all (s_WatcherHub store2) !! 1%positive) as [w|] eqn:Hw; [|vm_compute in Hw; done].
  destruct (set_notifies noon store2 "/app/two" false "2" (noon + 5 * second) store3 2%positive ["app"]
    1%positive w) as (e & w' & He & _ & Hw' & _ & Hd & _); [apply store2_ok|done|apply setTwo_eq| | |exact Hw|].
  { repeat constructor; done. }
  { rewrite app_watchers. left. }
  vm_compute in Hw. injection Hw as <-. vm_compute in He. injection He as <-.
  rewrite Hd in Hw' by done.
  eexists _, _, _. split_and!; [done..|exact Hw'|done].
Defined.

(** A watcher of the key that is deleted with its directory. *)
Definition watchOne := storeWatch "/app/one" false false 0 store1.
Definition store4 : store := finalStore watchOne.
Definition deleteApp := storeDelete noon "/app" false true store4.
Definition store5 : store := finalStore deleteApp.

Lemma watchOne_eq : watchOne = Ret (store4, inr 1%positive).
Proof. vm_compute. reflexivity. Qed.
Lemma deleteApp_eq : deleteApp = Ret (store5, inr 2%positive).
Proof. vm_compute. reflexivity. Qed.
Lemma store4_ok : store_ok store4.
Proof.
  eapply (step_ok store1); [apply store1_ok|].
  by eapply (step_watch "/app/one" false false 0); [..|apply watchOne_eq].
Qed.
Lemma one_watchers : watchersOf (s_WatcherHub store4) (pathOf ["app"; "one"]) = [1%positive].
Proof. vm_compute. reflexivity. Qed.

Lemma delete_notifies_witness :
  ∃ e w', keys store5 ["app"; "one"] = None ∧
    wh_events (s_WatcherHub store5) !! 2%positive = Some e ∧ e_Action e = Delete ∧
    wh_all (s_WatcherHub store5) !! 1%positive = Some w' ∧ w_eventChan w' = [2%positive].
Proof.
  destruct (wh_all (s_WatcherHub store4) !! 1%positive) as [w|] eqn:Hw; [|vm_compute in Hw; done].
  destruct (delete_notifies noon store4 "/app" false true store5 2%positive ["app"; "one"] 1%positive w)
    as (Hk & e & w' & D); [apply store4_ok|done|apply deleteApp_eq|by exists ["one"]| | |exact Hw|..].
  { vm_compute. eauto. }
  { rewrite one_watchers. left. }
  { vm_compute in Hw. by injection Hw as <-. }
  { vm_compute in Hw. by injection Hw as <-. }
  exists e, w'. split; [exact Hk|exact D].
Defined.

(** A watch of the first Set, after the fact. *)
Lemma store1_history :
  history_ok (wh_events (s_WatcherHub store1)) (wh_EventHistory (s_WatcherHub store1)) [1%positive].
Proof.
  destruct (wh_events (s_WatcherHub store1) !! 1%positive) as [e|] eqn:He; [|vm_compute in He; done].
  destruct (addEvent_ok (wh_events (s_WatcherHub store1)) (newEventHistory 1000) [] 1%positive e)
    as (eh & E & _ & Hh); [apply newEventHistory_ok|exact He|vm_compute in He; by injection He as <-|done|].
  replace (wh_EventHistory (s_WatcherHub store1)) with eh; [exact Hh|].
  vm_compute in E. injection E as <-. vm_compute. reflexivity.
Qed.

Lemma watch_gives_witness :
  ∃ s' wp w, storeWatch "/app" true false 1 store1 = Ret (s', inr wp) ∧
    wh_all (s_WatcherHub s') !! wp = Some w ∧ w_eventChan w = [1%positive].
Proof.
  destruct (watch_gives store1 [1%positive] "/app" true false 1) as (s' & r & E & _ & _ & Hnew & _);
    [apply store1_ok|done|done|apply store1_history|].
  destruct Hnew as (wp & w & Hr & _ & Hw & _ & _ & _ & Hc & _); [vm_compute; done|].
  exists s', wp, w. rewrite <-Hr. split; [exact E|]. split; [exact Hw|]. etrans; [exact Hc|].
  vm_compute. reflexivity.
Defined.

(** ** A watcher that is removed late *)

(** A client watches a key and is told of a change.  Before its handler calls Remove, a second
    client starts to watch the key; then the key changes again.  The result is the counter of
    the watchers and the watcher of the second client. *)
Definition lateRemove : run (Z * option watcher) :=
  '(s, r1) ← storeWatch "/key" false false 0 newStore;
  '(s, _) ← storeSet noon "/key" false "1" 0 s;
  '(s, r2) ← storeWatch "/key" false false 0 s;
  match r1, r2 with
  | inr w1, inr w2 =>
      h ← lift (Remove w1 (s_WatcherHub s));
      '(s, _) ← storeSet noon "/key" false "2" 0 (s <| s_WatcherHub := h |>);
      Ret (wh_count (s_WatcherHub s), wh_all (s_WatcherHub s) !! w2)
  | _, _ => Crash "no watcher"
  end.

(** The closure that removes a watcher deletes the entry of its key from the hub when the
    list of the watcher is empty, even though the key has a new list by then.  So the Remove
    of a watcher that was told already takes the watcher of another client from the hub: it
    misses the next change of the key, at its index 2, and the counter says that there is
    no watcher. *)
Theorem late_remove_loses_watcher :
  lateRemove =
  Ret (0, Some (mkWatcher [] false false false 2 false (Some ("/key", 2%positive)))).
Proof. vm_compute. reflexivity. Qed.

(** ** A stream watcher of a key that is deleted *)
Definition deleteStream : run (option watcher * option ptr) :=
  '(s, _) ← storeSet noon "/key" false "1" 0 newStore;
  '(s, r) ← storeWatch "/key" false true 0 s;
  match r with
  | inr w =>
      '(s, _) ← storeDelete noon "/key" false false s;
      Ret (wh_all (s_WatcherHub s) !! w, wh_watchers (s_WatcherHub s) !! "/key")
  | inl _ => Crash "no watcher"
  end.

(** A Delete tells the watchers of the key twice, once by the callback of the removal and
    once by notify.  The channel of a watcher holds one event, so that a stream watcher that
    did not receive in between is taken from the hub: it will not see the key again.  Its
    channel stays open, although the comments say that it is closed. *)
Theorem delete_drops_stream_watcher :
  deleteStream =
  Ret (Some (mkWatcher [2%positive] false true false 2 true (Some ("/key", 1%positive))), None).
Proof. vm_compute. reflexivity. Qed.

(** ** The expiration of the previous node *)

(** The event of an Update of a key with a time to live shows the new expiration as that of
    the previous node: both are the pointer to the expire time of the node, which the
    Update changes. *)
Theorem update_prev_expiration `{ChildRange} now s nodePath newValue expireTime s' ep old :
  let names := parts nodePath in
  store_ok s → room s → keys s names = Some old → v_expire old ≠ 0 → expireTime ≠ 0 →
  storeUpdate now nodePath newValue expireTime s = Ret (s', inr ep) →
  ∃ e prev p, wh_events (s_WatcherHub s') !! ep = Some e ∧ e_PrevNode e = Some prev ∧
    ne_Expiration prev = Some p ∧ ne_Expiration (e_Node e) = Some p ∧
    expiry (s_tree s') p = expireTime.
Proof.
  intros names Hok Hroom Hold Hz Hz' E.
  destruct (storeUpdate_ok now s nodePath newValue expireTime Hok Hroom) as (s2 & r & E2 & S).
  rewrite E in E2. injection E2 as <- <-. fold names in S.
  destruct (updateSpec _ _ _ _ _) as [err|en] eqn:Hspec; [by destruct S|].
  destruct S as (ep' & p & old' & [= <-] & _ & Hp & Hold' & [Hst _]).
  rewrite Hold in Hold'. injection Hold' as <-.
  assert (v_expire en = expireTime) as Hen.
  { unfold updateSpec, notRoot, onNode in Hspec. rewrite Hold in Hspec. repeat case_match; by simplify_eq/=. }
  assert (keys s' names = Some en) as Hk.
  { rewrite (st_keys _ _ _ _ _ Hst). unfold upd. by rewrite decide_True. }
  eexists _, _, p. split; [apply Hst|]. split; [done|]. unfold externOf, stamped. simpl.
  rewrite Hen, !(proj2 (Z.eqb_neq _ _)) by done. split_and!; [done..|].
  destruct (view_resolve _ _ (tk_shape _ _ (so_tree _ (st_ok _ _ _ _ _ Hst))) _ _ Hp) as (n & Hn & Hv).
  fold (keys s') in Hv. rewrite Hk in Hv. injection Hv as ->. unfold expireOf. by rewrite Hn.
Qed.

Definition extend := storeUpdate noon "/app/two" "2" (noon + 10 * second) store3.
Definition store6 : store := finalStore extend.
Lemma extend_eq : extend = Ret (store6, inr 3%positive).
Proof. vm_compute. reflexivity. Qed.

Lemma update_prev_expiration_witness :
  ∃ e prev p, wh_events (s_WatcherHub store6) !! 3%positive = Some e ∧ e_PrevNode e = Some prev ∧
    ne_TTL prev = 5 ∧ ne_Expiration prev = Some p ∧
    expiry (s_tree store6) p = noon + 10 * second.
Proof.
  destruct (update_prev_expiration noon store3 "/app/two" "2" (noon + 10 * second) store6 3%positive
    (mkEntry (Some "2") 2 2 (noon + 5 * second))) as (e & prev & p & He & Hp & Hx & _ & Hexp);
    [apply store3_ok|done|vm_compute; reflexivity|done|done|apply extend_eq|].
  exists e, prev, p. split; [exact He|]. split; [exact Hp|].
  split; [|split; [exact Hx|exact Hexp]].
  vm_compute in He. injection He as <-. by injection Hp as <-.
Defined.
