(* ===== verification/StoreSave.v ===== *)
(** * StoreSave: saving and recovering the store (src/store/store.go, node.go)

    Save marshals a clone of the store with encoding/json, and Recovery unmarshals such a
    state into a store that already exists.  A saved state is modelled by the fields that
    json writes: the exported ones without the tag [json:"-"].  Unmarshal follows the rules
    of the package for a value that is already there: a pointer that is not nil is
    decoded in place, a map keeps the entries that the state does not mention, and a
    field that was left out because of [omitempty] keeps its value.  The strings of a state
    are UTF-8: Marshal replaces the bytes that are not (Utf8). *)

From stdpp Require Import pretty sorting.
From Stdlib Require Import String Ascii.
From S2P Require Import Prelude.
From S2P Require Import Wire.
From S2P Require Import Paths Utf8 TtlHeap EtcdError Stats StoreEvent WatcherHub StoreNode Store.

#[local] Set Warnings "-register-all".

(** ** The saved state *)

(** A node; two members of Children can have one name, of which the last counts. *)
Inductive jnode := mkJnode {
  jn_Path : string;
  jn_CreatedIndex : Z;
  jn_ModifiedIndex : Z;
  jn_ExpireTime : Z;
  jn_ACL : string;
  jn_Value : string;
  jn_Children : option (list (string * jnode));  (** null for a key-value pair *)
}.

(** A NodeExtern; a member that is left out has the zero value. *)
Inductive jextern := mkJextern {
  je_key : string;
  je_value : option string;
  je_dir : bool;
  je_expiration : option Z;
  je_ttl : Z;
  je_nodes : list jextern;
  je_modifiedIndex : Z;
  je_createdIndex : Z;
}.

(** An Event, without EtcdIndex. *)
Record jevent := mkJevent {
  jv_action : action;
  jv_node : jextern;
  jv_prevNode : option jextern;
}.

Record jhistory := mkJhistory {
  jh_Events : list (option jevent);
  jh_Size : Z;
  jh_Front : Z;
  jh_Back : Z;
  jh_Capacity : Z;
  jh_StartIndex : Z;
  jh_LastIndex : Z;
}.

Record jstore := mkJstore {
  js_Root : jnode;
  js_EventHistory : jhistory;
  js_CurrentIndex : Z;
  js_Stats : Stats;
  js_CurrentVersion : Z;
}.

(** ** Save *)
Section save.
Context `{ChildRange}.

Fixpoint Clone (fuel : nat) (p : ptr) (t : tree) : run (tree * ptr) :=
  match fuel with
  | O => Loop
  | S fuel =>
      n ← nodeAt p t;
      match n_Children n with
      | None =>
          Ret (alloc (newKV (n_Path n) (n_Value n) (n_CreatedIndex n) (n_Parent n) (n_ACL n)
                        (n_ExpireTime n)) t)
      | Some c =>
          let '(t, clone) := alloc (newDir (n_Path n) (n_CreatedIndex n) (n_Parent n) (n_ACL n)
                                      (n_ExpireTime n)) t in
          t ← forEach (λ '(key, child) t,
                 '(t, q) ← Clone fuel child t;
                 cn ← nodeAt clone t;
                 let cs := default ∅ (n_Children cn) in
                 Ret (t <| t_nodes ::= <[clone := cn <| n_Children := Some (<[key := q]> cs) |>]> |>))
                (children c) t;
          Ret (t, clone)
      end
  end.
End save.

(** A list of computations. *)
Fixpoint traverse {A B} (f : A → run B) (l : list A) : run (list B) :=
  match l with
  | [] => Ret []
  | a :: l => b ← f a; bs ← traverse f l; Ret (b :: bs)
  end.

(** The members of a map, in the order of their keys. *)
Definition member_le (a b : string * ptr) : Prop := String.leb a.1 b.1 = true.
#[export] Instance member_le_dec a b : Decision (member_le a b).
Proof. unfold member_le. apply _. Defined.
Definition sortedMembers (c : gmap string ptr) : list (string * ptr) :=
  merge_sort member_le (map_to_list c).

Fixpoint marshalNode (fuel : nat) (p : ptr) (t : tree) : run jnode :=
  match fuel with
  | O => Loop
  | S fuel =>
      n ← nodeAt p t;
      cs ← match n_Children n with
           | None => Ret None
           | Some c =>
               l ← traverse (λ '(key, q), j ← marshalNode fuel q t; Ret (coerce key, j)) (sortedMembers c);
               Ret (Some l)
           end;
      Ret (mkJnode (coerce (n_Path n)) (n_CreatedIndex n) (n_ModifiedIndex n) (n_ExpireTime n)
             (coerce (n_ACL n)) (coerce (n_Value n)) cs)
  end.

(** The expiration is read through its pointer. *)
Fixpoint marshalExtern (t : tree) (e : NodeExtern) : jextern :=
  mkJextern (coerce (ne_Key e)) (coerce <$> ne_Value e) (ne_Dir e) (expiry t <$> ne_Expiration e) (ne_TTL e)
    (marshalExtern t <$> ne_Nodes e) (ne_ModifiedIndex e) (ne_CreatedIndex e).

Definition marshalEvent (t : tree) (e : Event) : jevent :=
  mkJevent (e_Action e) (marshalExtern t (e_Node e)) (marshalExtern t <$> e_PrevNode e).

Definition marshalHistory (t : tree) (events : gmap ptr Event) (eh : EventHistory) : jhistory :=
  let q := eh_Queue eh in
  mkJhistory ((λ e, e ≫= λ p, marshalEvent t <$> events !! p) <$> q_Events q)
    (q_Size q) (q_Front q) (q_Back q) (q_Capacity q) (eh_StartIndex eh) (eh_LastIndex eh).

Definition Save `{ChildRange} (s : store) : run jstore :=
  '(t, root) ← Clone (levels (s_tree s)) (s_Root s) (s_tree s);
  let hub := watcherHub_clone (s_WatcherHub s) in
  jroot ← marshalNode (levels t) root t;
  Ret (mkJstore jroot (marshalHistory t (wh_events hub) (wh_EventHistory hub)) (s_CurrentIndex s)
         (Stats_clone (s_Stats s)) (s_CurrentVersion s)).

(** ** Recovery *)

(** A node that the state describes and that is not there yet. *)
Fixpoint decodeNode (j : jnode) (nodes : gmap ptr node) : gmap ptr node * ptr :=
  let '(nodes, cs) :=
    match jn_Children j with
    | None => (nodes, None)
    | Some l =>
        let '(nodes, c) :=
          (fix members (l : list (string * jnode)) (nodes : gmap ptr node) (c : gmap string ptr) :=
             match l with
             | [] => (nodes, c)
             | (key, j) :: l =>
                 let '(nodes, q) := decodeNode j nodes in members l nodes (<[key := q]> c)
             end) l nodes ∅ in
        (nodes, Some c)
    end in
  let p := fresh (dom nodes) in
  (<[p := mkNode (jn_Path j) (jn_CreatedIndex j) (jn_ModifiedIndex j) None (jn_ExpireTime j)
            (jn_ACL j) (jn_Value j) cs]> nodes, p).

(** The members of an object, into the map [c]. *)
Fixpoint decodeMembers (l : list (string * jnode)) (nodes : gmap ptr node) (c : gmap string ptr)
  : gmap ptr node * gmap string ptr :=
  match l with
  | [] => (nodes, c)
  | (key, j) :: l =>
      let '(nodes, q) := decodeNode j nodes in decodeMembers l nodes (<[key := q]> c)
  end.

(** The root is decoded in place; null empties the map. *)
Definition decodeRoot (j : jnode) (root : ptr) (n : node) (nodes : gmap ptr node) : gmap ptr node :=
  let '(nodes, cs) :=
    match jn_Children j with
    | None => (nodes, None)
    | Some l => let '(nodes, c) := decodeMembers l nodes (default ∅ (n_Children n)) in (nodes, Some c)
    end in
  <[root := mkNode (jn_Path j) (jn_CreatedIndex j) (jn_ModifiedIndex j) (n_Parent n) (jn_ExpireTime j)
              (jn_ACL j) (jn_Value j) cs]> nodes.

Definition zeroExtern : NodeExtern := mkNodeExtern EmptyString None false None 0 [] 0 0.

(** [*expiration = x], or a new time.  The times are in nodes; a time of its own is the
    expire time of a node that nothing else points to. *)
Definition decodeExpiration (x : option Z) (old : option ptr) (nodes : gmap ptr node)
  : gmap ptr node * option ptr :=
  match x, old with
  | None, _ => (nodes, old)
  | Some x, Some p => (alter (λ n, n <| n_ExpireTime := x |>) p nodes, old)
  | Some x, None =>
      let p := fresh (dom nodes) in
      (<[p := newKV EmptyString EmptyString 0 None EmptyString x]> nodes, Some p)
  end.

(** A NodeExtern over [old]: a member that is not in the state leaves the field. *)
Fixpoint decodeExtern (j : jextern) (old : NodeExtern) (nodes : gmap ptr node)
  : gmap ptr node * NodeExtern :=
  let '(nodes, exp) := decodeExpiration (je_expiration j) (ne_Expiration old) nodes in
  let '(nodes, es) :=
    match je_nodes j with
    | [] => (nodes, ne_Nodes old)
    | js =>
        (fix elems (js : list jextern) (olds : list NodeExtern) (nodes : gmap ptr node) :=
           match js with
           | [] => (nodes, [])
           | j :: js =>
               let '(nodes, e) := decodeExtern j (default zeroExtern (head olds)) nodes in
               let '(nodes, es) := elems js (tail olds) nodes in (nodes, e :: es)
           end) js (ne_Nodes old) nodes
    end in
  (nodes, mkNodeExtern
     (if bool_decide (je_key j = EmptyString) then ne_Key old else je_key j)
     (match je_value j with None => ne_Value old | v => v end)
     (je_dir j || ne_Dir old) exp
     (if je_ttl j =? 0 then ne_TTL old else je_ttl j) es
     (if je_modifiedIndex j =? 0 then ne_ModifiedIndex old else je_modifiedIndex j)
     (if je_createdIndex j =? 0 then ne_CreatedIndex old else je_createdIndex j)).

Definition zeroEvent : Event := mkEvent Get zeroExtern None 0.

(** An event over [old]. *)
Definition decodeEvent (j : jevent) (old : Event) (nodes : gmap ptr node) : gmap ptr node * Event :=
  let '(nodes, n) := decodeExtern (jv_node j) (e_Node old) nodes in
  let '(nodes, prev) :=
    match jv_prevNode j with
    | None => (nodes, e_PrevNode old)
    | Some jp =>
        let '(nodes, e) := decodeExtern jp (default zeroExtern (e_PrevNode old)) nodes in
        (nodes, Some e)
    end in
  (nodes, mkEvent (jv_action j) n prev (e_EtcdIndex old)).

(** The slice of events: an element that points to an event is decoded in place. *)
Fixpoint decodeEvents (js : list (option jevent)) (olds : list (option ptr))
    (events : gmap ptr Event) (nodes : gmap ptr node)
  : gmap ptr node * gmap ptr Event * list (option ptr) :=
  match js with
  | [] => (nodes, events, [])
  | j :: js =>
      let old := default None (head olds) in
      let '(nodes, events, e) :=
        match j with
        | None => (nodes, events, None)
        | Some j =>
            let p := match old with Some p => p | None => newPtr events end in
            let '(nodes, e) := decodeEvent j (default zeroEvent (events !! p)) nodes in
            (nodes, <[p := e]> events, Some p)
        end in
      let '(nodes, events, es) := decodeEvents js (tail olds) events nodes in
      (nodes, events, e :: es)
  end.

Section recovery.
Context `{ChildRange}.

Fixpoint recoverAndclean (fuel : nat) (p : ptr) (t : tree) : run tree :=
  match fuel with
  | O => Loop
  | S fuel =>
      n ← nodeAt p t;
      t ← match n_Children n with
          | None => Ret t
          | Some c =>
              forEach (λ child t,
                cn ← nodeAt child t;
                recoverAndclean fuel child (t <| t_nodes ::= <[child := cn <| n_Parent := Some p |>]> |>))
                (children c).*2 t
          end;
      if negb (IsPermanent n) then Ret (t <| t_ttl := push (expiry t) p (t_ttl t) |>) else Ret t
  end.

(** The state is valid JSON of a store. *)
Definition Recovery (state : jstore) (s : store) : run store :=
  root ← nodeAt (s_Root s) (s_tree s);
  let nodes := decodeRoot (js_Root state) (s_Root s) root (t_nodes (s_tree s)) in
  let hub := s_WatcherHub s in
  let q := eh_Queue (wh_EventHistory hub) in
  let jh := js_EventHistory state in
  let '(nodes, events, es) := decodeEvents (jh_Events jh) (q_Events q) (wh_events hub) nodes in
  let eh := mkHistory (mkQueue es (jh_Size jh) (jh_Front jh) (jh_Back jh) (jh_Capacity jh))
              (jh_StartIndex jh) (jh_LastIndex jh) in
  let t := mkTree nodes newTtlKeyHeap in
  t ← recoverAndclean (levels t) (s_Root s) t;
  Ret (mkStore (s_Root s) (hub <| wh_EventHistory := eh |> <| wh_events := events |>)
         (js_CurrentIndex state) (js_Stats state) (js_CurrentVersion state) t).
End recovery.
