(* ===== verification/StoreSaved.v ===== *)
(** * StoreSaved: what is saved is recovered (src/store/store.go, node.go)

    A saved state describes a tree, and so does a part of the memory of the nodes; both are
    read as a function from names to what is known of the node under them.  Clone and the
    decoder build such trees in memory that was not used before, marshalNode reads them,
    and recoverAndclean adds the pointers to the parents and the heap of expiring nodes. *)

From stdpp Require Import pretty sorting.
From Stdlib Require Import String Ascii.
From S2P Require Import Prelude Wire.
From S2P Require Import Paths Utf8 TtlHeap EtcdError Stats StoreEvent StoreNode StoreTree StoreRemove.
From S2P Require Import WatcherHub HubProps HubNotify Store StoreWalk StoreCreate StoreProps StoreSave.

(** ** Reading trees *)

(** What is known of a node, but its ACL, which is never set, and its parent. *)
Record info := mkInfo {
  i_Path : string;
  i_CreatedIndex : Z;
  i_ModifiedIndex : Z;
  i_ExpireTime : Z;
  i_Value : string;
  i_dir : bool;
}.
Definition ninfo (n : node) : info :=
  mkInfo (n_Path n) (n_CreatedIndex n) (n_ModifiedIndex n) (n_ExpireTime n) (n_Value n) (IsDir n).
Definition jinfo (j : jnode) : info :=
  mkInfo (jn_Path j) (jn_CreatedIndex j) (jn_ModifiedIndex j) (jn_ExpireTime j) (jn_Value j)
    (match jn_Children j with Some _ => true | None => false end).

Abbreviation reading := (list string → option info).

Definition follow (nodes : gmap ptr node) (p : ptr) : reading := λ k,
  q ← resolve nodes p k; ninfo <$> nodes !! q.

(** The member [x] of an object: the last one of that name. *)
Fixpoint member (x : string) (l : list (string * jnode)) : option jnode :=
  match l with
  | [] => None
  | (y, j) :: l =>
      match member x l with
      | Some c => Some c
      | None => if decide (x = y) then Some j else None
      end
  end.

Fixpoint jget (j : jnode) (k : list string) : option jnode :=
  match k with
  | [] => Some j
  | x :: k => l ← jn_Children j; c ← member x l; jget c k
  end.
Definition jfollow (j : jnode) : reading := λ k, jinfo <$> jget j k.

(** The reading of a node from the ones of its children. *)
Definition below (i : info) (gs : string → option reading) : reading := λ k,
  match k with [] => Some i | x :: k => g ← gs x; g k end.

Lemma follow_below nodes p n :
  nodes !! p = Some n →
  ∀ k, follow nodes p k = below (ninfo n) (λ x, c ← n_Children n; follow nodes <$> c !! x) k.
Proof.
  intros Hp [|x k]; unfold follow, below; simpl; rewrite Hp; [done|]. simpl.
  destruct (n_Children n) as [c|]; simpl; [|done]. by destruct (c !! x).
Qed.

Lemma jfollow_below j k :
  jfollow j k = below (jinfo j) (λ x, l ← jn_Children j; jfollow <$> member x l) k.
Proof.
  destruct k as [|x k]; [done|]. unfold jfollow, below. simpl. destruct (jn_Children j) as [l|]; simpl; [|done].
  by destruct (member x l).
Qed.

Lemma resolve_agree nodes nodes' p :
  (∀ k q, resolve nodes p k = Some q → nodes' !! q = nodes !! q) →
  ∀ k, resolve nodes' p k = resolve nodes p k.
Proof.
  intros Ha k. revert p Ha. induction k as [|x k IH]; intros p Ha; [done|]. simpl.
  rewrite (Ha [] p eq_refl). destruct (nodes !! p) as [n|] eqn:Hn; simpl; [|done].
  destruct (n_Children n) as [c|] eqn:Hc; simpl; [|done]. destruct (c !! x) as [q|] eqn:Hx; simpl; [|done].
  apply IH. intros k' r Hr. apply (Ha (x :: k') r). simpl. rewrite Hn. simpl. rewrite Hc. simpl. by rewrite Hx.
Qed.

(** ** A tree in memory that was not in use *)

(** The tree at [q] in [nodes] reads as [g], and none of its nodes is in [base]. *)
Record grown (base nodes : gmap ptr node) (q : ptr) (g : reading) : Prop := {
  gr_reads : ∀ k, follow nodes q k = g k;
  gr_new : ∀ k r, resolve nodes q k = Some r → base !! r = None ∧ is_Some (nodes !! r);
}.

Lemma grown_ext base nodes q g g' : (∀ k, g k = g' k) → grown base nodes q g → grown base nodes q g'.
Proof. intros E [Hr Hn]. split; [|done]. intros k. by rewrite Hr. Qed.

(** Memory that changes elsewhere, and what was in use before. *)
Lemma grown_stable base nodes nodes' q g :
  (∀ r, base !! r = None → is_Some (nodes !! r) → nodes' !! r = nodes !! r) →
  grown base nodes q g → grown base nodes' q g.
Proof.
  intros Ha [Hr Hn].
  assert (∀ k, resolve nodes' q k = resolve nodes q k) as Hres.
  { apply resolve_agree. intros k r Hk. destruct (Hn k r Hk) as [??]. by apply Ha. }
  split.
  - intros k. rewrite <-Hr. unfold follow. rewrite Hres. destruct (resolve nodes q k) as [r|] eqn:Hk; [|done].
    simpl. destruct (Hn k r Hk). by rewrite Ha.
  - intros k r. rewrite Hres. intros Hk. destruct (Hn k r Hk). by rewrite Ha.
Qed.

Lemma grown_base base base' nodes q g :
  dom base ⊆ dom base' → grown base' nodes q g → grown base nodes q g.
Proof.
  intros Hd [Hr Hn]. split; [done|]. intros k r Hk. destruct (Hn k r Hk) as [Hb Hs]. split; [|done].
  apply not_elem_of_dom. intros Hin%Hd. by apply not_elem_of_dom in Hb.
Qed.

(** The children of a node. *)
Definition kids (base nodes : gmap ptr node) (c : gmap string ptr) (gs : string → option reading) : Prop :=
  ∀ x, match c !! x, gs x with
       | Some q, Some g => grown base nodes q g
       | None, None => True
       | _, _ => False
       end.

Lemma kids_stable base nodes nodes' c gs :
  (∀ r, base !! r = None → is_Some (nodes !! r) → nodes' !! r = nodes !! r) →
  kids base nodes c gs → kids base nodes' c gs.
Proof.
  intros Ha Hk x. specialize (Hk x). destruct (c !! x), (gs x); try done. by eapply grown_stable.
Qed.

Lemma kids_base base base' nodes c gs :
  dom base ⊆ dom base' → kids base' nodes c gs → kids base nodes c gs.
Proof.
  intros Hd Hk x. specialize (Hk x). destruct (c !! x), (gs x); try done. by eapply grown_base.
Qed.

Lemma grown_leaf base nodes q n :
  nodes !! q = Some n → base !! q = None → n_Children n = None →
  grown base nodes q (below (ninfo n) (λ _, None)).
Proof.
  intros Hq Hb Hc. split.
  - intros k. rewrite (follow_below nodes q n) by done. unfold below. by rewrite Hc.
  - intros [|x k] r; simpl; [|rewrite Hq; simpl; by rewrite Hc]. intros [= <-]. split; [done|by eexists].
Qed.

Lemma grown_dir base nodes q n c gs :
  nodes !! q = Some n → base !! q = None → n_Children n = Some c → kids base nodes c gs →
  grown base nodes q (below (ninfo n) gs).
Proof.
  intros Hq Hb Hc Hk. split.
  - intros k. rewrite (follow_below nodes q n) by done. unfold below. rewrite Hc. simpl.
    destruct k as [|x k]; [done|]. specialize (Hk x). destruct (c !! x), (gs x); try done. apply Hk.
  - intros [|x k] r; simpl.
    + intros [= <-]. split; [done|by eexists].
    + rewrite Hq. simpl. rewrite Hc. simpl. specialize (Hk x). destruct (c !! x), (gs x); try done. apply Hk.
Qed.

(** A memory with more nodes. *)
Lemma kids_subseteq base nodes nodes' c gs :
  nodes ⊆ nodes' → kids base nodes c gs → kids base nodes' c gs.
Proof.
  intros Hs. apply kids_stable. intros r _ [n Hn]. rewrite Hn. by eapply lookup_weaken.
Qed.

(** ** Clone *)

(** What a clone keeps: not the index of the last change. *)
Definition cloned (i : info) : info :=
  mkInfo (i_Path i) (i_CreatedIndex i) (i_CreatedIndex i) (i_ExpireTime i)
    (if i_dir i then EmptyString else i_Value i) (i_dir i).

(** A tree with fewer levels than [fuel], all of whose nodes are there. *)
Record bounded (nodes : gmap ptr node) (p : ptr) (fuel : nat) : Prop := {
  bd_node : ∀ k q, resolve nodes p k = Some q → is_Some (nodes !! q);
  bd_fuel : ∀ k, is_Some (resolve nodes p k) → (length k < fuel)%nat;
}.

Lemma bounded_child nodes p n c x q fuel :
  bounded nodes p (S fuel) → nodes !! p = Some n → n_Children n = Some c → c !! x = Some q →
  bounded nodes q fuel.
Proof.
  intros [Hn Hf] Hp Hc Hx.
  assert (∀ k, resolve nodes p (x :: k) = resolve nodes q k) as E.
  { intros k. simpl. rewrite Hp. simpl. rewrite Hc. simpl. by rewrite Hx. }
  split.
  - intros k r Hk. apply (Hn (x :: k)). by rewrite E.
  - intros k Hk. specialize (Hf (x :: k)). rewrite E in Hf. specialize (Hf Hk). simpl in Hf. lia.
Qed.

Section clone.
Context `{ChildRange} (old : gmap ptr node).

(** The result of a Clone of [p]. *)
Definition clones (p : ptr) (t t' : tree) (q : ptr) : Prop :=
  t_nodes t ⊆ t_nodes t' ∧ t_ttl t' = t_ttl t ∧
  grown (t_nodes t) (t_nodes t') q (λ k, cloned <$> follow old p k).

Definition cloneStep (fuel : nat) (clone : ptr) : string * ptr → tree → run tree := λ '(key, child) t,
  '(t, q) ← Clone fuel child t;
  cn ← nodeAt clone t;
  let cs := default ∅ (n_Children cn) in
  Ret (t <| t_nodes ::= <[clone := cn <| n_Children := Some (<[key := q]> cs) |>]> |>).

(** The loop over the children [l], in a memory that has grown from [base] and where
    [clone] is the new node with the children [cs]. *)
Lemma cloneLoop_ok fuel base clone l t n cs gs :
  (∀ key child t, (key, child) ∈ l → old ⊆ t_nodes t →
    ∃ t' q, Clone fuel child t = Ret (t', q) ∧ clones child t t' q) →
  old ⊆ base → base !! clone = None → base ⊆ t_nodes t → NoDup l.*1 →
  t_nodes t !! clone = Some (n <| n_Children := Some cs |>) →
  kids (<[clone := n]> base) (t_nodes t) cs gs → (∀ x, x ∈ l.*1 → gs x = None) →
  ∃ t' cs', forEach (cloneStep fuel clone) l t = Ret t' ∧ base ⊆ t_nodes t' ∧ t_ttl t' = t_ttl t ∧
    t_nodes t' !! clone = Some (n <| n_Children := Some cs' |>) ∧
    kids (<[clone := n]> base) (t_nodes t') cs'
      (λ x, match (list_to_map l : gmap string ptr) !! x with
            | Some p => Some (λ k, cloned <$> follow old p k)
            | None => gs x
            end).
Proof.
  intros IH Hold Hclone. revert t cs gs. induction l as [|[key child] l IHl]; intros t cs gs Hb Hnd Hn Hk Hnew.
  { by exists t, cs. }
  rewrite fmap_cons in *. apply NoDup_cons in Hnd as [Hkey Hnd]. cbn [fst] in *.
  destruct (IH key child t) as (t1 & q & E1 & Hsub & Httl & Hg); [by left|by trans base|].
  assert (t_nodes t1 !! clone = Some (n <| n_Children := Some cs |>)) as Hn1 by by eapply lookup_weaken.
  set (t2 := t1 <| t_nodes ::= <[clone := n <| n_Children := Some (<[key := q]> cs) |>]> |>).
  assert (∀ r, <[clone := n]> base !! r = None → t_nodes t2 !! r = t_nodes t1 !! r) as Hagree.
  { intros r. rewrite lookup_insert_None. intros [_ Hr]. simpl. by rewrite lookup_insert_ne. }
  destruct (IHl (λ key child t Hin, IH key child t ltac:(by right)) t2 (<[key := q]> cs)
    (λ x, if decide (x = key) then Some (λ k, cloned <$> follow old child k) else gs x))
    as (t' & cs' & E' & Hb' & Httl' & Hn' & Hk').
  - apply insert_subseteq_r; [done|]. by trans (t_nodes t).
  - done.
  - simpl. by rewrite lookup_insert_eq.
  - intros x. rewrite lookup_insert. destruct (decide (key = x)) as [->|Hne].
    + rewrite decide_True by done. apply (grown_stable _ (t_nodes t1)); [intros r Hr _; by apply Hagree|].
      eapply grown_base; [|exact Hg]. rewrite dom_insert. intros r [->%elem_of_singleton|Hr]%elem_of_union.
      * apply elem_of_dom. by eexists.
      * by apply (subseteq_dom base).
    + rewrite decide_False by done. specialize (Hk x). destruct (cs !! x), (gs x); try done.
      apply (grown_stable _ (t_nodes t)); [|done]. intros r Hr [m Hm]. rewrite Hagree by done.
      rewrite Hm. by eapply lookup_weaken.
  - intros x Hx. rewrite decide_False by (intros ->; done). apply Hnew. by right.
  - exists t', cs'. assert (cloneStep fuel clone (key, child) t = Ret t2) as Est.
    { unfold cloneStep. rewrite E1. cbn [mbind run_bind]. unfold nodeAt. by rewrite Hn1. }
    cbn [forEach]. rewrite Est. cbn [mbind run_bind].
    split_and!; [exact E'|done|by rewrite Httl'|done|]. intros x. specialize (Hk' x).
    rewrite list_to_map_cons, lookup_insert. destruct (decide (key = x)) as [->|Hne].
    + rewrite not_elem_of_list_to_map_1, decide_True in Hk' by done. exact Hk'.
    + cbn beta in Hk'. rewrite (decide_False (P := x = key)) in Hk' by done. exact Hk'.
Qed.

Lemma Clone_ok fuel p t :
  old ⊆ t_nodes t → bounded old p fuel → ∃ t' q, Clone fuel p t = Ret (t', q) ∧ clones p t t' q.
Proof.
  revert p t. induction fuel as [|fuel IH]; intros p t Hold Hb.
  { pose proof (bd_fuel _ _ _ Hb [] (ex_intro _ p eq_refl)). simpl in *. lia. }
  destruct (bd_node _ _ _ Hb [] p eq_refl) as [n Hn]. cbn [Clone]. unfold nodeAt.
  rewrite (lookup_weaken _ _ _ _ Hn Hold). cbn [deref lift mbind run_bind].
  pose proof (is_fresh (dom (t_nodes t))) as Hf. apply not_elem_of_dom in Hf.
  destruct (n_Children n) as [c|] eqn:Hc.
  - unfold alloc. cbn beta iota. set (q := fresh _) in *.
    set (n' := newDir _ _ _ _ _). set (t1 := t <| t_nodes ::= <[q := n']> |>).
    destruct (cloneLoop_ok fuel (t_nodes t) q (children c) t1 n' ∅ (λ _, None))
      as (t' & cs & E & Hb' & Httl & Hq & Hk).
    + intros key child t0 Hin Hs. apply IH; [done|]. rewrite children_perm in Hin.
      apply elem_of_map_to_list in Hin. by eapply bounded_child.
    + done.
    + done.
    + by apply insert_subseteq.
    + rewrite children_perm. apply NoDup_fst_map_to_list.
    + simpl. by rewrite lookup_insert_eq.
    + intros x. by rewrite lookup_empty.
    + done.
    + exists t', q. change (forEach _ (children c) _) with (forEach (cloneStep fuel q) (children c) t1).
      rewrite E. split; [done|]. split_and!; [done|done|].
      assert (list_to_map (children c) = c) as Hl.
      { rewrite (list_to_map_proper (children c) (map_to_list c)); [apply list_to_map_to_list| |apply children_perm].
        rewrite children_perm. apply NoDup_fst_map_to_list. }
      rewrite Hl in Hk. eapply grown_ext; [|eapply grown_dir; [exact Hq|done|done|]].
      2: { eapply kids_base; [|exact Hk]. rewrite dom_insert. set_solver. }
      intros k. rewrite (follow_below old p n) by done. destruct k as [|x k]; simpl.
      * unfold ninfo, IsDir. rewrite Hc. done.
      * rewrite Hc. simpl. by destruct (c !! x).
  - unfold alloc. set (q := fresh _) in *. eexists _, q. split; [done|].
    split_and!; [by apply insert_subseteq|done|]. set (n' := newKV _ _ _ _ _ _).
    apply (grown_ext _ _ _ (below (ninfo n') (λ _, None))).
    + intros k. rewrite (follow_below old p n) by done. unfold below. rewrite Hc. simpl.
      destruct k; [|done]. unfold ninfo, IsDir. by rewrite Hc.
    + apply grown_leaf; [|done|done]. simpl. by rewrite lookup_insert_eq.
Qed.
End clone.

(** ** Marshal *)
Lemma traverse_ok {A B} (P : A → B → Prop) (f : A → run B) l :
  (∀ a, a ∈ l → ∃ b, f a = Ret b ∧ P a b) → ∃ bs, traverse f l = Ret bs ∧ Forall2 P l bs.
Proof.
  induction l as [|a l IH]; intros Hf; [by exists []|].
  destruct (Hf a) as (b & Eb & Hb); [by left|].
  destruct IH as (bs & Ebs & Hbs); [intros a' Ha'; apply Hf; by right|].
  exists (b :: bs). cbn [traverse]. rewrite Eb. cbn [mbind run_bind]. rewrite Ebs. split; [done|by constructor].
Qed.

(** What JSON keeps of a node. *)
Definition coercedInfo (i : info) : info :=
  mkInfo (coerce (i_Path i)) (i_CreatedIndex i) (i_ModifiedIndex i) (i_ExpireTime i)
    (coerce (i_Value i)) (i_dir i).

(** No other name next to the ones of [k] is written as they are. *)
Definition alone {A} (g : list string → option A) (k : list string) : Prop :=
  ∀ j x y, (j ++ [x]) `prefix_of` k → is_Some (g (j ++ [y])) → coerce y = x ↔ y = x.

(** [f] is what JSON makes of [g]: every node comes from one of [g], and nodes that are alone
    are kept. *)
Record told (f g : reading) : Prop := {
  td_sound : ∀ k' i', f k' = Some i' → ∃ k i, k' = coerce <$> k ∧ g k = Some i ∧ i' = coercedInfo i;
  td_alone : ∀ k, alone g k → f k = coercedInfo <$> g k;
}.

Lemma told_ext f g g' : (∀ k, g k = g' k) → told f g → told f g'.
Proof.
  intros E [H1 H2]. split.
  - intros k' i' Hk'. destruct (H1 k' i' Hk') as (k & i & ? & Hk & ?). exists k, i. by rewrite <-E.
  - intros k Ha. rewrite <-E. apply H2. intros j x y. rewrite E. apply Ha.
Qed.

Lemma told_same f f' g : (∀ k, f k = f' k) → told f' g → told f g.
Proof.
  intros E [H1 H2]. split; [intros k' i'; rewrite E; apply H1|]. intros k Hk. rewrite E. by apply H2.
Qed.

Lemma member_In x l j : member x l = Some j → (x, j) ∈ l.
Proof.
  induction l as [|[y c] l IH]; cbn [member]; [done|]. rewrite elem_of_cons.
  destruct (member x l); [intros [= ->]; auto|]. case_decide; [intros [= ->]; subst; auto|done].
Qed.

Lemma In_member x l j : (x, j) ∈ l → is_Some (member x l).
Proof.
  induction l as [|[y c] l IH]; cbn [member]; [by intros ?%elem_of_nil|]. rewrite elem_of_cons.
  intros [[= <- <-]|Hin]; [|destruct (IH Hin) as [c' ->]; by eexists].
  destruct (member x l); [by eexists|]. rewrite decide_True by done. by eexists.
Qed.

(** A member of an object describes a child. *)
Definition describes (nodes : gmap ptr node) (a : string * ptr) (b : string * jnode) : Prop :=
  b.1 = coerce a.1 ∧ told (jfollow b.2) (follow nodes a.2).

Lemma sortedMembers_elem c x q : (x, q) ∈ sortedMembers c ↔ c !! x = Some q.
Proof. unfold sortedMembers. rewrite merge_sort_Permutation. apply elem_of_map_to_list. Qed.

(** The member [x] describes a child whose name is written so, and there is one when there is
    such a child. *)
Lemma describes_member nodes c l :
  Forall2 (describes nodes) (sortedMembers c) l →
  (∀ x j, member x l = Some j → ∃ y q, c !! y = Some q ∧ x = coerce y ∧ told (jfollow j) (follow nodes q)) ∧
  ∀ y, is_Some (c !! y) → is_Some (member (coerce y) l).
Proof.
  intros HF. split.
  - intros x j Hj%member_In. apply list_elem_of_lookup in Hj as [i Hi].
    destruct (Forall2_lookup_r _ _ _ _ _ HF Hi) as ([y q] & Hq & Hx & Ht). simpl in *.
    exists y, q. split_and!; [|done..]. by apply sortedMembers_elem, list_elem_of_lookup_2 with i.
  - intros y [q Hq]. apply sortedMembers_elem, list_elem_of_lookup in Hq as [i Hi].
    destruct (Forall2_lookup_l _ _ _ _ _ HF Hi) as ([x j] & Hj & Hx & _). simpl in *. subst x.
    by eapply In_member, list_elem_of_lookup_2.
Qed.

Lemma told_dir i gs l (c : gmap string ptr) nodes :
  Forall2 (describes nodes) (sortedMembers c) l → (∀ x q, c !! x = Some q → is_Some (nodes !! q)) →
  (∀ x, gs x = follow nodes <$> c !! x) →
  told (below (coercedInfo i) (λ x, jfollow <$> member x l)) (below i gs).
Proof.
  intros HF Hn Hgs. destruct (describes_member nodes c l HF) as [Hm Hin]. split.
  - intros [|x k'] j; simpl; [intros [= <-]; by exists [], i|]. intros Hj.
    destruct (member x l) as [jc|] eqn:Ex; [|done]. simpl in Hj.
    destruct (Hm x jc Ex) as (y & q & Hy & -> & [Hs _]). destruct (Hs k' j Hj) as (k & ik & -> & Hk & ->).
    exists (y :: k), ik. split_and!; [done| |done]. simpl. by rewrite Hgs, Hy.
  - intros [|x k] Ha; [done|]. simpl. rewrite Hgs.
    assert (∀ y, is_Some (c !! y) → coerce y = x ↔ y = x) as Hx.
    { intros y [q Hy]. apply (Ha [] x y); [by exists k|]. simpl. rewrite Hgs, Hy. simpl.
      destruct (Hn y q Hy) as [m Hq]. unfold follow. simpl. rewrite Hq. by eexists. }
    destruct (member x l) as [jc|] eqn:Ex.
    + destruct (Hm x jc Ex) as (y & q & Hy & E & [_ Hk]). symmetry in E. apply Hx in E as ->; [|by eexists].
      rewrite Hy. simpl. apply Hk. intros j x' y' Hp Hy'. apply (Ha (x :: j)); [by apply prefix_cons|].
      simpl. by rewrite Hgs, Hy.
    + destruct (c !! x) as [q|] eqn:Hc; [|done]. assert (is_Some (c !! x)) as Hs by by eexists.
      apply Hin in Hs as Hj. apply (Hx x) in Hs. rewrite (proj2 Hs eq_refl), Ex in Hj. by destruct Hj.
Qed.

Lemma marshalNode_ok fuel p t :
  bounded (t_nodes t) p fuel →
  ∃ j, marshalNode fuel p t = Ret j ∧ told (jfollow j) (follow (t_nodes t) p).
Proof.
  revert p. induction fuel as [|fuel IH]; intros p Hb.
  { pose proof (bd_fuel _ _ _ Hb [] (ex_intro _ p eq_refl)). simpl in *. lia. }
  destruct (bd_node _ _ _ Hb [] p eq_refl) as [n Hn]. cbn [marshalNode]. unfold nodeAt. rewrite Hn.
  cbn [deref lift mbind run_bind]. destruct (n_Children n) as [c|] eqn:Hc.
  - destruct (traverse_ok (describes (t_nodes t)) (λ '(key, q), j ← marshalNode fuel q t; Ret (coerce key, j))
      (sortedMembers c)) as (l & E & HF).
    { intros [x q] Hq%sortedMembers_elem.
      destruct (IH q) as (j & Ej & Hj); [by eapply bounded_child|]. exists (coerce x, j). rewrite Ej. by split. }
    rewrite E. cbn [mbind run_bind]. eexists. split; [done|].
    eapply told_ext; [intros k; symmetry; by apply follow_below|].
    eapply told_same; [apply jfollow_below|]. rewrite Hc.
    assert (ninfo n = mkInfo (n_Path n) (n_CreatedIndex n) (n_ModifiedIndex n) (n_ExpireTime n) (n_Value n) true)
      as -> by (unfold ninfo, IsDir; by rewrite Hc).
    refine (told_dir (mkInfo (n_Path n) (n_CreatedIndex n) (n_ModifiedIndex n) (n_ExpireTime n) (n_Value n) true)
      (λ x, follow (t_nodes t) <$> c !! x) l c (t_nodes t) HF _ (λ x, eq_refl)).
    intros x q Hx. by apply (bd_node _ _ _ (bounded_child _ _ _ _ _ _ _ Hb Hn Hc Hx) []).
  - eexists. split; [done|]. eapply told_ext; [intros k; symmetry; by apply follow_below|].
    eapply told_same; [apply jfollow_below|]. rewrite Hc. cbn [jn_Children mbind option_bind].
    assert (ninfo n = mkInfo (n_Path n) (n_CreatedIndex n) (n_ModifiedIndex n) (n_ExpireTime n) (n_Value n) false)
      as -> by (unfold ninfo, IsDir; by rewrite Hc).
    split; [|by intros [|x k]]. intros [|x k] i'; [|done]. intros [= <-]. by exists [], (mkInfo (n_Path n)
      (n_CreatedIndex n) (n_ModifiedIndex n) (n_ExpireTime n) (n_Value n) false).
Qed.

(** ** Unmarshal *)
Lemma jnode_rect' (P : jnode → Prop) :
  (∀ j, (∀ l, jn_Children j = Some l → Forall (λ m, P m.2) l) → P j) → ∀ j, P j.
Proof.
  intros HP. fix IH 1. intros j. apply HP. destruct j as [? ? ? ? ? ? [l|]]; simpl; [|done].
  intros l' [= <-]. induction l as [|[x c] l IHl]; constructor; [apply IH|exact IHl].
Qed.

(** The code of decodeNode with decodeMembers for its inner loop. *)
Lemma decodeNode_members j nodes :
  decodeNode j nodes =
  let '(nodes, cs) :=
    match jn_Children j with
    | None => (nodes, None)
    | Some l => let '(nodes, c) := decodeMembers l nodes ∅ in (nodes, Some c)
    end in
  let p := fresh (dom nodes) in
  (<[p := mkNode (jn_Path j) (jn_CreatedIndex j) (jn_ModifiedIndex j) None (jn_ExpireTime j)
            (jn_ACL j) (jn_Value j) cs]> nodes, p).
Proof.
  destruct j as [path cr mo ex acl v [l|]]; [|done]. cbn [decodeNode jn_Children].
  match goal with |- context [?f l nodes ∅] => assert (∀ l nodes c, f l nodes c = decodeMembers l nodes c) as -> end.
  - clear. induction l as [|[key j] l IH]; intros nodes c; [done|]. simpl. destruct (decodeNode j nodes). apply IH.
  - done.
Qed.

(** A node that was decoded. *)
Definition decodes (j : jnode) : Prop := ∀ nodes,
  let '(nodes', q) := decodeNode j nodes in nodes ⊆ nodes' ∧ grown nodes nodes' q (jfollow j).

Lemma decodeMembers_ok base l nodes c gs :
  Forall (λ m, decodes m.2) l → dom base ⊆ dom nodes → kids base nodes c gs →
  let '(nodes', c') := decodeMembers l nodes c in
  nodes ⊆ nodes' ∧
  kids base nodes' c' (λ x, match member x l with Some j => Some (jfollow j) | None => gs x end).
Proof.
  revert nodes c gs. induction l as [|[key j] l IH]; intros nodes c gs HF Hb Hk; [done|].
  apply Forall_cons in HF as [Hj HF].
  cbn [fst snd] in *. cbn [decodeMembers]. specialize (Hj nodes). destruct (decodeNode j nodes) as [nodes1 q].
  destruct Hj as [Hsub Hg].
  specialize (IH nodes1 (<[key := q]> c) (λ x, if decide (x = key) then Some (jfollow j) else gs x) HF).
  destruct (decodeMembers l nodes1 (<[key := q]> c)) as [nodes2 c2].
  destruct IH as [Hsub2 Hk2].
  - trans (dom nodes); [done|]. by apply subseteq_dom.
  - intros x. rewrite lookup_insert. destruct (decide (key = x)) as [->|Hne].
    + rewrite decide_True by done. by eapply grown_base.
    + rewrite decide_False by done. by apply (kids_subseteq base nodes nodes1).
  - split; [by trans nodes1|]. intros x. specialize (Hk2 x). cbn beta in Hk2. cbn [member].
    destruct (member x l); [exact Hk2|]. by case_decide.
Qed.

Lemma decodeNode_ok j : decodes j.
Proof.
  induction j as [j IH] using jnode_rect'. intros nodes. rewrite decodeNode_members.
  destruct (jn_Children j) as [l|] eqn:Hl.
  - pose proof (decodeMembers_ok nodes l nodes ∅ (λ _, None)) as Hm.
    destruct (decodeMembers l nodes ∅) as [nodes1 c]. destruct Hm as [Hsub Hk].
    { by apply IH. }
    { done. }
    { intros x. by rewrite lookup_empty. }
    pose proof (is_fresh (dom nodes1)) as Hf. apply not_elem_of_dom in Hf. set (q := fresh _) in *.
    assert (nodes !! q = None) as Hq by by eapply lookup_weaken_None.
    split; [trans nodes1; [done|by apply insert_subseteq]|].
    eapply grown_ext; [|eapply grown_dir; [apply lookup_insert_eq|done|done|]].
    2: { eapply kids_subseteq; [by apply insert_subseteq|exact Hk]. }
    intros k. rewrite jfollow_below. destruct k as [|x k]; simpl; [by unfold jinfo; rewrite Hl|].
    rewrite Hl. simpl. by destruct (member x l).
  - pose proof (is_fresh (dom nodes)) as Hf. apply not_elem_of_dom in Hf. set (q := fresh _) in *.
    split; [by apply insert_subseteq|].
    eapply grown_ext; [|apply grown_leaf; [apply lookup_insert_eq|done|done]].
    intros k. rewrite jfollow_below. destruct k as [|x k]; simpl; [by unfold jinfo; rewrite Hl|]. by rewrite Hl.
Qed.

(** ** The events *)
Lemma jextern_rect' (P : jextern → Prop) :
  (∀ j, Forall P (je_nodes j) → P j) → ∀ j, P j.
Proof.
  intros HP. fix IH 1. intros j. apply HP. destruct j as [? ? ? ? ? l ? ?]; simpl.
  induction l as [|c l IHl]; constructor; [apply IH|exact IHl].
Qed.

(** The inner loop of decodeExtern. *)
Fixpoint decodeExterns (js : list jextern) (olds : list NodeExtern) (nodes : gmap ptr node)
  : gmap ptr node * list NodeExtern :=
  match js with
  | [] => (nodes, [])
  | j :: js =>
      let '(nodes, e) := decodeExtern j (default zeroExtern (head olds)) nodes in
      let '(nodes, es) := decodeExterns js (tail olds) nodes in (nodes, e :: es)
  end.

Lemma decodeExtern_elems j old nodes :
  decodeExtern j old nodes =
  let '(nodes, exp) := decodeExpiration (je_expiration j) (ne_Expiration old) nodes in
  let '(nodes, es) :=
    match je_nodes j with
    | [] => (nodes, ne_Nodes old)
    | js => decodeExterns js (ne_Nodes old) nodes
    end in
  (nodes, mkNodeExtern
     (if bool_decide (je_key j = EmptyString) then ne_Key old else je_key j)
     (match je_value j with None => ne_Value old | v => v end)
     (je_dir j || ne_Dir old) exp
     (if je_ttl j =? 0 then ne_TTL old else je_ttl j) es
     (if je_modifiedIndex j =? 0 then ne_ModifiedIndex old else je_modifiedIndex j)
     (if je_createdIndex j =? 0 then ne_CreatedIndex old else je_createdIndex j)).
Proof.
  destruct j as [key v dir ex ttl js mo cr]. cbn [decodeExtern je_nodes je_expiration].
  destruct (decodeExpiration ex (ne_Expiration old) nodes) as [nodes1 exp]. destruct js as [|j js]; [done|].
  cbn [decodeExterns]. destruct (decodeExtern j _ nodes1) as [nodes2 e].
  match goal with |- context [?f js (tail (ne_Nodes old)) nodes2] =>
    assert (∀ l olds nodes, f l olds nodes = decodeExterns l olds nodes) as ->; [|done] end.
  clear. induction l as [|j l IH]; intros olds nodes; [done|]. cbn [decodeExterns].
  destruct (decodeExtern j _ nodes) as [n e]. by rewrite IH.
Qed.

(** Decoding over nothing only adds nodes. *)
Lemma decodeExtern_new j nodes :
  nodes ⊆ (decodeExtern j zeroExtern nodes).1 ∧
  ne_ModifiedIndex (decodeExtern j zeroExtern nodes).2 = je_modifiedIndex j.
Proof.
  revert nodes. induction j as [j IH] using jextern_rect'. intros nodes. rewrite decodeExtern_elems.
  cbn [ne_Expiration ne_Nodes ne_ModifiedIndex zeroExtern].
  assert (nodes ⊆ (decodeExpiration (je_expiration j) None nodes).1) as H1.
  { destruct (je_expiration j); simpl; [|done]. apply insert_subseteq, not_elem_of_dom, is_fresh. }
  destruct (decodeExpiration _ None nodes) as [nodes1 exp]. simpl in H1.
  assert (∀ l nodes, Forall (λ j, ∀ nodes, nodes ⊆ (decodeExtern j zeroExtern nodes).1 ∧
    ne_ModifiedIndex (decodeExtern j zeroExtern nodes).2 = je_modifiedIndex j) l →
    nodes ⊆ (decodeExterns l [] nodes).1) as Helems.
  { clear. induction l as [|j l IHl]; intros nodes HF; [done|]. apply Forall_cons in HF as [Hj HF].
    cbn [decodeExterns head default tail]. destruct (Hj nodes) as [Hn _].
    change (default zeroExtern None) with zeroExtern.
    destruct (decodeExtern j zeroExtern nodes) as [n1 e]. simpl in Hn. specialize (IHl n1 HF).
    destruct (decodeExterns l [] n1) as [n2 es]. simpl in *. by trans n1. }
  specialize (Helems _ nodes1 IH). destruct (je_nodes j) as [|j' js].
  - simpl. split; [done|]. by destruct (_ =? 0) eqn:E; to_prop.
  - destruct (decodeExterns (j' :: js) [] nodes1) as [n2 es]. simpl in *. split; [by trans nodes1|].
    by destruct (_ =? 0) eqn:E; to_prop.
Qed.

Lemma decodeEvent_new j nodes :
  nodes ⊆ (decodeEvent j zeroEvent nodes).1 ∧
  Index (decodeEvent j zeroEvent nodes).2 = je_modifiedIndex (jv_node j).
Proof.
  unfold decodeEvent. cbn [e_Node e_PrevNode zeroEvent e_EtcdIndex].
  destruct (decodeExtern_new (jv_node j) nodes) as [H1 H2].
  destruct (decodeExtern (jv_node j) zeroExtern nodes) as [n1 e1]. simpl in *.
  destruct (jv_prevNode j) as [jp|]; [|done]. change (default zeroExtern None) with zeroExtern.
  destruct (decodeExtern_new jp n1) as [H3 _]. destruct (decodeExtern jp zeroExtern n1) as [n2 e2].
  simpl in *. split; [by trans n1|done].
Qed.

(** An event of the state is in memory, with its index. *)
Definition event_at (events : gmap ptr Event) (j : option jevent) (o : option ptr) : Prop :=
  match j, o with
  | Some j, Some p => ∃ e, events !! p = Some e ∧ Index e = je_modifiedIndex (jv_node j)
  | None, None => True
  | _, _ => False
  end.

Lemma decodeEvents_new js olds events nodes :
  Forall (λ o, o = None) olds →
  let '(nodes', events', es) := decodeEvents js olds events nodes in
  nodes ⊆ nodes' ∧ events ⊆ events' ∧ Forall2 (event_at events') js es.
Proof.
  revert olds events nodes. induction js as [|j js IH]; intros olds events nodes Holds; [done|].
  cbn [decodeEvents]. assert (default None (head olds) = None ∧ Forall (λ o, o = None) (tail olds)) as [-> Htail].
  { destruct Holds as [|? ? -> ?]; by split. }
  destruct j as [j|].
  - set (p := newPtr events). assert (events !! p = None) as Hp by apply newPtr_fresh.
    rewrite Hp. change (default zeroEvent None) with zeroEvent.
    destruct (decodeEvent_new j nodes) as [H1 H2]. destruct (decodeEvent j zeroEvent nodes) as [n1 e].
    simpl in H1, H2. specialize (IH (tail olds) (<[p := e]> events) n1 Htail).
    destruct (decodeEvents js (tail olds) (<[p := e]> events) n1) as [[n2 ev2] es].
    destruct IH as (H3 & H4 & H5). split_and!; [by trans n1| |].
    + trans (<[p := e]> events); [by apply insert_subseteq|done].
    + constructor; [|done]. exists e. split; [|done]. eapply lookup_weaken; [|done]. apply lookup_insert_eq.
  - specialize (IH (tail olds) events nodes Htail).
    destruct (decodeEvents js (tail olds) events nodes) as [[n2 ev2] es].
    destruct IH as (H3 & H4 & H5). split_and!; [done|done|]. by constructor.
Qed.

(** The history that a saved history is decoded to. *)
Lemma history_saved t events events' eh es l :
  history_ok events eh l →
  Forall2 (event_at events') (jh_Events (marshalHistory t events eh)) es →
  let q := eh_Queue eh in
  ∃ l', length l' = length l ∧
    history_ok events' (mkHistory (mkQueue es (q_Size q) (q_Front q) (q_Back q) (q_Capacity q))
      (eh_StartIndex eh) (eh_LastIndex eh)) l'.
Proof.
  intros [[Hlen Hsize Hfits Hfront Hback Helems] Hchain Hstart Hlast Hbounds] HF q.
  set (pos k := Z.to_nat ((q_Front q + Z.of_nat k) mod q_Capacity q)).
  assert (∀ k p, l !! k = Some p → ∃ p' e', es !! pos k = Some (Some p') ∧ events' !! p' = Some e' ∧
    Index e' = eh_StartIndex eh + Z.of_nat k) as Hpos.
  { intros k p Hk. destruct (Hchain k p Hk) as (e & He & Hi).
    assert (jh_Events (marshalHistory t events eh) !! pos k = Some (Some (marshalEvent t e))) as Hj.
    { simpl. rewrite list_lookup_fmap. unfold pos, q. rewrite (Helems k p Hk). simpl. by rewrite He. }
    destruct (Forall2_lookup_l _ _ _ _ _ HF Hj) as ([p'|] & Ho & Hev); [|done].
    destruct Hev as (e' & He' & Hi'). exists p', e'. split_and!; [done..|]. rewrite Hi'.
    rewrite <-Hi. by destruct e as [? [] ? ?]. }
  exists ((λ k, default xH (default None (es !! pos k))) <$> seq 0 (length l)).
  assert (∀ k p', ((λ k, default xH (default None (es !! pos k))) <$> seq 0 (length l)) !! k = Some p' →
    ∃ p, l !! k = Some p ∧ p' = default xH (default None (es !! pos k))) as Hl'.
  { intros k p'. rewrite list_lookup_fmap, fmap_Some. intros (k' & Hk & ->).
    apply lookup_seq in Hk as [-> Hlt]. destruct (lookup_lt_is_Some_2 l k Hlt) as [p Hp]. eauto. }
  split; [by rewrite length_fmap, length_seq|].
  assert (len ((λ k, default xH (default None (es !! pos k))) <$> seq 0 (length l)) = len l) as Hll
    by (unfold len; by rewrite length_fmap, length_seq).
  split; cbn [eh_Queue eh_StartIndex eh_LastIndex q_Capacity]; [|..|done].
  - split; cbn [q_Events q_Size q_Front q_Back q_Capacity]; rewrite ?Hll; try done.
    + apply Forall2_length in HF. simpl in HF. rewrite length_fmap in HF. unfold len in *. by rewrite <-HF.
    + intros k p' Hk. apply Hl' in Hk as (p & Hp & ->). destruct (Hpos k p Hp) as (p' & e' & Ho & _).
      fold q (pos k). by rewrite Ho.
  - intros k p' Hk. apply Hl' in Hk as (p & Hp & ->). destruct (Hpos k p Hp) as (p' & e' & Ho & He & Hi).
    rewrite Ho. simpl. eauto.
  - done.
  - rewrite Hll. destruct Hlast as [(-> & ? & ?)|[Hne ?]]; [by left|right].
    split; [|done]. by destruct l.
Qed.

(** ** recoverAndclean *)
Definition noParent (n : node) : node := n <| n_Parent := None |>.

(** The nodes are the same but for the pointers to their parents. *)
Definition same_nodes (nodes nodes' : gmap ptr node) : Prop :=
  ∀ r, noParent <$> nodes' !! r = noParent <$> nodes !! r.

#[local] Instance same_nodes_equiv : Equivalence same_nodes.
Proof. split; [by intros x r|by intros x y H r|intros x y z H1 H2 r; by rewrite H2, H1]. Qed.

Lemma same_at nodes nodes' r n :
  same_nodes nodes nodes' → nodes !! r = Some n → ∃ n', nodes' !! r = Some n' ∧ noParent n' = noParent n.
Proof. intros H Hr. specialize (H r). rewrite Hr in H. by apply fmap_Some in H as (n' & ? & ?); eauto. Qed.

Lemma noParent_fields n n' :
  noParent n' = noParent n → n_Path n' = n_Path n ∧ n_Children n' = n_Children n ∧
    n_ExpireTime n' = n_ExpireTime n ∧ entryOf n' = entryOf n.
Proof. destruct n, n'. unfold noParent, entryOf, IsDir. simpl. intros [=]. by subst. Qed.

Lemma same_resolve nodes nodes' p k :
  same_nodes nodes nodes' → resolve nodes' p k = resolve nodes p k.
Proof.
  intros H. apply resolve_ext. intros q. specialize (H q).
  destruct (nodes' !! q) as [n'|], (nodes !! q) as [n|]; try done. apply (inj Some) in H.
  by destruct (noParent_fields n n' H) as (_ & ? & _).
Qed.

Lemma same_expire nodes nodes' r : same_nodes nodes nodes' → expireOf nodes' r = expireOf nodes r.
Proof.
  intros H. specialize (H r). unfold expireOf.
  destruct (nodes' !! r) as [n'|], (nodes !! r) as [n|]; try done. apply (inj Some) in H.
  by destruct (noParent_fields n n' H) as (_ & _ & ? & _).
Qed.

Lemma same_bounded nodes nodes' p fuel :
  same_nodes nodes nodes' → bounded nodes p fuel → bounded nodes' p fuel.
Proof.
  intros H [Hn Hf]. split; intros k; [intros q|]; rewrite (same_resolve nodes) by done; [|auto].
  intros [n Hq]%Hn. destruct (same_at _ _ _ _ H Hq) as (n' & -> & _). by eexists.
Qed.

(** The nodes below [p] carry the paths under which they are found, below [names]. *)
Definition placed (nodes : gmap ptr node) (p : ptr) (names : list string) : Prop :=
  ∀ k r n, resolve nodes p k = Some r → nodes !! r = Some n →
    n_Path n = pathOf (names ++ k) ∧ Forall name_ok (names ++ k).

Lemma same_placed nodes nodes' p names :
  same_nodes nodes nodes' → placed nodes p names → placed nodes' p names.
Proof.
  intros H Hp k r n'. rewrite (same_resolve nodes) by done. intros Hk Hr. symmetry in H.
  destruct (same_at _ _ _ _ H Hr) as (n & Hn & E). destruct (noParent_fields _ _ E) as (<- & _). eauto.
Qed.

Lemma placed_inj nodes p q names names' k k' r n :
  placed nodes p names → placed nodes q names' → nodes !! r = Some n →
  resolve nodes p k = Some r → resolve nodes q k' = Some r → names ++ k = names' ++ k'.
Proof.
  intros Hp Hq Hr Hk Hk'. destruct (Hp k r n Hk Hr) as [E1 O1], (Hq k' r n Hk' Hr) as [E2 O2].
  apply pathOf_inj; congruence.
Qed.

(** Of the nodes that [D] names, the parents are set and the expiring ones are in the heap. *)
Record recovered (t t' : tree) (top : ptr → Prop) (D : ptr → Prop) : Prop := {
  rc_same : same_nodes (t_nodes t) (t_nodes t');
  rc_out : ∀ r, ¬ D r ∨ top r → t_nodes t' !! r = t_nodes t !! r;
  rc_parent : ∀ p n c x q, D p → t_nodes t !! p = Some n → n_Children n = Some c → c !! x = Some q →
    n_Parent <$> t_nodes t' !! q = Some (Some p);
  rc_heap : heap_ok (expiry t') (t_ttl t');
  rc_ttl : ∀ r, r ∈ h_array (t_ttl t') ↔ r ∈ h_array (t_ttl t) ∨ expiry t r ≠ 0 ∧ D r;
}.

Definition reach (nodes : gmap ptr node) (p r : ptr) : Prop := ∃ k, resolve nodes p k = Some r.
Definition reachAny (nodes : gmap ptr node) (l : list (string * ptr)) (r : ptr) : Prop :=
  ∃ x q, (x, q) ∈ l ∧ reach nodes q r.

Lemma same_reach nodes nodes' p r : same_nodes nodes nodes' → reach nodes' p r ↔ reach nodes p r.
Proof. intros H. unfold reach. by setoid_rewrite (same_resolve nodes nodes'). Qed.

Lemma same_reachAny nodes nodes' l r :
  same_nodes nodes nodes' → reachAny nodes' l r ↔ reachAny nodes l r.
Proof. intros H. unfold reachAny. by setoid_rewrite (same_reach nodes nodes'). Qed.

Lemma reachAny_cons nodes x q l r : reachAny nodes ((x, q) :: l) r ↔ reach nodes q r ∨ reachAny nodes l r.
Proof.
  unfold reachAny. setoid_rewrite elem_of_cons. split.
  - intros (y & q' & [[= -> ->]|Hin] & Hr); eauto.
  - intros [Hr|(y & q' & Hin & Hr)]; eauto 10.
Qed.

Lemma reach_child nodes p d n c x q :
  reach nodes p d → nodes !! d = Some n → n_Children n = Some c → c !! x = Some q → reach nodes p q.
Proof. intros [k Hk] Hn Hc Hx. exists (k ++ [x]). apply resolve_snoc. eauto 10. Qed.

(** The trees of two children have no node in common. *)
Lemma reach_disjoint nodes names fuel x q l r :
  bounded nodes q fuel → placed nodes q (names ++ [x]) → x ∉ l.*1 →
  (∀ y q', (y, q') ∈ l → placed nodes q' (names ++ [y])) → reach nodes q r → ¬ reachAny nodes l r.
Proof.
  intros Hb Hp Hx Hl [k Hk] (y & q' & Hin & k' & Hk'). destruct (bd_node _ _ _ Hb k r Hk) as [n Hn].
  pose proof (placed_inj _ _ _ _ _ _ _ _ _ Hp (Hl y q' Hin) Hn Hk Hk') as E.
  rewrite <-!app_assoc in E. apply app_inv_head in E. injection E as ->. apply Hx.
  apply list_elem_of_fmap. by exists (y, q').
Qed.

Section recover.
Context `{ChildRange}.

Definition recoverStep (fuel : nat) (p child : ptr) (t : tree) : run tree :=
  cn ← nodeAt child t;
  recoverAndclean fuel child (t <| t_nodes ::= <[child := cn <| n_Parent := Some p |>]> |>).

Definition recovers (fuel : nat) : Prop := ∀ q names t,
  bounded (t_nodes t) q fuel → placed (t_nodes t) q names → heap_ok (expiry t) (t_ttl t) →
  (∀ r, reach (t_nodes t) q r → r ∉ h_array (t_ttl t)) →
  ∃ t', recoverAndclean fuel q t = Ret t' ∧ recovered t t' (eq q) (reach (t_nodes t) q).

Lemma recoverStep_ok fuel p names q t :
  recovers fuel → bounded (t_nodes t) q fuel → placed (t_nodes t) q names →
  heap_ok (expiry t) (t_ttl t) → (∀ r, reach (t_nodes t) q r → r ∉ h_array (t_ttl t)) →
  ∃ t', recoverStep fuel p q t = Ret t' ∧ recovered t t' (λ _, False) (reach (t_nodes t) q) ∧
    n_Parent <$> t_nodes t' !! q = Some (Some p).
Proof.
  intros IH Hb Hp Hh Hnew. destruct (bd_node _ _ _ Hb [] q eq_refl) as [n Hn].
  set (t1 := t <| t_nodes ::= <[q := n <| n_Parent := Some p |>]> |>).
  assert (same_nodes (t_nodes t) (t_nodes t1)) as Hs.
  { intros r. simpl. rewrite lookup_insert. case_decide; [|done]. subst. by rewrite Hn. }
  destruct (IH q names t1) as (t2 & E & [Rs Ro Rp Rh Rt]).
  { by eapply same_bounded. }
  { by eapply same_placed. }
  { eapply heap_ok_ext; [|exact Hh]. intros r. symmetry. by apply same_expire. }
  { intros r. rewrite (same_reach _ _ _ _ Hs). apply Hnew. }
  exists t2. split; [unfold recoverStep, nodeAt; by rewrite Hn|]. split; [split|].
  - by trans (t_nodes t1).
  - intros r [Hr|[]]. rewrite Ro; [|left; by rewrite (same_reach _ _ _ _ Hs)]. simpl.
    rewrite lookup_insert_ne; [done|]. intros <-. apply Hr. by exists [].
  - intros d dn c x r Hd Hdn Hc Hx. destruct (same_at _ _ _ _ Hs Hdn) as (dn' & Hdn' & E').
    apply (Rp d dn' c x r); [by rewrite (same_reach _ _ _ _ Hs)|done| |done].
    by destruct (noParent_fields _ _ E') as (_ & -> & _).
  - done.
  - intros r. rewrite Rt, (same_expire _ _ _ Hs), (same_reach _ _ _ _ Hs). done.
  - rewrite Ro by by right. simpl. by rewrite lookup_insert_eq.
Qed.

Lemma recoverLoop_ok fuel p names l t :
  recovers fuel → NoDup l.*1 →
  (∀ x q, (x, q) ∈ l → bounded (t_nodes t) q fuel ∧ placed (t_nodes t) q (names ++ [x])) →
  heap_ok (expiry t) (t_ttl t) → (∀ r, reachAny (t_nodes t) l r → r ∉ h_array (t_ttl t)) →
  ∃ t', forEach (recoverStep fuel p) l.*2 t = Ret t' ∧
    recovered t t' (λ _, False) (reachAny (t_nodes t) l) ∧
    ∀ x q, (x, q) ∈ l → n_Parent <$> t_nodes t' !! q = Some (Some p).
Proof.
  intros IH. revert t. induction l as [|[x q] l IHl]; intros t Hnd Hl Hh Hnew.
  { assert (∀ r, ¬ reachAny (t_nodes t) [] r) as Hno by (intros r (? & ? & Hin & _); by apply elem_of_nil in Hin).
    exists t. split; [done|]. split; [split|]; [done|done| |done| |].
    - intros d ???? Hd. by apply Hno in Hd.
    - intros r. split; [by left|]. intros [|[_ Hr]]; [done|]. by apply Hno in Hr.
    - intros ?? Hin. by apply elem_of_nil in Hin. }
  rewrite !fmap_cons in *. apply NoDup_cons in Hnd as [Hx Hnd]. cbn [fst snd] in *.
  destruct (Hl x q) as [Hb Hp]; [by left|].
  destruct (recoverStep_ok fuel p (names ++ [x]) q t IH Hb Hp Hh) as (t1 & E1 & [Rs Ro Rp Rh Rt] & Hpar).
  { intros r Hr. apply Hnew, reachAny_cons. by left. }
  assert (∀ r, reach (t_nodes t) q r → ¬ reachAny (t_nodes t) l r) as Hdis.
  { intros r. eapply reach_disjoint; [done..|]. intros y q' Hin. apply Hl. by right. }
  destruct (IHl t1 Hnd) as (t2 & E2 & [Ss So Sp Sh St] & Hpars).
  { intros y q' Hin. destruct (Hl y q') as [??]; [by right|].
    split; [by eapply same_bounded|by eapply same_placed]. }
  { done. }
  { intros r Hr. rewrite (same_reachAny _ _ _ _ Rs) in Hr. rewrite Rt. intros [Hin|[_ Hq]].
    - apply (Hnew r); [|done]. apply reachAny_cons. by right.
    - by apply (Hdis r). }
  assert (∀ r, reach (t_nodes t) q r → t_nodes t2 !! r = t_nodes t1 !! r) as Hkeep.
  { intros r Hr. apply So. left. rewrite (same_reachAny _ _ _ _ Rs). auto. }
  exists t2. cbn [forEach]. rewrite E1. cbn [mbind run_bind]. split; [done|]. split; [split|].
  - by trans (t_nodes t1).
  - intros r [Hr|[]]. rewrite reachAny_cons in Hr. rewrite So; [|left; rewrite (same_reachAny _ _ _ _ Rs); tauto].
    apply Ro. tauto.
  - intros d dn c y r Hd Hdn Hc Hy. apply reachAny_cons in Hd as [Hd|Hd].
    + rewrite Hkeep by by eapply reach_child. by eapply Rp.
    + destruct (same_at _ _ _ _ Rs Hdn) as (dn' & Hdn' & E').
      apply (Sp d dn' c y r); [by rewrite (same_reachAny _ _ _ _ Rs)|done| |done].
      by destruct (noParent_fields _ _ E') as (_ & -> & _).
  - done.
  - intros r. rewrite St, Rt, (same_expire _ _ _ Rs), (same_reachAny _ _ _ _ Rs), reachAny_cons. tauto.
  - intros y q' [[= -> ->]|Hin]%elem_of_cons; [|by eapply Hpars]. rewrite Hkeep; [done|by exists []].
Qed.

Lemma reach_cases nodes p n r :
  nodes !! p = Some n →
  reach nodes p r ↔ r = p ∨ ∃ c, n_Children n = Some c ∧ reachAny nodes (children c) r.
Proof.
  intros Hn. unfold reachAny. setoid_rewrite children_perm. setoid_rewrite elem_of_map_to_list. split.
  - intros [[|x k] Hk]; simpl in Hk; [left; congruence|right]. rewrite Hn in Hk. simpl in Hk.
    destruct (n_Children n) as [c|]; [|done]. simpl in Hk. destruct (c !! x) as [q|] eqn:Hx; [|done].
    exists c. split; [done|]. exists x, q. split; [done|]. by exists k.
  - intros [->|(c & Hc & x & q & Hx & k & Hk)]; [by exists []|]. exists (x :: k). simpl.
    rewrite Hn. simpl. rewrite Hc. simpl. by rewrite Hx.
Qed.

Lemma placed_child nodes p names n c x q :
  placed nodes p names → nodes !! p = Some n → n_Children n = Some c → c !! x = Some q →
  placed nodes q (names ++ [x]).
Proof.
  intros Hp Hn Hc Hx k r m Hk Hm. rewrite <-app_assoc. apply (Hp (x :: k) r m); [|done].
  simpl. rewrite Hn. simpl. rewrite Hc. simpl. by rewrite Hx.
Qed.

(** The end of recoverAndclean, once the nodes below [p] are done. *)
Lemma recovered_push t t1 p n D :
  recovered t t1 (λ _, False) D → t_nodes t !! p = Some n → ¬ D p → p ∉ h_array (t_ttl t) →
  (∀ c x q, n_Children n = Some c → c !! x = Some q → n_Parent <$> t_nodes t1 !! q = Some (Some p)) →
  ∃ t', (if negb (IsPermanent n) then Ret (t1 <| t_ttl := push (expiry t1) p (t_ttl t1) |>) else Ret t1) = Ret t' ∧
    recovered t t' (eq p) (λ r, r = p ∨ D r).
Proof.
  intros [Rs Ro Rp Rh Rt] Hn HD Hp Hpar. unfold IsPermanent.
  assert (expiry t p = n_ExpireTime n) as Hexp by (unfold expireOf; by rewrite Hn).
  assert (∀ r, (¬ (r = p ∨ D r)) ∨ p = r → t_nodes t1 !! r = t_nodes t !! r) as Ro'.
  { intros r [Hr| <-]; apply Ro; tauto. }
  assert (∀ d dn c x q, d = p ∨ D d → t_nodes t !! d = Some dn → n_Children dn = Some c → c !! x = Some q →
    n_Parent <$> t_nodes t1 !! q = Some (Some d)) as Rp'.
  { intros d dn c x q [->|Hd] Hdn Hc Hx; [|by eapply Rp]. rewrite Hn in Hdn. injection Hdn as <-. by eapply Hpar. }
  destruct (n_ExpireTime n =? 0) eqn:Hz; to_prop; cbn [negb].
  - exists t1. split; [done|]. split; [done..|]. intros r. rewrite Rt. split; [tauto|].
    intros [?|[Hr [->|?]]]; [by left|lia|by right].
  - destruct (push_ok (expiry t1) p (t_ttl t1) Rh) as [Hh Hperm]; [rewrite Rt; tauto|].
    eexists. split; [done|]. split; [done..|]. intros r. simpl. rewrite Hperm, elem_of_cons, Rt. split; [|tauto].
    intros [->|[?|[??]]]; [right; split; [lia|by left]|by left|by right; split; [|right]].
Qed.

Lemma recoverAndclean_S fuel p t n :
  t_nodes t !! p = Some n →
  recoverAndclean (S fuel) p t =
  t1 ← match n_Children n with
       | None => Ret t
       | Some c => forEach (recoverStep fuel p) (children c).*2 t
       end;
  if negb (IsPermanent n) then Ret (t1 <| t_ttl := push (expiry t1) p (t_ttl t1) |>) else Ret t1.
Proof.
  intros Hn. cbn [recoverAndclean]. assert (nodeAt p t = Ret n) as -> by (unfold nodeAt; by rewrite Hn). done.
Qed.

Lemma recover_ok fuel : recovers fuel.
Proof.
  induction fuel as [|fuel IH]; intros p names t Hb Hp Hh Hnew.
  { pose proof (bd_fuel _ _ _ Hb [] (ex_intro _ p eq_refl)). simpl in *. lia. }
  destruct (bd_node _ _ _ Hb [] p eq_refl) as [n Hn]. rewrite (recoverAndclean_S fuel p t n Hn).
  pose proof (λ r, reach_cases (t_nodes t) p n r Hn) as Hcases.
  assert (p ∉ h_array (t_ttl t)) as Hpnew by (apply Hnew; by exists []).
  assert (∃ t1 D, match n_Children n with None => Ret t | Some c => forEach (recoverStep fuel p) (children c).*2 t end = Ret t1 ∧
    recovered t t1 (λ _, False) D ∧ (∀ r, reach (t_nodes t) p r ↔ r = p ∨ D r) ∧ ¬ D p ∧
    (∀ c x q, n_Children n = Some c → c !! x = Some q → n_Parent <$> t_nodes t1 !! q = Some (Some p)))
    as (t1 & D & E & HR & HD & HDp & Hpar).
  - destruct (n_Children n) as [c|] eqn:Hc.
    + destruct (recoverLoop_ok fuel p names (children c) t IH) as (t1 & E & HR & Hpar).
      * rewrite children_perm. apply NoDup_fst_map_to_list.
      * intros x q. rewrite children_perm, elem_of_map_to_list. intros Hx.
        split; [by eapply bounded_child|by eapply placed_child].
      * done.
      * intros r Hr. apply Hnew, Hcases. eauto.
      * exists t1, (reachAny (t_nodes t) (children c)). split_and!; [done|done| | |].
        -- intros r. rewrite Hcases. split; [|by intros [->|?]; eauto]. intros [->|(c' & [= <-] & ?)]; auto.
        -- intros (x & q & Hin & k & Hk). rewrite children_perm, elem_of_map_to_list in Hin.
           pose proof (placed_inj _ _ _ _ _ _ [] _ _ (placed_child _ _ _ _ _ _ _ Hp Hn Hc Hin) Hp Hn Hk eq_refl) as E'.
           rewrite app_nil_r, <-app_assoc in E'. apply (f_equal length) in E'. rewrite length_app in E'. simpl in E'. lia.
        -- intros c' x q [= <-] Hx. apply (Hpar x). by rewrite children_perm, elem_of_map_to_list.
    + exists t, (λ _, False). split_and!; [done| | |tauto|done].
      * split; [done..| |done|]; [by intros|]. intros r. tauto.
      * intros r. rewrite Hcases. split; [|tauto]. intros [->|(c & ? & _)]; [by left|done].
  - destruct (recovered_push t t1 p n D HR Hn HDp Hpnew Hpar) as (t' & E' & HR').
    exists t'. split.
    + rewrite E. exact E'.
    + destruct HR' as [Rs Ro Rp Rh Rt]. split; try done; setoid_rewrite HD; done.
Qed.
End recover.
