(* ===== verification/StoreRecover.v ===== *)
(** * StoreRecover: Save and Recovery (src/store/store.go)

    A new store that recovers a saved state has the keys of the store that was saved, when
    they are UTF-8, and can be used as that store was; but a clone does not keep the index at
    which a key was last changed.  Every store that operations, watchers and restarts lead to
    is good, and every operation on it returns. *)

From stdpp Require Import pretty.
From Stdlib Require Import String Ascii.
From S2P Require Import Prelude Wire.
From S2P Require Import Paths Utf8 TtlHeap EtcdError Stats StoreEvent StoreNode StoreTree StoreRemove.
From S2P Require Import WatcherHub HubProps HubNotify Store StoreWalk StoreCreate StoreProps StoreSave.
From S2P Require Import StoreUpdate StoreDelete StoreExpire StoreGet StoreApi StoreTheorems StoreFindings StoreSaved.

(** The entry of a key, from what is known of its node. *)
Definition entryInfo (i : info) : entry :=
  mkEntry (if i_dir i then None else Some (i_Value i)) (i_CreatedIndex i) (i_ModifiedIndex i)
    (i_ExpireTime i).

(** What a saved key becomes. *)
Definition restored (en : entry) : entry :=
  mkEntry (v_value en) (v_created en) (v_created en) (v_expire en).

Lemma view_follow t root k : view t root k = entryInfo <$> follow (t_nodes t) root k.
Proof.
  unfold view, follow. destruct (resolve _ _ _) as [p|]; [|done]. simpl. by destruct (t_nodes t !! p).
Qed.

Lemma entry_cloned i : entryInfo (cloned i) = restored (entryInfo i).
Proof. destruct i as [? ? ? ? ? []]; done. Qed.

Lemma follow_Some nodes p k i :
  follow nodes p k = Some i → ∃ q n, resolve nodes p k = Some q ∧ nodes !! q = Some n ∧ i = ninfo n.
Proof.
  unfold follow. intros E. apply bind_Some in E as (q & Hq & E). apply fmap_Some in E as (n & Hn & ->). eauto.
Qed.

(** The tree of a store. *)
Lemma shape_bounded root t : shape_ok root (t_nodes t) → bounded (t_nodes t) root (levels t).
Proof.
  intros Hs. split.
  - intros k q Hq. destruct (shape_at root _ k q Hs Hq) as (_ & n & Hn & _). by eexists.
  - intros k Hk. apply (resolve_length root _ k Hs) in Hk. unfold levels. lia.
Qed.

(** ** Save *)
Section save.
Context `{ChildRange}.

Lemma Save_ok s :
  store_ok s →
  ∃ state t, Save s = Ret state ∧
    told (jfollow (js_Root state)) (λ k, cloned <$> follow (t_nodes (s_tree s)) (s_Root s) k) ∧
    js_CurrentIndex state = s_CurrentIndex s ∧
    js_EventHistory state = marshalHistory t (wh_events (s_WatcherHub s)) (wh_EventHistory (s_WatcherHub s)).
Proof.
  intros [[Hs _ _] _ _]. pose proof (shape_bounded _ _ Hs) as Hb.
  destruct (Clone_ok (t_nodes (s_tree s)) (levels (s_tree s)) (s_Root s) (s_tree s)) as (t & q & E & Hsub & _ & Hr & Hn);
    [done..|].
  destruct (marshalNode_ok (levels t) q t) as (j & Ej & Hj).
  { split; [intros k r Hk; by apply (Hn k)|]. intros k [r Hk]. destruct (Hn k r Hk) as [_ [n Hq]].
    specialize (Hr k). unfold follow at 1 in Hr. rewrite Hk in Hr. simpl in Hr. rewrite Hq in Hr. simpl in Hr.
    symmetry in Hr. apply fmap_Some in Hr as (i & Hi & _). apply follow_Some in Hi as (q0 & _ & Hq0 & _).
    assert (length k < levels (s_tree s))%nat by (apply Hb; by eexists).
    apply map_subseteq_size in Hsub. unfold levels in *. lia. }
  unfold Save. rewrite E. cbn [mbind run_bind]. rewrite Ej. eexists _, t. split; [done|]. split_and!; try done.
  by eapply told_ext.
Qed.
End save.

(** ** Recovery *)

(** The root, decoded into a directory without children. *)
Lemma decodeRoot_ok j root n0 nodes0 l :
  jn_Children j = Some l → nodes0 !! root = Some n0 → n_Children n0 = Some ∅ →
  let nodes := decodeRoot j root n0 nodes0 in
  grown ∅ nodes root (jfollow j) ∧ n_Parent <$> nodes !! root = Some (n_Parent n0).
Proof.
  intros Hl Hn0 Hc. unfold decodeRoot. rewrite Hl, Hc. simpl.
  pose proof (decodeMembers_ok nodes0 l nodes0 ∅ (λ _, None)) as Hm.
  destruct (decodeMembers l nodes0 ∅) as [nodes1 c]. destruct Hm as [Hsub Hk].
  { apply Forall_forall. intros [x m] _. apply decodeNode_ok. }
  { done. }
  { intros x. by rewrite lookup_empty. }
  split; [|by rewrite lookup_insert_eq].
  eapply grown_ext; [|eapply grown_dir; [apply lookup_insert_eq|apply lookup_empty|done|]].
  2: { eapply kids_base; [|eapply kids_stable; [|exact Hk]]; [rewrite dom_empty_L; set_solver|].
       intros r Hr _. rewrite lookup_insert_ne; [done|]. intros <-. by rewrite Hn0 in Hr. }
  intros k. rewrite jfollow_below. destruct k as [|x k]; simpl; [by unfold jinfo; rewrite Hl|].
  rewrite Hl. simpl. by destruct (member x l).
Qed.

(** A tree of which only the parents and the heap are missing. *)
Lemma recovered_tree `{ChildRange} root nodes g :
  grown ∅ nodes root g → (∀ k i, g k = Some i → i_Path i = pathOf k ∧ Forall name_ok k) →
  n_Parent <$> nodes !! root = Some None →
  (∃ i, g [] = Some i ∧ i_dir i = true ∧ i_ExpireTime i = 0) →
  let t := mkTree nodes newTtlKeyHeap in
  ∃ t', recoverAndclean (levels t) root t = Ret t' ∧ tree_ok root t' ∧
    ∀ k, view t' root k = entryInfo <$> g k.
Proof.
  intros [Hg Hnew] Hpath Hpar (i0 & Hi0 & Hdir & Hexp) t.
  assert (∀ k q, resolve nodes root k = Some q → ∃ n, nodes !! q = Some n ∧ g k = Some (ninfo n)) as Hat.
  { intros k q Hk. destruct (Hnew k q Hk) as [_ [n Hn]]. exists n. split; [done|].
    rewrite <-Hg. unfold follow. rewrite Hk. simpl. by rewrite Hn. }
  assert (placed nodes root []) as Hplaced.
  { intros k q n Hk Hn. destruct (Hat k q Hk) as (n' & Hn' & E). rewrite Hn in Hn'. injection Hn' as <-.
    by apply Hpath in E. }
  assert (bounded nodes root (levels t)) as Hb.
  { split; [intros k q Hk; by apply (Hnew k)|]. intros k Hk. unfold levels. simpl.
    enough (length k < size nodes)%nat by lia. apply (resolve_short nodes root); [|intros k1 k2 q H1 H2|done].
    - intros k' q Hk'. by apply (Hnew k').
    - destruct (Hat k1 q H1) as (n & Hn & _). exact (placed_inj nodes root root [] [] k1 k2 q n Hplaced Hplaced Hn H1 H2). }
  destruct (recover_ok (levels t) root [] t Hb Hplaced) as (t' & E & [Rs Ro Rp Rh Rt]).
  { apply new_heap_ok. }
  { intros r _. apply not_elem_of_nil. }
  assert (∀ k, resolve (t_nodes t') root k = resolve nodes root k) as Hres by (intros k; by apply same_resolve).
  exists t'. split; [done|]. split; [split; [split| |]|].
  - destruct (Hat [] root eq_refl) as (n & Hn & E0). rewrite Hn in Hpar. injection Hpar as Hpar.
    exists n. rewrite Ro by by right. rewrite Hi0 in E0. injection E0 as ->. split_and!; [done|done| | |done].
    + by apply (Hplaced [] root n).
    + unfold ninfo, IsDir in Hdir. simpl in Hdir. destruct (n_Children n); [by eexists|done].
  - intros names p n' c x q Hp Hn' Hc Hx. rewrite Hres in Hp.
    destruct (Hat names p Hp) as (n & Hn & _). destruct (same_at _ _ _ _ Rs Hn) as (n2 & Hn2 & E2).
    rewrite Hn' in Hn2. injection Hn2 as <-. destruct (noParent_fields _ _ E2) as (_ & Ec & _). rewrite Ec in Hc.
    assert (resolve nodes root (names ++ [x]) = Some q) as Hq by (apply resolve_snoc; eauto 10).
    destruct (Hat _ q Hq) as (m & Hm & _). destruct (Hplaced _ q m Hq Hm) as [Hpm Hok].
    apply Forall_app in Hok as [_ Hok]. apply Forall_app in Hok as [_ Hok]. split; [by apply Forall_singleton|].
    destruct (same_at _ _ _ _ Rs Hm) as (m' & Hm' & E'). exists m'. split; [done|].
    pose proof (Rp p n c x q (ex_intro _ names Hp) Hn Hc Hx) as Hparent. rewrite Hm' in Hparent.
    injection Hparent as Hparent. destruct (noParent_fields _ _ E') as (Ep & _). split; [done|]. by rewrite Ep.
  - done.
  - intros r. rewrite Rt, (same_expire _ _ _ Rs). unfold reach. setoid_rewrite Hres. split; [|tauto].
    intros [Hin|?]; [by apply elem_of_nil in Hin|done].
  - intros k. unfold view. rewrite Hres, <-Hg. unfold follow.
    destruct (resolve nodes root k) as [q|] eqn:Hk; [|done]. simpl.
    destruct (Hat k q Hk) as (n & Hn & _). destruct (same_at _ _ _ _ Rs Hn) as (n' & Hn' & E').
    rewrite Hn, Hn'. simpl. by destruct (noParent_fields _ _ E') as (_ & _ & _ & ->).
Qed.

(** What the saved tree is known to be. *)
Lemma saved_root s j :
  store_ok s → told (jfollow j) (λ k, cloned <$> follow (t_nodes (s_tree s)) (s_Root s) k) →
  (∀ k i, jfollow j k = Some i → i_Path i = pathOf k ∧ Forall name_ok k) ∧
  (∃ i, jfollow j [] = Some i ∧ i_dir i = true ∧ i_ExpireTime i = 0) ∧ ∃ l, jn_Children j = Some l.
Proof.
  intros Hok [Hsound Halone]. pose proof (tk_shape _ _ (so_tree _ Hok)) as Hs.
  destruct (sh_root _ _ Hs) as (rn & Hrn & _ & _ & [c Hc] & Hre).
  assert (∃ i, jfollow j [] = Some i ∧ i_dir i = true ∧ i_ExpireTime i = 0) as Hroot.
  { rewrite Halone by (intros jj x y Hp; by apply prefix_nil_inv, app_eq_nil in Hp as [_ ?]).
    unfold follow. simpl. rewrite Hrn. eexists. split; [done|]. split; [|done].
    unfold ninfo, IsDir. simpl. by rewrite Hc. }
  split_and!; [|done|].
  - intros k' i' Hi'. destruct (Hsound k' i' Hi') as (k & i & -> & Hi & ->).
    apply fmap_Some in Hi as (i0 & Hi0 & ->). apply follow_Some in Hi0 as (q & n & Hq & Hn & ->).
    destruct (shape_at _ _ k q Hs Hq) as (Hk & n' & Hn' & Hp & _). rewrite Hn in Hn'. injection Hn' as <-.
    split; [|by apply coerce_names]. simpl. by rewrite Hp, coerce_path.
  - destruct Hroot as (i & Hi & Hdir & _). unfold jfollow in Hi. simpl in Hi. apply (inj Some) in Hi as <-.
    unfold jinfo in Hdir. simpl in Hdir. destruct (jn_Children j); [by eexists|done].
Qed.

(** The hub after a recovery into a new store. *)
Lemma recovered_hub t cur h es events :
  hub_inv cur h →
  Forall2 (event_at events) (jh_Events (marshalHistory t (wh_events h) (wh_EventHistory h))) es →
  let jh := marshalHistory t (wh_events h) (wh_EventHistory h) in
  let eh := mkHistory (mkQueue es (jh_Size jh) (jh_Front jh) (jh_Back jh) (jh_Capacity jh))
              (jh_StartIndex jh) (jh_LastIndex jh) in
  hub_inv cur ((newWatchHub 1000) <| wh_EventHistory := eh |> <| wh_events := events |>).
Proof.
  intros [_ (l & Hh & Hlast)] HF jh eh. split; [by split; intros ??? |].
  destruct (history_saved t _ events _ es l Hh HF) as (l' & Hlen & Hh'). exists l'. split; [exact Hh'|].
  intros Hne. apply Hlast. intros ->. by destruct l'.
Qed.

(** What JSON keeps of a key. *)
Definition coercedEntry (en : entry) : entry :=
  mkEntry (coerce <$> v_value en) (v_created en) (v_modified en) (v_expire en).

Lemma entry_told i : entryInfo (coercedInfo (cloned i)) = coercedEntry (restored (entryInfo i)).
Proof. destruct i as [? ? ? ? ? []]; done. Qed.

(** The keys of a store, and those of one that has recovered its state. *)
Record recovers_to (s s' : store) : Prop := {
  rt_ok : store_ok s';
  rt_index : s_CurrentIndex s' = s_CurrentIndex s;
  rt_sound : ∀ k' en', keys s' k' = Some en' →
    ∃ k en, k' = coerce <$> k ∧ keys s k = Some en ∧ en' = coercedEntry (restored en);
  rt_alone : ∀ k, alone (keys s) k → keys s' k = coercedEntry ∘ restored <$> keys s k;
}.

Lemma recover_saved `{ChildRange} s :
  store_ok s →
  ∃ state s', Save s = Ret state ∧ Recovery state newStore = Ret s' ∧ recovers_to s s'.
Proof.
  intros Hok. destruct (Save_ok s Hok) as (state & t0 & E & Htold & Hidx & Hhist).
  destruct (saved_root s _ Hok Htold) as (Hpath & Hroot & l & Hl).
  exists state. unfold Recovery. set (s0 := newStore).
  assert (nodeAt (s_Root s0) (s_tree s0) = Ret (newDir "/" 0 None EmptyString Permanent)) as -> by done.
  cbn [mbind run_bind].
  destruct (decodeRoot_ok (js_Root state) (s_Root s0) (newDir "/" 0 None EmptyString Permanent)
    (t_nodes (s_tree s0)) l Hl eq_refl eq_refl) as [Hg Hpar].
  set (nodes := decodeRoot _ _ _ _) in *. rewrite Hhist.
  pose proof (decodeEvents_new (jh_Events (marshalHistory t0 (wh_events (s_WatcherHub s)) (wh_EventHistory (s_WatcherHub s))))
    (replicate 1000 None) ∅ nodes) as Hev.
  change (q_Events (eh_Queue (wh_EventHistory (s_WatcherHub s0)))) with (replicate 1000 (None : option ptr)).
  change (wh_events (s_WatcherHub s0)) with (∅ : gmap ptr Event).
  destruct (decodeEvents _ _ ∅ nodes) as [[nodes2 events] es].
  destruct Hev as (Hsub & _ & HF); [by apply Forall_replicate|].
  destruct (recovered_tree (s_Root s0) nodes2 (jfollow (js_Root state))) as (t & Et & Htree & Hview).
  { eapply grown_stable; [|exact Hg]. intros r _ [m Hm]. rewrite Hm. by eapply lookup_weaken. }
  { done. }
  { destruct (gr_new _ _ _ _ Hg [] _ eq_refl) as [_ [m Hm]]. rewrite Hm in Hpar.
    by rewrite (lookup_weaken _ _ _ _ Hm Hsub). }
  { done. }
  cbv zeta beta iota. rewrite Et. cbn [mbind run_bind]. eexists. split; [done|]. split; [done|].
  split; [split| |..]; unfold keys; cbn [s_CurrentIndex s_WatcherHub s_Root s_tree].
  - done.
  - rewrite Hidx. apply (recovered_hub t0); [apply Hok|done].
  - rewrite Hidx. apply Hok.
  - done.
  - intros k' en'. rewrite Hview. intros (i' & Hi' & ->)%fmap_Some.
    destruct (td_sound _ _ Htold k' i' Hi') as (k & i & -> & (i0 & Hi0 & ->)%fmap_Some & ->).
    exists k, (entryInfo i0). rewrite view_follow, Hi0. split_and!; [done..|]. apply entry_told.
  - intros k Ha. rewrite Hview, (td_alone _ _ Htold), view_follow.
    + destruct (follow _ _ k); [|done]. simpl. by rewrite entry_told.
    + intros j x y Hp. rewrite fmap_is_Some. intros Hy. apply (Ha j x y Hp).
      unfold keys. by rewrite view_follow, fmap_is_Some.
Qed.

(** The names and the values of the keys are UTF-8. *)
Definition utf8_keys (v : kmap) : Prop :=
  ∀ k en, v k = Some en → Forall Valid k ∧ ∀ w, v_value en = Some w → Valid w.

(** It is enough that the strings of the nodes are. *)
Definition utf8_node (n : node) : bool :=
  bool_decide (Valid (n_Value n)) &&
  bool_decide (Forall (λ a, Valid a.1) (map_to_list (default ∅ (n_Children n)))).

Lemma utf8_nodes s :
  Forall (λ a, utf8_node a.2 = true) (map_to_list (t_nodes (s_tree s))) → utf8_keys (keys s).
Proof.
  intros HF. assert (∀ p n, t_nodes (s_tree s) !! p = Some n → Valid (n_Value n) ∧
    ∀ c x q, n_Children n = Some c → c !! x = Some q → Valid x) as Hn.
  { intros p n Hp. rewrite Forall_forall in HF. apply elem_of_map_to_list, HF in Hp. simpl in Hp.
    apply andb_prop in Hp as [H1%bool_decide_eq_true H2%bool_decide_eq_true]. split; [done|].
    intros c x q Hc Hx. rewrite Hc in H2. rewrite Forall_forall in H2. by apply (H2 (x, q)), elem_of_map_to_list. }
  assert (∀ k p q, resolve (t_nodes (s_tree s)) p k = Some q → Forall Valid k) as Hk.
  { induction k as [|x k IH]; intros p q; [constructor|]. simpl.
    destruct (_ !! p) as [n|] eqn:Hp; simpl; [|done]. destruct (n_Children n) as [c|] eqn:Hc; simpl; [|done].
    destruct (c !! x) as [r|] eqn:Hx; simpl; [|done]. intros Hr. constructor; [|by eapply IH].
    by apply (proj2 (Hn p n Hp) c x r). }
  intros k en. unfold keys, view. destruct (resolve _ _ k) as [q|] eqn:Hq; simpl; [|done].
  destruct (_ !! q) as [n|] eqn:Hnq; simpl; [|done]. intros [= <-]. split; [by eapply Hk|].
  intros w. unfold entryOf. simpl. destruct (IsDir n); [done|]. intros [= <-]. by apply (Hn q n).
Qed.

Lemma alone_utf8 v k : utf8_keys v → alone v k.
Proof.
  intros Hv j x y _ [en Hy]. destruct (Hv _ _ Hy) as [Hk _]. apply Forall_app in Hk as [_ Hk].
  apply Forall_cons in Hk as [Hk _]. apply coerce_valid in Hk. by rewrite Hk.
Qed.

Lemma alone_plain (v : kmap) k : Forall plain k → alone v k.
Proof.
  intros Hk j x y [z ->] _. rewrite !Forall_app in Hk. destruct Hk as [[_ Hx] _].
  apply Forall_cons in Hx as [Hx _]. split; [by apply coerce_plain_inv|]. intros ->. by apply coerce_plain.
Qed.

Lemma coercedEntry_valid en : (∀ w, v_value en = Some w → Valid w) → coercedEntry en = en.
Proof.
  intros Hw. destruct en as [[w|] cr mo ex]; [|done]. unfold coercedEntry. simpl in *.
  by rewrite (proj1 (coerce_valid w) (Hw w eq_refl)).
Qed.

(** C8. A new store that recovers the saved state of a store has the same index, in memory that
    satisfies the invariant, so that every operation works on it.  When the names and values
    of the keys are valid UTF-8 it has the same keys, with the same values and expire times;
    only the index at which a key was last changed becomes the one at which it was created.
    Whatever the bytes are, each key of the new store is one of the old, with U+FFFD for each
    byte of its names and its value that is not UTF-8, and a key whose names are ASCII is
    there, with its value so changed. *)
Theorem save_recovers `{ChildRange} s :
  store_ok s →
  ∃ state s', Save s = Ret state ∧ Recovery state newStore = Ret s' ∧ store_ok s' ∧
    s_CurrentIndex s' = s_CurrentIndex s ∧
    (utf8_keys (keys s) → ∀ k, keys s' k = restored <$> keys s k) ∧
    (∀ k' en', keys s' k' = Some en' →
      ∃ k en, k' = coerce <$> k ∧ keys s k = Some en ∧ en' = coercedEntry (restored en)) ∧
    (∀ k, Forall plain k → keys s' k = coercedEntry ∘ restored <$> keys s k).
Proof.
  intros Hok. destruct (recover_saved s Hok) as (state & s' & E & R & [Ok' I' Hs Ha]).
  exists state, s'. split_and!; [done..| |done|].
  - intros Hu k. rewrite Ha by by apply alone_utf8. destruct (keys s k) as [en|] eqn:Hk; [|done]. simpl.
    f_equal. apply coercedEntry_valid. exact (proj2 (Hu k en Hk)).
  - intros k Hk. by apply Ha, alone_plain.
Qed.

(** ** Every store that can be reached *)
Section reachable.
Context `{ChildRange}.

(** The operations, the clients of the watchers, and a restart from a snapshot, which gives
    the saved state to a new store. *)
Inductive move : store → store → Prop :=
  | move_step s s' : step s s' → move s s'
  | move_restart s state s' : Save s = Ret state → Recovery state newStore = Ret s' → move s s'.

Lemma move_ok s s' : store_ok s → move s s' → store_ok s'.
Proof.
  intros Hok Hm. destruct Hm as [s s' Hst|s state s' E R]; [by eapply step_ok|].
  destruct (recover_saved s Hok) as (state' & s1 & E' & R' & Hto). rewrite E in E'. injection E' as <-.
  rewrite R in R'. injection R' as <-. apply Hto.
Qed.

(** C10. Every store that is reached from a new one, by operations at any times, by clients that
    receive from watchers and remove them, and by restarts from a saved state, satisfies the
    invariant, and nothing that is done with it panics or runs forever: the operations, Get,
    Watch, DeleteExpiredKeys, Save, and Recovery of what Save wrote into a new store return,
    and Remove of a watcher returns exactly when it is the first one (a second one panics, as
    it closes the channel again).  The index has room for the operation.  Recovery into a
    store that is in use is left out. *)
Theorem reachable_safe s :
  rtc move newStore s → store_ok s ∧
  (∀ now o, room s → ∃ s' r, runOp now o s = Ret (s', r)) ∧
  (∀ now nodePath recursive sorted, ∃ s' r, storeGet now nodePath recursive sorted s = Ret (s', r)) ∧
  (∀ key recursive stream sinceIndex, room s → 0 ≤ sinceIndex →
    ∃ s' r, storeWatch key recursive stream sinceIndex s = Ret (s', r)) ∧
  (∀ now cutoff, s_CurrentIndex s + Z.of_nat (Len (t_ttl (s_tree s))) < 2 ^ 64 →
    ∃ s', DeleteExpiredKeys now cutoff s = Ret s') ∧
  (∀ wp w, wh_all (s_WatcherHub s) !! wp = Some w →
    (∃ h, Remove wp (s_WatcherHub s) = Ok h) ↔ w_closed w = false) ∧
  ∃ state s', Save s = Ret state ∧ Recovery state newStore = Ret s'.
Proof.
  intros Hr. assert (store_ok s) as Hok.
  { pose proof newStore_ok as H0. induction Hr as [|x y z Hxy _ IH]; [done|]. by eapply IH, move_ok. }
  destruct (store_safe s Hok) as (H1 & H2 & H3 & H4).
  destruct (recover_saved s Hok) as (state & s' & E & R & _).
  split_and!; [done..| |by exists state, s']. intros wp w. apply Remove_returns.
Qed.
End reachable.

(** ** Examples *)
#[local] Existing Instance mapOrder.

Lemma store3_utf8 : utf8_keys (keys store3).
Proof. apply utf8_nodes. apply (bool_decide_unpack _). by vm_compute. Qed.

Lemma save_recovers_witness :
  ∃ state s', Save store3 = Ret state ∧ Recovery state newStore = Ret s' ∧ store_ok s' ∧
    s_CurrentIndex s' = 2 ∧ ∀ k, keys s' k = restored <$> keys store3 k.
Proof.
  destruct (save_recovers store3) as (state & s' & E & R & Ok' & I' & Hu & _); [apply store3_ok|].
  exists state, s'. split_and!; [done..|]. apply Hu, store3_utf8.
Defined.

Lemma reachable_safe_witness :
  rtc move newStore store3 ∧ store_ok store3 ∧
  (∀ now o, room store3 → ∃ s' r, runOp now o store3 = Ret (s', r)).
Proof.
  assert (rtc move newStore store3) as Hr.
  { eapply (rtc_subrel step); [intros x y; apply move_step|apply store3_reached]. }
  split; [exact Hr|]. split; [apply (reachable_safe store3 Hr)|apply (reachable_safe store3 Hr)].
Defined.

(** A byte that is not UTF-8, as in a PUT with value=%FF. *)
Definition badValue : string := String (Ascii.ascii_of_nat 255) EmptyString.
Definition badStore : store := finalStore (storeSet noon "/app/one" false badValue 0 newStore).

(** A value that is not UTF-8 does not survive a snapshot. *)
Theorem value_changed_by_snapshot :
  ∃ state s', Save badStore = Ret state ∧ Recovery state newStore = Ret s' ∧
    v_value <$> keys badStore ["app"; "one"] = Some (Some badValue) ∧
    v_value <$> keys s' ["app"; "one"] = Some (Some (RuneError EmptyString)).
Proof.
  eexists _, _. split; [vm_compute; reflexivity|]. split; [vm_compute; reflexivity|]. by vm_compute.
Qed.

(** A store that has seen a Set of one key, and one that has also seen its removal and a Set
    of another key. *)
Definition behind : store := store1.
Definition ahead : store :=
  let s := finalStore (storeDelete noon "/app" true true store1) in
  finalStore (storeSet noon "/new" false "2" 0 s).

(** A store that is behind and recovers the state of one that is ahead keeps the keys that
    were removed in between: the decoder adds to the map of the children of the root, and
    takes nothing away.  The two stores have the same index and different keys. *)
Theorem recovery_keeps_removed_keys :
  ∃ state s', Save ahead = Ret state ∧ Recovery state behind = Ret s' ∧
    s_CurrentIndex s' = s_CurrentIndex ahead ∧
    keys ahead ["app"; "one"] = None ∧ is_Some (keys s' ["app"; "one"]).
Proof.
  eexists _, _. split; [vm_compute; reflexivity|]. split; [vm_compute; reflexivity|].
  split_and!; [by vm_compute..|]. vm_compute. by eexists.
Qed.
