(* ===== verification/Wait.v ===== *)
(** * Wait: the list of the waiting requests (src/wait/wait.go)

    A request that was proposed waits on the channel that is registered for its id; the
    loop of the server triggers the id with the response.  The map is guarded by a mutex,
    but a trigger sends and closes after it has released it, so the steps of several
    triggers interleave.  The channels are in a memory of their own; a value is an
    interface, [None] for nil. *)

From S2P Require Import Prelude Wire.

Section wait.
Context {V : Type}.

(** A channel of capacity 1. *)
Record chan := mkChan {
  c_buf : list (option V);
  c_closed : bool;
}.

Record List := mkList {
  l_m : gmap Z positive;
  l_chans : gmap positive chan;
}.
Definition NewList : List := mkList ∅ ∅.

#[export] Instance set_l_m : Setter l_m := λ f w, mkList (f (l_m w)) (l_chans w).
#[export] Instance set_l_chans : Setter l_chans := λ f w, mkList (l_m w) (f (l_chans w)).

Definition Register (id : Z) (w : List) : List * positive :=
  match l_m w !! id with
  | Some ch => (w, ch)
  | None =>
      let ch := fresh (dom (l_chans w)) in
      (mkList (<[id := ch]> (l_m w)) (<[ch := mkChan [] false]> (l_chans w)), ch)
  end.

(** The part of Trigger that holds the mutex. *)
Definition triggerLocked (id : Z) (w : List) : List * option positive :=
  (w <| l_m := delete id (l_m w) |>, l_m w !! id).

(** [ch <- x]: on a full channel the send waits, here for ever. *)
Definition send (ch : positive) (x : option V) (w : List) : run List :=
  match l_chans w !! ch with
  | None => Loop  (** a nil channel *)
  | Some c =>
      if c_closed c then Crash "send on closed channel"
      else if (1 <=? length (c_buf c))%nat then Loop
      else Ret (w <| l_chans ::= <[ch := mkChan (c_buf c ++ [x]) false]> |>)
  end.

Definition closeChan (ch : positive) (w : List) : run List :=
  match l_chans w !! ch with
  | None => Crash "close of nil channel"
  | Some c =>
      if c_closed c then Crash "close of closed channel"
      else Ret (w <| l_chans ::= <[ch := mkChan (c_buf c) true]> |>)
  end.

Definition Trigger (id : Z) (x : option V) (w : List) : run List :=
  let '(w, ch) := triggerLocked id w in
  match ch with
  | None => Ret w
  | Some ch => w ← send ch x w; closeChan ch w
  end.

(** [<-ch], where there is something to receive: a value that was sent, or nil once the
    channel is closed. *)
Definition receiveFrom (ch : positive) (w : List) : option (option V * List) :=
  match l_chans w !! ch with
  | None => None
  | Some c =>
      match c_buf c with
      | x :: buf => Some (x, w <| l_chans ::= <[ch := mkChan buf (c_closed c)]> |>)
      | [] => if c_closed c then Some (None, w) else None
      end
  end.

(** ** The goroutines *)

(** A trigger that has released the mutex has still to send, or only to close. *)
Inductive stage := ToSend | ToClose.

Record sys := mkSys {
  y_list : List;
  y_triggers : list (positive * option V * stage);
  y_got : list (positive * option V);  (** what was received, from which channel *)
}.
Definition sys0 : sys := mkSys NewList [] [].

Inductive wstep : sys → sys → Prop :=
  | step_register id w ts got :
      wstep (mkSys w ts got) (mkSys (Register id w).1 ts got)
  | step_lock id x w ts got w' ch :
      triggerLocked id w = (w', Some ch) →
      wstep (mkSys w ts got) (mkSys w' ((ch, x, ToSend) :: ts) got)
  | step_lock_none id w ts got w' :
      triggerLocked id w = (w', None) → wstep (mkSys w ts got) (mkSys w' ts got)
  | step_send ch x w w' ts ts' got :
      send ch x w = Ret w' →
      wstep (mkSys w (ts ++ (ch, x, ToSend) :: ts') got) (mkSys w' (ts ++ (ch, x, ToClose) :: ts') got)
  | step_close ch x w w' ts ts' got :
      closeChan ch w = Ret w' →
      wstep (mkSys w (ts ++ (ch, x, ToClose) :: ts') got) (mkSys w' (ts ++ ts') got)
  | step_recv ch x w w' ts got :
      receiveFrom ch w = Some (x, w') →
      wstep (mkSys w ts got) (mkSys w' ts (got ++ [(ch, x)])).

(** What was received from a channel. *)
Definition gotFrom (ch : positive) (got : list (positive * option V)) : list (option V) :=
  (filter (λ p, p.1 = ch) got).*2.

Lemma gotFrom_snoc ch got ch' x :
  gotFrom ch (got ++ [(ch', x)]) = gotFrom ch got ++ (if decide (ch' = ch) then [x] else []).
Proof.
  unfold gotFrom. rewrite filter_app, fmap_app. f_equal. rewrite filter_cons. simpl. by case_decide.
Qed.

(** ** The invariant *)
Definition chansOf (ts : list (positive * option V * stage)) : list positive := (λ t, t.1.1) <$> ts.

(** Nothing was sent to the channel yet. *)
Definition idle (y : sys) (ch : positive) : Prop :=
  l_chans (y_list y) !! ch = Some (mkChan [] false) ∧ gotFrom ch (y_got y) = [].

(** The one value [x] was sent: it is in the buffer, or it was the first to be received. *)
Definition sent (y : sys) (ch : positive) (x : option V) (closed : bool) : Prop :=
  (l_chans (y_list y) !! ch = Some (mkChan [x] closed) ∧ gotFrom ch (y_got y) = []) ∨
  (l_chans (y_list y) !! ch = Some (mkChan [] closed) ∧
   ∃ n, gotFrom ch (y_got y) = x :: replicate n None).

Record wait_ok (y : sys) : Prop := {
  wo_inj : ∀ i j ch, l_m (y_list y) !! i = Some ch → l_m (y_list y) !! j = Some ch → i = j;
  wo_map : ∀ i ch, l_m (y_list y) !! i = Some ch → idle y ch ∧ ch ∉ chansOf (y_triggers y);
  wo_nodup : NoDup (chansOf (y_triggers y));
  wo_send : ∀ ch x, (ch, x, ToSend) ∈ y_triggers y → idle y ch;
  wo_close : ∀ ch x, (ch, x, ToClose) ∈ y_triggers y → sent y ch x false;
  wo_got : ∀ ch x, (ch, x) ∈ y_got y → is_Some (l_chans (y_list y) !! ch);
}.

(** The steps that leave a channel alone. *)
Definition same_at (y y' : sys) (ch : positive) : Prop :=
  l_chans (y_list y') !! ch = l_chans (y_list y) !! ch ∧
  gotFrom ch (y_got y') = gotFrom ch (y_got y).

Lemma idle_same y y' ch : same_at y y' ch → idle y ch → idle y' ch.
Proof. intros [E1 E2]. unfold idle. by rewrite E1, E2. Qed.

Lemma sent_same y y' ch x b : same_at y y' ch → sent y ch x b → sent y' ch x b.
Proof. intros [E1 E2]. unfold sent. by rewrite E1, E2. Qed.

Lemma gotFrom_none ch got : (∀ x, (ch, x) ∉ got) → gotFrom ch got = [].
Proof.
  unfold gotFrom. induction got as [|[ch' x] got IH]; intros Hno; [done|].
  rewrite filter_cons. simpl. case_decide as Hc; [subst; destruct (Hno x); by left|].
  apply IH. intros x' Hx. apply (Hno x'). by right.
Qed.

Lemma chansOf_elem ch x st ts : (ch, x, st) ∈ ts → ch ∈ chansOf ts.
Proof. intros Hin. apply list_elem_of_fmap. by exists (ch, x, st). Qed.

Lemma chansOf_app ts ts' : chansOf (ts ++ ts') = chansOf ts ++ chansOf ts'.
Proof. apply fmap_app. Qed.

Lemma wait_ok_register id w ts got :
  wait_ok (mkSys w ts got) → wait_ok (mkSys (Register id w).1 ts got).
Proof.
  intros Hok. unfold Register. destruct (l_m w !! id) as [ch|] eqn:Hid; [done|]. simpl.
  destruct Hok as [Hinj Hmap Hnd Hsend Hclose Hgot]. simpl in *.
  set (ch := fresh (dom (l_chans w))). pose proof (is_fresh (dom (l_chans w))) as Hf.
  fold ch in Hf. apply not_elem_of_dom in Hf.
  assert (∀ c, is_Some (l_chans w !! c) → same_at (mkSys w ts got)
    (mkSys (mkList (<[id := ch]> (l_m w)) (<[ch := mkChan [] false]> (l_chans w))) ts got) c) as Hs.
  { intros c [v Hc]. split; [|done]. simpl. apply lookup_insert_ne. congruence. }
  assert (∀ i c, l_m w !! i = Some c → is_Some (l_chans w !! c)) as Hm.
  { intros i c Hi. destruct (Hmap i c Hi) as [[H1 _] _]. eauto. }
  split; simpl.
  - intros i j c. rewrite !lookup_insert_Some. intros [[<- <-]|[Hi Hc]] [[<- He]|[Hj Hc']]; try done.
    + apply Hm in Hc' as [v Hv]. congruence.
    + subst. apply Hm in Hc as [v Hv]. congruence.
    + by eapply Hinj.
  - intros i c. rewrite lookup_insert_Some. intros [[<- <-]|[Hi Hc]].
    + split.
      * split; simpl; [apply lookup_insert_eq|]. apply gotFrom_none. intros x Hx.
        destruct (Hgot _ _ Hx) as [v Hv]. simpl in Hv. congruence.
      * intros ([[c x] st] & He & Hin)%list_elem_of_fmap. simpl in He. subst c.
        destruct st; [destruct (Hsend _ _ Hin) as [H1 _]|destruct (Hclose _ _ Hin) as [[H1 _]|[H1 _]]];
          simpl in H1; congruence.
    + destruct (Hmap i c Hc) as [H1 H2]. split; [|done]. eapply idle_same, H1. apply Hs. by eapply Hm.
  - done.
  - intros c x Hin. eapply idle_same, Hsend, Hin. apply Hs. destruct (Hsend _ _ Hin) as [H1 _]. eauto.
  - intros c x Hin. eapply sent_same, Hclose, Hin. apply Hs.
    destruct (Hclose _ _ Hin) as [[H1 _]|[H1 _]]; eauto.
  - intros c x Hin. destruct (Hgot _ _ Hin) as [v Hv]. simpl in Hv. exists v.
    rewrite lookup_insert_ne; [done|congruence].
Qed.

Lemma wait_ok_lock id x w ts got ch :
  wait_ok (mkSys w ts got) → l_m w !! id = Some ch →
  wait_ok (mkSys (triggerLocked id w).1 ((ch, x, ToSend) :: ts) got).
Proof.
  intros [Hinj Hmap Hnd Hsend Hclose Hgot] Hid. simpl in *. destruct (Hmap id ch Hid) as [Hidle Hno].
  split; simpl.
  - intros i j c. rewrite !lookup_delete_Some. intros [_ Hi] [_ Hj]. by eapply Hinj.
  - intros i c. rewrite lookup_delete_Some. intros [Hne Hi]. destruct (Hmap i c Hi) as [H1 H2].
    split; [done|]. intros [->|]%elem_of_cons; [|done]. destruct Hne. by eapply Hinj.
  - by constructor.
  - intros c v [[= -> _]|Hin]%elem_of_cons; [done|by eapply Hsend].
  - intros c v [?|Hin]%elem_of_cons; [done|by eapply Hclose].
  - done.
Qed.

Lemma wait_ok_lock_none id w ts got :
  wait_ok (mkSys w ts got) → wait_ok (mkSys (triggerLocked id w).1 ts got).
Proof.
  intros [Hinj Hmap Hnd Hsend Hclose Hgot]. simpl in *. split; simpl; try done.
  - intros i j c. rewrite !lookup_delete_Some. intros [_ Hi] [_ Hj]. by eapply Hinj.
  - intros i c. rewrite lookup_delete_Some. intros [_ Hi]. by eapply Hmap.
Qed.

(** A step on the channel of one trigger: the other channels are as they were. *)
Lemma other_channels w c w' ts ts' got ch x st :
  wait_ok (mkSys w (ts ++ (ch, x, st) :: ts') got) → w' = w <| l_chans ::= <[ch := c]> |> →
  (∀ i k, l_m w' !! i = Some k → same_at (mkSys w (ts ++ (ch, x, st) :: ts') got) (mkSys w' [] got) k) ∧
  (∀ t, t ∈ ts ++ ts' → same_at (mkSys w (ts ++ (ch, x, st) :: ts') got) (mkSys w' [] got) t.1.1) ∧
  NoDup (ch :: chansOf (ts ++ ts')).
Proof.
  intros [Hinj Hmap Hnd _ _ _] ->. simpl in *. rewrite chansOf_app in *.
  change (chansOf ((ch, x, st) :: ts')) with (ch :: chansOf ts') in *.
  assert (NoDup (ch :: chansOf ts ++ chansOf ts')) as Hnd'.
  { by rewrite Permutation_middle. }
  split_and!; [| |done].
  - intros i k Hk. split; [|done]. simpl. apply lookup_insert_ne. intros <-.
    destruct (Hmap i ch Hk) as [_ Hno]. set_solver.
  - intros t Ht. split; [|done]. simpl. apply lookup_insert_ne. intros E.
    apply NoDup_cons in Hnd' as [Hno _]. apply Hno. rewrite <-chansOf_app, E.
    apply list_elem_of_fmap. eauto.
Qed.

Lemma send_idle y ch x w' :
  idle y ch → send ch x (y_list y) = Ret w' → w' = (y_list y) <| l_chans ::= <[ch := mkChan [x] false]> |>.
Proof. intros [Hc _]. unfold send. rewrite Hc. by intros [= <-]. Qed.

(** The state [y'] after a step on the channel [ch] of a trigger: what the invariant says
    of all the other channels still holds. *)
Lemma wait_ok_step w c w' ts ts' got ch x st mid :
  let y := mkSys w (ts ++ (ch, x, st) :: ts') got in
  let y' := mkSys w' (ts ++ mid ++ ts') got in
  wait_ok y → w' = w <| l_chans ::= <[ch := c]> |> →
  (∀ t, t ∈ mid → t = (ch, x, ToClose) ∧ sent y' ch x false) → (length mid ≤ 1)%nat →
  wait_ok y'.
Proof.
  intros y y' Hok Hw Hmid Hlen.
  destruct (other_channels _ _ _ _ _ _ _ _ _ Hok Hw) as (Hm & Ht & Hnd).
  destruct Hok as [Hinj Hmap _ Hsend Hclose Hgot].
  assert (chansOf mid ⊆ [ch]) as Hsub.
  { intros k ([[k' x'] st'] & -> & Hin)%list_elem_of_fmap. destruct (Hmid _ Hin) as [[= -> _ _] _]. by left. }
  assert (∀ k v s', (k, v, s') ∈ ts ++ mid ++ ts' →
    (k, v, s') ∈ mid ∨ ((k, v, s') ∈ ts ++ ts' ∧ (k, v, s') ∈ ts ++ (ch, x, st) :: ts')) as Hsplit by set_solver.
  rewrite chansOf_app in Hnd. subst w'. split; simpl in *.
  - done.
  - intros i k Hk. destruct (Hmap i k Hk) as [H1 H2]. split; [by apply (idle_same y); [apply (Hm i)|]|].
    rewrite !chansOf_app in *. change (chansOf (_ :: ts')) with (ch :: chansOf ts') in H2.
    clear -H2 Hsub. set_solver.
  - rewrite !chansOf_app. destruct mid as [|t mid]; [by apply NoDup_cons in Hnd as [_ ?]|].
    destruct mid; [|simpl in Hlen; lia]. destruct (Hmid t) as [-> _]; [by left|].
    change (chansOf [(ch, x, ToClose)]) with [ch]. by rewrite (Permutation_app_comm [ch]), (assoc_L (++)),
      Permutation_app_comm.
  - intros k v [Hin|[Hin Hin']]%Hsplit; [by destruct (Hmid _ Hin)|].
    apply (idle_same y); [by apply (Ht (k, v, ToSend))|by eapply Hsend].
  - intros k v [Hin|[Hin Hin']]%Hsplit; [by destruct (Hmid _ Hin) as [[= -> ->] ?]|].
    apply (sent_same y); [by apply (Ht (k, v, ToClose))|by eapply Hclose].
  - intros k v Hin. destruct (Hgot _ _ Hin) as [c' Hc']. destruct (decide (ch = k)) as [->|Hne];
      [rewrite lookup_insert_eq; eauto|]. rewrite lookup_insert_ne by done. eauto.
Qed.

Lemma wait_ok_send ch x w w' ts ts' got :
  wait_ok (mkSys w (ts ++ (ch, x, ToSend) :: ts') got) → send ch x w = Ret w' →
  wait_ok (mkSys w' (ts ++ (ch, x, ToClose) :: ts') got).
Proof.
  intros Hok E. assert (idle (mkSys w (ts ++ (ch, x, ToSend) :: ts') got) ch) as Hi.
  { eapply (wo_send _ Hok). apply elem_of_app. right. by left. }
  apply (send_idle _ _ _ _ Hi) in E. simpl in E.
  apply (wait_ok_step w (mkChan [x] false) w' ts ts' got ch x ToSend [(ch, x, ToClose)]); [done|done| |simpl; lia].
  intros t ->%list_elem_of_singleton. split; [done|]. left. subst w'. simpl.
  split; [apply lookup_insert_eq|apply Hi].
Qed.

Lemma close_sent y ch x w' :
  sent y ch x false → closeChan ch (y_list y) = Ret w' →
  ∃ buf, l_chans (y_list y) !! ch = Some (mkChan buf false) ∧
    w' = (y_list y) <| l_chans ::= <[ch := mkChan buf true]> |>.
Proof.
  unfold closeChan. intros [[Hc _]|[Hc _]]; rewrite Hc; simpl; intros [= <-]; eauto.
Qed.

Lemma wait_ok_close ch x w w' ts ts' got :
  wait_ok (mkSys w (ts ++ (ch, x, ToClose) :: ts') got) → closeChan ch w = Ret w' →
  wait_ok (mkSys w' (ts ++ ts') got).
Proof.
  intros Hok E. assert (sent (mkSys w (ts ++ (ch, x, ToClose) :: ts') got) ch x false) as Hi.
  { eapply (wo_close _ Hok). apply elem_of_app. right. by left. }
  destruct (close_sent _ _ _ _ Hi E) as (buf & _ & Hw). simpl in Hw.
  apply (wait_ok_step w (mkChan buf true) w' ts ts' got ch x ToClose []); [done|done| |simpl; lia].
  by intros t ?%elem_of_nil.
Qed.

Lemma receive_idle y ch : idle y ch → receiveFrom ch (y_list y) = None.
Proof. intros [Hc _]. unfold receiveFrom. by rewrite Hc. Qed.

Lemma receive_same ch x w w' ts got k :
  receiveFrom ch w = Some (x, w') → k ≠ ch →
  same_at (mkSys w ts got) (mkSys w' ts (got ++ [(ch, x)])) k.
Proof.
  unfold receiveFrom. intros E Hne. split; simpl; [|rewrite gotFrom_snoc, decide_False by done; by rewrite app_nil_r].
  destruct (l_chans w !! ch) as [[[|v buf] [|]]|]; simplify_eq/=; [done|by apply lookup_insert_ne..].
Qed.

Lemma sent_receive ch v b x w w' ts got :
  sent (mkSys w ts got) ch v b → receiveFrom ch w = Some (x, w') →
  sent (mkSys w' ts (got ++ [(ch, x)])) ch v b.
Proof.
  unfold receiveFrom, sent. simpl. rewrite gotFrom_snoc, decide_True by done.
  intros [[-> ->]|[Hc [n Hn]]] E.
  - right. simplify_eq/=. split; [apply lookup_insert_eq|by exists 0%nat].
  - right. rewrite Hc in E. simpl in E. destruct b; simplify_eq. split; [done|].
    exists (S n). by rewrite Hn, <-app_comm_cons, <-replicate_cons_app.
Qed.

Lemma wait_ok_receive ch x w w' ts got :
  wait_ok (mkSys w ts got) → receiveFrom ch w = Some (x, w') →
  wait_ok (mkSys w' ts (got ++ [(ch, x)])).
Proof.
  intros [Hinj Hmap Hnd Hsend Hclose Hgot] E. simpl in *.
  assert (∀ k, idle (mkSys w ts got) k → idle (mkSys w' ts (got ++ [(ch, x)])) k) as Hidle.
  { intros k Hk. eapply idle_same, Hk. apply receive_same; [done|]. intros ->.
    apply receive_idle in Hk. simpl in Hk. congruence. }
  assert (l_m w' = l_m w ∧ ∀ k, is_Some (l_chans w' !! k) ↔ is_Some (l_chans w !! k)) as [Hm Hd].
  { unfold receiveFrom in E. destruct (l_chans w !! ch) as [[[|v buf] b]|] eqn:Hc; [destruct b|..];
      simplify_eq/=; (split; [done|]); intros k; [done|..].
    destruct (decide (ch = k)) as [->|]; [rewrite lookup_insert_eq, Hc; by split; eauto|by rewrite lookup_insert_ne]. }
  split; simpl; rewrite ?Hm; try done.
  - intros i k Hk. destruct (Hmap i k Hk). auto.
  - eauto.
  - intros k v Hin. pose proof (Hclose k v Hin) as Hk. destruct (decide (k = ch)) as [->|Hne].
    + by eapply sent_receive.
    + eapply sent_same, Hk. by apply receive_same.
  - intros k v [Hin|[= -> ->]%list_elem_of_singleton]%elem_of_app; rewrite Hd; [by eapply Hgot|].
    unfold receiveFrom in E. destruct (l_chans w !! ch); [eauto|done].
Qed.

Lemma wstep_ok y y' : wait_ok y → wstep y y' → wait_ok y'.
Proof.
  intros Hok Hstep. destruct Hstep as [id w ts got|id x w ts got w' ch E|id w ts got w' E| | |].
  - by apply wait_ok_register.
  - injection E as <- E. by apply (wait_ok_lock id).
  - injection E as <- E. by apply wait_ok_lock_none.
  - by eapply wait_ok_send.
  - by eapply wait_ok_close.
  - by eapply wait_ok_receive.
Qed.

Lemma sys0_ok : wait_ok sys0.
Proof.
  split; simpl; try by intros *; rewrite ?lookup_empty.
  - constructor.
  - by intros ?? ?%elem_of_nil.
  - by intros ?? ?%elem_of_nil.
  - by intros ?? ?%elem_of_nil.
Qed.

Lemma reachable_ok y : rtc wstep sys0 y → wait_ok y.
Proof.
  intros Hr. pose proof sys0_ok as H0. induction Hr as [|x y z Hxy _ IH]; [done|]. by eapply IH, wstep_ok.
Qed.

(** ** What a trigger does to its channel *)
Lemma trigger_unique ts ch a b s s' :
  NoDup (chansOf ts) → (ch, a, s) ∈ ts → (ch, b, s') ∈ ts → a = b ∧ s = s'.
Proof.
  induction ts as [|[[k v] st] ts IH]; intros Hnd Ha Hb; [by apply elem_of_nil in Ha|].
  apply NoDup_cons in Hnd as [Hno Hnd].
  apply elem_of_cons in Ha as [Ea|Ha]; apply elem_of_cons in Hb as [Eb|Hb]; simplify_eq; [done|..].
  - destruct Hno. by eapply chansOf_elem.
  - destruct Hno. by eapply chansOf_elem.
  - by apply IH.
Qed.

(** A trigger has taken the channel [ch] to send [x], and nobody else will get at it. *)
Record delivering (y : sys) (ch : positive) (x : option V) : Prop := {
  dl_map : ∀ i, l_m (y_list y) !! i ≠ Some ch;
  dl_stage :
    (idle y ch ∧ (ch, x, ToSend) ∈ y_triggers y) ∨
    (sent y ch x false ∧ (ch, x, ToClose) ∈ y_triggers y) ∨
    (sent y ch x true ∧ ch ∉ chansOf (y_triggers y));
}.

Lemma delivering_alloc y ch x : delivering y ch x → is_Some (l_chans (y_list y) !! ch).
Proof.
  intros [_ [[[Hc _] _]|[[[[Hc _]|[Hc _]] _]|[[[Hc _]|[Hc _]] _]]]]; rewrite Hc; eauto.
Qed.

(** A step that leaves the channel and its trigger alone. *)
Lemma delivering_same y y' ch x :
  same_at y y' ch → (∀ i, l_m (y_list y') !! i ≠ Some ch) →
  (∀ v s, (ch, v, s) ∈ y_triggers y' ↔ (ch, v, s) ∈ y_triggers y) →
  delivering y ch x → delivering y' ch x.
Proof.
  intros Hs Hm Ht [_ Hst]. split; [done|]. destruct Hst as [[H1 H2]|[[H1 H2]|[H1 H2]]].
  - left. split; [by eapply idle_same|by apply Ht].
  - right. left. split; [by eapply sent_same|by apply Ht].
  - right. right. split; [by eapply sent_same|].
    intros ([[k v] s] & -> & Hin)%list_elem_of_fmap. destruct H2. by eapply chansOf_elem, Ht.
Qed.

Lemma delivering_register id w ts got ch x :
  delivering (mkSys w ts got) ch x → delivering (mkSys (Register id w).1 ts got) ch x.
Proof.
  intros D. unfold Register. destruct (l_m w !! id); [done|]. simpl.
  pose proof (is_fresh (dom (l_chans w))) as Hf. apply not_elem_of_dom in Hf.
  destruct (delivering_alloc _ _ _ D) as [c Hc]. simpl in Hc. pose proof (dl_map _ _ _ D) as Hm. simpl in Hm.
  eapply delivering_same, D; [split; [|done]; simpl; apply lookup_insert_ne; congruence| |done].
  intros i. simpl. rewrite lookup_insert_Some. intros [[_ E]|[_ E]]; [congruence|by eapply Hm].
Qed.

(** A step of the trigger of another channel. *)
Lemma delivering_other w ts ts' got ch x k c v st mid :
  let y := mkSys w (ts ++ (k, v, st) :: ts') got in
  k ≠ ch → (∀ t, t ∈ mid → t.1.1 = k) → delivering y ch x →
  delivering (mkSys (w <| l_chans ::= <[k := c]> |>) (ts ++ mid ++ ts') got) ch x.
Proof.
  intros y Hne Hmid D. eapply delivering_same, D; [split; [|done]; simpl; by apply lookup_insert_ne|apply D|].
  intros v' s. simpl. rewrite !elem_of_app, elem_of_cons.
  assert ((ch, v', s) ∉ mid) as Hno by (intros Hin; by apply Hmid in Hin).
  clear -Hne Hno. naive_solver.
Qed.

Lemma delivering_send k v w w' ts ts' got ch x :
  let y := mkSys w (ts ++ (k, v, ToSend) :: ts') got in
  wait_ok y → send k v w = Ret w' → delivering y ch x →
  delivering (mkSys w' (ts ++ (k, v, ToClose) :: ts') got) ch x.
Proof.
  intros y Hok E D. assert ((k, v, ToSend) ∈ y_triggers y) as Hin by (simpl; apply elem_of_app; right; by left).
  pose proof (wo_send _ Hok _ _ Hin) as Hi. apply (send_idle y _ _ _ Hi) in E. simpl in E. subst w'.
  destruct (decide (k = ch)) as [->|Hne].
  2: { apply (delivering_other w ts ts' got ch x k _ v ToSend [(k, v, ToClose)]); [done| |done].
       by intros t ->%list_elem_of_singleton. }
  split; [apply D|]. destruct D as [_ [[_ H2]|[[_ H2]|[_ H2]]]].
  - destruct (trigger_unique _ _ _ _ _ _ (wo_nodup _ Hok) Hin H2) as [-> _].
    right. left. simpl. split; [left; split; [apply lookup_insert_eq|apply Hi]|].
    apply elem_of_app. right. by left.
  - by destruct (trigger_unique _ _ _ _ _ _ (wo_nodup _ Hok) Hin H2).
  - destruct H2. by eapply chansOf_elem.
Qed.

Lemma delivering_close k v w w' ts ts' got ch x :
  let y := mkSys w (ts ++ (k, v, ToClose) :: ts') got in
  wait_ok y → closeChan k w = Ret w' → delivering y ch x →
  delivering (mkSys w' (ts ++ ts') got) ch x.
Proof.
  intros y Hok E D. assert ((k, v, ToClose) ∈ y_triggers y) as Hin by (simpl; apply elem_of_app; right; by left).
  pose proof (wo_close _ Hok _ _ Hin) as Hi. destruct (close_sent y _ _ _ Hi E) as (buf & Hb & ->). simpl in Hb.
  destruct (decide (k = ch)) as [->|Hne].
  2: { apply (delivering_other w ts ts' got ch x k _ v ToClose []); [done| |done]. by intros t ?%elem_of_nil. }
  split; [apply D|]. destruct D as [_ [[_ H2]|[[_ H2]|[_ H2]]]].
  - by destruct (trigger_unique _ _ _ _ _ _ (wo_nodup _ Hok) Hin H2).
  - destruct (trigger_unique _ _ _ _ _ _ (wo_nodup _ Hok) Hin H2) as [-> _]. right. right. split.
    + unfold sent in *. simpl in *. rewrite Hb in Hi. rewrite lookup_insert_eq.
      destruct Hi as [[[= ->] ?]|[[= ->] ?]]; [by left|by right].
    + pose proof (wo_nodup _ Hok) as Hnd. simpl in *. rewrite chansOf_app in *.
      change (chansOf (_ :: ts')) with (ch :: chansOf ts') in Hnd. rewrite <-Permutation_middle in Hnd.
      by apply NoDup_cons in Hnd as [? _].
  - destruct H2. by eapply chansOf_elem.
Qed.

Lemma delivering_receive k v w w' ts got ch x :
  receiveFrom k w = Some (v, w') → delivering (mkSys w ts got) ch x →
  delivering (mkSys w' ts (got ++ [(k, v)])) ch x.
Proof.
  intros E D. assert (l_m w' = l_m w) as Hm.
  { unfold receiveFrom in E. destruct (l_chans w !! k) as [[[|? ?] [|]]|]; by simplify_eq/=. }
  destruct (decide (k = ch)) as [->|Hne].
  - split; simpl; [rewrite Hm; apply D|]. destruct D as [_ [[H1 H2]|[[H1 H2]|[H1 H2]]]]; simpl in *.
    + apply receive_idle in H1. simpl in H1. congruence.
    + right. left. split; [by eapply sent_receive|done].
    + right. right. split; [by eapply sent_receive|done].
  - eapply delivering_same, D; [by apply receive_same|simpl; rewrite Hm; apply D|done].
Qed.

Lemma delivering_step y y' ch x : wait_ok y → wstep y y' → delivering y ch x → delivering y' ch x.
Proof.
  intros Hok Hstep D. destruct Hstep as [id w ts got|id v w ts got w' k E|id w ts got w' E| | |].
  - by apply delivering_register.
  - injection E as <- E. pose proof (dl_map _ _ _ D) as Hm. simpl in Hm.
    eapply delivering_same, D; [done| |].
    + intros i. simpl. rewrite lookup_delete_Some. intros [_ ?]. by eapply Hm.
    + intros v' s. simpl. rewrite elem_of_cons. assert (k ≠ ch) by (intros ->; by eapply Hm). naive_solver.
  - injection E as <- E. pose proof (dl_map _ _ _ D) as Hm. simpl in Hm.
    eapply delivering_same, D; [done| |done].
    intros i. simpl. rewrite lookup_delete_Some. intros [_ ?]. by eapply Hm.
  - by eapply delivering_send.
  - by eapply delivering_close.
  - by eapply delivering_receive.
Qed.

(** A trigger in progress can go on by itself. *)
Lemma trigger_moves y ch x st :
  wait_ok y → (ch, x, st) ∈ y_triggers y →
  ∃ w', match st with ToSend => send ch x (y_list y) | ToClose => closeChan ch (y_list y) end = Ret w'.
Proof.
  intros Hok Hin. destruct st.
  - destruct (wo_send _ Hok _ _ Hin) as [Hc _]. unfold send. rewrite Hc. simpl. eauto.
  - unfold closeChan. destruct (wo_close _ Hok _ _ Hin) as [[Hc _]|[Hc _]]; rewrite Hc; simpl; eauto.
Qed.

Lemma delivering_close_enabled y ch x :
  wait_ok y → sent y ch x false → (ch, x, ToClose) ∈ y_triggers y → delivering y ch x →
  ∃ y', wstep y y' ∧ y_got y' = y_got y ∧ sent y' ch x true ∧ ch ∉ chansOf (y_triggers y').
Proof.
  intros Hok Hs Hin D. destruct (trigger_moves y ch x ToClose Hok Hin) as [w' E].
  destruct y as [w ts got]. apply list_elem_of_split in Hin as (ts1 & ts2 & Hts). simpl in Hts. subst ts.
  pose proof (step_close ch x w w' ts1 ts2 got E) as Hstep. eexists. split; [exact Hstep|]. split; [done|].
  pose proof (wstep_ok _ _ Hok Hstep) as Hok'. pose proof (delivering_step _ _ _ _ Hok Hstep D) as D'.
  assert (ch ∉ chansOf (ts1 ++ ts2)) as Hno.
  { pose proof (wo_nodup _ Hok) as Hnd. simpl in Hnd. rewrite chansOf_app in *.
    change (chansOf (_ :: ts2)) with (ch :: chansOf ts2) in Hnd. rewrite <-Permutation_middle in Hnd.
    by apply NoDup_cons in Hnd as [? _]. }
  split; [|done]. destruct D' as [_ [[_ H2]|[[_ H2]|[H1 _]]]]; [..|done]; destruct Hno; by eapply chansOf_elem.
Qed.

Lemma delivering_finishes y ch x :
  wait_ok y → delivering y ch x →
  ∃ y', rtc wstep y y' ∧ y_got y' = y_got y ∧ sent y' ch x true ∧ ch ∉ chansOf (y_triggers y').
Proof.
  intros Hok D. pose proof D as [_ [[Hi Hin]|[[Hs Hin]|[Hs Hno]]]]; [..|by exists y].
  2: { destruct (delivering_close_enabled y ch x) as (y' & Hstep & ?); [done..|].
       exists y'. split; [by apply rtc_once|done]. }
  destruct (trigger_moves y ch x ToSend Hok Hin) as [w' E].
  destruct y as [w ts got]. apply list_elem_of_split in Hin as (ts1 & ts2 & Hts). simpl in Hts. subst ts.
  pose proof (step_send ch x w w' ts1 ts2 got E) as Hstep. pose proof (send_idle _ _ _ _ Hi E) as Hw.
  pose proof (wstep_ok _ _ Hok Hstep) as Hok'. pose proof (delivering_step _ _ _ _ Hok Hstep D) as D'.
  destruct (delivering_close_enabled _ ch x Hok') as (y' & Hstep' & ?); [..|done|].
  - subst w'. left. simpl. split; [apply lookup_insert_eq|apply Hi].
  - simpl. apply elem_of_app. right. by left.
  - exists y'. split; [|done]. by eapply rtc_l, rtc_once.
Qed.

(** Whatever registrations, triggers and receptions interleave, no trigger ever blocks
    on its send, sends on a closed channel, or closes a channel twice. *)
Theorem wait_safe y ch x st :
  rtc wstep sys0 y → (ch, x, st) ∈ y_triggers y →
  ∃ w', match st with ToSend => send ch x (y_list y) | ToClose => closeChan ch (y_list y) end = Ret w'.
Proof. intros Hr%reachable_ok. by apply trigger_moves. Qed.

(** C15. A trigger of an id that is registered delivers its value.  However the goroutines go
    on, the first thing that is received from the channel is the value, and after it only
    the nil of the closed channel; and the trigger can always finish, with no help from a
    receiver, and then the value can be received if it was not yet. *)
Theorem trigger_delivers y id x w ch y' :
  rtc wstep sys0 y → triggerLocked id (y_list y) = (w, Some ch) →
  rtc wstep (mkSys w ((ch, x, ToSend) :: y_triggers y) (y_got y)) y' →
  (gotFrom ch (y_got y') = [] ∨ ∃ n, gotFrom ch (y_got y') = x :: replicate n None) ∧
  ∃ y'', rtc wstep y' y'' ∧ y_got y'' = y_got y' ∧ (ch ∉ chansOf (y_triggers y'')) ∧
    (gotFrom ch (y_got y') = [] → ∃ w'', receiveFrom ch (y_list y'') = Some (x, w'')).
Proof.
  intros Hr%reachable_ok E Hr'. destruct y as [w0 ts got]. simpl in *.
  pose proof (step_lock id x w0 ts got w ch E) as Hstep. injection E as <- Hid.
  assert (delivering (mkSys (w0 <| l_m := delete id (l_m w0) |>) ((ch, x, ToSend) :: ts) got) ch x) as D.
  { split; [|left; split; [by apply (wo_map _ Hr id)|by left]].
    intros i. simpl. rewrite lookup_delete_Some. intros [Hne Hi]. apply Hne. by eapply (wo_inj _ Hr). }
  apply (wstep_ok _ _ Hr) in Hstep as Hok. clear Hr Hstep.
  assert (wait_ok y' ∧ delivering y' ch x) as [Hok' D'].
  { induction Hr' as [|y1 y2 y3 H12 _ IH]; [done|].
    apply IH; [by eapply delivering_step|by eapply wstep_ok]. }
  split.
  - destruct D' as [_ [[[_ ?] _]|[[[[_ ?]|[_ ?]] _]|[[[_ ?]|[_ ?]] _]]]]; auto.
  - destruct (delivering_finishes y' ch x Hok' D') as (y'' & R & G & S & N). exists y''. split_and!; [done..|].
    rewrite <-G. intros Hg. destruct S as [[Hc _]|[_ [n Hn]]]; [|congruence].
    unfold receiveFrom. rewrite Hc. eauto.
Qed.

(** The whole of a trigger that is not interrupted. *)
Lemma Trigger_ok id x w :
  (∀ ch, l_m w !! id = Some ch → l_chans w !! ch = Some (mkChan [] false)) →
  Trigger id x w = Ret (mkList (delete id (l_m w))
    (match l_m w !! id with Some ch => <[ch := mkChan [x] true]> (l_chans w) | None => l_chans w end)).
Proof.
  intros Hc. unfold Trigger, triggerLocked. destruct (l_m w !! id) as [ch|]; [|by destruct w].
  unfold send. simpl. rewrite (Hc ch) by done. cbn [c_closed c_buf length Nat.leb mbind run_bind].
  unfold closeChan. simpl. rewrite lookup_insert_eq. simpl.
  unfold set, set_l_chans, set_l_m. simpl. by rewrite insert_insert_eq.
Qed.
End wait.
Arguments chan : clear implicits.
Arguments List : clear implicits.
Arguments sys : clear implicits.

(** ** Examples *)
Definition demoList : List Z := (Register 7 NewList).1.
Definition demoChan : positive := (Register (V := Z) 7 NewList).2.

Lemma wait_safe_witness : ∃ w', send demoChan (Some 1) (triggerLocked 7 demoList).1 = Ret w'.
Proof.
  apply (wait_safe (mkSys (triggerLocked 7 demoList).1 [(demoChan, Some 1, ToSend)] []) demoChan (Some 1) ToSend).
  - eapply rtc_l; [apply (step_register 7)|]. eapply rtc_once, (step_lock 7 (Some 1)). by vm_compute.
  - by left.
Defined.

Lemma trigger_delivers_witness :
  ∃ y'', rtc wstep (mkSys (triggerLocked 7 demoList).1 [(demoChan, Some 1, ToSend)] []) y'' ∧
    ∃ w'', receiveFrom demoChan (y_list y'') = Some (Some 1, w'').
Proof.
  destruct (trigger_delivers (mkSys demoList [] []) 7 (Some 1) (triggerLocked 7 demoList).1 demoChan
    (mkSys (triggerLocked 7 demoList).1 [(demoChan, Some 1, ToSend)] [])) as (_ & y'' & R & _ & _ & G).
  - apply rtc_once, (step_register 7).
  - by vm_compute.
  - done.
  - exists y''. split; [exact R|]. by apply G.
Defined.
