(* ===== verification/Url.v ===== *)
(** * Url: query strings and numbers as text (packages net/url and strconv)

    The functions of Go's net/url and strconv that the HTTP interface of the server and
    the client use to exchange the parameters of a request, and the round trips between
    them. *)

From stdpp Require Import pretty sorting.
From Stdlib Require Import String Ascii.
From S2P Require Import Prelude Paths Wal WalNames.

(** ** package strconv *)
Definition digitOf (c : ascii) : option Z :=
  let n := Z.of_N (N_of_ascii c) - 48 in
  if (0 <=? n) && (n <=? 9) then Some n else None.

(** The value of a string of digits, after [acc]. *)
Fixpoint digitsValue (acc : Z) (s : string) : option Z :=
  match s with
  | EmptyString => Some acc
  | String c s => d ← digitOf c; digitsValue (10 * acc + d) s
  end.

(** [strconv.ParseUint(s, 10, 64)]. *)
Definition ParseUint (s : string) : option Z :=
  if decide (s = EmptyString) then None
  else n ← digitsValue 0 s; if n <? 2 ^ 64 then Some n else None.

(** [strconv.Atoi(s)], with a sign or without. *)
Definition Atoi (s : string) : option Z :=
  let '(neg, t) := match s with
                   | String c t => if decide (c = "-"%char) then (true, t)
                                   else if decide (c = "+"%char) then (false, t) else (false, s)
                   | EmptyString => (false, s)
                   end in
  if decide (t = EmptyString) then None
  else
    n ← digitsValue 0 t;
    let n := if neg : bool then - n else n in
    if (- 2 ^ 63 <=? n) && (n <? 2 ^ 63) then Some n else None.

(** [strconv.FormatUint(n, 10)]. *)
Definition FormatUint (n : Z) : string := pretty (Z.to_N n).

Definition ParseBool (s : string) : option bool :=
  if bool_decide (s ∈ ["1"; "t"; "T"; "true"; "TRUE"; "True"]) then Some true
  else if bool_decide (s ∈ ["0"; "f"; "F"; "false"; "FALSE"; "False"]) then Some false
  else None.

Definition FormatBool (b : bool) : string := if b then "true" else "false".

(** ** package net/url *)

(** What QueryEscape leaves as it is. *)
Definition unreserved (c : ascii) : bool :=
  let n := N_of_ascii c in
  ((48 <=? n) && (n <=? 57) || (65 <=? n) && (n <=? 90) || (97 <=? n) && (n <=? 122))%N
  || bool_decide (c ∈ ["-"%char; "_"%char; "."%char; "~"%char]).

(** A digit in hexadecimal, in capitals. *)
Definition hexUpper (d : N) : ascii := ascii_of_N (if d <? 10 then 48 + d else 55 + d)%N.

Definition unhex (c : ascii) : option N :=
  let n := N_of_ascii c in
  if ((48 <=? n) && (n <=? 57))%N then Some (n - 48)%N
  else if ((97 <=? n) && (n <=? 102))%N then Some (n - 87)%N
  else if ((65 <=? n) && (n <=? 70))%N then Some (n - 55)%N
  else None.

Fixpoint QueryEscape (s : string) : string :=
  match s with
  | EmptyString => EmptyString
  | String c s =>
      if unreserved c then String c (QueryEscape s)
      else if decide (c = " "%char) then String "+" (QueryEscape s)
      else String "%" (String (hexUpper (N_of_ascii c / 16))
                        (String (hexUpper (N_of_ascii c mod 16)) (QueryEscape s)))
  end.

(** The first three characters. *)
Definition first3 (s : string) : string := String.substring 0 3 s.

(** An EscapeError, or the text. *)
Fixpoint QueryUnescape (s : string) : string + string :=
  match s with
  | EmptyString => inr EmptyString
  | String c s' =>
      let cons (c : ascii) (r : string + string) :=
        match r with inl e => inl e | inr t => inr (String c t) end in
      if decide (c = "%"%char) then
        match s' with
        | String a (String b s'') =>
            match unhex a, unhex b with
            | Some x, Some y => cons (ascii_of_N (16 * x + y)) (QueryUnescape s'')
            | _, _ => inl (first3 s)
            end
        | _ => inl (first3 s)
        end
      else if decide (c = "+"%char) then cons " "%char (QueryUnescape s')
      else cons c (QueryUnescape s')
  end.

(** [url.Values]. *)
Abbreviation Values := (gmap string (list string)).

Definition valuesAdd (key value : string) (m : Values) : Values :=
  <[key := default [] (m !! key) ++ [value]]> m.
Definition valuesSet (key value : string) (m : Values) : Values := <[key := [value]]> m.

(** At the first character for which [f] holds. *)
Fixpoint cutAt (f : ascii → bool) (s : string) : string * option string :=
  match s with
  | EmptyString => (EmptyString, None)
  | String c s => if f c then (EmptyString, Some s) else let '(a, b) := cutAt f s in (String c a, b)
  end.

Definition isAmp (c : ascii) : bool := bool_decide (c = "&"%char) || bool_decide (c = ";"%char).
Definition isEq (c : ascii) : bool := bool_decide (c = "="%char).

(** One turn of the loop of parseQuery, with the first error so far. *)
Definition parsePair (piece : string) (st : Values * option string) : Values * option string :=
  let '(m, err) := st in
  if decide (piece = EmptyString) then st
  else
    let '(key, value) := cutAt isEq piece in
    match QueryUnescape key with
    | inl e => (m, Some (default e err))
    | inr key =>
        match QueryUnescape (default EmptyString value) with
        | inl e => (m, Some (default e err))
        | inr value => (valuesAdd key value m, err)
        end
    end.

(** A turn takes a character at least. *)
Fixpoint parseQuery (fuel : nat) (query : string) (st : Values * option string)
  : Values * option string :=
  match fuel with
  | O => st
  | S fuel =>
      if decide (query = EmptyString) then st
      else
        let '(piece, rest) := cutAt isAmp query in
        parseQuery fuel (default EmptyString rest) (parsePair piece st)
  end.

Definition ParseQuery (query : string) : Values * option string :=
  parseQuery (S (String.length query)) query (∅, None).

Definition encodePair (p : string * string) : string :=
  (QueryEscape p.1 ++ "=" ++ QueryEscape p.2)%string.

Definition encodePairs (l : list (string * string)) : string := String.concat "&" (encodePair <$> l).

(** The pairs of the values, by key. *)
Definition pairsOf (m : Values) : list (string * string) :=
  k ← sortNames (map_to_list m).*1; (k,.) <$> default [] (m !! k).

(** [v.Encode()]. *)
Definition Encode (m : Values) : string := encodePairs (pairsOf m).

(** ** Characters *)
Lemma unreserved_plain c :
  unreserved c = true → c ≠ "%"%char ∧ c ≠ "+"%char ∧ isAmp c = false ∧ isEq c = false.
Proof. destruct c as [[] [] [] [] [] [] [] []]; vm_compute; intros E; try done; by split_and!. Qed.

Lemma hexUpper_plain d :
  (d < 16)%N → unhex (hexUpper d) = Some d ∧ isAmp (hexUpper d) = false ∧ isEq (hexUpper d) = false.
Proof.
  intros Hd. assert (d ∈ N.of_nat <$> seq 0 16) as Hin.
  { apply list_elem_of_fmap. exists (N.to_nat d). split; [by rewrite N2Nat.id|]. apply elem_of_seq. lia. }
  cbn in Hin. repeat (apply elem_of_cons in Hin as [->|Hin]; [by vm_compute|]). by apply elem_of_nil in Hin.
Qed.

Lemma ascii_hex c :
  (N_of_ascii c / 16 < 16)%N ∧ (N_of_ascii c mod 16 < 16)%N ∧
  ascii_of_N (16 * (N_of_ascii c / 16) + N_of_ascii c mod 16) = c.
Proof. destruct c as [[] [] [] [] [] [] [] []]; by vm_compute. Qed.

(** ** Escaping *)
Lemma unescape_escape s : QueryUnescape (QueryEscape s) = inr s.
Proof.
  induction s as [|c s IH]; [done|]. cbn [QueryEscape]. destruct (unreserved c) eqn:Hu.
  - apply unreserved_plain in Hu as (H1 & H2 & _). cbn [QueryUnescape].
    by rewrite !decide_False, IH by done.
  - destruct (decide (c = " "%char)) as [->|Hne]; cbn [QueryUnescape].
    + rewrite decide_False, decide_True by done. by rewrite IH.
    + destruct (ascii_hex c) as (Ha & Hb & Hc). rewrite decide_True by done.
      destruct (hexUpper_plain _ Ha) as [-> _], (hexUpper_plain _ Hb) as [-> _]. by rewrite IH, Hc.
Qed.

(** No character of the string is one of [f]. *)
Fixpoint free (f : ascii → bool) (s : string) : Prop :=
  match s with EmptyString => True | String c s => f c = false ∧ free f s end.

Lemma free_append f a b : free f a → free f b → free f (a ++ b)%string.
Proof. induction a as [|c a IH]; intros Ha Hb; [done|]. destruct Ha. rewrite append_cons. by split; auto. Qed.

Lemma cutAt_free f s : free f s → cutAt f s = (s, None).
Proof. induction s as [|c s IH]; intros Hs; [done|]. destruct Hs as [Hc Hs]. cbn [cutAt]. by rewrite Hc, IH. Qed.

Lemma cutAt_append f a c b :
  free f a → f c = true → cutAt f (a ++ String c b)%string = (a, Some b).
Proof.
  intros Ha Hc. induction a as [|d a IH].
  - change (EmptyString ++ String c b)%string with (String c b). cbn [cutAt]. by rewrite Hc.
  - destruct Ha as [Hd Ha]. rewrite append_cons. cbn [cutAt]. by rewrite Hd, IH.
Qed.

Lemma escape_free s : free isAmp (QueryEscape s) ∧ free isEq (QueryEscape s).
Proof.
  induction s as [|c s [IH1 IH2]]; [done|]. cbn [QueryEscape]. destruct (unreserved c) eqn:Hu.
  - apply unreserved_plain in Hu as (_ & _ & H1 & H2). by repeat split.
  - case_decide; [by repeat split|]. destruct (ascii_hex c) as (Ha & Hb & _).
    destruct (hexUpper_plain _ Ha) as (_ & ? & ?), (hexUpper_plain _ Hb) as (_ & ? & ?). by repeat split.
Qed.

(** ** Queries *)
Definition addPair (m : Values) (p : string * string) : Values := valuesAdd p.1 p.2 m.

Lemma parsePair_encode p m err :
  parsePair (encodePair p) (m, err) = (addPair m p, err).
Proof.
  destruct p as [k v]. unfold parsePair, encodePair. simpl.
  change ("=" ++ QueryEscape v)%string with (String "=" (QueryEscape v)).
  rewrite decide_False by (by destruct (QueryEscape k)).
  rewrite cutAt_append by (apply escape_free || done). rewrite unescape_escape.
  simpl. by rewrite unescape_escape.
Qed.

Lemma encodePair_free p : free isAmp (encodePair p).
Proof.
  unfold encodePair. apply free_append; [apply escape_free|].
  apply (free_append _ "="); [by split|apply escape_free].
Qed.

Lemma concat_cons sep s l :
  String.concat sep (s :: l) = (s ++ match l with [] => EmptyString | _ => sep ++ String.concat sep l end)%string.
Proof. destruct l; [by rewrite append_nil|done]. Qed.

(** Pieces of text that parsePair reads as the pairs [l]. *)
Section pieces.
Context (text : string * string → string).

Definition piece_of (p : string * string) : Prop :=
  free isAmp (text p) ∧ text p ≠ EmptyString ∧ ∀ m err, parsePair (text p) (m, err) = (addPair m p, err).

Lemma parseQuery_pieces fuel l m err :
  Forall piece_of l → (length l < fuel)%nat →
  parseQuery fuel (String.concat "&" (text <$> l)) (m, err) = (foldl addPair m l, err).
Proof.
  revert l m. induction fuel as [|fuel IH]; intros l m Hl Hf; [lia|]. destruct l as [|p l]; [done|].
  apply Forall_cons in Hl as [(H1 & H2 & H3) Hl].
  cbn [parseQuery]. rewrite fmap_cons, concat_cons. rewrite decide_False by (by destruct (text p)). simpl in Hf.
  destruct l as [|p' l].
  - change (text <$> []) with (@nil string). rewrite append_nil, cutAt_free, H3 by done. simpl. destruct fuel; [lia|done].
  - cbn [fmap list_fmap]. change ("&" ++ ?x)%string with (String "&" x). rewrite cutAt_append, H3 by done.
    apply (IH (p' :: l)); [done|]. simpl in *; lia.
Qed.

Lemma length_pieces l : Forall piece_of l → (length l ≤ String.length (String.concat "&" (text <$> l)))%nat.
Proof.
  induction l as [|p l IH]; intros Hl; [done|]. apply Forall_cons in Hl as [(_ & H2 & _) Hl]. specialize (IH Hl).
  rewrite fmap_cons, concat_cons, length_append.
  assert (1 ≤ String.length (text p))%nat by (destruct (text p); [done|simpl; lia]).
  destruct l as [|q l]; [simpl; lia|]. rewrite fmap_cons in *. rewrite length_append.
  cbn [length String.length] in *. lia.
Qed.

Lemma ParseQuery_pieces l :
  Forall piece_of l → ParseQuery (String.concat "&" (text <$> l)) = (foldl addPair ∅ l, None).
Proof. intros Hl. apply parseQuery_pieces; [done|]. pose proof (length_pieces l Hl). lia. Qed.
End pieces.

Lemma ParseQuery_encode l : ParseQuery (encodePairs l) = (foldl addPair ∅ l, None).
Proof.
  apply ParseQuery_pieces, Forall_forall. intros p _.
  split_and!; [apply encodePair_free|unfold encodePair; by destruct (QueryEscape p.1)|].
  intros m err. apply parsePair_encode.
Qed.

(** The values of a key, in their order. *)
Lemma lookup_addPairs l m k :
  let vs := (filter (λ p, p.1 = k) l).*2 in
  foldl addPair m l !! k = match vs with [] => m !! k | _ => Some (default [] (m !! k) ++ vs) end.
Proof.
  revert m. induction l as [|[k' v] l IH]; intros m; [done|]. cbn [foldl]. rewrite IH, filter_cons.
  unfold addPair, valuesAdd. simpl. case_decide as Hk.
  - subst k'. rewrite lookup_insert_eq. simpl. rewrite <-app_assoc.
    change (list_fmap _ _ snd ?x) with (x.*2). by destruct ((filter (λ p, p.1 = k) l).*2).
  - rewrite lookup_insert_ne by done. done.
Qed.

Lemma filter_pairs (k k' : string) (vs : list string) :
  (filter (λ p, p.1 = k) ((k',.) <$> vs)).*2 = if decide (k' = k) then vs else [].
Proof.
  case_decide as Hk; induction vs as [|v vs IH]; [done| |done|]; rewrite fmap_cons, filter_cons; cbn [fst].
  - rewrite decide_True by done. rewrite fmap_cons. by rewrite IH.
  - by rewrite decide_False.
Qed.

Definition pairsAt (m : Values) (k : string) : list (string * string) := (k,.) <$> default [] (m !! k).

Lemma pairs_absent (m : Values) k ks :
  k ∉ ks → (filter (λ p, p.1 = k) (ks ≫= pairsAt m)).*2 = [].
Proof.
  induction ks as [|x ks IH]; intros Hno; [done|]. apply not_elem_of_cons in Hno as [Hx Hno].
  cbn [mbind list_bind]. rewrite filter_app, fmap_app. unfold pairsAt at 1.
  rewrite filter_pairs, decide_False by done. by apply IH.
Qed.

Lemma pairs_present (m : Values) k vs ks :
  NoDup ks → k ∈ ks → m !! k = Some vs → (filter (λ p, p.1 = k) (ks ≫= pairsAt m)).*2 = vs.
Proof.
  intros Hnd Hin Hk. induction Hnd as [|x ks Hno Hnd IH]; [by apply elem_of_nil in Hin|].
  cbn [mbind list_bind]. rewrite filter_app, fmap_app. unfold pairsAt at 1. rewrite filter_pairs.
  case_decide as Hx.
  - subst x. rewrite Hk, pairs_absent by done. apply app_nil_r.
  - apply IH. by apply elem_of_cons in Hin as [->|].
Qed.

Lemma lookup_pairsOf (m : Values) k : (filter (λ p, p.1 = k) (pairsOf m)).*2 = default [] (m !! k).
Proof.
  unfold pairsOf. fold (pairsAt m). assert (NoDup (sortNames (map_to_list m).*1)) as Hnd.
  { unfold sortNames. rewrite merge_sort_Permutation. apply NoDup_fst_map_to_list. }
  assert (k ∈ sortNames (map_to_list m).*1 ↔ is_Some (m !! k)) as Hin.
  { unfold sortNames. rewrite merge_sort_Permutation, list_elem_of_fmap. split.
    - intros ([k' v] & -> & Hv%elem_of_map_to_list). by exists v.
    - intros [v Hv]. exists (k, v). by rewrite elem_of_map_to_list. }
  destruct (m !! k) as [vs|] eqn:Hk.
  - apply pairs_present; [done| |done]. apply Hin. eauto.
  - apply pairs_absent. rewrite Hin. by intros [? ?].
Qed.

(** What is encoded is parsed back. *)
Lemma ParseQuery_Encode (m : Values) :
  (∀ k vs, m !! k = Some vs → vs ≠ []) → ParseQuery (Encode m) = (m, None).
Proof.
  intros Hne. unfold Encode. rewrite ParseQuery_encode. f_equal. apply map_eq. intros k.
  rewrite lookup_addPairs. simpl. rewrite lookup_pairsOf, lookup_empty. simpl.
  destruct (m !! k) as [vs|] eqn:Hk; [|done]. simpl. specialize (Hne k vs Hk). by destruct vs.
Qed.

(** ** Numbers *)
Lemma digitOf_char d : (d < 10)%N → digitOf (pretty_N_char d) = Some (Z.of_N d).
Proof.
  intros Hd. assert (d ∈ N.of_nat <$> seq 0 10) as Hin.
  { apply list_elem_of_fmap. exists (N.to_nat d). split; [by rewrite N2Nat.id|]. apply elem_of_seq. lia. }
  cbn in Hin. repeat (apply elem_of_cons in Hin as [->|Hin]; [by vm_compute|]). by apply elem_of_nil in Hin.
Qed.

Lemma digitsValue_pretty x s : digitsValue 0 (pretty_N_go x s) = digitsValue (Z.of_N x) s.
Proof.
  revert s. induction (N.lt_wf_0 x) as [x _ IH]; intros s.
  destruct (decide (x = 0)%N) as [->|Hx]; [done|]. rewrite pretty_N_go_step by lia.
  rewrite IH by (apply N.div_lt; lia). cbn [digitsValue]. pose proof (N.mod_lt x 10 ltac:(done)).
  rewrite digitOf_char by done. simpl. f_equal. pose proof (N.div_mod x 10 ltac:(done)). lia.
Qed.

Lemma ParseUint_Format n : 0 ≤ n < 2 ^ 64 → ParseUint (FormatUint n) = Some n.
Proof.
  intros Hn. unfold ParseUint, FormatUint, pretty, pretty_N.
  destruct (decide (Z.to_N n = 0)%N) as [E|E]; [by assert (n = 0) as -> by lia|].
  rewrite decide_False.
  - rewrite digitsValue_pretty. simpl. rewrite Z2N.id by lia. by rewrite (proj2 (Z.ltb_lt _ _)) by lia.
  - intros E'. pose proof (digitsValue_pretty (Z.to_N n) EmptyString) as H. rewrite E' in H. simpl in H.
    injection H as H. lia.
Qed.

Lemma ParseBool_Format b : ParseBool (FormatBool b) = Some b.
Proof. by destruct b; vm_compute. Qed.
