(* ===== verification/Server.v ===== *)
(** * Server: the etcd server (src/etcdserver/server.go)

    The goroutine [run] of the server is a loop over a select statement: [onTick],
    [onReady], [onSync] and [onDone] are its cases.  The other goroutines call Do and
    configure, which block: they are split at the place where they wait, with one function
    for each case of their select.  Node, Storage and Send are interfaces that are given
    to the server; what it calls on them is recorded in the order of the calls.  The store
    and the wait list are the ones of this development.

    [clock i] is the time at which the entry with index [i] is applied.  The JSON text of a
    state of the store is a parameter of the section, with its two directions. *)

From Stdlib Require Import String Ascii.
From S2P Require Import Prelude Wire Raftpb RaftpbCodec Etcdserverpb Raft RaftNode.
From S2P Require Import Paths TtlHeap EtcdError Stats StoreEvent WatcherHub StoreNode Store StoreSave.
From S2P Require Import Wait.

(** ** Strings of a message *)
Definition strOf (bs : list Z) : string :=
  String.string_of_list_ascii ((λ b, ascii_of_N (Z.to_N b)) <$> bs).
Definition bytesOf (s : string) : list Z :=
  (λ c, Z.of_N (N_of_ascii c)) <$> String.list_ascii_of_string s.

Definition DefaultSnapCount : Z := 10000.

Inductive serverErr :=
  | ErrUnknownMethod
  | ErrStopped
  | ErrContext  (** ctx.Err() *)
  | ErrNode  (** of Node.ProposeConfChange *)
  | ErrStore (e : Error).

Record Response := mkResponse {
  resp_Event : option ptr;
  resp_Watcher : option ptr;
  resp_err : option serverErr;
}.
Definition zeroResponse : Response := mkResponse None None None.

(** The calls on the interfaces of the server. *)
Inductive call :=
  | Node_Tick
  | Node_Propose (data : list Z)
  | Node_ProposeConfChange (cc : ConfChange)
  | Node_Step (m : Message)
  | Node_ApplyConfChange (cc : ConfChange)
  | Node_Compact (d : list Z)
  | Node_Stop
  | Storage_Save (st : HardState) (ents : list Entry)
  | Storage_SaveSnap (snap : Snapshot)
  | Storage_Cut
  | Send (msgs : list Message).

Record EtcdServer := mkServer {
  es_w : Wait.List Response;
  es_done : bool;  (** the channel done is closed *)
  es_Store : store;
  es_SnapCount : Z;
  es_raftIndex : Z;
  es_raftTerm : Z;
  es_calls : list call;
}.
#[export] Instance set_es_w : Setter es_w := λ f s,
  mkServer (f (es_w s)) (es_done s) (es_Store s) (es_SnapCount s) (es_raftIndex s) (es_raftTerm s)
    (es_calls s).
#[export] Instance set_es_done : Setter es_done := λ f s,
  mkServer (es_w s) (f (es_done s)) (es_Store s) (es_SnapCount s) (es_raftIndex s) (es_raftTerm s)
    (es_calls s).
#[export] Instance set_es_Store : Setter es_Store := λ f s,
  mkServer (es_w s) (es_done s) (f (es_Store s)) (es_SnapCount s) (es_raftIndex s) (es_raftTerm s)
    (es_calls s).
#[export] Instance set_es_raftIndex : Setter es_raftIndex := λ f s,
  mkServer (es_w s) (es_done s) (es_Store s) (es_SnapCount s) (f (es_raftIndex s)) (es_raftTerm s)
    (es_calls s).
#[export] Instance set_es_raftTerm : Setter es_raftTerm := λ f s,
  mkServer (es_w s) (es_done s) (es_Store s) (es_SnapCount s) (es_raftIndex s) (f (es_raftTerm s))
    (es_calls s).
#[export] Instance set_es_calls : Setter es_calls := λ f s,
  mkServer (es_w s) (es_done s) (es_Store s) (es_SnapCount s) (es_raftIndex s) (es_raftTerm s)
    (f (es_calls s)).

Definition calls (c : call) (s : EtcdServer) : EtcdServer := s <| es_calls ::= (.++ [c]) |>.

(** What start sets before it starts the goroutine. *)
Definition start (s : EtcdServer) : EtcdServer :=
  mkServer NewList false (es_Store s)
    (if es_SnapCount s =? 0 then DefaultSnapCount else es_SnapCount s)
    (es_raftIndex s) (es_raftTerm s) (es_calls s).

Definition Process (m : Message) (s : EtcdServer) : EtcdServer := calls (Node_Step m) s.

Definition Stop (s : EtcdServer) : run EtcdServer :=
  let s := calls Node_Stop s in
  if es_done s then Crash "close of closed channel" else Ret (s <| es_done := true |>).

Definition ServerIndex (s : EtcdServer) : Z := es_raftIndex s.
Definition ServerTerm (s : EtcdServer) : Z := es_raftTerm s.

(** The first of the random numbers that is not 0. *)
Definition GenID (rand : list Z) : option Z := List.find (λ n, negb (n =? 0)) rand.

(** ** Requests *)

(** The zero time of Go is [unixEpoch] before the one of Unix. *)
Definition unixEpoch : Z := 62135596800 * second.
Definition timeUnix (nsec : Z) : Z := unixEpoch + nsec.

Definition getBool (v : option bool) : bool * bool :=
  match v with None => (false, false) | Some b => (b, true) end.

Definition getExpirationTime (r : Request) : Z :=
  if negb (Request_Expiration r =? 0) then timeUnix (Request_Expiration r) else Permanent.

Section server.
Context `{ChildRange}.

(** The function f of apply. *)
Definition respond (res : run (store * (Error + ptr))) : run (store * Response) :=
  '(s, r) ← res;
  Ret (s, match r with
          | inl err => mkResponse None None (Some (ErrStore err))
          | inr ev => mkResponse (Some ev) None None
          end).

(** The event of a Get is only in the response. *)
Definition respondGet (res : run (store * (Error + Event))) : run (store * Response) :=
  '(s, r) ← res;
  match r with
  | inl err => Ret (s, mkResponse None None (Some (ErrStore err)))
  | inr ev =>
      let '(s, ep) := shareEvent ev s in Ret (s, mkResponse (Some ep) None None)
  end.

Definition apply (now : Z) (r : Request) (s : store) : run (store * Response) :=
  let expr := getExpirationTime r in
  let path := strOf (Request_Path r) in
  let val := strOf (Request_Val r) in
  let prevValue := strOf (Request_PrevValue r) in
  let method := strOf (Request_Method r) in
  if bool_decide (method = "POST") then
    respond (storeCreate now path (Request_Dir r) val true expr s)
  else if bool_decide (method = "PUT") then
    let '(exists_, existsSet) := getBool (Request_PrevExist r) in
    if existsSet then
      if exists_ then respond (storeUpdate now path val expr s)
      else respond (storeCreate now path (Request_Dir r) val false expr s)
    else if (Request_PrevIndex r >? 0) || negb (bool_decide (prevValue = EmptyString)) then
      respond (storeCompareAndSwap now path prevValue (Request_PrevIndex r) val expr s)
    else respond (storeSet now path (Request_Dir r) val expr s)
  else if bool_decide (method = "DELETE") then
    if (Request_PrevIndex r >? 0) || negb (bool_decide (prevValue = EmptyString)) then
      respond (storeCompareAndDelete now path prevValue (Request_PrevIndex r) s)
    else respond (storeDelete now path (Request_Dir r) (Request_Recursive r) s)
  else if bool_decide (method = "QGET") then
    respondGet (storeGet now path (Request_Recursive r) (Request_Sorted r) s)
  else if bool_decide (method = "SYNC") then
    s ← DeleteExpiredKeys now (timeUnix (Request_Time r)) s;
    Ret (s, zeroResponse)
  else Ret (s, mkResponse None None (Some ErrUnknownMethod)).

(** ** Do *)

(** A call of Do that has returned, or that waits on a channel. *)
Inductive doing :=
  | DoDone (resp : Response) (err : option serverErr)
  | DoWait (id : Z) (ch : positive).

Definition isConsensus (method : string) : bool :=
  bool_decide (method = "POST") || bool_decide (method = "PUT") || bool_decide (method = "DELETE")
  || bool_decide (method = "QGET").

(** Up to the select statement. *)
Definition Do (now : Z) (r : Request) (s : EtcdServer) : run (EtcdServer * doing) :=
  if Request_ID r =? 0 then Crash "r.Id cannot be 0"
  else
    let r := if bool_decide (strOf (Request_Method r) = "GET") && Request_Quorum r
             then r <| Request_Method := bytesOf "QGET" |> else r in
    let method := strOf (Request_Method r) in
    let path := strOf (Request_Path r) in
    if isConsensus method then
      data ← lift (Request_Marshal r);
      let '(w, ch) := Register (Request_ID r) (es_w s) in
      Ret (calls (Node_Propose data) (s <| es_w := w |>), DoWait (Request_ID r) ch)
    else if bool_decide (method = "GET") then
      if Request_Wait r then
        '(st, wc) ← storeWatch path (Request_Recursive r) (Request_Stream r) (Request_Since r) (es_Store s);
        Ret (s <| es_Store := st |>,
             match wc with
             | inl err => DoDone zeroResponse (Some (ErrStore err))
             | inr wp => DoDone (mkResponse None (Some wp) None) None
             end)
      else
        '(st, resp) ← respondGet (storeGet now path (Request_Recursive r) (Request_Sorted r) (es_Store s));
        Ret (s <| es_Store := st |>,
             match resp_err resp with
             | Some err => DoDone zeroResponse (Some err)
             | None => DoDone resp None
             end)
    else Ret (s, DoDone zeroResponse (Some ErrUnknownMethod)).

(** The cases of the select statement.  A value that is nil is not a Response. *)
Definition doReceive (ch : positive) (s : EtcdServer) : option (run (EtcdServer * doing)) :=
  '(x, w) ← receiveFrom ch (es_w s);
  Some (match x with
        | None => Crash "interface conversion: interface is nil, not etcdserver.Response"
        | Some resp => Ret (s <| es_w := w |>, DoDone resp (resp_err resp))
        end).

Definition doContext (id : Z) (s : EtcdServer) : run (EtcdServer * doing) :=
  w ← Trigger id None (es_w s);
  Ret (s <| es_w := w |>, DoDone zeroResponse (Some ErrContext)).

Definition doStopped (s : EtcdServer) : option doing :=
  if es_done s then Some (DoDone zeroResponse (Some ErrStopped)) else None.

(** ** Configuration changes *)
Definition AddNode (genID : Z) (id : Z) (context : list Z) : ConfChange :=
  mkConfChange genID ConfChangeAddNode id context [].
Definition RemoveNode (genID : Z) (id : Z) : ConfChange :=
  mkConfChange genID ConfChangeRemoveNode id [] [].

(** A call of configure that has returned, or that waits. *)
Inductive configuring :=
  | ConfDone (err : option serverErr)
  | ConfWait (id : Z) (ch : positive).

(** [failed]: ProposeConfChange returns an error. *)
Definition configure (failed : bool) (cc : ConfChange) (s : EtcdServer)
  : run (EtcdServer * configuring) :=
  let '(w, ch) := Register (ConfChange_ID cc) (es_w s) in
  let s := calls (Node_ProposeConfChange cc) (s <| es_w := w |>) in
  if failed then
    w ← Trigger (ConfChange_ID cc) None (es_w s);
    Ret (s <| es_w := w |>, ConfDone (Some ErrNode))
  else Ret (s, ConfWait (ConfChange_ID cc) ch).

Definition confReceive (ch : positive) (s : EtcdServer) : option (EtcdServer * configuring) :=
  '(_, w) ← receiveFrom ch (es_w s); Some (s <| es_w := w |>, ConfDone None).

Definition confContext (id : Z) (s : EtcdServer) : run (EtcdServer * configuring) :=
  w ← Trigger id None (es_w s);
  Ret (s <| es_w := w |>, ConfDone (Some ErrContext)).

Definition confStopped (s : EtcdServer) : option configuring :=
  if es_done s then Some (ConfDone (Some ErrStopped)) else None.

(** ** The loop *)
Section loop.
Context (marshalStore : jstore → list Z) (unmarshalStore : list Z → option jstore).
Context (clock : Z → Z).

(** The local variables of run; [lv_syncC] says whether syncC is the SyncTicker or nil. *)
Record loopVars := mkVars { lv_syncC : bool; lv_snapi : Z; lv_appliedi : Z }.

Definition bad {A} : run A := Crash "TODO: this is bad, what do we do about it?".

(** One turn of the loop over the committed entries. *)
Definition applyEntry (e : Entry) (st : EtcdServer * Z) : run (EtcdServer * Z) :=
  let '(s, _) := st in
  let data := Entry_Data e in
  s ← (if Entry_Type e =? EntryNormal then
         '(r, err) ← Request_Unmarshal (S (length data)) data zeroRequest;
         match err with
         | Some _ => bad
         | None =>
             '(store, resp) ← apply (clock (Entry_Index e)) r (es_Store s);
             w ← Trigger (Request_ID r) (Some resp) (es_w s);
             Ret (s <| es_Store := store |> <| es_w := w |>)
         end
       else if Entry_Type e =? EntryConfChange then
         '(cc, err) ← ConfChange_Unmarshal (S (length data)) data zeroConfChange;
         match err with
         | Some _ => bad
         | None =>
             let s := calls (Node_ApplyConfChange cc) s in
             w ← Trigger (ConfChange_ID cc) None (es_w s);
             Ret (s <| es_w := w |>)
         end
       else Crash "unexpected entry type");
  Ret (s <| es_raftIndex := Entry_Index e |> <| es_raftTerm := Entry_Term e |>, Entry_Index e).

Definition snapshotStore (s : EtcdServer) : run EtcdServer :=
  d ← Save (es_Store s);
  Ret (calls Storage_Cut (calls (Node_Compact (marshalStore d)) s)).

Definition onTick (s : EtcdServer) : EtcdServer := calls Node_Tick s.

(** The case of a Ready: the server, the variables, and whether run returns. *)
Definition onReady (rd : Ready) (s : EtcdServer) (v : loopVars) : run (EtcdServer * loopVars * bool) :=
  let s := calls (Storage_Save (rd_HardState rd) (rd_Entries rd)) s in
  let s := calls (Storage_SaveSnap (rd_Snapshot rd)) s in
  let s := calls (Send (rd_Messages rd)) s in
  '(s, appliedi) ← forEach applyEntry (rd_CommittedEntries rd) (s, lv_appliedi v);
  let snapi := if Snapshot_Index (rd_Snapshot rd) >? lv_snapi v
               then Snapshot_Index (rd_Snapshot rd) else lv_snapi v in
  '(s, appliedi) ←
    (if Snapshot_Index (rd_Snapshot rd) >? appliedi then
       match unmarshalStore (Snapshot_Data (rd_Snapshot rd)) with
       | None => bad
       | Some state =>
           store ← Recovery state (es_Store s);
           Ret (s <| es_Store := store |>, Snapshot_Index (rd_Snapshot rd))
       end
     else Ret (s, appliedi));
  '(s, snapi) ←
    (if int64 (appliedi - snapi) >? es_SnapCount s then
       s ← snapshotStore s; Ret (s, appliedi)
     else Ret (s, snapi));
  match rd_SoftState rd with
  | None => Ret (s, mkVars (lv_syncC v) snapi appliedi, false)
  | Some ss =>
      let v := mkVars (bool_decide (RaftState ss = StateLeader)) snapi appliedi in
      if ShouldStop ss then s ← Stop s; Ret (s, v, true) else Ret (s, v, false)
  end.

(** The case of the SyncTicker; [now] is the time, [genID] a new id. *)
Definition onSync (now genID : Z) (s : EtcdServer) : run EtcdServer :=
  let req := zeroRequest <| Request_Method := bytesOf "SYNC" |> <| Request_ID := genID |>
               <| Request_Time := int64 (now - unixEpoch) |> in
  data ← lift (Request_Marshal req);
  Ret (calls (Node_Propose data) s).

(** The case of the channel done: run returns. *)
Definition onDone (s : EtcdServer) : bool := es_done s.
End loop.
End server.
