(* ===== verification/Http.v ===== *)
(** * Http: the HTTP interface of the server (src/etcdserver/etcdhttp/http.go)

    A request of net/http is its method, the path and the raw query of its URL, and its
    body; a response is what was written to the ResponseWriter.  [ParseForm] and [FormValue]
    are the methods of net/http.  The text of strconv.Quote, which is part of the cause of
    one error, is a parameter. *)

From stdpp Require Import pretty.
From Stdlib Require Import String Ascii.
From S2P Require Import Prelude Wire Raftpb RaftpbCodec Etcdserverpb.
From S2P Require Import Paths TtlHeap EtcdError StoreEvent WatcherHub StoreNode Store.
From S2P Require Import Wait Url Server.

Definition keysPrefix : string := "/v2/keys".

(** ** Requests of net/http *)
Record httpRequest := mkHttpRequest {
  hr_Method : string;
  hr_Path : string;
  hr_RawQuery : string;
  hr_isForm : bool;  (** the content type is application/x-www-form-urlencoded *)
  hr_Body : string;
}.

Definition maxFormSize : Z := 10 * 2 ^ 20.

Definition copyValues (dst src : Values) : Values :=
  union_with (λ a b, Some (a ++ b)) dst src.

Section http.
(** strconv.Quote *)
Context (quote : string → string).

Definition escapeError (s : string) : string := ("invalid URL escape " ++ quote s)%string.

Definition parsePostForm (r : httpRequest) : Values * option string :=
  if negb (hr_isForm r) then (∅, None)
  else if maxFormSize <? Z.of_nat (String.length (hr_Body r)) then (∅, Some "http: POST too large"%string)
  else let '(m, err) := ParseQuery (hr_Body r) in (m, escapeError <$> err).

(** The form, and the error. *)
Definition ParseForm (r : httpRequest) : Values * option string :=
  let '(post, err) :=
    if bool_decide (hr_Method r ∈ ["POST"; "PUT"; "PATCH"]) then parsePostForm r else (∅, None) in
  let '(query, e) := ParseQuery (hr_RawQuery r) in
  (copyValues post query, match err with Some _ => err | None => escapeError <$> e end).

Definition FormValue (key : string) (form : Values) : string :=
  default EmptyString (head (default [] (form !! key))).

(** ** Parameters *)

(** [None] for an error. *)
Definition getUint64 (form : Values) (key : string) : option Z :=
  match form !! key with
  | Some vals => ParseUint (default EmptyString (head vals))
  | None => Some 0
  end.

Definition getFormBool (form : Values) (key : string) : option bool :=
  match form !! key with
  | Some vals => ParseBool (default EmptyString (head vals))
  | None => Some false
  end.

(** [if err != nil { return emptyReq, NewRequestError(code, cause) }]. *)
Definition orFail {A B} (code : Z) (cause : string) (x : option A) (k : A → Error + B) : Error + B :=
  match x with
  | Some a => k a
  | None => inl (NewRequestError code cause)
  end.
Definition failIf {B} (b : bool) (code : Z) (cause : string) (k : Error + B) : Error + B :=
  if b then inl (NewRequestError code cause) else k.

(** [r.URL.Path[len(keysPrefix):]]. *)
Definition dropPrefix (p : string) : string :=
  String.substring (String.length keysPrefix) (String.length p - String.length keysPrefix) p.

(** [time.Now().Add(time.Duration(ttl) * time.Second).UnixNano()]. *)
Definition expirationAfter (now ttl : Z) : Z :=
  let expr := int64 (int64 ttl * second) in
  int64 (now + expr - unixEpoch).

Definition parseRequest (now id : Z) (r : httpRequest) : Error + Request :=
  let '(form, err) := ParseForm r in
  match err with
  | Some text => inl (NewRequestError EcodeInvalidForm text)
  | None =>
      failIf (negb (HasPrefix (hr_Path r) keysPrefix)) EcodeInvalidForm "incorrect key prefix" $
      let p := dropPrefix (hr_Path r) in
      let field name := ("invalid value for " ++ String (ascii_of_nat 34) EmptyString ++ name ++
                         String (ascii_of_nat 34) EmptyString)%string in
      let quoted name text := (String (ascii_of_nat 34) EmptyString ++ name ++
                               String (ascii_of_nat 34) EmptyString ++ text)%string in
      orFail EcodeIndexNaN (field "prevIndex") (getUint64 form "prevIndex") $ λ pIdx,
      orFail EcodeIndexNaN (field "waitIndex") (getUint64 form "waitIndex") $ λ wIdx,
      orFail EcodeInvalidField (field "recursive") (getFormBool form "recursive") $ λ rec,
      orFail EcodeInvalidField (field "sorted") (getFormBool form "sorted") $ λ sort,
      orFail EcodeInvalidField (field "wait") (getFormBool form "wait") $ λ wait,
      orFail EcodeInvalidField (field "dir") (getFormBool form "dir") $ λ dir,
      orFail EcodeInvalidField (field "stream") (getFormBool form "stream") $ λ stream,
      failIf (wait && negb (bool_decide (hr_Method r = "GET"))) EcodeInvalidField
        (quoted "wait" " can only be used with GET requests") $
      let pV := FormValue "prevValue" form in
      failIf (bool_decide (is_Some (form !! "prevValue")) && bool_decide (pV = EmptyString))
        EcodeInvalidField (quoted "prevValue" " cannot be empty") $
      orFail EcodeTTLNaN (field "ttl")
        (if (0 <? String.length (FormValue "ttl" form))%nat then Some <$> getUint64 form "ttl"
         else Some None) $ λ ttl,
      orFail EcodeInvalidField "invalid value for prevExist"
        (if bool_decide (is_Some (form !! "prevExist")) then Some <$> getFormBool form "prevExist"
         else Some None) $ λ pe,
      let rr := mkRequest id (bytesOf (hr_Method r)) (bytesOf p) (bytesOf (FormValue "value" form))
                  dir (bytesOf pV) pIdx pe 0 wait wIdx rec sort false 0 stream [] in
      inr (match ttl with
           | Some ttl => rr <| Request_Expiration := expirationAfter now ttl |>
           | None => rr
           end)
  end.

(** ** Responses *)

(** What is written as the body. *)
Inductive body :=
  | Text (s : string)
  | EventJSON (e : Event)
  | ErrorJSON (e : Error).

Record writer := mkWriter {
  rw_header : gmap string string;
  rw_status : option Z;  (** set by the first WriteHeader *)
  rw_body : list body;
}.
Definition newWriter : writer := mkWriter ∅ None [].

#[export] Instance set_rw_header : Setter rw_header := λ f w,
  mkWriter (f (rw_header w)) (rw_status w) (rw_body w).
#[export] Instance set_rw_status : Setter rw_status := λ f w,
  mkWriter (rw_header w) (f (rw_status w)) (rw_body w).
#[export] Instance set_rw_body : Setter rw_body := λ f w,
  mkWriter (rw_header w) (rw_status w) (f (rw_body w)).

Definition WriteHeader (code : Z) (w : writer) : writer :=
  w <| rw_status ::= λ s, match s with None => Some code | s => s end |>.

(** A body without a status has the status 200. *)
Definition writeBody (b : body) (w : writer) : writer :=
  (WriteHeader 200 w) <| rw_body ::= (.++ [b]) |>.

Definition header (key value : string) (w : writer) : writer := w <| rw_header ::= <[key := value]> |>.

(** [http.Error(w, text, code)]. *)
Definition httpError (text : string) (code : Z) (w : writer) : writer :=
  writeBody (Text text) (WriteHeader code (header "Content-Type" "text/plain; charset=utf-8" w)).

(** An error of the server or of the store. *)
Definition writeError (err : serverErr) (w : writer) : writer :=
  match err with
  | ErrStore e =>
      writeBody (ErrorJSON e) (WriteHeader (writeStatus e) (header "X-Etcd-Index" (pretty (Error_Index e)) w))
  | _ => httpError "Internal Server Error" 500 w
  end.

(** [rt] gives the index and the term of the server. *)
Definition writeEvent (ev : Event) (rt : Z * Z) (w : writer) : writer :=
  let w := header "Content-Type" "application/json" w in
  let w := header "X-Etcd-Index" (pretty (e_EtcdIndex ev)) w in
  let w := header "X-Raft-Index" (pretty rt.1) w in
  let w := header "X-Raft-Term" (pretty rt.2) w in
  let w := if IsCreated ev then WriteHeader 201 w else w in
  writeBody (EventJSON ev) w.

Definition allowMethod (m : string) (ms : list string) (w : writer) : writer * bool :=
  if bool_decide (m ∈ ms) then (w, true)
  else (httpError "Method Not Allowed" 405 (header "Allow" (String.concat "," ms) w), false).

(** ** Watching *)

(** handleWatch up to its loop. *)
Definition watchStart (rt : Z * Z) (w : writer) : writer :=
  let w := header "Content-Type" "application/json" w in
  let w := header "X-Raft-Index" (pretty rt.1) w in
  let w := header "X-Raft-Term" (pretty rt.2) w in
  WriteHeader 200 w.

(** What the select statement of handleWatch finds ready. *)
Inductive watchInput :=
  | ClientClosed
  | TimedOut
  | EventChan.

(** A return of handleWatch, which removes the watcher [wp]. *)
Definition watchReturn (wp : ptr) (w : writer) (h : watcherHub) : run (writer * watcherHub * bool) :=
  h ← lift (Remove wp h); Ret (w, h, false).

(** One turn of the loop, and whether there is another. *)
Definition watchStep (stream : bool) (wp : ptr) (input : watchInput) (w : writer) (h : watcherHub)
  : run (writer * watcherHub * bool) :=
  match input with
  | ClientClosed | TimedOut => watchReturn wp w h
  | EventChan =>
      match receive wp h with
      | Some (ep, h) =>
          ev ← lift (deref (wh_events h !! ep));
          let w := writeBody (EventJSON ev) w in
          if negb stream then watchReturn wp w h else Ret (w, h, true)
      | None =>
          wa ← lift (deref (wh_all h !! wp));
          if w_closed wa then watchReturn wp w h else Ret (w, h, true)
      end
  end.

(** ** Handlers *)

(** serveKeys up to the call of Do: the request for it, or the response. *)
Definition serveKeys (now genID : Z) (r : httpRequest) (w : writer) : writer + Request :=
  let '(w, ok) := allowMethod (hr_Method r) ["GET"; "PUT"; "POST"; "DELETE"] w in
  if negb ok then inl w
  else
    match parseRequest now genID r with
    | inl err => inl (writeError (ErrStore err) w)
    | inr rr => inr rr
    end.

(** The rest of serveKeys, once Do returned [resp] and [err]: the response, or a watcher
    for handleWatch. *)
Definition serveResult (events : gmap ptr Event) (rt : Z * Z) (resp : Response) (err : option serverErr)
    (w : writer) : run (writer + ptr) :=
  match err with
  | Some err => Ret (inl (writeError err w))
  | None =>
      match resp_Event resp, resp_Watcher resp with
      | Some ep, _ => ev ← lift (deref (events !! ep)); Ret (inl (writeEvent ev rt w))
      | None, Some wp => Ret (inr wp)
      | None, None => Ret (inl (httpError "Internal Server Error" 500 w))
      end
  end.

Definition serveMachines (method : string) (clientURLs : list string) (w : writer) : writer :=
  let '(w, ok) := allowMethod method ["GET"; "HEAD"] w in
  if ok then writeBody (Text (String.concat ", " clientURLs)) w else w.

(** The message for Process, or the response. *)
Definition serveRaft (method : string) (b : list Z) (w : writer) : run (writer + Message) :=
  let '(w, ok) := allowMethod method ["POST"] w in
  if negb ok then Ret (inl w)
  else
    '(m, err) ← Message_Unmarshal (S (length b)) b zeroMessage;
    match err with
    | Some _ => Ret (inl (httpError "error unmarshaling raft message" 400 w))
    | None => Ret (inr m)
    end.

Definition serveRaftResult (failed : bool) (w : writer) : writer :=
  if failed then writeError ErrNode w else WriteHeader 204 w.
End http.
