(* ===== verification/Client.v ===== *)
(** * Client: the HTTP client (src/client/http.go)

    The requests that the client builds, what it makes of the status of a response, and the
    loop over a watch.  The URL is its path and its raw query; what the server reads from
    the connection is the path and the query of the URL. *)

From stdpp Require Import pretty.
From Stdlib Require Import String Ascii.
From S2P Require Import Prelude Wire Raftpb RaftpbCodec Etcdserverpb.
From S2P Require Import Paths TtlHeap EtcdError StoreEvent WatcherHub HubNotify StoreNode Store.
From S2P Require Import Wait Url Server Http.

Definition v2Prefix : string := "/v2/keys".

(** The part of a [url.URL] that the client uses. *)
Record URL := mkURL { u_Path : string; u_RawQuery : string }.

(** [path.Join(a, b, c)] with [b] not empty. *)
Definition Join3 (a b c : string) : string :=
  if decide (a = EmptyString) then Clean (b ++ String slash c)%string
  else Clean (a ++ String slash (b ++ String slash c))%string.

Definition v2URL (ep : URL) (key : string) : URL := mkURL (Join3 (u_Path ep) v2Prefix key) (u_RawQuery ep).

(** [u.Query()]: what can be parsed. *)
Definition Query (u : URL) : Values := (ParseQuery (u_RawQuery u)).1.

(** ** Actions *)
Record getAction := mkGet { ga_Key : string; ga_Recursive : bool }.
Definition getRequest (g : getAction) (ep : URL) : httpRequest :=
  let u := v2URL ep (ga_Key g) in
  let params := valuesSet "recursive" (FormatBool (ga_Recursive g)) (Query u) in
  mkHttpRequest "GET" (u_Path u) (Encode params) false EmptyString.

Record waitAction := mkWait { wa_Key : string; wa_WaitIndex : Z; wa_Recursive : bool }.
Definition waitRequest (w : waitAction) (ep : URL) : httpRequest :=
  let u := v2URL ep (wa_Key w) in
  let params := valuesSet "wait" "true" (Query u) in
  let params := valuesSet "waitIndex" (FormatUint (wa_WaitIndex w)) params in
  let params := valuesSet "recursive" (FormatBool (wa_Recursive w)) params in
  mkHttpRequest "GET" (u_Path u) (Encode params) false EmptyString.

Record createAction := mkCreate { ca_Key : string; ca_Value : string; ca_TTL : option Z }.
Definition createForm (c : createAction) : Values :=
  let form := valuesAdd "value" (ca_Value c) ∅ in
  match ca_TTL c with
  | Some ttl => valuesAdd "ttl" (FormatUint ttl) form
  | None => form
  end.
Definition createRequest (c : createAction) (ep : URL) : httpRequest :=
  let u := v2URL ep (ca_Key c) in
  let params := valuesSet "prevExist" "false" (Query u) in
  mkHttpRequest "PUT" (u_Path u) (Encode params) true (Encode (createForm c)).

(** The implementations of httpAction. *)
Inductive httpAction :=
  | ActGet (g : getAction)
  | ActWait (w : waitAction)
  | ActCreate (c : createAction).

Definition actionRequest (a : httpAction) (ep : URL) : httpRequest :=
  match a with
  | ActGet g => getRequest g ep
  | ActWait w => waitRequest w ep
  | ActCreate c => createRequest c ep
  end.

(** [uint64(ttl.Seconds())] for a number of whole seconds that is not negative. *)
Definition durationSeconds (ttl : Z) : Z := ttl / second.

(** ** Responses *)
Inductive clientErr :=
  | ErrNoLeader
  | ErrKeyNoExist
  | ErrKeyExists
  | ErrStatus (code : Z)
  | ErrTransport (text : string)
  | ErrJSON (text : string).

(** client.Node and client.Response. *)
Inductive cnode := mkCNode {
  cn_Key : string;
  cn_Value : string;
  cn_Nodes : list cnode;
  cn_ModifiedIndex : Z;
  cn_CreatedIndex : Z;
}.
Record cresponse := mkCResponse {
  cr_Action : string;
  cr_Node : option cnode;
  cr_PrevNode : option cnode;
}.

Definition unmarshalErrorResponse (code : Z) : clientErr :=
  if code =? 404 then ErrKeyNoExist
  else if code =? 412 then ErrKeyExists
  else if code =? 500 then ErrNoLeader
  else ErrStatus code.

(** ** The client

    [roundTrip] sends a request to the endpoint, whose state is of type [E], and gives an
    error or the status and the body of the response; [unmarshal] reads the JSON text of a
    body. *)
Section client.
Context {E T : Type} (roundTrip : httpRequest → E → E * (string + Z * T)).
Context (unmarshal : T → string + cresponse) (ep : URL).

Definition unmarshalSuccessfulResponse (body : T) : clientErr + cresponse :=
  match unmarshal body with
  | inl text => inl (ErrJSON text)
  | inr res => inr res
  end.

Definition unmarshalHTTPResponse (code : Z) (body : T) : clientErr + cresponse :=
  if (code =? 200) || (code =? 201) then unmarshalSuccessfulResponse body
  else inl (unmarshalErrorResponse code).

(** The method do and what its callers make of its result. *)
Definition perform (act : httpAction) (e : E) : E * (clientErr + cresponse) :=
  let '(e, r) := roundTrip (actionRequest act ep) e in
  (e, match r with
      | inl text => inl (ErrTransport text)
      | inr (code, body) => unmarshalHTTPResponse code body
      end).

Definition newCreate (key val : string) (ttl : Z) : createAction :=
  mkCreate key val (Some (durationSeconds ttl)).
Definition clientCreate (key val : string) (ttl : Z) (e : E) : E * (clientErr + cresponse) :=
  perform (ActCreate (newCreate key val ttl)) e.

Definition clientGet (key : string) (e : E) : E * (clientErr + cresponse) :=
  perform (ActGet (mkGet key false)) e.

(** A watcher is its next wait. *)
Definition clientWatch (key : string) (idx : Z) : waitAction := mkWait key idx false.
Definition clientRecursiveWatch (key : string) (idx : Z) : waitAction := mkWait key idx true.

Definition clientNext (hw : waitAction) (e : E) : run (E * waitAction * (clientErr + cresponse)) :=
  let '(e, r) := perform (ActWait hw) e in
  match r with
  | inl err => Ret (e, hw, inl err)
  | inr resp =>
      node ← lift (deref (cr_Node resp));
      Ret (e, mkWait (wa_Key hw) (uint64 (cn_ModifiedIndex node + 1)) (wa_Recursive hw), inr resp)
  end.
End client.

(** ** What the server makes of the requests *)
Definition noPath : URL := mkURL EmptyString EmptyString.

Lemma prefix_append (a b : string) : HasPrefix (a ++ b) a = true.
Proof.
  unfold HasPrefix. induction a as [|c a IH]; [by destruct b|]. rewrite append_cons.
  cbn [String.prefix]. by destruct (ascii_dec c c).
Qed.

Lemma v2URL_path names :
  names ≠ [] → Forall name_ok names →
  u_Path (v2URL noPath (pathOf names)) = (keysPrefix ++ pathOf names)%string.
Proof.
  intros Hne Hok. unfold v2URL, Join3, noPath. cbn [u_Path]. rewrite decide_True by done.
  change (v2Prefix ++ String slash (pathOf names))%string
    with (String slash ("v2" ++ String slash ("keys" ++ String slash (pathOf names)))).
  rewrite Clean_rooted. unfold parts.
  rewrite (split_app "v2"), (split_app "keys"), split_pathOf by done.
  assert (cleanNames true ("v2" :: "keys" :: EmptyString :: names) = "v2" :: "keys" :: names) as ->.
  { unfold cleanNames. cbn [foldl].
    rewrite (cleanStep_keep _ _ "v2"), (cleanStep_keep _ _ "keys") by by split.
    unfold cleanStep at 2. rewrite decide_True by by left. rewrite foldl_cleanStep by done.
    by rewrite reverse_app, reverse_involutive. }
  unfold pathOf. rewrite !joinSlash_cons by done. done.
Qed.

Lemma dropPrefix_path p : dropPrefix (keysPrefix ++ p)%string = p.
Proof. apply substring_skip. Qed.

(** The parameters of an action, as they arrive. *)
Lemma values_nonempty (l : list (string * string)) (m : Values) :
  (∀ k vs, m !! k = Some vs → vs ≠ []) →
  ∀ k vs, foldl (λ m p, valuesSet p.1 p.2 m) m l !! k = Some vs → vs ≠ [].
Proof.
  revert m. induction l as [|[x v] l IH]; intros m Hm; [done|]. apply IH. intros k vs.
  unfold valuesSet. simpl. rewrite lookup_insert_Some. intros [[_ <-]|[_ ?]]; [done|by eapply Hm].
Qed.

Lemma no_values (k : string) (vs : list string) : (∅ : Values) !! k = Some vs → vs ≠ [].
Proof. by rewrite lookup_empty. Qed.

Lemma createForm_nonempty c k vs : createForm c !! k = Some vs → vs ≠ [].
Proof.
  unfold createForm, valuesAdd. destruct (ca_TTL c); rewrite ?lookup_insert_Some, ?lookup_empty.
  - intros [[_ <-]|[_ [[_ <-]|[_ ?]]]]; [by destruct (default _ _)|by destruct (default _ _)|done].
  - intros [[_ <-]|[_ ?]]; [by destruct (default _ _)|done].
Qed.

(** The form of a request with a body and of one without. *)
Lemma ParseForm_get quote path m :
  (∀ k vs, m !! k = Some vs → vs ≠ []) →
  ParseForm quote (mkHttpRequest "GET" path (Encode m) false EmptyString) = (m, None).
Proof.
  intros Hm. unfold ParseForm. cbn [hr_Method hr_RawQuery]. rewrite ParseQuery_Encode by done.
  rewrite bool_decide_false by (rewrite !elem_of_cons, elem_of_nil; naive_solver).
  unfold copyValues. by rewrite (left_id ∅ _).
Qed.

Lemma ParseForm_put quote path m form :
  (∀ k vs, m !! k = Some vs → vs ≠ []) → (∀ k vs, form !! k = Some vs → vs ≠ []) →
  Z.of_nat (String.length (Encode form)) ≤ maxFormSize →
  ParseForm quote (mkHttpRequest "PUT" path (Encode m) true (Encode form)) = (copyValues form m, None).
Proof.
  intros Hm Hf Hlen. unfold ParseForm, parsePostForm. cbn [hr_Method hr_RawQuery hr_isForm hr_Body].
  rewrite bool_decide_true by (rewrite !elem_of_cons; naive_solver). cbn [negb].
  rewrite (proj2 (Z.ltb_ge _ _)) by done. by rewrite !ParseQuery_Encode by done.
Qed.

(** The lookups of the keys of a form. *)
Ltac look_up :=
  repeat match goal with
  | |- context [@lookup ?K ?A ?M ?i ?k ?m] =>
      let v := eval vm_compute in (@lookup K A M i k m) in
      change (@lookup K A M i k m) with v
  end.

Section parsed.
Context (quote : string → string) (now id : Z) (names : list string).
Context (Hne : names ≠ []) (Hok : Forall name_ok names).

Lemma get_parsed recursive :
  parseRequest quote now id (getRequest (mkGet (pathOf names) recursive) noPath) =
  inr (mkRequest id (bytesOf "GET") (bytesOf (pathOf names)) [] false [] 0 None 0 false 0 recursive
         false false 0 false []).
Proof.
  unfold parseRequest, getRequest. cbn [ga_Key ga_Recursive].
  rewrite ParseForm_get by exact (values_nonempty [("recursive", _)] ∅ no_values).
  cbn [hr_Method hr_Path]. rewrite v2URL_path, prefix_append, dropPrefix_path by done.
  by destruct recursive; vm_compute.
Qed.

Lemma wait_parsed i recursive :
  0 ≤ i < 2 ^ 64 →
  parseRequest quote now id (waitRequest (mkWait (pathOf names) i recursive) noPath) =
  inr (mkRequest id (bytesOf "GET") (bytesOf (pathOf names)) [] false [] 0 None 0 true i recursive
         false false 0 false []).
Proof.
  intros Hi. pose proof (ParseUint_Format i Hi) as Hp. unfold parseRequest, waitRequest.
  cbn [wa_Key wa_Recursive wa_WaitIndex]. generalize dependent (FormatUint i). intros s Hp.
  rewrite ParseForm_get
    by exact (values_nonempty [("wait", _); ("waitIndex", _); ("recursive", _)] ∅ no_values).
  cbn [hr_Method hr_Path]. rewrite v2URL_path, prefix_append, dropPrefix_path by done.
  unfold getUint64, getFormBool, FormValue. unfold Query, v2URL, noPath. cbn [u_RawQuery].
  destruct recursive; look_up; cbn [default head Datatypes.id]; rewrite Hp; by vm_compute.
Qed.

Lemma create_parsed value ttl :
  (∀ n, ttl = Some n → 0 ≤ n < 2 ^ 64) →
  let c := mkCreate (pathOf names) value ttl in
  Z.of_nat (String.length (Encode (createForm c))) ≤ maxFormSize →
  parseRequest quote now id (createRequest c noPath) =
  inr (mkRequest id (bytesOf "PUT") (bytesOf (pathOf names)) (bytesOf value) false [] 0 (Some false)
         (match ttl with Some n => expirationAfter now n | None => 0 end)
         false 0 false false false 0 false []).
Proof.
  intros Httl c Hlen. unfold parseRequest, createRequest.
  rewrite ParseForm_put
    by (exact (values_nonempty [("prevExist", _)] ∅ no_values) || apply createForm_nonempty || done).
  clear Hlen. subst c. cbn [hr_Method hr_Path ca_Key].
  rewrite v2URL_path, prefix_append, dropPrefix_path by done.
  unfold createForm, getUint64, getFormBool, FormValue, Query, v2URL, noPath.
  cbn [u_RawQuery ca_Value ca_TTL]. destruct ttl as [ttl|]; [|by vm_compute].
  pose proof (ParseUint_Format ttl (Httl ttl eq_refl)) as Hp. clear Httl.
  generalize dependent (FormatUint ttl). intros [|a s] Hp; [done|].
  look_up. cbn [default head Datatypes.id from_option]. rewrite Hp.
  generalize (expirationAfter now). intros f. by vm_compute.
Qed.
End parsed.

(** What the client means: the request of the server that says the same. *)
Definition intended (now id : Z) (a : httpAction) : Request :=
  let r := zeroRequest <| Request_ID := id |> in
  match a with
  | ActGet g =>
      r <| Request_Method := bytesOf "GET" |> <| Request_Path := bytesOf (ga_Key g) |>
        <| Request_Recursive := ga_Recursive g |>
  | ActWait w =>
      r <| Request_Method := bytesOf "GET" |> <| Request_Path := bytesOf (wa_Key w) |>
        <| Request_Recursive := wa_Recursive w |> <| Request_Wait := true |>
        <| Request_Since := wa_WaitIndex w |>
  | ActCreate c =>
      let r := r <| Request_Method := bytesOf "PUT" |> <| Request_Path := bytesOf (ca_Key c) |>
                 <| Request_Val := bytesOf (ca_Value c) |> <| Request_PrevExist := Some false |> in
      match ca_TTL c with
      | Some ttl => r <| Request_Expiration := expirationAfter now ttl |>
      | None => r
      end
  end.

Definition actionKey (a : httpAction) : string :=
  match a with ActGet g => ga_Key g | ActWait w => wa_Key w | ActCreate c => ca_Key c end.

(** The numbers are of type uint64, and the form is not larger than the server reads. *)
Definition action_ok (a : httpAction) : Prop :=
  match a with
  | ActGet _ => True
  | ActWait w => 0 ≤ wa_WaitIndex w < 2 ^ 64
  | ActCreate c => (∀ ttl, ca_TTL c = Some ttl → 0 ≤ ttl < 2 ^ 64) ∧
      Z.of_nat (String.length (Encode (createForm c))) ≤ maxFormSize
  end.



(** ** The time to live *)
Lemma wrapS_cong w a b : a mod 2 ^ w = b mod 2 ^ w → wrapS w a = wrapS w b.
Proof. unfold wrapS. by intros ->. Qed.

Lemma wrapS_mod w a : 0 ≤ w → wrapS w a mod 2 ^ w = a mod 2 ^ w.
Proof.
  intros Hw. unfold wrapS. case_match; [by rewrite Z.mod_mod by lia|].
  rewrite <-(Z.mod_add _ 1), Z.mul_1_l, Z.sub_add, Z.mod_mod by lia. done.
Qed.

Lemma wrapS_range w a : 0 < w → inS w (wrapS w a).
Proof.
  intros Hw. unfold wrapS, inS. pose proof (Z.mod_pos_bound a (2 ^ w)) as Hb.
  assert (2 ^ w = 2 * 2 ^ (w - 1)) as Hp by (rewrite <-Z.pow_succ_r by lia; f_equal; lia).
  destruct (_ <? _) eqn:E; to_prop; lia.
Qed.

Lemma expirationAfter_sum now ttl : expirationAfter now ttl = int64 (now - unixEpoch + ttl * second).
Proof.
  apply wrapS_cong.
  replace (now + int64 (int64 ttl * second) - unixEpoch)
    with (int64 (int64 ttl * second) + (now - unixEpoch)) by lia.
  rewrite <-Z.add_mod_idemp_l, wrapS_mod, <-Z.mul_mod_idemp_l, wrapS_mod, Z.mul_mod_idemp_l,
    Z.add_mod_idemp_l by lia. f_equal. lia.
Qed.

(** C34. The expiration that the server computes for a ttl is the ttl in seconds after now
    exactly when that time, in nanoseconds since 1970, is less than 2^63: for a longer ttl
    the multiplication or the sum wraps around. *)
Theorem ttl_exact now ttl :
  unixEpoch ≤ now → 0 ≤ ttl < 2 ^ 64 →
  timeUnix (expirationAfter now ttl) = now + ttl * second ↔ now - unixEpoch + ttl * second < 2 ^ 63.
Proof.
  intros Hnow Httl. rewrite expirationAfter_sum. unfold timeUnix.
  pose proof (wrapS_range 64 (now - unixEpoch + ttl * second) eq_refl) as [_ Hr].
  split; [change (64 - 1) with 63 in Hr; lia|]. intros Hlt. rewrite wrapS_id; [lia|done|].
  split; [unfold second in *; lia|done].
Qed.

(** A minute, and 585 years. *)
Lemma ttl_exact_witness :
  let now := unixEpoch + 1412121600 * second in
  timeUnix (expirationAfter now 60) = now + 60 * second ∧
  timeUnix (expirationAfter now 18446744074) ≠ now + 18446744074 * second.
Proof.
  intros now. split.
  - apply (ttl_exact now 60); unfold now, unixEpoch, second; lia.
  - intros E. apply (ttl_exact now 18446744074) in E; unfold now, unixEpoch, second in *; lia.
Defined.
