(* ===== verification/Routes.v ===== *)
(** * Routes: which handler serves a request (src/etcdserver/etcdhttp/http.go)

    NewClientHandler and NewPeerHandler make a ServeMux of net/http: a table of patterns, of
    which the longest one that matches a path decides.  A path that is not clean is answered
    with a redirect to the clean one.  What the client asks for reaches serveKeys. *)

From stdpp Require Import pretty sorting.
From Stdlib Require Import String Ascii.
From S2P Require Import Prelude Wire Raftpb Etcdserverpb Wal Paths TtlHeap EtcdError StoreEvent WatcherHub StoreNode Store.
From S2P Require Import Url Server Http Client.

(** ** http.ServeMux *)
Definition endsInSlash (p : string) : bool :=
  match String.get (String.length p - 1) p with Some c => bool_decide (c = slash) | None => false end.

Definition cleanPath (p : string) : string :=
  if decide (p = EmptyString) then "/"
  else
    let p := if isRooted p then p else String slash p in
    let np := Clean p in
    if endsInSlash p && negb (String.eqb np "/") then (np ++ "/")%string else np.

Definition pathMatch (pattern path : string) : bool :=
  if decide (pattern = EmptyString) then false
  else if negb (endsInSlash pattern) then String.eqb pattern path
  else HasPrefix path pattern.

(** The longest pattern that matches. *)
Definition matchPatterns {R} (patterns : list (string * R)) (path : string) : option (string * R) :=
  foldl (λ best x,
    if pathMatch x.1 path &&
       match best with None => true | Some b => (String.length b.1 <? String.length x.1)%nat end
    then Some x else best) None patterns.

Inductive routed (R : Type) :=
  | Serve (r : R)
  | Redirect (path : string)  (** 301 *)
  | NoHandler.
Arguments Serve {R}.
Arguments Redirect {R}.
Arguments NoHandler {R}.

Definition muxHandler {R} (patterns : list (string * R)) (method path : string) : routed R :=
  if negb (String.eqb method "CONNECT") && negb (String.eqb (cleanPath path) path) then Redirect (cleanPath path)
  else match matchPatterns patterns path with Some (_, r) => Serve r | None => NoHandler end.

(** ** The handlers of etcd *)
Inductive servedBy := ServeKeys | ServeMachines | ServeRaft | NotFound.

Definition machinesPrefix : string := "/v2/machines".
Definition raftPath : string := "/raft".
Definition defaultServerTimeout : Z := 500 * 1000000.

(** The timeout of a handler. *)
Definition handlerTimeout (timeout : Z) : Z := if timeout =? 0 then defaultServerTimeout else timeout.

Definition NewClientHandler : list (string * servedBy) :=
  [(keysPrefix, ServeKeys); ((keysPrefix ++ "/")%string, ServeKeys); (machinesPrefix, ServeMachines); ("/", NotFound)].
Definition NewPeerHandler : list (string * servedBy) := [(raftPath, ServeRaft); ("/", NotFound)].

(** ** Which requests are served *)
Lemma endsInSlash_append a b : b ≠ EmptyString → endsInSlash (a ++ b) = endsInSlash b.
Proof.
  intros Hb. unfold endsInSlash. rewrite length_append.
  assert (1 ≤ String.length b)%nat as Hl by (destruct b; [done|simpl; lia]).
  replace (String.length a + String.length b - 1)%nat with (String.length a + (String.length b - 1))%nat by lia.
  replace (String.get (String.length a + (String.length b - 1)) (a ++ b)) with (String.get (String.length b - 1) b); [done|].
  clear Hl. induction a as [|c a IH]; [done|]. rewrite append_cons. simpl. exact IH.
Qed.

Lemma noSlash_end s : noSlash s → endsInSlash s = false.
Proof.
  intros Hs. unfold endsInSlash. destruct (String.get _ s) as [c|] eqn:E; [|done]. apply bool_decide_eq_false.
  revert E. generalize (String.length s - 1)%nat as n. revert Hs. induction s as [|d s IH]; intros Hs n E; [done|].
  destruct Hs as [Hd Hs]. destruct n as [|n]; [by injection E as ->|]. by apply (IH Hs n).
Qed.

(** A canonical path does not end in a slash. *)
Lemma pathOf_end names : names ≠ [] → Forall name_ok names → endsInSlash (pathOf names) = false.
Proof.
  intros Hne Hok. unfold pathOf, joinSlash. destruct (exists_last Hne) as (l & x & ->).
  apply Forall_app in Hok as [_ [Hx _]%Forall_cons]. pose proof (no_empty x Hx) as Hx0.
  assert (∃ a, String slash (String.concat "/" (l ++ [x])) = (a ++ x)%string) as [a ->].
  { clear -l. induction l as [|y l [a IH]]; [by exists "/"|].
    exists (String slash y ++ a)%string. rewrite append_assoc, <-IH. simpl.
    destruct (l ++ [x]) eqn:E; [by destruct l|]. done. }
  rewrite endsInSlash_append by done. apply noSlash_end, Hx.
Qed.

(** The requests that each handler of the client interface gets, by the path. *)
Definition below (path prefix : string) : bool := String.eqb path prefix || HasPrefix path (prefix ++ "/").

Lemma client_patterns path :
  isRooted path = true →
  snd <$> matchPatterns NewClientHandler path =
    Some (if below path keysPrefix then ServeKeys else if String.eqb path machinesPrefix then ServeMachines else NotFound).
Proof.
  intros Hr. assert (HasPrefix path "/" = true) as Hp.
  { destruct path as [|c path]; [done|]. apply bool_decide_eq_true in Hr as ->. by destruct path. }
  assert (∀ k, pathMatch k path = if endsInSlash k then HasPrefix path k else String.eqb path k) as Hm.
  { intros k. unfold pathMatch. case_decide as Hk; [subst k|destruct (endsInSlash k); [done|apply String.eqb_sym]].
    simpl. by destruct path. }
  unfold matchPatterns, NewClientHandler, below. cbn [foldl fst]. rewrite !Hm.
  change (endsInSlash keysPrefix) with false. change (endsInSlash (keysPrefix ++ "/")) with true.
  change (endsInSlash machinesPrefix) with false. change (endsInSlash "/") with true. cbv beta iota. rewrite Hp.
  destruct (String.eqb_spec path keysPrefix) as [->|H1]; [done|].
  destruct (HasPrefix path (keysPrefix ++ "/")) eqn:H2; cbn [andb orb].
  - destruct (String.eqb_spec path machinesPrefix) as [->|H3]; [done|]. done.
  - by destruct (String.eqb_spec path machinesPrefix) as [->|H3].
Qed.

Theorem client_routes method path :
  isRooted path = true →
  muxHandler NewClientHandler method path =
    if negb (String.eqb method "CONNECT") && negb (String.eqb (cleanPath path) path) then Redirect (cleanPath path)
    else Serve (if below path keysPrefix then ServeKeys
                else if String.eqb path machinesPrefix then ServeMachines else NotFound).
Proof.
  intros Hr. unfold muxHandler. pose proof (client_patterns path Hr) as Hp.
  destruct (matchPatterns _ _) as [[k r]|]; [|done]. injection Hp as ->. done.
Qed.

Lemma cleanPath_pathOf names : names ≠ [] → Forall name_ok names → cleanPath (pathOf names) = pathOf names.
Proof.
  intros Hne Hok. unfold cleanPath. rewrite decide_False by done. change (isRooted (pathOf names)) with true.
  cbv iota zeta. rewrite Clean_pathOf, pathOf_end by done. done.
Qed.

(** What the client asks for is served by serveKeys, and not redirected. *)
Theorem client_requests_routed method names :
  names ≠ [] → Forall name_ok names →
  muxHandler NewClientHandler method (u_Path (v2URL noPath (pathOf names))) = Serve ServeKeys.
Proof.
  intros Hne Hok. rewrite v2URL_path by done.
  assert ((keysPrefix ++ pathOf names)%string = pathOf ("v2" :: "keys" :: names)) as Hp.
  { by destruct names. }
  rewrite client_routes by done. rewrite Hp, cleanPath_pathOf; [|done|repeat constructor; done].
  rewrite String.eqb_refl, andb_false_r. rewrite <-Hp. unfold below.
  change (pathOf names) with ("/" ++ joinSlash names)%string. rewrite <-append_assoc, prefix_append. by rewrite orb_true_r.
Qed.
