(* ===== verification/ServerProps.v ===== *)
(** * ServerProps: the servers of a cluster stay equal (src/etcdserver/server.go)

    A request is one operation of the store; the committed entries are applied one after
    the other.  Servers that apply the same entries hold the same keys, whatever their
    clocks, their waiting clients and the order of their maps. *)

From stdpp Require Import pretty sorting.
From Stdlib Require Import String Ascii FunctionalExtensionality.
From S2P Require Import Prelude Wire Raftpb RaftpbCodec Etcdserverpb Raft RaftNode.
From S2P Require Import Paths TtlHeap EtcdError StoreEvent StoreNode StoreTree StoreRemove.
From S2P Require Import Stats WatcherHub HubProps HubNotify Store StoreWalk StoreCreate StoreProps.
From S2P Require Import StoreUpdate StoreDelete StoreExpire StoreGet StoreApi StoreReplica StoreSave.
From S2P Require Import Wait Server.

(** ** What a request asks for *)
Inductive kind :=
  | KOp (o : op)
  | KGet (nodePath : string) (recursive sorted : bool)
  | KSync (cutoff : Z)
  | KUnknown.

Definition kindOf (r : Request) : kind :=
  let expr := getExpirationTime r in
  let path := strOf (Request_Path r) in
  let val := strOf (Request_Val r) in
  let prevValue := strOf (Request_PrevValue r) in
  let method := strOf (Request_Method r) in
  let compare := (Request_PrevIndex r >? 0) || negb (bool_decide (prevValue = EmptyString)) in
  if bool_decide (method = "POST") then KOp (OpCreate path (Request_Dir r) val true expr)
  else if bool_decide (method = "PUT") then
    match Request_PrevExist r with
    | Some true => KOp (OpUpdate path val expr)
    | Some false => KOp (OpCreate path (Request_Dir r) val false expr)
    | None =>
        if compare then KOp (OpCompareAndSwap path prevValue (Request_PrevIndex r) val expr)
        else KOp (OpSet path (Request_Dir r) val expr)
    end
  else if bool_decide (method = "DELETE") then
    if compare then KOp (OpCompareAndDelete path prevValue (Request_PrevIndex r))
    else KOp (OpDelete path (Request_Dir r) (Request_Recursive r))
  else if bool_decide (method = "QGET") then KGet path (Request_Recursive r) (Request_Sorted r)
  else if bool_decide (method = "SYNC") then KSync (timeUnix (Request_Time r))
  else KUnknown.

Lemma strOf_bytesOf s : strOf (bytesOf s) = s.
Proof.
  unfold strOf, bytesOf. induction s as [|c s IH]; [done|].
  cbn [String.list_ascii_of_string]. rewrite !fmap_cons. cbn [String.string_of_list_ascii].
  rewrite IH, N2Z.id. by rewrite ascii_N_embedding.
Qed.

Lemma apply_kind `{ChildRange} now r s :
  apply now r s =
  match kindOf r with
  | KOp o => respond (runOp now o s)
  | KGet nodePath recursive sorted => respondGet (storeGet now nodePath recursive sorted s)
  | KSync cutoff => s ← DeleteExpiredKeys now cutoff s; Ret (s, zeroResponse)
  | KUnknown => Ret (s, mkResponse None None (Some ErrUnknownMethod))
  end.
Proof.
  unfold apply, kindOf, getBool.
  generalize ((Request_PrevIndex r >? 0) || negb (bool_decide (strOf (Request_PrevValue r) = EmptyString))).
  intros compare. destruct (Request_PrevExist r) as [[]|], compare; repeat case_bool_decide; done.
Qed.

Lemma kindOf_expire r o : kindOf r = KOp o → opExpire o = 0 ∨ opExpire o = getExpirationTime r.
Proof.
  unfold kindOf. repeat case_match; intros [= <-]; cbn [opExpire]; try case_match; auto.
Qed.

(** ** One request on two stores *)
Lemma expires_mono v L L' : expires v L → (∀ x, x ∈ L → x ≠ 0 → x ∈ L') → expires v L'.
Proof. intros [Hin Hinj] Hsub. split; [|done]. intros k en Hk Hz. apply Hsub; [by eapply Hin|done]. Qed.

(** Two stores, equal up to the indexes of the keys [M], after [L] was used for expire times,
    with an index and a heap that add up to at most [B]. *)
Record twins (M : list string → Prop) (s1 s2 : store) (L : list Z) (B : Z) : Prop := {
  tw_ok1 : store_ok s1;
  tw_ok2 : store_ok s2;
  tw_agree : agree M s1 s2;
  tw_expires : expires (keys s1) L;
  tw_bound : s_CurrentIndex s1 + Z.of_nat (Len (t_ttl (s_tree s1))) ≤ B;
}.

Section twins.
Context (M : list string → Prop) (R1 R2 : ChildRange) (now1 now2 : Z).

Lemma twins_op o s1 s2 L B :
  twins M s1 s2 L B → spares M o → B + 1 < 2 ^ 64 → (opExpire o ≠ 0 → opExpire o ∉ L) →
  ∃ s1' s2' r1 r2, respond (runOp (H := R1) now1 o s1) = Ret (s1', r1) ∧
    respond (runOp (H := R2) now2 o s2) = Ret (s2', r2) ∧
    resp_err r1 = resp_err r2 ∧ twins M s1' s2' (opExpire o :: L) (B + 2).
Proof.
  intros [Ok1 Ok2 Hag Hex Hb] Hsp HB Hnew.
  assert (room s1) as Hroom by (unfold room; lia).
  destruct (runOp_agree R1 R2 M now1 now2 o s1 s2 Ok1 Ok2 Hag Hsp Hroom)
    as (s1' & s2' & r1 & r2 & a1 & a2 & E1 & E2 & Ha & I1 & I2 & Hsame & Ok1' & Ok2' & Hag').
  pose proof (implements_bound _ _ _ _ _ Ok1 Ha I1) as Hbound.
  unfold respond. rewrite E1, E2. cbn [mbind run_bind]. eexists s1', s2', _, _.
  split; [done|]. split; [done|]. destruct a1 as [err|[[act names] v]], a2 as [err2|[[act2 names2] v2]]; try done.
  - simpl in Hsame. subst err2. destruct I1 as [-> [_ _ _ Hk1 _]], I2 as [-> _]. apply functional_extensionality in Hk1.
    split; [done|]. split; [done..| |lia].
    rewrite Hk1. eapply expires_mono; [done|]. intros x Hx _. by right.
  - destruct I1 as (ep1 & e1 & -> & [_ _ _ Hk1 _ _] & _), I2 as (ep2 & e2 & -> & _).
    apply functional_extensionality in Hk1. split; [done|]. split; [done..| |lia].
    rewrite Hk1. by eapply expires_effect.
Qed.

Lemma shareEvent_keys s ev :
  store_ok s → store_ok (shareEvent ev s).1 ∧ keys (shareEvent ev s).1 = keys s ∧
    s_CurrentIndex (shareEvent ev s).1 = s_CurrentIndex s ∧ s_tree (shareEvent ev s).1 = s_tree s.
Proof.
  intros Hok. split_and!; try done. apply store_ok_hub; [done|]. apply hub_inv_share, Hok. apply newPtr_fresh.
Qed.

(** The store after a Get. *)
Lemma get_store (R : ChildRange) now s nodePath recursive sorted :
  store_ok s →
  ∃ s' resp, respondGet (storeGet (H := R) now nodePath recursive sorted s) = Ret (s', resp) ∧
    store_ok s' ∧ keys s' = keys s ∧ s_CurrentIndex s' = s_CurrentIndex s ∧ s_tree s' = s_tree s ∧
    resp_err resp = ErrStore <$> lookupSpec (s_CurrentIndex s) (keys s) [] (parts nodePath).
Proof.
  intros Hok. pose proof (storeGet_ok (H := R) now s nodePath recursive sorted Hok) as G.
  destruct (lookupSpec _ _ _ _) as [err|].
  - unfold respondGet. rewrite G. eexists _, _. split; [done|].
    split_and!; try done. by eapply un_ok, unchanged_stat.
  - destruct G as (p & en & node & _ & _ & G & _). unfold respondGet. rewrite G. cbn [mbind run_bind].
    destruct (shareEvent_keys (stat GetSuccess s) (mkEvent Get node None (s_CurrentIndex s)))
      as (Ok' & K' & I' & T'); [by eapply un_ok, unchanged_stat|].
    destruct (shareEvent _ _) as [s' ep]. simpl in *. eexists s', _. split; [done|].
    by split_and!.
Qed.

Lemma twins_same s1 s2 s1' s2' L B :
  twins M s1 s2 L B → store_ok s1' → store_ok s2' → keys s1' = keys s1 → keys s2' = keys s2 →
  s_CurrentIndex s1' = s_CurrentIndex s1 → s_CurrentIndex s2' = s_CurrentIndex s2 →
  twins M s1' s2' L (B + 2).
Proof.
  intros [Ok1 Ok2 [Hi Hk] Hex Hb] Ok1' Ok2' K1 K2 I1 I2. split; [done..| | |].
  - split; [congruence|]. by rewrite K1, K2.
  - by rewrite K1.
  - rewrite (heap_same M s1' s1), I1 by (done || rewrite K1; apply alike_refl). lia.
Qed.

Lemma twins_sync cutoff s1 s2 L B :
  twins M s1 s2 L B → B < 2 ^ 64 →
  ∃ s1' s2', DeleteExpiredKeys (H := R1) now1 cutoff s1 = Ret s1' ∧
    DeleteExpiredKeys (H := R2) now2 cutoff s2 = Ret s2' ∧ twins M s1' s2' L (B + 2).
Proof.
  intros [Ok1 Ok2 Hag Hex Hb] HB. pose proof Hag as [Hi Hk].
  destruct (expire_agree M R1 R2 now1 now2 cutoff s1 s2 Ok1 Ok2 Hag (expires_noTies _ _ Hex))
    as (s1' & s2' & E1 & E2 & Ok1' & Ok2' & Hag' & K & I); [lia|rewrite <-Hi, <-(heap_same M s1 s2) by done; lia|].
  exists s1', s2'. split; [done|]. split; [done|]. split; [done..| |lia].
  eapply expires_sub; [done|]. intros k en Hk' Hz. rewrite K in Hk'.
  destruct (expiredKey _ _ _); [done|]. eauto.
Qed.

(** The request does not compare an index that may differ. *)
Definition sparingRequest (r : Request) : Prop :=
  match kindOf r with KOp o => spares M o | _ => True end.

(** One request, applied by two servers. *)
Lemma apply_twins r s1 s2 L B :
  twins M s1 s2 L B → sparingRequest r → B + 1 < 2 ^ 64 → (getExpirationTime r ≠ 0 → getExpirationTime r ∉ L) →
  ∃ s1' s2' r1 r2, apply (H := R1) now1 r s1 = Ret (s1', r1) ∧ apply (H := R2) now2 r s2 = Ret (s2', r2) ∧
    resp_err r1 = resp_err r2 ∧ twins M s1' s2' (getExpirationTime r :: L) (B + 2).
Proof.
  intros Htw Hsp HB Hnew. rewrite !apply_kind. unfold sparingRequest in Hsp.
  assert (∀ s1' s2', twins M s1' s2' L (B + 2) → twins M s1' s2' (getExpirationTime r :: L) (B + 2)) as Hmono.
  { intros s1' s2' [? ? ? ? ?]. split; [done..| |done]. eapply expires_mono; [done|]. intros x Hx _. by right. }
  destruct (kindOf r) as [o|nodePath recursive sorted|cutoff|] eqn:Hkind.
  - pose proof (kindOf_expire r o Hkind) as Ho.
    destruct (twins_op o s1 s2 L B Htw Hsp HB) as (s1' & s2' & r1 & r2 & E1 & E2 & Er & [A1 A2 A3 A4 A5]).
    { intros Hz. destruct Ho as [|Ho]; [done|]. rewrite Ho in *. auto. }
    exists s1', s2', r1, r2. split_and!; [done..|]. split; [done..| |done].
    eapply expires_mono; [done|]. intros x [->|Hx]%elem_of_cons Hz; [|by right].
    destruct Ho as [Ho|Ho]; rewrite Ho; [congruence|by left].
  - pose proof Htw as [Ok1 Ok2 [Hi Hk] _ _].
    destruct (get_store R1 now1 s1 nodePath recursive sorted Ok1) as (s1' & r1 & E1 & Ok1' & K1 & I1 & _ & Er1).
    destruct (get_store R2 now2 s2 nodePath recursive sorted Ok2) as (s2' & r2 & E2 & Ok2' & K2 & I2 & _ & Er2).
    exists s1', s2', r1, r2. split_and!; [done..|by rewrite Er1, Er2, Hi, (lookupSpec_alike M _ _ _ _ _ Hk)|].
    by apply Hmono, (twins_same s1 s2).
  - destruct (twins_sync cutoff s1 s2 L B Htw) as (s1' & s2' & E1 & E2 & Htw'); [lia|].
    rewrite E1, E2. eexists s1', s2', _, _. split_and!; [done..|]. by apply Hmono.
  - eexists s1, s2, _, _. split_and!; [done..|]. apply Hmono. by apply (twins_same s1 s2); try apply Htw.
Qed.
End twins.

(** ** The committed entries *)

(** No trigger of the wait list can block or panic. *)
Record waiters_ok {V} (w : Wait.List V) : Prop := {
  wt_idle : ∀ id ch, l_m w !! id = Some ch → l_chans w !! ch = Some (mkChan [] false);
  wt_inj : ∀ i j ch, l_m w !! i = Some ch → l_m w !! j = Some ch → i = j;
}.

Lemma waiters_new {V} : waiters_ok (@NewList V).
Proof. split; simpl; intros *; by rewrite lookup_empty. Qed.

Lemma waiters_register {V} id (w : Wait.List V) : waiters_ok w → waiters_ok (Register id w).1.
Proof.
  intros [Hidle Hinj]. unfold Register. destruct (l_m w !! id) as [ch|] eqn:Hid; [done|]. simpl.
  pose proof (is_fresh (dom (l_chans w))) as Hf. apply not_elem_of_dom in Hf. split; simpl.
  - intros i c. rewrite lookup_insert_Some. intros [[<- <-]|[_ Hi]]; [apply lookup_insert_eq|].
    apply Hidle in Hi as Hc. rewrite lookup_insert_ne; [done|]. congruence.
  - intros i j c. rewrite !lookup_insert_Some. intros [[<- <-]|[_ Hi]] [[<- E]|[_ Hj]]; try done.
    + apply Hidle in Hj. congruence.
    + subst. apply Hidle in Hi. congruence.
    + by eapply Hinj.
Qed.

Lemma waiters_trigger {V} id (x : option V) w :
  waiters_ok w → ∃ w', Trigger id x w = Ret w' ∧ waiters_ok w'.
Proof.
  intros [Hidle Hinj]. rewrite Trigger_ok by apply Hidle. eexists. split; [done|]. split; simpl.
  - intros i c. rewrite lookup_delete_Some. intros [Hne Hi]. apply Hidle in Hi as Hc.
    destruct (l_m w !! id) as [ch|] eqn:Hid; [|done]. rewrite lookup_insert_ne; [done|].
    intros ->. apply Hne. by eapply Hinj.
  - intros i j c. rewrite !lookup_delete_Some. intros [_ Hi] [_ Hj]. by eapply Hinj.
Qed.

(** The request of an entry. *)
Definition requestOf (e : Entry) : option Request :=
  match Request_Unmarshal (S (length (Entry_Data e))) (Entry_Data e) zeroRequest with
  | Ret (r, None) => if Entry_Type e =? EntryNormal then Some r else None
  | _ => None
  end.

(** An entry that some member proposed: its data can be read. *)
Definition readable (e : Entry) : Prop :=
  (Entry_Type e = EntryNormal ∧ is_Some (requestOf e)) ∨
  (Entry_Type e = EntryConfChange ∧
   ∃ cc, ConfChange_Unmarshal (S (length (Entry_Data e))) (Entry_Data e) zeroConfChange = Ret (cc, None)).

(** The expire times that the entries set. *)
Definition expirations (es : list Entry) : list Z :=
  filter (λ x, x ≠ 0) ((λ e, match requestOf e with Some r => getExpirationTime r | None => 0 end) <$> es).

Definition expirationOf (e : Entry) : Z :=
  match requestOf e with Some r => getExpirationTime r | None => 0 end.

(** The entry does not compare the index of a key in [M]. *)
Definition sparing (M : list string → Prop) (e : Entry) : Prop :=
  match requestOf e with Some r => sparingRequest M r | None => True end.

Lemma sparing_all es : Forall (sparing (λ _, False)) es.
Proof.
  apply Forall_forall. intros e _. unfold sparing, sparingRequest.
  destruct (requestOf e) as [r|]; [|done]. destruct (kindOf r) as [[]| | |]; simpl; auto.
Qed.

Section entries.
Context (M : list string → Prop) (R1 R2 : ChildRange) (clock1 clock2 : Z → Z).

Lemma applyEntry_twins e s1 s2 i1 i2 L B :
  twins M (es_Store s1) (es_Store s2) L B → waiters_ok (es_w s1) → waiters_ok (es_w s2) →
  B + 1 < 2 ^ 64 → readable e → sparing M e → (expirationOf e ≠ 0 → expirationOf e ∉ L) →
  ∃ s1' s2', applyEntry (H := R1) clock1 e (s1, i1) = Ret (s1', Entry_Index e) ∧
    applyEntry (H := R2) clock2 e (s2, i2) = Ret (s2', Entry_Index e) ∧
    twins M (es_Store s1') (es_Store s2') (expirationOf e :: L) (B + 2) ∧
    waiters_ok (es_w s1') ∧ waiters_ok (es_w s2').
Proof.
  intros Htw W1 W2 HB Hread Hsp Hnew. unfold applyEntry, expirationOf, sparing in *. destruct Hread as [[Ht [r Hr]]|[Ht [cc Hcc]]].
  - rewrite Hr in *. rewrite Ht. cbn [Z.eqb EntryNormal]. unfold requestOf in Hr. rewrite Ht in Hr.
    destruct (Request_Unmarshal _ _ _) as [[r' [err|]]| |]; simplify_eq/=.
    destruct (apply_twins M R1 R2 (clock1 (Entry_Index e)) (clock2 (Entry_Index e)) r
      (es_Store s1) (es_Store s2) L B Htw Hsp HB Hnew) as (t1 & t2 & a1 & a2 & E1 & E2 & _ & Htw').
    destruct (waiters_trigger (Request_ID r) (Some a1) (es_w s1) W1) as (w1 & T1 & W1').
    destruct (waiters_trigger (Request_ID r) (Some a2) (es_w s2) W2) as (w2 & T2 & W2').
    rewrite E1, E2. cbn [mbind run_bind]. rewrite T1, T2. cbn [mbind run_bind].
    eexists _, _. split_and!; [done..|exact Htw'|exact W1'|exact W2'].
  - assert (requestOf e = None) as Hno.
    { unfold requestOf. rewrite Ht. by destruct (Request_Unmarshal _ _ _) as [[? [|]]| |]. }
    rewrite Hno. rewrite Ht. cbn [Z.eqb EntryConfChange EntryNormal]. rewrite Hcc. cbn [mbind run_bind].
    destruct (waiters_trigger (ConfChange_ID cc) None (es_w s1) W1) as (w1 & T1 & W1').
    destruct (waiters_trigger (ConfChange_ID cc) None (es_w s2) W2) as (w2 & T2 & W2').
    change (es_w (calls (Node_ApplyConfChange cc) s1)) with (es_w s1).
    change (es_w (calls (Node_ApplyConfChange cc) s2)) with (es_w s2).
    rewrite T1, T2. cbn [mbind run_bind]. eexists _, _.
    split_and!; [done..| |exact W1'|exact W2']. simpl. split; try apply Htw.
    + eapply expires_mono; [apply Htw|]. intros x Hx _. by right.
    + pose proof (tw_bound _ _ _ _ _ Htw). lia.
Qed.

Lemma expirations_cons e es :
  expirations (e :: es) = (if decide (expirationOf e ≠ 0) then [expirationOf e] else []) ++ expirations es.
Proof. unfold expirations. rewrite fmap_cons, filter_cons. fold (expirationOf e). by case_decide. Qed.

Lemma applyEntries_twins es s1 s2 i L B :
  twins M (es_Store s1) (es_Store s2) L B → waiters_ok (es_w s1) → waiters_ok (es_w s2) →
  B + 2 * len es < 2 ^ 64 → Forall readable es → Forall (sparing M) es →
  NoDup (expirations es) → (∀ x, x ∈ expirations es → x ∉ L) →
  ∃ s1' s2' j L', forEach (applyEntry (H := R1) clock1) es (s1, i) = Ret (s1', j) ∧
    forEach (applyEntry (H := R2) clock2) es (s2, i) = Ret (s2', j) ∧
    twins M (es_Store s1') (es_Store s2') L' (B + 2 * len es).
Proof.
  intros Htw W1 W2 HB Hread. revert s1 s2 i L B Htw W1 W2 HB.
  induction Hread as [|e es He Hread IH]; intros s1 s2 i L B Htw W1 W2 HB Hsp Hnd Hnew.
  { exists s1, s2, i, L. split_and!; [done..|]. unfold len. simpl. by rewrite Z.add_0_r. }
  rewrite len_cons in *. pose proof (len_nonneg es). apply Forall_cons in Hsp as [Hs1 Hsp]. rewrite expirations_cons in Hnd, Hnew.
  destruct (applyEntry_twins e s1 s2 i i L B Htw W1 W2) as (t1 & t2 & E1 & E2 & Htw' & W1' & W2'); [lia|done|done| |].
  { intros Hz. rewrite decide_True in Hnew by done. apply Hnew. by left. }
  apply NoDup_app in Hnd as (_ & Hdis & Hnd).
  destruct (IH t1 t2 (Entry_Index e) (expirationOf e :: L) (B + 2)) as (u1 & u2 & j & L' & F1 & F2 & Htw'');
    [done..|lia|done|done| |].
  { intros x Hx. rewrite elem_of_cons. intros [->|HL].
    - assert (expirationOf e ≠ 0) as Hz by (unfold expirations in Hx; by apply list_elem_of_filter in Hx as [? _]).
      rewrite decide_True in Hdis by done. apply (Hdis (expirationOf e)); [by left|done].
    - apply (Hnew x); [|done]. apply elem_of_app. by right. }
  exists u1, u2, j, L'. cbn [forEach]. rewrite E1, E2. cbn [mbind run_bind].
  split_and!; [done..|]. by replace (B + 2 * (1 + len es)) with (B + 2 + 2 * len es) by lia.
Qed.
End entries.

Lemma newStore_expire k en : keys newStore k = Some en → v_expire en = 0.
Proof.
  unfold keys, view, newStore, alloc. simpl. destruct k as [|x k]; simpl.
  - rewrite lookup_insert_eq. by intros [= <-].
  - rewrite lookup_insert_eq. simpl. by rewrite lookup_empty.
Qed.

(** C7. The servers of a cluster stay equal.  Two servers that start with new stores and apply
    the same committed entries, with different clocks, clients and orders of their maps, do
    not panic, and end with the same keys, with the same values, indexes and expire times,
    at the same index of the store; as long as no two entries set the same expire time. *)
Theorem servers_agree (R1 R2 : ChildRange) clock1 clock2 es s1 s2 :
  es_Store s1 = newStore → es_Store s2 = newStore → waiters_ok (es_w s1) → waiters_ok (es_w s2) →
  Forall readable es → NoDup (expirations es) → 2 * len es < 2 ^ 64 →
  ∃ s1' s2' i,
    forEach (applyEntry (H := R1) clock1) es (s1, 0) = Ret (s1', i) ∧
    forEach (applyEntry (H := R2) clock2) es (s2, 0) = Ret (s2', i) ∧
    s_CurrentIndex (es_Store s1') = s_CurrentIndex (es_Store s2') ∧
    ∀ k, keys (es_Store s1') k = keys (es_Store s2') k.
Proof.
  intros E1 E2 W1 W2 Hread Hnd HB.
  destruct (applyEntries_twins (λ _, False) R1 R2 clock1 clock2 es s1 s2 0 [] 0) as (s1' & s2' & i & L & F1 & F2 & Htw);
    [|done..|lia|done|apply sparing_all|done| |].
  - rewrite E1, E2. pose proof newStore_ok as Hok. split; [done..|split; [done|apply alike_refl]| |done].
    split; [intros k en Hk Hz|intros j k ej ek Hk _ Hz]; by apply newStore_expire in Hk.
  - intros x _. apply not_elem_of_nil.
  - exists s1', s2', i. destruct (tw_agree _ _ _ _ _ Htw) as [Hi Hk%alike_eq]. rewrite Hk. by split_and!.
Qed.
