(* ===== verification/ServerFindings.v ===== *)
(** * ServerFindings: runs of the server

    Examples of the theorems on the server, and runs that show where it does not do what it
    is meant to do. *)

From stdpp Require Import pretty sorting.
From Stdlib Require Import String Ascii.
From S2P Require Import Prelude Wire Raftpb RaftpbCodec Etcdserverpb Raft RaftNode.
From S2P Require Import Paths TtlHeap EtcdError StoreEvent StoreNode StoreTree StoreRemove.
From S2P Require Import Stats WatcherHub HubProps HubNotify Store StoreWalk StoreCreate StoreProps.
From S2P Require Import StoreUpdate StoreDelete StoreExpire StoreGet StoreApi StoreReplica StoreSave.
From S2P Require Import StoreFindings Wait Server ServerProps.

(** The children of a directory in the other order. *)
Definition backOrder : ChildRange.
Proof.
  refine {| children m := reverse (map_to_list m) |}. intros m. apply reverse_Permutation.
Defined.

(** A request of a client, and the entry that carries it. *)
Definition request (id : Z) (method path val : string) (expiration : Z) : Request :=
  zeroRequest <| Request_ID := id |> <| Request_Method := bytesOf method |>
    <| Request_Path := bytesOf path |> <| Request_Val := bytesOf val |>
    <| Request_Expiration := expiration |>.

Definition entryFor (index : Z) (r : Request) : Entry :=
  Raftpb.mkEntry EntryNormal 1 index (match Request_Marshal r with Ok data => data | Panic _ => [] end) [].

Definition newServer : EtcdServer := start (mkServer NewList false newStore 0 0 0 []).

(** 2014-10-01, in nanoseconds since 1970. *)
Definition october : Z := 1412121600 * second.

Definition demoRequests : list Request :=
  [ request 1 "PUT" "/d/a" "1" (october + 1); request 2 "PUT" "/d/b" "2" (october + 2);
    request 3 "PUT" "/e" "3" 0;
    (request 4 "DELETE" "/d" EmptyString 0) <| Request_Recursive := true |>;
    (request 5 "SYNC" EmptyString EmptyString 0) <| Request_Time := october + 5 |> ].
Definition demoEntries : list Entry :=
  zip_with entryFor (seqZ 1 5) demoRequests.

Lemma demoEntries_ok : Forall readable demoEntries ∧ NoDup (expirations demoEntries).
Proof.
  split.
  - repeat apply Forall_cons_2; [left; split; [done|]; vm_compute; by eexists..|constructor].
  - apply (bool_decide_unpack _). by vm_compute.
Qed.

(** Two servers with different orders and clocks, one with a client that waits. *)
Lemma servers_agree_witness :
  ∃ s1 s2 i,
    forEach (applyEntry (H := mapOrder) (λ i, i)) demoEntries (newServer, 0) = Ret (s1, i) ∧
    forEach (applyEntry (H := backOrder) (λ i, unixEpoch + october)) demoEntries
      (newServer <| es_w := (Register 3 NewList).1 |>, 0) = Ret (s2, i) ∧
    s_CurrentIndex (es_Store s1) = s_CurrentIndex (es_Store s2) ∧
    ∀ k, keys (es_Store s1) k = keys (es_Store s2) k.
Proof.
  apply (servers_agree mapOrder backOrder (λ i, i) (λ i, unixEpoch + october) demoEntries newServer
    (newServer <| es_w := (Register 3 NewList).1 |>)).
  - reflexivity.
  - reflexivity.
  - apply waiters_new.
  - apply (waiters_register 3 NewList), waiters_new.
  - apply demoEntries_ok.
  - apply demoEntries_ok.
  - vm_compute. reflexivity.
Defined.

(** ** A directory and a key in it that expire together *)
Definition tieEntries : list Entry :=
  zip_with entryFor (seqZ 1 7)
    [ request 1 "PUT" "/d/c" "1" (october + 1); request 2 "PUT" "/d/a" "1" (october + 2);
      request 3 "PUT" "/d/b" "1" (october + 4);
      (request 4 "PUT" "/p" EmptyString (october + 3)) <| Request_Dir := true |>;
      request 5 "PUT" "/p/c" "1" (october + 3);
      (request 6 "DELETE" "/d" EmptyString 0) <| Request_Recursive := true |>;
      (request 7 "SYNC" EmptyString EmptyString 0) <| Request_Time := october + 3 |> ].

Definition indexAfter (R : ChildRange) (es : list Entry) : option Z :=
  match forEach (applyEntry (H := R) (λ i, i)) es (newServer, 0) with
  | Ret (s, _) => Some (s_CurrentIndex (es_Store s))
  | _ => None
  end.

(** When a directory and a key in it expire at the same instant, the order in which the
    map of another directory was visited decides which of them is removed first, and so
    whether there are one or two removals: two servers that applied the same entries go on
    with different indexes. *)
Theorem expire_tie_diverges :
  indexAfter mapOrder tieEntries = Some 7 ∧ indexAfter backOrder tieEntries = Some 8.
Proof. by vm_compute. Qed.
