(* ===== verification/ServerRestart.v ===== *)
(** * ServerRestart: a server that was restarted has the keys it had (src/etcdserver, src/raft, src/wal)

    The parts of a server together: its raft node, the write-ahead log that every Ready is
    saved in, and the store that the committed entries are applied to.  A server that crashes
    and is started again from its log rebuilds the store that it had. *)

From stdpp Require Import pretty sorting.
From Stdlib Require Import String Ascii.
From S2P Require Import Prelude Raftpb.
From S2P Require Import RaftLog.
From S2P Require Import Raft RaftInv RaftElection RaftNode RaftCluster.
From S2P Require Import Wire RaftpbCodec Walpb Crc Wal WalNames WalRecords WalRead WalProps WalLog WalFaults.
From S2P Require Import RaftStorage Etcdserverpb.
From S2P Require Import Paths TtlHeap EtcdError Stats StoreEvent WatcherHub StoreNode Store StoreTree.
From S2P Require Import StoreRemove HubProps HubNotify StoreWalk StoreCreate StoreProps StoreUpdate StoreDelete.
From S2P Require Import StoreExpire StoreGet StoreApi StoreTheorems StoreReplica StoreFindings StoreSave Wait Server ServerProps ServerFindings.

(** A store without expiring keys. *)
Definition lasting (st : store) : Prop := ∀ k en, keys st k = Some en → v_expire en = 0.

Lemma twins_start M st :
  store_ok st → lasting st → twins M st st [] (s_CurrentIndex st + Z.of_nat (Len (t_ttl (s_tree st)))).
Proof.
  intros Hok Hl. split; [done..|split; [done|apply alike_refl]| |done].
  split; [intros k en Hk Hz|intros j k ej ek Hk _ Hz]; by apply Hl in Hk.
Qed.

Section restart.
Context `{MapRange} (grow : nat → nat) (scan : string → option (Z * Z)).
Hypothesis scan_walName : ∀ seq i,
  0 ≤ seq < 2 ^ 63 → 0 ≤ i < 2 ^ 63 → scan (walName seq i) = Some (seq, i).

(** A restart restores the store.  Take a server, in any life of its node, that started
    with the store [st0] and has applied all entries that the node gave it, up to its last
    Ready, which was saved.  When it crashes, its write-ahead log can be read, the node that is
    started from it gives all committed entries in its first Ready, and applying them to [st0]
    again, with another clock, other clients and other orders of the maps, ends with the same
    keys, with the same values, indexes and expire times, at the same index of the store. *)
Theorem restart_restores_store (R1 R2 : ChildRange) clock1 clock2 n steps ds n1 i peers el hb st0 s1 s2 :
  life n steps ds → iterate EvReady n = Some (Ok n1) → i ≠ None_ →
  let steps' := steps ++ [saving (ready n)] in
  let es := ds ++ rd_CommittedEntries (ready n) in
  len steps' < 2 ^ 63 - 1 → Forall op_ok (saved steps') →
  store_ok st0 → lasting st0 → es_Store s1 = st0 → es_Store s2 = st0 →
  waiters_ok (es_w s1) → waiters_ok (es_w s2) →
  Forall readable es → NoDup (expirations es) →
  s_CurrentIndex st0 + Z.of_nat (Len (t_ttl (s_tree st0))) + 2 * len es < 2 ^ 64 →
  ∃ dk w hs ents n' s1' s2' j,
    crashSession grow scan steps' = Ret dk ∧ reopen grow scan (crashed dk) 0 = Ret (w, (0, hs, ents, None)) ∧
    RestartNode i peers el hb None hs ents = Ok n' ∧
    forEach (applyEntry (H := R1) clock1) es (s1, 0) = Ret (s1', j) ∧
    forEach (applyEntry (H := R2) clock2) (rd_CommittedEntries (ready n')) (s2, 0) = Ret (s2', j) ∧
    s_CurrentIndex (es_Store s1') = s_CurrentIndex (es_Store s2') ∧
    ∀ k, keys (es_Store s1') k = keys (es_Store s2') k.
Proof.
  intros HL _ Hi steps' es Hlen Hops Hok Hlast E1 E2 W1 W2 Hread Hnd HB.
  destruct (restarted grow scan scan_walName n steps ds i peers el hb HL Hi Hlen Hops)
    as (dk & w & hs & ents & n' & S1 & S2 & S3 & _ & _ & _ & Hc).
  destruct (applyEntries_twins (λ _, False) R1 R2 clock1 clock2 es s1 s2 0 []
    (s_CurrentIndex st0 + Z.of_nat (Len (t_ttl (s_tree st0))))) as (s1' & s2' & j & L & F1 & F2 & Htw);
    [rewrite E1, E2; by apply twins_start|done|done|done|done|apply sparing_all|done| |].
  { intros x _. apply not_elem_of_nil. }
  exists dk, w, hs, ents, n', s1', s2', j. rewrite Hc. fold es.
  destruct (tw_agree _ _ _ _ _ Htw) as [HI HK%alike_eq]. rewrite HK. by split_and!.
Qed.
End restart.

(** ** Example: a server alone, with one key *)
#[local] Existing Instance keyOrder.

Definition putData : list Z :=
  match Request_Marshal (request 1 "PUT" "/a" "1" (october + 1)) with Ok data => data | Panic _ => [] end.

Definition go (ev : event) (n : RaftNode.node) : RaftNode.node :=
  match iterate ev n with Some (Ok n) => n | _ => n end.

Definition alone0 : RaftNode.node := match StartNode 1 [1] 10 1 with Ok n => n | Panic _ => start3 1 end.
Definition alone : RaftNode.node := go (Propose putData) (go Campaign alone0).

Lemma alone_life : life alone [] [].
Proof.
  eapply (life_event (go Campaign alone0) [] [] (Propose putData)); [| |done|by vm_compute].
  - eapply (life_event alone0 [] [] Campaign); [by apply (life_start 1 [1] 10 1)| |done|by vm_compute].
    split_and!; done.
  - split_and!; done.
Qed.

Lemma alone_saved : Forall op_ok (saved [saving (ready alone)]).
Proof.
  set (l := saved _). vm_compute in l. unfold l.
  repeat constructor; try done; try apply unrecognized_nil.
Qed.

Lemma alone_ready : iterate EvReady alone = Some (Ok (go EvReady alone)).
Proof. by vm_compute. Qed.

Lemma alone_readable : Forall readable ([] ++ rd_CommittedEntries (ready alone)).
Proof.
  set (l := _ ++ _). vm_compute in l. unfold l.
  repeat apply Forall_cons_2; [left; split; [done|]; vm_compute; by eexists..|constructor].
Qed.

Lemma alone_expirations : NoDup (expirations ([] ++ rd_CommittedEntries (ready alone))).
Proof. apply (bool_decide_unpack _). by vm_compute. Qed.

Lemma alone_room :
  s_CurrentIndex newStore + Z.of_nat (Len (t_ttl (s_tree newStore))) +
    2 * len ([] ++ rd_CommittedEntries (ready alone)) < 2 ^ 64.
Proof. by vm_compute. Qed.

Lemma newStore_lasting : lasting newStore.
Proof. intros k en. apply newStore_expire. Qed.

Lemma restart_restores_store_witness :
  ∃ dk w hs ents n' s1' s2' j,
    crashSession Nat.double scanName ([] ++ [saving (ready alone)]) = Ret dk ∧
    reopen Nat.double scanName (crashed dk) 0 = Ret (w, (0, hs, ents, None)) ∧
    RestartNode 1 [1] 10 1 None hs ents = Ok n' ∧
    forEach (applyEntry (H := mapOrder) (λ i, i)) ([] ++ rd_CommittedEntries (ready alone)) (newServer, 0) =
      Ret (s1', j) ∧
    forEach (applyEntry (H := backOrder) (λ i, unixEpoch + october)) (rd_CommittedEntries (ready n')) (newServer, 0) =
      Ret (s2', j) ∧
    s_CurrentIndex (es_Store s1') = s_CurrentIndex (es_Store s2') ∧
    ∀ k, keys (es_Store s1') k = keys (es_Store s2') k.
Proof.
  exact (restart_restores_store Nat.double scanName scanName_walName mapOrder backOrder (λ i, i)
    (λ i, unixEpoch + october) alone [] [] (go EvReady alone) 1 [1] 10 1 newStore newServer newServer
    alone_life alone_ready ltac:(done) ltac:(done) alone_saved newStore_ok newStore_lasting
    eq_refl eq_refl waiters_new waiters_new alone_readable alone_expirations alone_room).
Defined.
