(* ===== verification/ClientProps.v ===== *)
(** * ClientProps: the client and the server together (src/client, src/etcdserver)

    What becomes of a call of the client, from the request that it builds over the HTTP
    interface and the store to the response that it makes something of. *)

From stdpp Require Import pretty sorting.
From Stdlib Require Import String Ascii.
From S2P Require Import Prelude Wire Raftpb RaftpbCodec Etcdserverpb Raft RaftNode.
From S2P Require Import Paths TtlHeap EtcdError StoreEvent StoreNode StoreTree StoreRemove.
From S2P Require Import Stats WatcherHub HubProps HubNotify Store StoreWalk StoreCreate StoreProps.
From S2P Require Import StoreUpdate StoreDelete StoreExpire StoreGet StoreApi StoreReplica StoreSave.
From S2P Require Import StoreFindings Wait Url Server Http Client ServerProps ServerFindings.

(** The operation of a create request. *)
Lemma kind_create now id c :
  kindOf (intended now id (ActCreate c)) =
  KOp (OpCreate (ca_Key c) false (ca_Value c) false
         (match ca_TTL c with
          | Some ttl => getExpirationTime (intended now id (ActCreate c))
          | None => Permanent
          end)).
Proof.
  destruct c as [k v [ttl|]]; unfold kindOf, intended;
    cbn -[strOf bytesOf getExpirationTime]; rewrite !strOf_bytesOf; done.
Qed.

Lemma create_expiration now id key value :
  minExpireTime ≤ now → now - unixEpoch < 2 ^ 63 →
  getExpirationTime (intended now id (ActCreate (mkCreate key value (Some 0)))) = now.
Proof.
  intros Hmin Hmax. unfold getExpirationTime, intended. cbn -[expirationAfter].
  unfold minExpireTime, unixEpoch, second in *.
  rewrite expirationAfter_sum, wrapS_id; [|done|split; unfold unixEpoch, second; lia].
  unfold timeUnix, unixEpoch, second. case_match; lia.
Qed.

Section create.
Context (R : ChildRange).

(** A key that the client creates without a time to live, which it passes as 0, does not
    stay: the request carries ttl=0, the server makes of it an expiration at the time of
    the request, and the next SYNC of the leader removes the key again. *)
Theorem create_without_ttl_expires quote now now' now'' id names value s t :
  names ≠ [] → Forall name_ok names → minExpireTime ≤ now → now - unixEpoch < 2 ^ 63 →
  store_ok s → s_CurrentIndex s + Z.of_nat (Len (t_ttl (s_tree s))) + 2 < 2 ^ 64 →
  now - unixEpoch ≤ Request_Time t → strOf (Request_Method t) = "SYNC" →
  Z.of_nat (String.length (Encode (createForm (newCreate (pathOf names) value 0)))) ≤ maxFormSize →
  ∃ r s' resp s'',
    parseRequest quote now id (createRequest (newCreate (pathOf names) value 0) noPath) = inr r ∧
    apply now' r s = Ret (s', resp) ∧
    apply now'' t s' = Ret (s'', zeroResponse) ∧
    (resp_err resp = None → is_Some (keys s' names) ∧ keys s'' names = None).
Proof.
  intros Hne Hok Hmin Hmax Ok Hroom Ht Hsync Hlen.
  assert (durationSeconds 0 = 0) as Hzero by done. unfold newCreate. rewrite Hzero.
  rewrite (create_parsed quote now id names Hne Hok value (Some 0)); [|by intros n [= <-]|done].
  set (c := mkCreate (pathOf names) value (Some 0)).
  change (mkRequest _ _ _ _ _ _ _ _ _ _ _ _ _ _ _ _ _) with (intended now id (ActCreate c)).
  assert (getExpirationTime (intended now id (ActCreate c)) = now) as Hexp
    by by apply create_expiration.
  destruct (runOp_refines now' (OpCreate (ca_Key c) false (ca_Value c) false now) s)
    as (s' & r & a & E & Ha & I); [done|unfold room; lia|].
  destruct (implements_bound _ _ _ _ _ Ok Ha I) as [Hle Hb].
  assert (store_ok s') as Ok'.
  { destruct a as [|[[] ?]]; [apply I|]. destruct I as (? & ? & _ & [] & _). done. }
  destruct (DeleteExpiredKeys_ok now'' s' (timeUnix (Request_Time t)) Ok') as (s'' & E' & _ & V & _); [lia|].
  eexists _, s', _, s''. split; [done|]. rewrite !apply_kind, kind_create. cbn [ca_TTL c]. rewrite Hexp.
  unfold respond. rewrite E. split; [done|].
  assert (kindOf t = KSync (timeUnix (Request_Time t))) as -> by (unfold kindOf; by rewrite Hsync).
  rewrite E'. split; [done|]. destruct r as [err|ep]; [done|]. intros _.
  cbn [effect] in Ha. unfold createNames, c in Ha. cbn [ca_Key] in Ha. rewrite parts_pathOf in Ha by done.
  destruct (createSpec _ _ _ _ _) as [|v] eqn:Hspec in Ha; subst a; [by destruct I|].
  destruct I as (? & ? & _ & Hst & _). apply createSpec_inr in Hspec as (_ & -> & _).
  assert (keys s' names = Some (newEntry (s_CurrentIndex s + 1) false value now)) as Hk.
  { rewrite (st_keys _ _ _ _ _ Hst). unfold place. by rewrite decide_True. }
  split; [by eexists|]. rewrite V.
  assert (expiredKey (timeUnix (Request_Time t)) (keys s') names = true) as ->; [|done].
  apply expiredKey_spec. exists names. eexists. split_and!; [done|done|].
  unfold due, newEntry, timeUnix. cbn [v_expire]. rewrite (proj2 (Z.ltb_ge _ _)) by done.
  unfold minExpireTime, unixEpoch, second in *. lia.
Qed.
End create.

Lemma create_without_ttl_expires_witness :
  let now := unixEpoch + october in
  let t := (request 2 "SYNC" EmptyString EmptyString 0) <| Request_Time := october + 1 |> in
  ∃ r s' resp s'',
    parseRequest (λ s, s) now 1 (createRequest (newCreate "/a" "v" 0) noPath) = inr r ∧
    apply (H := mapOrder) now r newStore = Ret (s', resp) ∧
    apply (H := mapOrder) now t s' = Ret (s'', zeroResponse) ∧
    (resp_err resp = None → is_Some (keys s' ["a"]) ∧ keys s'' ["a"] = None).
Proof.
  intros now t. apply (create_without_ttl_expires mapOrder (λ s, s) now now now 1 ["a"] "v" newStore t).
  - discriminate.
  - apply Forall_cons_2; [by split|constructor].
  - vm_compute. discriminate.
  - reflexivity.
  - apply newStore_ok.
  - reflexivity.
  - vm_compute. discriminate.
  - reflexivity.
  - vm_compute. discriminate.
Defined.
