(* ===== verification/ServerAnswer.v ===== *)
(** * ServerAnswer: every request is answered (src/etcdserver/server.go)

    A client calls Do, which registers the id of the request, proposes the request and
    waits; the loop of the server applies the entry once it is committed and triggers the
    id.  In between the server does other things.  The theorem puts together the codec of
    the requests, the wait list, the store and the two halves of Do. *)

From stdpp Require Import pretty sorting.
From Stdlib Require Import String Ascii FunctionalExtensionality.
From S2P Require Import Prelude Wire Raftpb RaftpbCodec Etcdserverpb Raft RaftNode.
From S2P Require Import Paths TtlHeap EtcdError StoreEvent StoreNode StoreTree StoreRemove.
From S2P Require Import Stats WatcherHub HubProps HubNotify Store StoreWalk StoreCreate StoreProps.
From S2P Require Import StoreUpdate StoreDelete StoreExpire StoreGet StoreApi StoreReplica StoreSave.
From S2P Require Import StoreFindings Wait Url Server Http Client ServerProps ServerFindings.

(** The index and the size of the heap, which bound the next indexes. *)
Definition height (s : store) : Z := s_CurrentIndex s + Z.of_nat (Len (t_ttl (s_tree s))).

(** apply returns, and keeps the invariant of the store. *)
Lemma apply_total (R : ChildRange) now r s :
  store_ok s → height s + 2 < 2 ^ 64 →
  ∃ s' resp, apply now r s = Ret (s', resp) ∧ store_ok s' ∧ height s' ≤ height s + 2.
Proof.
  intros Ok Hh. unfold height in *. rewrite apply_kind. destruct (kindOf r) as [o|p rec sort|cutoff|].
  - destruct (runOp_refines now o s) as (s' & a & c & E & Ha & I); [done|unfold room; lia|].
    destruct (implements_bound _ _ _ _ _ Ok Ha I) as [_ Hb]. unfold respond. rewrite E.
    eexists s', _. split; [done|]. split; [|done].
    destruct c as [|[[] ?]]; [apply I|by destruct I as (? & ? & _ & [] & _)].
  - destruct (get_store R now s p rec sort Ok) as (s' & resp & E & Ok' & _ & Hi & Ht & _).
    exists s', resp. rewrite E, Hi, Ht. split_and!; [done..|lia].
  - destruct (DeleteExpiredKeys_ok now s cutoff Ok) as (s' & E & Ok' & _ & _ & Hb); [lia|].
    rewrite E. eexists s', _. split_and!; [done..|lia].
  - eexists s, _. split_and!; [done..|lia].
Qed.

(** ** The other goroutines *)

(** The id that an entry triggers. *)
Definition entryID (e : Entry) : option Z :=
  let data := Entry_Data e in
  if Entry_Type e =? EntryNormal then
    match Request_Unmarshal (S (length data)) data zeroRequest with
    | Ret (r, _) => Some (Request_ID r)
    | _ => None
    end
  else
    match ConfChange_Unmarshal (S (length data)) data zeroConfChange with
    | Ret (cc, _) => Some (ConfChange_ID cc)
    | _ => None
    end.

(** What the server does for others than the client that waits for [id] on [ch]. *)
Inductive others `{ChildRange} (id : Z) (ch : positive) : EtcdServer → EtcdServer → Prop :=
  | others_apply clock e s i s' j :
      applyEntry clock e (s, i) = Ret (s', j) → entryID e ≠ Some id → others id ch s s'
  | others_do now r s s' d : Do now r s = Ret (s', d) → Request_ID r ≠ id → others id ch s s'
  | others_receive c s s' d : doReceive c s = Some (Ret (s', d)) → c ≠ ch → others id ch s s'
  | others_context i s s' d : doContext i s = Ret (s', d) → i ≠ id → others id ch s s'
  | others_configure failed cc s s' d :
      configure failed cc s = Ret (s', d) → ConfChange_ID cc ≠ id → others id ch s s'
  | others_confReceive c s s' d : confReceive c s = Some (s', d) → c ≠ ch → others id ch s s'
  | others_confContext i s s' d : confContext i s = Ret (s', d) → i ≠ id → others id ch s s'
  | others_sync now genID s s' : onSync now genID s = Ret s' → others id ch s s'
  | others_process m s : others id ch s (Process m s)
  | others_tick s : others id ch s (onTick s).

(** ** The wait list *)
Section list.
Context {V : Type}.
Implicit Types (w : Wait.List V) (id : Z) (ch : positive).

(** What they do to the wait list. *)
Inductive list_op id ch : relation (Wait.List V) :=
  | lop_register i w : i ≠ id → list_op id ch w (Register i w).1
  | lop_trigger i x w w' : i ≠ id → Trigger i x w = Ret w' → list_op id ch w w'
  | lop_receive c x w w' : c ≠ ch → receiveFrom c w = Some (x, w') → list_op id ch w w'.

(** The client waits for [id] on [ch]; its answer [x] is in [ch]. *)
Record waiting id ch w : Prop := {
  wg_ok : waiters_ok w;
  wg_id : l_m w !! id = Some ch;
}.
Record answered (x : option V) ch w : Prop := {
  an_ok : waiters_ok w;
  an_chan : l_chans w !! ch = Some (mkChan [x] true);
  an_free : ∀ i, l_m w !! i ≠ Some ch;
}.

Lemma receive_map c (x : option V) w w' :
  waiters_ok w → receiveFrom c w = Some (x, w') →
  l_m w' = l_m w ∧ (∀ i, l_m w !! i ≠ Some c) ∧ ∀ d, d ≠ c → l_chans w' !! d = l_chans w !! d.
Proof.
  intros [Hidle _] E. assert (∀ i, l_m w !! i ≠ Some c) as Hfree.
  { intros i Hi%Hidle. unfold receiveFrom in E. by rewrite Hi in E. }
  unfold receiveFrom in E. repeat case_match; simplify_eq/=; try done.
  split_and!; [done..|]. intros d Hd. by rewrite lookup_insert_ne.
Qed.

Lemma waiters_receive c (x : option V) w w' :
  waiters_ok w → receiveFrom c w = Some (x, w') → waiters_ok w'.
Proof.
  intros W E. destruct (receive_map c x w w' W E) as (Hm & Hfree & Hc). destruct W as [Hidle Hinj].
  split; rewrite Hm; [|done]. intros i d Hi. rewrite Hc; [by eapply Hidle|]. intros ->. by apply (Hfree i).
Qed.

Lemma waiting_op id ch w w' : list_op id ch w w' → waiting id ch w → waiting id ch w'.
Proof.
  intros Hop [W Hid]. destruct Hop as [i w Hi|i x w w' Hi E|c x w w' Hc E].
  - split; [by apply waiters_register|]. unfold Register. destruct (l_m w !! i) eqn:Hf; [done|].
    simpl. by rewrite lookup_insert_ne.
  - destruct (waiters_trigger i x w W) as (w2 & E2 & W2). rewrite E in E2. injection E2 as <-.
    split; [done|]. rewrite Trigger_ok in E by apply W. injection E as <-. simpl.
    by rewrite lookup_delete_ne.
  - split; [by eapply waiters_receive|]. by destruct (receive_map c x w w' W E) as (-> & _).
Qed.

Lemma answered_op id x ch w w' : list_op id ch w w' → answered x ch w → answered x ch w'.
Proof.
  intros Hop [W Hch Hfree]. destruct Hop as [i w Hi|i y w w' Hi E|c y w w' Hc E].
  - split; [by apply waiters_register|..]; unfold Register; destruct (l_m w !! i) eqn:Hf; try done; simpl;
      pose proof (is_fresh (dom (l_chans w))) as Hnew; apply not_elem_of_dom in Hnew.
    + rewrite lookup_insert_ne; [done|congruence].
    + intros j. rewrite lookup_insert_Some. intros [[_ E]|[_ Hj]]; [congruence|by apply (Hfree j)].
  - destruct (waiters_trigger i y w W) as (w2 & E2 & W2). rewrite E in E2. injection E2 as <-.
    rewrite Trigger_ok in E by apply W. injection E as <-. split; [done|..]; simpl.
    + destruct (l_m w !! i) as [d|] eqn:Hd; [|done]. rewrite lookup_insert_ne; [done|].
      intros ->. by apply (Hfree i).
    + intros j. rewrite lookup_delete_Some. intros [_ Hj]. by apply (Hfree j).
  - destruct (receive_map c y w w' W E) as (Hm & _ & Hcs). split; [by eapply waiters_receive|..].
    + by rewrite Hcs.
    + by rewrite Hm.
Qed.

(** The trigger of the id. *)
Lemma waiting_trigger id ch x w :
  waiting id ch w → ∃ w', Trigger id x w = Ret w' ∧ answered x ch w'.
Proof.
  intros [W Hid]. destruct (waiters_trigger id x w W) as (w' & E & W'). exists w'. split; [done|].
  rewrite Trigger_ok in E by apply W. injection E as <-. rewrite Hid in *. split; [done|..]; simpl.
  - apply lookup_insert_eq.
  - intros i. rewrite lookup_delete_Some. intros [Hne Hi]. apply Hne. by eapply (wt_inj _ W).
Qed.

Lemma answered_receive x ch w : answered x ch w → ∃ w', receiveFrom ch w = Some (x, w').
Proof. intros [_ Hc _]. unfold receiveFrom. rewrite Hc. eauto. Qed.
End list.

(** ** The server *)
Section answer.
Context (R : ChildRange).

Lemma list_op_trigger id ch i (x : option Response) w w' :
  i ≠ id → Trigger i x w = Ret w' → rtc (list_op id ch) w w'.
Proof. intros Hi E. eapply rtc_once, lop_trigger; [exact Hi|exact E]. Qed.

Lemma applyEntry_list id ch clock e s i s' j :
  applyEntry clock e (s, i) = Ret (s', j) → entryID e ≠ Some id → rtc (list_op id ch) (es_w s) (es_w s').
Proof.
  unfold applyEntry, entryID. intros E Hid. inv_ret E. injection E as <- <-. rename E0 into E.
  change (rtc (list_op id ch) (es_w s) (es_w x)). destruct (Entry_Type e =? EntryNormal).
  - inv_ret E. destruct x0 as [r [err|]]; [done|]. rewrite E0 in Hid. inv_ret E. destruct x0 as [st resp].
    inv_ret E. injection E as <-. eapply list_op_trigger; [|done]. congruence.
  - destruct (Entry_Type e =? EntryConfChange); [|done].
    inv_ret E. destruct x0 as [cc [err|]]; [done|]. rewrite E0 in Hid. inv_ret E. injection E as <-.
    eapply list_op_trigger; [|done]. congruence.
Qed.

Lemma Do_list id ch now r s s' d :
  Do now r s = Ret (s', d) → Request_ID r ≠ id → rtc (list_op id ch) (es_w s) (es_w s').
Proof.
  unfold Do. intros E Hid. destruct (Request_ID r =? 0); [done|].
  set (r' := if _ && _ then _ else _) in E.
  assert (Request_ID r' = Request_ID r) as Hr by (unfold r'; by destruct (_ && _)).
  destruct (isConsensus _).
  - inv_ret E. rewrite Hr in E. destruct (Register _ _) as [w c] eqn:Er. injection E as <- _.
    apply rtc_once. change (list_op id ch (es_w s) w).
    replace w with (Register (Request_ID r) (es_w s)).1 by by rewrite Er. by apply lop_register.
  - destruct (bool_decide _) in E; [|injection E as <- _; constructor].
    destruct (Request_Wait r'); inv_ret E; destruct x; injection E as <- _; constructor.
Qed.

Lemma onSync_list now g s s' : onSync now g s = Ret s' → es_w s' = es_w s.
Proof.
  unfold onSync. set (r := set _ _ _). destruct (Request_Marshal r); [|discriminate]. by intros [= <-].
Qed.

Lemma others_list id ch s s' : others id ch s s' → rtc (list_op id ch) (es_w s) (es_w s').
Proof.
  destruct 1 as [clock e s i s' j E Hid|now r s s' d E Hid|c s s' d E Hc|i s s' d E Hi
    |failed cc s s' d E Hid|c s s' d E Hc|i s s' d E Hi|now g s s' E|m s|s].
  - by eapply applyEntry_list.
  - by eapply Do_list.
  - unfold doReceive in E. destruct (receiveFrom c _) as [[[x|] w]|] eqn:Er; try discriminate E.
    injection E as <- _. eapply rtc_once, lop_receive; [exact Hc|exact Er].
  - unfold doContext in E. inv_ret E. injection E as <- _. eapply list_op_trigger; eassumption.
  - unfold configure in E. destruct (Register _ _) as [w c] eqn:Er.
    assert (list_op id ch (es_w s) w) as Hop.
    { replace w with (Register (ConfChange_ID cc) (es_w s)).1 by by rewrite Er. by apply lop_register. }
    destruct failed; [inv_ret E|]; injection E as <- _; [|by apply rtc_once].
    eapply rtc_l; [done|]. eapply list_op_trigger; eassumption.
  - unfold confReceive in E. destruct (receiveFrom c _) as [[x w]|] eqn:Er; [|discriminate E].
    injection E as <- _. eapply rtc_once, lop_receive; [exact Hc|exact Er].
  - unfold confContext in E. inv_ret E. injection E as <- _. eapply list_op_trigger; eassumption.
  - apply onSync_list in E as ->. constructor.
  - constructor.
  - constructor.
Qed.

Lemma others_keep (P : Wait.List Response → Prop) id ch s s' :
  (∀ w w', list_op id ch w w' → P w → P w') → rtc (others id ch) s s' → P (es_w s) → P (es_w s').
Proof.
  intros HP Hr. induction Hr as [|s1 s2 s3 H12%others_list _ IH]; [done|]. intros Hs. apply IH.
  clear IH. induction H12; eauto.
Qed.

(** C6. Every request is answered.  After Do has registered and proposed a request of a method
    that goes through consensus, whatever the server does for other clients and other
    entries: when the proposed entry is applied, that succeeds and the response that the
    store gives to this very request is what Do then receives and returns, however late. *)
Theorem request_answered now r s :
  waiters_ok (es_w s) → l_m (es_w s) !! Request_ID r = None → Request_ID r ≠ 0 →
  Request_ok r → Request_Size r < 2 ^ 63 → isConsensus (strOf (Request_Method r)) = true →
  ∃ s1 ch data, Do now r s = Ret (s1, DoWait (Request_ID r) ch) ∧
    es_calls s1 = es_calls s ++ [Node_Propose data] ∧
    ∀ clock e i s2, rtc (others (Request_ID r) ch) s1 s2 →
      Entry_Type e = EntryNormal → Entry_Data e = data →
      store_ok (es_Store s2) → height (es_Store s2) + 2 < 2 ^ 64 →
      ∃ s3 resp, applyEntry clock e (s2, i) = Ret (s3, Entry_Index e) ∧
        apply (clock (Entry_Index e)) r (es_Store s2) = Ret (es_Store s3, resp) ∧
        ∀ s4, rtc (others (Request_ID r) ch) s3 s4 →
          ∃ s5, doReceive ch s4 = Some (Ret (s5, DoDone resp (resp_err resp))).
Proof.
  intros W Hnew Hid Hok Hsize Hcons. destruct (Request_codec r Hok Hsize) as (data & Hm & _ & Hu).
  unfold Do. rewrite (proj2 (Z.eqb_neq _ _) Hid).
  assert (bool_decide (strOf (Request_Method r) = "GET") = false) as Hget.
  { apply bool_decide_false. intros E. by rewrite E in Hcons. }
  rewrite Hget. cbn [andb]. rewrite Hcons, Hm. cbn [lift mbind run_bind].
  pose proof (waiters_register (Request_ID r) (es_w s) W) as W1. unfold Register in *. rewrite Hnew in *.
  set (ch := fresh _) in *. eexists _, ch, data. split; [done|]. split; [done|].
  intros clock e i s2 Hr Ht Hd Hstore Hheight.
  assert (waiting (Request_ID r) ch (es_w s2)) as Hw.
  { eapply others_keep; [apply waiting_op|exact Hr|]. split; [exact W1|]. apply lookup_insert_eq. }
  destruct (apply_total R (clock (Entry_Index e)) r (es_Store s2) Hstore Hheight) as (st & resp & Ea & _).
  destruct (waiting_trigger (Request_ID r) ch (Some resp) (es_w s2) Hw) as (w & Ew & Han).
  eexists _, resp. unfold applyEntry. rewrite Ht, Hd, Hu by lia. cbn [Z.eqb EntryNormal mbind run_bind].
  rewrite Ea. cbn [mbind run_bind]. rewrite Ew. cbn [mbind run_bind]. split; [done|]. split; [done|].
  intros s4 Hr4. assert (answered (Some resp) ch (es_w s4)) as Han4.
  { eapply others_keep; [intros ??; apply answered_op|exact Hr4|exact Han]. }
  destruct (answered_receive _ _ _ Han4) as [w4 E4]. unfold doReceive. rewrite E4. by eexists.
Qed.
End answer.

(** ** The requests that the HTTP interface makes *)
Lemma orFail_inr {A B} code cause (x : option A) (k : A → Error + B) b :
  orFail code cause x k = inr b → ∃ a, x = Some a ∧ k a = inr b.
Proof. destruct x; [|done]. eauto. Qed.

Lemma failIf_inr {B} c code cause (k : Error + B) b :
  failIf c code cause k = inr b → c = false ∧ k = inr b.
Proof. by destruct c. Qed.

Lemma digitsValue_nonneg s acc n : 0 ≤ acc → digitsValue acc s = Some n → 0 ≤ n.
Proof.
  revert acc. induction s as [|c s IH]; intros acc Ha; [by intros [= <-]|]. cbn [digitsValue].
  unfold digitOf. destruct (_ && _) eqn:E; [|done]. to_prop. apply IH. lia.
Qed.

Lemma ParseUint_range s n : ParseUint s = Some n → inU 64 n.
Proof.
  unfold ParseUint. case_decide; [done|]. destruct (digitsValue 0 s) as [m|] eqn:E; [|done].
  apply digitsValue_nonneg in E; [|done]. simpl. destruct (m <? 2 ^ 64) eqn:Hm; [|done].
  intros [= <-]. to_prop. split; lia.
Qed.

Lemma getUint64_range form key n : getUint64 form key = Some n → inU 64 n.
Proof.
  unfold getUint64. case_match; [apply ParseUint_range|]. intros [= <-]. split; lia.
Qed.

(** C25. Every request that the HTTP interface hands to the server is well formed: its numbers
    have the widths of the fields of the message, as its Marshal needs, its method is the one
    of the HTTP request and one that Do knows, it has the given id, and it waits only when it
    is a GET.  None is a quorum read: a GET with quorum=true, which the documentation of the
    interface offers as a linearized read (Documentation/api.md), is read from the local store
    like every other GET, because the interface does not look at that parameter. *)
Theorem served_request_ok quote now id r w rr :
  serveKeys quote now id r w = inr rr → inS 64 id →
  Request_ok rr ∧ Request_ID rr = id ∧ strOf (Request_Method rr) = hr_Method r ∧
  (isConsensus (hr_Method r) = true ∨ hr_Method r = "GET") ∧ Request_Quorum rr = false ∧
  (Request_Wait rr = true → hr_Method r = "GET").
Proof.
  unfold serveKeys, allowMethod. case_bool_decide as Hm; [|done]. simpl. intros E Hid.
  destruct (parseRequest _ _ _ _) as [|rr'] eqn:Ep; [done|]. injection E as ->. revert Ep.
  unfold parseRequest. destruct (ParseForm _ _) as [form [|]]; [done|]. intros E.
  apply failIf_inr in E as [_ E]. apply orFail_inr in E as (pIdx & Hp & E). apply orFail_inr in E as (wIdx & Hw & E).
  do 2 apply orFail_inr in E as (? & _ & E). apply orFail_inr in E as (wait & _ & E).
  do 2 apply orFail_inr in E as (? & _ & E). apply failIf_inr in E as [Hwait E].
  apply failIf_inr in E as [_ E]. do 2 apply orFail_inr in E as (? & _ & E). injection E as <-.
  set (q := mkRequest _ _ _ _ _ _ _ _ _ _ _ _ _ _ _ _ _).
  assert (Request_ok q ∧ ∀ ttl, Request_ok (q <| Request_Expiration := expirationAfter now ttl |>)) as [H1 H2].
  { split; [|intros ttl]; (split; simpl; [done|by eapply getUint64_range| |by eapply getUint64_range| |apply unrecognized_nil]);
      (apply wrapS_range || split); lia. }
  assert (∀ m, strOf (Request_Method m) = hr_Method r → Request_Quorum m = false → Request_Wait m = wait →
    Request_ok m → Request_ID m = id → Request_ok m ∧ Request_ID m = id ∧
    strOf (Request_Method m) = hr_Method r ∧ (isConsensus (hr_Method r) = true ∨ hr_Method r = "GET") ∧
    Request_Quorum m = false ∧ (Request_Wait m = true → hr_Method r = "GET")) as Hall.
  2: { case_match; apply Hall; simpl; (done || apply strOf_bytesOf). }
  intros m -> -> -> Hq ->. split_and!; [done..| |done|].
  - set_unfold. destruct Hm as [->|[->|[->|[->|[]]]]]; auto.
  - intros ->. by case_bool_decide.
Qed.

(** ** Examples *)
Definition demoHttp : httpRequest := createRequest (newCreate "/a" "v" (5 * second)) noPath.

Lemma served_request_ok_witness :
  ∃ rr, serveKeys (λ s, s) (unixEpoch + october) 7 demoHttp newWriter = inr rr ∧ Request_ok rr ∧
    isConsensus (hr_Method demoHttp) = true.
Proof.
  destruct (serveKeys (λ s, s) (unixEpoch + october) 7 demoHttp newWriter) as [w|rr] eqn:E.
  - exfalso. vm_compute in E. discriminate E.
  - exists rr. destruct (served_request_ok (λ s, s) (unixEpoch + october) 7 demoHttp newWriter rr E)
      as (Hok & _ & _ & _); [split; vm_compute; congruence|].
    split; [reflexivity|]. split; [exact Hok|reflexivity].
Defined.

Lemma request_answered_witness :
  let r := request 7 "PUT" "/a" "v" 0 in
  ∃ s1 ch data, Do (H := mapOrder) 0 r newServer = Ret (s1, DoWait 7 ch) ∧
    es_calls s1 = [Node_Propose data] ∧
    ∀ clock e i s2, rtc (others (H := mapOrder) 7 ch) s1 s2 →
      Entry_Type e = EntryNormal → Entry_Data e = data →
      store_ok (es_Store s2) → height (es_Store s2) + 2 < 2 ^ 64 →
      ∃ s3 resp, applyEntry (H := mapOrder) clock e (s2, i) = Ret (s3, Entry_Index e) ∧
        apply (H := mapOrder) (clock (Entry_Index e)) r (es_Store s2) = Ret (es_Store s3, resp) ∧
        ∀ s4, rtc (others (H := mapOrder) 7 ch) s3 s4 →
          ∃ s5, doReceive ch s4 = Some (Ret (s5, DoDone resp (resp_err resp))).
Proof.
  apply (request_answered mapOrder 0 (request 7 "PUT" "/a" "v" 0) newServer).
  - apply waiters_new.
  - reflexivity.
  - discriminate.
  - split; [done..|apply unrecognized_nil].
  - reflexivity.
  - reflexivity.
Defined.
