(* ===== verification/Sha1.v ===== *)
(** * Sha1: the hash of a member (package crypto/sha1)

    [sha1.Sum] of Go's crypto/sha1, from which the id of a member is made. *)

From S2P Require Import Prelude.

Definition rotl (n x : Z) : Z := uint32 (Z.lor (Z.shiftl x n) (Z.shiftr x (32 - n))).
Definition not32 (x : Z) : Z := Z.lxor x (2 ^ 32 - 1).

(** Big-endian words and bytes. *)
Definition word (bs : list Z) : Z := foldl (λ w b, 256 * w + b) 0 bs.
Fixpoint beBytes (n : nat) (z : Z) : list Z :=
  match n with O => [] | S n => z / 256 ^ Z.of_nat n mod 256 :: beBytes n z end.

Fixpoint chunks (n : nat) (fuel : nat) (l : list Z) : list (list Z) :=
  match fuel, l with
  | S fuel, _ :: _ => take n l :: chunks n fuel (drop n l)
  | _, _ => []
  end.

(** The padding to a multiple of 64 bytes, with the length in bits. *)
Definition padding (n : Z) : list Z :=
  let zeros := (55 - n) mod 64 in
  128 :: replicate (Z.to_nat zeros) 0 ++ beBytes 8 (uint64 (8 * n)).

(** The words of the schedule after the first sixteen, the newest first. *)
Fixpoint schedule (n : nat) (ws : list Z) : list Z :=
  match n with
  | O => ws
  | S n =>
      let at_ i := default 0 (ws !! i) in
      let w := Z.lxor (Z.lxor (at_ 2%nat) (at_ 7%nat)) (Z.lxor (at_ 13%nat) (at_ 15%nat)) in
      schedule n (rotl 1 w :: ws)
  end.

Definition shaState : Type := Z * Z * Z * Z * Z.

Definition round (st : shaState) (iw : nat * Z) : shaState :=
  let '(a, b, c, d, e) := st in
  let '(i, w) := iw in
  let '(f, k) :=
    if (i <? 20)%nat then (Z.lor (Z.land b c) (Z.land (not32 b) d), 0x5A827999)
    else if (i <? 40)%nat then (Z.lxor b (Z.lxor c d), 0x6ED9EBA1)
    else if (i <? 60)%nat then (Z.lor (Z.land (Z.lor b c) d) (Z.land b c), 0x8F1BBCDC)
    else (Z.lxor b (Z.lxor c d), 0xCA62C1D6) in
  let t := uint32 (rotl 5 a + f + e + w + k) in
  (t, a, rotl 30 b, c, d).

Definition block (st : shaState) (p : list Z) : shaState :=
  let ws := reverse (schedule 64 (reverse (word <$> chunks 4 16 p))) in
  let '(a, b, c, d, e) := foldl round st (imap pair ws) in
  let '(h0, h1, h2, h3, h4) := st in
  (uint32 (h0 + a), uint32 (h1 + b), uint32 (h2 + c), uint32 (h3 + d), uint32 (h4 + e)).

Definition Sum (data : list Z) : list Z :=
  let data := data ++ padding (len data) in
  let init := (0x67452301, 0xEFCDAB89, 0x98BADCFE, 0x10325476, 0xC3D2E1F0) in
  let '(a, b, c, d, e) := foldl block init (chunks 64 (length data) data) in
  beBytes 4 a ++ beBytes 4 b ++ beBytes 4 c ++ beBytes 4 d ++ beBytes 4 e.

(** The hash of the three bytes abc, from FIPS 180. *)
Example Sum_abc :
  Sum [97; 98; 99] =
  [0xA9; 0x99; 0x3E; 0x36; 0x47; 0x06; 0x81; 0x6A; 0xBA; 0x3E; 0x25; 0x71; 0x78; 0x50; 0xC2; 0x6C;
   0x9C; 0xD0; 0xD8; 0x9D].
Proof. by vm_compute. Qed.
