(* ===== verification/Cluster.v ===== *)
(** * Cluster: the members of a cluster (src/etcdserver/cluster.go, member.go, cluster_store.go)

    A Cluster is a map from ids to members.  The members are kept in the store, below
    /_etcd/machines, as JSON text: the text of a member is a parameter, with its two
    directions.  [intn] is rand.Intn. *)

From stdpp Require Import pretty sorting.
From Stdlib Require Import String Ascii.
From S2P Require Import Prelude Wire Raftpb RaftpbCodec Etcdserverpb Wal.
From S2P Require Import Paths TtlHeap EtcdError StoreEvent WatcherHub StoreNode Store.
From S2P Require Import Url Server Sha1.

Definition machineKVPrefix : string := "/_etcd/machines/".
Definition raftPrefix : string := "/raft".

Record Member := mkMember {
  m_ID : Z;
  m_Name : string;
  m_PeerURLs : list string;
  m_ClientURLs : list string;
}.

(** [strconv.FormatUint(n, 16)]. *)
Fixpoint dropZeros (s : string) : string :=
  match s with
  | String c (String _ _ as rest) => if decide (c = "0"%char) then dropZeros rest else s
  | _ => s
  end.
Definition FormatHex (n : Z) : string := dropZeros (hexDigits 16 n).

(** [now] is the Unix time, when it is given. *)
Definition newMember (name : string) (peerURLs : list string) (now : option Z) : Member :=
  let b := bytesOf name ++ (peerURLs ≫= bytesOf) in
  let b := match now with Some n => b ++ bytesOf (pretty n) | None => b end in
  let hash := Sum b in
  let id := int64 (word (take 8 hash)) in
  let id := if id <? 0 then int64 (id * -1) else id in
  mkMember id name peerURLs [].

Definition storeKey (m : Member) : string := Join machineKVPrefix (FormatHex (uint64 (m_ID m))).

(** ** Cluster *)
Abbreviation Cluster := (gmap Z Member).

(** The order in which a range over a Cluster visits it. *)
Class MemberRange := {
  members : Cluster → list (Z * Member);
  members_perm : ∀ c, members c ≡ₚ map_to_list c;
}.

Definition sortStrings (l : list string) : list string := merge_sort (λ a b, String.leb a b = true) l.

Definition FindID (id : Z) (c : Cluster) : option Member := c !! id.

(** [None] for an error. *)
Definition addMember (m : Member) (c : Cluster) : option Cluster :=
  match FindID (m_ID m) c with
  | Some _ => None
  | None => Some (<[m_ID m := m]> c)
  end.

(** The cluster, and whether there was no error. *)
Fixpoint AddSlice (mems : list Member) (c : Cluster) : Cluster * bool :=
  match mems with
  | [] => (c, true)
  | m :: mems =>
      match addMember m c with
      | None => (c, false)
      | Some c => AddSlice mems c
      end
  end.

Definition Pick (intn : nat → nat) (id : Z) (c : Cluster) : string :=
  match FindID id c with
  | Some m =>
      match m_PeerURLs m with
      | [] => EmptyString
      | urls => default EmptyString (urls !! intn (length urls))
      end
  | None => EmptyString
  end.

Section cluster.
Context `{MemberRange}.

Definition FindName (name : string) (c : Cluster) : option Member :=
  List.find (λ m, bool_decide (m_Name m = name)) (members c).*2.

Definition clusterString (c : Cluster) : string :=
  String.concat ","
    (sortStrings ((members c).*2 ≫= λ m, (λ u, (m_Name m ++ "=" ++ u)%string) <$> m_PeerURLs m)).

Definition IDs (c : Cluster) : list Z := m_ID <$> (members c).*2.

Definition PeerURLs (c : Cluster) : list string := sortStrings ((members c).*2 ≫= m_PeerURLs).
Definition ClientURLs (c : Cluster) : list string := sortStrings ((members c).*2 ≫= m_ClientURLs).
End cluster.

(** ** The members in the store *)
Section clusterStore.
Context `{ChildRange} `{MemberRange}.
Context (marshalMember : Member → string) (unmarshalMember : string → option Member).

Definition storeAdd (now : Z) (m : Member) (s : store) : run store :=
  '(s, r) ← storeCreate now (storeKey m) false (marshalMember m) false Permanent s;
  match r with
  | inl _ => Crash "add member should never fail"
  | inr _ => Ret s
  end.

Definition NewClusterStore (now : Z) (c : Cluster) (s : store) : run store :=
  forEach (storeAdd now) (members c).*2 s.

(** One turn of the loop of Get. *)
Definition getMember (n : NodeExtern) (c : Cluster) : run Cluster :=
  v ← lift (deref (ne_Value n));
  match unmarshalMember v with
  | None => Crash "unmarshal peer error"
  | Some m =>
      match addMember m c with
      | None => Crash "add member to cluster should never fail"
      | Some c => Ret c
      end
  end.

Definition clusterGet (now : Z) (s : store) : run (store * Cluster) :=
  '(s, r) ← storeGet now machineKVPrefix true false s;
  match r with
  | inl _ => Crash "get member should never fail"
  | inr e => c ← forEach getMember (ne_Nodes (e_Node e)) ∅; Ret (s, c)
  end.

Definition clusterDelete (now : Z) (id : Z) (s : store) : run store :=
  '(s, c) ← clusterGet now s;
  m ← lift (deref (FindID id c));
  '(s, r) ← storeDelete now (storeKey m) false false s;
  match r with
  | inl _ => Crash "delete peer should never fail"
  | inr _ => Ret s
  end.

(** ** Sending messages

    [post] sends the data to a URL and gives the status of the response, if there is one. *)
Section send.
Context {E : Type} (post : string → list Z → E → E * option Z) (intn : nat → nat).

Definition httpPost (url : string) (data : list Z) (e : E) : E * bool :=
  let '(e, status) := post url data e in (e, bool_decide (status = Some 204)).

Fixpoint sendLoop (n : nat) (now : Z) (m : Message) (s : store) (e : E) : run (store * E) :=
  match n with
  | O => Ret (s, e)
  | S n =>
      '(s, c) ← clusterGet now s;
      let u := Pick intn (Message_To m) c in
      if decide (u = EmptyString) then Ret (s, e)
      else
        data ← lift (Message_Marshal m);
        let '(e, ok) := httpPost (u ++ raftPrefix)%string data e in
        if ok : bool then Ret (s, e) else sendLoop n now m s e
  end.
Definition sendMessage (now : Z) (m : Message) (s : store) (e : E) : run (store * E) :=
  sendLoop 3 now m s e.
End send.

(** ** publish (src/etcdserver/server.go) *)

(** The request of publish, with the name and the URLs of the server. *)
Definition publishRequest (now genID : Z) (name : string) (clientURLs : list string) (s : store)
  : run (store * Request) :=
  '(s, c) ← clusterGet now s;
  m ← lift (deref (FindName name c));
  let m := mkMember (m_ID m) (m_Name m) (m_PeerURLs m) clientURLs in
  Ret (s, zeroRequest <| Request_ID := genID |> <| Request_Method := bytesOf "PUT" |>
            <| Request_Path := bytesOf (storeKey m) |> <| Request_Val := bytesOf (marshalMember m) |>).

(** Whether publish calls Do again after it returned [err]. *)
Definition publishAgain (err : option serverErr) : bool :=
  match err with
  | None | Some ErrStopped => false
  | Some _ => true
  end.
End clusterStore.
