(* ===== verification/ClusterProps.v ===== *)
(** * ClusterProps: the members of a cluster in the store (src/etcdserver/cluster_store.go)

    The part of the store below /_etcd/machines holds a map of members: what the cluster
    store puts there it gets back, as far as its strings are UTF-8, and what it deletes is
    gone.  A store that holds the members already, as one that was recovered from a snapshot
    does, makes NewClusterStore panic. *)

From stdpp Require Import pretty sorting.
From Stdlib Require Import String Ascii FunctionalExtensionality.
From S2P Require Import Prelude Wire Raftpb RaftpbCodec Etcdserverpb Wal WalNames.
From S2P Require Import Paths Utf8 TtlHeap EtcdError StoreEvent StoreNode StoreTree StoreRemove.
From S2P Require Import Stats WatcherHub HubProps HubNotify Store StoreWalk StoreCreate StoreProps.
From S2P Require Import StoreUpdate StoreDelete StoreExpire StoreGet StoreApi StoreTheorems StoreFindings.
From S2P Require Import StoreSave StoreSaved StoreRecover Url Server Sha1 Cluster.

(** ** Hexadecimal names *)
Fixpoint zeros (n : nat) : string := match n with O => EmptyString | S n => String "0" (zeros n) end.

Lemma dropZeros_pad s : ∃ n, s = (zeros n ++ dropZeros s)%string.
Proof.
  induction s as [|c s [n IH]]; [by exists O|]. cbn [dropZeros]. destruct s as [|d s]; [by exists O|].
  case_decide as Hc; [|by exists O]. subst c. exists (S n). cbn [zeros]. rewrite append_cons. by f_equal.
Qed.

Lemma length_zeros n : String.length (zeros n) = n.
Proof. induction n as [|n IH]; [done|]. cbn [zeros String.length]. by rewrite IH. Qed.

Lemma dropZeros_inj s s' : String.length s = String.length s' → dropZeros s = dropZeros s' → s = s'.
Proof.
  intros Hl E. destruct (dropZeros_pad s) as [n Hn], (dropZeros_pad s') as [n' Hn'].
  rewrite Hn, Hn', !length_append, !length_zeros, E in Hl. assert (n = n') by lia. congruence.
Qed.

Lemma hexDigits_inj n z z' :
  0 ≤ z < 16 ^ Z.of_nat n → 0 ≤ z' < 16 ^ Z.of_nat n → hexDigits n z = hexDigits n z' → z = z'.
Proof.
  intros Hz Hz' E. assert (∀ s, String.compare s s = Eq) as Hrefl.
  { intros s. pose proof (String.compare_antisym s s) as Ha. by destruct (String.compare s s). }
  destruct (Z.lt_trichotomy z z') as [Hlt|[|Hlt]]; [|done|]; exfalso.
  - pose proof (hexDigits_compare n z z' ltac:(lia) ltac:(lia)) as Hc. by rewrite E, Hrefl in Hc.
  - pose proof (hexDigits_compare n z' z ltac:(lia) ltac:(lia)) as Hc. by rewrite E, Hrefl in Hc.
Qed.

Definition hexName (id : Z) : string := FormatHex (uint64 id).

Lemma hexName_inj id id' : inS 64 id → inS 64 id' → hexName id = hexName id' → id = id'.
Proof.
  intros Hid Hid' E. apply dropZeros_inj in E; [|by rewrite !length_hexDigits].
  apply hexDigits_inj in E; [|apply uint64_bound..].
  rewrite <-(int64_uint64 id), <-(int64_uint64 id') by done. by rewrite E.
Qed.

(** Every character of a hexadecimal number. *)
Fixpoint all (P : ascii → Prop) (s : string) : Prop :=
  match s with EmptyString => True | String c s => P c ∧ all P s end.
Definition hexChar (c : ascii) : Prop := ∃ d, 0 ≤ d < 16 ∧ c = hexDigit d.

Lemma hexChar_plain c : hexChar c → c ≠ slash ∧ c ≠ "."%char ∧ c ≠ "_"%char.
Proof.
  intros (d & Hd & ->). assert (d ∈ seqZ 0 16) as Hin by (apply elem_of_seqZ; lia).
  cbn in Hin. repeat (apply elem_of_cons in Hin as [->|Hin]; [by vm_compute|]). by apply elem_of_nil in Hin.
Qed.

Lemma hexDigits_all n z : all hexChar (hexDigits n z).
Proof.
  induction n as [|n IH]; [done|]. cbn [hexDigits]. split; [|done]. eexists. split; [|done].
  apply Z.mod_pos_bound. lia.
Qed.

Lemma dropZeros_all P s : all P s → all P (dropZeros s).
Proof.
  induction s as [|c s IH]; [done|]. intros [Hc Hs]. cbn [dropZeros]. destruct s as [|d s]; [done|].
  case_decide; [by apply IH|done].
Qed.

Lemma dropZeros_nonempty c s : dropZeros (String c s) ≠ EmptyString.
Proof.
  revert c. induction s as [|d s IH]; intros c; [done|]. cbn [dropZeros]. case_decide; [apply IH|done].
Qed.

Lemma hexName_ok id : name_ok (hexName id) ∧ hiddenName (hexName id) = false.
Proof.
  pose proof (dropZeros_all _ _ (hexDigits_all 16 (uint64 id))) as Hall.
  assert (hexName id ≠ EmptyString) as Hne by (unfold hexName, FormatHex; cbn [hexDigits]; apply dropZeros_nonempty).
  fold (hexName id) (FormatHex (uint64 id)) in Hall. change (FormatHex (uint64 id)) with (hexName id) in Hall.
  destruct (hexName id) as [|c s]; [done|]. destruct Hall as [Hc Hs]. apply hexChar_plain in Hc as (H1 & H2 & H3).
  split; [split; [|done|intros [= ->]; done|intros [= -> _]; done]|].
  - split; [done|]. clear -Hs. induction s as [|d s IH]; [done|]. destruct Hs as [Hd Hs].
    split; [by apply hexChar_plain|auto].
  - unfold hiddenName. by case_bool_decide.
Qed.

(** ** The members as keys *)
Definition machines : list string := ["_etcd"; "machines"].
Definition memberKey (id : Z) : list string := machines ++ [hexName id].

Lemma machines_ok : Forall name_ok machines.
Proof. by repeat constructor. Qed.

Lemma memberKey_ok id : Forall name_ok (memberKey id).
Proof. apply Forall_app. split; [apply machines_ok|]. apply Forall_singleton, hexName_ok. Qed.

Lemma parts_prefix : parts machineKVPrefix = machines.
Proof. by vm_compute. Qed.

Lemma parts_storeKey m : parts (storeKey m) = memberKey (m_ID m).
Proof.
  unfold storeKey, Join. fold (hexName (m_ID m)). set (x := hexName (m_ID m)).
  rewrite decide_False by done. change (machineKVPrefix ++ String slash x)%string
    with (String slash ("_etcd" ++ String slash ("machines" ++ String slash (EmptyString ++ String slash x)))).
  rewrite Clean_rooted. destruct (hexName_ok (m_ID m)) as [Hx _]. fold x in Hx.
  assert (parts ("_etcd" ++ String slash ("machines" ++ String slash (EmptyString ++ String slash x))) =
    memberKey (m_ID m)) as ->; [|apply parts_pathOf, memberKey_ok].
  unfold parts. rewrite !split_app, split_noSlash by (done || apply Hx). unfold cleanNames. cbn [foldl].
  rewrite (cleanStep_keep _ _ "_etcd"), (cleanStep_keep _ _ "machines") by by split.
  unfold cleanStep at 2. rewrite decide_True by by left. by rewrite cleanStep_keep.
Qed.

Lemma hexChar_single c : hexChar c → single c = true.
Proof.
  intros (d & Hd & ->). assert (d ∈ seqZ 0 16) as Hin by (apply elem_of_seqZ; lia).
  cbn in Hin. repeat (apply elem_of_cons in Hin as [->|Hin]; [by vm_compute|]). by apply elem_of_nil in Hin.
Qed.

Lemma memberKey_plain id : Forall plain (memberKey id).
Proof.
  apply Forall_app. split; [by repeat constructor|]. apply Forall_cons. split; [|constructor].
  pose proof (dropZeros_all _ _ (hexDigits_all 16 (uint64 id))) as Hall. fold (FormatHex (uint64 id)) (hexName id) in Hall.
  change (FormatHex (uint64 id)) with (hexName id) in Hall.
  induction (hexName id) as [|c s IH]; [done|]. destruct Hall as [Hc Hs]. split; [by apply hexChar_single|auto].
Qed.

(** A member as it comes back from JSON. *)
Definition coerceMember (m : Member) : Member :=
  mkMember (m_ID m) (coerce (m_Name m)) (coerce <$> m_PeerURLs m) (coerce <$> m_ClientURLs m).

(** The strings of the member are UTF-8. *)
Definition utf8_member (m : Member) : Prop :=
  Valid (m_Name m) ∧ Forall Valid (m_PeerURLs m) ∧ Forall Valid (m_ClientURLs m).

Lemma coerceMember_valid m : utf8_member m → coerceMember m = m.
Proof.
  intros (H1 & H2 & H3). destruct m as [id name peers clients]. unfold coerceMember. simpl in *.
  assert (∀ l, Forall Valid l → coerce <$> l = l) as Hl.
  { clear. intros l. induction 1 as [|x l Hx _ IH]; [done|]. rewrite fmap_cons, IH. f_equal. by apply coerce_valid. }
  rewrite !Hl by done. f_equal. by apply coerce_valid.
Qed.

Section members.
Context (marshalMember : Member → string) (unmarshalMember : string → option Member).
Context (json : ∀ m, unmarshalMember (marshalMember m) = Some (coerceMember m)).

(** The ids are the keys of the map. *)
Definition cluster_ok (c : Cluster) : Prop := ∀ id m, c !! id = Some m → m_ID m = id ∧ inS 64 id.

(** The keys [v] hold the members of [c], and nothing else next to them. *)
Record holds (v : kmap) (c : Cluster) : Prop := {
  ho_top : ∀ en, v ["_etcd"] = Some en → v_value en = None;
  ho_dir : ∀ en, v machines = Some en → v_value en = None;
  ho_in : ∀ id m, c !! id = Some m →
    ∃ en, v (memberKey id) = Some en ∧ v_value en = Some (marshalMember m);
  ho_only : ∀ x en, v (machines ++ [x]) = Some en → ∃ id, is_Some (c !! id) ∧ x = hexName id;
}.

Lemma holds_ext v v' c : (∀ k, v k = v' k) → holds v c → holds v' c.
Proof. intros E [H1 H2 H3 H4]. split; intros *; rewrite <-?E; eauto. Qed.

Lemma memberKey_inj id id' : inS 64 id → inS 64 id' → memberKey id = memberKey id' → id = id'.
Proof. intros ?? E. apply app_inv_head in E. injection E. by apply hexName_inj. Qed.

(** One more member. *)
Lemma holds_add v c i cur m value expire :
  holds v c → cluster_ok c → inS 64 (m_ID m) → c !! m_ID m = None →
  value = marshalMember m →
  createSpec cur v (memberKey (m_ID m)) false (newEntry i false value expire) =
    inr (place (uint64 (cur + 1)) (memberKey (m_ID m)) (newEntry i false value expire) v) ∧
  holds (place (uint64 (cur + 1)) (memberKey (m_ID m)) (newEntry i false value expire) v)
    (<[m_ID m := m]> c) ∧
  is_Some (place (uint64 (cur + 1)) (memberKey (m_ID m)) (newEntry i false value expire) v machines).
Proof.
  intros [H1 H2 H3 H4] Hc Hid Hnew ->. set (key := memberKey (m_ID m)).
  assert (v key = None) as Hkey.
  { destruct (v key) as [en|] eqn:E; [|done]. apply H4 in E as (id & [m' Hm'] & E).
    destruct (Hc _ _ Hm') as [_ Hid']. apply hexName_inj in E; [|done..]. congruence. }
  assert (∀ k, k ≠ key → length k ≠ 3%nat → place (uint64 (cur + 1)) key (newEntry i false (marshalMember m) expire) v k =
    match v k with Some e => Some e | None => if decide (k `prefix_of` key) then Some (dirEntry (uint64 (cur + 1))) else None end) as Hplace.
  { intros k Hk _. unfold place. by rewrite decide_False. }
  split; [|split].
  - unfold createSpec. rewrite decide_False by done. rewrite Hkey. cbn [placeError].
    assert (dirError cur v [] (removelast key) = None) as ->; [|done]. cbn [removelast key memberKey machines app dirError].
    specialize (H1). specialize (H2). unfold machines in H2.
    destruct (v ["_etcd"]) as [[[|] ? ? ?]|]; [by specialize (H1 _ eq_refl)| |done].
    destruct (v ["_etcd"; "machines"]) as [[[|] ? ? ?]|]; [by specialize (H2 _ eq_refl)|done..].
  - split.
    + intros en. rewrite Hplace by done. destruct (v ["_etcd"]); [by apply H1|]. case_decide; [|done]. by intros [= <-].
    + intros en. rewrite Hplace by done. destruct (v machines) eqn:E; [intros [= <-]; by apply H2|].
      case_decide; [|done]. by intros [= <-].
    + intros id m'. rewrite lookup_insert_Some. intros [[<- <-]|[Hne Hm']].
      * eexists. unfold place. by rewrite decide_True.
      * destruct (H3 _ _ Hm') as (en & Hen & Hv). exists en. split; [|done]. unfold place.
        rewrite decide_False; [by rewrite Hen|]. intros E. destruct (Hc _ _ Hm') as [_ ?].
        apply Hne. symmetry. by apply memberKey_inj.
    + intros x en. unfold place. case_decide as Hx.
      * intros _. apply app_inv_head in Hx. injection Hx as ->. exists (m_ID m). split; [|done].
        rewrite lookup_insert_eq. by eexists.
      * destruct (v (machines ++ [x])) as [en'|] eqn:E.
        -- intros _. apply H4 in E as (id & [m' Hm'] & ->). exists id. split; [|done].
           rewrite lookup_insert_ne; [by eexists|]. congruence.
        -- case_decide as Hp; [|done]. exfalso. apply Hx. destruct Hp as [z Hz]. apply (f_equal length) in Hz as Hl.
           rewrite length_app in Hl. simpl in Hl. destruct z; [by rewrite app_nil_r in Hz|simpl in Hl; lia].
  - rewrite Hplace by done. destruct (v machines); [by eexists|]. rewrite decide_True; [by eexists|]. by exists [hexName (m_ID m)].
Qed.

Context `{R1 : ChildRange}.

(** ** Get *)
Lemma Forall2_choose {A B} (R : A → B → Prop) l :
  (∀ a, a ∈ l → ∃ b, R a b) → ∃ k, Forall2 R l k.
Proof.
  induction l as [|a l IH]; intros Hl; [by exists []|].
  destruct IH as [k Hk]; [intros b Hb; apply Hl; by right|]. destruct (Hl a) as [b Hb]; [by left|].
  exists (b :: k). by constructor.
Qed.

Lemma Forall2_elem_l {A B} (R : A → B → Prop) l k a : Forall2 R l k → a ∈ l → ∃ b, b ∈ k ∧ R a b.
Proof.
  intros F [i Hi]%list_elem_of_lookup. destruct (Forall2_lookup_l _ _ _ _ _ F Hi) as (b & Hb & HR).
  exists b. split; [by eapply list_elem_of_lookup_2|done].
Qed.

Lemma Repr_file fuel now recursive sorted t p n :
  t_nodes t !! p = Some n → n_Children n = None →
  Repr (S fuel) now recursive sorted t p = Ret (externOf now (n_Path n) p (entryOf n)).
Proof.
  intros Hn Hc. cbn [Repr]. rewrite (nodeAt_eq _ _ _ Hn). cbn [mbind run_bind].
  rewrite ExpirationAndTTL_spec, Hc. unfold externOf, entryOf, IsDir. by rewrite Hc.
Qed.

(** A directory of files that are not hidden is listed whole. *)
Lemma reprVisible_files fuel now sorted t (l : list ptr) :
  (∀ p, p ∈ l → ∃ m, t_nodes t !! p = Some m ∧ IsHidden m = Ok false ∧ n_Children m = None) →
  ∃ es, reprVisible (Repr (S fuel) now true sorted t) t l = Ret es ∧
    Forall2 (λ p e, ∃ m, t_nodes t !! p = Some m ∧ e = externOf now (n_Path m) p (entryOf m)) l es.
Proof.
  induction l as [|p l IH]; intros Hl; [by exists []|].
  destruct IH as (es & E & F); [intros q Hq; apply Hl; by right|].
  destruct (Hl p) as (m & Hm & Hh & Hc); [by left|]. cbn [reprVisible].
  rewrite (nodeAt_eq _ _ _ Hm). cbn [mbind run_bind]. rewrite Hh. cbn [lift mbind run_bind].
  rewrite (Repr_file _ _ _ _ _ _ _ Hm Hc), E. cbn [mbind run_bind]. eexists. split; [done|].
  constructor; [by exists m|done].
Qed.

Lemma insert_member (c0 : Cluster) m ms id m' :
  c0 !! m_ID m = None →
  <[m_ID m := m]> c0 !! id = Some m' ∨ m' ∈ ms ∧ m_ID m' = id ↔
  c0 !! id = Some m' ∨ m' ∈ m :: ms ∧ m_ID m' = id.
Proof.
  intros Hm. rewrite lookup_insert_Some, elem_of_cons.
  destruct (decide (m_ID m = id)) as [<-|Hne]; [|naive_solver]. rewrite Hm. naive_solver.
Qed.

(** The members after the first are not in the map with the first. *)
Lemma later_members (c0 : Cluster) m ms :
  NoDup (m_ID <$> m :: ms) → (∀ m', m' ∈ m :: ms → c0 !! m_ID m' = None) →
  NoDup (m_ID <$> ms) ∧ ∀ m', m' ∈ ms → <[m_ID m := m]> c0 !! m_ID m' = None.
Proof.
  rewrite fmap_cons, NoDup_cons. intros [Hm Hn] H0. split; [done|]. intros m' Hm'.
  rewrite lookup_insert_ne; [apply H0; by right|]. intros Heq. apply Hm. rewrite Heq.
  by apply list_elem_of_fmap_2.
Qed.

Lemma getMembers_ok es ms c0 :
  Forall2 (λ e m, ne_Value e = Some (marshalMember m)) es ms → NoDup (m_ID <$> ms) →
  (∀ m, m ∈ ms → c0 !! m_ID m = None) →
  ∃ c1, forEach (getMember unmarshalMember) es (coerceMember <$> c0) = Ret (coerceMember <$> c1) ∧
    ∀ id m, c1 !! id = Some m ↔ c0 !! id = Some m ∨ m ∈ ms ∧ m_ID m = id.
Proof.
  intros F. revert c0. induction F as [|e m es ms He F IH]; intros c0 Hn H0.
  { exists c0. split; [done|]. intros id m. rewrite elem_of_nil. tauto. }
  destruct (later_members _ _ _ Hn H0) as [Hn' H1]. cbn [forEach].
  assert (getMember unmarshalMember e (coerceMember <$> c0) = Ret (coerceMember <$> <[m_ID m := m]> c0)) as ->.
  { unfold getMember. rewrite He. cbn [deref lift mbind run_bind]. rewrite json. unfold addMember, FindID.
    cbn [coerceMember m_ID]. rewrite lookup_fmap, H0 by by left. by rewrite fmap_insert. }
  cbn [mbind run_bind]. destruct (IH (<[m_ID m := m]> c0)) as (c1 & E & Hc1); [done..|].
  exists c1. split; [done|]. intros id m'. rewrite Hc1. apply insert_member, H0. by left.
Qed.

Section listing.
Context (s : store) (c : Cluster) (Hok : store_ok s) (Hholds : holds (keys s) c) (Hc : cluster_ok c).

(** The children of the directory are the members. *)
Lemma member_node p n ch x q :
  resolve (t_nodes (s_tree s)) (s_Root s) machines = Some p → t_nodes (s_tree s) !! p = Some n →
  n_Children n = Some ch → ch !! x = Some q →
  ∃ m id mem, t_nodes (s_tree s) !! q = Some m ∧ IsHidden m = Ok false ∧ n_Children m = None ∧
    x = hexName id ∧ c !! id = Some mem ∧ n_Value m = marshalMember mem.
Proof.
  intros Hp Hn Hch Hx. pose proof (tk_shape _ _ (so_tree _ Hok)) as Hs.
  destruct (sh_child _ _ Hs machines p n ch x q Hp Hn Hch Hx) as (Hxok & m & Hm & _ & Hpath).
  assert (keys s (machines ++ [x]) = Some (entryOf m)) as Hk.
  { unfold keys, view. rewrite (resolve_child (s_tree s) (s_Root s) machines p n ch x q []) by done.
    cbn [resolve mbind option_bind]. by rewrite Hm. }
  destruct (ho_only _ _ Hholds _ _ Hk) as (id & [mem Hmem] & ->).
  destruct (ho_in _ _ Hholds _ _ Hmem) as (en & Hen & Hv). unfold memberKey in Hen. rewrite Hk in Hen.
  injection Hen as <-. unfold entryOf, IsDir in Hv. cbn [v_value] in Hv.
  exists m, id, mem. rewrite (IsHidden_child m machines (hexName id)) by done.
  destruct (hexName_ok id) as [_ ->]. destruct (n_Children m); [done|]. injection Hv as Hv. by split_and!.
Qed.

(** The members, next to the children in the order of the range. *)
Lemma members_listed p n ch :
  resolve (t_nodes (s_tree s)) (s_Root s) machines = Some p → t_nodes (s_tree s) !! p = Some n →
  n_Children n = Some ch →
  ∃ ms, Forall2 (λ xq mem, xq.1 = hexName (m_ID mem) ∧
      ∃ m, t_nodes (s_tree s) !! xq.2 = Some m ∧ n_Children m = None ∧ n_Value m = marshalMember mem)
      (children ch) ms ∧
    NoDup (m_ID <$> ms) ∧ (∀ id m, c !! id = Some m ↔ m ∈ ms ∧ m_ID m = id).
Proof.
  intros Hp Hn Hch. pose proof (λ x q, member_node p n ch x q Hp Hn Hch) as Hmem.
  destruct (Forall2_choose (λ xq mem, c !! m_ID mem = Some mem ∧ xq.1 = hexName (m_ID mem) ∧
    ∃ m, t_nodes (s_tree s) !! xq.2 = Some m ∧ n_Children m = None ∧ n_Value m = marshalMember mem)
    (children ch)) as [ms Hms].
  { intros [x q]. rewrite (children_perm ch), elem_of_map_to_list. intros Hx.
    destruct (Hmem x q Hx) as (m & id & mem & Hm & _ & Hf & -> & Hid & Hv). exists mem.
    destruct (Hc _ _ Hid) as [E _]. rewrite <-E in *. split_and!; [done..|]. by exists m. }
  exists ms. split_and!.
  - eapply Forall2_impl; [exact Hms|]. by intros xq mem [_ ?].
  - apply (NoDup_fmap_1 hexName). assert (hexName <$> (m_ID <$> ms) = (children ch).*1) as ->.
    { clear -Hms. induction Hms as [|? ? ? ? (_ & E & _) _ IH]; [done|]. rewrite !fmap_cons. by f_equal. }
    rewrite (children_perm ch). apply NoDup_fst_map_to_list.
  - intros id m. split.
    + intros Hid. destruct (ho_in _ _ Hholds _ _ Hid) as (en & Hen & _). destruct (Hc _ _ Hid) as [Hi Hr].
      split; [|done]. unfold keys, view, memberKey in Hen.
      rewrite (resolve_below _ _ _ _ _ _ _ Hp Hn), Hch in Hen.
      assert (∃ q, ch !! hexName id = Some q) as [q Hx].
      { clear -Hen. generalize dependent (hexName id). intros x Hen. simpl in Hen.
        destruct (ch !! x) as [q|]; [by exists q|done]. }
      assert ((hexName id, q) ∈ children ch) as Hin
        by by rewrite (children_perm ch), elem_of_map_to_list.
      destruct (Forall2_elem_l _ _ _ _ Hms Hin) as (mem & Hin' & Hmm & E & _).
      destruct (Hc _ _ Hmm) as [_ Hr']. simpl in E. apply hexName_inj in E; [|done..]. congruence.
    + intros [Hin <-]. apply Forall2_flip in Hms.
      by destruct (Forall2_elem_l _ _ _ _ Hms Hin) as (xq & _ & ? & _).
Qed.

Lemma clusterGet_ok now :
  is_Some (keys s machines) →
  clusterGet unmarshalMember now s = Ret (stat GetSuccess s, coerceMember <$> c).
Proof.
  intros Hdir. unfold clusterGet, storeGet. rewrite Clean_Join, parts_prefix.
  pose proof (internalGet_names s machines Hok machines_ok) as G.
  rewrite (lookup_there s _ machines Hok Hdir) in G. destruct G as (p & n & -> & Hp & Hn & Hk & _).
  cbn [mbind run_bind]. rewrite (nodeAt_eq _ _ _ Hn). cbn [mbind run_bind].
  unfold loadInternalNode. rewrite (nodeAt_eq _ _ _ Hn). cbn [mbind run_bind].
  pose proof (ho_dir _ _ Hholds _ Hk) as Hd. unfold entryOf, IsDir in Hd. cbn [v_value] in Hd.
  destruct (n_Children n) as [ch|] eqn:Hch; [|done]. unfold levels.
  pose proof (λ x q, member_node p n ch x q Hp Hn Hch) as Hmem.
  destruct (reprVisible_files (size (t_nodes (s_tree s))) now false (s_tree s) (children ch).*2) as (es & E & F).
  { intros q [x Hx]%children_elem. destruct (Hmem x q Hx) as (m & _ & _ & Hm & Hh & Hf & _). eauto. }
  rewrite E. cbn [mbind run_bind]. rewrite ExpirationAndTTL_spec. cbn [mbind run_bind].
  match goal with |- context [forEach _ (ne_Nodes ?e) _] => change (ne_Nodes e) with es end.
  destruct (members_listed p n ch Hp Hn Hch) as (ms & Hms & Hnd & Hall).
  destruct (getMembers_ok es ms ∅) as (c1 & Hget & Hc1); [|done|intros m _; apply lookup_empty|].
  { apply Forall2_fmap_l, Forall2_flip in F. eapply Forall2_trans; [|exact F|exact Hms].
    intros e [x q] mem (m & Hm & ->) (_ & m' & Hm' & Hf & Hv). simpl in *.
    rewrite Hm in Hm'. injection Hm' as <-. unfold entryOf, IsDir. by rewrite Hf, Hv. }
  rewrite fmap_empty in Hget. rewrite Hget. cbn [mbind run_bind]. do 3 f_equal.
  apply map_eq. intros id. apply option_eq. intros m. rewrite Hc1, Hall, lookup_empty. naive_solver.
Qed.
End listing.

(** ** add *)
Lemma add_names cur m : createNames cur (storeKey m) false = memberKey (m_ID m).
Proof. apply parts_storeKey. Qed.

(** add puts the member into the store, or panics; it keeps the keys. *)
Lemma storeAdd_cases now m s :
  store_ok s → room s →
  storeAdd marshalMember now m s = Crash "add member should never fail" ∨
  ∃ s', storeAdd marshalMember now m s = Ret s' ∧ store_ok s' ∧
    s_CurrentIndex s' = s_CurrentIndex s + 1 ∧ keys s (memberKey (m_ID m)) = None ∧
    (∀ k, is_Some (keys s k) → is_Some (keys s' k)) ∧ is_Some (keys s' (memberKey (m_ID m))).
Proof.
  intros Hok Hroom. unfold storeAdd.
  destruct (refines_create now s (storeKey m) false (marshalMember m) false Permanent Hok Hroom)
    as (s' & r & a & -> & Ha & I). cbn [mbind run_bind]. cbn [effect] in Ha. rewrite add_names in Ha.
  destruct (createSpec _ _ _ _ _) as [err|v] eqn:E; subst a; [destruct I as [-> _]; by left|].
  destruct I as (ep & e & -> & [Ok' _ Hi Hk _ _] & _). right. exists s'.
  apply createSpec_inr in E as (_ & -> & Hp). split_and!; [done..| | |].
  - by destruct (keys s (memberKey (m_ID m))).
  - intros k [en Hen]. rewrite Hk. unfold place. case_decide; [by eexists|]. rewrite Hen. by eexists.
  - rewrite Hk. unfold place. rewrite decide_True by done. by eexists.
Qed.

Lemma storeAdd_ok now m s c :
  store_ok s → room s → holds (keys s) c → cluster_ok c → inS 64 (m_ID m) → c !! m_ID m = None →
  ∃ s', storeAdd marshalMember now m s = Ret s' ∧ store_ok s' ∧
    s_CurrentIndex s' = s_CurrentIndex s + 1 ∧ holds (keys s') (<[m_ID m := m]> c) ∧
    is_Some (keys s' machines).
Proof.
  intros Hok Hroom Hh Hc Hid Hnew. unfold storeAdd.
  destruct (refines_create now s (storeKey m) false (marshalMember m) false Permanent Hok Hroom)
    as (s' & r & a & -> & Ha & I). cbn [mbind run_bind]. cbn [effect] in Ha. rewrite add_names in Ha.
  destruct (holds_add (keys s) c (s_CurrentIndex s + 1) (s_CurrentIndex s) m (marshalMember m) Permanent)
    as (E & Hh' & Hd); [done..|]. rewrite E in Ha. subst a.
  destruct I as (ep & e & -> & [Ok' _ Hi Hk _ _] & _). exists s'. split_and!; [done..| |by rewrite Hk].
  eapply holds_ext; [|exact Hh']. intros k. by rewrite Hk.
Qed.

Lemma storeAdds_ok now ms s c :
  store_ok s → holds (keys s) c → cluster_ok c → s_CurrentIndex s + len ms < 2 ^ 64 →
  NoDup (m_ID <$> ms) → Forall (λ m, inS 64 (m_ID m)) ms → (∀ m, m ∈ ms → c !! m_ID m = None) →
  ∃ s' c', forEach (storeAdd marshalMember now) ms s = Ret s' ∧ store_ok s' ∧
    s_CurrentIndex s' = s_CurrentIndex s + len ms ∧ holds (keys s') c' ∧
    (∀ id m, c' !! id = Some m ↔ c !! id = Some m ∨ m ∈ ms ∧ m_ID m = id) ∧
    (ms ≠ [] ∨ is_Some (keys s machines) → is_Some (keys s' machines)).
Proof.
  revert s c. induction ms as [|m ms IH]; intros s c Hok Hh Hc Hlen Hnd Hid H0.
  { exists s, c. split_and!; [done..|unfold len; simpl; lia|done| |by intros [|]].
    intros id m. rewrite elem_of_nil. tauto. }
  rewrite len_cons in *. pose proof (len_nonneg ms). destruct (later_members _ _ _ Hnd H0) as [Hnd' H1].
  apply Forall_cons in Hid as [Hm Hid].
  destruct (storeAdd_ok now m s c) as (s1 & E & Ok1 & I1 & Hh1 & D1);
    [done|unfold room; lia|done..|apply H0; by left|].
  destruct (IH s1 (<[m_ID m := m]> c)) as (s2 & c2 & E2 & Ok2 & I2 & Hh2 & C2 & D2); [done|done| |lia|done..|].
  { intros id m'. rewrite lookup_insert_Some. intros [[<- <-]|[_ ?]]; [done|by apply Hc]. }
  exists s2, c2. cbn [forEach]. rewrite E. cbn [mbind run_bind]. split_and!; [done..|lia|done| |auto].
  intros id m'. rewrite C2. apply insert_member, H0. by left.
Qed.

Context `{R2 : MemberRange}.

Lemma members_elem c m : cluster_ok c → m ∈ (members c).*2 ↔ c !! m_ID m = Some m.
Proof.
  intros Hc. rewrite list_elem_of_fmap. setoid_rewrite (members_perm c). split.
  - intros ([id m'] & -> & Hin%elem_of_map_to_list). cbn [snd].
    destruct (Hc _ _ Hin) as [E _]. by rewrite E.
  - intros Hm. exists (m_ID m, m). split; [done|]. by apply elem_of_map_to_list.
Qed.

Lemma members_ids c : cluster_ok c → m_ID <$> (members c).*2 = (members c).*1.
Proof.
  intros Hc. assert (∀ x, x ∈ members c → m_ID x.2 = x.1) as Hx.
  { intros [id m]. rewrite (members_perm c), elem_of_map_to_list. intros Hm. apply (Hc _ _ Hm). }
  induction (members c) as [|x l IH]; [done|]. rewrite !fmap_cons. f_equal; [apply Hx; by left|].
  apply IH. intros y Hy. apply Hx. by right.
Qed.

Lemma len_members (c : Cluster) : len (members c).*2 = Z.of_nat (size c).
Proof.
  unfold len. rewrite length_fmap, (members_perm c). by rewrite length_map_to_list.
Qed.

Lemma nothing_held s : store_ok s → keys s ["_etcd"] = None → holds (keys s) ∅.
Proof.
  intros Hok Hn. assert (∀ k, k ≠ [] → keys s ("_etcd" :: k) = None) as Hk.
  { intros k Hne. destruct (keys s ("_etcd" :: k)) as [en|] eqn:E; [|done].
    pose proof (lookup_there s (s_CurrentIndex s) ("_etcd" :: k) Hok) as L. rewrite E in L.
    specialize (L ltac:(by eexists)). cbn [lookupSpec app] in L. rewrite Hn in L.
    by destruct (keys s []) as [[[] ? ? ?]|]. }
  split.
  - intros en. by rewrite Hn.
  - intros en. unfold machines. by rewrite Hk.
  - intros id m. by rewrite lookup_empty.
  - intros x en. unfold machines. cbn [app]. by rewrite Hk.
Qed.

Lemma NewClusterStore_ok now c s :
  store_ok s → keys s ["_etcd"] = None → cluster_ok c → c ≠ ∅ →
  s_CurrentIndex s + Z.of_nat (size c) < 2 ^ 64 →
  ∃ s', NewClusterStore marshalMember now c s = Ret s' ∧ store_ok s' ∧
    s_CurrentIndex s' = s_CurrentIndex s + Z.of_nat (size c) ∧ holds (keys s') c ∧
    is_Some (keys s' machines).
Proof.
  intros Hok Hn Hc Hne Hidx. rewrite <-len_members in *. unfold NewClusterStore.
  destruct (storeAdds_ok now (members c).*2 s ∅) as (s' & c' & E & Ok' & I' & Hh & Hc' & Hd);
    [done|by apply nothing_held|done|done|..].
  - rewrite members_ids, (members_perm c) by done. apply NoDup_fst_map_to_list.
  - apply Forall_forall. intros m Hm%members_elem; [|done]. apply (Hc _ _ Hm).
  - intros m _. apply lookup_empty.
  - exists s'. split_and!; [done..| |].
    + replace c with c'; [done|]. apply map_eq. intros id. apply option_eq. intros m.
      rewrite Hc', lookup_empty, members_elem by done. split; [by intros [|[? <-]]|].
      intros Hm. right. destruct (Hc _ _ Hm) as [E' _]. by rewrite E'.
    + apply Hd. left. intros E0. apply Hne. apply map_empty. intros id.
      destruct (c !! id) as [m|] eqn:Hm; [|done]. destruct (Hc _ _ Hm) as [E' _]. rewrite <-E' in Hm.
      apply members_elem in Hm; [|done]. rewrite E0 in Hm. by apply elem_of_nil in Hm.
Qed.

(** ** Delete *)
Lemma holds_delete v c id :
  cluster_ok c → holds v c → inS 64 id →
  holds (without (memberKey id) v) (delete id c) ∧ without (memberKey id) v machines = v machines.
Proof.
  intros Hc [H1 H2 H3 H4] Hid.
  assert (∀ k, (length k < 3)%nat → without (memberKey id) v k = v k) as Hshort.
  { intros k Hk. unfold without. rewrite decide_False; [done|]. intros Hp%prefix_length. simpl in Hp. lia. }
  split; [split|].
  - intros en. rewrite Hshort by (simpl; lia). apply H1.
  - intros en. rewrite Hshort by (simpl; lia). apply H2.
  - intros id' m. rewrite lookup_delete_Some. intros [Hne Hm]. destruct (H3 _ _ Hm) as (en & Hen & Hv).
    exists en. split; [|done]. unfold without. rewrite decide_False; [done|]. intros [z Hz].
    apply Hne. destruct (Hc _ _ Hm) as [_ ?]. apply memberKey_inj; [done..|].
    destruct z; [by rewrite app_nil_r in Hz|]. apply (f_equal length) in Hz. rewrite length_app in Hz.
    simpl in Hz. lia.
  - intros x en. unfold without. case_decide as Hp; [done|]. intros (id' & His & ->)%H4.
    exists id'. split; [|done]. rewrite lookup_delete_ne; [done|]. intros <-. by apply Hp.
  - apply Hshort. simpl. lia.
Qed.

Lemma bind_step {A B} (r : run A) a (k : A → run B) : r = Ret a → (x ← r; k x) = k a.
Proof. by intros ->. Qed.

Lemma clusterDelete_eq now id s c m :
  clusterGet unmarshalMember now s = Ret (stat GetSuccess s, c) → c !! id = Some m →
  clusterDelete unmarshalMember now id s =
    '(s, r) ← storeDelete now (storeKey m) false false (stat GetSuccess s);
    match r with
    | inl _ => Crash "delete peer should never fail"
    | inr _ => Ret s
    end.
Proof.
  intros E Hm. unfold clusterDelete, FindID. rewrite (bind_step _ _ _ E). cbv beta iota.
  rewrite Hm. exact (bind_step (lift (deref (Some m))) m _ eq_refl).
Qed.

(** Delete of a file that is there. *)
Lemma storeDelete_file now s nodePath names en w :
  store_ok s → room s → parts nodePath = names → names ≠ [] → keys s names = Some en →
  v_value en = Some w →
  ∃ s' ep, storeDelete now nodePath false false s = Ret (s', inr ep) ∧ store_ok s' ∧
    s_CurrentIndex s' = s_CurrentIndex s + 1 ∧ ∀ k, keys s' k = without names (keys s) k.
Proof.
  intros Hok Hroom Hp Hne Hen Hv.
  destruct (refines_delete now s nodePath false false Hok Hroom) as (s' & r & a & E & Ha & I).
  cbn [effect] in Ha. rewrite Hp in Ha. unfold notRoot, onNode in Ha.
  rewrite decide_False, (lookup_there s _ names Hok (ex_intro _ en Hen)), Hen in Ha by done.
  destruct Ha as [[Hn _]|[_ ->]]; [destruct Hn; left; by rewrite Hv|].
  destruct I as (ep & e & -> & [Ok' _ Hi Hk _ _] & _). by exists s', ep.
Qed.

Lemma clusterDelete_ok now id s c :
  store_ok s → room s → holds (keys s) c → cluster_ok c → is_Some (keys s machines) → is_Some (c !! id) →
  ∃ s', clusterDelete unmarshalMember now id s = Ret s' ∧ store_ok s' ∧
    s_CurrentIndex s' = s_CurrentIndex s + 1 ∧ holds (keys s') (delete id c) ∧
    is_Some (keys s' machines).
Proof.
  intros Hok Hroom Hh Hc Hd [m Hm]. destruct (Hc _ _ Hm) as [Hid Hin].
  rewrite (clusterDelete_eq now id s (coerceMember <$> c) (coerceMember m) (clusterGet_ok s c Hok Hh Hc now Hd))
    by by rewrite lookup_fmap, Hm.
  pose proof (unchanged_stat GetSuccess s Hok) as [Ok1 _ I1 K1 _].
  destruct (ho_in _ _ Hh _ _ Hm) as (en & Hen & Hv). rewrite <-K1 in Hen.
  generalize dependent (stat GetSuccess s). intros s1 Ok1 I1 K1 Hen. unfold room in Hroom. rewrite <-I1 in Hroom.
  destruct (storeDelete_file now s1 (storeKey (coerceMember m)) (memberKey id) en (marshalMember m) Ok1 Hroom) as (s' & ep & E & Ok' & I' & K');
    [by rewrite parts_storeKey; cbn [coerceMember m_ID]; rewrite Hid|done|done|done|]. rewrite E. exists s'.
  destruct (holds_delete (keys s) c id Hc Hh Hin) as [Hh' Hm'].
  apply functional_extensionality in K1. rewrite K1 in K'. split_and!; [done..|congruence| |by rewrite K', Hm'].
  eapply holds_ext; [|exact Hh']. intros k. by rewrite K'.
Qed.

Lemma clusterDeletes_ok now ids s c :
  store_ok s → holds (keys s) c → cluster_ok c → is_Some (keys s machines) →
  s_CurrentIndex s + len ids < 2 ^ 64 → NoDup ids → (∀ id, id ∈ ids → is_Some (c !! id)) →
  ∃ s', forEach (clusterDelete unmarshalMember now) ids s = Ret s' ∧ store_ok s' ∧
    holds (keys s') (foldl (λ c id, delete id c) c ids) ∧
    cluster_ok (foldl (λ c id, delete id c) c ids) ∧ is_Some (keys s' machines).
Proof.
  revert s c. induction ids as [|id ids IH]; intros s c Hok Hh Hc Hd Hlen Hnd Hids; [by exists s|].
  rewrite len_cons in Hlen. pose proof (len_nonneg ids). apply NoDup_cons in Hnd as [Hid Hnd].
  destruct (clusterDelete_ok now id s c) as (s1 & E & Ok1 & I1 & Hh1 & D1);
    [done|unfold room; lia|done..|apply Hids; by left|]. cbn [forEach foldl]. rewrite E. cbn [mbind run_bind].
  apply IH; [done..| |done|lia|done|].
  - intros id' m. rewrite lookup_delete_Some. intros [_ ?]. by apply Hc.
  - intros id' Hin. rewrite lookup_delete_ne; [apply Hids; by right|]. by intros ->.
Qed.

(** ** The cluster store is a map of members *)


(** ** A restart from a snapshot *)
Lemma storeAdds_panic now ms s m :
  store_ok s → m ∈ ms → is_Some (keys s (memberKey (m_ID m))) → s_CurrentIndex s + len ms < 2 ^ 64 →
  forEach (storeAdd marshalMember now) ms s = Crash "add member should never fail".
Proof.
  revert s. induction ms as [|m' ms IH]; intros s Hok Hin Hk Hlen; [by apply elem_of_nil in Hin|].
  rewrite len_cons in Hlen. pose proof (len_nonneg ms). cbn [forEach].
  destruct (storeAdd_cases now m' s) as [->|(s' & -> & Ok' & Hi & Hn & Hkeep & _)]; [done|unfold room; lia|done|].
  cbn [mbind run_bind]. apply IH; [done| |by apply Hkeep|lia].
  apply elem_of_cons in Hin as [->|]; [|done]. rewrite Hn in Hk. by destruct Hk.
Qed.

(** C36. A server does not restart from a snapshot: the state of the store that a snapshot holds
    has the keys of the members, and NewClusterStore, which is called after Recovery, panics on
    the first member whose key is there. *)
Theorem restart_from_snapshot_panics now c m s :
  store_ok s → cluster_ok c → c !! m_ID m = Some m → is_Some (keys s (memberKey (m_ID m))) →
  s_CurrentIndex s + Z.of_nat (size c) < 2 ^ 64 →
  ∃ state s', Save s = Ret state ∧ Recovery state newStore = Ret s' ∧
    NewClusterStore marshalMember now c s' = Crash "add member should never fail".
Proof.
  intros Hok Hc Hm Hk Hidx. destruct (recover_saved s Hok) as (state & s' & E & R & [Ok' I' _ K']).
  exists state, s'. split_and!; [done..|]. eapply storeAdds_panic; [done|by apply members_elem| |].
  - rewrite K' by by apply alone_plain, memberKey_plain. destruct Hk as [en ->]. by eexists.
  - rewrite len_members, I'. done.
Qed.
End members.

(** ** Examples *)
#[local] Existing Instance mapOrder.
#[local] Instance memberOrder : MemberRange := {| members := map_to_list; members_perm := λ c, reflexivity _ |}.

(** A codec of members, through the binary digits of their number; like encoding/json it writes
    strings of UTF-8. *)
Fixpoint bits (p : positive) : string :=
  match p with
  | xH => EmptyString
  | xO p => String "0" (bits p)
  | xI p => String "1" (bits p)
  end.
Fixpoint unbits (s : string) : positive :=
  match s with
  | EmptyString => xH
  | String "0" s => xO (unbits s)
  | String _ s => xI (unbits s)
  end.

Lemma unbits_bits p : unbits (bits p) = p.
Proof. induction p as [p IH|p IH|]; simpl; by rewrite ?IH. Qed.

Definition binaryMarshal (m : Member) : string :=
  let m := coerceMember m in
  bits (countable.encode (m_ID m, m_Name m, m_PeerURLs m, m_ClientURLs m)).
Definition binaryUnmarshal (s : string) : option Member :=
  '(id, name, peers, clients) ← countable.decode (unbits s); Some (mkMember id name peers clients).

Lemma binary_json m : binaryUnmarshal (binaryMarshal m) = Some (coerceMember m).
Proof. unfold binaryUnmarshal, binaryMarshal. by rewrite unbits_bits, decode_encode. Qed.

Definition ann : Member := mkMember 1 "ann" ["http://10.0.0.1:2380"] [].
Definition bob : Member := mkMember (-2) "bob" ["http://10.0.0.2:2380"] [].
Definition pair : Cluster := {[ 1 := ann; -2 := bob ]}.

Lemma pair_ok : cluster_ok pair.
Proof.
  intros id m. unfold pair. intros [[<- <-]|[_ [<- <-]%lookup_singleton_Some]]%lookup_insert_Some; (split; [done|unfold inS; simpl; lia]).
Qed.

Lemma pair_utf8 id m : pair !! id = Some m → utf8_member m.
Proof.
  unfold pair. intros [[<- <-]|[_ [<- <-]%lookup_singleton_Some]]%lookup_insert_Some;
    apply (bool_decide_unpack _); by vm_compute.
Qed.


(** A store with a member in it. *)
Definition annStore : store :=
  finalStore (storeCreate noon (storeKey ann) false (binaryMarshal ann) false Permanent newStore).

Lemma annStore_ok : store_ok annStore.
Proof.
  pose proof (runOp_refines noon (OpCreate (storeKey ann) false (binaryMarshal ann) false Permanent) newStore
    newStore_ok eq_refl) as (s' & r & a & E & _).
  assert (annStore = s') as ->; [|by eapply runOp_ok; [apply newStore_ok|..|exact E]].
  unfold annStore. cbn [runOp] in E. by rewrite E.
Qed.

Lemma restart_from_snapshot_panics_witness :
  ∃ state s', Save annStore = Ret state ∧ Recovery state newStore = Ret s' ∧
    NewClusterStore binaryMarshal noon pair s' = Crash "add member should never fail".
Proof.
  apply (restart_from_snapshot_panics binaryMarshal noon pair ann annStore).
  - apply annStore_ok.
  - apply pair_ok.
  - done.
  - vm_compute. by eexists.
  - by vm_compute.
Defined.
