(* ===== verification/Discovery.v ===== *)
(** * Discovery: finding the first members of a cluster (src/discovery/discovery.go)

    The members of a new cluster register at a running etcd and wait until there are as many
    of them as the key _config/size says.  The code calls a client through an interface, here
    a class; the HTTP client is an instance of it.  The theorems: a member is admitted when it
    is among the first to register, and the admitted members that see enough of the others
    agree on the peers.  A run against a store shows that a member that has to wait counts
    itself twice. *)

From stdpp Require Import pretty sorting.
From Stdlib Require Import String Ascii.
From S2P Require Import Prelude Wire Paths TtlHeap EtcdError StoreEvent StoreNode.
From S2P Require Import WatcherHub Store Url Http Client.
From S2P Require Import StoreFindings.

(** ** The client *)
Class EtcdClient (E : Type) := {
  Watcher : Type;
  c_Create : string → string → Z → E → E * (clientErr + cresponse);
  c_Get : string → E → E * (clientErr + cresponse);
  c_Watch : string → Z → Watcher;
  c_RecursiveWatch : string → Z → Watcher;
  c_Next : Watcher → E → run (E * Watcher * (clientErr + cresponse));
}.

#[export] Instance httpClient {E T} (roundTrip : httpRequest → E → E * (string + Z * T))
    (unmarshal : T → string + cresponse) (ep : URL) : EtcdClient E := {|
  Watcher := waitAction;
  c_Create := clientCreate roundTrip unmarshal ep;
  c_Get := clientGet roundTrip unmarshal ep;
  c_Watch := clientWatch;
  c_RecursiveWatch := clientRecursiveWatch;
  c_Next := clientNext roundTrip unmarshal ep;
|}.

(** ** Errors and effects *)
Inductive discErr :=
  | ErrInvalidURL
  | ErrBadSizeKey
  | ErrSizeNotFound
  | ErrTokenNotFound
  | ErrDuplicateID
  | ErrFullCluster
  | ErrClient (err : clientErr)
  | ErrPeers (text : string).

(** Code that calls the client, and returns a value or an error. *)
Definition calling (E A : Type) : Type := E → run (E * (discErr + A)).

#[export] Instance calling_ret E : MRet (calling E) := λ A a e, Ret (e, inr a).
#[export] Instance calling_bind E : MBind (calling E) := λ A B k c e,
  '(e, r) ← c e;
  match r with
  | inl err => Ret (e, inl err)
  | inr a => k a e
  end.
Definition fail {E A} (err : discErr) : calling E A := λ e, Ret (e, inl err).
Definition crash {E A} (why : string) : calling E A := λ _, Crash why.
Definition nonNil {E A} (a : option A) : calling E A :=
  match a with Some a => mret a | None => crash nilDeref end.

(** A call of the client; [f] makes of its error what the code returns. *)
Definition try_ {E A} (f : clientErr → discErr) (c : E → E * (clientErr + A)) : calling E A := λ e,
  let '(e, r) := c e in Ret (e, match r with inl err => inl (f err) | inr a => inr a end).
Definition next `{EtcdClient E} (w : Watcher) : calling E (Watcher * cresponse) := λ e,
  '(e, w, r) ← c_Next w e;
  Ret (e, match r with inl err => inl (ErrClient err) | inr resp => inr (w, resp) end).

(** ** discovery *)
Record discovery := mkDiscovery {
  d_cluster : string;
  d_id : Z;
  d_ctx : string;
}.

Definition selfKey (d : discovery) : string := Join3 "/" (d_cluster d) (pretty (d_id d)).
Definition configKey (d : discovery) : string := Join3 "/" (d_cluster d) "_config".

Definition created_le (a b : cnode) : Prop := cn_CreatedIndex a ≤ cn_CreatedIndex b.
#[export] Instance created_le_dec : RelDecision created_le.
Proof. intros a b. unfold created_le. apply _. Defined.

(** [sort.Sort(sortableNodes{nodes})]. *)
Definition sortCreated (nodes : list cnode) : list cnode := merge_sort created_le nodes.

(** The loop that finds the position of the member; false for an error. *)
Fixpoint findSelf (self : string) (size : Z) (i : Z) (nodes : list cnode) : bool :=
  match nodes with
  | [] => true
  | n :: nodes =>
      if decide (cn_Key n = self) then true
      else if size - 1 <=? i then false
      else findSelf self size (i + 1) nodes
  end.

Section discover.
Context `{EtcdClient E}.
(** [peers.Set(s)]: an error or the peers. *)
Context {P : Type} (setPeers : string → string + P).

Definition createSelf (d : discovery) : calling E () :=
  resp ← try_ ErrClient (c_Create (selfKey d) (d_ctx d) 0);
  node ← nonNil (cr_Node resp);
  _ ← next (c_Watch (selfKey d) (cn_CreatedIndex node));
  mret ().

Definition checkCluster (d : discovery) : calling E (list cnode * Z) :=
  resp ← try_ (λ err, match err with ErrKeyNoExist => ErrSizeNotFound | err => ErrClient err end)
           (c_Get (Join (configKey d) "size"));
  node ← nonNil (cr_Node resp);
  match Atoi (cn_Value node) with
  | None => fail ErrBadSizeKey
  | Some size =>
      resp ← try_ ErrClient (c_Get (d_cluster d));
      node ← nonNil (cr_Node resp);
      let nodes := filter (λ n, HasPrefix (cn_Key n) (configKey d) = false) (cn_Nodes node) in
      let nodes := sortCreated nodes in
      if findSelf (selfKey d) size 0 nodes then mret (nodes, size) else fail ErrFullCluster
  end.

(** The turns of the loop of waitNodes that are left. *)
Fixpoint waitLoop (n : nat) (w : Watcher) (all : list cnode) : calling E (list cnode) :=
  match n with
  | O => mret all
  | S n =>
      '(w, resp) ← next w;
      node ← nonNil (cr_Node resp);
      waitLoop n w (all ++ [node])
  end.

Definition waitNodes (d : discovery) (nodes : list cnode) (size : Z) : calling E (list cnode) :=
  if size <? 0 then crash outOfRange
  else
    let nodes := if size <? len nodes then take (Z.to_nat size) nodes else nodes in
    match last nodes with
    | None => crash outOfRange
    | Some n =>
        let w := c_RecursiveWatch (d_cluster d) (cn_ModifiedIndex n) in
        waitLoop (Z.to_nat (size - len nodes)) w nodes
    end.

Definition nodesToPeers (ns : list cnode) : calling E P := λ e,
  Ret (e, match setPeers (String.concat "&" (cn_Value <$> ns)) with
          | inl text => inl (ErrPeers text)
          | inr peers => inr peers
          end).

Definition discover (d : discovery) : calling E P :=
  _ ← checkCluster d;
  _ ← createSelf d;
  '(nodes, size) ← checkCluster d;
  all ← waitNodes d nodes size;
  nodesToPeers all.
End discover.

(** ** Admission *)

(** The members that a listing shows, in the order in which they registered. *)
Definition registered (d : discovery) (ns : list cnode) : list cnode :=
  sortCreated (filter (λ n, HasPrefix (cn_Key n) (configKey d) = false) ns).

(** The first [size] of them are admitted. *)
Definition first (size : Z) (d : discovery) (ns : list cnode) : list cnode :=
  take (Z.to_nat size) (registered d ns).

Lemma findSelf_spec self size i nodes :
  findSelf self size i nodes = true ↔
  self ∈ cn_Key <$> take (Z.to_nat (1 `max` (size - i))) nodes ∨ len nodes < 1 `max` (size - i).
Proof.
  revert i. induction nodes as [|n nodes IH]; intros i.
  { cbn [findSelf]. split; [|done]. intros _. right. unfold len. simpl. lia. }
  cbn [findSelf]. rewrite len_cons. pose proof (len_nonneg nodes).
  destruct (Z.to_nat (1 `max` (size - i))) as [|k] eqn:Hk; [lia|]. cbn [take].
  rewrite fmap_cons, elem_of_cons. case_decide as Hn; [by split; [left; left|]|].
  destruct (Z.leb_spec (size - 1) i).
  - assert (k = 0%nat) as -> by lia. split; [done|]. intros [[|?%elem_of_nil]|]; [done..|lia].
  - rewrite IH. replace (Z.to_nat (1 `max` (size - (i + 1)))) with k by lia.
    split; [intros [|]; [by left; right|right; lia]|].
    intros [[|]|]; [done|by left|right; lia].
Qed.

Lemma bind_inr {E A B} (c : calling E A) (k : A → calling E B) e e' a :
  c e = Ret (e', inr a) → (x ← c; k x) e = k a e'.
Proof. intros Hc. unfold mbind, calling_bind. by rewrite Hc. Qed.

Lemma bind_inl {E A B} (c : calling E A) (k : A → calling E B) e e' err :
  c e = Ret (e', inl err) → (x ← c; k x) e = Ret (e', inl err).
Proof. intros Hc. unfold mbind, calling_bind. by rewrite Hc. Qed.

Section admission.
Context `{EtcdClient E} {P : Type} (setPeers : string → string + P).

(** The service answers the two Gets of checkCluster: the size, and the listing [ns]. *)
Record lists (d : discovery) (e : E) (size : Z) (ns : list cnode) (e' : E) : Prop := {
  li_size : ∃ e1 resp n, c_Get (Join (configKey d) "size") e = (e1, inr resp) ∧
    cr_Node resp = Some n ∧ Atoi (cn_Value n) = Some size ∧
    ∃ resp' n', c_Get (d_cluster d) e1 = (e', inr resp') ∧ cr_Node resp' = Some n' ∧ cn_Nodes n' = ns;
}.

Lemma checkCluster_eq d e size ns e' :
  lists d e size ns e' →
  checkCluster d e = Ret (e', if findSelf (selfKey d) size 0 (registered d ns)
                              then inr (registered d ns, size) else inl ErrFullCluster).
Proof.
  intros [(e1 & resp & n & E1 & N1 & Hs & resp' & n' & E2 & N2 & <-)]. unfold checkCluster.
  rewrite (bind_inr _ _ e e1 resp) by (unfold try_; by rewrite E1). rewrite N1.
  rewrite (bind_inr _ _ e1 e1 n) by done. rewrite Hs.
  rewrite (bind_inr _ _ e1 e' resp') by (unfold try_; by rewrite E2). rewrite N2.
  rewrite (bind_inr _ _ e' e' n') by done. fold (registered d (cn_Nodes n')). by destruct (findSelf _ _ _ _).
Qed.

(** The member was not refused, registered, and then sees the listing [ns]. *)
Definition enrolled (d : discovery) (e : E) (size : Z) (ns : list cnode) (e' : E) : Prop :=
  ∃ e1 x e2, checkCluster d e = Ret (e1, inr x) ∧ createSelf d e1 = Ret (e2, inr tt) ∧ lists d e2 size ns e'.

Definition peersOf (ns : list cnode) : discErr + P :=
  match setPeers (String.concat "&" (cn_Value <$> ns)) with
  | inl text => inl (ErrPeers text)
  | inr peers => inr peers
  end.

Lemma waitNodes_enough d ns size e :
  1 ≤ size ≤ len ns → waitNodes d ns size e = Ret (e, inr (take (Z.to_nat size) ns)).
Proof.
  intros Hs. unfold waitNodes. destruct (Z.ltb_spec size 0); [lia|].
  assert ((if size <? len ns then take (Z.to_nat size) ns else ns) = take (Z.to_nat size) ns) as ->.
  { destruct (Z.ltb_spec size (len ns)); [done|]. rewrite take_ge; [done|]. unfold len in *. lia. }
  assert (len (take (Z.to_nat size) ns) = size) as Hl by (unfold len in *; rewrite length_take; lia).
  destruct (last (take (Z.to_nat size) ns)) as [n|] eqn:El.
  - rewrite Hl, Z.sub_diag. done.
  - apply last_None in El. rewrite El in Hl. unfold len in Hl. simpl in Hl. lia.
Qed.

Lemma discover_enough d e size ns e' :
  enrolled d e size ns e' → 1 ≤ size ≤ len (registered d ns) →
  discover setPeers d e = Ret (e', if bool_decide (selfKey d ∈ cn_Key <$> first size d ns)
                                   then peersOf (first size d ns) else inl ErrFullCluster).
Proof.
  intros (e1 & x & e2 & H1 & H2 & Hl) Hs. unfold discover.
  rewrite (bind_inr _ _ e e1 x) by done. rewrite (bind_inr _ _ e1 e2 tt) by done.
  pose proof (checkCluster_eq d e2 size ns e' Hl) as Hc.
  pose proof (findSelf_spec (selfKey d) size 0 (registered d ns)) as Hf.
  replace (1 `max` (size - 0)) with size in Hf by lia. fold (first size d ns) in Hf.
  destruct (findSelf _ _ _ _).
  - rewrite bool_decide_true by (destruct Hf as [[|] _]; [done..|lia]).
    rewrite (bind_inr _ _ e2 e' (registered d ns, size)) by done.
    rewrite (bind_inr _ _ e' e' (first size d ns)) by by apply waitNodes_enough. done.
  - rewrite bool_decide_false by (intros Hin; assert (false = true) by (apply Hf; by left); done).
    by apply bind_inl.
Qed.
End admission.

(** ** Agreement *)
#[local] Instance created_trans : Transitive created_le.
Proof. intros a b c. unfold created_le. lia. Qed.
#[local] Instance created_total : Total created_le.
Proof. intros a b. unfold created_le. lia. Qed.

Lemma sortCreated_sorted l : StronglySorted created_le (sortCreated l).
Proof. apply Sorted_StronglySorted; [apply _|]. by apply Sorted_merge_sort, _. Qed.

Lemma sortCreated_perm l : sortCreated l ≡ₚ l.
Proof. apply merge_sort_Permutation. Qed.

(** Nodes that were created later come later. *)
Lemma sortCreated_app l l' later :
  l' ≡ₚ l ++ later →
  (∀ a b, a ∈ l' → b ∈ l' → cn_CreatedIndex a = cn_CreatedIndex b → a = b) →
  (∀ a b, a ∈ l → b ∈ later → cn_CreatedIndex a < cn_CreatedIndex b) →
  sortCreated l' = sortCreated l ++ sortCreated later.
Proof.
  intros Hp Hd Hlt. apply (StronglySorted_unique_strong created_le).
  - intros a b. rewrite !sortCreated_perm, <-Hp. intros Ha Hb ??. apply Hd; [done..|]. unfold created_le in *. lia.
  - apply sortCreated_sorted.
  - apply StronglySorted_app_2; [|apply sortCreated_sorted..]. intros a b. rewrite !sortCreated_perm.
    intros Ha Hb. specialize (Hlt a b Ha Hb). unfold created_le. lia.
  - by rewrite !sortCreated_perm.
Qed.

Lemma registered_app d ns ns' later :
  ns' ≡ₚ ns ++ later →
  (∀ a b, a ∈ ns' → b ∈ ns' → cn_CreatedIndex a = cn_CreatedIndex b → a = b) →
  (∀ a b, a ∈ ns → b ∈ later → cn_CreatedIndex a < cn_CreatedIndex b) →
  registered d ns' = registered d ns ++ registered d later.
Proof.
  intros Hp Hd Hlt. apply sortCreated_app.
  - rewrite <-filter_app. by rewrite Hp.
  - intros a b [_ Ha]%list_elem_of_filter [_ Hb]%list_elem_of_filter. by apply Hd.
  - intros a b [_ Ha]%list_elem_of_filter [_ Hb]%list_elem_of_filter. by apply Hlt.
Qed.

Lemma registered_cluster d1 d2 ns : d_cluster d1 = d_cluster d2 → registered d1 ns = registered d2 ns.
Proof. intros E. unfold registered, configKey. by rewrite E. Qed.

(** C22. Two members that registered at the service and that both see enough others agree, even
    when one of them sees members that registered after the other looked: each is admitted
    exactly when it is among the first [size] in the order of registration, and the admitted
    ones get the same peers, those of these first members. *)
Theorem discovery_agrees `{EtcdClient E} {P} (setPeers : string → string + P) d1 d2 e1 e2 e1' e2' size ns1 ns2 later :
  d_cluster d1 = d_cluster d2 → enrolled d1 e1 size ns1 e1' → enrolled d2 e2 size ns2 e2' →
  1 ≤ size ≤ len (registered d1 ns1) → ns2 ≡ₚ ns1 ++ later →
  (∀ a b, a ∈ ns2 → b ∈ ns2 → cn_CreatedIndex a = cn_CreatedIndex b → a = b) →
  (∀ a b, a ∈ ns1 → b ∈ later → cn_CreatedIndex a < cn_CreatedIndex b) →
  let founders := first size d1 ns1 in
  len founders = size ∧
    discover setPeers d1 e1 = Ret (e1', if bool_decide (selfKey d1 ∈ cn_Key <$> founders)
                                        then peersOf setPeers founders else inl ErrFullCluster) ∧
    discover setPeers d2 e2 = Ret (e2', if bool_decide (selfKey d2 ∈ cn_Key <$> founders)
                                        then peersOf setPeers founders else inl ErrFullCluster).
Proof.
  intros Hcl H1 H2 Hs Hp Hd Hlt founders. unfold founders.
  pose proof (registered_app d2 ns1 ns2 later Hp Hd Hlt) as Ha.
  rewrite <-(registered_cluster d1 d2 ns1) in Ha by done.
  assert (first size d2 ns2 = first size d1 ns1) as Hf.
  { unfold first. rewrite Ha, take_app_le; [done|]. unfold len in Hs. lia. }
  split_and!.
  - unfold first, len in *. rewrite length_take. lia.
  - by apply discover_enough.
  - rewrite <-Hf. apply discover_enough; [done|]. rewrite Ha. unfold len in *. rewrite length_app. lia.
Qed.

(** ** A service that is a store *)
Fixpoint responseNode (n : NodeExtern) : cnode :=
  match n with
  | mkNodeExtern key value _ _ _ nodes modified created =>
      mkCNode key (default EmptyString value) (List.map responseNode nodes) modified created
  end.
Definition responseOf (e : Event) : cresponse := mkCResponse EmptyString (Some (responseNode (e_Node e))) None.

#[local] Existing Instance mapOrder.

(** The service: a store, and the others that register as soon as a member has registered. *)
Definition service : Type := store * list (string * string).

(** The answer to an operation. *)
Definition answer (s : store) (r : run (store * (Error + Event))) : store * (clientErr + cresponse) :=
  match r with
  | Ret (s, inr e) => (s, inr (responseOf e))
  | Ret (s, inl err) =>
      (s, inl (unmarshalErrorResponse (if ErrorCode err =? EcodeKeyNotFound then 404 else 412)))
  | _ => (s, inl (ErrTransport "EOF"))
  end.
Definition register (key value : string) (s : store) : store * (clientErr + cresponse) :=
  answer s
    ('(s, r) ← storeCreate noon key false value false Permanent s;
     match r with
     | inl err => Ret (s, inl err)
     | inr ep => e ← lift (deref (wh_events (s_WatcherHub s) !! ep)); Ret (s, inr e)
     end).
Definition registerAll (others : list (string * string)) (s : store) : store :=
  foldl (λ s kv, (register kv.1 kv.2 s).1) s others.

(** A watch that would wait is an error of the transport. *)
Definition watchNow (w : waitAction) (s : store) : run (store * waitAction * (clientErr + cresponse)) :=
  '(s, r) ← storeWatch (wa_Key w) (wa_Recursive w) false (wa_WaitIndex w) s;
  match r with
  | inl err => Ret (s, w, inl (ErrTransport (Error_Message err)))
  | inr wp =>
      match receive wp (s_WatcherHub s) with
      | None => Ret (s, w, inl (ErrTransport "timeout"))
      | Some (ep, h) =>
          e ← lift (deref (wh_events h !! ep));
          Ret (s <| s_WatcherHub := h |>,
               mkWait (wa_Key w) (uint64 (ne_ModifiedIndex (e_Node e) + 1)) (wa_Recursive w),
               inr (responseOf e))
      end
  end.

#[local] Instance storeClient : EtcdClient service := {|
  Watcher := waitAction;
  c_Create key value _ e :=
    let '(s, r) := register key value e.1 in ((registerAll e.2 s, []), r);
  c_Get key e := let '(s, r) := answer e.1 (storeGet noon key false false e.1) in ((s, e.2), r);
  c_Watch := clientWatch;
  c_RecursiveWatch := clientRecursiveWatch;
  c_Next w e := '(s, w, r) ← watchNow w e.1; Ret ((s, e.2), w, r);
|}.

(** A cluster of two. *)
Definition ofTwo : store := finalStore (storeSet noon "/abc/_config/size" false "2" 0 newStore).
Definition one : discovery := mkDiscovery "abc" 1 "a=10.0.0.1".
Definition two : discovery := mkDiscovery "abc" 2 "b=10.0.0.2".
Definition three : string * string := ("/abc/3", "c=10.0.0.3").
Definition key1 : cnode := mkCNode "/abc/1" "a=10.0.0.1" [] 2 2.
Definition key2 : cnode := mkCNode "/abc/2" "b=10.0.0.2" [] 3 3.
Definition key3 : cnode := mkCNode "/abc/3" "c=10.0.0.3" [] 4 4.

Definition resultOf {A} (r : run (service * (discErr + A))) : option (discErr + A) :=
  match r with Ret (_, r) => Some r | _ => None end.

(** A member that has to wait for others watches from the index of the last member that it
    has seen, and is told of that one again: it takes itself for the second member of a cluster
    of two and starts without the other, while the other one finds both. *)
Theorem waiting_member_counted_twice :
  resultOf (discover inr one (ofTwo, [])) = Some (inr "a=10.0.0.1&a=10.0.0.1") ∧
  resultOf (discover inr two (registerAll [("/abc/1", "a=10.0.0.1")] ofTwo, [])) =
    Some (inr "a=10.0.0.1&b=10.0.0.2") ∧
  resultOf (discover inr one (ofTwo, [("/abc/2", "b=10.0.0.2")])) =
    Some (inr "a=10.0.0.1&b=10.0.0.2").
Proof. split_and!; vm_compute; reflexivity. Qed.

Ltac enroll :=
  eexists _, _, _; split; [vm_compute; reflexivity|]; split; [vm_compute; reflexivity|]; split;
  eexists _, _, _; split; [vm_compute; reflexivity|]; split; [reflexivity|]; split; [reflexivity|];
  eexists _, _; split; [vm_compute; reflexivity|]; split; reflexivity.

Lemma enrolled_one : ∃ e, enrolled one (ofTwo, [("/abc/2", "b=10.0.0.2")]) 2 [key1; key2] e.
Proof. eexists. enroll. Qed.

Lemma enrolled_two :
  ∃ e, enrolled two (registerAll [("/abc/1", "a=10.0.0.1")] ofTwo, [three]) 2 [key3; key1; key2] e.
Proof. eexists. enroll. Qed.

Lemma discovery_agrees_witness :
  ∃ e1 e2, discover inr one (ofTwo, [("/abc/2", "b=10.0.0.2")]) = Ret (e1, inr "a=10.0.0.1&b=10.0.0.2") ∧
    discover inr two (registerAll [("/abc/1", "a=10.0.0.1")] ofTwo, [three]) =
      Ret (e2, inr "a=10.0.0.1&b=10.0.0.2").
Proof.
  destruct enrolled_one as [e1 H1], enrolled_two as [e2 H2]. exists e1, e2.
  destruct (discovery_agrees (P := string) inr one two (ofTwo, [("/abc/2", "b=10.0.0.2")])
    (registerAll [("/abc/1", "a=10.0.0.1")] ofTwo, [three]) e1 e2 2 [key1; key2] [key3; key1; key2] [key3]
    eq_refl H1 H2) as (_ & E1 & E2).
  - vm_compute. by split.
  - apply (Permutation_app_comm [key3] [key1; key2]).
  - intros a b. rewrite !elem_of_cons, !elem_of_nil. clear.
    intros [->|[->|[->|[]]]] [->|[->|[->|[]]]] E; first [reflexivity|discriminate E].
  - intros a b. rewrite !elem_of_cons, !elem_of_nil. intros [->|[->|[]]] [->|[]]; done.
  - assert (first 2 one [key1; key2] = [key1; key2]) as F by (vm_compute; reflexivity).
    assert (peersOf (P := string) inr [key1; key2] = inr "a=10.0.0.1&b=10.0.0.2") as Q by (vm_compute; reflexivity).
    rewrite F, Q in E1, E2. rewrite bool_decide_true in E1 by (vm_compute; by left).
    rewrite bool_decide_true in E2 by (vm_compute; by right; left). by split.
Defined.
