(* ===== verification/Proxy.v ===== *)
(** * Proxy: the proxy of clients (src/proxy/director.go, reverse.go, proxy.go; src/pkg/cors.go)

    A server that is started as a proxy sends the requests of its clients to the members.  An
    endpoint that cannot be reached is left out for five seconds.  The state of the director
    holds the endpoints and the timers that time.AfterFunc has started; the transport is a
    parameter.  The keys of a header are in canonical form, as net/http makes them. *)

From stdpp Require Import pretty sorting.
From Stdlib Require Import String Ascii.
From S2P Require Import Prelude Paths TtlHeap EtcdError StoreEvent StoreNode.

(** ** The library *)

(** http.Header. *)
Abbreviation Header := (gmap string (list string)).
Definition headerAdd (k v : string) (h : Header) : Header := <[k := default [] (h !! k) ++ [v]]> h.
Definition headerSet (k v : string) (h : Header) : Header := <[k := [v]]> h.
Definition headerDel (k : string) (h : Header) : Header := delete k h.
Definition headerGet (k : string) (h : Header) : string := default EmptyString (h !! k ≫= head).

(** The order in which a range over a header visits it. *)
Class HeaderRange := {
  fields : Header → list (string * list string);
  fields_perm : ∀ h, fields h ≡ₚ map_to_list h;
}.

(** The parts of a string before and after its last [c]. *)
Fixpoint cutLast (c : ascii) (s : string) : option (string * string) :=
  match s with
  | EmptyString => None
  | String a s =>
      match cutLast c s with
      | Some (before, after) => Some (String a before, after)
      | None => if decide (a = c) then Some (EmptyString, s) else None
      end
  end.
Definition has (c : ascii) (s : string) : bool := existsb (λ a, bool_decide (a = c)) (list_ascii_of_string s).

(** The host that [net.SplitHostPort(s)] gives; [None] for an error. *)
Definition splitHost (s : string) : option string :=
  '(host, port) ← cutLast ":" s;
  if has "[" port || has "]" port then None
  else
    match host with
    | String "[" rest =>
        '(inner, after) ← cutLast "]" rest;
        if decide (after = EmptyString) then if has "[" inner || has "]" inner then None else Some inner
        else None
    | _ => if has ":" host || has "[" host || has "]" host then None else Some host
    end.

(** ** Endpoints (director.go) *)
Definition endpointFailureWait : Z := 5 * second.

(** Scheme and Host of a url.URL. *)
Record location := mkLocation { l_Scheme : string; l_Host : string }.

(** [ep_failFunc] is the wait of the closure that timedUnavailabilityFunc gives. *)
Record endpoint := mkEndpoint {
  ep_URL : location;
  ep_Available : bool;
  ep_failFunc : option Z;
}.
#[export] Instance set_ep_Available : Setter ep_Available := λ f e,
  mkEndpoint (ep_URL e) (f (ep_Available e)) (ep_failFunc e).

(** An endpoint is its place in [d_ep]; [d_timers] are the timers with the time at which each
    one fires and the endpoint that it makes available. *)
Record director := mkDirector {
  d_ep : list endpoint;
  d_timers : list (Z * nat);
}.
#[export] Instance set_d_ep : Setter d_ep := λ f d, mkDirector (f (d_ep d)) (d_timers d).
#[export] Instance set_d_timers : Setter d_timers := λ f d, mkDirector (d_ep d) (f (d_timers d)).

Definition newEndpoint (u : location) : endpoint := mkEndpoint u true (Some endpointFailureWait).

(** [None] for the error that there are no addresses. *)
Definition newDirector (scheme : string) (addrs : list string) : option director :=
  match addrs with
  | [] => None
  | _ => Some (mkDirector ((λ addr, newEndpoint (mkLocation scheme addr)) <$> addrs) [])
  end.

Definition endpoints (d : director) : list nat :=
  filter (λ i, ep_Available <$> d_ep d !! i = Some true) (seq 0 (length (d_ep d))).

(** At the time [now]. *)
Definition Failed (now : Z) (i : nat) (d : director) : director :=
  match d_ep d !! i with
  | None => d
  | Some ep =>
      if negb (ep_Available ep) then d
      else
        let d := d <| d_ep ::= <[i := ep <| ep_Available := false |>]> |> in
        match ep_failFunc ep with
        | None => d
        | Some wait => d <| d_timers ::= λ l, (now + wait, i) :: l |>
        end
  end.

(** The function of a timer of the endpoint [i]. *)
Definition makeAvailable (i : nat) (d : director) : director :=
  d <| d_ep ::= alter (set ep_Available (λ _, true)) i |>.

(** The first timer of the list that is due at [now] fires. *)
Fixpoint takeDue (now : Z) (l : list (Z * nat)) : option (nat * list (Z * nat)) :=
  match l with
  | [] => None
  | (t, i) :: l =>
      if t <=? now then Some (i, l)
      else '(j, l) ← takeDue now l; Some (j, (t, i) :: l)
  end.
Definition fire (now : Z) (d : director) : option director :=
  '(i, l) ← takeDue now (d_timers d); Some (makeAvailable i (d <| d_timers := l |>)).

(** ** Requests and responses (reverse.go) *)
Record request := mkRequest {
  r_Method : string;
  r_URL : location;
  r_Path : string;
  r_Proto : string * Z * Z;
  r_Close : bool;
  r_Header : Header;
  r_RemoteAddr : string;
}.
#[export] Instance set_r_URL : Setter r_URL := λ f r,
  mkRequest (r_Method r) (f (r_URL r)) (r_Path r) (r_Proto r) (r_Close r) (r_Header r) (r_RemoteAddr r).
#[export] Instance set_r_Header : Setter r_Header := λ f r,
  mkRequest (r_Method r) (r_URL r) (r_Path r) (r_Proto r) (r_Close r) (f (r_Header r)) (r_RemoteAddr r).
#[export] Instance set_r_Proto : Setter r_Proto := λ f r,
  mkRequest (r_Method r) (r_URL r) (r_Path r) (f (r_Proto r)) (r_Close r) (r_Header r) (r_RemoteAddr r).
#[export] Instance set_r_Close : Setter r_Close := λ f r,
  mkRequest (r_Method r) (r_URL r) (r_Path r) (r_Proto r) (f (r_Close r)) (r_Header r) (r_RemoteAddr r).

Record response := mkResponse {
  rs_StatusCode : Z;
  rs_Header : Header;
  rs_Body : list Z;
}.

Definition singleHopHeaders : list string :=
  ["Connection"; "Keep-Alive"; "Proxy-Authenticate"; "Proxy-Authorization"; "Te"; "Trailers";
   "Transfer-Encoding"; "Upgrade"].

Definition removeSingleHopHeaders (hdrs : Header) : Header :=
  foldl (λ hdrs h, headerDel h hdrs) hdrs singleHopHeaders.

Definition redirectRequest (loc : location) (req : request) : request := req <| r_URL := loc |>.

Definition normalizeRequest (req : request) : request :=
  req <| r_Proto := ("HTTP/1.1", 1, 1) |> <| r_Close := false |>.

Definition maybeSetForwardedFor (req : request) : request :=
  match splitHost (r_RemoteAddr req) with
  | None => req
  | Some clientIP =>
      let clientIP := match r_Header req !! "X-Forwarded-For" with
                      | Some prior => (String.concat ", " prior ++ ", " ++ clientIP)%string
                      | None => clientIP
                      end in
      req <| r_Header ::= headerSet "X-Forwarded-For" clientIP |>
  end.

Section reverseProxy.
Context `{HeaderRange}.
(** [p.transport.RoundTrip(req)] in the world [W].  The body of a request is a reader: the
    transport gets what is left of it and leaves a rest of that. *)
Context {W : Type} (roundTrip : request → list Z → W → W * list Z * option response).

Definition copyHeader (src dst : Header) : Header :=
  foldl (λ dst kvv, foldl (λ dst v, headerAdd kvv.1 v dst) dst kvv.2) dst (fields src).

(** What is sent to the endpoints, up to the URL. *)
Definition proxyRequest (clientreq : request) : request :=
  let proxyreq := clientreq <| r_Header := copyHeader (r_Header clientreq) ∅ |> in
  let proxyreq := normalizeRequest proxyreq in
  let proxyreq := proxyreq <| r_Header ::= removeSingleHopHeaders |> in
  maybeSetForwardedFor proxyreq.

(** The loop over the endpoints. *)
Fixpoint tryEndpoints (now : Z) (req : request) (eps : list nat) (body : list Z) (d : director) (w : W)
  : director * W * list Z * option response :=
  match eps with
  | [] => (d, w, body, None)
  | i :: eps =>
      match d_ep d !! i with
      | None => (d, w, body, None)
      | Some ep =>
          let '(w, body, res) := roundTrip (redirectRequest (ep_URL ep) req) body w in
          match res with
          | Some res => (d, w, body, Some res)
          | None => tryEndpoints now req eps body (Failed now i d) w
          end
      end
  end.

(** [rw] is the header of the response so far. *)
Definition proxyServe (now : Z) (clientreq : request) (body : list Z) (rw : Header) (d : director) (w : W)
  : director * W * response :=
  match endpoints d with
  | [] => (d, w, mkResponse 503 rw [])
  | eps =>
      let '(d, w, _, res) := tryEndpoints now (proxyRequest clientreq) eps body d w in
      match res with
      | None => (d, w, mkResponse 502 rw [])
      | Some res =>
          (d, w, mkResponse (rs_StatusCode res) (copyHeader (removeSingleHopHeaders (rs_Header res)) rw)
                   (rs_Body res))
      end
  end.
End reverseProxy.

(** ** Handlers around it (proxy.go, cors.go)

    A handler takes the request and the header of the response so far. *)
Definition handler (S : Type) : Type := request → Header → S → S * response.

Definition NewHandler (tls : bool) (addrs : list string) : option director :=
  newDirector (if tls then "https" else "http") addrs.

Definition readonlyHandlerFunc {S} (next : handler S) : handler S := λ req rw s,
  if decide (r_Method req ≠ "GET") then (s, mkResponse 501 rw []) else next req rw s.

Abbreviation CORSInfo := (gset string).
Definition OriginAllowed (origin : string) (c : CORSInfo) : bool :=
  bool_decide ("*" ∈ c) || bool_decide (origin ∈ c).

Definition addHeader (origin : string) (rw : Header) : Header :=
  headerAdd "Access-Control-Allow-Headers" "accept, content-type"
    (headerAdd "Access-Control-Allow-Origin" origin
      (headerAdd "Access-Control-Allow-Methods" "POST, GET, OPTIONS, PUT, DELETE" rw)).

Definition corsServe {S} (info : CORSInfo) (next : handler S) : handler S := λ req rw s,
  let origin := headerGet "Origin" (r_Header req) in
  let rw := if OriginAllowed "*" info then addHeader "*" rw
            else if OriginAllowed origin info then addHeader origin rw else rw in
  if decide (r_Method req = "OPTIONS") then (s, mkResponse 200 rw []) else next req rw s.
