(* ===== verification/ProxyProps.v ===== *)
(** * ProxyProps: what the proxy does with a request (src/proxy)

    The answer of the proxy in every case, the headers that it passes on, and how long an
    endpoint that failed is left out.  A run shows that the body of a request does not survive
    a failed attempt. *)

From stdpp Require Import pretty sorting.
From Stdlib Require Import String Ascii.
From S2P Require Import Prelude Paths TtlHeap EtcdError StoreEvent StoreNode Proxy.

(** ** Headers *)
Lemma addAll_lookup k vv h k' :
  foldl (λ h v, headerAdd k v h) h vv !! k' =
  if decide (k = k' ∧ vv ≠ []) then Some (default [] (h !! k') ++ vv) else h !! k'.
Proof.
  revert h. induction vv as [|v vv IH]; intros h; cbn [foldl]; [by rewrite decide_False by naive_solver|].
  rewrite IH. unfold headerAdd. destruct (decide (k = k')) as [<-|Hne].
  - rewrite (decide_True (P := k = k ∧ v :: vv ≠ [])) by done. rewrite lookup_insert_eq. cbn [from_option Datatypes.id].
    case_decide as Hv; [by rewrite <-(app_assoc _ [v] vv)|]. assert (vv = []) as -> by (destruct vv; naive_solver). done.
  - rewrite !decide_False by naive_solver. by rewrite lookup_insert_ne.
Qed.

Section headers.
Context `{HeaderRange}.

Lemma copyFields_lookup l dst k :
  NoDup l.*1 →
  foldl (λ dst kvv, foldl (λ dst v, headerAdd kvv.1 v dst) dst kvv.2) dst l !! k =
  match (list_to_map l : Header) !! k with
  | Some (v :: vv) => Some (default [] (dst !! k) ++ v :: vv)
  | _ => dst !! k
  end.
Proof.
  revert dst. induction l as [|[k0 vv] l IH]; intros dst Hn; cbn [foldl]; [done|].
  rewrite fmap_cons, NoDup_cons in Hn. destruct Hn as [Hk0 Hn]. rewrite IH by done. cbn [list_to_map foldr uncurry].
  rewrite addAll_lookup. cbn [fst snd]. destruct (decide (k0 = k)) as [<-|Hne].
  - rewrite lookup_insert_eq, not_elem_of_list_to_map_1 by done. destruct vv; [by rewrite decide_False by naive_solver|].
    by rewrite decide_True.
  - rewrite decide_False by naive_solver. by rewrite lookup_insert_ne.
Qed.

Lemma copyHeader_lookup src dst k :
  copyHeader src dst !! k =
  match src !! k with
  | Some (v :: vv) => Some (default [] (dst !! k) ++ v :: vv)
  | _ => dst !! k
  end.
Proof.
  unfold copyHeader. rewrite copyFields_lookup.
  - rewrite (list_to_map_proper (fields src) (map_to_list src)), list_to_map_to_list; [done| |apply fields_perm].
    rewrite (fields_perm src). apply NoDup_fst_map_to_list.
  - rewrite (fields_perm src). apply NoDup_fst_map_to_list.
Qed.
End headers.

Lemma removeHop_lookup h k :
  removeSingleHopHeaders h !! k = if decide (k ∈ singleHopHeaders) then None else h !! k.
Proof.
  unfold removeSingleHopHeaders. induction singleHopHeaders as [|x l IH] using rev_ind; [done|].
  rewrite foldl_snoc. unfold headerDel at 1. destruct (decide (x = k)) as [->|Hne].
  - rewrite lookup_delete_eq, decide_True; [done|]. apply elem_of_app. right. by left.
  - rewrite lookup_delete_ne, IH by done. apply decide_ext. rewrite elem_of_app, list_elem_of_singleton. naive_solver.
Qed.

(** ** Endpoints that fail *)
Lemma endpoints_elem d i : i ∈ endpoints d ↔ ∃ ep, d_ep d !! i = Some ep ∧ ep_Available ep = true.
Proof.
  unfold endpoints. rewrite list_elem_of_filter, elem_of_seq. split.
  - intros [Hi _]. destruct (d_ep d !! i) as [ep|]; [|done]. exists ep. split; [done|]. by injection Hi.
  - intros (ep & Hep & Ha). rewrite Hep. split; [by simpl; rewrite Ha|]. apply lookup_lt_Some in Hep. lia.
Qed.

Lemma endpoints_nodup d : NoDup (endpoints d).
Proof. apply NoDup_filter, NoDup_seq. Qed.

Lemma Failed_length now i d : length (d_ep (Failed now i d)) = length (d_ep d).
Proof.
  unfold Failed. destruct (d_ep d !! i) as [ep|]; [|done]. destruct (ep_Available ep); [|done]. cbn [negb].
  destruct (ep_failFunc ep); apply length_insert.
Qed.

Lemma Failed_lookup now i d j :
  d_ep (Failed now i d) !! j =
  if decide (i = j) then set ep_Available (λ _, false) <$> d_ep d !! j else d_ep d !! j.
Proof.
  unfold Failed. destruct (d_ep d !! i) as [ep|] eqn:Hi; [|case_decide; [by subst; rewrite Hi|done]].
  destruct (ep_Available ep) eqn:Ha; cbn [negb].
  - assert (∀ l : list endpoint, l = <[i := ep <| ep_Available := false |>]> (d_ep d) → l !! j =
      if decide (i = j) then set ep_Available (λ _, false) <$> d_ep d !! j else d_ep d !! j) as HL.
    { intros l ->. case_decide as Hj; [subst j|by apply list_lookup_insert_ne]. rewrite Hi.
      apply list_lookup_insert_eq. by eapply lookup_lt_Some. }
    destruct (ep_failFunc ep); by apply HL.
  - case_decide as Hj; [subst j|done]. rewrite Hi. simpl. destruct ep as [u a f]. simpl in Ha. by subst a.
Qed.

Lemma Failed_URL now i d j : ep_URL <$> d_ep (Failed now i d) !! j = ep_URL <$> d_ep d !! j.
Proof. rewrite Failed_lookup. case_decide; [|done]. by destruct (d_ep d !! j). Qed.

Lemma filter_absent (i : nat) (l : list nat) : i ∉ l → filter (λ j, j ≠ i) l = l.
Proof.
  induction l as [|j l IH]; [done|]. rewrite not_elem_of_cons. intros [Hj Hl].
  rewrite filter_cons_True by done. by rewrite IH.
Qed.

Lemma endpoints_failed now d i rest : endpoints d = i :: rest → endpoints (Failed now i d) = rest.
Proof.
  intros E. pose proof (endpoints_nodup d) as Hn. rewrite E in Hn. apply NoDup_cons in Hn as [Hi _].
  assert (endpoints (Failed now i d) = filter (λ j, j ≠ i) (endpoints d)) as ->.
  { unfold endpoints. rewrite Failed_length, list_filter_filter. apply list_filter_iff. intros j.
    rewrite Failed_lookup. case_decide as Hj; [subst j|naive_solver].
    destruct (d_ep d !! i) as [ep|]; simpl; [|naive_solver]. split; [done|]. by intros []. }
  rewrite E, filter_cons_False by naive_solver. by apply filter_absent.
Qed.

Section serve.
Context `{HeaderRange} {W : Type} (roundTrip : request → list Z → W → W * list Z * option response).

(** Attempts at the endpoints [us], one after the other, that all fail. *)
Inductive refused (req : request) : list location → list Z → W → list Z → W → Prop :=
  | refused_nil body w : refused req [] body w body w
  | refused_cons u us body w body1 w1 body2 w2 :
      roundTrip (redirectRequest u req) body w = (w1, body1, None) →
      refused req us body1 w1 body2 w2 → refused req (u :: us) body w body2 w2.

(** The addresses of the endpoints [l]. *)
Definition locations (d : director) (l : list nat) : list location := omap (λ i, ep_URL <$> d_ep d !! i) l.

Lemma locations_failed now i d l : locations (Failed now i d) l = locations d l.
Proof. unfold locations. apply list_omap_ext, Forall_Forall2_diag, Forall_true. intros j. apply Failed_URL. Qed.

Lemma tryEndpoints_ok now req eps body d w :
  endpoints d = eps →
  ∃ failed rest body1 w1, eps = failed ++ rest ∧ refused req (locations d failed) body w body1 w1 ∧
    let d' := foldl (λ d i, Failed now i d) d failed in
    endpoints d' = rest ∧
    match rest with
    | [] => tryEndpoints roundTrip now req eps body d w = (d', w1, body1, None)
    | i :: _ => ∃ u w2 body2 r, ep_URL <$> d_ep d !! i = Some u ∧
        roundTrip (redirectRequest u req) body1 w1 = (w2, body2, Some r) ∧
        tryEndpoints roundTrip now req eps body d w = (d', w2, body2, Some r)
    end.
Proof.
  revert body d w. induction eps as [|i eps IH]; intros body d w E.
  { exists [], [], body, w. cbn zeta. split_and!; [done|apply refused_nil|done|done]. }
  assert (i ∈ endpoints d) as Hi by (rewrite E; by left). apply endpoints_elem in Hi as (ep & Hep & _).
  cbn [tryEndpoints]. rewrite Hep.
  destruct (roundTrip (redirectRequest (ep_URL ep) req) body w) as [[w1 body1] [r|]] eqn:Hr.
  - exists [], (i :: eps), body, w. cbn zeta. split_and!; [done|apply refused_nil|done|].
    exists (ep_URL ep), w1, body1, r. by rewrite Hep.
  - destruct (IH body1 (Failed now i d) w1) as (failed & rest & body2 & w2 & -> & Hf & Hrest & Hres);
      [by apply endpoints_failed|].
    exists (i :: failed), rest, body2, w2. cbn zeta. split_and!; [done| |done|].
    + unfold locations. cbn [omap list_omap]. rewrite Hep. cbn [fmap option_fmap option_map].
      rewrite locations_failed in Hf. by eapply refused_cons.
    + destruct rest as [|j rest]; [done|]. destruct Hres as (u & w3 & body3 & r & Hu & ? & ?).
      rewrite Failed_URL in Hu. by exists u, w3, body3, r.
Qed.

(** The header that the client gets: what was in [rw] already and what the endpoint sent, but
    not its hop-by-hop fields. *)
Definition passedOn (sent rw : Header) (k : string) : option (list string) :=
  if decide (k ∈ singleHopHeaders) then rw !! k
  else match sent !! k with
       | Some (v :: vv) => Some (default [] (rw !! k) ++ v :: vv)
       | _ => rw !! k
       end.

(** C23. What the proxy answers.  It tries the available endpoints in order until one responds:
    503 when there is none, 502 when all of them fail, and otherwise the status, the body and
    the end-to-end headers of the first response.  The endpoints that failed are marked, and
    those after the first response stay as they were. *)
Theorem proxy_serves now req body rw d w :
  ∃ failed rest body1 w1 d' w' res,
    proxyServe roundTrip now req body rw d w = (d', w', res) ∧
    endpoints d = failed ++ rest ∧ endpoints d' = rest ∧
    d' = foldl (λ d i, Failed now i d) d failed ∧
    refused (proxyRequest req) (locations d failed) body w body1 w1 ∧
    match rest with
    | [] => w' = w1 ∧ res = mkResponse (if decide (failed = []) then 503 else 502) rw []
    | i :: _ => ∃ u body2 r, locations d [i] = [u] ∧
        roundTrip (redirectRequest u (proxyRequest req)) body1 w1 = (w', body2, Some r) ∧
        rs_StatusCode res = rs_StatusCode r ∧ rs_Body res = rs_Body r ∧
        ∀ k, rs_Header res !! k = passedOn (rs_Header r) rw k
    end.
Proof.
  destruct (tryEndpoints_ok now (proxyRequest req) (endpoints d) body d w eq_refl)
    as (failed & rest & body1 & w1 & E & Hf & Hrest & Hres).
  exists failed, rest, body1, w1. unfold proxyServe. destruct rest as [|i rest].
  - exists (foldl (λ d i, Failed now i d) d failed), w1. rewrite app_nil_r in E. rewrite app_nil_r.
    destruct failed as [|j failed].
    + inversion Hf; subst. exists (mkResponse 503 rw []). rewrite E. by split_and!.
    + exists (mkResponse 502 rw []). rewrite E in Hres |- *. rewrite Hres. by split_and!.
  - destruct Hres as (u & w2 & body2 & r & Hu & Hr & Ht).
    eexists (foldl (λ d i, Failed now i d) d failed), w2, _.
    assert (endpoints d ≠ []) as Hne by (rewrite E; by destruct failed).
    destruct (endpoints d) as [|j eps] eqn:Hd; [done|]. rewrite Ht. split; [reflexivity|].
    split_and!; [done..|]. exists u, body2, r. unfold locations. cbn [omap list_omap]. rewrite Hu.
    split_and!; [done..|]. intros k. cbn [rs_Header]. rewrite copyHeader_lookup, removeHop_lookup.
    unfold passedOn. by case_decide.
Qed.

(** The request that the endpoints get has the end-to-end headers of the client. *)
Lemma proxyRequest_header req k :
  k ≠ "X-Forwarded-For" → k ∉ singleHopHeaders → r_Header req !! k ≠ Some [] →
  r_Header (proxyRequest req) !! k = r_Header req !! k.
Proof.
  intros Hx Hk Hn. unfold proxyRequest, maybeSetForwardedFor.
  set (r := set r_Header removeSingleHopHeaders _).
  assert (r_Header r !! k = r_Header req !! k) as Hr.
  { unfold r. change (removeSingleHopHeaders (copyHeader (r_Header req) ∅) !! k = r_Header req !! k).
    rewrite removeHop_lookup, decide_False, copyHeader_lookup, lookup_empty by done.
    by destruct (r_Header req !! k) as [[|]|]. }
  destruct (splitHost (r_RemoteAddr r)); [|done]. cbn [r_Header set set_r_Header].
  unfold headerSet. by rewrite lookup_insert_ne.
Qed.
End serve.

(** ** How long an endpoint is left out *)

(** What can happen to the director at a time: an attempt fails, a timer fires, time passes. *)
Inductive pstep : Z * director → Z * director → Prop :=
  | pstep_failed now i d : pstep (now, d) (now, Failed now i d)
  | pstep_fire now d d' : fire now d = Some d' → pstep (now, d) (now, d')
  | pstep_wait now now' d : now ≤ now' → pstep (now, d) (now', d).

(** An endpoint is unavailable exactly when there is a timer for it, and one only. *)
Record timers_ok (now : Z) (d : director) : Prop := {
  tm_wait : ∀ i ep, d_ep d !! i = Some ep → ep_failFunc ep = Some endpointFailureWait;
  tm_one : NoDup (d_timers d).*2;
  tm_out : ∀ i, i ∈ (d_timers d).*2 ↔ ∃ ep, d_ep d !! i = Some ep ∧ ep_Available ep = false;
  tm_soon : ∀ t i, (t, i) ∈ d_timers d → t ≤ now + endpointFailureWait;
}.

Lemma takeDue_Some now l i l' :
  takeDue now l = Some (i, l') → ∃ l1 t l2, l = l1 ++ (t, i) :: l2 ∧ l' = l1 ++ l2 ∧ t ≤ now.
Proof.
  revert l'. induction l as [|[t j] l IH]; intros l'; [done|]. cbn [takeDue].
  destruct (Z.leb_spec t now).
  - intros [= -> ->]. by exists [], t, l'.
  - destruct (takeDue now l) as [[i' l'']|]; [|done]. cbn. intros [= -> <-].
    destruct (IH l'' eq_refl) as (l1 & t1 & l2 & -> & -> & ?). by exists ((t, j) :: l1), t1, l2.
Qed.

Lemma takeDue_None now l : takeDue now l = None → ∀ t i, (t, i) ∈ l → now < t.
Proof.
  induction l as [|[t j] l IH]; intros E t' i Hin; [by apply elem_of_nil in Hin|]. cbn [takeDue] in E.
  destruct (Z.leb_spec t now); [done|]. destruct (takeDue now l) as [[]|]; [done|].
  apply elem_of_cons in Hin as [[= -> ->]|]; [done|]. by eapply IH.
Qed.

Lemma new_eq scheme addrs d :
  newDirector scheme addrs = Some d →
  d = mkDirector ((λ addr, newEndpoint (mkLocation scheme addr)) <$> addrs) [].
Proof. intros Hd. destruct addrs; [done|]. by injection Hd. Qed.

Lemma new_length scheme addrs d : newDirector scheme addrs = Some d → length (d_ep d) = length addrs.
Proof. intros ->%new_eq. apply length_fmap. Qed.

Lemma new_ok scheme addrs d now : newDirector scheme addrs = Some d → timers_ok now d.
Proof.
  intros ->%new_eq.
  assert (∀ i ep, ((λ addr, newEndpoint (mkLocation scheme addr)) <$> addrs) !! i = Some ep →
    ep_Available ep = true ∧ ep_failFunc ep = Some endpointFailureWait) as Hnew.
  { intros i ep. rewrite list_lookup_fmap. destruct (addrs !! i); [|done]. by intros [= <-]. }
  split; cbn [d_ep d_timers].
  - intros i ep Hep. by eapply Hnew.
  - constructor.
  - intros i. split; [by intros ?%elem_of_nil|]. intros (ep & [? _]%Hnew & Ha). congruence.
  - by intros t i ?%elem_of_nil.
Qed.

Lemma Failed_available now i d ep :
  timers_ok now d → d_ep d !! i = Some ep → ep_Available ep = true →
  d_timers (Failed now i d) = (now + endpointFailureWait, i) :: d_timers d.
Proof.
  intros Ht Hi Ha. unfold Failed. rewrite Hi, Ha. cbn [negb]. by rewrite (tm_wait _ _ Ht _ _ Hi).
Qed.

Lemma Failed_ok now i d : timers_ok now d → timers_ok now (Failed now i d).
Proof.
  intros Ht. destruct (d_ep d !! i) as [ep|] eqn:Hi; [|unfold Failed; by rewrite Hi].
  destruct (ep_Available ep) eqn:Ha; [|unfold Failed; by rewrite Hi, Ha].
  pose proof (Failed_available now i d ep Ht Hi Ha) as HT. destruct Ht as [H1 H2 H3 H4].
  assert (i ∉ (d_timers d).*2) as Hnew by (rewrite H3; intros (ep' & ? & ?); congruence).
  split; try rewrite HT.
  - intros j ep'. rewrite Failed_lookup. case_decide; [subst j; rewrite Hi; intros [= <-]; exact (H1 i ep Hi)|apply H1].
  - rewrite fmap_cons. by apply NoDup_cons.
  - intros j. rewrite fmap_cons, elem_of_cons, H3. cbn [snd]. setoid_rewrite Failed_lookup.
    destruct (decide (i = j)) as [<-|Hne]; [|naive_solver]. rewrite Hi. split; [|by left]. intros _. by eexists.
  - intros t j [[= -> ->]|Hin]%elem_of_cons; [lia|by eapply H4].
Qed.

Lemma fire_ok now d d' :
  timers_ok now d → fire now d = Some d' →
  timers_ok now d' ∧ length (d_ep d') = length (d_ep d) ∧ length (d_timers d) = S (length (d_timers d')) ∧
  ∀ t i, (t, i) ∈ d_timers d → now < t → (t, i) ∈ d_timers d'.
Proof.
  intros [H1 H2 H3 H4] E. unfold fire in E.
  destruct (takeDue now (d_timers d)) as [[i l]|] eqn:Hd; [|done]. cbn in E. injection E as <-.
  apply takeDue_Some in Hd as (l1 & t & l2 & Hl & -> & Hle). rewrite Hl in H2, H3, H4.
  rewrite fmap_app, fmap_cons in H2, H3. apply NoDup_app in H2 as (N1 & N2 & N3).
  apply NoDup_cons in N3 as [Ni N3]. unfold makeAvailable. cbn [snd] in *. split_and!.
  - split; cbn.
    + intros j ep. rewrite list_lookup_alter. case_decide as Hij; [subst j|apply H1].
      destruct (d_ep d !! i) as [ep'|] eqn:Hj; [|done]. intros [= <-]. exact (H1 i ep' Hj).
    + rewrite fmap_app. apply NoDup_app. split_and!; [done| |done]. intros x Hx Hx2. apply (N2 x Hx). by right.
    + intros j. specialize (H3 j). rewrite elem_of_app, elem_of_cons in H3.
      rewrite fmap_app, elem_of_app. setoid_rewrite list_lookup_alter. case_decide as Hj.
      * subst j. split; [|intros (ep & Hep & Ha); destruct (d_ep d !! i); [|done]; by injection Hep as <-].
        intros [Hin|Hin]; [|done]. destruct (N2 i Hin). by left.
      * rewrite <-H3. naive_solver.
    + intros t' j Hin. apply (H4 t' j). rewrite elem_of_app in Hin |- *. rewrite elem_of_cons. tauto.
  - apply length_alter.
  - cbn. rewrite Hl, !length_app. simpl. lia.
  - intros t' j Hin Hlt. rewrite Hl in Hin. cbn. rewrite elem_of_app, elem_of_cons in Hin. apply elem_of_app.
    destruct Hin as [|[[= -> ->]|]]; [by left|lia|by right].
Qed.

Lemma pstep_ok x y : pstep x y → timers_ok x.1 x.2 → timers_ok y.1 y.2 ∧ x.1 ≤ y.1 ∧
  length (d_ep y.2) = length (d_ep x.2) ∧ ∀ t i, (t, i) ∈ d_timers x.2 → y.1 < t → (t, i) ∈ d_timers y.2.
Proof.
  intros [now i d|now d d' E|now now' d Hle] Ht; cbn [fst snd] in *.
  - split_and!; [by apply Failed_ok|lia|apply Failed_length|]. intros t j Hin _.
    destruct (d_ep d !! i) as [ep|] eqn:Hi; [|unfold Failed; by rewrite Hi].
    destruct (ep_Available ep) eqn:Ha; [|unfold Failed; by rewrite Hi, Ha].
    rewrite (Failed_available _ _ _ _ Ht Hi Ha). by right.
  - destruct (fire_ok now d d' Ht E) as (? & ? & _ & ?). split_and!; [done|lia|done..].
  - split_and!; [|done..]. destruct Ht as [H1 H2 H3 H4]. split; [done..|]. intros t i Hin.
    specialize (H4 t i Hin). lia.
Qed.

Lemma psteps_ok x y : rtc pstep x y → timers_ok x.1 x.2 → timers_ok y.1 y.2 ∧ x.1 ≤ y.1 ∧
  length (d_ep y.2) = length (d_ep x.2) ∧ ∀ t i, (t, i) ∈ d_timers x.2 → y.1 < t → (t, i) ∈ d_timers y.2.
Proof.
  induction 1 as [x|x y z Hxy _ IH]; intros Hx; [done|].
  destruct (pstep_ok x y Hxy Hx) as (Hy & L1 & N1 & T1). destruct (IH Hy) as (Hz & L2 & N2 & T2).
  split_and!; [done|lia|congruence|]. intros t i Hin Hlt. apply T2; [|done]. apply T1; [done|lia].
Qed.

Lemma fire_sub now d d' x : fire now d = Some d' → x ∈ d_timers d' → x ∈ d_timers d.
Proof.
  unfold fire. destruct (takeDue now (d_timers d)) as [[i l]|] eqn:Hd; [|done]. cbn. intros [= <-]. cbn.
  apply takeDue_Some in Hd as (l1 & t & l2 & -> & -> & _). rewrite !elem_of_app, elem_of_cons. tauto.
Qed.

Lemma all_fire n now d :
  length (d_timers d) = n → timers_ok now d → (∀ t i, (t, i) ∈ d_timers d → t ≤ now) →
  ∃ d', rtc (λ a b, fire now a = Some b) d d' ∧ fire now d' = None ∧
    endpoints d' = seq 0 (length (d_ep d)).
Proof.
  revert d. induction n as [|n IH]; intros d Hn Ht Hdue.
  - exists d. apply nil_length_inv in Hn. split; [done|]. split; [unfold fire; by rewrite Hn|].
    unfold endpoints. pose proof (tm_out _ _ Ht) as Ho. rewrite Hn in Ho.
    assert (∀ i, i ∈ seq 0 (length (d_ep d)) → ep_Available <$> d_ep d !! i = Some true) as Hall.
    { intros i Hi%elem_of_seq. destruct (lookup_lt_is_Some_2 (d_ep d) i) as [ep Hep]; [lia|]. rewrite Hep.
      simpl. f_equal. destruct (ep_Available ep) eqn:Ha; [done|].
      assert (i ∈ ([] : list (Z * nat)).*2) as []%elem_of_nil. apply Ho. by exists ep. }
    induction (seq 0 (length (d_ep d))) as [|i l IHl]; [done|].
    rewrite filter_cons_True by (apply Hall; by left). f_equal. apply IHl. intros j Hj. apply Hall. by right.
  - destruct (fire now d) as [d1|] eqn:E.
    + destruct (fire_ok now d d1 Ht E) as (Ht1 & Hlen & Hsize & _).
      destruct (IH d1) as (d' & R & N & Hs); [lia|done| |].
      { intros t i Hin. eapply Hdue, fire_sub; [exact E|exact Hin]. }
      exists d'. rewrite Hlen in Hs. split_and!; [|done..]. by eapply rtc_l.
    + unfold fire in E. destruct (takeDue now (d_timers d)) as [[]|] eqn:Hd; [done|].
      pose proof (takeDue_None _ _ Hd) as Hnone. destruct (d_timers d) as [|[t i] l]; [done|].
      specialize (Hdue t i ltac:(by left)). specialize (Hnone t i ltac:(by left)). lia.
Qed.

(** C24. An endpoint that fails is left out for five seconds, whatever else happens to the
    director, and not for longer: once five seconds have passed, the timers that are due make
    all endpoints available, so that no endpoint is lost. *)
Theorem failed_endpoint_returns scheme addrs start d0 now d :
  newDirector scheme addrs = Some d0 → rtc pstep (start, d0) (now, d) →
  (∀ i now' d', i ∈ endpoints d → rtc pstep (now, Failed now i d) (now', d') →
    now' < now + endpointFailureWait → i ∉ endpoints d') ∧
  (∀ now', now + endpointFailureWait ≤ now' →
    ∃ d', rtc (λ a b, fire now' a = Some b) d d' ∧ fire now' d' = None ∧
      endpoints d' = seq 0 (length addrs)).
Proof.
  intros Hnew Hrun. pose proof (new_ok scheme addrs d0 start Hnew) as H0.
  destruct (psteps_ok _ _ Hrun H0) as (Hok & _ & Hlen & _). cbn [fst snd] in *. split.
  - intros i now' d' (ep & Hep & Ha)%endpoints_elem Hrun' Hlt.
    destruct (psteps_ok _ _ Hrun' (Failed_ok now i d Hok)) as (Hok' & _ & _ & Hkeep). cbn [fst snd] in *.
    assert ((now + endpointFailureWait, i) ∈ d_timers d') as Hin.
    { apply Hkeep; [|done]. rewrite (Failed_available now i d ep) by done. by left. }
    apply (list_elem_of_fmap_2 snd), (tm_out _ _ Hok') in Hin as (ep' & Hep' & Ha').
    intros (ep2 & Hep2 & Ha2)%endpoints_elem. cbn [snd] in *. congruence.
  - intros now' Hle. destruct (all_fire _ now' d eq_refl) as (d' & R & N & Hs).
    + apply (psteps_ok (now, d) (now', d)); [|done]. apply rtc_once, pstep_wait. unfold endpointFailureWait, second in *. lia.
    + intros t i Hin. pose proof (tm_soon _ _ Hok t i Hin). lia.
    + exists d'. split_and!; [done..|]. rewrite Hs, Hlen. f_equal. by apply new_length in Hnew.
Qed.

Definition pairOf : director :=
  mkDirector ((λ addr, newEndpoint (mkLocation "http" addr)) <$> ["10.0.0.1:2379"; "10.0.0.2:2379"]) [].

Lemma failed_endpoint_returns_witness :
  (∀ now' d', rtc pstep (7, Failed 7 0 pairOf) (now', d') → now' < 7 + endpointFailureWait → 0%nat ∉ endpoints d') ∧
  ∃ d', rtc (λ a b, fire (7 + endpointFailureWait) a = Some b) (Failed 7 0 pairOf) d' ∧
    endpoints d' = [0; 1]%nat.
Proof.
  split.
  - destruct (failed_endpoint_returns "http" ["10.0.0.1:2379"; "10.0.0.2:2379"] 7 pairOf 7 pairOf) as [H _];
      [done|done|]. intros now' d'. apply H. vm_compute. by left.
  - destruct (failed_endpoint_returns "http" ["10.0.0.1:2379"; "10.0.0.2:2379"] 7 pairOf 7 (Failed 7 0 pairOf)) as [_ H];
      [done|apply rtc_once, pstep_failed|]. destruct (H (7 + endpointFailureWait)) as (d' & R & _ & E); [done|].
    by exists d'.
Defined.

(** ** A failed attempt takes the body *)
#[local] Instance fieldOrder : HeaderRange := {| fields := map_to_list; fields_perm := λ h, reflexivity _ |}.

(** A transport that sends the body, and gets a response from the second endpoint only: the
    world is the list of what was sent, with the host. *)
Definition secondOnly (req : request) (body : list Z) (w : list (string * list Z))
  : list (string * list Z) * list Z * option response :=
  (w ++ [(l_Host (r_URL req), body)], [],
   if decide (l_Host (r_URL req) = "10.0.0.2:2379") then Some (mkResponse 200 ∅ []) else None).

Definition putRequest : request :=
  mkRequest "PUT" (mkLocation EmptyString EmptyString) "/v2/keys/a" ("HTTP/1.1", 1, 1) false ∅ "10.0.0.9:4321".

(** A run in which the value of a PUT is lost: the first endpoint breaks the connection
    after the body of the request was sent to it, the proxy goes on to the second one with the
    same reader, which has nothing left, and tells the client that all is well. *)
Theorem retry_loses_body :
  let '(_, w, res) := proxyServe secondOnly 7 putRequest [118; 97; 108; 117; 101; 61; 49] ∅ pairOf [] in
  w = [("10.0.0.1:2379", [118; 97; 108; 117; 101; 61; 49]); ("10.0.0.2:2379", [])] ∧
  rs_StatusCode res = 200.
Proof. by vm_compute. Qed.
