(* ===== verification/NetUrl.v ===== *)
(** * NetUrl: URLs and addresses as text (packages net/url, net and strings)

    The functions of Go's standard library that the flags of the command line are read with:
    Parse and String of package net/url, SplitHostPort and ParseIP of package net, and
    TrimSpace, Split and Replace of package strings.  They follow Go 1.3, the version that
    src/.travis.yml names.  A string is its bytes, in UTF-8.  At the end, what Parse gives for
    the URLs that etcd accepts, and that String gives their text back. *)

From stdpp Require Import pretty sorting.
From Stdlib Require Import String Ascii.
From S2P Require Import Prelude Paths Wal WalNames Snap Url.
From S2P Require Import TtlHeap EtcdError StoreEvent StoreNode Proxy.

(** ** package strings *)

(** [strings.Split(s, sep)] for a separator of one character. *)
Fixpoint splitOn (sep : ascii) (s : string) : list string :=
  match s with
  | EmptyString => [EmptyString]
  | String c s =>
      if decide (c = sep) then EmptyString :: splitOn sep s
      else match splitOn sep s with w :: ws => String c w :: ws | [] => [] end
  end.

(** [strings.Replace(s, a, b, -1)] for characters. *)
Fixpoint replaceChar (a b : ascii) (s : string) : string :=
  match s with
  | EmptyString => EmptyString
  | String c s => String (if decide (c = a) then b else c) (replaceChar a b s)
  end.

Definition mapString (f : ascii → ascii) : string → string :=
  fix go s := match s with EmptyString => EmptyString | String c s => String (f c) (go s) end.

Definition isLower (c : ascii) : bool := (97 <=? N_of_ascii c)%N && (N_of_ascii c <=? 122)%N.
Definition isUpper (c : ascii) : bool := (65 <=? N_of_ascii c)%N && (N_of_ascii c <=? 90)%N.
Definition isDigit (c : ascii) : bool := (48 <=? N_of_ascii c)%N && (N_of_ascii c <=? 57)%N.

(** [strings.ToLower] and [strings.ToUpper] of text in ASCII. *)
Definition ToLower : string → string :=
  mapString (λ c, if isUpper c then ascii_of_N (N_of_ascii c + 32) else c).
Definition ToUpper : string → string :=
  mapString (λ c, if isLower c then ascii_of_N (N_of_ascii c - 32) else c).

Definition utf8 (l : list N) : string := string_of_list_ascii (ascii_of_N <$> l).

(** The characters that unicode.IsSpace accepts, in UTF-8. *)
Definition spaces : list string :=
  utf8 <$> ([[9]; [10]; [11]; [12]; [13]; [32]; [194; 133]; [194; 160]; [225; 154; 128]; [225; 160; 142];
    [226; 128; 128]; [226; 128; 129]; [226; 128; 130]; [226; 128; 131]; [226; 128; 132]; [226; 128; 133];
    [226; 128; 134]; [226; 128; 135]; [226; 128; 136]; [226; 128; 137]; [226; 128; 138];
    [226; 128; 168]; [226; 128; 169]; [226; 128; 175]; [226; 129; 159]; [227; 128; 128]])%N.

Definition dropString (n : nat) (s : string) : string := String.substring n (String.length s - n) s.
Definition takeString (n : nat) (s : string) : string := String.substring 0 n s.

Fixpoint trimLeft (fuel : nat) (s : string) : string :=
  match fuel with
  | O => s
  | S fuel =>
      match List.find (λ w, HasPrefix s w) spaces with
      | Some w => trimLeft fuel (dropString (String.length w) s)
      | None => s
      end
  end.

Fixpoint trimRight (fuel : nat) (s : string) : string :=
  match fuel with
  | O => s
  | S fuel =>
      match List.find (λ w, HasSuffix s w) spaces with
      | Some w => trimRight fuel (takeString (String.length s - String.length w) s)
      | None => s
      end
  end.

(** A turn takes a character at least. *)
Definition TrimSpace (s : string) : string :=
  trimRight (String.length s) (trimLeft (String.length s) s).

(** ** package net/url *)
Record Userinfo := mkUserinfo { ui_username : string; ui_password : option string }.

Record netURL := mkNetURL {
  nu_Scheme : string;
  nu_Opaque : string;
  nu_User : option Userinfo;
  nu_Host : string;
  nu_Path : string;
  nu_RawQuery : string;
  nu_Fragment : string;
}.
Definition noURL : netURL :=
  mkNetURL EmptyString EmptyString None EmptyString EmptyString EmptyString EmptyString.

Inductive encoding := encodePath | encodeUserPassword | encodeFragment.

Definition shouldEscape (c : ascii) (mode : encoding) : bool :=
  if unreserved c then false
  else if bool_decide (c ∈ ["$"; "&"; "+"; ","; "/"; ":"; ";"; "="; "?"; "@"]%char) then
    match mode with
    | encodePath => bool_decide (c = "?"%char)
    | encodeUserPassword => bool_decide (c ∈ ["@"; "/"; ":"]%char)
    | encodeFragment => false
    end
  else true.

Fixpoint escape (s : string) (mode : encoding) : string :=
  match s with
  | EmptyString => EmptyString
  | String c s =>
      if shouldEscape c mode then
        String "%" (String (hexUpper (N_of_ascii c / 16)) (String (hexUpper (N_of_ascii c mod 16)) (escape s mode)))
      else String c (escape s mode)
  end.

(** Outside of a query, "+" stands for itself; [None] for an error. *)
Fixpoint unescape (s : string) : option string :=
  match s with
  | EmptyString => Some EmptyString
  | String c s' =>
      if decide (c = "%"%char) then
        match s' with
        | String a (String b s'') =>
            x ← unhex a; y ← unhex b; t ← unescape s''; Some (String (ascii_of_N (16 * x + y)) t)
        | _ => None
        end
      else t ← unescape s'; Some (String c t)
  end.

(** The scheme and the rest, [Some None] when there is no scheme, and [None] for the error that
    it is missing; [first] holds at the first character. *)
Fixpoint scanScheme (first : bool) (s : string) : option (option (string * string)) :=
  match s with
  | EmptyString => Some None
  | String c s =>
      let more :=
        r ← scanScheme false s;
        Some ('(scheme, rest) ← r; Some (String c scheme, rest)) in
      if isLower c || isUpper c then more
      else if isDigit c || bool_decide (c ∈ ["+"; "-"; "."]%char) then
        if first then Some None else more
      else if decide (c = ":"%char) then
        if first then None else Some (Some (EmptyString, s))
      else Some None
  end.
Definition getscheme (raw : string) : option (string * string) :=
  r ← scanScheme true raw; Some (default (EmptyString, raw) r).

(** Before and after the first [c]; [cutKeep] leaves [c] in the second part. *)
Definition cutFirst (c : ascii) (s : string) : string * string :=
  let '(a, b) := cutAt (λ x, bool_decide (x = c)) s in (a, default EmptyString b).
Definition cutKeep (c : ascii) (s : string) : string * string :=
  let '(a, b) := cutAt (λ x, bool_decide (x = c)) s in
  (a, match b with Some b => String c b | None => EmptyString end).

Definition parseAuthority (authority : string) : option (option Userinfo * string) :=
  if has "@" authority then
    let '(userinfo, host) := cutFirst "@" authority in
    if has ":" userinfo then
      let '(username, password) := cutFirst ":" userinfo in
      username ← unescape username; password ← unescape password;
      Some (Some (mkUserinfo username (Some password)), host)
    else
      username ← unescape userinfo; Some (Some (mkUserinfo username None), host)
  else Some (None, authority).

(** The text without a fragment. *)
Definition parseURL (raw : string) : option netURL :=
  if decide (raw = "*") then
    Some (mkNetURL EmptyString EmptyString None EmptyString "*" EmptyString EmptyString)
  else
    '(scheme, rest) ← getscheme raw;
    let scheme := ToLower scheme in
    let '(rest, rawQuery) := cutFirst "?" rest in
    if negb (HasPrefix rest "/") && negb (String.eqb scheme EmptyString) then
      Some (mkNetURL scheme rest None EmptyString EmptyString rawQuery EmptyString)
    else
      '(user, host, rest) ←
        (if (negb (String.eqb scheme EmptyString) || negb (HasPrefix rest "///")) && HasPrefix rest "//" then
           let '(authority, rest) := cutKeep "/" (dropString 2 rest) in
           '(user, host) ← parseAuthority authority;
           if has "%" host then None else Some (user, host, rest)
         else Some (None, EmptyString, rest));
      path ← unescape rest;
      Some (mkNetURL scheme EmptyString user host path rawQuery EmptyString).

(** [url.Parse(raw)]; [None] for an error. *)
Definition Parse (raw : string) : option netURL :=
  let '(u, frag) := cutFirst "#" raw in
  url ← parseURL u;
  if decide (frag = EmptyString) then Some url
  else
    frag ← unescape frag;
    Some (mkNetURL (nu_Scheme url) (nu_Opaque url) (nu_User url) (nu_Host url) (nu_Path url)
            (nu_RawQuery url) frag).

Definition userString (ui : Userinfo) : string :=
  (escape (ui_username ui) encodeUserPassword ++
   match ui_password ui with
   | Some p => ":" ++ escape p encodeUserPassword
   | None => EmptyString
   end)%string.

(** The String method. *)
Definition urlString (u : netURL) : string :=
  let empty s := String.eqb s EmptyString in
  ((if empty (nu_Scheme u) then EmptyString else nu_Scheme u ++ ":") ++
   (if negb (empty (nu_Opaque u)) then nu_Opaque u
    else
      (if negb (empty (nu_Scheme u)) || negb (empty (nu_Host u)) || bool_decide (is_Some (nu_User u)) then
         "//" ++ match nu_User u with Some ui => userString ui ++ "@" | None => EmptyString end ++ nu_Host u
       else EmptyString) ++
      (if negb (empty (nu_Path u)) && negb (HasPrefix (nu_Path u) "/") && negb (empty (nu_Host u)) then "/"
       else EmptyString) ++ escape (nu_Path u) encodePath) ++
   (if empty (nu_RawQuery u) then EmptyString else "?" ++ nu_RawQuery u) ++
   (if empty (nu_Fragment u) then EmptyString else "#" ++ escape (nu_Fragment u) encodeFragment))%string.

(** ** package net *)

(** A decimal number at the start of the text, and the rest. *)
Fixpoint dtoiFrom (n : Z) (some : bool) (s : string) : option (Z * string) :=
  match s with
  | String c s' =>
      match digitOf c with
      | Some d => if 16777215 <=? 10 * n + d then None else dtoiFrom (10 * n + d) true s'
      | None => if some then Some (n, s) else None
      end
  | EmptyString => if some then Some (n, s) else None
  end.
Definition dtoi (s : string) : option (Z * string) := dtoiFrom 0 false s.

(** [j] more numbers of an IPv4 address, with a dot before each of them if [dot]. *)
Fixpoint parseIPv4From (j : nat) (dot : bool) (s : string) : option (list Z) :=
  match j with
  | O => if decide (s = EmptyString) then Some [] else None
  | S j =>
      s ← (if dot then match s with String "." s => Some s | _ => None end else Some s);
      '(n, s) ← dtoi s;
      if 255 <? n then None else l ← parseIPv4From j true s; Some (n :: l)
  end.

(** [net.ParseIP(s)] of a text without ":", which cannot be an IPv6 address; [None] for nil. *)
Definition ParseIP (s : string) : option (list Z) := parseIPv4From 4 false s.

(** ** Plain text

    The characters of names, addresses and URLs that nothing escapes or splits. *)
Definition plainChar (c : ascii) : bool := unreserved c || bool_decide (c ∈ [":"; "["; "]"; "/"]%char).
Definition plain (s : string) : Prop := free (λ c, negb (plainChar c)) s.

Lemma free_weaken f g s : (∀ c, g c = true → f c = true) → free f s → free g s.
Proof.
  intros Hfg. induction s as [|c s IH]; [done|]. intros [Hc Hs]. split; [|by apply IH].
  destruct (g c) eqn:E; [|done]. apply Hfg in E. congruence.
Qed.

Lemma plain_free c s : plainChar c = false → plain s → free (λ x, bool_decide (x = c)) s.
Proof. intros Hc. apply free_weaken. intros x ->%bool_decide_eq_true. by rewrite Hc. Qed.

Lemma free_has c s : free (λ x, bool_decide (x = c)) s → has c s = false.
Proof. induction s as [|x s IH]; [done|]. intros [Hx Hs]. unfold has. simpl. rewrite Hx. by apply IH. Qed.

Lemma cutFirst_free c s : free (λ x, bool_decide (x = c)) s → cutFirst c s = (s, EmptyString).
Proof. intros Hs. unfold cutFirst. by rewrite cutAt_free. Qed.

Lemma splitOn_free sep s : free (λ x, bool_decide (x = sep)) s → splitOn sep s = [s].
Proof.
  induction s as [|c s IH]; [done|]. intros [Hc%bool_decide_eq_false Hs]. cbn [splitOn].
  by rewrite decide_False, IH.
Qed.

Lemma splitOn_cons sep s t :
  free (λ x, bool_decide (x = sep)) s → splitOn sep (s ++ String sep t) = s :: splitOn sep t.
Proof.
  induction s as [|c s IH]; intros Hs; [change (EmptyString ++ ?x)%string with x; cbn [splitOn]; by rewrite decide_True|].
  destruct Hs as [Hc%bool_decide_eq_false Hs]. rewrite append_cons. cbn [splitOn].
  by rewrite decide_False, IH.
Qed.

(** Split and Join are inverse. *)
Lemma splitOn_concat sep l :
  l ≠ [] → Forall (free (λ x, bool_decide (x = sep))) l →
  splitOn sep (String.concat (String sep EmptyString) l) = l.
Proof.
  induction l as [|s [|t l] IH]; intros Hne Hl; [done|..]; apply Forall_cons in Hl as [Hs Hl].
  - by apply splitOn_free.
  - change (String.concat _ (s :: t :: l)) with (s ++ String sep (String.concat (String sep EmptyString) (t :: l)))%string.
    rewrite splitOn_cons by done. by rewrite IH.
Qed.

Lemma substring_full s : String.substring 0 (String.length s) s = s.
Proof. induction s as [|c s IH]; [done|]. simpl. by rewrite IH. Qed.

Lemma substring_split n s :
  (n ≤ String.length s)%nat →
  s = (String.substring 0 n s ++ String.substring n (String.length s - n) s)%string.
Proof.
  revert n. induction s as [|c s IH]; intros [|n] Hn; [done|simpl in Hn; lia|..].
  - simpl. change (EmptyString ++ ?x)%string with x. by rewrite substring_full.
  - simpl in *. rewrite append_cons. f_equal. apply IH. lia.
Qed.

Fixpoint lastChar (s : string) : option ascii :=
  match s with
  | EmptyString => None
  | String c EmptyString => Some c
  | String _ s => lastChar s
  end.

Lemma lastChar_append a s : s ≠ EmptyString → lastChar (a ++ s) = lastChar s.
Proof.
  intros Hs. induction a as [|c a IH]; [done|]. rewrite append_cons. cbn [lastChar].
  destruct (a ++ s)%string eqn:E; [|by rewrite <-IH]. by destruct a, s.
Qed.

Lemma HasSuffix_last s w : w ≠ EmptyString → HasSuffix s w = true → lastChar s = lastChar w.
Proof.
  unfold HasSuffix. intros Hw [Hl%Nat.leb_le E%String.eqb_eq]%andb_prop.
  rewrite (substring_split (String.length s - String.length w) s) by lia.
  replace (String.length s - (String.length s - String.length w))%nat with (String.length w) by lia.
  rewrite E. by apply lastChar_append.
Qed.

Lemma plain_last s : plain s → s ≠ EmptyString → ∃ c, lastChar s = Some c ∧ plainChar c = true.
Proof.
  induction s as [|c s IH]; intros Hs Hne; [done|]. destruct Hs as [Hc%negb_false_iff Hs].
  destruct s as [|d s]; [by exists c|]. by apply IH.
Qed.

(** No character of plain text begins or ends a space. *)
Lemma plain_spaces c w :
  plainChar c = true → w ∈ spaces → w ≠ EmptyString ∧ String.get 0 w ≠ Some c ∧ lastChar w ≠ Some c.
Proof.
  intros Hc. revert w. apply Forall_forall.
  pose (edge o := match o with Some a => negb (plainChar a) | None => true end).
  assert (∀ o, edge o = true → o ≠ Some c) as Hedge by (intros o Ho ->; simpl in Ho; by rewrite Hc in Ho).
  apply (Forall_impl (λ w, w ≠ EmptyString ∧ edge (String.get 0 w) = true ∧ edge (lastChar w) = true)).
  - apply (bool_decide_unpack _). by vm_compute.
  - intros w (Hw & H1 & H2). eauto.
Qed.

Lemma find_false {A} (f : A → bool) l : (∀ x, x ∈ l → f x = false) → List.find f l = None.
Proof.
  intros Hf. induction l as [|x l IH]; [done|]. simpl. rewrite Hf by (by left). apply IH.
  intros y Hy. apply Hf. by right.
Qed.

Lemma trimLeft_plain fuel s : plain s → trimLeft fuel s = s.
Proof.
  intros Hs. destruct fuel as [|fuel]; [done|]. cbn [trimLeft]. rewrite find_false; [done|]. intros w Hw.
  destruct s as [|c s]; [by apply (plain_spaces ":") in Hw as (Hw & _); [destruct w|]|].
  destruct Hs as [Hc%negb_false_iff _]. destruct (plain_spaces c w Hc Hw) as (H1 & H2 & _).
  destruct w as [|d w]; [done|]. unfold HasPrefix. simpl in *. destruct (ascii_dec d c); [congruence|done].
Qed.

Lemma trimRight_plain fuel s : plain s → trimRight fuel s = s.
Proof.
  intros Hs. destruct fuel as [|fuel]; [done|]. cbn [trimRight]. rewrite find_false; [done|]. intros w Hw.
  destruct (HasSuffix s w) eqn:E; [|done]. exfalso. destruct (decide (s = EmptyString)) as [->|Hne].
  - apply (plain_spaces ":") in Hw as (Hw & _); [|done]. by destruct w.
  - destruct (plain_last s Hs Hne) as (c & Hl & Hc). destruct (plain_spaces c w Hc Hw) as (H1 & _ & H2).
    apply HasSuffix_last in E; [|done]. congruence.
Qed.

Lemma TrimSpace_plain s : plain s → TrimSpace s = s.
Proof. intros Hs. unfold TrimSpace. by rewrite trimLeft_plain, trimRight_plain. Qed.

(** ** The URLs of members: a scheme and an address *)
Definition httpURL (tls : bool) (host : string) : string :=
  ((if tls then "https" else "http") ++ "://" ++ host)%string.
Definition httpLocation (tls : bool) (host : string) : netURL :=
  mkNetURL (if tls then "https" else "http") EmptyString None host EmptyString EmptyString EmptyString.

(** Plain text without a slash. *)
Definition hostText (host : string) : Prop := plain host ∧ free (λ x, bool_decide (x = "/"%char)) host.

Lemma httpURL_plain tls host : plain host → plain (httpURL tls host).
Proof. intros Hh. unfold plain, httpURL. repeat apply free_append; [by destruct tls|done|done]. Qed.

Lemma Parse_http tls host : hostText host → Parse (httpURL tls host) = Some (httpLocation tls host).
Proof.
  intros [Hp Hs]. unfold Parse. rewrite cutFirst_free by (apply plain_free, httpURL_plain; done).
  assert (parseURL (httpURL tls host) = Some (httpLocation tls host)) as ->; [|done].
  assert (has "@" host = false ∧ has "%" host = false) as [H1 H2] by (split; apply free_has, plain_free; done).
  assert (getscheme (httpURL tls host) = Some (if tls then "https" else "http", "//" ++ host)%string) as E.
  { by destruct tls. }
  unfold parseURL. rewrite decide_False by (by destruct tls). rewrite E. cbn [mbind option_bind].
  rewrite cutFirst_free by (apply (plain_free "?"); [done|by apply (free_append _ "//")]).
  assert (dropString 2 ("//" ++ host) = host) as Hd.
  { unfold dropString. rewrite length_append. simpl. rewrite Nat.sub_0_r. apply substring_full. }
  rewrite Hd. unfold cutKeep. rewrite cutAt_free by done. unfold parseAuthority. rewrite H1.
  cbn [mbind option_bind]. rewrite H2.
  assert (∀ w, w ∈ ["/"; "//"] → HasPrefix ("//" ++ host) w = true) as Hw.
  { intros w. rewrite !elem_of_cons, elem_of_nil. by intros [->|[->|[]]]; destruct host. }
  rewrite (Hw "/"), (Hw "//") by (rewrite !elem_of_cons; tauto). by destruct tls.
Qed.

Lemma urlString_http tls host : host ≠ EmptyString → urlString (httpLocation tls host) = httpURL tls host.
Proof.
  intros Hh. unfold urlString, httpURL. destruct host as [|c host]; [done|]. by destruct tls; simpl; rewrite !append_nil.
Qed.
