(* ===== verification/Transport.v ===== *)
(** * Transport: listeners and transports with TLS (src/pkg/transport/listener.go)

    Files are read with [readFile], and [listen] opens a socket.  Certificates are of package
    crypto/tls and crypto/x509, and PEM blocks of encoding/pem: the types and the parsing
    functions are parameters.  [pemDecode] gives the bytes of the first block and what is left
    after it.  An error is its text. *)

From stdpp Require Import pretty.
From Stdlib Require Import String.
From S2P Require Import Prelude Wire.

Record TLSInfo (C : Type) := mkTLSInfo {
  CertFile : string;
  KeyFile : string;
  CAFile : string;
  parseFunc : option (list Z → list Z → string + C);
}.
Arguments mkTLSInfo {C}.
Arguments CertFile {C}.
Arguments KeyFile {C}.
Arguments CAFile {C}.
Arguments parseFunc {C}.

Definition Empty {C} (info : TLSInfo C) : bool :=
  String.eqb (CertFile info) EmptyString && String.eqb (KeyFile info) EmptyString.

Inductive ClientAuthType := NoClientCert | RequireAndVerifyClientCert.

(** tls.Config. *)
Record Config (C X : Type) := mkConfig {
  Certificates : list C;
  ClientAuth : ClientAuthType;
  ClientCAs : option (list X);
  RootCAs : option (list X);
}.
Arguments mkConfig {C X}.
Arguments Certificates {C X}.
Arguments ClientAuth {C X}.
Arguments ClientCAs {C X}.
Arguments RootCAs {C X}.

Section transport.
Context {C X : Type} (readFile : string → string + list Z) (listen : string → option string).
Context (X509KeyPair : list Z → list Z → string + C).
Context (pemDecode : list Z → option (list Z * list Z)) (ParseCertificate : list Z → string + X).

Definition baseConfig (info : TLSInfo C) : string + Config C X :=
  if String.eqb (KeyFile info) EmptyString || String.eqb (CertFile info) EmptyString then
    inl ("KeyFile and CertFile must both be present[key: " ++ KeyFile info ++ ", cert: " ++ CertFile info ++ "]")%string
  else
    match readFile (CertFile info) with
    | inl err => inl err
    | inr cert =>
        match readFile (KeyFile info) with
        | inl err => inl err
        | inr key =>
            match default X509KeyPair (parseFunc info) cert key with
            | inl err => inl err
            | inr tlsCert => inr (mkConfig [tlsCert] NoClientCert None None)
            end
        end
    end.

(** The loop over the blocks, with the certificates so far. *)
Fixpoint certPoolLoop (fuel : nat) (pemByte : list Z) (certPool : list X) : run (string + list X) :=
  match fuel with
  | O => Loop
  | S fuel =>
      match pemDecode pemByte with
      | None => Ret (inr certPool)
      | Some (block, rest) =>
          match ParseCertificate block with
          | inl err => Ret (inl err)
          | inr cert => certPoolLoop fuel rest (certPool ++ [cert])
          end
      end
  end.

Definition newCertPool (CAFile : string) : run (string + list X) :=
  match readFile CAFile with
  | inl err => Ret (inl err)
  | inr pemByte => certPoolLoop (S (length pemByte)) pemByte []
  end.

Definition ServerConfig (info : TLSInfo C) : run (string + Config C X) :=
  match baseConfig info with
  | inl err => Ret (inl err)
  | inr cfg =>
      if negb (String.eqb (CAFile info) EmptyString) then
        cp ← newCertPool (CAFile info);
        match cp with
        | inl err => Ret (inl err)
        | inr cp => Ret (inr (mkConfig (Certificates cfg) RequireAndVerifyClientCert (Some cp) (RootCAs cfg)))
        end
      else Ret (inr (mkConfig (Certificates cfg) NoClientCert (ClientCAs cfg) (RootCAs cfg)))
  end.

Definition ClientConfig (info : TLSInfo C) : run (string + Config C X) :=
  match baseConfig info with
  | inl err => Ret (inl err)
  | inr cfg =>
      if negb (String.eqb (CAFile info) EmptyString) then
        cp ← newCertPool (CAFile info);
        match cp with
        | inl err => Ret (inl err)
        | inr cp => Ret (inr (mkConfig (Certificates cfg) (ClientAuth cfg) (ClientCAs cfg) (Some cp)))
        end
      else Ret (inr cfg)
  end.

(** A listener is its address and its configuration when it speaks TLS. *)
Definition NewListener (addr : string) (info : TLSInfo C) : run (string + string * option (Config C X)) :=
  match listen addr with
  | Some err => Ret (inl err)
  | None =>
      if negb (Empty info) then
        cfg ← ServerConfig info;
        match cfg with
        | inl err => Ret (inl err)
        | inr cfg => Ret (inr (addr, Some cfg))
        end
      else Ret (inr (addr, None))
  end.

(** A transport is its TLSClientConfig. *)
Definition NewTransport (info : TLSInfo C) : run (string + option (Config C X)) :=
  if negb (Empty info) then
    tlsCfg ← ClientConfig info;
    match tlsCfg with
    | inl err => Ret (inl err)
    | inr cfg => Ret (inr (Some cfg))
    end
  else Ret (inr None).

(** ** What a listener promises *)

(** The blocks of a file. *)
Inductive pem_blocks : list Z → list (list Z) → Prop :=
  | no_blocks data : pemDecode data = None → pem_blocks data []
  | more_blocks data block rest blocks :
      pemDecode data = Some (block, rest) → pem_blocks rest blocks → pem_blocks data (block :: blocks).

(** A pool holds the certificates of all blocks of its file. *)
Definition pool_of (file : string) (pool : list X) : Prop :=
  ∃ data blocks, readFile file = inr data ∧ pem_blocks data blocks ∧
    Forall2 (λ b cert, ParseCertificate b = inr cert) blocks pool.

(** The certificate of the files of [info]. *)
Definition key_pair (info : TLSInfo C) (cert : C) : Prop :=
  ∃ certData keyData,
    readFile (CertFile info) = inr certData ∧ readFile (KeyFile info) = inr keyData ∧
    default X509KeyPair (parseFunc info) certData keyData = inr cert.

(** The configuration made from the files of [info]. *)
Inductive server_config (info : TLSInfo C) : Config C X → Prop :=
  | sc_open cert : key_pair info cert → CAFile info = EmptyString →
      server_config info (mkConfig [cert] NoClientCert None None)
  | sc_auth cert pool : key_pair info cert → CAFile info ≠ EmptyString →
      pool_of (CAFile info) pool →
      server_config info (mkConfig [cert] RequireAndVerifyClientCert (Some pool) None).

(** What a listener for [info] has to be: a plain one when neither the certificate nor the key
    is named, and one with the configuration of the files when both are. *)
Definition asked (info : TLSInfo C) (cfg : option (Config C X)) : Prop :=
  match cfg with
  | None => CertFile info = EmptyString ∧ KeyFile info = EmptyString
  | Some cfg => CertFile info ≠ EmptyString ∧ KeyFile info ≠ EmptyString ∧ server_config info cfg
  end.

(** A block of the CA file that is not a certificate, after blocks that are. *)
Definition bad_block (data : list Z) (err : string) : Prop :=
  ∃ pre block post certs, pem_blocks data (pre ++ block :: post) ∧
    Forall2 (λ b cert, ParseCertificate b = inr cert) pre certs ∧ ParseCertificate block = inl err.

(** Why there is no configuration for [info]: only one of the two files is named, one cannot be
    read, they are no key pair, or the CA file cannot be read or has a block that is no
    certificate. *)
Inductive refused (info : TLSInfo C) : string → Prop :=
  | rf_half : (CertFile info = EmptyString ↔ KeyFile info ≠ EmptyString) →
      refused info ("KeyFile and CertFile must both be present[key: " ++ KeyFile info ++ ", cert: " ++ CertFile info ++ "]")
  | rf_cert err : readFile (CertFile info) = inl err → refused info err
  | rf_key certData err : readFile (CertFile info) = inr certData → readFile (KeyFile info) = inl err →
      refused info err
  | rf_pair certData keyData err : readFile (CertFile info) = inr certData →
      readFile (KeyFile info) = inr keyData →
      default X509KeyPair (parseFunc info) certData keyData = inl err → refused info err
  | rf_ca cert err : key_pair info cert → CAFile info ≠ EmptyString →
      readFile (CAFile info) = inl err → refused info err
  | rf_block cert data err : key_pair info cert → CAFile info ≠ EmptyString →
      readFile (CAFile info) = inr data → bad_block data err → refused info err.

(** pem.Decode takes a block from its data. *)
Hypothesis pem_shorter : ∀ data block rest,
  pemDecode data = Some (block, rest) → (length rest < length data)%nat.

Lemma pem_total data : ∃ blocks, pem_blocks data blocks.
Proof.
  induction data as [data IH] using (induction_ltof1 _ (@length Z)). unfold ltof in IH.
  destruct (pemDecode data) as [[block rest]|] eqn:E; [|by exists []; constructor].
  destruct (IH rest) as (blocks & Hb); [by eapply pem_shorter|]. exists (block :: blocks). by econstructor.
Qed.

Lemma pem_blocks_inj data blocks1 blocks2 :
  pem_blocks data blocks1 → pem_blocks data blocks2 → blocks1 = blocks2.
Proof.
  intros H1. revert blocks2. induction H1; intros blocks2 H2; inversion H2; simplify_eq; [done..|].
  f_equal. auto.
Qed.

(** The loop ends, with the certificates of all blocks or with the error of the first block that
    is none. *)
Lemma certPoolLoop_ok fuel data pool :
  (length data < fuel)%nat →
  (∃ blocks certs, pem_blocks data blocks ∧ certPoolLoop fuel data pool = Ret (inr (pool ++ certs)) ∧
     Forall2 (λ b cert, ParseCertificate b = inr cert) blocks certs) ∨
  (∃ err, certPoolLoop fuel data pool = Ret (inl err) ∧ bad_block data err).
Proof.
  revert data pool. induction fuel as [|fuel IH]; intros data pool Hf; [lia|]. cbn [certPoolLoop].
  destruct (pemDecode data) as [[block rest]|] eqn:E.
  - apply pem_shorter in E as Hl.
    destruct (pem_total rest) as (all & Hall).
    destruct (ParseCertificate block) as [err|cert] eqn:Ec.
    { right. exists err. split; [done|]. exists [], block, all, []. split_and!; [by econstructor|done..]. }
    destruct (IH rest (pool ++ [cert])) as [(blocks & certs & Hb & -> & Hc)|(err & -> & Hbad)]; [lia|left|right].
    + exists (block :: blocks), (cert :: certs).
      split_and!; [by econstructor|by rewrite <-app_assoc|by constructor].
    + destruct Hbad as (pre & b & post & certs & Hb & Hpre & Herr). exists err. split; [done|].
      exists (block :: pre), b, post, (cert :: certs). split_and!; [by econstructor|by constructor|done].
  - left. exists [], []. split_and!; [by constructor|by rewrite app_nil_r|done].
Qed.

Lemma newCertPool_ok file :
  (∃ pool, newCertPool file = Ret (inr pool) ∧ pool_of file pool) ∨
  (∃ err, newCertPool file = Ret (inl err) ∧
     (readFile file = inl err ∨ ∃ data, readFile file = inr data ∧ bad_block data err)).
Proof.
  unfold newCertPool. destruct (readFile file) as [err|data] eqn:E; [right; by eauto|].
  destruct (certPoolLoop_ok (S (length data)) data []) as [(blocks & certs & Hb & -> & Hc)|(err & -> & Hbad)];
    [lia|left|right; by eauto 10].
  exists certs. split; [done|]. by exists data, blocks.
Qed.

Lemma pool_of_inj file pool1 pool2 : pool_of file pool1 → pool_of file pool2 → pool1 = pool2.
Proof.
  intros (d1 & b1 & E1 & P1 & F1) (d2 & b2 & E2 & P2 & F2).
  rewrite E1 in E2; injection E2 as <-.
  assert (b1 = b2) as <- by (by eapply pem_blocks_inj).
  clear P1 P2. revert pool2 F2. induction F1; intros pool2 F2; inversion F2; subst; [done|].
  f_equal; [congruence|auto].
Qed.

Lemma pool_of_good file pool err :
  pool_of file pool →
  readFile file = inl err ∨ (∃ data, readFile file = inr data ∧ bad_block data err) → False.
Proof.
  intros (d1 & b1 & E1 & P1 & F1) [E2|(d2 & E2 & pre & b & post & certs & P2 & _ & Eb)]; [congruence|].
  rewrite E1 in E2; injection E2 as <-. rewrite (pem_blocks_inj _ _ _ P1 P2) in F1.
  apply Forall2_app_inv_l in F1 as (? & ? & _ & F & _). inversion F. congruence.
Qed.

Lemma half_config info :
  (CertFile info = EmptyString ↔ KeyFile info ≠ EmptyString) →
  ServerConfig info =
    Ret (inl ("KeyFile and CertFile must both be present[key: " ++ KeyFile info ++ ", cert: " ++ CertFile info ++ "]")%string).
Proof.
  intros H. unfold ServerConfig, baseConfig.
  destruct (String.eqb_spec (KeyFile info) EmptyString), (String.eqb_spec (CertFile info) EmptyString);
    cbn [orb]; tauto.
Qed.

(** With both files named, the result is the configuration, when there is one. *)
Lemma ServerConfig_ok info :
  CertFile info ≠ EmptyString → KeyFile info ≠ EmptyString →
  (∃ cfg, ServerConfig info = Ret (inr cfg) ∧ ∀ cfg', server_config info cfg' ↔ cfg' = cfg) ∨
  (∃ err, ServerConfig info = Ret (inl err) ∧ refused info err ∧ ∀ cfg, ¬ server_config info cfg).
Proof.
  intros H1%String.eqb_neq H2%String.eqb_neq. unfold ServerConfig, baseConfig. rewrite H1, H2. cbn [orb].
  destruct (readFile (CertFile info)) as [err|cd] eqn:E1.
  { right. exists err. split_and!; [done|by constructor|]. intros cfg Hc.
    destruct Hc as [? Hk|? ? Hk]; destruct Hk as (? & ? & ? & ?); congruence. }
  destruct (readFile (KeyFile info)) as [err|kd] eqn:E2.
  { right. exists err. split_and!; [done|by econstructor|]. intros cfg Hc.
    destruct Hc as [? Hk|? ? Hk]; destruct Hk as (? & ? & ? & ? & ?); congruence. }
  destruct (default X509KeyPair (parseFunc info) cd kd) as [err|cert] eqn:E3.
  { right. exists err. split_and!; [done|by econstructor|]. intros cfg Hc.
    destruct Hc as [? Hk|? ? Hk]; destruct Hk as (? & ? & ? & ? & ?); congruence. }
  assert (key_pair info cert) as Hkp by (by exists cd, kd).
  assert (∀ cert', key_pair info cert' → cert' = cert) as Huniq.
  { intros cert' (cd' & kd' & ? & ? & ?). congruence. }
  destruct (String.eqb_spec (CAFile info) EmptyString) as [Hca|Hca]; cbn [negb Certificates ClientCAs RootCAs].
  - left. eexists. split; [done|]. intros cfg'. split; [|intros ->; by constructor].
    intros Hc. destruct Hc as [? Hk|]; [by rewrite (Huniq _ Hk)|done].
  - destruct (newCertPool_ok (CAFile info)) as [(pool & -> & Hp)|(err & -> & He)]; cbn [mbind run_bind].
    + left. eexists. split; [done|]. intros cfg'. split; [|intros ->; by constructor].
      intros Hc. destruct Hc as [|? pool' Hk _ Hp']; [done|].
      by rewrite (Huniq _ Hk), (pool_of_inj _ _ _ Hp Hp').
    + right. exists err. split_and!; [done| |].
      * destruct He as [He|(data & He & Hbad)]; [by eapply rf_ca|by eapply rf_block].
      * intros cfg Hc. destruct Hc as [|? pool' _ _ Hp']; [done|]. by eapply pool_of_good.
Qed.

(** C21. A listener is what its TLSInfo asks for.  NewListener returns.  It gives a listener
    exactly when the socket is opened and there is one to give: a plain listener when neither a
    certificate file nor a key file is named, whether or not there is a CA file, and when both
    are named and all files can be read and parsed, a TLS listener with the certificate of the
    two files, which requires a certificate of its clients exactly when a CA file is named,
    with all certificates of that file as roots.  An error is the one of the socket, or it says
    what is wrong with the files. *)
Theorem listener_config addr info :
  ∃ r, NewListener addr info = Ret r ∧
    (∀ addr' cfg, r = inr (addr', cfg) ↔ listen addr = None ∧ addr' = addr ∧ asked info cfg) ∧
    (∀ err, r = inl err → listen addr = Some err ∨ listen addr = None ∧ refused info err).
Proof.
  unfold NewListener, Empty. destruct (listen addr) as [err|].
  { exists (inl err). split_and!; [done|naive_solver|]. intros ? [= <-]. by left. }
  destruct (String.eqb_spec (CertFile info) EmptyString) as [H1|H1],
    (String.eqb_spec (KeyFile info) EmptyString) as [H2|H2]; cbn [andb negb].
  - eexists. split_and!; [done| |done]. intros addr' [cfg|]; naive_solver.
  - rewrite half_config by tauto. eexists. split_and!; [done| |].
    + intros addr' [cfg|]; naive_solver.
    + intros ? [= <-]. right. split; [done|]. constructor. tauto.
  - rewrite half_config by tauto. eexists. split_and!; [done| |].
    + intros addr' [cfg|]; naive_solver.
    + intros ? [= <-]. right. split; [done|]. constructor. tauto.
  - destruct (ServerConfig_ok info H1 H2) as [(cfg & -> & Hc)|(err & -> & Herr & Hc)];
      cbn [mbind run_bind]; eexists; (split_and!; [done| |]).
    + intros addr' [cfg'|]; simpl; [rewrite Hc|]; naive_solver.
    + done.
    + intros addr' [cfg'|]; naive_solver.
    + intros ? [= <-]. by right.
Qed.
End transport.

(** ** Example: a certificate, a key and a CA file *)
Definition exampleFiles (name : string) : string + list Z :=
  if decide (name = "cert") then inr [1] else if decide (name = "key") then inr [2]
  else if decide (name = "ca") then inr [7; 8] else inl "no such file".

(** One block per byte. *)
Definition exampleDecode (data : list Z) : option (list Z * list Z) :=
  match data with [] => None | b :: rest => Some ([b], rest) end.

Lemma listener_config_witness :
  NewListener exampleFiles (λ _, None) (λ cert key, inr (cert, key)) exampleDecode (λ b, inr b)
    "127.0.0.1:2379" (mkTLSInfo "cert" "key" "ca" None) =
  Ret (inr ("127.0.0.1:2379", Some (mkConfig [([1], [2])] RequireAndVerifyClientCert (Some [[7]; [8]]) None))).
Proof.
  destruct (listener_config exampleFiles (λ _, None) (λ cert key, inr (cert, key)) exampleDecode (λ b, inr b)
    ltac:(intros [|b data] block rest; [done|]; intros [= <- <-]; simpl; lia)
    "127.0.0.1:2379" (mkTLSInfo "cert" "key" "ca" None)) as (r & -> & H & _).
  f_equal. apply H. split; [done|]. split; [done|]. split; [done|]. split; [done|].
  apply (sc_auth _ _ _ _ _ ([1], [2]) [[7]; [8]]); [by exists [1], [2]|done|].
  exists [7; 8], [[7]; [8]]. split_and!; [done| |by repeat constructor].
  eapply more_blocks; [done|]. eapply more_blocks; [done|]. by apply no_blocks.
Defined.

(** The CA file alone does not make a listener ask for certificates, or speak TLS at all. *)
Theorem ca_file_alone {C X} readFile (X509KeyPair : list Z → list Z → string + C) pemDecode
    (ParseCertificate : list Z → string + X) addr ca :
  NewListener readFile (λ _, None) X509KeyPair pemDecode ParseCertificate addr
    (mkTLSInfo EmptyString EmptyString ca None) = Ret (inr (addr, None)).
Proof. done. Qed.
