(* ===== verification/Flags.v ===== *)
(** * Flags: the flags of the command line (src/pkg/types/urls.go, src/pkg/flags, src/pkg/flag.go,
    and the Set methods of src/etcdserver/cluster.go and src/pkg/cors.go)

    The values that a flag can have, with the method Set of each, which reads the value from
    text; a FlagSet of package flag; and the two functions of flag.go that read the environment
    and decide on the URLs of the server.  A Set method gives the new value and an error: a
    value may have changed although there is an error.  [parseDuration] is
    time.ParseDuration, which computes with floating-point numbers. *)

From stdpp Require Import pretty sorting.
From Stdlib Require Import String Ascii.
From S2P Require Import Prelude Wire Raftpb RaftpbCodec Etcdserverpb Wal Snap.
From S2P Require Import Paths TtlHeap EtcdError StoreEvent WatcherHub StoreNode Store.
From S2P Require Import Url Server Http Client Sha1 Cluster Proxy NetUrl Transport.

(** ** Lists of URLs (types/urls.go, flags/urls.go) *)
Abbreviation URLs := (list netURL).

Inductive flagErr :=
  | NoURLs | BadURL (text : string) | BadScheme (text : string) | BadHostPort (text : string)
  | HasPath (text : string)
  | BadQuery (escape : string) | EmptyURL (name : string) | MemberExists
  | BadOrigin (text : string)
  | BadFormat | BadIP | BadPort
  | InvalidValue
  | NumError | DurationError
  | NoSuchFlag (name : string)
  | SetOnlyOne (a b : string).

(** [us.Less(i, j)], the other way round and reflexive. *)
Definition url_le (a b : netURL) : Prop := String.leb (urlString a) (urlString b) = true.
#[export] Instance url_le_dec a b : Decision (url_le a b) := ltac:(unfold url_le; apply _).

Definition sortURLs (us : URLs) : URLs := merge_sort url_le us.
Definition StringSlice (us : URLs) : list string := urlString <$> us.

(** One turn of the loop. *)
Definition newURL (text : string) : flagErr + netURL :=
  let text := TrimSpace text in
  match Parse text with
  | None => inl (BadURL text)
  | Some u =>
      if negb (String.eqb (nu_Scheme u) "http") && negb (String.eqb (nu_Scheme u) "https") then
        inl (BadScheme text)
      else match splitHost (nu_Host u) with
           | None => inl (BadHostPort text)
           | Some _ => if negb (String.eqb (nu_Path u) EmptyString) then inl (HasPath text) else inr u
           end
  end.
Fixpoint newURLs (strs : list string) : flagErr + URLs :=
  match strs with
  | [] => inr []
  | s :: strs =>
      match newURL s with
      | inl e => inl e
      | inr u => match newURLs strs with inl e => inl e | inr us => inr (u :: us) end
      end
  end.
Definition NewURLs (strs : list string) : flagErr + URLs :=
  match strs with
  | [] => inl NoURLs
  | _ => match newURLs strs with inl e => inl e | inr us => inr (sortURLs us) end
  end.

Definition URLsValueSet (s : string) (us : URLs) : URLs * option flagErr :=
  match NewURLs (splitOn "," s) with
  | inl e => (us, Some e)
  | inr nus => (nus, None)
  end.
Definition URLsValueString (us : URLs) : string := String.concat "," (urlString <$> us).

(** The error of Set is not looked at. *)
Definition NewURLsValue (init : string) : URLs := (URLsValueSet init []).1.

(** ** The cluster (cluster.go) *)
Section values.
Context `{HeaderRange}.

Fixpoint setMembers (l : list (string * list string)) (c : Cluster) : Cluster * option flagErr :=
  match l with
  | [] => (c, None)
  | (name, urls) :: l =>
      match urls with
      | [] => (c, Some (EmptyURL name))
      | u :: _ =>
          if decide (u = EmptyString) then (c, Some (EmptyURL name))
          else
            let m := newMember name (StringSlice (NewURLsValue (String.concat "," urls))) None in
            match addMember m c with
            | None => (c, Some MemberExists)
            | Some c => setMembers l c
            end
      end
  end.

(** A range over a url.Values visits it in the order of [fields]. *)
Definition clusterSet (s : string) : Cluster * option flagErr :=
  match ParseQuery (replaceChar "," "&" s) with
  | (_, Some e) => (∅, Some (BadQuery e))
  | (v, None) => setMembers (fields v) ∅
  end.

(** ** Origins (cors.go) *)
Fixpoint corsOrigins (l : list string) (m : CORSInfo) : flagErr + CORSInfo :=
  match l with
  | [] => inr m
  | v :: l =>
      let v := TrimSpace v in
      if decide (v = EmptyString) then corsOrigins l m
      else if negb (String.eqb v "*") && bool_decide (Parse v = None) then inl (BadOrigin v)
      else corsOrigins l ({[v]} ∪ m)
  end.
Definition corsSet (s : string) (ci : CORSInfo) : CORSInfo * option flagErr :=
  match corsOrigins (splitOn "," s) ∅ with
  | inl e => (ci, Some e)
  | inr m => (m, None)
  end.

(** ** Addresses and the kind of proxy (flags/ipaddressport.go, flags/proxy.go) *)
Record IPAddressPort := mkAddr { a_IP : string; a_Port : Z }.

Definition addrSet (arg : string) (a : IPAddressPort) : IPAddressPort * option flagErr :=
  let '(ip, rest) := cutAt (λ c, bool_decide (c = ":"%char)) (TrimSpace arg) in
  match rest with
  | None => (a, Some BadFormat)
  | Some port =>
      match ParseIP ip with
      | None => (a, Some BadIP)
      | Some _ => match Atoi port with
                  | None => (a, Some BadPort)
                  | Some port => (mkAddr ip port, None)
                  end
      end
  end.
Definition addrString (a : IPAddressPort) : string := (a_IP a ++ ":" ++ pretty (a_Port a))%string.

Definition ProxyValueOff : string := "off".
Definition ProxyValueReadonly : string := "readonly".
Definition ProxyValueOn : string := "on".
Definition ProxyValues : list string := [ProxyValueOff; ProxyValueReadonly; ProxyValueOn].
Definition proxySet (s pf : string) : string * option flagErr :=
  if bool_decide (s ∈ ProxyValues) then (s, None) else (pf, Some InvalidValue).

(** ** package strconv *)
Definition digitVal (c : ascii) : option Z :=
  let n := Z.of_N (N_of_ascii c) in
  if isDigit c then Some (n - 48)
  else if isLower c then Some (n - 87)
  else if isUpper c then Some (n - 55)
  else None.

Inductive numErr := ErrSyntax | ErrRange.

Fixpoint parseDigits (base n : Z) (s : string) : Z * option numErr :=
  match s with
  | EmptyString => (n, None)
  | String c s =>
      match digitVal c with
      | None => (0, Some ErrSyntax)
      | Some v =>
          if base <=? v then (0, Some ErrSyntax)
          else if 2 ^ 64 <=? n * base + v then (2 ^ 64 - 1, Some ErrRange)
          else parseDigits base (n * base + v) s
      end
  end.

(** [strconv.ParseUint(s, 0, 64)]: the base is told by the prefix. *)
Definition ParseUint0 (s : string) : Z * option numErr :=
  match s with
  | EmptyString => (0, Some ErrSyntax)
  | String "0" (String x s') =>
      if bool_decide (x ∈ ["x"; "X"]%char) then
        if decide (s' = EmptyString) then (0, Some ErrSyntax) else parseDigits 16 0 s'
      else parseDigits 8 0 s
  | String "0" EmptyString => parseDigits 8 0 s
  | _ => parseDigits 10 0 s
  end.

(** [strconv.ParseInt(s, 0, 64)]: the value that it gives besides an error as well. *)
Definition ParseInt0 (s : string) : Z * option numErr :=
  let '(neg, t) := match s with
                   | String "+" t => (false, t)
                   | String "-" t => (true, t)
                   | _ => (false, s)
                   end in
  match ParseUint0 t with
  | (_, Some ErrSyntax) => (0, Some ErrSyntax)
  | (un, _) =>
      if negb neg && (2 ^ 63 <=? un) then (2 ^ 63 - 1, Some ErrRange)
      else if neg && (2 ^ 63 <? un) then (- 2 ^ 63, Some ErrRange)
      else (if neg : bool then - un else un, None)
  end.

(** ** package flag *)
Inductive flagValue :=
  | VString (s : string)
  | VInt64 (n : Z)
  | VBool (b : bool)
  | VDuration (d : Z)
  | VCluster (c : Cluster)
  | VURLs (us : URLs)
  | VCORS (ci : CORSInfo)
  | VProxy (s : string)
  | VAddr (a : IPAddressPort)
  | VDeprecated (name : string).

Context (parseDuration : string → option Z).

(** The Set method of a DeprecatedFlag warns, and takes any text. *)
Definition DeprecatedSet (s name : string) : string * option flagErr := (name, None).

(** The Set method of a value.  The values of package flag take what the conversion gives
    besides an error: 0 or false for text that is none. *)
Definition setValue (s : string) (v : flagValue) : flagValue * option flagErr :=
  match v with
  | VString _ => (VString s, None)
  | VInt64 _ => let '(n, err) := ParseInt0 s in (VInt64 n, (λ _, NumError) <$> err)
  | VBool _ => match ParseBool s with Some b => (VBool b, None) | None => (VBool false, Some NumError) end
  | VDuration _ =>
      match parseDuration s with Some d => (VDuration d, None) | None => (VDuration 0, Some DurationError) end
  | VCluster _ => let '(c, err) := clusterSet s in (VCluster c, err)
  | VURLs us => let '(us, err) := URLsValueSet s us in (VURLs us, err)
  | VCORS ci => let '(ci, err) := corsSet s ci in (VCORS ci, err)
  | VProxy pf => let '(pf, err) := proxySet s pf in (VProxy pf, err)
  | VAddr a => let '(a, err) := addrSet s a in (VAddr a, err)
  | VDeprecated name => let '(name, err) := DeprecatedSet s name in (VDeprecated name, err)
  end.

Definition IsBoolFlag (v : flagValue) : bool :=
  match v with VBool _ | VDeprecated _ => true | _ => false end.

(** The values of the flags, and the names of those that were set. *)
Record FlagSet := mkFlagSet { fs_formal : gmap string flagValue; fs_actual : gset string }.

(** [fs.Set(name, value)]. *)
Definition flagSet (name value : string) (fs : FlagSet) : FlagSet * option flagErr :=
  match fs_formal fs !! name with
  | None => (fs, Some (NoSuchFlag name))
  | Some v =>
      let '(v, err) := setValue value v in
      let formal := <[name := v]> (fs_formal fs) in
      match err with
      | Some e => (mkFlagSet formal (fs_actual fs), Some e)
      | None => (mkFlagSet formal ({[name]} ∪ fs_actual fs), None)
      end
  end.

Inductive parsed :=
  | Parsed (args : list string)  (** the arguments after the flags *)
  | BadSyntax (arg : string)
  | NotDefined (name : string)
  | Help
  | NeedsArgument (name : string)
  | BadValue (name value : string) (e : flagErr).

(** The flag named [name] with its argument; [k] goes on with the rest of the arguments. *)
Definition parseFlag (name value : string) (fs : FlagSet) (k : FlagSet → FlagSet * parsed)
  : FlagSet * parsed :=
  let '(fs, err) := flagSet name value fs in
  match err with Some e => (fs, BadValue name value e) | None => k fs end.

(** [fs.Parse(args)]. *)
Fixpoint flagParse (args : list string) (fs : FlagSet) : FlagSet * parsed :=
  match args with
  | String "-" (String c rest as t) :: args' =>
      if decide (t = "-") then (fs, Parsed args')
      else
        let name := if decide (c = "-"%char) then rest else t in
        match name with
        | String c0 name' =>
            if bool_decide (c0 ∈ ["-"; "="]%char) then (fs, BadSyntax (String "-" t))
            else
              let '(tail, value) := cutAt isEq name' in
              let name := String c0 tail in
              match fs_formal fs !! name with
              | None => (fs, if bool_decide (name ∈ ["help"; "h"]) then Help else NotDefined name)
              | Some v =>
                  match value with
                  | Some value => parseFlag name value fs (flagParse args')
                  | None =>
                      if IsBoolFlag v then parseFlag name "true" fs (flagParse args')
                      else match args' with
                           | value :: args'' => parseFlag name value fs (flagParse args'')
                           | [] => (fs, NeedsArgument name)
                           end
                  end
              end
        | EmptyString => (fs, BadSyntax (String "-" t))
        end
  | _ => (fs, Parsed args)
  end.

(** ** The environment (flag.go) *)
Definition envKey (name : string) : string := ("ETCD_" ++ ToUpper (replaceChar "-" "_" name))%string.

(** What the visit of a flag does; the error of Set is not looked at. *)
Definition setFromEnv (getenv : string → string) (alreadySet : gset string) (fs : FlagSet) (name : string)
  : FlagSet :=
  if bool_decide (name ∈ alreadySet) then fs
  else
    let val := getenv (envKey name) in
    if decide (val = EmptyString) then fs else (flagSet name val fs).1.

(** VisitAll visits the flags in the order of their names. *)
Definition SetFlagsFromEnv (getenv : string → string) (fs : FlagSet) : FlagSet :=
  foldl (setFromEnv getenv (fs_actual fs)) fs (sortNames (elements (dom (fs_formal fs)))).

(** ** The URLs of the server (flag.go) *)
Definition URLsFromFlags {C} (fs : FlagSet) (urlsFlagName addrFlagName : string) (tlsInfo : TLSInfo C)
  : outcome (flagErr + URLs) :=
  if bool_decide (addrFlagName ∈ fs_actual fs) then
    if bool_decide (urlsFlagName ∈ fs_actual fs) then Ok (inl (SetOnlyOne urlsFlagName addrFlagName))
    else
      match fs_formal fs !! addrFlagName with
      | Some (VAddr addr) =>
          Ok (inr [mkNetURL (if Empty tlsInfo then "http" else "https") EmptyString None (addrString addr)
                     EmptyString EmptyString EmptyString])
      | _ => Panic "interface conversion: flag.Value is not *flags.IPAddressPort"
      end
  else
    match fs_formal fs !! urlsFlagName with
    | Some (VURLs us) => Ok (inr us)
    | _ => Panic "interface conversion: flag.Value is not *flags.URLsValue"
    end.
End values.

(** ** The endpoint of a client, and a ttl as text (src/client/http.go, src/store/ttl.go) *)
Definition NewHTTPClient (ep : string) : option URL :=
  u ← Parse ep; Some (mkURL (nu_Path u) (nu_RawQuery u)).

(** A time, and whether there was no error; [now] is the clock. *)
Definition TTL (now : Z) (duration : string) : Z * bool :=
  if decide (duration = EmptyString) then (Permanent, true)
  else match Atoi duration with
       | None => (Permanent, false)
       | Some n => (now + int64 (second * n), true)
       end.
Definition MinVersion : Z := 2.
Definition MaxVersion : Z := 2.
