(* ===== verification/Main.v ===== *)
(** * Main: the program (src/main.go)

    From the arguments and the environment to a running server or proxy.  The file system is a
    map from directories to their files.  A function of the program works on it and ends with a
    value, or with log.Fatal, which is [Exit]; a panic or an endless loop is one of [run].  What
    the goroutines of the server do afterwards is in Server, RaftNode and Http.

    Parameters: the order of maps, the clock [now], sockets and certificates (see Transport),
    the JSON text of the store and of a member, time.ParseDuration, and, for the names of the
    log files and the growth of slices, [scan] and [grow] of Wal. *)

From stdpp Require Import pretty sorting.
From Stdlib Require Import String Ascii.
From S2P Require Import Prelude Raftpb RaftLog Raft RaftNode.
From S2P Require Import Wire RaftpbCodec Etcdserverpb Wal Snap.
From S2P Require Import Paths TtlHeap EtcdError StoreEvent WatcherHub StoreNode Store StoreSave.
From S2P Require Import Url Wait Server Http Client Routes Sha1 Cluster Proxy NetUrl Transport Flags.

Abbreviation filesystem := (gmap string disk).

Inductive exit :=
  | Usage (p : parsed)  (** status 2 *)
  | PrintVersion  (** status 0 *)
  | NoMember (name : string)
  | CannotUseNone
  | BadSnapCount (n : Z)
  | CannotLoad (e : Snapshotter.snapErr)
  | CannotOpen (e : walErr)
  | UnexpectedID (id : Z)
  | BadFlags (e : flagErr)
  | NoEndpoints
  | Failure (text : string).

Definition boot (A : Type) : Type := filesystem → run (filesystem * (exit + A)).
#[export] Instance boot_ret : MRet boot := λ _ a fs, Ret (fs, inr a).
#[export] Instance boot_bind : MBind boot := λ _ _ k m fs,
  '(fs, r) ← m fs;
  match r with inl e => Ret (fs, inl e) | inr a => k a fs end.

Definition Exit {A} (e : exit) : boot A := λ fs, Ret (fs, inl e).
Definition running {A} (m : run A) : boot A := λ fs, a ← m; Ret (fs, inr a).

(** [a, err := m; if err != nil { log.Fatal(err) }]. *)
Definition orExit {E A} (f : E → exit) (m : run (E + A)) : boot A := λ fs,
  r ← m; Ret (fs, match r with inl e => inl (f e) | inr a => inr a end).

(** The files of a directory; there are none in one that does not exist. *)
Definition getDir (dir : string) : boot disk := λ fs, Ret (fs, inr (default ∅ (fs !! dir))).
Definition putDir (dir : string) (d : disk) : boot unit := λ fs, Ret (<[dir := d]> fs, inr tt).

(** os.MkdirAll. *)
Definition MkdirAll (dir : string) : boot unit := d ← getDir dir; putDir dir d.

(** ** The flags (the variables and init) *)
Definition version : string := "0.5.0-alpha".

Definition deprecated : list string :=
  ["cluster-active-size"; "cluster-remove-delay"; "cluster-sync-interval"; "config"; "force";
   "max-result-buffer"; "max-retry-attempts"; "peer-heartbeat-interval"; "peer-election-timeout";
   "retry-interval"; "snapshot"; "v"; "vv"].

Definition initFlags `{HeaderRange} : FlagSet :=
  let addr := VAddr (mkAddr EmptyString 0) in
  let empty := VString EmptyString in
  mkFlagSet (list_to_map ([
    ("name", VString "default");
    ("timeout", VDuration (10 * second));
    ("data-dir", empty);
    ("snapshot-count", VInt64 DefaultSnapCount);
    ("version", VBool false);
    ("bootstrap-config", VCluster (clusterSet "default=http://localhost:2380,default=http://localhost:7001").1);
    ("advertise-peer-urls", VURLs (NewURLsValue "http://localhost:2380,http://localhost:7001"));
    ("advertise-client-urls", VURLs (NewURLsValue "http://localhost:2379,http://localhost:4001"));
    ("listen-peer-urls", VURLs (NewURLsValue "http://localhost:2380,http://localhost:7001"));
    ("listen-client-urls", VURLs (NewURLsValue "http://localhost:2379,http://localhost:4001"));
    ("cors", VCORS ∅);
    ("proxy", VProxy ProxyValueOff);
    ("ca-file", empty); ("cert-file", empty); ("key-file", empty);
    ("peer-ca-file", empty); ("peer-cert-file", empty); ("peer-key-file", empty);
    ("addr", addr); ("bind-addr", addr); ("peer-addr", addr); ("peer-bind-addr", addr)] ++
    ((λ f, (f, VDeprecated f)) <$> deprecated))) ∅.

(** The variables that the flags are kept in. *)
Definition stringVar (name : string) (fs : FlagSet) : string :=
  match fs_formal fs !! name with Some (VString s) => s | _ => EmptyString end.
Definition durationVar (name : string) (fs : FlagSet) : Z :=
  match fs_formal fs !! name with Some (VDuration d) => d | _ => 0 end.
Definition snapCount (fs : FlagSet) : Z :=
  match fs_formal fs !! "snapshot-count" with Some (VInt64 n) => n | _ => 0 end.
Definition printVersion (fs : FlagSet) : bool :=
  match fs_formal fs !! "version" with Some (VBool b) => b | _ => false end.
Definition cluster (fs : FlagSet) : Cluster :=
  match fs_formal fs !! "bootstrap-config" with Some (VCluster c) => c | _ => ∅ end.
Definition cors (fs : FlagSet) : CORSInfo :=
  match fs_formal fs !! "cors" with Some (VCORS ci) => ci | _ => ∅ end.
Definition proxyFlag (fs : FlagSet) : string :=
  match fs_formal fs !! "proxy" with Some (VProxy s) => s | _ => EmptyString end.

Definition clientTLSInfo {C} (fs : FlagSet) : TLSInfo C :=
  mkTLSInfo (stringVar "cert-file" fs) (stringVar "key-file" fs) (stringVar "ca-file" fs) None.
Definition peerTLSInfo {C} (fs : FlagSet) : TLSInfo C :=
  mkTLSInfo (stringVar "peer-cert-file" fs) (stringVar "peer-key-file" fs) (stringVar "peer-ca-file" fs) None.

(** What is served at a listener. *)
Inductive service :=
  | ServePeers
  | ServeClients (info : CORSInfo) (timeout : Z)
  | ServeProxy (info : CORSInfo) (readonly : bool).

Section program.
Context {C X : Type} (readFile : string → string + list Z) (listen : string → option string).
Context (X509KeyPair : list Z → list Z → string + C).
Context (pemDecode : list Z → option (list Z * list Z)) (ParseCertificate : list Z → string + X).
Context `{ChildRange} `{MemberRange} `{HeaderRange} (marshalMember : Member → string).
Context (unmarshalStore : list Z → option jstore).
Context (grow : nat → nat) (scan : string → option (Z * Z)).
Context (parseDuration : string → option Z).

Record listener := mkListener { li_addr : string; li_tls : option (Config C X); li_service : service }.

(** [p_snapdir], [p_waldir] and [p_wal] are the storage of the server. *)
Record program := mkProgram {
  p_snapdir : string;
  p_waldir : string;
  p_wal : WAL;
  p_node : RaftNode.node;
  p_transport : option (Config C X);
  p_clientURLs : URLs;
  p_server : EtcdServer;
  p_listeners : list listener;
}.

(** A listener for each URL. *)
Fixpoint listenOn (info : TLSInfo C) (sv : service) (urls : URLs) : boot (list listener) :=
  match urls with
  | [] => mret []
  | u :: urls =>
      '(addr, cfg) ← orExit Failure (NewListener readFile listen X509KeyPair pemDecode ParseCertificate (nu_Host u) info);
      ls ← listenOn info sv urls;
      mret (mkListener addr cfg sv :: ls)
  end.

Definition urlsFromFlags (fs : FlagSet) (urlsFlagName addrFlagName : string) (info : TLSInfo C) : boot URLs :=
  orExit BadFlags (lift (URLsFromFlags fs urlsFlagName addrFlagName info)).

(** ** startEtcd *)

(** The write-ahead log is new: [wal.Create] and [raft.StartNode]. *)
Definition startNew (id : Z) (peers : list Z) (waldir : string) (st : store)
  : boot (WAL * RaftNode.node * store) :=
  d ← getDir waldir;
  '(d, w) ← orExit CannotOpen (lift (Wal.Create d));
  putDir waldir d;;
  n ← running (lift (StartNode id peers 10 1));
  mret (w, n, st).

(** There is one: from a snapshot, if there is one, and the log.  The error of Recovery is not
    looked at. *)
Definition restart (id : Z) (peers : list Z) (snapdir waldir : string) (st : store)
  : boot (WAL * RaftNode.node * store) :=
  d ← getDir snapdir;
  '(d, res) ← running (Snapshotter.Load d);
  putDir snapdir d;;
  snapshot ← match res with
             | inr snapshot => mret (Some snapshot)
             | inl Snapshotter.ErrNoSnapshot => mret None
             | inl err => Exit (CannotLoad err)
             end;
  st ← running match snapshot ≫= (λ sn, unmarshalStore (Snapshot_Data sn)) with
               | Some state => Recovery state st
               | None => Ret st
               end;
  d ← getDir waldir;
  w ← orExit CannotOpen (lift (OpenAtIndex scan d (default 0 (Snapshot_Index <$> snapshot))));
  '(w, (wid, hs, ents, err)) ← running (ReadAll grow w);
  match err with
  | Some err => Exit (CannotOpen err)
  | None =>
      if negb (wid =? 0) then Exit (UnexpectedID wid)
      else
        n ← running (lift (RestartNode id peers 10 1 snapshot hs ents));
        mret (w, n, st)
  end.

Definition openLog (id : Z) (peers : list Z) (snapdir waldir : string) (st : store)
  : boot (WAL * RaftNode.node * store) :=
  d ← getDir waldir;
  if negb (Exist d) then startNew id peers waldir st else restart id peers snapdir waldir st.

(** What startEtcd does when the log is open. *)
Definition startServer (now : Z) (fs : FlagSet) (snapdir waldir : string) (w : WAL) (n : RaftNode.node)
    (st : store) : boot program :=
  pt ← orExit Failure (NewTransport readFile X509KeyPair pemDecode ParseCertificate (peerTLSInfo fs));
  st ← running (NewClusterStore marshalMember now (cluster fs) st);
  acurls ← urlsFromFlags fs "advertise-client-urls" "addr" (clientTLSInfo fs);
  let s := start (mkServer NewList false st (snapCount fs) 0 0 []) in
  lpurls ← urlsFromFlags fs "listen-peer-urls" "peer-bind-addr" (peerTLSInfo fs);
  peers ← listenOn (peerTLSInfo fs) ServePeers lpurls;
  lcurls ← urlsFromFlags fs "listen-client-urls" "bind-addr" (clientTLSInfo fs);
  clients ← listenOn (clientTLSInfo fs) (ServeClients (cors fs) (handlerTimeout (durationVar "timeout" fs))) lcurls;
  mret (mkProgram snapdir waldir w n pt acurls s (peers ++ clients)).

Definition startEtcd (now : Z) (fs : FlagSet) : boot program :=
  match FindName (stringVar "name" fs) (cluster fs) with
  | None => Exit (NoMember (stringVar "name" fs))
  | Some self =>
      if m_ID self =? None_ then Exit CannotUseNone
      else if snapCount fs <=? 0 then Exit (BadSnapCount (snapCount fs))
      else
        let dir := if decide (stringVar "data-dir" fs = EmptyString)
                   then (pretty (m_ID self) ++ "_etcd_data")%string else stringVar "data-dir" fs in
        let snapdir := Join dir "snap" in
        let waldir := Join dir "wal" in
        MkdirAll dir;;
        MkdirAll snapdir;;
        '(w, n, st) ← openLog (m_ID self) (IDs (cluster fs)) snapdir waldir newStore;
        startServer now fs snapdir waldir w n st
  end.

(** ** startProxy *)
Definition startProxy (fs : FlagSet) : boot (director * list listener) :=
  pt ← orExit Failure (NewTransport readFile X509KeyPair pemDecode ParseCertificate (clientTLSInfo fs));
  ph ← orExit (λ _ : unit, NoEndpoints)
    (Ret match NewHandler (bool_decide (is_Some pt)) (PeerURLs (cluster fs)) with
         | None => inl tt
         | Some d => inr d
         end);
  lcurls ← urlsFromFlags fs "listen-client-urls" "bind-addr" (clientTLSInfo fs);
  ls ← listenOn (clientTLSInfo fs)
         (ServeProxy (cors fs) (String.eqb (proxyFlag fs) ProxyValueReadonly)) lcurls;
  mret (ph, ls).

(** ** main *)
Definition main (now : Z) (args : list string) (getenv : string → string)
  : boot (program + director * list listener) :=
  match flagParse parseDuration args initFlags with
  | (fs, Parsed _) =>
      if printVersion fs then Exit PrintVersion
      else
        let fs := SetFlagsFromEnv parseDuration getenv fs in
        if String.eqb (proxyFlag fs) ProxyValueOff then p ← startEtcd now fs; mret (inl p)
        else p ← startProxy fs; mret (inr p)
  | (_, r) => Exit (Usage r)
  end.
End program.

(** The handler of a proxy: [next] is the reverse proxy. *)
Definition proxyHandler {S} (info : CORSInfo) (readonly : bool) (next : handler S) : handler S :=
  let ph := corsServe info next in
  if readonly then readonlyHandlerFunc ph else ph.
