(* ===== verification/FlagsProps.v ===== *)
(** * FlagsProps: what the flags and the environment give (src/pkg/flag.go, src/pkg/flags,
    src/etcdserver/cluster.go)

    A flag of the command line goes before the environment, and the environment before the
    default.  A value keeps its type.  A cluster is read back from its text, and so is an
    address; and what is accepted although it is not meant to be. *)

From stdpp Require Import pretty sorting.
From Stdlib Require Import String Ascii.
From S2P Require Import Prelude Wire Raftpb RaftpbCodec Etcdserverpb Wal WalNames Snap.
From S2P Require Import Paths TtlHeap EtcdError StoreEvent WatcherHub StoreNode Store.
From S2P Require Import Url Server Http Client Sha1 Cluster Proxy NetUrl Transport Flags.

(** ** Values keep their type *)
Definition kind (v : flagValue) : nat :=
  match v with
  | VString _ => 0 | VInt64 _ => 1 | VBool _ => 2 | VDuration _ => 3 | VCluster _ => 4
  | VURLs _ => 5 | VCORS _ => 6 | VProxy _ => 7 | VAddr _ => 8 | VDeprecated _ => 9
  end.

Section flags.
Context `{HeaderRange} (parseDuration : string → option Z).

Lemma setValue_kind s v : kind (setValue parseDuration s v).1 = kind v.
Proof. destruct v; cbn [setValue]; repeat (case_match; simpl); done. Qed.

(** The flags of [fs'] are those of [fs], with values of the same types. *)
Definition same_kinds (fs fs' : FlagSet) : Prop :=
  ∀ name, kind <$> fs_formal fs' !! name = kind <$> fs_formal fs !! name.

#[export] Instance same_kinds_refl : Reflexive same_kinds.
Proof. by intros fs name. Qed.
#[export] Instance same_kinds_trans : Transitive same_kinds.
Proof. intros a b c H1 H2 name. by rewrite H2. Qed.

Lemma flagSet_kinds name value fs : same_kinds fs (flagSet parseDuration name value fs).1.
Proof.
  intros k. unfold flagSet. destruct (fs_formal fs !! name) as [v|] eqn:E; [|done].
  pose proof (setValue_kind value v) as Hk. destruct (setValue _ value v) as [v' err]. simpl in Hk.
  destruct err; simpl; (destruct (decide (k = name)) as [->|Hne];
    [rewrite lookup_insert_eq, E; simpl; by rewrite Hk|by rewrite lookup_insert_ne by done]).
Qed.

Lemma parseFlag_kinds name value fs k :
  (∀ fs', same_kinds fs fs' → same_kinds fs (k fs').1) →
  same_kinds fs (parseFlag parseDuration name value fs k).1.
Proof.
  intros Hk. unfold parseFlag. pose proof (flagSet_kinds name value fs) as Hs.
  destruct (flagSet _ name value fs) as [fs' [e|]]; [exact Hs|]. by apply Hk.
Qed.

Lemma flagParse_kinds args fs : same_kinds fs (flagParse parseDuration args fs).1.
Proof.
  remember (length args) as n eqn:Hn. revert args fs Hn.
  induction (lt_wf n) as [n _ IH]. intros args fs ->.
  assert (∀ args' fs', (length args' < length args)%nat → same_kinds fs fs' →
    same_kinds fs (flagParse parseDuration args' fs').1) as Hk.
  { intros args' fs' Hl Hs. etrans; [exact Hs|]. by eapply IH. }
  destruct args as [|a args]; [done|]. cbn [flagParse]. repeat (case_match; simpl; try done);
    apply parseFlag_kinds; intros fs' Hs; apply Hk; simpl; try done; lia.
Qed.

Lemma setFromEnv_kinds getenv done_ fs name : same_kinds fs (setFromEnv parseDuration getenv done_ fs name).
Proof. unfold setFromEnv. repeat case_match; [done..|apply flagSet_kinds]. Qed.

Lemma SetFlagsFromEnv_kinds getenv fs : same_kinds fs (SetFlagsFromEnv parseDuration getenv fs).
Proof.
  unfold SetFlagsFromEnv. generalize (fs_actual fs) as set. intros set.
  generalize (sortNames (elements (dom (fs_formal fs)))) as l. intros l. revert fs.
  induction l as [|x l IH]; intros fs; [done|]. etrans; [apply (setFromEnv_kinds getenv set fs x)|]. apply IH.
Qed.

(** ** The environment *)
Lemma setFromEnv_other getenv set fs name k :
  k ≠ name →
  fs_formal (setFromEnv parseDuration getenv set fs name) !! k = fs_formal fs !! k ∧
  (k ∈ fs_actual (setFromEnv parseDuration getenv set fs name) ↔ k ∈ fs_actual fs).
Proof.
  intros Hk. unfold setFromEnv, flagSet. repeat (case_match; simpl; try done);
    rewrite ?lookup_insert_ne by done; (split; [done|set_solver]).
Qed.

Lemma setFromEnv_twice getenv set fs l k :
  k ∉ l →
  fs_formal (foldl (setFromEnv parseDuration getenv set) fs l) !! k = fs_formal fs !! k ∧
  (k ∈ fs_actual (foldl (setFromEnv parseDuration getenv set) fs l) ↔ k ∈ fs_actual fs).
Proof.
  revert fs. induction l as [|x l IH]; intros fs Hk; [done|].
  apply not_elem_of_cons in Hk as [Hx Hk]. cbn [foldl].
  destruct (IH (setFromEnv parseDuration getenv set fs x) Hk) as [-> ->].
  by apply setFromEnv_other.
Qed.

Lemma setFromEnv_self getenv set fs k v :
  fs_formal fs !! k = Some v → k ∉ set →
  let val := getenv (envKey k) in
  let fs' := setFromEnv parseDuration getenv set fs k in
  fs_formal fs' !! k =
    Some (if decide (val = EmptyString) then v else (setValue parseDuration val v).1) ∧
  (k ∈ fs_actual fs' ↔
    k ∈ fs_actual fs ∨ val ≠ EmptyString ∧ (setValue parseDuration val v).2 = None).
Proof.
  intros Hv Hset val fs'. unfold fs', setFromEnv, flagSet. fold val.
  rewrite bool_decide_eq_false_2 by done. case_decide as Hval.
  - rewrite Hv. split; [done|]. split; [by left|by intros [|[]]].
  - rewrite Hv. destruct (setValue _ val v) as [v' [e|]] eqn:E; simpl; rewrite lookup_insert_eq;
      (split; [done|]); set_solver.
Qed.

(** C20. The command line goes before the environment, and the environment before the defaults:
    SetFlagsFromEnv leaves a flag that is set, and one whose variable is empty, as it is; any
    other flag gets what Set makes of the variable, and counts as set from then on if Set
    accepts the value. *)
Theorem env_precedence getenv fs name v :
  fs_formal fs !! name = Some v →
  let val := getenv (envKey name) in
  let fs' := SetFlagsFromEnv parseDuration getenv fs in
  (name ∈ fs_actual fs ∨ val = EmptyString →
    fs_formal fs' !! name = Some v ∧ (name ∈ fs_actual fs' ↔ name ∈ fs_actual fs)) ∧
  (name ∉ fs_actual fs → val ≠ EmptyString →
    fs_formal fs' !! name = Some (setValue parseDuration val v).1 ∧
    (name ∈ fs_actual fs' ↔ (setValue parseDuration val v).2 = None)).
Proof.
  intros Hv val fs'.
  assert (name ∈ sortNames (elements (dom (fs_formal fs)))) as Hin.
  { unfold sortNames. rewrite merge_sort_Permutation, elem_of_elements, elem_of_dom. eauto. }
  assert (NoDup (sortNames (elements (dom (fs_formal fs))))) as Hnd.
  { unfold sortNames. rewrite merge_sort_Permutation. apply NoDup_elements. }
  unfold fs', SetFlagsFromEnv. apply list_elem_of_split in Hin as (l1 & l2 & El).
  rewrite El in Hnd |- *. rewrite foldl_app. cbn [foldl].
  apply NoDup_app in Hnd as (_ & H1 & [H2 _]%NoDup_cons).
  set (fs1 := foldl _ fs l1).
  destruct (setFromEnv_twice getenv (fs_actual fs) (setFromEnv parseDuration getenv (fs_actual fs) fs1 name) l2 name H2)
    as [-> ->].
  destruct (setFromEnv_twice getenv (fs_actual fs) fs l1 name) as [F1 A1].
  { intros Hin. apply (H1 name Hin). by left. }
  fold fs1 in F1, A1. rewrite Hv in F1.
  destruct (decide (name ∈ fs_actual fs)) as [Hset|Hset].
  - assert (setFromEnv parseDuration getenv (fs_actual fs) fs1 name = fs1) as ->.
    { unfold setFromEnv. by rewrite bool_decide_eq_true_2. }
    rewrite F1, A1. by split.
  - destruct (setFromEnv_self getenv (fs_actual fs) fs1 name v F1 Hset) as [-> ->]. fold val. rewrite A1.
    split; [intros [|Hval]; [done|]|intros _ Hval].
    + rewrite decide_True by done. tauto.
    + rewrite decide_False by done. tauto.
Qed.
End flags.

(** ** The URLs of a member *)

(** Text that NewURLs takes as it is. *)
Definition memberURL (u : string) : Prop :=
  ∃ tls host, u = httpURL tls host ∧ hostText host ∧ is_Some (splitHost host).

Lemma memberURL_plain u : memberURL u → plain u.
Proof. intros (tls & host & -> & [Hp _] & _). by apply httpURL_plain. Qed.

Lemma memberURL_comma u : memberURL u → free (λ x, bool_decide (x = ","%char)) u.
Proof. intros Hu%memberURL_plain. by apply plain_free. Qed.

Lemma newURL_member u : memberURL u → ∃ l, newURL u = inr l ∧ urlString l = u.
Proof.
  intros (tls & host & -> & Hh & [h Hs]). exists (httpLocation tls host).
  unfold newURL. rewrite TrimSpace_plain by (apply httpURL_plain, Hh). rewrite Parse_http by done.
  cbn [nu_Scheme nu_Host nu_Path httpLocation]. rewrite Hs. split; [by destruct tls|].
  apply urlString_http. by intros ->.
Qed.

Lemma newURLs_members us : Forall memberURL us → ∃ ls, newURLs us = inr ls ∧ StringSlice ls = us.
Proof.
  induction 1 as [|u us Hu _ (ls & IH1 & IH2)]; [by exists []|].
  destruct (newURL_member u Hu) as (l & E1 & E2). exists (l :: ls). cbn [newURLs]. rewrite E1, IH1.
  split; [done|]. unfold StringSlice in *. rewrite fmap_cons. congruence.
Qed.

#[export] Instance url_le_trans : Transitive url_le.
Proof. intros a b c. apply (string_le_trans (urlString a) (urlString b) (urlString c)). Qed.
#[export] Instance url_le_total : Total url_le.
Proof. intros a b. apply (string_le_total (urlString a) (urlString b)). Qed.

Lemma StringSlice_sort ls : StringSlice (sortURLs ls) = sortNames (StringSlice ls).
Proof.
  symmetry. apply sortNames_sorted.
  - assert (StronglySorted url_le (sortURLs ls)) as Hs by (apply StronglySorted_merge_sort; apply _).
    unfold StringSlice. induction Hs as [|l ls' _ IH Hall]; [constructor|]. rewrite fmap_cons. constructor; [done|].
    apply Forall_fmap. exact Hall.
  - unfold StringSlice, sortURLs. by rewrite merge_sort_Permutation.
Qed.

(** What NewURLsValue makes of the URLs of a member: their sorted texts. *)
Lemma NewURLsValue_members us :
  us ≠ [] → Forall memberURL us → StringSlice (NewURLsValue (String.concat "," us)) = sortNames us.
Proof.
  intros Hne Hus. unfold NewURLsValue, URLsValueSet.
  rewrite splitOn_concat; [|done|eapply Forall_impl; [exact Hus|apply memberURL_comma]].
  destruct (newURLs_members us Hus) as (ls & E & <-). unfold NewURLs. rewrite E.
  destruct ls as [|l ls]; [done|]. apply StringSlice_sort.
Qed.

(** ** The text of a cluster *)

(** A member as the flag describes it: a plain name, and its URLs in order. *)
Record member_text (m : Member) : Prop := {
  mt_new : m = newMember (m_Name m) (m_PeerURLs m) None;
  mt_name : free (λ c, negb (unreserved c)) (m_Name m);
  mt_urls : m_PeerURLs m ≠ [];
  mt_sorted : StronglySorted string_le (m_PeerURLs m);
  mt_good : Forall memberURL (m_PeerURLs m);
}.

(** A pair as String writes it. *)
Definition pairText (p : string * string) : string := (p.1 ++ "=" ++ p.2)%string.

Lemma unescape_plain s : plain s → QueryUnescape s = inr s.
Proof.
  induction s as [|c s IH]; intros Hs; [done|]. destruct Hs as [Hc%negb_false_iff Hs]. cbn [QueryUnescape].
  rewrite !decide_False, IH by (done || by intros ->). done.
Qed.

Lemma name_plain s : free (λ c, negb (unreserved c)) s → plain s.
Proof. apply free_weaken. intros c. unfold plainChar. by destruct (unreserved c). Qed.

Lemma plain_amp s : plain s → free isAmp s.
Proof. apply free_weaken. intros c. unfold isAmp. intros [->%bool_decide_eq_true| ->%bool_decide_eq_true]%orb_prop; done. Qed.

Lemma pairText_piece name u :
  free (λ c, negb (unreserved c)) name → memberURL u → piece_of pairText (name, u).
Proof.
  intros Hn Hu. pose proof (memberURL_plain u Hu) as Hp. pose proof (name_plain name Hn) as Hp'.
  unfold pairText. split_and!; simpl.
  - apply free_append; [by apply plain_amp|]. apply (free_append _ "="); [done|by apply plain_amp].
  - by destruct name.
  - intros m err. unfold parsePair. rewrite decide_False by (by destruct name).
    change ("=" ++ u)%string with (String "=" u).
    rewrite cutAt_append by (done || by eapply free_weaken; [|exact Hp']; intros c ->%bool_decide_eq_true).
    cbn [default]. by rewrite !unescape_plain.
Qed.

Lemma replace_concat l :
  Forall (free (λ x, bool_decide (x = ","%char))) l →
  replaceChar "," "&" (String.concat "," l) = String.concat "&" l.
Proof.
  assert (∀ s t, free (λ x, bool_decide (x = ","%char)) s →
    replaceChar "," "&" (s ++ t) = (s ++ replaceChar "," "&" t)%string) as Hs.
  { intros s t. induction s as [|c s IH]; intros H; [done|]. destruct H as [Hc%bool_decide_eq_false H].
    rewrite !append_cons. cbn [replaceChar]. rewrite decide_False by done. f_equal. by apply IH. }
  induction 1 as [|s l H Hl IH]; [done|]. rewrite !concat_cons, Hs by done. f_equal.
  destruct l as [|t l]; [done|]. change ("," ++ ?x)%string with (String "," x). cbn [replaceChar].
  rewrite decide_True by done. change ("&" ++ ?x)%string with (String "&" x). f_equal. exact IH.
Qed.

(** The pairs that String writes for a list of members. *)
Definition memberPairs (ms : list Member) : list (string * string) :=
  ms ≫= λ m, (m_Name m,.) <$> m_PeerURLs m.

(** The values of a name among the pairs are the URLs of its member. *)
Lemma memberPairs_lookup ms name :
  NoDup (m_Name <$> ms) →
  (filter (λ p, p.1 = name) (memberPairs ms)).*2 =
    default [] (m_PeerURLs <$> List.find (λ m, bool_decide (m_Name m = name)) ms).
Proof.
  induction ms as [|m ms IH]; intros Hnd; [done|]. rewrite fmap_cons in Hnd.
  apply NoDup_cons in Hnd as [Hno Hnd]. specialize (IH Hnd).
  unfold memberPairs in *. cbn [mbind list_bind List.find]. rewrite filter_app, fmap_app, filter_pairs, IH.
  case_bool_decide as Hm; [rewrite decide_True by done|by rewrite decide_False by done].
  simpl. subst name. destruct (List.find _ ms) as [m'|] eqn:E; [|apply app_nil_r].
  apply List.find_some in E as [Hin%list_elem_of_In Hm'%bool_decide_eq_true]. destruct Hno.
  rewrite <-Hm'. by apply list_elem_of_fmap_2.
Qed.

Section setMembers.
Context (ms : list Member).

(** What is read for a member: its name, and its URLs in some order. *)
Definition read_as (x : string * list string) (m : Member) : Prop :=
  m ∈ ms ∧ member_text m ∧ x.1 = m_Name m ∧ x.2 ≡ₚ m_PeerURLs m.

Lemma setMembers_ok l qs c :
  Forall2 read_as l qs → NoDup (m_ID <$> qs) → (∀ m, m ∈ qs → c !! m_ID m = None) →
  setMembers l c = (foldl (λ c m, <[m_ID m := m]> c) c qs, None).
Proof.
  intros H. revert c. induction H as [|[name urls] m l qs (_ & [T1 T2 T3 T4 T5] & En & Ep) _ IH]; intros c Hnd Hc; [done|].
  simpl in En, Ep. rewrite fmap_cons in Hnd. apply NoDup_cons in Hnd as [Hno Hnd].
  assert (Forall memberURL urls) as Hus by (by rewrite Ep).
  assert (urls ≠ []) as Hne by (intros ->; by apply T3, Permutation_nil).
  pose proof (NewURLsValue_members urls Hne Hus) as Hv. rewrite (sortNames_sorted urls (m_PeerURLs m)) in Hv by done.
  cbn [setMembers foldl]. destruct urls as [|u urls]; [done|]. rewrite decide_False.
  2: { apply Forall_cons in Hus as [([] & host & -> & _) _]; done. }
  rewrite Hv, En, <-T1. unfold addMember, FindID. rewrite (Hc m) by (by left).
  apply IH; [done|]. intros m' Hm'. rewrite lookup_insert_ne; [apply Hc; by right|].
  intros E. apply Hno. rewrite E. by apply list_elem_of_fmap_2.
Qed.
End setMembers.

Lemma foldl_members qs (c : Cluster) id m :
  NoDup (m_ID <$> qs) → (∀ m, m ∈ qs → c !! m_ID m = None) →
  foldl (λ c m, <[m_ID m := m]> c) c qs !! id = Some m ↔ c !! id = Some m ∨ m ∈ qs ∧ m_ID m = id.
Proof.
  revert c. induction qs as [|q qs IH]; intros c Hnd Hc; cbn [foldl].
  - rewrite elem_of_nil. tauto.
  - rewrite fmap_cons in Hnd. apply NoDup_cons in Hnd as [Hno Hnd]. rewrite IH; [|done|].
    + rewrite lookup_insert_Some, elem_of_cons. pose proof (Hc q ltac:(by left)) as Hq. split.
      * intros [[[<- ->]|[_ H]]|[H E]]; auto.
      * intros [H|[[->|H] E]]; [left; right|left; left|right]; try done.
        split; [|done]. intros <-. congruence.
    + intros m' Hm'. rewrite lookup_insert_ne; [apply Hc; by right|]. intros E. apply Hno. rewrite E.
      by apply list_elem_of_fmap_2.
Qed.

Lemma choose_list {A B} (R : A → B → Prop) l : (∀ x, x ∈ l → ∃ y, R x y) → ∃ k, Forall2 R l k.
Proof.
  induction l as [|x l IH]; intros Hx; [by exists []|].
  destruct (Hx x ltac:(by left)) as [y Hy], IH as [k Hk]; [intros z Hz; apply Hx; by right|].
  exists (y :: k). by constructor.
Qed.

Section cluster.
Context `{MemberRange} `{HeaderRange}.

(** A cluster that the flag can describe: its members are at their ids, with names of their own. *)
Record cluster_text (c : Cluster) : Prop := {
  ct_member : ∀ id m, c !! id = Some m → m_ID m = id ∧ member_text m;
  ct_names : ∀ i j m m', c !! i = Some m → c !! j = Some m' → m_Name m = m_Name m' → m = m';
}.

Section text.
Context (c : Cluster) (Hc : cluster_text c).
Let ms := (members c).*2.

Lemma members_text m : m ∈ ms ↔ c !! m_ID m = Some m.
Proof.
  unfold ms. rewrite list_elem_of_fmap. setoid_rewrite (members_perm c). split.
  - intros ([id m'] & -> & Hin%elem_of_map_to_list). cbn [snd]. by rewrite (proj1 (ct_member c Hc _ _ Hin)).
  - intros Hm. exists (m_ID m, m). split; [done|]. by apply elem_of_map_to_list.
Qed.

Lemma members_names : NoDup (m_Name <$> ms).
Proof.
  apply NoDup_fmap_2_strong.
  - intros m m' Hm%members_text Hm'%members_text. by eapply (ct_names c Hc).
  - apply (NoDup_fmap_1 m_ID). unfold ms. rewrite (members_perm c). rewrite <-list_fmap_compose.
    rewrite (list_fmap_ext _ fst).
    + apply NoDup_fst_map_to_list.
    + intros k [id m] Hk. simpl. apply list_elem_of_lookup_2, elem_of_map_to_list in Hk.
      apply (ct_member c Hc _ _ Hk).
Qed.

Lemma find_member m : m ∈ ms → List.find (λ m', bool_decide (m_Name m' = m_Name m)) ms = Some m.
Proof.
  intros Hm. destruct (List.find _ ms) as [m'|] eqn:E.
  - apply List.find_some in E as [Hin%list_elem_of_In Hn%bool_decide_eq_true].
    apply members_text in Hin, Hm. f_equal. by eapply (ct_names c Hc).
  - apply list_elem_of_In, (List.find_none _ _ E), bool_decide_eq_false in Hm. done.
Qed.

Lemma clusterString_pairs : clusterString c = String.concat "," (sortStrings (pairText <$> memberPairs ms)).
Proof.
  unfold clusterString, memberPairs. fold ms. do 2 f_equal. induction ms as [|m l IH]; [done|].
  cbn [mbind list_bind] in *. rewrite fmap_app, <-IH, <-list_fmap_compose. done.
Qed.

(** The values that ParseQuery reads from the text. *)
Lemma cluster_values :
  ∃ v, ParseQuery (replaceChar "," "&" (clusterString c)) = (v, None) ∧
    (∀ m, m ∈ ms → ∃ us, v !! m_Name m = Some us ∧ us ≡ₚ m_PeerURLs m) ∧
    (∀ name us, v !! name = Some us → ∃ m, m ∈ ms ∧ m_Name m = name).
Proof.
  assert (sortStrings (pairText <$> memberPairs ms) ≡ₚ pairText <$> memberPairs ms) as Hp.
  { apply merge_sort_Permutation. }
  apply Permutation_map_inv in Hp as (l & El & Hl). change (List.map ?f ?x) with (f <$> x) in El.
  assert (∀ name u, (name, u) ∈ l → ∃ m, m ∈ ms ∧ name = m_Name m ∧ u ∈ m_PeerURLs m) as Hin.
  { intros name u. rewrite <-Hl. unfold memberPairs. rewrite list_elem_of_bind.
    intros (m & (u' & [=-> ->] & Hu)%list_elem_of_fmap & Hm). eauto. }
  assert (Forall (λ p, free (λ x, bool_decide (x = ","%char)) (pairText p) ∧ piece_of pairText p) l) as Hpieces.
  { apply Forall_forall. intros [name u] (m & Hm & -> & Hu)%Hin. apply members_text in Hm.
    destruct (ct_member c Hc _ _ Hm) as [_ [T1 T2 T3 T4 T5]]. eapply Forall_forall in T5; [|exact Hu].
    split; [|by apply pairText_piece]. unfold pairText. simpl.
    apply free_append; [by apply plain_free, name_plain|]. apply (free_append _ "="); [done|by apply memberURL_comma]. }
  apply Forall_and in Hpieces as [Hcomma Hpieces].
  exists (foldl addPair ∅ l). rewrite clusterString_pairs, El, replace_concat by (by apply Forall_fmap).
  rewrite ParseQuery_pieces by done. split; [done|]. split.
  - intros m Hm. rewrite lookup_addPairs. cbn zeta.
    assert ((filter (λ p, p.1 = m_Name m) l).*2 ≡ₚ m_PeerURLs m) as Hus.
    { rewrite <-Hl, memberPairs_lookup by apply members_names. by rewrite find_member. }
    destruct ((filter (λ p, p.1 = m_Name m) l).*2) as [|u us]; [|eauto].
    apply members_text, (ct_member c Hc) in Hm as [_ T]. by apply Permutation_nil, (mt_urls m T) in Hus.
  - intros name us. rewrite lookup_addPairs. cbn zeta. rewrite lookup_empty.
    destruct (filter (λ p, p.1 = name) l) as [|[name' u] ps] eqn:E; [done|]. intros _.
    assert ((name', u) ∈ filter (λ p, p.1 = name) l) as Hel by (rewrite E; by left).
    apply list_elem_of_filter in Hel as [Hn Hel]. simpl in Hn. subst name'.
    apply Hin in Hel as (m & Hm & -> & _). eauto.
Qed.
End text.

(** C19. A cluster is read back from its text: Set of what String gives for a cluster whose
    members have plain names and good URLs is the cluster, in whatever order the maps are
    visited. *)
Theorem cluster_flag_roundtrip c : cluster_text c → clusterSet (clusterString c) = (c, None).
Proof.
  intros Hc. destruct (cluster_values c Hc) as (v & Ev & Hv1 & Hv2). unfold clusterSet. rewrite Ev.
  set (ms := (members c).*2) in *.
  assert (∀ x, x ∈ fields v → ∃ m, read_as ms x m) as Hread.
  { intros [name us]. rewrite (fields_perm v), elem_of_map_to_list. intros E.
    destruct (Hv2 name us E) as (m & Hm & <-). destruct (Hv1 m Hm) as (us' & E' & Hp).
    exists m. split_and!; [done| |done|simpl; congruence].
    apply (members_text c Hc) in Hm. apply (ct_member c Hc _ _ Hm). }
  destruct (choose_list _ _ Hread) as (qs & Hqs).
  assert (m_Name <$> qs = (fields v).*1) as Hnames.
  { clear -Hqs. induction Hqs as [|x m l qs (_ & _ & E & _) _ IH]; [done|]. rewrite !fmap_cons. congruence. }
  assert (∀ m, m ∈ qs → m ∈ ms) as Hsub.
  { intros m (i & Hi)%list_elem_of_lookup. destruct (Forall2_lookup_r _ _ _ _ _ Hqs Hi) as (x & _ & Hx & _). done. }
  assert (NoDup (m_ID <$> qs)) as Hnd.
  { apply NoDup_fmap_2_strong.
    - intros m m' Hm%Hsub%(members_text c Hc) Hm'%Hsub%(members_text c Hc) E. congruence.
    - apply (NoDup_fmap_1 m_Name). rewrite Hnames, (fields_perm v). apply NoDup_fst_map_to_list. }
  rewrite (setMembers_ok ms (fields v) qs ∅) by done. f_equal. apply map_eq. intros id. apply option_eq. intros m.
  rewrite foldl_members, lookup_empty by done. split.
  - intros [|[Hm%Hsub%(members_text c Hc) <-]]; done.
  - intros Hm. destruct (ct_member c Hc _ _ Hm) as [Hid _]. right. split; [|done].
    rewrite <-Hid in Hm. apply (members_text c Hc) in Hm.
    destruct (Hv1 m Hm) as (us & E & _). assert (m_Name m ∈ m_Name <$> qs) as (m' & En & Hm')%list_elem_of_fmap.
    { rewrite Hnames. apply list_elem_of_fmap. exists (m_Name m, us). split; [done|].
      by rewrite (fields_perm v), elem_of_map_to_list. }
    replace m with m'; [done|]. apply Hsub, (members_text c Hc) in Hm'. apply (members_text c Hc) in Hm.
    by apply (ct_names c Hc _ _ _ _ Hm' Hm).
Qed.
End cluster.

(** ** Addresses *)
Definition digitText (s : string) : Prop := free (λ c, negb (isDigit c)) s.

Lemma digit_plain s : digitText s → plain s.
Proof.
  apply free_weaken. intros c. unfold plainChar, unreserved, isDigit. intros H1%negb_true_iff.
  apply negb_true_iff. apply orb_false_iff in H1 as [H1 _]. apply orb_false_iff in H1 as [H1 _].
  apply orb_false_iff in H1 as [H1 _]. by apply orb_false_iff in H1 as [H1 _].
Qed.

Lemma pretty_digits x s : digitText s → digitText (pretty_N_go x s).
Proof.
  revert s. induction (N.lt_wf_0 x) as [x _ IH]; intros s Hs.
  destruct (decide (x = 0)%N) as [->|Hx]; [done|]. rewrite pretty_N_go_step by lia.
  apply IH; [apply N.div_lt; lia|]. split; [|done].
  pose proof (digitOf_char (x mod 10) (N.mod_lt x 10 ltac:(done))) as Hd. unfold digitOf in Hd.
  unfold isDigit. destruct (pretty_N_char (x mod 10)) as [[] [] [] [] [] [] [] []]; vm_compute in Hd |- *; done.
Qed.

Lemma pretty_N_digits (n : N) : digitText (pretty n).
Proof. unfold pretty, pretty_N. case_decide; [done|]. by apply pretty_digits. Qed.

Lemma Atoi_pretty (n : Z) : inS 64 n → Atoi (pretty n) = Some n.
Proof.
  intros Hn. assert (∀ p : positive, digitsValue 0 (pretty p) = Some (Z.pos p)) as Hp.
  { intros p. change (pretty p) with (pretty (N.pos p)). unfold pretty, pretty_N. rewrite decide_False by done. by rewrite digitsValue_pretty. }
  assert (∀ p : positive, ∃ c s, pretty p = String c s ∧ isDigit c = true) as Hc.
  { intros p. pose proof (pretty_N_digits (N.pos p)) as H. specialize (Hp p).
    change (pretty (N.pos p)) with (pretty p) in H.
    destruct (pretty p) as [|c s]; [done|]. destruct H as [H%negb_false_iff _]. eauto. }
  unfold inS in Hn. destruct n as [|p|p]; [done|..]; destruct (Hc p) as (c & s & E & Hd); specialize (Hp p).
  - change (pretty (Z.pos p)) with (pretty p). rewrite E in Hp |- *. unfold Atoi.
    rewrite !decide_False by (by intros ->). rewrite Hp. cbn [mbind option_bind].
    rewrite (proj2 (Z.leb_le _ _)), (proj2 (Z.ltb_lt _ _)) by lia. done.
  - change (pretty (Z.neg p)) with (String "-" (pretty p)). unfold Atoi. rewrite decide_True by done.
    rewrite decide_False by (by rewrite E). rewrite Hp. cbn [mbind option_bind].
    rewrite (proj2 (Z.leb_le _ _)), (proj2 (Z.ltb_lt _ _)) by lia. done.
Qed.

Lemma pretty_Z_plain (n : Z) : plain (pretty n).
Proof.
  destruct n as [|p|p]; [done|..]; unfold pretty, pretty_Z; [apply digit_plain, pretty_N_digits|].
  apply (free_append _ "-"); [done|apply digit_plain, pretty_N_digits].
Qed.

Lemma Atoi_range s n : Atoi s = Some n → inS 64 n.
Proof.
  unfold Atoi. destruct s as [|c s]; [done|].
  assert (∀ neg t, (if decide (t = EmptyString) then None
    else n ← digitsValue 0 t; let n := if neg : bool then - n else n in
      if (- 2 ^ 63 <=? n) && (n <? 2 ^ 63) then Some n else None) = Some n → inS 64 n) as Hr.
  { intros neg t. case_decide; [done|]. destruct (digitsValue 0 t) as [x|]; [|done]. simpl mbind.
    case_match eqn:E; [|done]. intros [= <-]. unfold inS. apply andb_prop in E as [E1%Z.leb_le E2%Z.ltb_lt]. lia. }
  case_decide; [apply (Hr true)|]. case_decide; apply (Hr false).
Qed.

Lemma dtoiFrom_digits s n some m rest :
  dtoiFrom n some s = Some (m, rest) → ∃ d, s = (d ++ rest)%string ∧ digitText d.
Proof.
  revert n some. induction s as [|c s IH]; intros n some; cbn [dtoiFrom].
  - destruct some; [|done]. intros [= <- <-]. by exists EmptyString.
  - destruct (digitOf c) as [x|] eqn:Hd.
    + case_match; [done|]. intros (d & -> & Hs)%IH. exists (String c d). split; [done|]. split; [|done].
      clear -Hd. unfold digitOf in Hd. unfold isDigit.
      destruct c as [[] [] [] [] [] [] [] []]; vm_compute in Hd |- *; done.
    + destruct some; [|done]. intros [= <- <-]. by exists EmptyString.
Qed.

Lemma parseIPv4_plain j dot s l : parseIPv4From j dot s = Some l → plain s.
Proof.
  revert dot s l. induction j as [|j IH]; intros dot s l; cbn [parseIPv4From]; [by case_decide as E; [rewrite E|]|].
  set (s' := if dot then _ else _). destruct s' as [t|] eqn:E; [|done]. simpl mbind.
  unfold dtoi. destruct (dtoiFrom 0 false t) as [[n rest]|] eqn:Hn; [|done]. simpl mbind. case_match; [done|].
  destruct (parseIPv4From j true rest) as [l'|] eqn:Hl; [|done]. intros _. apply IH in Hl.
  apply dtoiFrom_digits in Hn as (d & -> & Hd).
  assert (plain (d ++ rest)) as Hp by (apply free_append; [by apply digit_plain|done]).
  unfold s' in E. destruct dot; [|by injection E as ->]. destruct s as [|c s]; [done|].
  destruct c as [[] [] [] [] [] [] [] []]; try done. injection E as ->. done.
Qed.

Lemma cutAt_spec f s a b : cutAt f s = (a, b) → free f a.
Proof.
  revert a b. induction s as [|c s IH]; intros a b; cbn [cutAt]; [by intros [= <- <-]|].
  destruct (f c) eqn:Hc; [by intros [= <- <-]|]. destruct (cutAt f s) as [a' b']. intros [= <- <-].
  split; [done|]. by eapply IH.
Qed.

(** An address that Set accepts is read back from its text; its port fits an int, and no
    other bound is put on it. *)
Theorem addr_roundtrip arg a a' b :
  addrSet arg a = (a', None) → addrSet (addrString a') b = (a', None) ∧ inS 64 (a_Port a').
Proof.
  unfold addrSet at 1. destruct (cutAt _ (TrimSpace arg)) as [ip [port|]] eqn:Ec; [|done].
  destruct (ParseIP ip) as [l|] eqn:Hip; [|done]. destruct (Atoi port) as [n|] eqn:Hn; [|done].
  intros [= <-]. apply Atoi_range in Hn. split; [|done]. unfold addrString, addrSet. simpl.
  apply cutAt_spec in Ec. pose proof (parseIPv4_plain _ _ _ _ Hip) as Hp.
  rewrite TrimSpace_plain.
  - change (":" ++ ?x)%string with (String ":" x). rewrite cutAt_append by done. by rewrite Hip, Atoi_pretty.
  - apply free_append; [done|]. apply (free_append _ ":"); [done|]. apply pretty_Z_plain.
Qed.

(** ** Examples *)
#[local] Instance valuesOrder : HeaderRange := {| fields := map_to_list; fields_perm := λ h, reflexivity _ |}.
#[local] Instance membersOrder : MemberRange := {| members := map_to_list; members_perm := λ c, reflexivity _ |}.

(** A duration in seconds only. *)
Definition wholeSeconds (s : string) : option Z := Z.mul second <$> Atoi s.

Definition twoFlags : FlagSet :=
  mkFlagSet {["name" := VString "a"; "data-dir" := VString "d"; "timeout" := VDuration (10 * second)]} {["name"]}.
Definition someEnv (key : string) : string :=
  if decide (key = "ETCD_NAME") then "b" else if decide (key = "ETCD_DATA_DIR") then "e"
  else if decide (key = "ETCD_TIMEOUT") then "soon" else EmptyString.

Lemma env_precedence_witness :
  let fs' := SetFlagsFromEnv wholeSeconds someEnv twoFlags in
  fs_formal fs' !! "name" = Some (VString "a") ∧ fs_formal fs' !! "data-dir" = Some (VString "e").
Proof.
  split.
  - apply (env_precedence wholeSeconds someEnv twoFlags "name" (VString "a") eq_refl).
    left. by apply (bool_decide_unpack _).
  - apply (env_precedence wholeSeconds someEnv twoFlags "data-dir" (VString "d") eq_refl); [|done].
    by apply (bool_decide_unpack _).
Defined.

Definition member1 : Member := newMember "a" ["http://10.0.0.1:2380"; "https://[fe80]:2380"] None.
Definition member2 : Member := newMember "b-2" ["http://10.0.0.2:2380"] None.
Definition twoMembers : Cluster := {[m_ID member1 := member1; m_ID member2 := member2]}.

Lemma twoMembers_ids : m_ID member1 ≠ m_ID member2.
Proof. by vm_compute. Qed.

Lemma member1_text : member_text member1.
Proof.
  split; [done|by vm_compute|done| |].
  - repeat constructor.
  - repeat constructor; [exists false, "10.0.0.1:2380"|exists true, "[fe80]:2380"];
      (split; [done|]; split; [by vm_compute|by eexists]).
Qed.

Lemma member2_text : member_text member2.
Proof.
  split; [done|by vm_compute|done|repeat constructor|].
  repeat constructor. exists false, "10.0.0.2:2380". split; [done|]. split; [by vm_compute|by eexists].
Qed.

Lemma twoMembers_text : cluster_text twoMembers.
Proof.
  assert (∀ id m, twoMembers !! id = Some m → id = m_ID m ∧ (m = member1 ∨ m = member2)) as Hm.
  { unfold twoMembers. intros id m. rewrite lookup_insert_Some, lookup_singleton_Some. intros [[<- <-]|[_ [<- <-]]]; auto. }
  split.
  - intros id m (-> & Hor)%Hm. split; [done|]. destruct Hor as [-> | ->]; [apply member1_text|apply member2_text].
  - intros i j m m' (_ & [-> | ->])%Hm (_ & [-> | ->])%Hm; done.
Qed.

Lemma cluster_flag_roundtrip_witness : clusterSet (clusterString twoMembers) = (twoMembers, None).
Proof. apply cluster_flag_roundtrip, twoMembers_text. Defined.

(** The example of the comment on Set, whose URLs have no port, makes a member without URLs,
    and so does the cluster of itserver.go; neither is an error. *)
Theorem bad_urls_accepted :
  let alone name := newMember name [] None in
  clusterSet "mach0=http://1.1.1.1,mach0=http://2.2.2.2" = ({[m_ID (alone "mach0") := alone "mach0"]}, None) ∧
  clusterSet "itest=localhost:8080" = ({[m_ID (alone "itest") := alone "itest"]}, None).
Proof. split; by vm_compute. Qed.

(** Text in the environment that is no value is not reported: a timeout becomes 0, and a
    cluster that is set becomes empty. *)
Theorem bad_env_accepted :
  let fs := SetFlagsFromEnv wholeSeconds (λ key, if decide (key = "ETCD_TIMEOUT") then "soon" else "a=%zz")
    (mkFlagSet {["timeout" := VDuration (10 * second); "bootstrap-config" := VCluster twoMembers]} ∅) in
  fs_formal fs !! "timeout" = Some (VDuration 0) ∧ fs_formal fs !! "bootstrap-config" = Some (VCluster ∅).
Proof. split; by vm_compute. Qed.

(** A port is any int. *)
Theorem bad_port_accepted : addrSet "127.0.0.1:-1" (mkAddr EmptyString 0) = (mkAddr "127.0.0.1" (-1), None).
Proof. by vm_compute. Qed.
