(* ===== verification/MainProps.v ===== *)
(** * MainProps: the program as a whole (src/main.go)

    A server whose process dies after it has saved a Ready, and that is started again by
    startEtcd with the same flags on the same directory, without a snapshot, has its log and
    its keys again; only the indexes of the keys of the members may be others.  The flags have
    the types that main.go expects, whatever the arguments and the environment are.  Two
    things that the handlers and listeners of the program do not do. *)

From stdpp Require Import pretty sorting.
From Stdlib Require Import String Ascii FunctionalExtensionality.
From S2P Require Import Prelude Raftpb.
From S2P Require Import RaftLog.
From S2P Require Import Raft RaftInv RaftElection RaftNode RaftCluster.
From S2P Require Import Wire RaftpbCodec Walpb Crc Wal WalNames WalRecords WalRead WalProps WalLog WalFaults.
From S2P Require Import RaftStorage Etcdserverpb.
From S2P Require Import Paths Snap TtlHeap EtcdError Stats StoreEvent WatcherHub StoreNode Store StoreTree.
From S2P Require Import StoreRemove HubProps HubNotify StoreWalk StoreCreate StoreProps StoreUpdate StoreDelete.
From S2P Require Import StoreExpire StoreGet StoreApi StoreTheorems StoreReplica StoreFindings StoreSave Wait.
From S2P Require Import Url Server Http Client Routes ServerProps ServerFindings ServerRestart Sha1 Cluster ClusterProps.
From S2P Require Import Proxy NetUrl Transport Flags FlagsProps Main.

(** ** Running the program *)
Lemma boot_step {A B} (m : boot A) (k : A → boot B) fs fs1 a :
  m fs = Ret (fs1, inr a) → (m ≫= k) fs = k a fs1.
Proof. intros E. unfold mbind, boot_bind. by rewrite E. Qed.

Lemma boot_inv {A B} (m : boot A) (k : A → boot B) fs fs' b :
  (m ≫= k) fs = Ret (fs', inr b) → ∃ fs1 a, m fs = Ret (fs1, inr a) ∧ k a fs1 = Ret (fs', inr b).
Proof.
  unfold mbind, boot_bind. destruct (m fs) as [[fs1 [e|a]]|e|] eqn:E; cbn [mbind run_bind]; [done| |done|done].
  intros H. eauto.
Qed.

Lemma orExit_inv {E A} (f : E → exit) (m : run (E + A)) fs fs' a :
  orExit f m fs = Ret (fs', inr a) → fs' = fs ∧ m = Ret (inr a).
Proof.
  unfold orExit. destruct m as [[e|a']|e|]; cbn [mbind run_bind]; [done| |done|done]. intros [= <- <-]. done.
Qed.

Lemma ret_step {A B} (a : A) (k : A → boot B) fs : (mret a ≫= k) fs = k a fs.
Proof. done. Qed.

Lemma getDir_step {B} dir (k : disk → boot B) fs : (getDir dir ≫= k) fs = k (default ∅ (fs !! dir)) fs.
Proof. done. Qed.

Lemma putDir_step {B} dir d (k : unit → boot B) fs : (putDir dir d ≫= k) fs = k tt (<[dir := d]> fs).
Proof. done. Qed.

Lemma MkdirAll_step {B} dir (k : unit → boot B) fs :
  (MkdirAll dir ≫= k) fs = k tt (<[dir := default ∅ (fs !! dir)]> fs).
Proof. done. Qed.

Lemma orExit_step {E A B} (f : E → exit) (m : run (E + A)) (k : A → boot B) a fs :
  m = Ret (inr a) → (orExit f m ≫= k) fs = k a fs.
Proof. by intros ->. Qed.

Lemma running_step {A B} (m : run A) (k : A → boot B) a fs : m = Ret a → (running m ≫= k) fs = k a fs.
Proof. by intros ->. Qed.

Lemma running_inv {A} (m : run A) fs fs' a : running m fs = Ret (fs', inr a) → fs' = fs ∧ m = Ret a.
Proof. unfold running. destruct m as [a'|e|]; cbn [mbind run_bind]; [|done|done]. intros [= <- <-]. done. Qed.

Section server.
Context {C X : Type} (readFile : string → string + list Z) (listen : string → option string).
Context (X509KeyPair : list Z → list Z → string + C).
Context (pemDecode : list Z → option (list Z * list Z)) (ParseCertificate : list Z → string + X).
Context (marshalMember : Member → string).
Context (unmarshalStore : list Z → option jstore).
Context (grow : nat → nat) (scan : string → option (Z * Z)).

Let listenOn := listenOn readFile listen X509KeyPair pemDecode ParseCertificate.

Lemma listenOn_files info sv urls fs fs' ls :
  listenOn info sv urls fs = Ret (fs', inr ls) → ∀ fs2, listenOn info sv urls fs2 = Ret (fs2, inr ls).
Proof.
  unfold listenOn. revert fs fs' ls. induction urls as [|u urls IH]; intros fs fs' ls; cbn [Main.listenOn].
  - by intros [= <- <-].
  - intros (fs1 & [addr cfg] & [-> E1]%orExit_inv & (fs2 & ls' & E2 & E3)%boot_inv)%boot_inv fs3.
    injection E3 as _ <-. rewrite (orExit_step _ _ _ _ _ E1). by erewrite boot_step by (eapply IH, E2).
Qed.

(** What startServer makes of an open log; it does not look at the files, and fails or not
    whatever the log and the store are. *)
Lemma startServer_inv (R1 R2 : ChildRange) (Q1 Q2 : MemberRange) now flags sd wd w n st fs fs' p :
  startServer (H := R1) (H0 := Q1) readFile listen X509KeyPair pemDecode ParseCertificate marshalMember
    now flags sd wd w n st fs = Ret (fs', inr p) →
  let serve st := start (mkServer NewList false st (snapCount flags) 0 0 []) in
  ∃ st', NewClusterStore (H := R1) (H0 := Q1) marshalMember now (cluster flags) st = Ret st' ∧
    p_snapdir p = sd ∧ p_waldir p = wd ∧ p_node p = n ∧ p_server p = serve st' ∧
    ∀ now2 w2 n2 st2 st2' fs2,
      NewClusterStore (H := R2) (H0 := Q2) marshalMember now2 (cluster flags) st2 = Ret st2' →
      startServer (H := R2) (H0 := Q2) readFile listen X509KeyPair pemDecode ParseCertificate marshalMember
        now2 flags sd wd w2 n2 st2 fs2 =
      Ret (fs2, inr (mkProgram sd wd w2 n2 (p_transport p) (p_clientURLs p) (serve st2') (p_listeners p))).
Proof.
  intros E serve. unfold startServer in E. apply boot_inv in E as (fs1 & pt & [-> E1]%orExit_inv & E).
  apply boot_inv in E as (fs2 & st' & [-> E2]%running_inv & E).
  apply boot_inv in E as (fs3 & acurls & E3 & E). unfold urlsFromFlags in E3. apply orExit_inv in E3 as [-> E3].
  apply boot_inv in E as (fs4 & lpurls & E4 & E). unfold urlsFromFlags in E4. apply orExit_inv in E4 as [-> E4].
  apply boot_inv in E as (fs5 & peers & E5 & E). pose proof (listenOn_files _ _ _ _ _ _ E5) as L5.
  apply boot_inv in E as (fs6 & lcurls & E6 & E). unfold urlsFromFlags in E6. apply orExit_inv in E6 as [-> E6].
  apply boot_inv in E as (fs7 & clients & E7 & E). pose proof (listenOn_files _ _ _ _ _ _ E7) as L7.
  injection E as <- <-. exists st'. split_and!; [done..|].
  intros now2 w2 n2 st2 st2' files2 Hst2. unfold startServer, urlsFromFlags.
  rewrite (orExit_step _ _ _ _ _ E1), (running_step _ _ _ _ Hst2), (orExit_step _ _ _ _ _ E3).
  rewrite (orExit_step _ _ _ _ _ E4), (boot_step _ _ _ _ _ (L5 files2)), (orExit_step _ _ _ _ _ E6).
  by rewrite (boot_step _ _ _ _ _ (L7 files2)).
Qed.

(** ** The store with the members of the cluster *)

(** The keys [v] of a new store after the members [ms] were added, in some order. *)
Record listed (ms : list Member) (v : kmap) : Prop := {
  li_member : ∀ m, m ∈ ms → ∃ i, v (memberKey (m_ID m)) = Some (mkEntry (Some (marshalMember m)) i i 0);
  li_dirs : ∀ k, k = ["_etcd"] ∨ k = machines → v k = if decide (ms = []) then None else Some (dirEntry 1);
  li_rest : ∀ k, k ∉ [["_etcd"]; machines] ++ (memberKey ∘ m_ID <$> ms) → v k = keys newStore k;
}.

Lemma newStore_keys x k : keys newStore (x :: k) = None.
Proof. unfold keys, view, newStore, alloc. simpl. rewrite lookup_insert_eq. simpl. by rewrite lookup_empty. Qed.

Lemma listed_new : listed [] (keys newStore).
Proof.
  split.
  - intros m ?%elem_of_nil. done.
  - intros k [-> | ->]; apply newStore_keys.
  - done.
Qed.

Lemma memberKey_length id : length (memberKey id) = 3%nat.
Proof. done. Qed.

Lemma memberKey_prefix k id :
  k `prefix_of` memberKey id → k = [] ∨ k ∈ [["_etcd"]; machines] ∨ k = memberKey id.
Proof.
  intros [z E]. destruct k as [|a [|b [|c k]]]; [by left|..]; right.
  - left. injection E as <- _. by left.
  - left. injection E as <- <- _. right. by left.
  - right. injection E as <- <- <- E. symmetry in E. by apply app_eq_nil in E as [-> _].
Qed.

Lemma listed_add ms m v :
  listed ms v → v (memberKey (m_ID m)) = None →
  let new := newEntry (len ms + 1) false (marshalMember m) Permanent in
  createSpec (len ms) v (memberKey (m_ID m)) false new =
    inr (place (uint64 (len ms + 1)) (memberKey (m_ID m)) new v) ∧
  listed (ms ++ [m]) (place (uint64 (len ms + 1)) (memberKey (m_ID m)) new v).
Proof.
  intros [H1 H2 H3] Hkey new. set (key := memberKey (m_ID m)) in *.
  pose proof (H2 ["_etcd"] ltac:(by left)) as D1. pose proof (H2 machines ltac:(by right)) as D2.
  split; [|split].
  - unfold createSpec. rewrite decide_False by done. rewrite Hkey. cbn [placeError].
    assert (dirError (len ms) v [] (removelast key) = None) as ->; [|done].
    unfold key, memberKey, machines. cbn [removelast app dirError]. unfold machines in D2. rewrite D1, D2.
    by case_decide.
  - clear D1 D2 H2. intros m' Hm'. unfold place. case_decide as E.
    + apply elem_of_app in Hm' as [Hm'|Hm']; [by destruct (H1 m' Hm') as [i Hi]; rewrite E, Hkey in Hi|].
      apply list_elem_of_singleton in Hm' as ->. by eexists.
    + apply elem_of_app in Hm' as [Hm'|Hm']; [|by apply list_elem_of_singleton in Hm' as ->].
      destruct (H1 m' Hm') as [i Hi]. exists i. by rewrite Hi.
  - intros k Hk. assert (k ≠ key ∧ k `prefix_of` key) as [Hne Hp].
    { destruct Hk as [-> | ->]; (split; [done|]); [by exists ["machines"; hexName (m_ID m)]|by exists [hexName (m_ID m)]]. }
    pose proof (H2 k Hk) as Hv. clear D1 D2 H2. unfold place. rewrite decide_False, Hv by done. clear Hv. rewrite (decide_False (P := ms ++ [m] = [])) by (by intros [_ ?]%app_eq_nil).
    case_decide as Hms; [|done]. rewrite decide_True by done. by subst ms.
  - intros k Hk. rewrite fmap_app, app_assoc, not_elem_of_app in Hk. destruct Hk as [Hk Hm].
    assert (k ≠ key) as Hne by (intros ->; apply Hm; by left). unfold place. rewrite decide_False, (H3 k Hk) by done.
    clear D1 D2 H2. destruct (keys newStore k) eqn:E; [done|]. case_decide as Hp; [|done].
    apply memberKey_prefix in Hp as [->|[Hp|Hp]]; [done|by destruct Hk; apply elem_of_app; left|done].
Qed.

Section adding.
Context (R : ChildRange) (now : Z).

Lemma storeAdd_listed done m s :
  store_ok s → room s → s_CurrentIndex s = len done → listed done (keys s) →
  memberKey (m_ID m) ∉ memberKey ∘ m_ID <$> done →
  ∃ s', storeAdd (H := R) marshalMember now m s = Ret s' ∧ store_ok s' ∧
    s_CurrentIndex s' = s_CurrentIndex s + 1 ∧ listed (done ++ [m]) (keys s').
Proof.
  intros Hok Hroom Hi Hl Hnew. unfold storeAdd.
  destruct (refines_create now s (storeKey m) false (marshalMember m) false Permanent Hok Hroom)
    as (s' & r & a & -> & Ha & I). cbn [mbind run_bind]. cbn [effect] in Ha. rewrite add_names, Hi in Ha.
  destruct (listed_add done m (keys s) Hl) as [E Hl'].
  { rewrite (li_rest _ _ Hl); [apply newStore_keys|]. rewrite not_elem_of_app. split; [|done].
    rewrite !elem_of_cons, elem_of_nil. by intros [?|[?|[]]]. }
  rewrite E in Ha. subst a. destruct I as (ep & e & -> & [Ok' _ Hi' Hk _ _] & _).
  exists s'. split_and!; [done..|]. apply functional_extensionality in Hk. by rewrite Hk.
Qed.

Lemma storeAdds_listed done ms s :
  store_ok s → s_CurrentIndex s = len done → listed done (keys s) → len done + len ms < 2 ^ 64 →
  NoDup (memberKey ∘ m_ID <$> done ++ ms) →
  ∃ s', forEach (storeAdd (H := R) marshalMember now) ms s = Ret s' ∧ store_ok s' ∧
    s_CurrentIndex s' = len (done ++ ms) ∧ listed (done ++ ms) (keys s').
Proof.
  revert done s. induction ms as [|m ms IH]; intros done s Hok Hi Hl Hlen Hnd.
  { exists s. by rewrite app_nil_r. }
  rewrite len_cons in Hlen. pose proof (len_nonneg ms). pose proof (len_nonneg done).
  rewrite fmap_app, fmap_cons in Hnd.
  destruct (storeAdd_listed done m s) as (s1 & E & Ok1 & I1 & Hl1); [done|unfold room; lia|done..| |].
  { apply NoDup_app in Hnd as (_ & Hd & _). intros Hin. apply (Hd _ Hin). by left. }
  assert (len (done ++ [m]) = len done + 1) as Hl' by (unfold len; rewrite length_app; simpl; lia).
  destruct (IH (done ++ [m]) s1) as (s2 & E2 & H2); [done|lia|done|lia| |].
  { by rewrite <-app_assoc, fmap_app, fmap_app. }
  rewrite <-app_assoc in H2. exists s2. cbn [forEach]. by rewrite E.
Qed.

Lemma storeAdds_NoDup ms s s' :
  store_ok s → s_CurrentIndex s + len ms < 2 ^ 64 →
  forEach (storeAdd (H := R) marshalMember now) ms s = Ret s' → NoDup (memberKey ∘ m_ID <$> ms).
Proof.
  revert s. induction ms as [|m ms IH]; intros s Hok Hlen; [constructor|].
  rewrite len_cons in Hlen. pose proof (len_nonneg ms). cbn [forEach].
  destruct (storeAdd_cases marshalMember now m s) as [->|(s1 & -> & Ok1 & Hi & _ & _ & Hm)]; [done|unfold room; lia|done|].
  cbn [mbind run_bind]. intros E. rewrite fmap_cons. constructor; [|by eapply IH; [..|exact E]; [done|lia]].
  intros (m' & Em & Hin)%list_elem_of_fmap. simpl in Em. rewrite Em in Hm.
  rewrite (storeAdds_panic marshalMember now ms s1 m') in E; [done..|lia].
Qed.
End adding.

(** The keys of the members of a cluster. *)
Definition isMember (c : Cluster) (k : list string) : Prop := ∃ id m, c !! id = Some m ∧ k = memberKey (m_ID m).

Lemma listed_alike c ms1 ms2 v1 v2 :
  (∀ m, m ∈ ms1 → ∃ id, c !! id = Some m) → ms1 ≡ₚ ms2 → listed ms1 v1 → listed ms2 v2 → alike (isMember c) v1 v2.
Proof.
  intros Hc Hp [A1 A2 A3] [B1 B2 B3] k. destruct (decide (k ∈ memberKey ∘ m_ID <$> ms1)) as [Hk|Hk].
  { apply list_elem_of_fmap in Hk as (m & -> & Hm). destruct (A1 m Hm) as [i Hi].
    destruct (B1 m) as [i' Hi']; [by rewrite <-Hp|]. simpl. rewrite Hi, Hi'. constructor.
    split_and!; [done..|]. left. destruct (Hc m Hm) as [id Hid]. by exists id, m. }
  destruct (decide (k ∈ [["_etcd"]; machines])) as [Hd|Hd].
  - assert (k = ["_etcd"] ∨ k = machines) as Hd'.
    { rewrite !elem_of_cons, elem_of_nil in Hd. tauto. }
    rewrite (A2 k Hd'), (B2 k Hd'). assert (ms1 = [] ↔ ms2 = []) as Hn.
    { split; intros ->; [by apply Permutation_nil_l in Hp|by apply Permutation_nil_r in Hp]. }
    repeat case_decide; try tauto; constructor. split_and!; [done..|by right].
  - rewrite A3, B3 by (rewrite ?Hp; rewrite not_elem_of_app; rewrite <-?Hp; done).
    destruct (keys newStore k); constructor. split_and!; [done..|by right].
Qed.

Lemma listed_lasting ms v k en : listed ms v → v k = Some en → v_expire en = 0.
Proof.
  intros [A1 A2 A3] Hk. destruct (decide (k ∈ memberKey ∘ m_ID <$> ms)) as [Hm|Hm].
  { apply list_elem_of_fmap in Hm as (m & -> & Hm). destruct (A1 m Hm) as [i Hi]. simpl in Hk.
    rewrite Hi in Hk. by injection Hk as <-. }
  destruct (decide (k ∈ [["_etcd"]; machines])) as [Hd|Hd].
  - rewrite A2 in Hk; [by case_decide; [|injection Hk as <-]|]. rewrite !elem_of_cons, elem_of_nil in Hd. tauto.
  - rewrite A3 in Hk by by rewrite not_elem_of_app. by eapply newStore_expire.
Qed.

(** Nothing expires, so the heap is empty. *)
Lemma lasting_heap s : store_ok s → lasting s → Len (t_ttl (s_tree s)) = 0%nat.
Proof.
  intros Hok Hl. destruct (heap_size s Hok) as (l & _ & <- & Hin). destruct l as [|k l]; [done|].
  destruct (proj1 (Hin k) ltac:(by left)) as (en & Hk & Hz). by apply Hl in Hk.
Qed.

Lemma NewClusterStore_twins (R1 R2 : ChildRange) (Q1 Q2 : MemberRange) now1 now2 c st1 :
  Z.of_nat (size c) < 2 ^ 64 →
  NewClusterStore (H := R1) (H0 := Q1) marshalMember now1 c newStore = Ret st1 →
  ∃ st2, NewClusterStore (H := R2) (H0 := Q2) marshalMember now2 c newStore = Ret st2 ∧
    twins (isMember c) st1 st2 [] (Z.of_nat (size c)).
Proof.
  intros Hsize E1. unfold NewClusterStore in *.
  set (ms1 := (members (MemberRange := Q1) c).*2) in *. set (ms2 := (members (MemberRange := Q2) c).*2).
  assert (ms1 ≡ₚ ms2) as Hp by (unfold ms1, ms2; by rewrite (members_perm c), (members_perm c)).
  assert (len ms1 = Z.of_nat (size c)) as Hlen by apply len_members.
  assert (len ms2 = len ms1) as Hlen2 by (unfold len; by rewrite Hp).
  pose proof (storeAdds_NoDup R1 now1 ms1 newStore st1 newStore_ok ltac:(simpl; lia) E1) as Hnd.
  destruct (storeAdds_listed R1 now1 [] ms1 newStore newStore_ok eq_refl listed_new) as (s1 & F1 & Ok1 & I1 & L1);
    [rewrite Z.add_0_l; lia|done|]. rewrite E1 in F1. injection F1 as <-.
  destruct (storeAdds_listed R2 now2 [] ms2 newStore newStore_ok eq_refl listed_new) as (st2 & E2 & Ok2 & I2 & L2);
    [rewrite Z.add_0_l; lia|simpl; by rewrite <-Hp|]. simpl in *.
  exists st2. split; [done|].
  assert (lasting st1) as Hl by (intros k en; by apply listed_lasting with ms1).
  split; [done..| | |].
  - split; [congruence|]. eapply listed_alike; [|exact Hp|done..]. intros m (id & Hin)%list_elem_of_fmap.
    destruct Hin as [-> Hin]. rewrite (members_perm c) in Hin. destruct id as [id m']. exists id. by apply elem_of_map_to_list.
  - split; [intros k en Hk Hz|intros j k ej ek Hk _ Hz]; by apply Hl in Hk.
  - rewrite lasting_heap by done. lia.
Qed.

(** ** Restarting *)
Lemma default_putDir (fs : filesystem) sd wd :
  default ∅ (<[sd := default ∅ (fs !! sd)]> fs !! wd) = default ∅ (fs !! wd).
Proof. destruct (decide (sd = wd)) as [->|Hne]; [by rewrite lookup_insert_eq|by rewrite lookup_insert_ne]. Qed.

(** A directory without snapshots, and a log that can be read. *)
Lemma restart_log `{ChildRange} id peers sd wd st fs w hs es n :
  Snapshotter.checkSuffix (readDir (default ∅ (fs !! sd))) = [] →
  reopen grow scan (default ∅ (fs !! wd)) 0 = Ret (w, (0, hs, es, None)) →
  RestartNode id peers 10 1 None hs es = Ok n →
  ∃ fs', restart unmarshalStore grow scan id peers sd wd st fs = Ret (fs', inr (w, n, st)).
Proof.
  intros Hs Hr Hn. unfold reopen in Hr. exists (<[sd := default ∅ (fs !! sd)]> fs).
  assert (Snapshotter.Load (default ∅ (fs !! sd)) =
    Ret (default ∅ (fs !! sd), inl Snapshotter.ErrNoSnapshot)) as HL.
  { unfold Snapshotter.Load, Snapshotter.snapNames. by rewrite Hs. }
  unfold restart. rewrite getDir_step, (running_step _ _ _ _ HL). cbn beta iota.
  rewrite putDir_step, ret_step. rewrite (running_step _ _ st) by done.
  rewrite getDir_step, default_putDir. cbn [fmap option_fmap option_map default].
  destruct (OpenAtIndex scan _ 0) as [[e|w0]|e]; cbn [lift mbind run_bind] in Hr |- *; [done| |done].
  rewrite (orExit_step _ _ _ w0) by done. rewrite (running_step _ _ _ _ Hr). cbn beta iota.
  change (negb (0 =? 0)) with false. rewrite Hn. by rewrite (running_step _ _ n).
Qed.

Lemma reopen_exists d i r : reopen grow scan d i = Ret r → Exist d = true.
Proof.
  unfold reopen, OpenAtIndex, Exist, checkWalNames. intros E.
  by destruct (readDir d) as [|x l].
Qed.

Let boots (R : ChildRange) (Q : MemberRange) := startEtcd (H := R) (H0 := Q) readFile listen X509KeyPair pemDecode ParseCertificate
  marshalMember unmarshalStore grow scan.

(** The members have names of their own, as those of the flag do. *)
Definition distinctNames (c : Cluster) : Prop :=
  ∀ i j mi mj, c !! i = Some mi → c !! j = Some mj → m_Name mi = m_Name mj → mi = mj.

Lemma FindName_orders (Q1 Q2 : MemberRange) name c m :
  distinctNames c → FindName (H := Q1) name c = Some m → FindName (H := Q2) name c = Some m.
Proof.
  intros Hd. unfold FindName.
  assert (∀ (Q : MemberRange) m, m ∈ (members (MemberRange := Q) c).*2 ↔ ∃ id, c !! id = Some m) as Hin.
  { intros Q m'. rewrite list_elem_of_fmap. setoid_rewrite (members_perm c). split.
    - intros ([id m''] & -> & Hm%elem_of_map_to_list). by exists id.
    - intros [id Hm]. exists (id, m'). split; [done|by apply elem_of_map_to_list]. }
  intros [Hm Hn%bool_decide_eq_true]%find_some. apply list_elem_of_In, Hin in Hm as [id Hid].
  destruct (List.find _ (members (MemberRange := Q2) c).*2) as [m'|] eqn:E.
  - apply find_some in E as [Hm' Hn'%bool_decide_eq_true]. apply list_elem_of_In, Hin in Hm' as [id' Hid'].
    f_equal. eapply Hd; [done..|congruence].
  - assert (In m (members (MemberRange := Q2) c).*2) as Hm by (apply list_elem_of_In, Hin; by exists id).
    apply (find_none _ _ E) in Hm. by apply bool_decide_eq_false in Hm.
Qed.

(** The first start on a directory, and a later one that finds a log. *)
Lemma startEtcd_again (R1 R2 : ChildRange) (Q1 Q2 : MemberRange) now1 now2 flags fs0 fs1 p0 :
  boots R1 Q1 now1 flags fs0 = Ret (fs1, inr p0) → distinctNames (cluster flags) → Exist (default ∅ (fs0 !! p_waldir p0)) = false →
  let serve st := start (mkServer NewList false st (snapCount flags) 0 0 []) in
  ∃ id st1, id ≠ None_ ∧ p_server p0 = serve st1 ∧
    NewClusterStore (H := R1) (H0 := Q1) marshalMember now1 (cluster flags) newStore = Ret st1 ∧
    ∀ fs2 w hs es n st2,
      Snapshotter.checkSuffix (readDir (default ∅ (fs2 !! p_snapdir p0))) = [] →
      reopen grow scan (default ∅ (fs2 !! p_waldir p0)) 0 = Ret (w, (0, hs, es, None)) →
      RestartNode id (IDs (H := Q2) (cluster flags)) 10 1 None hs es = Ok n →
      NewClusterStore (H := R2) (H0 := Q2) marshalMember now2 (cluster flags) newStore = Ret st2 →
      ∃ fs3 p2, boots R2 Q2 now2 flags fs2 = Ret (fs3, inr p2) ∧ p_node p2 = n ∧ p_server p2 = serve st2.
Proof.
  intros E Hnames Hnew serve. unfold boots, startEtcd in E |- *.
  destruct (FindName (H := Q1) _ _) as [self|] eqn:Hself; [|done].
  apply (FindName_orders Q1 Q2) in Hself; [|done]. rewrite Hself.
  destruct (m_ID self =? None_) eqn:Hid; [done|]. destruct (snapCount flags <=? 0); [done|].
  cbv zeta in E |- *. set (dir := if decide _ then _ else _) in E |- *.
  rewrite !MkdirAll_step in E.
  apply boot_inv in E as (fs3 & [[w n] st] & E0 & E1). unfold openLog in E0. rewrite getDir_step, !default_putDir in E0.
  apply (startServer_inv R1 R2 Q1 Q2) in E1 as (st1 & Hst1 & Hsd & Hwd & Hn & Hs & Hagain).
  rewrite Hsd, Hwd in *. rewrite Hnew in E0. cbn [negb] in E0.
  assert (st = newStore) as ->.
  { unfold startNew in E0. rewrite getDir_step in E0. apply boot_inv in E0 as (fs4 & [d w'] & _ & E0).
    rewrite putDir_step in E0. apply boot_inv in E0 as (fs5 & n' & _ & E0). by injection E0 as _ _ _ <-. }
  exists (m_ID self), st1. apply Z.eqb_neq in Hid. split_and!; [done..|].
  intros fs2 w2 hs es n2 st2 Hsn Hr Hn2 Hst2. rewrite !MkdirAll_step.
  match goal with |- context [<[Join dir "snap" := ?d]> ?f] => set (fs' := <[Join dir "snap" := d]> f) end.
  assert (∀ dd, default ∅ (fs' !! dd) = default ∅ (fs2 !! dd)) as Hfs
    by (intros dd; unfold fs'; by rewrite !default_putDir).
  apply reopen_exists in Hr as Hex. destruct (restart_log (m_ID self) (IDs (H := Q2) (cluster flags)) (Join dir "snap") (Join dir "wal") newStore fs' w2 hs es n2)
    as (fs4 & Er); [by rewrite Hfs|by rewrite Hfs|done|]. 
  rewrite (boot_step (openLog _ _ _ _ _ _ _ _) _ fs' fs4 (w2, n2, newStore))
    by (unfold openLog; by rewrite getDir_step, Hfs, Hex).
  eexists fs4, _. split; [apply (Hagain now2 w2 n2 newStore st2 fs4 Hst2)|done].
Qed.

Hypothesis scan_walName : ∀ seq i,
  0 ≤ seq < 2 ^ 63 → 0 ≤ i < 2 ^ 63 → scan (walName seq i) = Some (seq, i).

End server.

(** ** The flags of the program *)
Section flags.
Context `{HeaderRange} (parseDuration : string → option Z).

(** The flags that URLsFromFlags is called with. *)
Definition urlFlags : list (string * string) :=
  [("advertise-client-urls", "addr"); ("listen-peer-urls", "peer-bind-addr"); ("listen-client-urls", "bind-addr")].

Lemma URLsFromFlags_ok {C} fs u a (info : TLSInfo C) :
  kind <$> fs_formal fs !! u = Some 5%nat → kind <$> fs_formal fs !! a = Some 8%nat →
  ∃ r, URLsFromFlags fs u a info = Ok r.
Proof.
  intros Hu Ha. unfold URLsFromFlags. destruct (fs_formal fs !! u) as [[]|], (fs_formal fs !! a) as [[]|]; try done.
  repeat case_match; eauto.
Qed.

(** Whatever the arguments and the environment are, the flags that main.go reads have the types
    that they were defined with, and none of the conversions of URLsFromFlags panics. *)
Theorem flags_typed {C} args getenv (info : TLSInfo C) :
  let fs := SetFlagsFromEnv parseDuration getenv (flagParse parseDuration args initFlags).1 in
  same_kinds initFlags fs ∧ Forall (λ p, ∃ r, URLsFromFlags fs p.1 p.2 info = Ok r) urlFlags.
Proof.
  intros fs. assert (same_kinds initFlags fs) as Hk.
  { etrans; [apply flagParse_kinds|apply SetFlagsFromEnv_kinds]. }
  split; [done|]. repeat constructor; apply URLsFromFlags_ok; by rewrite (Hk _).
Qed.
End flags.

(** A proxy that is read-only refuses the preflight requests of browsers, which its CORS handler
    would answer: the handler that looks at the method is outside of it. *)
Theorem readonly_refuses_preflight {S} info (next : handler S) req rw s :
  r_Method req = "OPTIONS" →
  proxyHandler info true next req rw s = (s, mkResponse 501 rw []) ∧
  rs_StatusCode (proxyHandler info false next req rw s).2 = 200.
Proof. intros E. unfold proxyHandler, readonlyHandlerFunc, corsServe. rewrite E. by repeat case_decide. Qed.

(** ** Example: a server of a cluster of two *)
#[local] Existing Instance keyOrder.
#[local] Existing Instance valuesOrder.
#[local] Existing Instance membersOrder.

(** Another order of the members. *)
Lemma lastFirst_perm (c : Cluster) : reverse (map_to_list c) ≡ₚ map_to_list c.
Proof. apply reverse_Permutation. Qed.
Definition lastFirst : MemberRange := {| members c := reverse (map_to_list c); members_perm := lastFirst_perm |}.

Definition pairFlags : FlagSet :=
  (flagParse wholeSeconds ["-data-dir=d"; "-bootstrap-config=default=http://10.0.0.1:2380,other=http://10.0.0.2:2380"]
    initFlags).1.
Definition pairBoot (R : ChildRange) (Q : MemberRange) (now : Z) : boot (program (C := unit) (X := unit)) :=
  startEtcd (H := R) (H0 := Q) (λ _, inl "no such file") (λ _, None) (λ _ _, inl "no certificate") (λ _, None)
    (λ _, inl "no certificate") m_Name (λ _, None) Nat.double scanName now pairFlags.

Lemma pairBoot_ok :
  ∃ fs p, pairBoot mapOrder membersOrder 0 ∅ = Ret (fs, inr p) ∧ p_waldir p = "d/wal" ∧ p_snapdir p = "d/snap".
Proof.
  assert (match pairBoot mapOrder membersOrder 0 ∅ with
          | Ret (_, inr p) => String.eqb (p_waldir p) "d/wal" && String.eqb (p_snapdir p) "d/snap"
          | _ => false
          end = true) as E by by vm_compute.
  destruct (pairBoot mapOrder membersOrder 0 ∅) as [[fs [e|p]]|e|]; try done.
  apply andb_prop in E as [E1%String.eqb_eq E2%String.eqb_eq]. by exists fs, p.
Qed.

Lemma pair_names : distinctNames (cluster pairFlags).
Proof.
  assert (Forall (λ a, Forall (λ b, m_Name a.2 = m_Name b.2 → a.1 = b.1) (map_to_list (cluster pairFlags)))
    (map_to_list (cluster pairFlags))) as HF by (apply (bool_decide_unpack _); by vm_compute).
  intros i j mi mj Hi Hj Hn. rewrite Forall_forall in HF. specialize (HF (i, mi)). rewrite Forall_forall in HF.
  specialize (HF (proj2 (elem_of_map_to_list _ _ _) Hi) (j, mj) (proj2 (elem_of_map_to_list _ _ _) Hj) Hn).
  simpl in HF. congruence.
Qed.

Lemma alone_session : ∃ dk, crashSession Nat.double scanName ([] ++ [saving (ready alone)]) = Ret dk.
Proof.
  assert (match crashSession Nat.double scanName ([] ++ [saving (ready alone)]) with Ret _ => true | _ => false end = true)
    as E by by vm_compute.
  destruct (crashSession _ _ _) as [dk|e|]; try done. by exists dk.
Qed.

Lemma alone_sparing M : Forall (sparing M) ([] ++ rd_CommittedEntries (ready alone)).
Proof.
  set (l := _ ++ _). vm_compute in l. unfold l. repeat apply Forall_cons_2; [vm_compute; exact I..|constructor].
Qed.

Lemma pair_fits : 2 * (Z.of_nat (size (cluster pairFlags)) + len ([] ++ rd_CommittedEntries (ready alone))) < 2 ^ 64.
Proof. by vm_compute. Qed.


(** The two orders do give the members different indexes. *)
Theorem member_indexes_differ :
  ∃ st1 st2, NewClusterStore (H := mapOrder) (H0 := membersOrder) m_Name 0 (cluster pairFlags) newStore = Ret st1 ∧
    NewClusterStore (H := mapOrder) (H0 := lastFirst) m_Name 0 (cluster pairFlags) newStore = Ret st2 ∧
    ∃ id, v_created <$> keys st1 (memberKey id) = Some 1 ∧ v_created <$> keys st2 (memberKey id) = Some 2.
Proof.
  eexists _, _. split; [vm_compute; reflexivity|]. split; [vm_compute; reflexivity|].
  eexists (default 0 (m_ID <$> (members (MemberRange := membersOrder) (cluster pairFlags)).*2 !! 0%nat)). by vm_compute.
Qed.
