(* ===== verification/Itest.v ===== *)
(** * Itest: a server for tests (src/itest/itserver.go)

    A server that a test starts in its own process, on a directory that Stop removes.  Start is
    startEtcd of Main with other flags; the functions that open the log are shared with it.
    The parameters are those of Main. *)

From stdpp Require Import pretty sorting.
From Stdlib Require Import String Ascii.
From S2P Require Import Prelude Raftpb RaftLog Raft RaftNode.
From S2P Require Import Wire RaftpbCodec Etcdserverpb Wal Snap.
From S2P Require Import Paths TtlHeap EtcdError StoreEvent WatcherHub StoreNode Store StoreSave.
From S2P Require Import Url Wait Server Http Client Routes Sha1 Cluster Proxy NetUrl Transport Flags FlagsProps Main MainProps.

Record ITServer := mkITServer {
  it_port : Z;
  it_etcds : option EtcdServer;
  it_dir : string;
  it_name : string;
  it_snapCount : Z;
  it_timeout : Z;
  it_addr : IPAddressPort;
  it_cluster : Cluster;
}.

Definition NewItServer `{HeaderRange} (port : Z) : ITServer :=
  mkITServer port None EmptyString "itest" DefaultSnapCount (10 * second)
    (addrSet ("127.0.0.1:" ++ pretty port) (mkAddr EmptyString 0)).1 (clusterSet "itest=localhost:8080").1.

Section itserver.
Context {C X : Type} (readFile : string → string + list Z) (listen : string → option string).
Context (X509KeyPair : list Z → list Z → string + C).
Context (pemDecode : list Z → option (list Z * list Z)) (ParseCertificate : list Z → string + X).
Context `{ChildRange} `{MemberRange} (marshalMember : Member → string).
Context (unmarshalStore : list Z → option jstore).
Context (grow : nat → nat) (scan : string → option (Z * Z)).

Definition noTLS : TLSInfo C := mkTLSInfo EmptyString EmptyString EmptyString None.

(** [snapCount] is a uint64.  The error of url.Parse is not looked at, and a nil URL panics. *)
Definition itStart (now : Z) (s : ITServer) : boot (ITServer * program (C := C) (X := X)) :=
  match FindName (it_name s) (it_cluster s) with
  | None => Exit (NoMember (it_name s))
  | Some self =>
      if m_ID self =? None_ then Exit CannotUseNone
      else if it_snapCount s <=? 0 then Exit (BadSnapCount (it_snapCount s))
      else
        let dir := (it_name s ++ "_" ++ pretty (m_ID self) ++ "_etcd_data")%string in
        let snapdir := Join dir "snap" in
        let waldir := Join dir "wal" in
        MkdirAll dir;;
        MkdirAll snapdir;;
        '(w, n, st) ← openLog unmarshalStore grow scan (m_ID self) (IDs (it_cluster s)) snapdir waldir newStore;
        pt ← orExit Failure (NewTransport readFile X509KeyPair pemDecode ParseCertificate noTLS);
        st ← running (NewClusterStore marshalMember now (it_cluster s) st);
        u ← running (lift (deref (Parse ("http://localhost:" ++ pretty (it_port s) ++ "/"))));
        let etcds := start (mkServer NewList false st (int64 (it_snapCount s)) 0 0 []) in
        l ← listenOn readFile listen X509KeyPair pemDecode ParseCertificate noTLS
              (ServeClients ∅ (handlerTimeout (it_timeout s))) [u];
        mret (mkITServer (it_port s) (Some etcds) dir (it_name s) (it_snapCount s) (it_timeout s) (it_addr s) (it_cluster s),
              mkProgram snapdir waldir w n pt [u] etcds l)
  end.
End itserver.

(** os.RemoveAll. *)
Definition RemoveAll (dir : string) : boot unit := λ fs,
  Ret (filter (λ x, negb (String.eqb x.1 dir || HasPrefix x.1 (dir ++ "/")) = true) fs, inr tt).

Definition itStop (s : ITServer) : boot ITServer :=
  etcds ← running (lift (deref (it_etcds s)));
  etcds ← running (Stop etcds);
  RemoveAll (it_dir s);;
  mret (mkITServer (it_port s) (Some etcds) (it_dir s) (it_name s) (it_snapCount s) (it_timeout s) (it_addr s)
          (it_cluster s)).

(** ** A server that was stopped leaves nothing behind *)
Lemma Join_plain dir x : name_ok dir → name_ok x → Join dir x = (dir ++ "/" ++ x)%string.
Proof.
  intros Hd Hx. unfold Join. rewrite decide_False by apply Hd.
  change ("/" ++ x)%string with (String slash x). unfold Clean.
  assert (isRooted (dir ++ String slash x) = false) as ->.
  { destruct Hd as [Hns Hne _ _]. destruct dir as [|c dir]; [done|]. apply bool_decide_eq_false, Hns. }
  rewrite split_app, split_noSlash by (apply Hd || apply Hx).
  rewrite cleanNames_id by (apply Forall_cons; split; [done|]; by apply Forall_singleton). done.
Qed.

Lemma noSlash_append a b : noSlash a → noSlash b → noSlash (a ++ b).
Proof. induction a as [|c a IH]; [done|]. intros [Hc Ha] Hb. rewrite append_cons. split; [done|by apply IH]. Qed.

Lemma pretty_noSlash (n : Z) : noSlash (pretty n).
Proof.
  assert (∀ s, digitText s → noSlash s) as Hd.
  { induction s as [|c s IH]; [done|]. intros [Hc Hs]. split; [|by apply IH]. by intros ->. }
  destruct n as [|p|p]; [done|apply Hd, pretty_N_digits|].
  change (pretty (Z.neg p)) with ("-" ++ pretty (N.pos p))%string.
  apply noSlash_append; [done|apply Hd, pretty_N_digits].
Qed.

(** The directory that Start makes. *)
Lemma itDir_ok name (id : Z) : noSlash name → name_ok (name ++ "_" ++ pretty id ++ "_etcd_data").
Proof.
  intros Hn. assert (∀ c, String.length c < 3 → c ≠ (name ++ "_" ++ pretty id ++ "_etcd_data")%string)%nat as Hl.
  { intros c Hc ->. rewrite !length_append in Hc. simpl in Hc. lia. }
  split.
  - repeat apply noSlash_append; [done..|apply pretty_noSlash|done].
  - intros E. apply (Hl EmptyString); [simpl; lia|done].
  - intros E. apply (Hl "."); [simpl; lia|done].
  - intros E. apply (Hl ".."); [simpl; lia|done].
Qed.

Lemma RemoveAll_gone dir x fs fs' :
  name_ok dir → name_ok x → RemoveAll dir fs = Ret (fs', inr tt) → fs' !! Join dir x = None.
Proof.
  intros Hd Hx [= <-]. rewrite Join_plain by done. apply map_lookup_filter_None. right. intros d _. simpl.
  rewrite <-append_assoc, prefix_append, orb_true_r. done.
Qed.

(** The server of a test, once it is stopped, leaves neither a log nor snapshots: the next one
    starts anew. *)
Theorem itserver_leaves_nothing {C X} readFile listen X509KeyPair pemDecode ParseCertificate `{ChildRange} `{MemberRange}
    marshalMember unmarshalStore grow scan now s s' s'' (p : program (C := C) (X := X)) fs fs1 fs2 fs3 :
  noSlash (it_name s) →
  itStart readFile listen X509KeyPair pemDecode ParseCertificate marshalMember unmarshalStore grow scan now s fs =
    Ret (fs1, inr (s', p)) →
  itStop s' fs2 = Ret (fs3, inr s'') →
  fs3 !! p_waldir p = None ∧ fs3 !! p_snapdir p = None.
Proof.
  intros Hname E. unfold itStart in E. destruct (FindName _ _) as [self|]; [|done].
  destruct (m_ID self =? None_); [done|]. destruct (it_snapCount s <=? 0); [done|]. cbv zeta in E.
  rewrite !MkdirAll_step in E. apply boot_inv in E as (f1 & [[w n] st] & _ & E).
  apply boot_inv in E as (f2 & pt & _ & E). apply boot_inv in E as (f3 & st' & _ & E).
  apply boot_inv in E as (f4 & u & _ & E). apply boot_inv in E as (f5 & l & _ & E). injection E as _ <- <-.
  unfold itStop. intros (g1 & et & [-> _]%running_inv & F)%boot_inv.
  apply boot_inv in F as (g2 & et' & [-> _]%running_inv & F). apply boot_inv in F as (g3 & [] & F & G).
  injection G as <- _. cbn [it_dir p_waldir p_snapdir] in *. pose proof (itDir_ok (it_name s) (m_ID self) Hname).
  split; (eapply RemoveAll_gone; [done|by split|exact F]).
Qed.
